(* ===== verification/_CoqProject ===== *)
-Q . S2P
Prelude.v
ContainerHeap.v
Msg.v
Heaps.v
LogStore.v
Queue.v
QueueInv.v
QueueSpec.v
QueueOps.v
QueueReceive.v
Calls.v
Effects.v
History.v
Receive.v
QueueProps.v
ReceiveProps.v
HeapProps.v
Bytes.v
Encoding.v
Wal.v
WalOps.v
WireCodec.v
WalProps.v
Manager.v
Recovery.v
Restore.v
ManagerOps.v
CompactOps.v
ReplayOps.v
ManagerRun.v
Compacted.v
Faults.v
FaultRun.v
ManagerProps.v
Api.v
ApiOps.v
ApiProps.v
Server.v
ServerOps.v
Shutdown.v
ServerProps.v
Threads.v
ThreadOps.v
ThreadRun.v
Linear.v
Wakeup.v
ThreadProps.v
Late.v
Cuts.v
LateProps.v
Demo.v
DemoOps.v
DemoProps.v
