(* ===== verification/Prelude.v ===== *)
(** * Frankenqueue: a verification library for the durable message queue

    The program is a message queue server in Go: named queues with priorities,
    delays, leases and dead letters, kept in memory and made durable by one
    write ahead log, behind an HTTP interface.  This library models the package
    [queue] (src/queue), the handlers (src/api.go), the process (src/main.go) and
    the demonstration client (src/cmd/demo) and proves what they promise.  It is a
    shallow embedding: every Go function is a Rocq function of the same name over
    explicit state, and every one can be run.

    ** How the code is modelled

    - Integers are [Z] with the wrap-around of their width written out ([u64],
      [i64]); an instant is a [Z] of nanoseconds since the zero [time.Time], a
      duration an [int64] of nanoseconds.
    - A [*Msg] is a location of a queue's store ([mem]); the heaps, the lease
      table and the dead letter list hold locations, so a message reached two
      ways is one message, and the index that [container/heap] keeps in it is
      modelled where it is.
    - [(T, error)] is [result T]; a panic is the [None] of an enclosing [option].
      That no operation panics is part of the theorems about it.
    - Every method holds its mutex from beginning to end, so a call is one step
      and what several clients do to one queue is any sequence of calls.  The
      exceptions are taken apart: [Receive] is attempts between the calls of
      others, [Replay] is a collecting and a publishing half, and the pump ticks
      between calls.
    - A handler is a function first ([Api]), then a goroutine ([Threads]): a tree
      of critical sections with a scheduler between any two of them, run in a pool
      with the handlers of other requests and the pump.  [ThreadOps] shows that a
      handler alone is the function.
    - What the environment of a client does is a tape, one entry for a request.
    - The clock, random bytes, the answers of the file system, the map order of
      [range] and what a JSON body decodes to are arguments.
    - Loops that are not structural take fuel computed from the data (the size
      of a heap, the bytes left to read), and that it is enough is proved.

    ** Files

    - [Prelude]: this header, machine integers, results, time, list lemmas, the hint
      databases [words] (machine arithmetic) and [frame] (what an operation leaves
      alone) with the tactic [framed].
    - [ContainerHeap]: Go's [container/heap] over an interface
      ([HeapInterface]): Init, Push, Pop, Remove, Fix, on a list and, by the
      simulation [HeapSim], on any implementation.
    - [Msg]: msg.go and the data of queue.go and wal.go: [Msg], [Config], [Rec]
      (the log's Record), the errors.
    - [Heaps]: heaps.go: [msgHeap] as an instance of [HeapInterface], the comparators.
    - [LogStore]: what a queue asks of its log, as the class [Log] with [LogLaws],
      and an in-memory log that meets it.  [WalOps] proves the real log does.
    - [Queue]: queue.go, all but the waiting: New, Enqueue, tryReceive, Ack,
      Extend, Nack, Tick, ReplayDLQ, Stats.
    - [QueueInv], [QueueSpec], [QueueOps], [QueueReceive], [Calls], [Effects],
      [History]: the invariant [wf]; the abstract machine (a map from messages to
      places and its steps [astep], in a [world] that says what the environment
      does); one lemma per operation; calls as values and reachability; what a
      call can change; inductions over runs.
    - [Receive]: the long poll of [Queue.Receive] as rounds.
    - [QueueProps], [ReceiveProps], [HeapProps]: the theorems about one queue.
    - [Bytes], [Encoding], [Wal]: CRC-32 and big-endian words; what is assumed of
      [encoding/json] ([JsonLaws]); wal.go over a file that has a cached and a
      durable content and may fail or write short at any call.
    - [WalOps], [WireCodec], [WalProps]: scans as folds, the log's state, repair,
      compaction; a concrete codec that meets [JsonLaws]; the theorems.
    - [Manager]: manager.go: recover, restore, Open, Create, Get, List, Bookmark,
      Replay, Compact, one tick of pump, Close.
    - [Recovery], [Restore], [ManagerOps], [CompactOps], [ManagerRun],
      [ReplayOps], [Compacted], [Faults], [FaultRun], [ManagerProps]: what a list
      of records says of a queue ([stage]) and how memory [mirrors] it;
      reinstalling it; recovery and compaction of the whole log; runs of a manager
      and the invariant [healthy] (memory and log agree); replays; the weaker
      invariant [enduring] of runs in which writes fail; the theorems.
    - [Api], [ApiOps], [ApiProps]: api.go: every handler over decoded requests, a
      lemma for each, the theorems.
    - [Server], [ServerOps], [Shutdown], [ServerProps]: main.go: the process as a
      list of events between start and stop; every event as a recorded run of the
      manager ([mtrace]); closing the log; the theorems.
    - [Threads], [ThreadOps], [ThreadRun], [Linear], [Wakeup], [ThreadProps]: the
      goroutines of api.go, queue.go and manager.go: a [task] for each handler and
      for the pump, [schedule]; that a task alone is its handler; every move of a
      schedule as a step of the manager; requests that take effect in one section;
      parked polls; the theorems.
    - [Late], [Cuts], [LateProps]: the end of main.go when handlers outlive the
      drain: the sections the close falls into ([cut_turns]), the pool that goes on
      with every write refused ([after_close]), and what that leaves.
    - [Demo], [DemoOps], [DemoProps]: cmd/demo: the tour as a [client], the six
      producers and consumers of its last section by request; the bodies ready and
      handed out while no lease runs out; the theorems.

    ** What is proved

    - Restart and durability: from every state reached without a failed write, a
      restart rebuilds the same queues and messages, leases apart, whatever torn
      record the crash left ([restart_is_exact]); a 201 and an acknowledged 200
      survive it ([created_message_survives], [acked_message_is_gone]); a message
      once accepted outlives any later failed writes
      ([accepted_survives_faults]); a
      compaction is invisible to it ([compaction_is_equivalent]) and atomic
      ([compact_is_atomic]); how the records of different queues interleave in
      the log makes no difference ([recovery_ignores_interleaving]); durable
      appends are on the disk and read back first ([durable_append]); of a torn log
      exactly the complete records are read ([recover_torn_log]); damaged ones are
      noticed.
    - One queue: every call is total, keeps the invariant and is a run of the
      abstract machine ([queue_refines]); leases are exclusive; nothing is lost;
      attempts are bounded; delivery is in order; no wake-up is missed; each
      operation does exactly what it says; a long poll ends.
    - The manager: creation is durable before it is visible; messages without a
      queue stop recovery; a bookmark is refused from the first compaction after it
      on, restarts included ([bookmarks_expire]); a replay is finite and counts what
      it published.
    - The HTTP surface: every request leaves the server sound and is answered, but
      for a poll that is still waiting, with neither a message nor its deadline
      reached ([serve_is_total]);
      an answer that blames the client has changed no message; durations are
      bounded before they are multiplied.
    - The process: what a request does is a run of the manager
      ([requests_are_runs]), so the theorems about runs hold of the server; it
      serves until stopped ([main_serves]); after a stop by signal the disk has
      everything, group commit or not ([graceful_stop_is_exact]), and after a forced
      stop, wherever the close fell, no message is missing and no handler that
      outlived it has promised anything more ([forced_stop_loses_nothing]).
    - Goroutines: in any schedule most requests take effect at one moment, with the
      answer the function of the handler gives then
      ([requests_take_effect_at_once]), and all of them together are a run of the
      manager ([interleavings_are_runs]), so the theorems about runs hold of every
      interleaving; a parked poll can go on as soon as a message is ready
      ([parked_poll_goes_on]).
    - The client: the concurrent section counts every message once in every
      interleaving of its requests ([demo_counts_each_once]).  (That the tour prints
      what its narration promises is one test run, [tour_tells_the_truth].)
    - Seven defects, as theorems: a failed Nack drops its message from memory
      ([nack_error_drops_message]) and a compaction then from the disk
      ([failed_nack_compacted_away]); offset zero escapes the epoch check
      ([replay_from_zero_duplicates]); createQueue lets a wrapped visibility
      through ([create_visibility_overflow]); group commit acknowledges before
      it syncs ([group_commit_defers]); a compaction can come between the epoch
      check of a replay and its scan ([replay_races_compaction]); a read that fails
      during recovery cuts off intact records ([read_error_truncates]).  Lesser ones
      are beside the properties: [failed_park_wakes_nobody],
      [refused_batch_is_counted], [failed_create_blames_client],
      [late_ack_is_refused].

    ** Assumptions

    - [JsonLaws]: what Marshal writes Unmarshal can read, and records whose texts
      are UTF-8 and whose numbers fit ([json_safe]) come back the same.
    - Identifiers drawn at random do not repeat, sequence numbers stay below
      2^64, and in the theorems about restarts the clock does not run backwards
      across one.
    - The file: a write stores all its bytes, or fails and stores a proper prefix of
      them, which stays in the file behind the end of the log until something is
      written over it; a restart reads the whole file.  [Sync] makes the cached
      content durable, a rename is atomic.  A read of a scan may fail anywhere
      ([se_read]); the theorems about restarts are about reads that succeed.
    - Reading a restart: the bytes behind the end of the log do not begin with a
      whole record by chance ([torn]); [failed_write_torn], [torn_cut] and
      [torn_text] have the cases in which that is certain.
    - [restart_is_exact] and its kin say what a process that dies leaves; what
      survives a dying machine is in [WalProps].  Their hypothesis [mreach] is a
      history in which no call reported a failure; [accepted_survives_faults] is
      about the others.

    ** Not modelled

    - The mutexes themselves, the memory model and the data race freedom of the
      code; so nothing is said of deadlocks.  A method that writes several records
      writes them back to back: no other queue's record comes between them in the
      log ([recovery_ignores_interleaving] says why that is enough), and only the
      close of the log can ([Cuts]).
    - The flusher as a goroutine (one tick of it is an event of [Server]); the stop
      channels, which [Server.main] models by their effect.
    - The HTTP router and server, the JSON decoder and encoder, [withLogging], the
      texts of errors, the closing of file handles.
    - Of main.go, the parsing of flags, the log lines and the HTTP server; a
      compaction that is still running after a forced stop, which opens the log
      again.
    - Of cmd/demo, the narration without values, the address flag and the time that
      passes in a [Sleep], which is only in the clock of the next request; in its
      concurrent section a poll that waits is not interleaved with other requests. *)

From Stdlib Require Export ZArith Lia.
From stdpp Require Export base option gmap strings list fin_maps sorting.

#[global] Open Scope Z_scope.

(** ** Machine integers

    Go's [int] and [int64] are 64-bit two's complement, [uint64] is modulo
    2^64.  An arithmetic result is written with its wrap-around. *)

Definition two64 : Z := 18446744073709551616.
Definition two63 : Z := 9223372036854775808.

Definition u64 (z : Z) : Z := z mod two64.
Definition i64 (z : Z) : Z := (z + two63) mod two64 - two63.

Definition in_i64 (z : Z) : Prop := - two63 ≤ z < two63.
Definition in_u64 (z : Z) : Prop := 0 ≤ z < two64.

Lemma u64_id z : in_u64 z → u64 z = z.
Proof. unfold in_u64, u64. apply Z.mod_small. Qed.

Lemma u64_range z : in_u64 (u64 z).
Proof. unfold in_u64, u64. apply Z.mod_pos_bound. unfold two64. lia. Qed.

Lemma u64_succ_neq z : in_u64 z → u64 (z + 1) ≠ z.
Proof.
  unfold in_u64, u64, two64. intros Hz E.
  destruct (decide (z + 1 = 2 ^ 64)) as [Ez|Hne]; [rewrite Ez, Z.mod_same in E by lia; lia|].
  rewrite Z.mod_small in E; lia.
Qed.

Lemma i64_id z : in_i64 z → i64 z = z.
Proof.
  unfold in_i64, i64, two63, two64. intros.
  rewrite Z.mod_small; lia.
Qed.

Lemma i64_range z : in_i64 (i64 z).
Proof.
  unfold in_i64, i64, two63, two64.
  pose proof (Z.mod_pos_bound (z + 9223372036854775808) 18446744073709551616). lia.
Qed.

(** [words] resolves the side conditions of machine arithmetic. *)
Create HintDb words.
Create Rewrite HintDb words.
#[export] Hint Resolve u64_range i64_range u64_succ_neq : words.
#[export] Hint Extern 2 (in_u64 _) => unfold in_u64, two64 in *; lia : words.
#[export] Hint Extern 2 (in_i64 _) => unfold in_i64, two63 in *; lia : words.
#[export] Hint Rewrite u64_id i64_id using (by auto with words) : words.

(** [frame] resolves what an operation leaves alone: each component adds the
    tuples of fields its operations keep and their projections. *)
Create HintDb frame.

(** ** Results

    A Go function returning [(T, error)] is a [result]; a run-time panic (an
    index out of range, a nil dereference) is the [None] of an enclosing
    [option], so that panic freedom is a theorem about each operation. *)

Inductive result (E A : Type) :=
  | Ok (a : A)
  | Err (e : E).
Arguments Ok {E A} a.
Arguments Err {E A} e.

(** ** Sorted lists *)

Lemma StronglySorted_impl {A} (R S : A → A → Prop) l :
  (∀ x y, R x y → S x y) → StronglySorted R l → StronglySorted S l.
Proof.
  intros HRS. induction 1; constructor; [done|]. eapply Forall_impl; [done|]. eauto.
Qed.

(** Sorted permutations are equal when the order is antisymmetric on them. *)
Lemma StronglySorted_perm_eq {A} (R : A → A → Prop) l1 l2 :
  (∀ x y, x ∈ l1 → y ∈ l1 → R x y → R y x → x = y) →
  StronglySorted R l1 → StronglySorted R l2 → l1 ≡ₚ l2 → l1 = l2.
Proof.
  intros Hanti H1. revert l2. induction H1 as [|x l1 H1 IH Hx]; intros l2 H2 Hp.
  { by apply Permutation_nil_l in Hp. }
  destruct H2 as [|y l2 H2 Hy]; [by apply Permutation_nil_r in Hp|].
  rewrite Forall_forall in Hx, Hy.
  assert (x = y) as ->.
  { assert (y ∈ x :: l1) as Hyin by (rewrite Hp; set_solver).
    assert (x ∈ y :: l2) as Hxin by (rewrite <- Hp; set_solver).
    apply elem_of_cons in Hyin as [->|Hyin]; [done|].
    apply elem_of_cons in Hxin as [->|Hxin]; [done|].
    apply Hanti; [set_solver..|by apply Hx|by apply Hy]. }
  f_equal. apply IH; [|done|by apply Permutation_cons_inv in Hp].
  intros a b Ha Hb. apply Hanti; set_solver.
Qed.

(** ** Tactics *)

(** Reduce a bind on [Some] without unfolding anything else. *)
Ltac simpl_bind := cbn [mbind option_bind].

(** Close an equation between fields that an operation does not change. *)
Ltac framed :=
  solve [eauto with frame
        | repeat match goal with x := _ |- _ => subst x end;
          autounfold with frame in *; simpl in *; congruence].

(** ** Time

    An instant is a count of nanoseconds since 1 January of year 1, UTC, so
    that Go's zero [time.Time{}] is 0; a [time.Duration] is an [int64] count
    of nanoseconds.  The monotonic reading and the location are not modelled. *)

Abbreviation Time := Z (only parsing).
Abbreviation Duration := Z (only parsing).

Definition zeroTime : Time := 0.
Definition IsZero (t : Time) : bool := t =? 0.
Definition After (t u : Time) : bool := u <? t.
Definition Before (t u : Time) : bool := t <? u.
Definition Add (t : Time) (d : Duration) : Time := t + d.
(** [t.Sub(u)] saturates at the bounds of a [Duration]. *)
Definition Sub (t u : Time) : Duration := Z.max (- two63) (Z.min (two63 - 1) (t - u)).

Definition Nanosecond : Duration := 1.
Definition Millisecond : Duration := 1000000.
Definition Second : Duration := 1000000000.
Definition Hour : Duration := 3600 * Second.

(** Nanoseconds from year 1 to the Unix epoch. *)
Definition unixEpoch : Time := 62135596800 * Second.
Definition UnixNano (t : Time) : Z := i64 (t - unixEpoch).

Lemma Hour_ns : Hour = 3600000000000.
Proof. reflexivity. Qed.

(** ** Indexing with a Go [int] *)

Definition zlookup {A} (l : list A) (i : Z) : option A :=
  if 0 <=? i then l !! Z.to_nat i else None.

Lemma zlookup_nat {A} (l : list A) (i : nat) : zlookup l (Z.of_nat i) = l !! i.
Proof. unfold zlookup. rewrite (proj2 (Z.leb_le _ _)), Nat2Z.id by lia. done. Qed.
