(* ===== verification/ContainerHeap.v ===== *)
(** * container/heap: the binary heap algorithms over an interface

    Go's standard package [container/heap] works on any type with the five
    methods of [heap.Interface].  Here the interface is a class, the package's
    functions are written once against it (indices are Go [int]s, a panic is
    [None]), and their correctness is proved once against the laws [HeapSim],
    which say that a carrier simulates a plain list.  [Heaps.v] gives the
    instance for [queue/heaps.go]. *)

From S2P Require Import Prelude.

(** ** The interface and the package's functions *)

(** [heap.Interface] for a carrier [H] holding elements of type [X]. *)
Class HeapInterface (H X : Type) := {
  Len : H → Z;
  Less : H → Z → Z → option bool;
  Swap : H → Z → Z → option H;
  Push : H → X → option H;
  Pop : H → option (X * H);
}.

Section Algorithms.
Context {H X : Type} `{HeapInterface H X}.

(** [func up(h Interface, j int)]; [fuel] bounds the [for] loop. *)
Fixpoint up (fuel : nat) (h : H) (j : Z) : option H :=
  match fuel with
  | O => None
  | S fuel =>
      let i := Z.quot (j - 1) 2 in
      if i =? j then Some h
      else b ← Less h j i;
           if (b : bool) then h ← Swap h i j; up fuel h i else Some h
  end.

(** The loop of [func down(h Interface, i0, n int) bool]: the final [i]. *)
Fixpoint down_loop (fuel : nat) (h : H) (i n : Z) : option (H * Z) :=
  match fuel with
  | O => None
  | S fuel =>
      let j1 := 2 * i + 1 in
      if (n <=? j1) || (j1 <? 0) then Some (h, i)
      else
        let j2 := j1 + 1 in
        right ← (if j2 <? n then Less h j2 j1 else Some false);
        let j := if (right : bool) then j2 else j1 in
        b ← Less h j i;
        if (b : bool) then h ← Swap h i j; down_loop fuel h j n
        else Some (h, i)
  end.

(** [down] reports whether the element moved. *)
Definition down (h : H) (i0 n : Z) : option (H * bool) :=
  '(h, i) ← down_loop (S (Z.to_nat n)) h i0 n;
  Some (h, i0 <? i).

Definition heap_Push (h : H) (x : X) : option H :=
  h ← Push h x;
  up (S (Z.to_nat (Len h - 1))) h (Len h - 1).

Definition heap_Pop (h : H) : option (X * H) :=
  let n := Len h - 1 in
  h ← Swap h 0 n;
  '(h, _) ← down h 0 n;
  Pop h.

Definition heap_Remove (h : H) (i : Z) : option (X * H) :=
  let n := Len h - 1 in
  if n =? i then Pop h
  else
    h ← Swap h i n;
    '(h, moved) ← down h i n;
    h ← (if (moved : bool) then Some h else up (S (Z.to_nat i)) h i);
    Pop h.

Definition heap_Fix (h : H) (i : Z) : option H :=
  '(h, moved) ← down h i (Len h);
  if (moved : bool) then Some h else up (S (Z.to_nat i)) h i.
End Algorithms.

(** ** The same algorithms on a plain list *)

Section ListHeap.
Local Open Scope nat_scope.
Context {A : Type} (lt : A → A → bool).

Definition swap_l (l : list A) (i j : nat) : list A :=
  match l !! i, l !! j with
  | Some a, Some b => <[i:=b]> (<[j:=a]> l)
  | _, _ => l
  end.

Definition lt_at (l : list A) (i j : nat) : bool :=
  match l !! i, l !! j with Some a, Some b => lt a b | _, _ => false end.

Fixpoint up_l (fuel : nat) (l : list A) (j : nat) : list A :=
  match fuel with
  | O => l
  | S fuel =>
      let i := (j - 1) / 2 in
      if decide (i = j) then l
      else if lt_at l j i then up_l fuel (swap_l l i j) i else l
  end.

Fixpoint down_l (fuel : nat) (l : list A) (i n : nat) : list A * nat :=
  match fuel with
  | O => (l, i)
  | S fuel =>
      let j1 := 2 * i + 1 in
      if decide (n <= j1) then (l, i)
      else
        let j := if decide (j1 + 1 < n) then
                   if lt_at l (j1 + 1) j1 then j1 + 1 else j1
                 else j1 in
        if lt_at l j i then down_l fuel (swap_l l i j) j n else (l, i)
  end.

(** [heap.Fix] after [l] has been changed at [i]: down, else up. *)
Definition fix_l (l : list A) (i : nat) : list A :=
  let '(l', i') := down_l (S (length l)) l i (length l) in
  if decide (i < i') then l' else up_l (S i) l' i.

Definition push_l (l : list A) (x : A) : list A :=
  up_l (S (length l)) (l ++ [x]) (length l).

Lemma swap_l_length l i j : length (swap_l l i j) = length l.
Proof. unfold swap_l. repeat case_match; rewrite ?length_insert; done. Qed.

Lemma swap_l_lookup l i j a b k :
  l !! i = Some a → l !! j = Some b →
  swap_l l i j !! k =
    if decide (k = i) then Some b else if decide (k = j) then Some a else l !! k.
Proof.
  intros Hi Hj. unfold swap_l. rewrite Hi, Hj.
  pose proof (lookup_lt_Some _ _ _ Hi). pose proof (lookup_lt_Some _ _ _ Hj).
  repeat case_decide; subst.
  - by rewrite list_lookup_insert_eq by (rewrite length_insert; done).
  - rewrite list_lookup_insert_ne by done. by rewrite list_lookup_insert_eq.
  - by rewrite !list_lookup_insert_ne by done.
Qed.

Lemma swap_l_perm l i j : swap_l l i j ≡ₚ l.
Proof.
  destruct (l !! i) as [a|] eqn:Hi; [|by unfold swap_l; rewrite Hi].
  destruct (l !! j) as [b|] eqn:Hj; [|by unfold swap_l; rewrite Hi, Hj].
  apply Permutation_inj. split; [by rewrite swap_l_length|].
  exists (λ k, if decide (k = i) then j else if decide (k = j) then i else k).
  split.
  - intros x y ?. repeat case_decide; congruence.
  - intros k. rewrite (swap_l_lookup _ _ _ _ _ _ Hi Hj).
    repeat case_decide; subst; congruence.
Qed.

Lemma swap_l_app l l2 i j :
  i < length l → j < length l → swap_l (l ++ l2) i j = swap_l l i j ++ l2.
Proof.
  intros Hi Hj. unfold swap_l. rewrite !lookup_app_l by done.
  destruct (lookup_lt_is_Some_2 _ _ Hi) as [a ->].
  destruct (lookup_lt_is_Some_2 _ _ Hj) as [b ->].
  by rewrite !insert_app_l by (rewrite ?length_insert; done).
Qed.

Lemma lt_at_app l l2 i j :
  i < length l → j < length l → lt_at (l ++ l2) i j = lt_at l i j.
Proof. intros. unfold lt_at. by rewrite !lookup_app_l. Qed.

(** The loops only permute, and never look past the prefix they work on. *)

Lemma up_l_perm fuel l j : up_l fuel l j ≡ₚ l.
Proof.
  revert l j. induction fuel as [|fuel IH]; intros l j; simpl; [done|].
  repeat case_match; try done. by rewrite IH, swap_l_perm.
Qed.

Lemma down_l_perm fuel l i n : (down_l fuel l i n).1 ≡ₚ l.
Proof.
  revert l i. induction fuel as [|fuel IH]; intros l i; simpl; [done|].
  repeat case_match; try done; by rewrite IH, swap_l_perm.
Qed.

Lemma fix_l_perm l i : fix_l l i ≡ₚ l.
Proof.
  unfold fix_l. destruct (down_l _ _ _ _) as [l' i'] eqn:E.
  assert (l' ≡ₚ l) as Hp by (change l' with (l', i').1; rewrite <- E; apply down_l_perm).
  case_decide; [done|]. by rewrite up_l_perm.
Qed.

Lemma push_l_perm l x : push_l l x ≡ₚ x :: l.
Proof. unfold push_l. rewrite up_l_perm. by rewrite Permutation_app_comm. Qed.

Lemma half_lt j : 0 < j → (j - 1) / 2 < j.
Proof. intros. apply Nat.Div0.div_lt_upper_bound. lia. Qed.

Lemma half_le j : (j - 1) / 2 <= j.
Proof. destruct (decide (j = 0)) as [->|]; [done|]. pose proof (half_lt j). lia. Qed.

Lemma up_l_app fuel l l2 j :
  j < length l → up_l fuel (l ++ l2) j = up_l fuel l j ++ l2.
Proof.
  revert l j. induction fuel as [|fuel IH]; intros l j Hj; [done|].
  cbn [up_l]. pose proof (half_le j).
  case_decide; [done|]. rewrite lt_at_app by lia. case_match; [|done].
  rewrite swap_l_app by lia. apply IH. rewrite swap_l_length. lia.
Qed.

Lemma down_l_app fuel l l2 i :
  i < length l →
  down_l fuel (l ++ l2) i (length l) =
    ((down_l fuel l i (length l)).1 ++ l2, (down_l fuel l i (length l)).2).
Proof.
  enough (∀ n, n = length l → i < n →
    down_l fuel (l ++ l2) i n = ((down_l fuel l i n).1 ++ l2, (down_l fuel l i n).2))
    by eauto.
  revert l i. induction fuel as [|fuel IH]; intros l i n -> Hi; [done|].
  cbn [down_l]. case_decide as Hn; [done|].
  set (ja := if decide (2 * i + 1 + 1 < length l) then _ else _).
  set (jb := if decide (2 * i + 1 + 1 < length l) then _ else _).
  assert (ja = jb ∧ jb < length l) as [-> Hj].
  { subst ja jb. case_decide; [rewrite lt_at_app by lia; case_match|]; lia. }
  clearbody jb. rewrite lt_at_app by lia. case_match; [|done].
  rewrite swap_l_app by lia. apply IH; rewrite ?swap_l_length; lia.
Qed.
End ListHeap.

(** ** Heap order *)

(** What [sort.Interface] asks of [Less]: a strict weak order.  [le a b] is
    "[b] may not come before [a]". *)
Class WeakOrder {A : Type} (lt : A → A → bool) := {
  wo_asym a b : lt a b = true → lt b a = false;
  wo_negtrans a b c : lt b a = false → lt c b = false → lt c a = false;
}.

Section HeapOrder.
Local Open Scope nat_scope.
Context {A : Type} (lt : A → A → bool) `{!WeakOrder lt}.

Definition le (a b : A) : Prop := lt b a = false.

Lemma le_trans a b c : le a b → le b c → le a c.
Proof. unfold le. intros. eauto using wo_negtrans. Qed.
Lemma lt_le a b : lt a b = true → le a b.
Proof. apply wo_asym. Qed.
Lemma le_refl a : le a a.
Proof. unfold le. destruct (lt a a) eqn:E; [|done]. pose proof (wo_asym _ _ E). congruence. Qed.

Definition child (p c : nat) : Prop := c = 2 * p + 1 ∨ c = 2 * p + 2.

(** The order holds along every edge [p]-[c] selected by [E]. *)
Definition ord (E : nat → nat → Prop) (l : list A) : Prop :=
  ∀ p c a b, child p c → E p c → l !! p = Some a → l !! c = Some b → le a b.

Definition ordered (l : list A) : Prop := ord (λ _ _, True) l.

(** The parent of [i] is below the children of [i]. *)
Definition grand (l : list A) (i : nat) : Prop :=
  ∀ g c a b, child g i → child i c → l !! g = Some a → l !! c = Some b → le a b.

Definition up_inv (l : list A) (j : nat) : Prop := ord (λ _ c, c ≠ j) l ∧ grand l j.
Definition down_inv (l : list A) (i : nat) : Prop := ord (λ p _, p ≠ i) l ∧ grand l i.
(** Only the element at [i] is out of place. *)
Definition fix_inv (l : list A) (i : nat) : Prop :=
  ord (λ p c, p ≠ i ∧ c ≠ i) l ∧ grand l i.

Lemma child_parent j : 0 < j → child ((j - 1) / 2) j.
Proof. unfold child. intros. pose proof (Nat.div_mod_eq (j - 1) 2).
  pose proof (Nat.mod_upper_bound (j - 1) 2). lia. Qed.
Lemma child_inj p p' c : child p c → child p' c → p = p'.
Proof. unfold child. lia. Qed.
Lemma child_lt p c : child p c → p < c.
Proof. unfold child. lia. Qed.

Lemma ordered_up_inv l j : ordered l → up_inv l j.
Proof.
  intros Ho. split.
  - intros p c a b ? _. by apply Ho.
  - intros g c a b Hg Hc Ha Hb. pose proof (child_lt _ _ Hc).
    destruct (lookup_lt_is_Some_2 l j) as [m Hm].
    { apply lookup_lt_Some in Hb. lia. }
    apply (le_trans a m b); [apply (Ho g j)|apply (Ho j c)]; auto.
Qed.

Lemma up_l_ordered fuel l j :
  j < fuel → up_inv l j → ordered (up_l lt fuel l j).
Proof.
  revert l j. induction fuel as [|fuel IH]; intros l j Hf [Ho Hg]; [lia|].
  cbn [up_l]. set (i := (j - 1) / 2). case_decide as Hij.
  { intros p c a b Hc _. apply Ho; [done|]. intros ->.
    destruct j; [destruct Hc; lia|]. pose proof (half_lt (S j)). lia. }
  assert (0 < j) as Hj by (destruct j; [done|lia]).
  pose proof (child_parent j Hj) as Hch. fold i in Hch.
  pose proof (child_lt _ _ Hch).
  unfold lt_at. destruct (l !! j) as [x|] eqn:Ex; last first.
  { intros p c a b Hc _ Ha Hb. apply (Ho p c); auto. by intros ->; simplify_eq. }
  destruct (l !! i) as [y|] eqn:Ey; last first.
  { intros p c a b Hc _ Ha Hb. apply (Ho p c); auto. intros ->.
    assert (p = i) as -> by eauto using child_inj. simplify_eq. }
  destruct (lt x y) eqn:Exy; last first.
  { intros p c a b Hc _ Ha Hb. destruct (decide (c = j)) as [->|]; [|by apply (Ho p c)].
    assert (p = i) as -> by eauto using child_inj. by simplify_eq. }
  apply IH; [lia|]. pose proof (lt_le _ _ Exy) as Hxy.
  pose proof (swap_l_lookup l i j y x) as Hs. split.
  - intros p c a b Hc Hne. rewrite !Hs by done.
    repeat case_decide; subst; intros; simplify_eq; try done.
    + eapply le_trans; [done|]. by apply (Ho i c).
    + exfalso. unfold child in *. lia.
    + by apply (Hg i c).
    + exfalso. assert (p = i) by eauto using child_inj. done.
    + by apply (Ho p c).
  - intros g c a b Hgi Hic. rewrite !Hs by done. pose proof (child_lt _ _ Hgi).
    pose proof (child_lt _ _ Hic). repeat case_decide; subst; intros; simplify_eq; try lia.
    + apply (Ho g i); auto.
    + eapply le_trans; [apply (Ho g i); eauto; lia|]. by apply (Ho i c).
Qed.

(** Swapping the element at [i] with its least child moves the defect down. *)
Lemma sink_step l i j x y :
  fix_inv l i → child i j → l !! i = Some x → l !! j = Some y → lt y x = true →
  (∀ c z, child i c → l !! c = Some z → le y z) →
  down_inv (swap_l l i j) j.
Proof.
  intros [Ho Hg] Hch Hi Hj Hlt Hmin. pose proof (child_lt _ _ Hch).
  pose proof (λ k, swap_l_lookup l i j x y k Hi Hj) as Hs. split.
  - intros p c a b Hc Hne. rewrite !Hs. pose proof (child_lt _ _ Hc).
    repeat case_decide; subst; intros; simplify_eq; try lia.
    + by apply lt_le.
    + eauto.
    + by apply (Hg p j).
    + assert (p = i) by eauto using child_inj. done.
    + by apply (Ho p c).
  - intros g c a b Hgj Hjc. rewrite !Hs. pose proof (child_lt _ _ Hjc).
    assert (g = i) as -> by eauto using child_inj.
    repeat case_decide; subst; intros; simplify_eq; try lia.
    apply (Ho j c); auto. lia.
Qed.

Definition least_child (l : list A) (i : nat) : nat :=
  if decide (2 * i + 1 + 1 < length l) then
    if lt_at lt l (2 * i + 1 + 1) (2 * i + 1) then 2 * i + 1 + 1 else 2 * i + 1
  else 2 * i + 1.

Lemma least_child_spec l i :
  2 * i + 1 < length l →
  child i (least_child l i) ∧ least_child l i < length l ∧
  ∀ y c z, l !! least_child l i = Some y → child i c → l !! c = Some z → le y z.
Proof.
  intros Hlt. unfold least_child.
  destruct (lookup_lt_is_Some_2 _ _ Hlt) as [a Ha].
  case_decide as Hlt2; last first.
  { repeat split; [by left|done|]. intros y c z Hy [->| ->] Hz; simplify_eq; [apply le_refl|].
    apply lookup_lt_Some in Hz. lia. }
  destruct (lookup_lt_is_Some_2 _ _ Hlt2) as [b Hb]. unfold lt_at. rewrite Ha, Hb.
  replace (2 * i + 2) with (2 * i + 1 + 1) in * by lia.
  destruct (lt b a) eqn:E; (repeat split; [unfold child; lia|done|]);
    intros y c z Hy; unfold child; replace (2 * i + 2) with (2 * i + 1 + 1) by lia;
    intros [->| ->] Hz; simplify_eq; first [apply le_refl|by apply lt_le|done].
Qed.

Lemma down_up_ordered l i : down_inv l i → up_inv l i → ordered l.
Proof.
  intros [Hd _] [Hu _] p c a b Hc _. destruct (decide (p = i)) as [->|].
  - apply Hu; [done|]. apply child_lt in Hc. lia.
  - by apply Hd.
Qed.

Lemma down_inv_fix_inv l i : down_inv l i → fix_inv l i.
Proof. intros [Hd Hg]. split; [|done]. intros p c a b ? [? ?]. by apply Hd. Qed.

(** Either nothing moved and only the edge above [i] is in doubt, or the
    element sank and the whole list is in heap order. *)
Lemma down_l_spec fuel l i :
  length l - i < fuel → fix_inv l i →
  let r := down_l lt fuel l i (length l) in
  (r = (l, i) ∧ up_inv l i) ∨ (i < r.2 ∧ ordered r.1).
Proof.
  revert l i. induction fuel as [|fuel IH]; intros l i Hf Hinv; [lia|].
  cbn [down_l]. case_decide as Hn.
  { left. split; [done|]. destruct Hinv as [Ho Hg]. split; [|done].
    intros p c a b Hc Hne Ha Hb. apply (Ho p c); auto. split; [|done].
    intros ->. apply lookup_lt_Some in Hb. unfold child in Hc. lia. }
  fold (least_child l i). destruct (least_child_spec l i) as (Hch & Hlt & Hmin); [lia|].
  set (j := least_child l i) in *. clearbody j. pose proof (child_lt _ _ Hch).
  destruct (lookup_lt_is_Some_2 _ _ Hlt) as [y Hy].
  destruct (lookup_lt_is_Some_2 l i) as [x Hx]; [lia|].
  unfold lt_at. rewrite Hy, Hx. destruct (lt y x) eqn:E.
  - right. pose proof (sink_step l i j x y Hinv Hch Hx Hy E (λ c z, Hmin y c z Hy)) as Hd.
    rewrite <- (swap_l_length l i j).
    destruct (IH (swap_l l i j) j) as [[-> Hu]|[Hl Hr]].
    { rewrite swap_l_length. lia. } { by apply down_inv_fix_inv. }
    + split; [done|]. by eapply down_up_ordered.
    + split; [lia|done].
  - left. split; [done|]. destruct Hinv as [Ho Hg]. split; [|done].
    intros p c a b Hc Hne Ha Hb. destruct (decide (p = i)) as [->|]; [|by apply (Ho p c)].
    simplify_eq. eapply le_trans; [exact E|]. by eapply Hmin.
Qed.

Lemma fix_l_ordered l i : fix_inv l i → ordered (fix_l lt l i).
Proof.
  intros Hinv. unfold fix_l.
  pose proof (down_l_spec (S (length l)) l i ltac:(lia) Hinv) as Hs.
  destruct (down_l _ _ _ _ _) as [l' i']. cbn [fst snd] in Hs.
  destruct Hs as [[[= -> ->] Hu]|[Hl Hr]].
  - rewrite decide_False by lia. apply up_l_ordered; [lia|done].
  - by rewrite decide_True.
Qed.

Lemma ordered_replace_fix_inv l i z : ordered l → fix_inv (<[i:=z]> l) i.
Proof.
  intros Ho. destruct (decide (i < length l)) as [Hi|]; last first.
  { rewrite list_insert_ge by lia. destruct (ordered_up_inv _ i Ho). split; [|done].
    intros p c a b ? _. by apply Ho. }
  destruct (ordered_up_inv _ i Ho) as [_ Hg]. split.
  - intros p c a b Hc [? ?]. rewrite !list_lookup_insert_ne by done. by apply Ho.
  - intros g c a b Hgi Hic. apply child_lt in Hgi as ?. apply child_lt in Hic as ?.
    rewrite !list_lookup_insert_ne by lia. by apply Hg.
Qed.

Lemma fix_l_replace_ordered l i z : ordered l → ordered (fix_l lt (<[i:=z]> l) i).
Proof. intros. by apply fix_l_ordered, ordered_replace_fix_inv. Qed.

Lemma ordered_app_l l1 l2 : ordered (l1 ++ l2) → ordered l1.
Proof.
  intros Ho p c a b Hc _ Ha Hb. apply (Ho p c); auto using lookup_app_l_Some.
Qed.

Lemma push_l_ordered l x : ordered l → ordered (push_l lt l x).
Proof.
  intros Ho. apply up_l_ordered; [lia|]. split.
  - intros p c a b Hc Hne Ha Hb. apply child_lt in Hc as ?.
    apply lookup_lt_Some in Hb as Hl. rewrite length_app in Hl. simpl in Hl.
    rewrite lookup_app_l in Ha by lia. rewrite lookup_app_l in Hb by lia. by apply (Ho p c).
  - intros g c a b _ Hc _ Hb. apply child_lt in Hc.
    apply lookup_lt_Some in Hb. rewrite length_app in Hb. simpl in Hb. lia.
Qed.

(** The root is a least element. *)
Lemma ordered_root l a : ordered l → l !! 0 = Some a → ∀ b, b ∈ l → le a b.
Proof.
  intros Ho Ha b [k Hk]%list_elem_of_lookup. revert b Hk.
  induction (lt_wf k) as [k _ IH]. intros b Hk.
  destruct (decide (k = 0)) as [->|]; [simplify_eq; apply le_refl|].
  pose proof (child_parent k ltac:(lia)) as Hc. pose proof (child_lt _ _ Hc) as Hlt.
  destruct (lookup_lt_is_Some_2 l ((k - 1) / 2)) as [m Hm].
  { apply lookup_lt_Some in Hk. lia. }
  apply (le_trans a m b); [by eapply IH|by apply (Ho _ _ _ _ Hc)].
Qed.
End HeapOrder.

(** ** Carriers that simulate a list

    [R h l] says that the carrier [h] holds the list [l]; [ok] is what a pushed
    element must satisfy.  Under these laws every function of the package
    terminates within its fuel, does not panic, and computes the list version. *)

Class HeapSim {H X : Type} `{HeapInterface H X}
    (R : H → list X → Prop) (ok : X → Prop) (lt : X → X → bool) := {
  sim_len h l : R h l → Len h = Z.of_nat (length l);
  sim_less h l i j a b :
    R h l → l !! i = Some a → l !! j = Some b →
    Less h (Z.of_nat i) (Z.of_nat j) = Some (lt a b);
  sim_swap h l i j :
    R h l → (i < length l)%nat → (j < length l)%nat →
    ∃ h', Swap h (Z.of_nat i) (Z.of_nat j) = Some h' ∧ R h' (swap_l l i j);
  sim_push h l x : R h l → ok x → x ∉ l → ∃ h', Push h x = Some h' ∧ R h' (l ++ [x]);
  sim_pop h l x : R h (l ++ [x]) → ∃ h', Pop h = Some (x, h') ∧ R h' l;
}.

Lemma quot_half (j : nat) : Z.quot (Z.of_nat j - 1) 2 = Z.of_nat ((j - 1) / 2).
Proof.
  destruct j as [|j]; [done|].
  rewrite Nat2Z.inj_succ, Z.quot_div_nonneg, Nat2Z.inj_div by lia. f_equal. lia.
Qed.

Section Simulation.
Context {H X : Type} `{HeapInterface H X}.
Context (R : H → list X → Prop) (ok : X → Prop) (lt : X → X → bool).
Context `{!HeapSim R ok lt}.

Lemma sim_less_at h l i j :
  R h l → (i < length l)%nat → (j < length l)%nat →
  Less h (Z.of_nat i) (Z.of_nat j) = Some (lt_at lt l i j).
Proof.
  intros HR [a Ha]%lookup_lt_is_Some_2 [b Hb]%lookup_lt_is_Some_2.
  unfold lt_at. rewrite Ha, Hb. by apply (sim_less h l).
Qed.

Lemma up_sim fuel h l j :
  (j < fuel)%nat → (j < length l)%nat → R h l →
  ∃ h', up fuel h (Z.of_nat j) = Some h' ∧ R h' (up_l lt fuel l j).
Proof.
  revert h l j. induction fuel as [|fuel IH]; intros h l j Hf Hj HR; [lia|].
  cbn [up up_l]. rewrite quot_half. pose proof (half_le j). set (i := ((j - 1) / 2)%nat) in *.
  case_decide as E; [rewrite E, Z.eqb_refl; eauto|].
  rewrite (proj2 (Z.eqb_neq _ _)) by lia.
  rewrite (sim_less_at h l) by (done || lia). simpl. case_match; [|eauto].
  destruct (sim_swap h l i j) as (h1 & -> & HR1); [done|lia..|]. simpl.
  apply IH; [lia| |done]. rewrite swap_l_length. lia.
Qed.

Lemma down_loop_sim fuel h l i n :
  (n - i < fuel)%nat → (n <= length l)%nat → (i < length l)%nat → R h l →
  ∃ h', down_loop fuel h (Z.of_nat i) (Z.of_nat n) =
          Some (h', Z.of_nat (down_l lt fuel l i n).2) ∧
        R h' (down_l lt fuel l i n).1.
Proof.
  revert h l i. induction fuel as [|fuel IH]; intros h l i Hf Hn Hi HR; [lia|].
  cbn [down_loop down_l]. rewrite (proj2 (Z.ltb_ge (2 * Z.of_nat i + 1) 0)), orb_false_r by lia.
  case_decide as E.
  { rewrite (proj2 (Z.leb_le _ _)) by lia. eauto. }
  rewrite (proj2 (Z.leb_gt _ _)) by lia.
  replace (2 * Z.of_nat i + 1) with (Z.of_nat (2 * i + 1)) by lia.
  replace (Z.of_nat (2 * i + 1) + 1) with (Z.of_nat (2 * i + 1 + 1)) by lia.
  set (j := if decide _ then _ else _).
  assert (∃ b : bool, (if Z.of_nat (2 * i + 1 + 1) <? Z.of_nat n
             then Less h (Z.of_nat (2 * i + 1 + 1)) (Z.of_nat (2 * i + 1))
             else Some false) = Some b ∧
          (if b then Z.of_nat (2 * i + 1 + 1) else Z.of_nat (2 * i + 1)) = Z.of_nat j ∧
          (i < j < n)%nat) as (b & -> & Hb & Hj).
  { subst j. case_decide as E2.
    - rewrite (proj2 (Z.ltb_lt _ _)) by lia. rewrite (sim_less_at h l) by (done || lia).
      eexists. split; [done|]. case_match; split; lia.
    - rewrite (proj2 (Z.ltb_ge _ _)) by lia. exists false. split; [done|]. lia. }
  simpl_bind. rewrite Hb.
  rewrite (sim_less_at h l) by (done || lia). simpl_bind.
  destruct (lt_at lt l j i); [|eauto].
  destruct (sim_swap h l i j) as (h1 & -> & HR1); [done|lia..|]. simpl.
  apply IH; rewrite ?swap_l_length; (done || lia).
Qed.

Lemma down_sim h l i n :
  (n <= length l)%nat → (i < length l)%nat → R h l →
  ∃ h', down h (Z.of_nat i) (Z.of_nat n) =
          Some (h', bool_decide (i < (down_l lt (S n) l i n).2)%nat) ∧
        R h' (down_l lt (S n) l i n).1.
Proof.
  intros Hn Hi HR. unfold down. rewrite Nat2Z.id.
  destruct (down_loop_sim (S n) h l i n) as (h1 & -> & HR1); [lia|done..|].
  exists h1. split; [|done]. simpl. do 2 f_equal.
  case_bool_decide; [apply Z.ltb_lt|apply Z.ltb_ge]; lia.
Qed.

Lemma heap_Push_sim h l x :
  R h l → ok x → x ∉ l → ∃ h', heap_Push h x = Some h' ∧ R h' (push_l lt l x).
Proof.
  intros HR Hok Hx. unfold heap_Push, push_l.
  destruct (sim_push h l x HR Hok Hx) as (h1 & -> & HR1). simpl_bind.
  rewrite (sim_len h1 _ HR1), length_app. simpl length.
  replace (Z.of_nat (length l + 1) - 1) with (Z.of_nat (length l)) by lia.
  rewrite Nat2Z.id. apply up_sim; [lia| |done]. rewrite length_app. simpl. lia.
Qed.

Lemma heap_Fix_sim h l i :
  R h l → (i < length l)%nat →
  ∃ h', heap_Fix h (Z.of_nat i) = Some h' ∧ R h' (fix_l lt l i).
Proof.
  intros HR Hi. unfold heap_Fix, fix_l. rewrite (sim_len h l HR).
  destruct (down_sim h l i (length l)) as (h1 & -> & HR1); [done..|]. simpl_bind.
  destruct (down_l _ _ _ _ _) as [l' i'] eqn:E. cbn [fst snd] in *.
  case_bool_decide; [rewrite decide_True by done; eauto|].
  rewrite decide_False by done. rewrite Nat2Z.id. apply up_sim; [lia| |done].
  assert (l' ≡ₚ l) as Hp.
  { change l' with (l', i').1. rewrite <- E. apply down_l_perm. }
  by rewrite Hp.
Qed.

Context `{!WeakOrder lt}.

Lemma swap_last (l : list X) z i x :
  l !! i = Some x → swap_l (l ++ [z]) i (length l) = <[i:=z]> l ++ [x].
Proof.
  intros Hi. pose proof (lookup_lt_Some _ _ _ Hi). unfold swap_l.
  rewrite lookup_app_l, Hi by done. rewrite lookup_app_r, Nat.sub_diag by lia. simpl.
  replace (length l) with (length l + 0)%nat by lia. rewrite insert_app_r. simpl.
  by rewrite insert_app_l.
Qed.

Lemma insert_perm (l : list X) i x z : l !! i = Some x → x :: <[i:=z]> l ≡ₚ l ++ [z].
Proof.
  intros Hi. pose proof (lookup_lt_Some _ _ _ Hi).
  rewrite insert_take_drop by done. rewrite <- (take_drop_middle l i x Hi) at 3.
  solve_Permutation.
Qed.

Lemma up_inv_root (l : list X) : up_inv lt l 0 → ordered lt l.
Proof. intros [Ho _] p c a b Hc _. apply Ho; [done|]. apply child_lt in Hc. lia. Qed.

(** Once the last element is out of the way, [down] works on the rest. *)
Lemma down_prefix_sim h (l : list X) x i :
  R h (l ++ [x]) → (i < length l)%nat →
  ∃ h', down h (Z.of_nat i) (Z.of_nat (length l)) =
          Some (h', bool_decide (i < (down_l lt (S (length l)) l i (length l)).2)%nat) ∧
        R h' ((down_l lt (S (length l)) l i (length l)).1 ++ [x]).
Proof.
  intros HR Hi. destruct (down_sim h (l ++ [x]) i (length l)) as (h1 & E & HR1);
    rewrite ?length_app; try done; try lia.
  rewrite E. rewrite down_l_app in * by done. cbn [fst snd] in *. eauto.
Qed.

Lemma heap_Pop_sim h (l : list X) a :
  R h l → ordered lt l → l !! 0%nat = Some a →
  ∃ h' l', heap_Pop h = Some (a, h') ∧ R h' l' ∧ a :: l' ≡ₚ l ∧ ordered lt l'.
Proof.
  intros HR Ho Ha. unfold heap_Pop. rewrite (sim_len h l HR).
  destruct l as [|z l0 _] using rev_ind; [done|]. rewrite length_app. simpl.
  replace (Z.of_nat (length l0 + 1) - 1) with (Z.of_nat (length l0)) by lia.
  destruct (sim_swap h (l0 ++ [z]) 0 (length l0) HR) as (h1 & E1 & HR1);
    [rewrite length_app; simpl; lia..|].
  change (Z.of_nat 0) with 0 in E1. rewrite E1. simpl_bind.
  destruct (decide (l0 = [])) as [->|Hne].
  { simpl in *. simplify_eq. destruct (sim_pop h1 [] a HR1) as (h2 & E2 & HR2).
    unfold down. simpl. rewrite E2. exists h2, []. split_and!; [done..|].
    by intros ????. }
  assert (l0 !! 0%nat = Some a) as Ha0.
  { rewrite lookup_app_l in Ha; [done|]. destruct l0; simpl; [done|lia]. }
  rewrite (swap_last _ _ _ _ Ha0) in HR1. set (l1 := <[0%nat:=z]> l0) in *.
  assert (length l1 = length l0) as Hlen by apply length_insert. rewrite <- Hlen.
  destruct (down_prefix_sim h1 l1 a 0 HR1) as (h2 & E2 & HR2).
  { rewrite Hlen. by apply lookup_lt_Some in Ha0. }
  change (Z.of_nat 0) with 0 in E2. rewrite E2. simpl_bind.
  destruct (sim_pop h2 _ a HR2) as (h3 & E3 & HR3). rewrite E3.
  eexists h3, _. split_and!; [done|exact HR3| |].
  - rewrite down_l_perm. by apply insert_perm.
  - apply ordered_app_l, (ordered_replace_fix_inv lt _ 0 z) in Ho. fold l1 in Ho.
    destruct (down_l_spec lt (S (length l1)) l1 0 ltac:(lia) Ho) as [[-> Hu]|[_ Hr]]; [|done].
    by apply up_inv_root.
Qed.

Lemma heap_Remove_sim h (l : list X) i x :
  R h l → ordered lt l → l !! i = Some x →
  ∃ h' l', heap_Remove h (Z.of_nat i) = Some (x, h') ∧ R h' l' ∧ x :: l' ≡ₚ l ∧ ordered lt l'.
Proof.
  intros HR Ho Hx. unfold heap_Remove. rewrite (sim_len h l HR).
  destruct l as [|z l0 _] using rev_ind; [done|]. rewrite length_app. simpl length.
  replace (Z.of_nat (length l0 + 1) - 1) with (Z.of_nat (length l0)) by lia.
  apply lookup_lt_Some in Hx as Hi. rewrite length_app in Hi. simpl in Hi.
  destruct (decide (i = length l0)) as [->|Hne].
  { rewrite lookup_app_r, Nat.sub_diag in Hx by lia. simpl in Hx. simplify_eq.
    rewrite Z.eqb_refl. destruct (sim_pop h l0 x HR) as (h1 & E & HR1).
    exists h1, l0. split_and!; [done..| |by eapply ordered_app_l].
    by rewrite Permutation_app_comm. }
  rewrite (proj2 (Z.eqb_neq _ _)) by lia. rewrite lookup_app_l in Hx by lia.
  destruct (sim_swap h (l0 ++ [z]) i (length l0) HR) as (h1 & E1 & HR1);
    [rewrite length_app; simpl; lia..|].
  rewrite E1. simpl_bind. rewrite (swap_last _ _ _ _ Hx) in HR1.
  set (l1 := <[i:=z]> l0) in *.
  assert (length l1 = length l0) as Hlen by apply length_insert. rewrite <- Hlen.
  destruct (down_prefix_sim h1 l1 x i HR1) as (h2 & E2 & HR2); [lia|].
  rewrite E2. simpl_bind.
  set (r := down_l lt (S (length l1)) l1 i (length l1)) in *.
  assert (r.1 ≡ₚ l1) as Hp by apply down_l_perm.
  assert (∃ h3, (if bool_decide (i < r.2)%nat then Some h2
             else up (S (Z.to_nat (Z.of_nat i))) h2 (Z.of_nat i)) = Some h3 ∧
          R h3 (fix_l lt l1 i ++ [x])) as (h3 & E3 & HR3).
  { unfold fix_l. fold r. destruct r as [l' i']. cbn [fst snd] in *. case_bool_decide.
    - rewrite decide_True by done. eauto.
    - rewrite decide_False, Nat2Z.id by done. rewrite <- up_l_app by (rewrite Hp; lia).
      apply up_sim; [lia| |done]. rewrite length_app, Hp. lia. }
  rewrite E3. simpl_bind. destruct (sim_pop h3 _ x HR3) as (h4 & E4 & HR4).
  rewrite E4. eexists h4, _. split_and!; [done|exact HR4| |].
  - rewrite fix_l_perm. by apply insert_perm.
  - apply fix_l_replace_ordered, (ordered_app_l lt _ [z]); done.
Qed.
End Simulation.
