(* ===== verification/Msg.v ===== *)
(** * Messages, queue configurations, log records and errors

    The data of [queue/msg.go], of [Config] in [queue/queue.go] and of [Record]
    in [queue/wal.go].  A [*Msg] is a location into a store of messages (see
    [Heaps.v]); the records here are the pointed-to values. *)

From S2P Require Import Prelude.

(** [type Mode string]: any string can come out of the log. *)
Abbreviation Mode := string (only parsing).
Definition FIFO : Mode := "fifo".
Definition LIFO : Mode := "lifo".

Module Msg.
Record t := Mk {
  ID : string;
  Body : string;
  Priority : Z;
  Seq : Z;
  VisibleAt : Time;
  EnqueuedAt : Time;
  Attempts : Z;
  Receipt : string;
  LeaseExpiry : Time;
  index : Z;
}.

#[export] Instance eq_dec : EqDecision t.
Proof. solve_decision. Defined.

(** The zero value [Msg{}]. *)
Definition zero : t := Mk "" "" 0 0 zeroTime zeroTime 0 "" zeroTime 0.

#[export] Instance inhabited : Inhabited t := populate zero.

Definition set_index (i : Z) (m : t) : t :=
  Mk (ID m) (Body m) (Priority m) (Seq m) (VisibleAt m) (EnqueuedAt m)
     (Attempts m) (Receipt m) (LeaseExpiry m) i.
Definition set_VisibleAt (v : Time) (m : t) : t :=
  Mk (ID m) (Body m) (Priority m) (Seq m) v (EnqueuedAt m)
     (Attempts m) (Receipt m) (LeaseExpiry m) (index m).
Definition set_Attempts (a : Z) (m : t) : t :=
  Mk (ID m) (Body m) (Priority m) (Seq m) (VisibleAt m) (EnqueuedAt m)
     a (Receipt m) (LeaseExpiry m) (index m).
Definition set_Receipt (r : string) (m : t) : t :=
  Mk (ID m) (Body m) (Priority m) (Seq m) (VisibleAt m) (EnqueuedAt m)
     (Attempts m) r (LeaseExpiry m) (index m).
Definition set_LeaseExpiry (e : Time) (m : t) : t :=
  Mk (ID m) (Body m) (Priority m) (Seq m) (VisibleAt m) (EnqueuedAt m)
     (Attempts m) (Receipt m) e (index m).

(** The message without its heap bookkeeping: what the unexported field
    [index] leaves when the value is copied into the log. *)
Definition erase (m : t) : t := set_index 0 m.

(** [func (m *Msg) Ready(now time.Time) bool]. *)
Definition Ready (m : t) (now : Time) : bool := negb (After (VisibleAt m) now).

Lemma erase_idemp m : erase (erase m) = erase m.
Proof. done. Qed.
Lemma erase_set_index i m : erase (set_index i m) = erase m.
Proof. done. Qed.
Lemma Ready_erase m now : Ready (erase m) now = Ready m now.
Proof. done. Qed.
Lemma Ready_le m now : Ready m now = true ↔ VisibleAt m ≤ now.
Proof. unfold Ready, After. rewrite negb_true_iff, Z.ltb_ge. done. Qed.
End Msg.
Abbreviation Msg := Msg.t.
Export (hints) Msg.

Module Config.
Record t := Mk {
  Name : string;
  Mode : string;
  Priority : bool;
  MaxAttempts : Z;
  VisibilityTimeoutMS : Z;
}.

#[export] Instance eq_dec : EqDecision t.
Proof. solve_decision. Defined.

Definition set_Mode (m : string) (c : t) : t :=
  Mk (Name c) m (Priority c) (MaxAttempts c) (VisibilityTimeoutMS c).
Definition set_VisibilityTimeoutMS (v : Z) (c : t) : t :=
  Mk (Name c) (Mode c) (Priority c) (MaxAttempts c) v.

(** [func (c Config) Visibility() time.Duration]: the product is [int64]. *)
Definition Visibility (c : t) : Duration :=
  i64 (i64 (VisibilityTimeoutMS c) * Millisecond).
End Config.
Abbreviation Config := Config.t.
Export (hints) Config.

(** [type Op string] and its constants. *)
Definition OpCreateQueue : string := "create_queue".
Definition OpEnqueue : string := "enqueue".
Definition OpLease : string := "lease".
Definition OpAck : string := "ack".
Definition OpNack : string := "nack".
Definition OpDLQ : string := "dlq".
Definition OpReplay : string := "replay".
Definition OpEpoch : string := "epoch".

(** [type Record struct] of the log; the pointer fields are optional values,
    since the log keeps what they point to when the record is written. *)
Module Rec.
Record t := Mk {
  Op : string;
  Queue : string;
  ID : string;
  Msg : option Msg.t;
  Config : option Config.t;
  Epoch : Z;
  Seq : Z;
  At : Z;
}.

#[export] Instance eq_dec : EqDecision t.
Proof. solve_decision. Defined.

Definition set_At (a : Z) (r : t) : t :=
  Mk (Op r) (Queue r) (ID r) (Msg r) (Config r) (Epoch r) (Seq r) a.

(** What survives being written and read back: no heap index. *)
Definition erase (r : t) : t :=
  Mk (Op r) (Queue r) (ID r) (Msg.erase <$> Msg r) (Config r) (Epoch r) (Seq r) (At r).

(** The composite literals of the source. *)
Definition of_msg (op q : string) (m : Msg.t) : t := Mk op q "" (Some m) None 0 0 0.
Definition of_id (op q id : string) : t := Mk op q id None None 0 0 0.
Definition of_id_msg (op q id : string) (m : Msg.t) : t := Mk op q id (Some m) None 0 0 0.
Definition of_config (op q : string) (c : Config.t) (seq : Z) : t :=
  Mk op q "" None (Some c) 0 seq 0.
Definition of_epoch (e : Z) : t := Mk OpEpoch "" "" None None e 0 0.
End Rec.
Abbreviation Rec := Rec.t.
Export (hints) Rec.

(** The errors the package returns; [ErrUnusable] and [ErrReopen] wrap the one
    they report, [ErrIO] stands for an error of the file system or of the
    encoder, passed through unchanged. *)
Inductive error :=
  | ErrNoLease
  | ErrPriorityDisabled
  | ErrQueueExists
  | ErrQueueNotFound
  | ErrStaleBookmark (bookmark log : Z)
  | ErrCorrupt (offset : Z) (reason : string)
  | ErrUnusable (cause : error)
  | ErrReopen (cause : error)
  | ErrOther (msg : string)
  | ErrIO (msg : string).

#[export] Instance error_eq_dec : EqDecision error.
Proof. solve_decision. Defined.

Abbreviation result := (Prelude.result error).
