(* ===== verification/Heaps.v ===== *)
(** * queue/heaps.go: the one heap type and its three comparators

    Messages live in a store (a [gmap] from locations), a [*Msg] is a location,
    and the heap's slice holds locations.  [Swap], [Push] and [Pop] write the
    cached [index] of the messages through the store, as the Go code does
    through the pointers, so the aliasing between the heaps, the lease table and
    the dead letter list is part of the model. *)

From S2P Require Import Prelude ContainerHeap Msg.

Abbreviation loc := nat (only parsing).
Abbreviation store := (gmap nat Msg).

(** [type msgHeap struct]. *)
Record msgHeap := MsgHeap { items : list loc; less : Msg → Msg → bool }.

Definition newMsgHeap (less : Msg → Msg → bool) : msgHeap := MsgHeap [] less.
Definition set_items (h : msgHeap) (l : list loc) : msgHeap := MsgHeap l (less h).

(** ** The methods *)

Definition mh_Len (h : store * msgHeap) : Z := Z.of_nat (length (items h.2)).

Definition mh_Less (h : store * msgHeap) (i j : Z) : option bool :=
  a ← zlookup (items h.2) i; b ← zlookup (items h.2) j;
  ma ← h.1 !! a; mb ← h.1 !! b;
  Some (less h.2 ma mb).

(** [m.index = i] through the pointer [x]. *)
Definition write_index (mem : store) (x : loc) (i : Z) : option store :=
  m ← mem !! x; Some (<[x := Msg.set_index i m]> mem).

Definition mh_Swap (h : store * msgHeap) (i j : Z) : option (store * msgHeap) :=
  a ← zlookup (items h.2) i; b ← zlookup (items h.2) j;
  let l := <[Z.to_nat i := b]> (<[Z.to_nat j := a]> (items h.2)) in
  mem ← write_index h.1 b i;
  mem ← write_index mem a j;
  Some (mem, set_items h.2 l).

Definition mh_Push (h : store * msgHeap) (x : loc) : option (store * msgHeap) :=
  mem ← write_index h.1 x (mh_Len h);
  Some (mem, set_items h.2 (items h.2 ++ [x])).

Definition mh_Pop (h : store * msgHeap) : option (loc * (store * msgHeap)) :=
  let old := items h.2 in
  let n := mh_Len h in
  x ← zlookup old (n - 1);
  mem ← write_index h.1 x (-1);
  Some (x, (mem, set_items h.2 (take (Z.to_nat (n - 1)) old))).

(** [peek]: the root, or [nil]. *)
Definition peek (h : msgHeap) : option loc :=
  match items h with [] => None | x :: _ => Some x end.

(** [var _ heap.Interface = ( *msgHeap )(nil)]. *)
#[export] Instance msgHeap_interface : HeapInterface (store * msgHeap) loc := {
  Len := mh_Len; Less := mh_Less; Swap := mh_Swap; Push := mh_Push; Pop := mh_Pop;
}.

(** ** The comparators *)

Definition orderBy (mode : Mode) (a b : Msg) : bool :=
  if bool_decide (Msg.Priority a ≠ Msg.Priority b) then Msg.Priority b <? Msg.Priority a
  else if bool_decide (mode = LIFO) then Msg.Seq b <? Msg.Seq a
  else Msg.Seq a <? Msg.Seq b.

Definition byVisibleAt (a b : Msg) : bool := Before (Msg.VisibleAt a) (Msg.VisibleAt b).
Definition byLeaseExpiry (a b : Msg) : bool := Before (Msg.LeaseExpiry a) (Msg.LeaseExpiry b).

(** A comparator is usable in a [msgHeap]: a weak order that ignores [index]. *)
Class Comparator (less : Msg → Msg → bool) := {
  cmp_order :: WeakOrder less;
  cmp_erase a b : less (Msg.erase a) (Msg.erase b) = less a b;
}.

#[export] Instance orderBy_comparator mode : Comparator (orderBy mode).
Proof.
  split; [|done]. split; intros *; unfold orderBy;
    repeat case_bool_decide; rewrite ?Z.ltb_lt, ?Z.ltb_ge; lia.
Qed.

#[export] Instance byVisibleAt_comparator : Comparator byVisibleAt.
Proof. split; [|done]. split; intros *; unfold byVisibleAt, Before; lia. Qed.

#[export] Instance byLeaseExpiry_comparator : Comparator byLeaseExpiry.
Proof. split; [|done]. split; intros *; unfold byLeaseExpiry, Before; lia. Qed.

(** The ready heap's order is total as soon as sequence numbers differ. *)
Lemma orderBy_total mode a b :
  Msg.Seq a ≠ Msg.Seq b → orderBy mode a b = true ∨ orderBy mode b a = true.
Proof.
  intros. unfold orderBy. repeat case_bool_decide; rewrite ?Z.ltb_lt; lia.
Qed.

(** ** What a heap operation may do to the store

    Nothing but the cached indices of the messages in [D]. *)

Definition frame (mem mem' : store) (D : list loc) : Prop :=
  (∀ x, Msg.erase <$> mem' !! x = Msg.erase <$> mem !! x) ∧
  (∀ x, x ∉ D → mem' !! x = mem !! x).

Lemma frame_refl mem D : frame mem mem D.
Proof. done. Qed.

Lemma frame_trans mem1 mem2 mem3 D1 D2 D :
  frame mem1 mem2 D1 → frame mem2 mem3 D2 → D1 ⊆ D → D2 ⊆ D → frame mem1 mem3 D.
Proof.
  intros [E1 F1] [E2 F2] H1 H2. split; intros x.
  - by rewrite E2, E1.
  - intros. rewrite F2, F1; set_solver.
Qed.

Lemma frame_lookup mem mem' D x m :
  frame mem mem' D → mem !! x = Some m →
  ∃ m', mem' !! x = Some m' ∧ Msg.erase m' = Msg.erase m.
Proof.
  intros [E _] Hx. specialize (E x). rewrite Hx in E. simpl in E.
  apply fmap_Some in E as (m' & ? & ?). eauto.
Qed.

Lemma write_index_frame mem x i mem' D :
  write_index mem x i = Some mem' → x ∈ D → frame mem mem' D.
Proof.
  unfold write_index. intros (m & Hm & [= <-])%bind_Some Hx. split; intros y.
  - destruct (decide (x = y)) as [<-|].
    + by rewrite lookup_insert_eq, Hm.
    + by rewrite lookup_insert_ne.
  - intros. rewrite lookup_insert_ne; [done|]. set_solver.
Qed.

(** The comparator seen on locations, against a fixed store. *)
Definition locless (mem : store) (less : Msg → Msg → bool) (x y : loc) : bool :=
  less (default Msg.zero (mem !! x)) (default Msg.zero (mem !! y)).

#[export] Instance locless_order mem less `{!Comparator less} : WeakOrder (locless mem less).
Proof. split; intros *; unfold locless; [apply wo_asym|apply wo_negtrans]. Qed.

Lemma locless_eq mem mem' less `{!Comparator less} x y :
  Msg.erase <$> mem' !! x = Msg.erase <$> mem !! x →
  Msg.erase <$> mem' !! y = Msg.erase <$> mem !! y →
  locless mem' less x y = locless mem less x y.
Proof.
  intros Ex Ey. unfold locless. rewrite <- (cmp_erase (default _ (mem' !! x))).
  rewrite <- (cmp_erase (default _ (mem !! x))).
  assert (∀ z, Msg.erase <$> mem' !! z = Msg.erase <$> mem !! z →
    Msg.erase (default Msg.zero (mem' !! z)) = Msg.erase (default Msg.zero (mem !! z))) as Hd.
  { intros z. destruct (mem' !! z), (mem !! z); cbn [fmap option_fmap option_map default];
      intros E; [by apply (inj Some)|done..]. }
  by rewrite !Hd.
Qed.

(** ** The simulation

    [mh_rep mem0 D ls] relates the carrier to the list of its items: the items
    are distinct, every cached index is the item's position, and compared with
    the store [mem0] only indices of [D] have changed. *)

Definition indexed (mem : store) (l : list loc) : Prop :=
  ∀ i x, l !! i = Some x → ∃ m, mem !! x = Some m ∧ Msg.index m = Z.of_nat i.

Definition mh_rep (mem0 : store) (D : list loc) (ls : Msg → Msg → bool)
    (h : store * msgHeap) (l : list loc) : Prop :=
  items h.2 = l ∧ less h.2 = ls ∧ NoDup l ∧ l ⊆ D ∧ indexed h.1 l ∧ frame mem0 h.1 D.

Lemma write_index_lookup mem x i m :
  mem !! x = Some m → write_index mem x i = Some (<[x := Msg.set_index i m]> mem).
Proof. intros E. unfold write_index. by rewrite E. Qed.

Lemma take_length_app {A} (l : list A) x : take (length l) (l ++ [x]) = l.
Proof. by rewrite take_app_length. Qed.

Section Rep.
Context (mem0 : store) (D : list loc) (ls : Msg → Msg → bool) `{!Comparator ls}.

Lemma mh_rep_lookup h l i x :
  mh_rep mem0 D ls h l → l !! i = Some x → ∃ m, h.1 !! x = Some m.
Proof. intros (?&?&?&?&Hi&?) Hx. destruct (Hi _ _ Hx) as (m & ? & ?). eauto. Qed.

Lemma mh_swap_sim h l i j :
  mh_rep mem0 D ls h l → (i < length l)%nat → (j < length l)%nat →
  ∃ h', mh_Swap h (Z.of_nat i) (Z.of_nat j) = Some h' ∧ mh_rep mem0 D ls h' (swap_l l i j).
Proof.
  destruct h as [mem h]. intros (E & Els & Hnd & Hsub & Hidx & Hfr) Hi Hj.
  simpl in *. subst l.
  destruct (lookup_lt_is_Some_2 _ _ Hi) as [a Ha], (lookup_lt_is_Some_2 _ _ Hj) as [b Hb].
  destruct (Hidx _ _ Ha) as (ma & Hma & Ia), (Hidx _ _ Hb) as (mb & Hmb & Ib).
  unfold mh_Swap. simpl. rewrite !zlookup_nat, Ha, Hb, !Nat2Z.id. simpl.
  rewrite (write_index_lookup _ _ _ _ Hmb). simpl_bind.
  set (mem1 := <[b:=_]> mem).
  assert (∃ ma', mem1 !! a = Some ma') as [ma' Hma'].
  { destruct (decide (b = a)) as [->|]; subst mem1; rewrite ?lookup_insert_eq;
      rewrite ?lookup_insert_ne by done; eauto. }
  rewrite (write_index_lookup _ _ _ _ Hma'). simpl_bind. eexists. split; [done|].
  unfold mh_rep. cbn [fst snd items less set_items]. split_and!; [|done|..].
  - unfold swap_l. by rewrite Ha, Hb.
  - by rewrite swap_l_perm.
  - by rewrite swap_l_perm.
  - intros k x. rewrite (swap_l_lookup _ _ _ _ _ k Ha Hb).
    repeat case_decide; intros Hk; simplify_eq.
    + destruct (decide (a = x)) as [->|].
      * rewrite lookup_insert_eq. eexists. split; [done|]. simpl.
        pose proof (NoDup_lookup _ _ _ _ Hnd Ha Hb). lia.
      * subst mem1. rewrite lookup_insert_ne, lookup_insert_eq by done. eauto.
    + rewrite lookup_insert_eq. eauto.
    + destruct (Hidx k x) as (m & Hm & ?); [done|].
      subst mem1. rewrite !lookup_insert_ne; [eauto|..]; intros ->.
      * by pose proof (NoDup_lookup _ _ _ _ Hnd Hb Hk).
      * by pose proof (NoDup_lookup _ _ _ _ Hnd Ha Hk).
  - eapply frame_trans; [exact Hfr| |done|apply (reflexivity D)].
    eapply (frame_trans _ mem1); [| |apply (reflexivity D)..].
    + eapply write_index_frame; [by apply write_index_lookup|].
      apply Hsub. by eapply list_elem_of_lookup_2.
    + eapply write_index_frame; [by apply write_index_lookup|].
      apply Hsub. by eapply list_elem_of_lookup_2.
Qed.

Lemma mh_push_sim h l x :
  mh_rep mem0 D ls h l → (x ∈ D ∧ is_Some (mem0 !! x)) → x ∉ l →
  ∃ h', mh_Push h x = Some h' ∧ mh_rep mem0 D ls h' (l ++ [x]).
Proof.
  destruct h as [mem h]. intros (E & Els & Hnd & Hsub & Hidx & Hfr) [HD [m0 Hm0]] Hx.
  simpl in *. subst l. destruct (frame_lookup _ _ _ _ _ Hfr Hm0) as (m & Hm & _).
  unfold mh_Push. cbn [fst snd]. rewrite (write_index_lookup _ _ _ _ Hm). simpl_bind.
  eexists. split; [done|]. unfold mh_rep. cbn [fst snd items less set_items].
  split_and!; [done|done|..].
  - apply NoDup_app. split_and!; [done| |apply NoDup_singleton]. set_solver.
  - set_solver.
  - intros i y [Hi|[Hi Hy]]%lookup_app_Some.
    + destruct (Hidx _ _ Hi) as (m' & ? & ?). rewrite lookup_insert_ne; [eauto|].
      intros ->. apply Hx. by eapply list_elem_of_lookup_2.
    + apply list_lookup_singleton_Some in Hy as [Hy ->]. rewrite lookup_insert_eq.
      eexists. split; [done|]. simpl. unfold mh_Len. simpl. lia.
  - eapply frame_trans; [exact Hfr| |done|apply (reflexivity D)].
    eapply write_index_frame; [by apply write_index_lookup|done].
Qed.

Lemma mh_pop_sim h l x :
  mh_rep mem0 D ls h (l ++ [x]) → ∃ h', mh_Pop h = Some (x, h') ∧ mh_rep mem0 D ls h' l.
Proof.
  destruct h as [mem h]. intros (E & Els & Hnd & Hsub & Hidx & Hfr). simpl in *.
  assert ((l ++ [x]) !! length l = Some x) as Hl.
  { by rewrite lookup_app_r, Nat.sub_diag. }
  destruct (Hidx _ _ Hl) as (m & Hm & _).
  unfold mh_Pop, mh_Len. cbn [fst snd]. rewrite E, length_app. simpl length.
  replace (Z.of_nat (length l + 1) - 1) with (Z.of_nat (length l)) by lia.
  rewrite zlookup_nat, Hl. simpl_bind. rewrite (write_index_lookup _ _ _ _ Hm). simpl_bind.
  eexists. split; [done|]. unfold mh_rep. cbn [fst snd items less set_items].
  apply NoDup_app in Hnd as (Hnd & Hx & _). rewrite Nat2Z.id.
  split_and!; [by rewrite take_app_length|done|done|set_solver|..].
  - intros i y Hi. destruct (Hidx i y) as (m' & ? & ?); [by apply lookup_app_l_Some|].
    rewrite lookup_insert_ne; [eauto|]. intros ->.
    apply (Hx y); [by eapply list_elem_of_lookup_2|set_solver].
  - eapply frame_trans; [exact Hfr| |done|apply (reflexivity D)].
    eapply write_index_frame; [by apply write_index_lookup|set_solver].
Qed.

Lemma mh_less_sim h l i j a b :
  mh_rep mem0 D ls h l → l !! i = Some a → l !! j = Some b →
  mh_Less h (Z.of_nat i) (Z.of_nat j) = Some (locless mem0 ls a b).
Proof.
  intros Hrep Ha Hb. destruct (mh_rep_lookup _ _ _ _ Hrep Ha) as [ma Hma].
  destruct (mh_rep_lookup _ _ _ _ Hrep Hb) as [mb Hmb].
  destruct Hrep as (<- & <- & _ & _ & _ & [Hfr _]).
  unfold mh_Less. rewrite !zlookup_nat, Ha, Hb. simpl_bind. rewrite Hma, Hmb. simpl_bind.
  rewrite <- (locless_eq mem0 h.1) by done. unfold locless. by rewrite Hma, Hmb.
Qed.

#[export] Instance msgHeap_sim :
  HeapSim (mh_rep mem0 D ls) (λ x, x ∈ D ∧ is_Some (mem0 !! x)) (locless mem0 ls).
Proof.
  split.
  - intros h l (<- & _). done.
  - apply mh_less_sim.
  - apply mh_swap_sim.
  - intros. by apply mh_push_sim.
  - apply mh_pop_sim.
Qed.
End Rep.

(** ** The heap invariant and the four operations the queue uses *)

Record mh_ok (mem : store) (h : msgHeap) : Prop := {
  mh_nodup : NoDup (items h);
  mh_indexed : indexed mem (items h);
  mh_cmp : Comparator (less h);
  mh_ordered : ordered (locless mem (less h)) (items h);
}.

Lemma mh_ok_rep mem h D :
  mh_ok mem h → items h ⊆ D → mh_rep mem D (less h) (mem, h) (items h).
Proof. intros [] ?. unfold mh_rep. split_and!; try done. Qed.

Lemma ordered_ext {A} (lt1 lt2 : A → A → bool) l :
  (∀ a b, a ∈ l → b ∈ l → lt1 a b = lt2 a b) → ordered lt1 l → ordered lt2 l.
Proof.
  intros E Ho p c a b Hc _ Ha Hb. unfold le.
  rewrite <- E by (by eapply list_elem_of_lookup_2). by apply (Ho p c a b).
Qed.

Lemma rep_mh_ok mem0 D ls mem' h' l `{!Comparator ls} :
  mh_rep mem0 D ls (mem', h') l → ordered (locless mem0 ls) l →
  mh_ok mem' h' ∧ less h' = ls ∧ items h' = l ∧ frame mem0 mem' D.
Proof.
  intros (E & Els & Hnd & Hsub & Hidx & Hfr) Ho. simpl in *. subst.
  split_and!; [|done..]. split; try done.
  eapply ordered_ext; [|exact Ho]. intros a b _ _. symmetry.
  apply locless_eq; [done|apply Hfr..].
Qed.

Section Operations.
Context (mem : store) (h : msgHeap).
Implicit Types x : loc.

Lemma mh_Push_ok x :
  mh_ok mem h → x ∉ items h → is_Some (mem !! x) →
  ∃ mem' h', heap_Push (mem, h) x = Some (mem', h') ∧ mh_ok mem' h' ∧
    less h' = less h ∧ items h' ≡ₚ x :: items h ∧ frame mem mem' (x :: items h).
Proof.
  intros Hok Hx Hm. pose proof (mh_cmp _ _ Hok).
  destruct (heap_Push_sim (mh_rep mem (x :: items h) (less h)) _ _ (mem, h) (items h) x
    (mh_ok_rep _ _ (x :: items h) Hok ltac:(set_solver)) (conj (list_elem_of_here _ _) Hm) Hx)
    as ([mem' h'] & E & HR).
  destruct (rep_mh_ok _ _ _ _ _ _ HR) as (Hok' & El & Ei & Hfr).
  { apply push_l_ordered; [apply _|]. by apply mh_ordered. }
  exists mem', h'. split_and!; try done. rewrite Ei. apply push_l_perm.
Qed.

Lemma mh_Pop_ok x :
  mh_ok mem h → peek h = Some x →
  ∃ mem' h', heap_Pop (mem, h) = Some (x, (mem', h')) ∧ mh_ok mem' h' ∧
    less h' = less h ∧ x :: items h' ≡ₚ items h ∧ frame mem mem' (items h).
Proof.
  intros Hok Hx. pose proof (mh_cmp _ _ Hok).
  assert (items h !! 0%nat = Some x) as Hx0 by (unfold peek in Hx; by destruct (items h)).
  destruct (heap_Pop_sim (mh_rep mem (items h) (less h)) _ _ (mem, h) (items h) x
    (mh_ok_rep _ _ _ Hok ltac:(done)) (mh_ordered _ _ Hok) Hx0)
    as ([mem' h'] & l' & E & HR & Hp & Ho).
  destruct (rep_mh_ok _ _ _ _ _ _ HR Ho) as (Hok' & El & Eit & Hfr).
  exists mem', h'. split_and!; try done. by rewrite Eit.
Qed.

Lemma mh_Remove_ok x m :
  mh_ok mem h → x ∈ items h → mem !! x = Some m →
  ∃ mem' h', heap_Remove (mem, h) (Msg.index m) = Some (x, (mem', h')) ∧ mh_ok mem' h' ∧
    less h' = less h ∧ x :: items h' ≡ₚ items h ∧ frame mem mem' (items h).
Proof.
  intros Hok [i Hi]%list_elem_of_lookup Hm. pose proof (mh_cmp _ _ Hok).
  destruct (mh_indexed _ _ Hok _ _ Hi) as (m' & Hm' & Ei). simplify_eq. rewrite Ei.
  destruct (heap_Remove_sim (mh_rep mem (items h) (less h)) _ _ (mem, h) (items h) i x
    (mh_ok_rep _ _ _ Hok ltac:(done)) (mh_ordered _ _ Hok) Hi)
    as ([mem' h'] & l' & E & HR & Hp & Ho).
  destruct (rep_mh_ok _ _ _ _ _ _ HR Ho) as (Hok' & El & Eit & Hfr).
  exists mem', h'. split_and!; try done. by rewrite Eit.
Qed.

(** [heap.Fix] after the message at [x] got a new key. *)
Lemma mh_Fix_ok x m m1 :
  mh_ok mem h → x ∈ items h → mem !! x = Some m → Msg.index m1 = Msg.index m →
  ∃ mem' h', heap_Fix (<[x := m1]> mem, h) (Msg.index m1) = Some (mem', h') ∧
    mh_ok mem' h' ∧ less h' = less h ∧ items h' ≡ₚ items h ∧
    frame (<[x := m1]> mem) mem' (items h).
Proof.
  intros Hok [i Hi]%list_elem_of_lookup Hm Em. pose proof (mh_cmp _ _ Hok).
  pose proof (mh_nodup _ _ Hok) as Hnd.
  destruct (mh_indexed _ _ Hok _ _ Hi) as (m' & Hm' & Ei). simplify_eq.
  rewrite Em, Ei. set (mem1 := <[x:=m1]> mem).
  assert (mh_rep mem1 (items h) (less h) (mem1, h) (items h)) as Hrep.
  { unfold mh_rep. split_and!; try done. intros k y Hy.
    destruct (mh_indexed _ _ Hok _ _ Hy) as (my & Hmy & Ek). subst mem1. simpl.
    destruct (decide (x = y)) as [<-|]; [|rewrite lookup_insert_ne by done; eauto].
    rewrite lookup_insert_eq. eexists. split; [done|]. simplify_eq. by rewrite Em. }
  destruct (heap_Fix_sim _ _ _ _ _ i Hrep) as ([mem' h'] & E & HR).
  { by eapply lookup_lt_Some. }
  assert (fix_inv (locless mem1 (less h)) (items h) i) as Hinv.
  { assert (∀ p c a b, p ≠ i → c ≠ i → items h !! p = Some a → items h !! c = Some b →
      le (locless mem (less h)) a b → le (locless mem1 (less h)) a b) as Hext.
    { intros p c a b Hp Hc Ha Hb. unfold le, locless, mem1.
      rewrite !lookup_insert_ne; [done|..]; intros ->;
        [apply Hp|apply Hc]; by eapply NoDup_lookup. }
    pose proof (mh_ordered _ _ Hok) as Ho.
    destruct (ordered_up_inv _ _ i Ho) as [_ Hg]. split.
    - intros p c a b Hc [? ?] Ha Hb. apply (Hext p c); auto. by apply (Ho p c).
    - intros g c a b Hgi Hic Ha Hb. apply (Hext g c); auto.
      + apply child_lt in Hgi. lia.
      + apply child_lt in Hic. lia.
      + by apply (Hg g c). }
  destruct (rep_mh_ok _ _ _ _ _ _ HR) as (Hok' & El & Eit & Hfr).
  { by apply fix_l_ordered; [apply _|]. }
  exists mem', h'. split_and!; try done. rewrite Eit. apply fix_l_perm.
Qed.

(** The root comes before everything else. *)
Lemma mh_peek_least x y :
  mh_ok mem h → peek h = Some x → y ∈ items h → locless mem (less h) y x = false.
Proof.
  intros Hok Hx Hy. pose proof (mh_cmp _ _ Hok).
  eapply (ordered_root (locless mem (less h))); [apply mh_ordered; done| |done].
  unfold peek in Hx. by destruct (items h).
Qed.

(** The invariant only looks at the heap's own messages. *)
Lemma mh_ok_agree mem' :
  mh_ok mem h → (∀ y, y ∈ items h → mem' !! y = mem !! y) → mh_ok mem' h.
Proof.
  intros Hok Hfr. pose proof (mh_cmp _ _ Hok). split.
  - by apply mh_nodup with mem.
  - intros i y Hy. rewrite Hfr; [by apply (mh_indexed _ _ Hok)|].
    by eapply list_elem_of_lookup_2.
  - done.
  - eapply ordered_ext; [|by apply mh_ordered]. intros a b Ha Hb. unfold locless.
    by rewrite !Hfr.
Qed.
End Operations.
