(* ===== verification/LogStore.v ===== *)
(** * What a queue asks of its write ahead log

    [queue/queue.go] only calls [Append] and [AppendSync] on its [*WAL].  The
    class [Log] is that interface over a type [W] of log states, [LogLaws] what
    the log promises: the records a recovery scan of the current log would
    read, and how a write changes them.  The queue's theorems are proved
    against the classes; [Wal.v] discharges them for [queue/wal.go]. *)

From S2P Require Import Prelude Msg.

Class Log (W : Type) := {
  (** [func (w *WAL) write(rec Record, durable bool) error]. *)
  write : Rec → bool → W → W * option error;
}.

Definition Append {W} `{Log W} (r : Rec) (w : W) : W * option error := write r false w.
Definition AppendSync {W} `{Log W} (r : Rec) (w : W) : W * option error := write r true w.

(** A record as it comes back: stamped with a time, without heap indices. *)
Definition stored (r r' : Rec) : Prop := ∃ at_, r' = Rec.erase (Rec.set_At at_ r).

Class LogLaws (W : Type) `{Log W} := {
  (** The states in which the file up to the tracked size is a clean log. *)
  log_ok : W → Prop;
  (** The records a scan of the whole log reads. *)
  log : W → list Rec;
  (** Records the encoder represents exactly. *)
  storable : Rec → Prop;
  write_log_ok r d w : log_ok w → storable r → log_ok (write r d w).1;
  write_ok r d w w' :
    log_ok w → storable r → write r d w = (w', None) →
    ∃ r', stored r r' ∧ log w' = log w ++ [r'];
  (** A failed write may still have reached the file. *)
  write_err r d w w' e :
    log_ok w → storable r → write r d w = (w', Some e) →
    log w' = log w ∨ ∃ r', stored r r' ∧ log w' = log w ++ [r'];
}.

(** ** An in-memory log

    The simplest log that meets the laws: a list of records and a schedule of
    failures ([true] refuses the next write).  It makes the class inhabited and
    lets the operations run on concrete inputs. *)

Module MemLog.
Record t := Mk { recs : list Rec; faults : list bool }.

#[export] Instance memlog : Log t := {
  write r _ w :=
    match faults w with
    | true :: fs => (Mk (recs w) fs, Some (ErrIO "disk full"))
    | false :: fs => (Mk (recs w ++ [Rec.erase r]) fs, None)
    | [] => (Mk (recs w ++ [Rec.erase r]) [], None)
    end;
}.

#[export] Instance memlog_laws : LogLaws t.
Proof.
  refine {| log_ok _ := True; log := recs; storable _ := True |}.
  - done.
  - intros r d [rs fs] w' _ _ E. simpl in E. exists (Rec.erase r). split.
    + exists (Rec.At r). by destruct r.
    + destruct fs as [|[] fs]; by simplify_eq.
  - intros r d [rs fs] w' e _ _ E. simpl in E. left.
    destruct fs as [|[] fs]; by simplify_eq.
Defined.

Definition empty : t := Mk [] [].
End MemLog.
Export (hints) MemLog.
