(* ===== verification/Queue.v ===== *)
(** * queue/queue.go: a single queue

    The state of a [Queue] and its methods, each a function of the state, the
    log, and what the method reads from its environment: the value of
    [time.Now()] and the random bytes of [newID].  A method holds [q.mu] from
    beginning to end, so each is one atomic step.  [None] is a panic. *)

From Stdlib Require Import Strings.Byte.
From S2P Require Import Prelude ContainerHeap Msg Heaps LogStore.

(** [type Queue struct], with the store its pointers point into.  The channel
    [wake] is its generation number: closing it and making a fresh one moves to
    the next generation, and a channel is closed when its number is smaller. *)
Record Queue := MkQueue {
  cfg : Config;
  mem : store;
  seq : Z;
  ready : msgHeap;
  delayed : msgHeap;
  inflight : msgHeap;
  leases : gmap string loc;
  dlq : list loc;
  enqueued : Z; delivered : Z; acked : Z; nacked : Z; expired : Z;
  walErr : option error;
  wake : nat;
}.

(** ** Field updates *)

Definition set_mem v q := MkQueue (cfg q) v (seq q) (ready q) (delayed q) (inflight q)
  (leases q) (dlq q) (enqueued q) (delivered q) (acked q) (nacked q) (expired q) (walErr q) (wake q).
Definition set_seq v q := MkQueue (cfg q) (mem q) v (ready q) (delayed q) (inflight q)
  (leases q) (dlq q) (enqueued q) (delivered q) (acked q) (nacked q) (expired q) (walErr q) (wake q).
Definition set_leases v q := MkQueue (cfg q) (mem q) (seq q) (ready q) (delayed q) (inflight q)
  v (dlq q) (enqueued q) (delivered q) (acked q) (nacked q) (expired q) (walErr q) (wake q).
Definition set_dlq v q := MkQueue (cfg q) (mem q) (seq q) (ready q) (delayed q) (inflight q)
  (leases q) v (enqueued q) (delivered q) (acked q) (nacked q) (expired q) (walErr q) (wake q).
Definition incr_enqueued q := MkQueue (cfg q) (mem q) (seq q) (ready q) (delayed q) (inflight q)
  (leases q) (dlq q) (u64 (enqueued q + 1)) (delivered q) (acked q) (nacked q) (expired q) (walErr q) (wake q).
Definition incr_delivered q := MkQueue (cfg q) (mem q) (seq q) (ready q) (delayed q) (inflight q)
  (leases q) (dlq q) (enqueued q) (u64 (delivered q + 1)) (acked q) (nacked q) (expired q) (walErr q) (wake q).
Definition incr_acked q := MkQueue (cfg q) (mem q) (seq q) (ready q) (delayed q) (inflight q)
  (leases q) (dlq q) (enqueued q) (delivered q) (u64 (acked q + 1)) (nacked q) (expired q) (walErr q) (wake q).
Definition incr_nacked q := MkQueue (cfg q) (mem q) (seq q) (ready q) (delayed q) (inflight q)
  (leases q) (dlq q) (enqueued q) (delivered q) (acked q) (u64 (nacked q + 1)) (expired q) (walErr q) (wake q).
Definition incr_expired q := MkQueue (cfg q) (mem q) (seq q) (ready q) (delayed q) (inflight q)
  (leases q) (dlq q) (enqueued q) (delivered q) (acked q) (nacked q) (u64 (expired q + 1)) (walErr q) (wake q).
Definition set_walErr v q := MkQueue (cfg q) (mem q) (seq q) (ready q) (delayed q) (inflight q)
  (leases q) (dlq q) (enqueued q) (delivered q) (acked q) (nacked q) (expired q) v (wake q).

(** [signalLocked]: close the wake channel, install a fresh one. *)
Definition signalLocked q := MkQueue (cfg q) (mem q) (seq q) (ready q) (delayed q) (inflight q)
  (leases q) (dlq q) (enqueued q) (delivered q) (acked q) (nacked q) (expired q) (walErr q) (S (wake q)).

(** The three heaps, by name. *)
Inductive hid := HReady | HDelayed | HInflight.
#[export] Instance hid_eq_dec : EqDecision hid.
Proof. solve_decision. Defined.

Definition heap_at (p : hid) (q : Queue) : msgHeap :=
  match p with HReady => ready q | HDelayed => delayed q | HInflight => inflight q end.

Definition set_heap (p : hid) (m : store) (h : msgHeap) (q : Queue) : Queue :=
  MkQueue (cfg q) m (seq q)
    (match p with HReady => h | _ => ready q end)
    (match p with HDelayed => h | _ => delayed q end)
    (match p with HInflight => h | _ => inflight q end)
    (leases q) (dlq q) (enqueued q) (delivered q) (acked q) (nacked q) (expired q)
    (walErr q) (wake q).

(** ** Calls into container/heap, on one of the queue's heaps *)

Definition q_push (p : hid) (x : loc) (q : Queue) : option Queue :=
  '(m, h) ← heap_Push (mem q, heap_at p q) x; Some (set_heap p m h q).
Definition q_pop (p : hid) (q : Queue) : option (loc * Queue) :=
  '(x, (m, h)) ← heap_Pop (mem q, heap_at p q); Some (x, set_heap p m h q).
Definition q_remove (p : hid) (i : Z) (q : Queue) : option Queue :=
  '(_, (m, h)) ← heap_Remove (mem q, heap_at p q) i; Some (set_heap p m h q).
Definition q_fix (p : hid) (i : Z) (q : Queue) : option Queue :=
  '(m, h) ← heap_Fix (mem q, heap_at p q) i; Some (set_heap p m h q).

(** Assignments through a [*Msg]. *)
Definition q_update (x : loc) (f : Msg → Msg) (q : Queue) : option Queue :=
  m ← mem q !! x; Some (set_mem (<[x := f m]> (mem q)) q).

(** ** Identifiers *)

Definition hexdigit (n : N) : Ascii.ascii :=
  default Ascii.zero (String.get (N.to_nat n) "0123456789abcdef").

(** [hex.EncodeToString]. *)
Fixpoint hex_encode (bs : list byte) : string :=
  match bs with
  | [] => ""
  | b :: bs =>
      String (hexdigit (Byte.to_N b / 16))
        (String (hexdigit (Byte.to_N b mod 16)) (hex_encode bs))
  end.

(** [newID]: [b] holds the sixteen bytes [rand.Read] put into the array. *)
Definition newID (b : list byte) : string := hex_encode b.

(** ** Construction *)

Definition New (c : Config) : Queue :=
  let c := if bool_decide (Config.Mode c = "") then Config.set_Mode FIFO c else c in
  let c := if Config.VisibilityTimeoutMS c <=? 0
           then Config.set_VisibilityTimeoutMS 30000 c else c in
  MkQueue c ∅ 0 (newMsgHeap (orderBy (Config.Mode c))) (newMsgHeap byVisibleAt)
    (newMsgHeap byLeaseExpiry) ∅ [] 0 0 0 0 0 None 0.

Definition name (q : Queue) : string := Config.Name (cfg q).

(** ** Placing and retrying a message *)

Definition placeLocked (x : loc) (now : Time) (q : Queue) : option Queue :=
  m ← mem q !! x;
  if Msg.Ready m now then q_push HReady x q else q_push HDelayed x q.

Section Methods.
Context {W : Type} `{Log W}.

Definition retryLocked (x : loc) (now : Time) (delay : Duration) (q : Queue) (w : W) :
    option (Queue * W * option error) :=
  m ← mem q !! x;
  if (0 <? Config.MaxAttempts (cfg q)) && (Config.MaxAttempts (cfg q) <=? Msg.Attempts m)
  then
    match AppendSync (Rec.of_id OpDLQ (name q) (Msg.ID m)) w with
    | (w, Some err) =>
        q ← q_update x (Msg.set_VisibleAt now) q;
        q ← placeLocked x now q;
        Some (q, w, Some err)
    | (w, None) => Some (set_dlq (dlq q ++ [x]) q, w, None)
    end
  else
    q ← q_update x (Msg.set_VisibleAt (Add now delay)) q;
    snap ← mem q !! x;
    match AppendSync (Rec.of_id_msg OpNack (name q) (Msg.ID snap) snap) w with
    | (w, Some err) => Some (q, w, Some err)
    | (w, None) => q ← placeLocked x now q; Some (q, w, None)
    end.

(** ** [advanceLocked]: its two loops and the final signal *)

Fixpoint openGates (fuel : nat) (now : Time) (q : Queue) (woke : bool) :
    option (Queue * bool) :=
  match fuel with
  | O => None
  | S fuel =>
      match peek (delayed q) with
      | None => Some (q, woke)
      | Some x =>
          m ← mem q !! x;
          if negb (Msg.Ready m now) then Some (q, woke)
          else
            '(_, q) ← q_pop HDelayed q;
            q ← q_push HReady x q;
            openGates fuel now q true
      end
  end.

(** The body of the second loop, for the expired lease [m] at the root [x]. *)
Definition reclaim_one (x : loc) (m : Msg) (now : Time) (q : Queue) (w : W) :
    option (Queue * W) :=
  '(_, q) ← q_pop HInflight q;
  let q := set_leases (delete (Msg.Receipt m) (leases q)) q in
  q ← q_update x (Msg.set_Receipt "") q;
  q ← q_update x (Msg.set_LeaseExpiry zeroTime) q;
  let q := incr_expired q in
  '(q, w, err) ← retryLocked x now 0 q w;
  Some (match err, walErr q with
        | Some e, None => set_walErr (Some e) q
        | _, _ => q
        end, w).

Fixpoint reclaim (fuel : nat) (now : Time) (q : Queue) (w : W) (woke : bool) :
    option (Queue * W * bool) :=
  match fuel with
  | O => None
  | S fuel =>
      match peek (inflight q) with
      | None => Some (q, w, woke)
      | Some x =>
          m ← mem q !! x;
          if After (Msg.LeaseExpiry m) now then Some (q, w, woke)
          else '(q, w) ← reclaim_one x m now q w; reclaim fuel now q w true
      end
  end.

Definition advanceLocked (now : Time) (q : Queue) (w : W) : option (Queue * W) :=
  '(q, woke) ← openGates (S (length (items (delayed q)))) now q false;
  '(q, w, woke) ← reclaim (S (length (items (inflight q)))) now q w woke;
  Some (if (woke : bool) then signalLocked q else q, w).

Definition Tick := advanceLocked.

(** ** Enqueue *)

Definition Enqueue (body : string) (priority : Z) (delay : Duration)
    (now : Time) (rnd : list byte) (q : Queue) (w : W) :
    option (Queue * W * result Msg) :=
  if bool_decide (priority ≠ 0) && negb (Config.Priority (cfg q))
  then Some (q, w, Err ErrPriorityDisabled)
  else
    let q := set_seq (u64 (seq q + 1)) q in
    let m := Msg.Mk (newID rnd) body priority (seq q) (Add now delay) now 0 "" zeroTime 0 in
    let x := fresh (dom (mem q)) in
    let q := set_mem (<[x := m]> (mem q)) q in
    match AppendSync (Rec.of_msg OpEnqueue (name q) m) w with
    | (w, Some err) => Some (q, w, Err err)
    | (w, None) =>
        q ← placeLocked x now q;
        let q := signalLocked (incr_enqueued q) in
        m ← mem q !! x;
        Some (q, w, Ok m)
    end.

(** ** Receive: one attempt *)

Fixpoint pick (fuel : nat) (max : Z) (picked : list loc) (q : Queue) :
    option (list loc * Queue) :=
  match fuel with
  | O => None
  | S fuel =>
      if Z.of_nat (length picked) <? max then
        match peek (ready q) with
        | None => Some (picked, q)
        | Some x => '(_, q) ← q_pop HReady q; pick fuel max (picked ++ [x]) q
        end
      else Some (picked, q)
  end.

(** A lease as handed out: [m.Attempts++] and the two lease fields. *)
Definition lease_msg (receipt : string) (expiry : Time) (m : Msg) : Msg :=
  Msg.set_LeaseExpiry expiry (Msg.set_Receipt receipt
    (Msg.set_Attempts (i64 (Msg.Attempts m + 1)) m)).

(** The loop that logs every lease before anything is changed; [i] is the
    position of the head of [picked], and [rnd i] the bytes of its receipt. *)
Fixpoint log_leases (picked : list loc) (i : nat) (now : Time) (visibility : Duration)
    (rnd : nat → list byte) (q : Queue) (w : W) :
    option (W * result (list (string * Time))) :=
  match picked with
  | [] => Some (w, Ok [])
  | x :: picked =>
      let receipt := newID (rnd i) in
      let expiry := Add now visibility in
      m ← mem q !! x;
      match Append (Rec.of_msg OpLease (name q) (lease_msg receipt expiry m)) w with
      | (w, Some err) => Some (w, Err err)
      | (w, None) =>
          '(w, r) ← log_leases picked (S i) now visibility rnd q w;
          Some (w, match r with
                   | Ok ls => Ok ((receipt, expiry) :: ls)
                   | Err e => Err e
                   end)
      end
  end.

Fixpoint push_back (picked : list loc) (q : Queue) : option Queue :=
  match picked with
  | [] => Some q
  | x :: picked => q ← q_push HReady x q; push_back picked q
  end.

Fixpoint commit (picked : list loc) (ls : list (string * Time)) (out : list Msg) (q : Queue) :
    option (list Msg * Queue) :=
  match picked, ls with
  | x :: picked, (receipt, expiry) :: ls =>
      q ← q_update x (lease_msg receipt expiry) q;
      q ← q_push HInflight x q;
      m ← mem q !! x;
      let q := set_leases (<[Msg.Receipt m := x]> (leases q)) q in
      let q := incr_delivered q in
      commit picked ls (out ++ [m]) q
  | [], _ => Some (out, q)
  | _, [] => None
  end.

(** The messages, the wake channel observed, the error. *)
Definition tryReceive (max : Z) (visibility : Duration) (now : Time)
    (rnd : nat → list byte) (q : Queue) (w : W) :
    option (Queue * W * (list Msg * nat * option error)) :=
  let wake0 := wake q in
  '(q, w) ← advanceLocked now q w;
  '(picked, q) ← pick (S (length (items (ready q)))) max [] q;
  if bool_decide (picked = []) then Some (q, w, ([], wake0, None))
  else
    '(w, r) ← log_leases picked 0 now visibility rnd q w;
    match r with
    | Err err => q ← push_back picked q; Some (q, w, ([], wake0, Some err))
    | Ok ls => '(out, q) ← commit picked ls [] q; Some (q, w, (out, wake0, None))
    end.

(** ** Ack, Extend, Nack *)

Definition Ack (receipt : string) (q : Queue) (w : W) : option (Queue * W * option error) :=
  match leases q !! receipt with
  | None => Some (q, w, Some ErrNoLease)
  | Some x =>
      m ← mem q !! x;
      match AppendSync (Rec.of_id OpAck (name q) (Msg.ID m)) w with
      | (w, Some err) => Some (q, w, Some err)
      | (w, None) =>
          q ← q_remove HInflight (Msg.index m) q;
          let q := set_leases (delete receipt (leases q)) q in
          Some (incr_acked q, w, None)
      end
  end.

Definition Extend (receipt : string) (visibility : Duration) (now : Time) (q : Queue) :
    option (Queue * result Time) :=
  match leases q !! receipt with
  | None => Some (q, Err ErrNoLease)
  | Some x =>
      let visibility :=
        if visibility <=? 0 then Config.Visibility (cfg q) else visibility in
      q ← q_update x (Msg.set_LeaseExpiry (Add now visibility)) q;
      m ← mem q !! x;
      q ← q_fix HInflight (Msg.index m) q;
      m ← mem q !! x;
      Some (q, Ok (Msg.LeaseExpiry m))
  end.

Definition Nack (receipt : string) (delay : Duration) (now : Time) (q : Queue) (w : W) :
    option (Queue * W * option error) :=
  match leases q !! receipt with
  | None => Some (q, w, Some ErrNoLease)
  | Some x =>
      m ← mem q !! x;
      q ← q_remove HInflight (Msg.index m) q;
      let q := set_leases (delete receipt (leases q)) q in
      q ← q_update x (Msg.set_Receipt "") q;
      q ← q_update x (Msg.set_LeaseExpiry zeroTime) q;
      let q := incr_nacked q in
      '(q, w, err) ← retryLocked x now delay q w;
      match err with
      | Some e => Some (q, w, Some e)
      | None => Some (signalLocked q, w, None)
      end
  end.

(** ** ReplayDLQ *)

Fixpoint replay_loop (l : list loc) (now : Time) (done : Z) (q : Queue) (w : W) :
    option (Queue * W * (Z * option error)) :=
  let finish q := if 0 <? done then signalLocked q else q in
  match l with
  | [] => Some (finish (set_dlq [] q), w, (done, None))
  | x :: rest =>
      m ← mem q !! x;
      match AppendSync (Rec.of_id OpReplay (name q) (Msg.ID m)) w with
      | (w, Some err) => Some (finish (set_dlq l q), w, (done, Some err))
      | (w, None) =>
          q ← q_update x (Msg.set_Attempts 0) q;
          q ← q_update x (Msg.set_VisibleAt now) q;
          q ← placeLocked x now q;
          replay_loop rest now (done + 1) q w
      end
  end.

Definition ReplayDLQ (now : Time) (q : Queue) (w : W) :
    option (Queue * W * (Z * option error)) :=
  replay_loop (dlq q) now 0 q w.
End Methods.

(** ** Stats *)

Module Stats.
Record t := Mk {
  Name : string; Mode : string; Priority : bool;
  Ready : Z; Delayed : Z; Inflight : Z; DLQ : Z;
  Enqueued : Z; Delivered : Z; Acked : Z; Nacked : Z; Expired : Z;
  OldestReadyAgeMS : Z;
  Degraded : option error;
}.
End Stats.

Definition oldest_step (mem : store) (oldest : option Time) (x : loc) : option Time :=
  oldest ← oldest; m ← mem !! x;
  Some (if IsZero oldest || Before (Msg.EnqueuedAt m) oldest then Msg.EnqueuedAt m else oldest).

Definition Stats_ (now : Time) (q : Queue) : option Stats.t :=
  oldest ← foldl (oldest_step (mem q)) (Some zeroTime) (items (ready q));
  Some (Stats.Mk (name q) (Config.Mode (cfg q)) (Config.Priority (cfg q))
    (mh_Len (mem q, ready q)) (mh_Len (mem q, delayed q)) (mh_Len (mem q, inflight q))
    (Z.of_nat (length (dlq q)))
    (enqueued q) (delivered q) (acked q) (nacked q) (expired q)
    (if IsZero oldest then 0 else Z.quot (Sub now oldest) Millisecond)
    (walErr q)).
