(* ===== verification/QueueInv.v ===== *)
(** * The queue invariant and how each primitive step preserves it

    [inv q X]: the three heaps and the dead letter list hold pairwise distinct
    messages, each heap satisfies [mh_ok] for its own comparator, sequence
    numbers are distinct and below the counter.  [X] lists the messages a
    method currently holds in a local variable, outside every heap.  [abs q]
    forgets the heaps: it maps each live message to where it is and what it
    says. *)

From S2P Require Import Prelude ContainerHeap Msg Heaps LogStore Queue.

Implicit Types (q : Queue) (x y : loc) (X : list loc) (m n : Msg).

(** ** Places and the abstract view *)

Inductive place := In (p : hid) | Dead.
#[export] Instance place_eq_dec : EqDecision place.
Proof. solve_decision. Defined.

Definition live (q : Queue) : list loc :=
  items (ready q) ++ items (delayed q) ++ items (inflight q) ++ dlq q.

Definition at_place (q : Queue) (P : place) (x : loc) : Prop :=
  match P with In p => x ∈ items (heap_at p q) | Dead => x ∈ dlq q end.

Definition place_of (q : Queue) (x : loc) : option place :=
  if decide (x ∈ items (ready q)) then Some (In HReady)
  else if decide (x ∈ items (delayed q)) then Some (In HDelayed)
  else if decide (x ∈ items (inflight q)) then Some (In HInflight)
  else if decide (x ∈ dlq q) then Some Dead else None.

Definition view (q : Queue) (x : loc) (m : Msg) : option (place * Msg) :=
  P ← place_of q x; Some (P, Msg.erase m).

Definition abs (q : Queue) : gmap loc (place * Msg) := map_imap (view q) (mem q).

(** Everything but the store and the heaps. *)
Definition rest (q : Queue) :=
  (cfg q, seq q, leases q, dlq q, (enqueued q, delivered q, acked q, nacked q, expired q),
   walErr q, wake q).

(** The comparator each heap was built with. *)
Definition cmp_of (c : Config) (p : hid) : Msg → Msg → bool :=
  match p with
  | HReady => orderBy (Config.Mode c)
  | HDelayed => byVisibleAt
  | HInflight => byLeaseExpiry
  end.

#[export] Instance cmp_of_comparator c p : Comparator (cmp_of c p).
Proof. destruct p; apply _. Qed.

Record inv (q : Queue) (X : list loc) : Prop := {
  inv_nodup : NoDup (live q ++ X);
  inv_mem x : x ∈ live q ++ X → is_Some (mem q !! x);
  inv_heap p : mh_ok (mem q) (heap_at p q);
  inv_cmp p : less (heap_at p q) = cmp_of (cfg q) p;
  inv_seq x m : x ∈ live q ++ X → mem q !! x = Some m → Msg.Seq m ≤ seq q;
  inv_seq_inj x y m n :
    x ∈ live q ++ X → y ∈ live q ++ X → mem q !! x = Some m → mem q !! y = Some n →
    Msg.Seq m = Msg.Seq n → x = y;
}.

(** [x] is in flight under receipt [r]. *)
Definition leased (A : gmap loc (place * Msg)) (r : string) (x : loc) : Prop :=
  ∃ m, A !! x = Some (In HInflight, m) ∧ Msg.Receipt m = r.

(** The lease table is exactly the receipts of the in-flight messages. *)
Definition leases_ok (q : Queue) : Prop :=
  ∀ r x, leases q !! r = Some x ↔ leased (abs q) r x.

(** ** Locating a message *)

Lemma elem_of_live q x : x ∈ live q ↔ ∃ P, at_place q P x.
Proof.
  unfold live. rewrite !elem_of_app. split.
  - intros [?|[?|[?|?]]]; [by exists (In HReady)|by exists (In HDelayed)|by exists (In HInflight)|by exists Dead].
  - intros [[[]|] ?]; simpl in *; tauto.
Qed.

Lemma NoDup_app_disj {A} (l k : list A) (x : A) : NoDup (l ++ k) → x ∈ l → x ∈ k → False.
Proof. intros (_ & H & _)%NoDup_app ? ?. by eapply H. Qed.

Lemma at_place_inj q X P P' x : inv q X → at_place q P x → at_place q P' x → P = P'.
Proof.
  intros Hinv. pose proof (inv_nodup _ _ Hinv) as Hnd. unfold live in Hnd.
  rewrite <- !(assoc_L (++)) in Hnd.
  pose proof (λ H1 H2, NoDup_app_disj _ _ x Hnd H1 H2) as H1.
  apply NoDup_app in Hnd as (_ & _ & Hnd).
  pose proof (λ H1 H2, NoDup_app_disj _ _ x Hnd H1 H2) as H2.
  apply NoDup_app in Hnd as (_ & _ & Hnd).
  pose proof (λ H1 H2, NoDup_app_disj _ _ x Hnd H1 H2) as H3.
  rewrite !elem_of_app in *.
  destruct P as [[]|], P' as [[]|]; simpl; intros; try done; exfalso; tauto.
Qed.

Lemma place_of_spec q X P x : inv q X → place_of q x = Some P ↔ at_place q P x.
Proof.
  intros Hinv. split.
  - unfold place_of. repeat case_decide; intros [= <-]; done.
  - intros HP. assert (∀ P', at_place q P' x → Some P' = Some P) as HQ.
    { intros P' HP'. f_equal. by eapply at_place_inj. }
    unfold place_of. repeat case_decide;
      [by apply (HQ (In HReady))|by apply (HQ (In HDelayed))|by apply (HQ (In HInflight))|by apply (HQ Dead)|].
    exfalso. destruct P as [[]|]; simpl in *; tauto.
Qed.

Lemma abs_lookup q X x P m :
  inv q X → abs q !! x = Some (P, m) ↔ at_place q P x ∧ Msg.erase <$> mem q !! x = Some m.
Proof.
  intros Hinv. unfold abs. rewrite map_lookup_imap. unfold view.
  rewrite <- (place_of_spec q X) by done. split.
  - intros (m' & Hm & (P' & HP & [= <- <-])%bind_Some)%bind_Some. by rewrite Hm.
  - intros [HP (m' & Hm & ->)%fmap_Some]. rewrite Hm. simpl. by rewrite HP.
Qed.

(** Two queues agree abstractly when places and contents do. *)
Lemma abs_eq q' X (A : gmap loc (place * Msg)) :
  inv q' X →
  (∀ x P m, A !! x = Some (P, m) ↔ at_place q' P x ∧ Msg.erase <$> mem q' !! x = Some m) →
  abs q' = A.
Proof.
  intros Hinv HA. apply map_eq. intros x. apply option_eq. intros [P m].
  by rewrite (abs_lookup q' X), HA.
Qed.

(** ** Preservation *)

#[export] Instance inv_proper q : Proper ((≡ₚ) ==> iff) (inv q).
Proof.
  enough (∀ X X', X ≡ₚ X' → inv q X → inv q X') as He.
  { intros X X' E. split; by apply He. }
  intros X X' E []. split; try done; setoid_rewrite <- E; done.
Qed.

(** The general preservation lemma: same messages, same sequence numbers, each
    heap still fine. *)
Lemma inv_change q q' X X' :
  inv q X → live q' ++ X' ≡ₚ live q ++ X → cfg q' = cfg q → seq q ≤ seq q' →
  (∀ x m, x ∈ live q ++ X → mem q !! x = Some m →
     ∃ m', mem q' !! x = Some m' ∧ Msg.Seq m' = Msg.Seq m) →
  (∀ p, mh_ok (mem q') (heap_at p q')) →
  (∀ p, less (heap_at p q') = less (heap_at p q)) →
  inv q' X'.
Proof.
  intros Hinv E Ec Es Hm Hok Hl.
  assert (∀ x m', x ∈ live q' ++ X' → mem q' !! x = Some m' →
    x ∈ live q ++ X ∧ ∃ m, mem q !! x = Some m ∧ Msg.Seq m' = Msg.Seq m) as Hback.
  { intros x m' Hx Hm'. rewrite E in Hx. split; [done|].
    destruct (inv_mem _ _ Hinv x Hx) as [m Hmx].
    destruct (Hm _ _ Hx Hmx) as (m'' & ? & ?). simplify_eq. eauto. }
  split.
  - rewrite E. by apply inv_nodup.
  - intros x Hx. rewrite E in Hx. destruct (inv_mem _ _ Hinv x Hx) as [m Hmx].
    destruct (Hm _ _ Hx Hmx) as (m'' & ? & ?). eauto.
  - done.
  - intros p. rewrite Hl, Ec. by apply (inv_cmp q X).
  - intros x m' Hx Hm'. destruct (Hback _ _ Hx Hm') as (Hx0 & m & Hmx & ->).
    pose proof (inv_seq _ _ Hinv _ _ Hx0 Hmx). lia.
  - intros x y m' n' Hx Hy Hm' Hn' Eseq.
    destruct (Hback _ _ Hx Hm') as (Hx0 & m & Hmx & E1).
    destruct (Hback _ _ Hy Hn') as (Hy0 & n & Hny & E2).
    eapply (inv_seq_inj _ _ Hinv); eauto. congruence.
Qed.

Definition others (p : hid) (q : Queue) : list loc :=
  match p with
  | HReady => items (delayed q) ++ items (inflight q) ++ dlq q
  | HDelayed => items (ready q) ++ items (inflight q) ++ dlq q
  | HInflight => items (ready q) ++ items (delayed q) ++ dlq q
  end.

Lemma live_others p q : live q ≡ₚ items (heap_at p q) ++ others p q.
Proof. destruct p; unfold live, others; simpl; solve_Permutation. Qed.

Lemma others_set_heap p mem' h' q : others p (set_heap p mem' h' q) = others p q.
Proof. by destruct p. Qed.

Lemma heap_at_set_heap p p' mem' h' q :
  heap_at p' (set_heap p mem' h' q) = if decide (p' = p) then h' else heap_at p' q.
Proof. by destruct p, p'. Qed.

Lemma rest_set_heap p mem' h' q : rest (set_heap p mem' h' q) = rest q.
Proof. done. Qed.

Lemma elem_others p p' x q : p' ≠ p → x ∈ items (heap_at p' q) → x ∈ others p q.
Proof. destruct p, p'; simpl; intros ? ?; rewrite ?elem_of_app; tauto. Qed.

(** A container/heap call on heap [p] that moves messages between the heap and
    the local variables. *)
Lemma inv_set_heap p q mem' h' X X' D :
  inv q X → mh_ok mem' h' → less h' = less (heap_at p q) →
  frame (mem q) mem' D → D ⊆ items (heap_at p q) ++ X →
  items h' ++ X' ≡ₚ items (heap_at p q) ++ X →
  inv (set_heap p mem' h' q) X'.
Proof.
  intros Hinv Hok Hl Hfr HD Hp.
  eapply (inv_change q); [done|..].
  - rewrite (live_others p (set_heap _ _ _ _)), (live_others p q), others_set_heap.
    rewrite heap_at_set_heap, decide_True by done.
    rewrite <- !(assoc_L (++)), !(Permutation_app_comm (others p q)), !(assoc_L (++)).
    by rewrite Hp.
  - done.
  - done.
  - intros x m _ Hm. destruct (frame_lookup _ _ _ _ _ Hfr Hm) as (m' & ? & E).
    exists m'. split; [done|]. by apply (f_equal Msg.Seq) in E.
  - intros p'. rewrite heap_at_set_heap. case_decide; [done|].
    apply (mh_ok_agree (mem q)); [by apply (inv_heap q X)|]. simpl.
    intros y Hy. apply Hfr. intros HyD. apply HD in HyD.
    pose proof (inv_nodup _ _ Hinv) as Hnd. rewrite (live_others p) in Hnd.
    rewrite <- (assoc_L (++)), (Permutation_app_comm (others p q)), (assoc_L (++)) in Hnd.
    eapply NoDup_app_disj; [done..|]. by eapply elem_others.
  - intros p'. rewrite heap_at_set_heap. case_decide; subst; done.
Qed.

(** ** The container/heap calls *)

(** The call changed heap [p] to hold [l], and nothing else but indices. *)
Record heap_effect (p : hid) (q q' : Queue) (l : list loc) : Prop := {
  he_rest : rest q' = rest q;
  he_msgs y : Msg.erase <$> mem q' !! y = Msg.erase <$> mem q !! y;
  he_other p' : p' ≠ p → heap_at p' q' = heap_at p' q;
  he_items : items (heap_at p q') ≡ₚ l;
}.

Lemma set_heap_effect p q mem' h' D l :
  frame (mem q) mem' D → items h' ≡ₚ l → heap_effect p q (set_heap p mem' h' q) l.
Proof.
  intros [Hm _] Hl. split; try done.
  - intros. by rewrite heap_at_set_heap, decide_False.
  - by rewrite heap_at_set_heap, decide_True.
Qed.

Lemma rest_dlq q q' : rest q' = rest q → dlq q' = dlq q.
Proof. unfold rest. congruence. Qed.
Lemma rest_cfg q q' : rest q' = rest q → cfg q' = cfg q.
Proof. unfold rest. congruence. Qed.
Lemma rest_seq q q' : rest q' = rest q → seq q' = seq q.
Proof. unfold rest. congruence. Qed.
Lemma rest_leases q q' : rest q' = rest q → leases q' = leases q.
Proof. unfold rest. congruence. Qed.
Lemma rest_wake q q' : rest q' = rest q → wake q' = wake q.
Proof. unfold rest. congruence. Qed.

#[export] Hint Unfold rest : frame.
#[export] Hint Resolve rest_dlq rest_cfg rest_seq rest_leases rest_wake he_rest : frame.

Lemma he_at_place p q q' l P y :
  heap_effect p q q' l →
  at_place q' P y ↔ if decide (P = In p) then y ∈ l else at_place q P y.
Proof.
  intros [Hr _ Ho Hi]. case_decide as E; [subst P; simpl; by rewrite Hi|].
  destruct P as [p'|]; simpl; [rewrite Ho; [done|congruence]|by rewrite (rest_dlq _ _ Hr)].
Qed.

Lemma heap_effect_lookup p q q' l x m :
  heap_effect p q q' l → mem q !! x = Some m →
  ∃ m', mem q' !! x = Some m' ∧ Msg.erase m' = Msg.erase m.
Proof.
  intros He Hx. pose proof (he_msgs _ _ _ _ He x) as E. rewrite Hx in E. simpl in E.
  apply fmap_Some in E as (m' & ? & ?). eauto.
Qed.

Lemma inv_loose q x X : inv q (x :: X) → ¬ ∃ P, at_place q P x.
Proof.
  intros Hinv Hl%elem_of_live. eapply (NoDup_app_disj (live q)); [|done|].
  - apply (inv_nodup _ _ Hinv).
  - set_solver.
Qed.

Lemma loose_lookup q x X : inv q (x :: X) → ∃ m, mem q !! x = Some m.
Proof. intros Hinv. apply (inv_mem _ _ Hinv). set_solver. Qed.

Lemma abs_loose q x X : inv q (x :: X) → abs q !! x = None.
Proof.
  intros Hinv. destruct (abs q !! x) as [[P m]|] eqn:E; [|done].
  apply (abs_lookup q (x :: X)) in E as [? _]; [|done].
  exfalso. eapply inv_loose; eauto.
Qed.

Lemma q_push_ok p q x X :
  inv q (x :: X) →
  ∃ q', q_push p x q = Some q' ∧ inv q' X ∧ heap_effect p q q' (x :: items (heap_at p q)).
Proof.
  intros Hinv.
  destruct (mh_Push_ok (mem q) (heap_at p q) x) as (mem' & h' & E & Hok & Hl & Hi & Hfr).
  - by apply (inv_heap q _ Hinv).
  - intros Hx. eapply inv_loose; [done|]. by exists (In p).
  - by eapply loose_lookup.
  - unfold q_push. rewrite E. simpl_bind. eexists. split_and!; [done|..].
    + eapply inv_set_heap; [done..|set_solver|]. rewrite Hi. solve_Permutation.
    + by eapply set_heap_effect.
Qed.

Lemma push_abs p q q' x X m :
  inv q (x :: X) → inv q' X → heap_effect p q q' (x :: items (heap_at p q)) →
  Msg.erase <$> mem q !! x = Some m →
  abs q' = <[x := (In p, m)]> (abs q).
Proof.
  intros Hi Hi' He Hm. apply (abs_eq q' X); [done|]. intros y P n.
  rewrite (he_at_place _ _ _ _ _ _ He), (he_msgs _ _ _ _ He), lookup_insert_Some.
  rewrite (abs_lookup q (x :: X)) by done. pose proof (inv_loose _ _ _ Hi) as Hx.
  case_decide as HP; [subst P; simpl; rewrite elem_of_cons|]; split.
  - intros [[<- [= <-]]|[? [? ?]]]; auto.
  - intros [[->|?] ?]; [left; split; [done|congruence]|right].
    split; [|done]. intros ->. apply Hx. by exists (In p).
  - intros [[<- [= <- <-]]|[? [? ?]]]; done.
  - intros [? ?]. right. split; [|done]. intros ->. apply Hx. eauto.
Qed.

Lemma q_pop_ok p q x X :
  inv q X → peek (heap_at p q) = Some x →
  ∃ q', q_pop p q = Some (x, q') ∧ inv q' (x :: X) ∧
    x :: items (heap_at p q') ≡ₚ items (heap_at p q) ∧
    heap_effect p q q' (items (heap_at p q')).
Proof.
  intros Hinv Hpk.
  destruct (mh_Pop_ok (mem q) (heap_at p q) x) as (mem' & h' & E & Hok & Hl & Hi & Hfr).
  - by apply (inv_heap q _ Hinv).
  - done.
  - unfold q_pop. rewrite E. simpl_bind. eexists. split_and!; [done|..].
    + eapply inv_set_heap; [done..|set_solver|]. rewrite <- Hi. solve_Permutation.
    + by rewrite heap_at_set_heap, decide_True.
    + eapply set_heap_effect; [done|]. by rewrite heap_at_set_heap, decide_True.
Qed.

Lemma q_remove_ok p q x X m :
  inv q X → x ∈ items (heap_at p q) → mem q !! x = Some m →
  ∃ q', q_remove p (Msg.index m) q = Some q' ∧ inv q' (x :: X) ∧
    x :: items (heap_at p q') ≡ₚ items (heap_at p q) ∧
    heap_effect p q q' (items (heap_at p q')).
Proof.
  intros Hinv Hx Hm.
  destruct (mh_Remove_ok (mem q) (heap_at p q) x m) as (mem' & h' & E & Hok & Hl & Hi & Hfr);
    [by apply (inv_heap q _ Hinv)|done..|].
  unfold q_remove. rewrite E. simpl_bind. eexists. split_and!; [done|..].
  - eapply inv_set_heap; [done..|set_solver|]. rewrite <- Hi. solve_Permutation.
  - by rewrite heap_at_set_heap, decide_True.
  - eapply set_heap_effect; [done|]. by rewrite heap_at_set_heap, decide_True.
Qed.

Lemma take_abs p q q' x X :
  inv q X → inv q' (x :: X) → x :: items (heap_at p q') ≡ₚ items (heap_at p q) →
  heap_effect p q q' (items (heap_at p q')) →
  abs q' = delete x (abs q).
Proof.
  intros Hi Hi' Hp He. apply (abs_eq q' (x :: X)); [done|]. intros y P n.
  rewrite lookup_delete_Some, (abs_lookup q X) by done.
  rewrite (he_at_place _ _ _ _ _ _ He), (he_msgs _ _ _ _ He).
  pose proof (inv_loose _ _ _ Hi') as Hx.
  assert (x ∈ items (heap_at p q)) as Hxp by (rewrite <- Hp; set_solver).
  case_decide as HP; [subst P; simpl|].
  - rewrite <- Hp, elem_of_cons. split; [naive_solver|]. intros [Hy ?]. split; [|auto].
    intros ->. apply Hx. by exists (In p).
  - split; [naive_solver|]. intros [Hy ?]. split; [|auto]. intros ->.
    apply HP. by eapply (at_place_inj q X _ (In p)).
Qed.

(** ** Assignments through a pointer, and the other fields *)

(** The fields the invariant and the abstract view depend on. *)
Definition core (q : Queue) := (cfg q, mem q, seq q, ready q, delayed q, inflight q, dlq q).

Lemma core_heap q q' p : core q' = core q → heap_at p q' = heap_at p q.
Proof. unfold core. intros. destruct p; simpl; congruence. Qed.
Lemma core_mem q q' : core q' = core q → mem q' = mem q.
Proof. unfold core. congruence. Qed.
Lemma core_dlq q q' : core q' = core q → dlq q' = dlq q.
Proof. unfold core. congruence. Qed.
Lemma core_cfg q q' : core q' = core q → cfg q' = cfg q.
Proof. unfold core. congruence. Qed.
Lemma core_seq q q' : core q' = core q → seq q' = seq q.
Proof. unfold core. congruence. Qed.

#[export] Hint Unfold core : frame.
#[export] Hint Resolve core_heap core_mem core_dlq core_cfg core_seq : frame.

Lemma core_live q q' : core q' = core q → live q' = live q.
Proof.
  intros E. pose proof (λ p, core_heap q q' p E) as Eh. unfold live.
  pose proof (Eh HReady) as E1. pose proof (Eh HDelayed) as E2. pose proof (Eh HInflight) as E3.
  simpl in *. by rewrite E1, E2, E3, (core_dlq q q' E).
Qed.

Lemma core_inv q q' X : core q' = core q → inv q X → inv q' X.
Proof.
  intros E Hinv. apply (inv_change q _ X); try done.
  - by rewrite (core_live _ _ E).
  - by apply core_cfg.
  - by rewrite (core_seq _ _ E).
  - rewrite (core_mem _ _ E). eauto.
  - intros p. rewrite (core_mem _ _ E), (core_heap _ _ _ E). by apply (inv_heap q X).
  - intros p. by rewrite (core_heap _ _ _ E).
Qed.

Lemma core_abs q q' : core q' = core q → abs q' = abs q.
Proof.
  intros E. apply map_eq. intros x. unfold abs. rewrite !map_lookup_imap, (core_mem _ _ E).
  destruct (mem q !! x); [|done]. simpl. unfold view, place_of.
  pose proof (λ p, core_heap q q' p E) as Eh.
  pose proof (Eh HReady) as E1. pose proof (Eh HDelayed) as E2. pose proof (Eh HInflight) as E3.
  simpl in *. by rewrite E1, E2, E3, (core_dlq q q' E).
Qed.

(** Dropping a local variable: the message becomes garbage. *)
Lemma inv_forget q x X : inv q (x :: X) → inv q X.
Proof.
  intros []. assert (∀ y, y ∈ live q ++ X → y ∈ live q ++ x :: X) by set_solver. split; eauto.
  rewrite NoDup_app in *. rewrite NoDup_cons in *. set_solver.
Qed.

Lemma heap_at_set_mem p v q : heap_at p (set_mem v q) = heap_at p q.
Proof. by destruct p. Qed.
Lemma heap_at_set_dlq p v q : heap_at p (set_dlq v q) = heap_at p q.
Proof. by destruct p. Qed.

Lemma inv_set_mem q x X m m' :
  inv q (x :: X) → mem q !! x = Some m → Msg.Seq m' = Msg.Seq m →
  inv (set_mem (<[x := m']> (mem q)) q) (x :: X).
Proof.
  intros Hinv Hm Es. apply (inv_change q _ (x :: X)); try done.
  - intros y n _ Hn. simpl. destruct (decide (x = y)) as [<-|].
    + rewrite lookup_insert_eq. simplify_eq. eauto.
    + rewrite lookup_insert_ne by done. eauto.
  - intros p. rewrite heap_at_set_mem.
    apply (mh_ok_agree (mem q)); [by apply (inv_heap _ _ Hinv)|].
    intros y Hy. simpl. apply lookup_insert_ne. intros ->.
    eapply inv_loose; [done|]. by exists (In p).
Qed.

Lemma abs_set_mem q x X m m' :
  inv q (x :: X) → mem q !! x = Some m → Msg.Seq m' = Msg.Seq m →
  abs (set_mem (<[x := m']> (mem q)) q) = abs q.
Proof.
  intros Hinv Hm Es. symmetry. apply (abs_eq q (x :: X)); [done|]. intros y P n.
  rewrite (abs_lookup _ (x :: X)) by (by eapply inv_set_mem).
  pose proof (inv_loose _ _ _ Hinv) as Hx.
  assert (at_place (set_mem (<[x := m']> (mem q)) q) P y ↔ at_place q P y) as -> by (by destruct P as [[]|]).
  simpl. split; intros [HP Hn]; (split; [done|]); (rewrite lookup_insert_ne in * || rewrite lookup_insert_ne);
    try done; intros ->; apply Hx; eauto.
Qed.

Lemma q_update_eq q x m f :
  mem q !! x = Some m → q_update x f q = Some (set_mem (<[x := f m]> (mem q)) q).
Proof. intros E. unfold q_update. by rewrite E. Qed.

Lemma inv_dlq q x X :
  inv q (x :: X) → inv (set_dlq (dlq q ++ [x]) q) X.
Proof.
  intros Hinv. apply (inv_change q _ (x :: X)); try done.
  - unfold live. simpl. solve_Permutation.
  - eauto.
  - intros p. rewrite heap_at_set_dlq. by apply (inv_heap _ _ Hinv).
Qed.

Lemma abs_dlq q x X m :
  inv q (x :: X) → mem q !! x = Some m →
  abs (set_dlq (dlq q ++ [x]) q) = <[x := (Dead, Msg.erase m)]> (abs q).
Proof.
  intros Hinv Hm. apply (abs_eq _ X); [by apply inv_dlq|]. intros y P n.
  rewrite lookup_insert_Some, (abs_lookup q (x :: X)) by done.
  pose proof (inv_loose _ _ _ Hinv) as Hx.
  assert (at_place (set_dlq (dlq q ++ [x]) q) P y ↔
    at_place q P y ∨ (P = Dead ∧ y = x)) as ->.
  { destruct P as [[]|]; simpl; rewrite ?elem_of_app, ?list_elem_of_singleton; naive_solver. }
  simpl. split.
  - intros [[<- [= <- <-]]|(? & ? & ?)]; [rewrite Hm; auto|auto].
  - intros [[HP|[-> ->]] Hn]; [right; split; [|done]; intros ->; apply Hx; eauto|left].
    rewrite Hm in Hn. simpl in Hn. split; [done|congruence].
Qed.
