(* ===== verification/QueueSpec.v ===== *)
(** * The abstract queue: what the methods promise

    A queue is a map from messages to a place and a content, next to its log:
    no heaps, no pointers, no cached indices, no lease table.  [QueueOps.v]
    shows that every method of [Queue.v] refines this machine. *)

From S2P Require Import Prelude ContainerHeap Msg Heaps LogStore Queue QueueInv.

Abbreviation amsgs := (gmap nat (place * Msg)).

(** ** Contents after a transition *)

(** Where [placeLocked] files a message. *)
Definition gate (m : Msg) (now : Time) : hid := if Msg.Ready m now then HReady else HDelayed.

(** A message whose lease is over. *)
Definition unlease (m : Msg) : Msg := Msg.set_LeaseExpiry zeroTime (Msg.set_Receipt "" m).

(** The dead letter cutoff. *)
Definition exhausted (c : Config) (m : Msg) : bool :=
  (0 <? Config.MaxAttempts c) && (Config.MaxAttempts c <=? Msg.Attempts m).

(** The record [retryLocked] writes for a failed message, and where the message
    is afterwards, given the outcome of that write.  [None]: nowhere. *)
Definition retry_rec (c : Config) (m : Msg) (now : Time) (delay : Duration) : Rec :=
  if exhausted c m then Rec.of_id OpDLQ (Config.Name c) (Msg.ID m)
  else let m := Msg.set_VisibleAt (Add now delay) m in
       Rec.of_id_msg OpNack (Config.Name c) (Msg.ID m) m.

Definition retry_place (c : Config) (m : Msg) (now : Time) (delay : Duration)
    (e : option error) : option (place * Msg) :=
  if exhausted c m then
    match e with
    | None => Some (Dead, Msg.erase m)
    | Some _ => Some (In HReady, Msg.erase (Msg.set_VisibleAt now m))
    end
  else
    let m := Msg.set_VisibleAt (Add now delay) m in
    match e with
    | None => Some (In (gate m now), Msg.erase m)
    | Some _ => None
    end.

(** [Tick] at [now], message by message; [es x] is the outcome of the write for
    an expired message [x]. *)
Definition open_msg (now : Time) (v : place * Msg) : place * Msg :=
  match v with
  | (In HDelayed, m) => (In (gate m now), m)
  | v => v
  end.

Definition expire_msg (c : Config) (now : Time) (es : loc → option error)
    (x : loc) (v : place * Msg) : option (place * Msg) :=
  match v with
  | (In HInflight, m) =>
      if After (Msg.LeaseExpiry m) now then Some v
      else retry_place c (unlease m) now 0 (es x)
  | v => Some v
  end.

(** The ready messages, and the order in which they are handed out: priority
    first, then age by the queue's mode. *)
Definition ready_of (A : amsgs) : list (loc * Msg) :=
  (λ v : loc * (place * Msg), (v.1, v.2.2)) <$>
    filter (λ v : loc * (place * Msg), v.2.1 = In HReady) (map_to_list A).

Definition may_precede (c : Config) (u v : loc * Msg) : Prop :=
  orderBy (Config.Mode c) v.2 u.2 = false.
#[export] Instance may_precede_dec c : RelDecision (may_precede c).
Proof. unfold may_precede. intros u v. apply _. Defined.

Definition upcoming (c : Config) (A : amsgs) : list (loc * Msg) :=
  merge_sort (may_precede c) (ready_of A).

(** A batch as it is handed out: position [i] gets the receipt made of [rnd i]. *)
Definition handed (rnd : nat → list Byte.byte) (expiry : Time) (us : list (loc * Msg)) :
    list (loc * Msg) :=
  imap (λ i u, (u.1, lease_msg (newID (rnd i)) expiry u.2)) us.

(** The batch a receive of at most [max] messages leases. *)
Definition next_batch (c : Config) (A : amsgs) (max : Z) (rnd : nat → list Byte.byte)
    (expiry : Time) : list (loc * Msg) :=
  handed rnd expiry (take (Z.to_nat max) (upcoming c A)).

(** ** The machine *)

Record ast (W : Type) := Ast { a_seq : Z; a_msgs : amsgs; a_log : W }.
Arguments Ast {W}. Arguments a_seq {W}. Arguments a_msgs {W}. Arguments a_log {W}.

(** What a freshly enqueued message looks like. *)
Definition fresh_msg (m : Msg) (s : Z) (now : Time) : Prop :=
  Msg.Seq m = s ∧ Msg.EnqueuedAt m = now ∧ Msg.Attempts m = 0 ∧
  Msg.Receipt m = "" ∧ Msg.LeaseExpiry m = zeroTime.

(** What the machine is given by its callers and by the file system: the clock
    readings, the gate and lease times computed from them, the outcomes of the
    log writes, the new messages next to the ones already there, and the messages
    that are acknowledged.  A theorem
    about all runs takes [anything]; one about runs without write errors, or
    below a bound on the clock, restricts the world. *)
Record world := World {
  clock : Time → Prop;
  instant : Time → Prop;
  outcome : option error → Prop;
  admits : amsgs → Msg → Prop;
  releases : Msg → Prop;
}.
Definition anything : world := World (λ _, True) (λ _, True) (λ _, True) (λ _ _, True) (λ _, True).

Section Machine.
Context {W : Type} `{Log W} (c : Config) (wd : world).

(** Logging the leases of a batch; the error stops the batch. *)
Inductive log_batch : list Rec → W → W → option error → Prop :=
  | lb_nil w : log_batch [] w w None
  | lb_cons r rs w w1 w2 e :
      Append r w = (w1, None) → log_batch rs w1 w2 e → log_batch (r :: rs) w w2 e
  | lb_err r rs w w1 e : Append r w = (w1, Some e) → log_batch (r :: rs) w w1 (Some e).

(** The contents of a batch once leased. *)
Definition lease_all (batch : list (loc * Msg)) (A : amsgs) : amsgs :=
  foldl (λ A v, <[v.1 := (In HInflight, Msg.erase v.2)]> A) A batch.

Inductive astep : ast W → ast W → Prop :=
  | as_enqueue s A w x m now w' e :
      clock wd now → admits wd A m → outcome wd e → 0 ≤ s < two64 - 1 →
      A !! x = None → fresh_msg m (u64 (s + 1)) now →
      AppendSync (Rec.of_msg OpEnqueue (Config.Name c) m) w = (w', e) →
      astep (Ast s A w)
        (Ast (u64 (s + 1))
           (match e with None => <[x := (In (gate m now), Msg.erase m)]> A | Some _ => A end) w')
  | as_open s A w x m now :
      clock wd now → A !! x = Some (In HDelayed, m) → Msg.Ready m now = true →
      astep (Ast s A w) (Ast s (<[x := (In HReady, m)]> A) w)
  | as_retry s A w x m m' now delay w' e :
      clock wd now → instant wd (Add now delay) → outcome wd e →
      A !! x = Some (In HInflight, m) → Msg.erase m' = m →
      AppendSync (retry_rec c (unlease m') now delay) w = (w', e) →
      astep (Ast s A w)
        (Ast s (partial_alter (λ _, retry_place c (unlease m') now delay e) x A) w')
  | as_lease s A w (batch : list (loc * Msg)) expiry (rs : list string) w' e :
      instant wd expiry → outcome wd e → Forall (λ r, ∃ b, r = newID b) rs →
      NoDup batch.*1 →
      Forall2 (λ v r, ∃ m, A !! v.1 = Some (In HReady, Msg.erase m) ∧
                 v.2 = lease_msg r expiry m) batch rs →
      log_batch ((λ v, Rec.of_msg OpLease (Config.Name c) v.2) <$> batch) w w' e →
      astep (Ast s A w)
        (Ast s (match e with None => lease_all batch A | Some _ => A end) w')
  | as_ack s A w x m w' e :
      outcome wd e → releases wd m → A !! x = Some (In HInflight, m) →
      AppendSync (Rec.of_id OpAck (Config.Name c) (Msg.ID m)) w = (w', e) →
      astep (Ast s A w) (Ast s (match e with None => delete x A | Some _ => A end) w')
  | as_extend s A w x m t :
      instant wd t → A !! x = Some (In HInflight, m) →
      astep (Ast s A w) (Ast s (<[x := (In HInflight, Msg.set_LeaseExpiry t m)]> A) w)
  | as_replay s A w x m now w' e :
      clock wd now → outcome wd e → A !! x = Some (Dead, m) →
      AppendSync (Rec.of_id OpReplay (Config.Name c) (Msg.ID m)) w = (w', e) →
      astep (Ast s A w)
        (Ast s (match e with
                | None => <[x := (In HReady, Msg.set_VisibleAt now (Msg.set_Attempts 0 m))]> A
                | Some _ => A
                end) w').

Definition asteps := rtc astep.

(** The machine reaches its log through [write] alone. *)
Lemma log_batch_log (P : W → Prop) rs w w' e :
  (∀ r d w w' e, P w → write r d w = (w', e) → P w') → log_batch rs w w' e → P w → P w'.
Proof. intros HP. induction 1; eauto. Qed.

Lemma astep_log (P : W → Prop) a a' :
  (∀ r d w w' e, P w → write r d w = (w', e) → P w') → astep a a' → P (a_log a) → P (a_log a').
Proof. intros HP. induction 1; simpl; eauto. intros Hw. by eapply (log_batch_log P). Qed.

Lemma asteps_log (P : W → Prop) a a' :
  (∀ r d w w' e, P w → write r d w = (w', e) → P w') → asteps a a' → P (a_log a) → P (a_log a').
Proof.
  intros HP. induction 1 as [|a a1 a2 H1 _ IH]; [done|]. intros Hw. by eapply IH, (astep_log P).
Qed.

(** The same for what only a failing write can break. *)
Lemma log_batch_wrote (P : W → Prop) rs w w' e :
  (∀ r d w w', P w → write r d w = (w', None) → P w') → log_batch rs w w' e → e = None → P w → P w'.
Proof. intros HP. induction 1; [done| |done]. intros -> Hw. by eauto. Qed.

Lemma astep_wrote (P : W → Prop) a a' :
  (∀ e, outcome wd e → e = None) → (∀ r d w w', P w → write r d w = (w', None) → P w') →
  astep a a' → P (a_log a) → P (a_log a').
Proof.
  intros Hout HP. destruct 1; simpl; try done; intros Hw; assert (e = None) as -> by (by apply Hout);
    first [by eapply (log_batch_wrote P)|by eauto].
Qed.

Lemma asteps_wrote (P : W → Prop) a a' :
  (∀ e, outcome wd e → e = None) → (∀ r d w w', P w → write r d w = (w', None) → P w') →
  asteps a a' → P (a_log a) → P (a_log a').
Proof.
  intros Hout HP. induction 1 as [|a a1 a2 H1 _ IH]; [done|]. intros Hw. by eapply IH, (astep_wrote P).
Qed.
End Machine.

(** The abstraction of a concrete queue and its log. *)
Definition absq {W} (q : Queue) (w : W) : ast W := Ast (seq q) (abs q) w.

(** ** Basic facts *)

Lemma ready_of_elem (A : amsgs) x m :
  (x, m) ∈ ready_of A ↔ A !! x = Some (In HReady, m).
Proof.
  unfold ready_of. rewrite list_elem_of_fmap. split.
  - intros ([y [P n]] & [= -> ->] & [HP Hy]%list_elem_of_filter). simpl in *. subst P.
    by apply elem_of_map_to_list.
  - intros Hx. exists (x, (In HReady, m)). split; [done|]. apply list_elem_of_filter.
    split; [done|]. by apply elem_of_map_to_list.
Qed.

Lemma ready_of_nodup (A : amsgs) : NoDup (ready_of A).
Proof.
  unfold ready_of. apply NoDup_fmap_2_strong; [|apply NoDup_filter, NoDup_map_to_list].
  intros [x [P m]] [y [P' n]] [HP _]%list_elem_of_filter [HP' _]%list_elem_of_filter [= -> ->].
  simpl in *. by subst.
Qed.

#[export] Instance may_precede_trans c : Transitive (may_precede c).
Proof. intros u v w H1 H2. unfold may_precede in *. by eapply wo_negtrans. Qed.

#[export] Instance may_precede_total c : Total (may_precede c).
Proof.
  intros u v. unfold may_precede. destruct (orderBy _ v.2 u.2) eqn:E; [|by left].
  right. by apply wo_asym.
Qed.

Lemma upcoming_sorted c (A : amsgs) : StronglySorted (may_precede c) (upcoming c A).
Proof. apply (StronglySorted_merge_sort (may_precede c)). Qed.
Lemma upcoming_perm c (A : amsgs) : upcoming c A ≡ₚ ready_of A.
Proof. apply (merge_sort_Permutation (may_precede c)). Qed.

Lemma gate_erase m now : gate (Msg.erase m) now = gate m now.
Proof. done. Qed.

Lemma unlease_erase m : unlease (Msg.erase m) = Msg.erase (unlease m).
Proof. done. Qed.

Lemma retry_place_erase c m m' now delay e :
  Msg.erase m' = Msg.erase m → retry_place c m' now delay e = retry_place c m now delay e.
Proof.
  intros E. assert (∀ n, retry_place c n now delay e = retry_place c (Msg.erase n) now delay e)
    as He by (intros n; by destruct e).
  by rewrite He, E, <- He.
Qed.

Lemma retry_place_not_inflight c m now delay e n :
  retry_place c m now delay e ≠ Some (In HInflight, n).
Proof.
  unfold retry_place, gate. repeat case_match; intros [=].
Qed.

(** A message enqueued by [set_VisibleAt now] is ready at [now]. *)
Lemma gate_now m now : gate (Msg.set_VisibleAt now m) now = HReady.
Proof. unfold gate. by rewrite (proj2 (Msg.Ready_le _ _)). Qed.

Lemma Add_0 t : Add t 0 = t.
Proof. unfold Add. lia. Qed.
