(* ===== verification/QueueOps.v ===== *)
(** * The methods refine the abstract queue

    For each method of [Queue.v]: it does not panic, it preserves [inv] and the
    lease table, it changes [abs] as [QueueSpec.v] says, and the change is a
    run of the abstract machine. *)

From S2P Require Import Prelude ContainerHeap Msg Heaps LogStore Queue QueueInv QueueSpec.

Implicit Types (q : Queue) (x y : loc) (X : list loc) (m n : Msg).

(** Everything but the heaps, the store and the dead letter list. *)
Definition ctrl (q : Queue) :=
  (cfg q, seq q, leases q, (enqueued q, delivered q, acked q, nacked q, expired q),
   walErr q, wake q).

Lemma rest_ctrl q q' : rest q' = rest q → ctrl q' = ctrl q.
Proof. unfold rest, ctrl. congruence. Qed.
Lemma ctrl_cfg q q' : ctrl q' = ctrl q → cfg q' = cfg q.
Proof. unfold ctrl. congruence. Qed.
Lemma ctrl_seq q q' : ctrl q' = ctrl q → seq q' = seq q.
Proof. unfold ctrl. congruence. Qed.
Lemma ctrl_leases q q' : ctrl q' = ctrl q → leases q' = leases q.
Proof. unfold ctrl. congruence. Qed.

(** What no background transition changes. *)
Definition fixed (q : Queue) :=
  (cfg q, seq q, wake q, (enqueued q, delivered q, acked q, nacked q)).

(** The ledger: what was put in, what was acknowledged, the latched error. *)
Definition tally (q : Queue) := (enqueued q, acked q, walErr q).

Lemma rest_tally q q' : rest q' = rest q → tally q' = tally q.
Proof. unfold rest, tally. congruence. Qed.
Lemma ctrl_tally q q' : ctrl q' = ctrl q → tally q' = tally q.
Proof. unfold ctrl, tally. congruence. Qed.

Lemma fixed_cfg q q' : fixed q' = fixed q → cfg q' = cfg q.
Proof. unfold fixed. congruence. Qed.
Lemma fixed_wake q q' : fixed q' = fixed q → wake q' = wake q.
Proof. unfold fixed. congruence. Qed.
Lemma rest_fixed q q' : rest q' = rest q → fixed q' = fixed q.
Proof. unfold rest, fixed. congruence. Qed.

(** The well-formed states of a queue between two method calls. *)
Record wf (q : Queue) : Prop := { wf_inv : inv q []; wf_leases : leases_ok q }.

Lemma leases_ok_ext q q' :
  leases_ok q → leases q' = leases q →
  (∀ r x, leased (abs q') r x ↔ leased (abs q) r x) → leases_ok q'.
Proof. intros Hl E Ha r x. rewrite E, (Hl r x). symmetry. apply Ha. Qed.

(** Changing a message that is not in flight before or after. *)
Lemma leased_partial_alter (A : amsgs) f x r y :
  (∀ m, A !! x ≠ Some (In HInflight, m)) →
  (∀ m, f (A !! x) ≠ Some (In HInflight, m)) →
  leased (partial_alter f x A) r y ↔ leased A r y.
Proof.
  intros H1 H2. unfold leased. destruct (decide (x = y)) as [<-|].
  - rewrite lookup_partial_alter_eq. split; intros (m & Hm & _); exfalso; [by eapply H2|by eapply H1].
  - by rewrite lookup_partial_alter_ne.
Qed.

Lemma leased_delete (A : amsgs) x m r y :
  A !! x = Some (In HInflight, m) →
  (∀ r' y', leased A r' y' → leased A r' x → y' = x) →
  leased (delete x A) r y ↔ leased A r y ∧ r ≠ Msg.Receipt m.
Proof.
  intros Hx Hinj. unfold leased. destruct (decide (x = y)) as [<-|].
  - rewrite lookup_delete_eq. split; [intros (? & [=] & _)|].
    intros [(k & Hk & <-) Hr]. simplify_eq.
  - rewrite lookup_delete_ne by done. split; [|naive_solver].
    intros (k & Hk & <-). split; [eauto|]. intros E.
    assert (y = x); [|done]. apply (Hinj (Msg.Receipt k) y); [by exists k|]. by exists m.
Qed.

(** Ending the lease of [x]: the message leaves the in-flight heap and the
    table entry under its receipt is deleted. *)
Lemma leases_ok_delete q q' x m :
  leases_ok q → abs q !! x = Some (In HInflight, m) →
  leases q' = delete (Msg.Receipt m) (leases q) → abs q' = delete x (abs q) → leases_ok q'.
Proof.
  intros Hl Hx El Ea r y. rewrite El, Ea, lookup_delete_Some.
  rewrite (leased_delete _ _ m) by
    (try done; intros r' y' Hy' Hx'; apply Hl in Hy'; apply Hl in Hx'; congruence).
  rewrite (Hl r y). unfold leased. naive_solver.
Qed.

#[export] Hint Unfold ctrl fixed tally : frame.
#[export] Hint Resolve rest_ctrl ctrl_cfg ctrl_seq ctrl_leases rest_tally ctrl_tally
  fixed_cfg fixed_wake rest_fixed : frame.

(** ** placeLocked *)

Lemma placeLocked_ok now q x m X :
  inv q (x :: X) → mem q !! x = Some m →
  ∃ q', placeLocked x now q = Some q' ∧ inv q' X ∧
    abs q' = <[x := (In (gate m now), Msg.erase m)]> (abs q) ∧
    heap_effect (gate m now) q q' (x :: items (heap_at (gate m now) q)).
Proof.
  intros Hinv Hm. unfold placeLocked. rewrite Hm. simpl_bind.
  assert ((if Msg.Ready m now then q_push HReady x q else q_push HDelayed x q) =
    q_push (gate m now) x q) as -> by (unfold gate; by destruct (Msg.Ready m now)).
  destruct (q_push_ok (gate m now) q x X Hinv) as (q' & E & Hinv' & He).
  exists q'. split_and!; [done..| |done].
  eapply push_abs; [done..|]. by rewrite Hm.
Qed.

Lemma gate_not_inflight m now : gate m now ≠ HInflight.
Proof. unfold gate. by destruct (Msg.Ready m now). Qed.

(** ** retryLocked *)

Lemma retryLocked_ok {W} `{Log W} now delay q (w : W) x m X :
  inv q (x :: X) → mem q !! x = Some m →
  let r := AppendSync (retry_rec (cfg q) m now delay) w in
  ∃ q', retryLocked x now delay q w = Some (q', r.1, r.2) ∧ inv q' X ∧
    abs q' = partial_alter (λ _, retry_place (cfg q) m now delay r.2) x (abs q) ∧
    ctrl q' = ctrl q ∧ inflight q' = inflight q.
Proof.
  intros Hinv Hm r. unfold retryLocked. rewrite Hm. simpl_bind.
  fold (exhausted (cfg q) m). subst r. unfold retry_rec, retry_place.
  destruct (exhausted (cfg q) m) eqn:Ex; fold (name q).
  - destruct (AppendSync _ w) as [w' [e|]]; cbn [fst snd].
    + rewrite (q_update_eq _ _ _ _ Hm). simpl_bind.
      set (q1 := set_mem _ q). set (m1 := Msg.set_VisibleAt now m).
      assert (mem q1 !! x = Some m1) as Hm1 by apply lookup_insert_eq.
      assert (abs q1 = abs q) as Ea1 by (by eapply abs_set_mem).
      destruct (placeLocked_ok now q1 x m1 X) as (q' & -> & Hinv' & Ha & He).
      { by eapply inv_set_mem. }
      { done. }
      assert (gate m1 now = HReady) as Eg by apply gate_now. rewrite Eg in *. simpl_bind.
      exists q'. split_and!; [done..| | |].
      * by rewrite Ha, Ea1.
      * rewrite (rest_ctrl _ _ (he_rest _ _ _ _ He)). done.
      * apply (he_other _ _ _ _ He HInflight). done.
    + eexists. split_and!; [done|by apply inv_dlq| |done..].
      rewrite (abs_dlq q x X m); done.
  - rewrite (q_update_eq _ _ _ _ Hm). simpl_bind.
    set (q1 := set_mem _ q). set (m1 := Msg.set_VisibleAt (Add now delay) m).
    assert (mem q1 !! x = Some m1) as Hm1 by apply lookup_insert_eq.
    assert (inv q1 (x :: X)) as Hinv1 by (by eapply inv_set_mem).
    assert (abs q1 = abs q) as Ea1 by (by eapply abs_set_mem).
    rewrite Hm1. simpl_bind. fold (name q1). change (name q1) with (name q).
    destruct (AppendSync _ w) as [w' [e|]]; cbn [fst snd].
    + exists q1. split_and!; [done|by eapply inv_forget| |done..].
      rewrite Ea1. transitivity (delete x (abs q)); [|done].
      symmetry. apply delete_id. by eapply abs_loose.
    + destruct (placeLocked_ok now q1 x m1 X) as (q' & -> & Hinv' & Ha & He); [done..|].
      simpl_bind. exists q'. split_and!; [done..| | |].
      * by rewrite Ha, Ea1.
      * rewrite (rest_ctrl _ _ (he_rest _ _ _ _ He)). done.
      * apply (he_other _ _ _ _ He HInflight). apply not_eq_sym, gate_not_inflight.
Qed.

(** ** Reading the abstract view *)

Lemma peek_elem h x : peek h = Some x → x ∈ items h.
Proof. unfold peek. destruct (items h); intros; simplify_eq. set_solver. Qed.

Lemma peek_None h : peek h = None → items h = [].
Proof. unfold peek. by destruct (items h). Qed.

Lemma abs_at q X p x m :
  inv q X → x ∈ items (heap_at p q) → mem q !! x = Some m →
  abs q !! x = Some (In p, Msg.erase m).
Proof. intros Hinv Hx Hm. apply (abs_lookup q X); [done|]. by rewrite Hm. Qed.

Lemma abs_heap q X p x n :
  inv q X → abs q !! x = Some (In p, n) →
  x ∈ items (heap_at p q) ∧ ∃ m, mem q !! x = Some m ∧ n = Msg.erase m.
Proof.
  intros Hinv [Hx (m & Hm & ->)%fmap_Some]%(abs_lookup q X); [|done]. eauto.
Qed.

(** The root of heap [p] is least among what [abs] puts there. *)
Lemma abs_peek_least q X p x m y n :
  inv q X → peek (heap_at p q) = Some x → mem q !! x = Some m →
  abs q !! y = Some (In p, n) → cmp_of (cfg q) p n m = false.
Proof.
  intros Hinv Hpk Hm Hy. destruct (abs_heap _ _ _ _ _ Hinv Hy) as (Hiy & n' & Hn & ->).
  pose proof (mh_peek_least _ _ _ _ (inv_heap _ _ Hinv p) Hpk Hiy) as Hle.
  unfold locless in Hle. rewrite Hm, Hn in Hle. simpl in Hle.
  rewrite (inv_cmp _ _ Hinv) in Hle. by rewrite <- cmp_erase in *.
Qed.

(** ** openGates *)

Lemma open_msg_id now (A : amsgs) :
  (∀ x m, A !! x = Some (In HDelayed, m) → Msg.Ready m now = false) → open_msg now <$> A = A.
Proof.
  intros HA. apply map_eq. intros x. rewrite lookup_fmap.
  destruct (A !! x) as [[[[]|] m]|] eqn:E; try done.
  simpl. unfold gate. by rewrite (HA _ _ E).
Qed.

Lemma open_msg_step now (A : amsgs) x m :
  A !! x = Some (In HDelayed, m) → Msg.Ready m now = true →
  open_msg now <$> <[x := (In HReady, m)]> A = open_msg now <$> A.
Proof.
  intros Hx Hr. apply map_eq. intros y. rewrite !lookup_fmap.
  destruct (decide (x = y)) as [<-|]; [|by rewrite lookup_insert_ne].
  rewrite lookup_insert_eq, Hx. simpl. unfold gate. by rewrite Hr.
Qed.

Lemma openGates_ok {W} `{Log W} (w : W) fuel now q woke :
  inv q [] → (length (items (delayed q)) < fuel)%nat →
  ∃ q' woke', openGates fuel now q woke = Some (q', woke') ∧ inv q' [] ∧
    abs q' = open_msg now <$> abs q ∧ rest q' = rest q ∧ inflight q' = inflight q ∧
    (∀ wd, clock wd now → asteps (cfg q) wd (absq q w) (absq q' w)) ∧
    (woke' = false → woke = false ∧ q' = q).
Proof.
  revert q woke. induction fuel as [|fuel IH]; intros q woke Hinv Hf; [lia|]. simpl.
  destruct (peek (delayed q)) as [x|] eqn:Hpk; last first.
  { exists q, woke. split_and!; try done. rewrite open_msg_id; [done|].
    intros x m Hx. apply (abs_heap _ []) in Hx as [Hx _]; [|done].
    simpl in Hx. rewrite (peek_None _ Hpk) in Hx. set_solver. }
  destruct (inv_mem _ _ Hinv x) as [m Hm].
  { rewrite app_nil_r. apply elem_of_live. exists (In HDelayed). by apply peek_elem. }
  rewrite Hm. simpl_bind. destruct (Msg.Ready m now) eqn:Hr; simpl negb; cbn iota; last first.
  { exists q, woke. split_and!; try done. rewrite open_msg_id; [done|].
    intros y n Hy. pose proof (abs_peek_least q [] HDelayed x m y n Hinv Hpk Hm Hy) as Hle.
    simpl in Hle. unfold byVisibleAt, Before in Hle. unfold Msg.Ready, After in *. lia. }
  destruct (q_pop_ok HDelayed q x [] Hinv Hpk) as (q1 & -> & Hinv1 & Hp1 & He1). simpl_bind.
  destruct (q_push_ok HReady q1 x [] Hinv1) as (q2 & -> & Hinv2 & He2). simpl_bind.
  assert (abs q !! x = Some (In HDelayed, Msg.erase m)) as Hax.
  { eapply abs_at; [done| |done]. by apply peek_elem. }
  assert (abs q2 = <[x:=(In HReady, Msg.erase m)]> (abs q)) as Ea2.
  { erewrite (push_abs HReady q1 q2 x [] (Msg.erase m)); [|done..|].
    - rewrite (take_abs HDelayed q q1 x []) by done. by rewrite insert_delete_eq.
    - by rewrite (he_msgs _ _ _ _ He1), Hm. }
  assert (rest q2 = rest q) as Er.
  { by rewrite (he_rest _ _ _ _ He2), (he_rest _ _ _ _ He1). }
  destruct (IH q2 true Hinv2) as (q' & woke' & E & Hinv' & Ea & Er' & Ei & Hst & Hw).
  { pose proof (Permutation_length Hp1) as Hl. simpl in Hl.
    assert (delayed q2 = delayed q1) as -> by (by apply (he_other _ _ _ _ He2 HDelayed)). lia. }
  exists q', woke'. rewrite E. split_and!; try done.
  - rewrite Ea, Ea2. by apply open_msg_step.
  - by rewrite Er', Er.
  - rewrite Ei. etrans; [by apply (he_other _ _ _ _ He2 HInflight)|].
    by apply (he_other _ _ _ _ He1 HInflight).
  - intros wd Hc. rewrite <- (rest_cfg _ _ Er). eapply rtc_l; [|by apply Hst].
    unfold absq. rewrite Ea2, (rest_seq _ _ Er). by apply (as_open _ _ _ _ _ _ _ now).
  - intros ->. by destruct Hw.
Qed.

(** ** Ending a lease *)

(** Once [x] is out of the in-flight heap and out of the table, the rest of
    the state is consistent again. *)
Lemma end_lease_ok q q1 x m :
  wf q → abs q !! x = Some (In HInflight, m) → inv q1 [x] →
  x :: items (inflight q1) ≡ₚ items (inflight q) →
  heap_effect HInflight q q1 (items (inflight q1)) →
  let q2 := set_leases (delete (Msg.Receipt m) (leases q1)) q1 in
  inv q2 [x] ∧ leases_ok q2 ∧ abs q2 = delete x (abs q).
Proof.
  intros [Hinv Hl] Hx Hinv1 Hp He q2.
  assert (abs q1 = delete x (abs q)) as Ea by (by apply (take_abs HInflight q q1 x [])).
  assert (abs q2 = delete x (abs q)) as Ea2 by (rewrite <- Ea; by apply core_abs).
  split_and!; [by apply (core_inv q1)| |done].
  eapply (leases_ok_delete q); [done..|by rewrite <- (rest_leases _ _ (he_rest _ _ _ _ He))|done].
Qed.

(** The two assignments that clear the lease fields. *)
Lemma unlease_updates {B} q x m (k : Queue → option B) :
  mem q !! x = Some m →
  (q ← q_update x (Msg.set_Receipt "") q;
   q ← q_update x (Msg.set_LeaseExpiry zeroTime) q; k q) =
  k (set_mem (<[x := unlease m]> (mem q)) q).
Proof.
  intros Hm. rewrite (q_update_eq _ _ _ _ Hm). simpl_bind.
  rewrite (q_update_eq _ _ (Msg.set_Receipt "" m)) by (simpl; apply lookup_insert_eq). simpl_bind.
  unfold set_mem at 1. simpl. by rewrite insert_insert_eq.
Qed.

Lemma leases_ok_retry q q' x m now delay e c :
  leases_ok q → abs q !! x = None → leases q' = leases q →
  abs q' = partial_alter (λ _, retry_place c m now delay e) x (abs q) → leases_ok q'.
Proof.
  intros Hl Hx El Ea. eapply leases_ok_ext; [done..|]. intros r y. rewrite Ea.
  apply leased_partial_alter; [by rewrite Hx|]. intros n. apply retry_place_not_inflight.
Qed.

Section Retry.
Context {W : Type} `{Log W}.
Implicit Type w : W.

(** From an ended lease through [retryLocked]: shared by [Nack] and the
    reclamation loop.  [upd] counts the event. *)
Lemma retry_ended_ok now delay q q1 w x m m1 (upd : Queue → Queue) :
  (∀ q0, core (upd q0) = core q0 ∧ leases (upd q0) = leases q0) →
  inv q1 [x] → leases_ok q1 → abs q1 = delete x (abs q) → mem q1 !! x = Some m1 →
  Msg.erase m1 = Msg.erase m → cfg q1 = cfg q → seq q1 = seq q →
  abs q !! x = Some (In HInflight, Msg.erase m) →
  let q2 := upd (set_mem (<[x := unlease m1]> (mem q1)) q1) in
  let r := AppendSync (retry_rec (cfg q) (unlease m1) now delay) w in
  ∃ q', retryLocked x now delay q2 w = Some (q', r.1, r.2) ∧ wf q' ∧
    abs q' = partial_alter (λ _, retry_place (cfg q) (unlease m) now delay r.2) x (abs q) ∧
    ctrl q' = ctrl q2 ∧ inflight q' = inflight q1 ∧
    ∀ wd, clock wd now → instant wd (Add now delay) → outcome wd r.2 →
      astep (cfg q) wd (absq q w) (absq q' r.1).
Proof.
  intros Hupd Hinv1 Hl1 Ea1 Hm1 Em Ec Es Hx q2 r.
  set (q1' := set_mem (<[x := unlease m1]> (mem q1)) q1) in *.
  destruct (Hupd q1') as [Hcore Hle]. fold q2 in Hcore, Hle.
  assert (inv q1' [x]) as Hinv1' by (by apply (inv_set_mem q1 x [] m1)).
  assert (abs q1' = abs q1) as Ea1' by (by apply (abs_set_mem q1 x [] m1)).
  assert (inv q2 [x]) as Hinv2 by (by apply (core_inv q1')).
  assert (abs q2 = delete x (abs q)) as Ea2 by (by rewrite (core_abs _ _ Hcore), Ea1').
  assert (mem q2 !! x = Some (unlease m1)) as Hm2.
  { rewrite (core_mem _ _ Hcore). apply lookup_insert_eq. }
  assert (cfg q2 = cfg q) as Ec2 by (by rewrite (core_cfg _ _ Hcore)).
  destruct (retryLocked_ok now delay q2 w x (unlease m1) [] Hinv2 Hm2)
    as (q' & E & Hinv' & Ea & Ect & Ei). rewrite Ec2 in *. fold r in E, Ea.
  assert (leases_ok q') as Hl'.
  { eapply (leases_ok_retry q1'); [| |by rewrite (ctrl_leases _ _ Ect), Hle|].
    - eapply leases_ok_ext; [done..|by rewrite Ea1'].
    - rewrite Ea1', Ea1. apply lookup_delete_eq.
    - by rewrite <- (core_abs _ _ Hcore). }
  assert (abs q' = partial_alter (λ _, retry_place (cfg q) (unlease m) now delay r.2) x (abs q)) as Ea'.
  { rewrite Ea, Ea2. apply map_eq. intros y. destruct (decide (x = y)) as [<-|].
    - rewrite !lookup_partial_alter_eq. apply retry_place_erase. by rewrite <- !unlease_erase, Em.
    - by rewrite !lookup_partial_alter_ne, lookup_delete_ne. }
  exists q'. split_and!; try done.
  - rewrite Ei. apply (core_heap _ _ HInflight Hcore).
  - intros wd Hc Hi Ho. unfold absq. rewrite Ea', (ctrl_seq _ _ Ect), (core_seq _ _ Hcore). simpl. rewrite Es.
    replace (retry_place (cfg q) (unlease m) now delay r.2)
      with (retry_place (cfg q) (unlease m1) now delay r.2)
      by (apply retry_place_erase; by rewrite <- !unlease_erase, Em).
    eapply as_retry; [exact Hc|exact Hi|exact Ho|exact Hx|done|]. unfold r. by destruct (AppendSync _ w).
Qed.

(** ** reclaim *)

Lemma reclaim_one_ok now q w x m :
  wf q → peek (inflight q) = Some x → mem q !! x = Some m →
  ∃ q' w' e, reclaim_one x m now q w = Some (q', w') ∧ wf q' ∧
    abs q' = partial_alter (λ _, retry_place (cfg q) (unlease m) now 0 e) x (abs q) ∧
    x :: items (inflight q') ≡ₚ items (inflight q) ∧ fixed q' = fixed q ∧
    (walErr q' = None → walErr q = None ∧ e = None) ∧
    ∀ wd, clock wd now → instant wd (Add now 0) → outcome wd e →
      astep (cfg q) wd (absq q w) (absq q' w').
Proof.
  intros Hwf Hpk Hm. pose proof (wf_inv _ Hwf) as Hinv.
  assert (abs q !! x = Some (In HInflight, Msg.erase m)) as Hax.
  { eapply (abs_at q [] HInflight); [done| |done]. by apply peek_elem. }
  unfold reclaim_one.
  destruct (q_pop_ok HInflight q x [] Hinv Hpk) as (q1 & -> & Hinv1 & Hp1 & He1). simpl_bind.
  destruct (end_lease_ok q q1 x (Msg.erase m) Hwf Hax Hinv1 Hp1 He1) as (Hinv2 & Hl2 & Ea2).
  change (Msg.Receipt (Msg.erase m)) with (Msg.Receipt m) in *.
  set (q2 := set_leases _ _) in *.
  destruct (heap_effect_lookup _ _ _ _ _ _ He1 Hm) as (m1 & Hm1 & Em).
  rewrite (unlease_updates q2 x m1) by done. pose proof (he_rest _ _ _ _ He1) as Er.
  destruct (retry_ended_ok now 0 q q2 w x m m1 incr_expired) as (q' & -> & Hwf' & Ea & Ect & Ei & Hst);
    try done; [by apply (rest_cfg _ _ Er)|by apply (rest_seq _ _ Er)|].
  simpl_bind. destruct (AppendSync _ w) as [w' e] eqn:Ew. cbn [fst snd] in *.
  set (q3 := match e, walErr q' with Some e, None => set_walErr (Some e) q' | _, _ => q' end).
  assert (core q3 = core q' ∧ leases q3 = leases q') as [Hc3 Hl3].
  { unfold q3. by destruct e, (walErr q'). }
  exists q3, w', e. split_and!; [done|..].
  - destruct Hwf' as [Hi' Hl']. split; [by apply (core_inv q')|].
    eapply leases_ok_ext; [done..|by rewrite (core_abs _ _ Hc3)].
  - by rewrite (core_abs _ _ Hc3).
  - rewrite (core_heap _ _ HInflight Hc3 : inflight q3 = inflight q'), Ei. done.
  - assert (fixed q3 = fixed q') as -> by (unfold q3; by destruct e, (walErr q')).
    rewrite <- (rest_fixed _ _ Er). unfold ctrl in Ect. unfold fixed. simpl in *. congruence.
  - assert (walErr q' = walErr q) as Ewe.
    { transitivity (walErr q1); framed. }
    unfold q3. rewrite Ewe. destruct e, (walErr q) eqn:Eq; simpl; try done; congruence.
  - unfold absq in *. by rewrite (core_abs _ _ Hc3), (core_seq _ _ Hc3).
Qed.
End Retry.

Lemma expire_id c now es (A : amsgs) :
  (∀ x m, A !! x = Some (In HInflight, m) → After (Msg.LeaseExpiry m) now = true) →
  map_imap (expire_msg c now es) A = A.
Proof.
  intros HA. apply map_eq. intros x. rewrite map_lookup_imap.
  destruct (A !! x) as [[[[]|] m]|] eqn:E; try done. simpl. by rewrite (HA _ _ E).
Qed.

(** One iteration: expiring [x] first and the rest later is expiring all. *)
Lemma expire_step c now e es (A : amsgs) x m :
  A !! x = Some (In HInflight, m) → After (Msg.LeaseExpiry m) now = false →
  map_imap (expire_msg c now es) (partial_alter (λ _, retry_place c (unlease m) now 0 e) x A) =
  map_imap (expire_msg c now (λ y, if decide (y = x) then e else es y)) A.
Proof.
  intros Hx Ha. apply map_eq. intros y. rewrite !map_lookup_imap.
  destruct (decide (x = y)) as [<-|Hne].
  - rewrite lookup_partial_alter_eq, Hx. simpl. rewrite Ha, decide_True by done.
    destruct (retry_place c (unlease m) now 0 e) as [[[[]|] n]|] eqn:E; try done.
    exfalso. by eapply retry_place_not_inflight.
  - rewrite lookup_partial_alter_ne by done. destruct (A !! y) as [[[[]|] n]|]; try done.
    simpl. by rewrite decide_False.
Qed.

Section Advance.
Context {W : Type} `{Log W}.
Implicit Type w : W.

Lemma reclaim_ok fuel now q w woke :
  wf q → (length (items (inflight q)) < fuel)%nat →
  ∃ q' w' woke' es, reclaim fuel now q w woke = Some (q', w', woke') ∧ wf q' ∧
    abs q' = map_imap (expire_msg (cfg q) now es) (abs q) ∧ fixed q' = fixed q ∧
    (walErr q' = None → walErr q = None ∧ ∀ y, es y = None) ∧
    (∀ wd, clock wd now → instant wd (Add now 0) →
       (∀ e, (walErr q' = None → e = None) → outcome wd e) →
       asteps (cfg q) wd (absq q w) (absq q' w')) ∧
    (woke' = false → woke = false ∧ q' = q ∧ w' = w).
Proof.
  revert q w woke. induction fuel as [|fuel IH]; intros q w woke Hwf Hf; [lia|].
  pose proof (wf_inv _ Hwf) as Hinv. cbn [reclaim].
  destruct (peek (inflight q)) as [x|] eqn:Hpk; last first.
  { exists q, w, woke, (λ _, None). split_and!; try done. rewrite expire_id; [done|].
    intros x m Hx. apply (abs_heap _ []) in Hx as [Hx _]; [|done].
    simpl in Hx. rewrite (peek_None _ Hpk) in Hx. set_solver. }
  destruct (inv_mem _ _ Hinv x) as [m Hm].
  { rewrite app_nil_r. apply elem_of_live. exists (In HInflight). by apply peek_elem. }
  rewrite Hm. simpl_bind. destruct (After (Msg.LeaseExpiry m) now) eqn:Ha.
  { exists q, w, woke, (λ _, None). split_and!; try done. rewrite expire_id; [done|].
    intros y n Hy. pose proof (abs_peek_least q [] HInflight x m y n Hinv Hpk Hm Hy) as Hle.
    simpl in Hle. unfold byLeaseExpiry, Before, After in *. lia. }
  destruct (reclaim_one_ok now q w x m Hwf Hpk Hm)
    as (q1 & w1 & e & -> & Hwf1 & Ea1 & Hp & Ef1 & He1 & Hst1). simpl_bind.
  pose proof (fixed_cfg _ _ Ef1) as Ec1.
  destruct (IH q1 w1 true Hwf1)
    as (q' & w' & woke' & es & E & Hwf' & Ea & Ec & Hes & Hst & Hw).
  { pose proof (Permutation_length Hp). simpl in *. lia. }
  exists q', w', woke', (λ y, if decide (y = x) then e else es y).
  split_and!; [done|done|..].
  - rewrite Ea, Ea1, Ec1. change (unlease m) with (unlease m).
    rewrite (retry_place_erase (cfg q) (unlease (Msg.erase m)) (unlease m)) by done.
    apply expire_step; [|done]. eapply (abs_at q [] HInflight); [done| |done].
    by apply peek_elem.
  - by rewrite Ec, Ef1.
  - intros Hn. apply Hes in Hn as [Hn Hes']. apply He1 in Hn as [Hn ->].
    split; [done|]. intros y. by case_decide.
  - intros wd Hc Hi Ho. eapply rtc_l.
    + apply Hst1; [done..|]. apply Ho. intros Hn. by apply Hes in Hn as [[_ ?]%He1 _].
    + rewrite <- Ec1. by apply Hst.
  - intros Hw'. by destruct (Hw Hw').
Qed.

Lemma openGates_wf q q' now :
  wf q → inv q' [] → abs q' = open_msg now <$> abs q → leases q' = leases q → wf q'.
Proof.
  intros [_ Hl] Hinv' Ea El. split; [done|]. eapply leases_ok_ext; [done..|].
  intros r x. unfold leased. rewrite Ea, lookup_fmap. unfold gate.
  destruct (abs q !! x) as [[[[]|] m]|]; simpl; try done.
  unfold gate. case_match; naive_solver.
Qed.

(** [Tick]: pointwise on the messages, whatever the writes return. *)
Definition advance_msg (c : Config) (now : Time) (es : loc → option error)
    (x : loc) (v : place * Msg) : option (place * Msg) :=
  expire_msg c now es x (open_msg now v).

Lemma advanceLocked_ok now q w :
  wf q →
  ∃ q' w' es, advanceLocked now q w = Some (q', w') ∧ wf q' ∧
    abs q' = map_imap (advance_msg (cfg q) now es) (abs q) ∧
    cfg q' = cfg q ∧ seq q' = seq q ∧
    (walErr q' = None → walErr q = None ∧ ∀ y, es y = None) ∧
    (enqueued q' = enqueued q ∧ acked q' = acked q) ∧
    (∀ wd, clock wd now → instant wd (Add now 0) →
       (∀ e, (walErr q' = None → e = None) → outcome wd e) →
       asteps (cfg q) wd (absq q w) (absq q' w')) ∧
    ((q' = q ∧ w' = w) ∨ wake q' = S (wake q)).
Proof.
  intros Hwf. unfold advanceLocked.
  destruct (openGates_ok w (S (length (items (delayed q)))) now q false)
    as (q1 & wk1 & -> & Hinv1 & Ea1 & Er1 & Ei1 & Hst1 & Hw1); [apply Hwf|lia|]. simpl_bind.
  assert (wf q1) as Hwf1 by (eapply openGates_wf; [exact Hwf|done|done|by apply rest_leases]).
  destruct (reclaim_ok (S (length (items (inflight q1)))) now q1 w wk1)
    as (q2 & w2 & wk2 & es & -> & Hwf2 & Ea2 & Ef2 & Hes & Hst2 & Hw2); [done|lia|]. simpl_bind.
  pose proof (rest_fixed _ _ Er1) as Ef1. rewrite <- Ef2 in Ef1 at 1.
  pose proof (rest_cfg _ _ Er1) as Ec1.
  set (q3 := if wk2 then signalLocked q2 else q2).
  assert (core q3 = core q2) as Hc by (unfold q3; by destruct wk2).
  assert (leases q3 = leases q2) as Hl3 by (unfold q3; by destruct wk2).
  assert (walErr q3 = walErr q2) as Hw3 by (unfold q3; by destruct wk2).
  exists q3, w2, es. split_and!.
  - done.
  - destruct Hwf2 as [Hi2 Hl2]. split; [by apply (core_inv q2)|].
    eapply leases_ok_ext; [done..|by rewrite (core_abs _ _ Hc)].
  - rewrite (core_abs _ _ Hc), Ea2, Ea1, Ec1. apply map_eq. intros x.
    rewrite !map_lookup_imap, lookup_fmap. by destruct (abs q !! x).
  - rewrite (core_cfg _ _ Hc). framed.
  - rewrite (core_seq _ _ Hc). framed.
  - rewrite Hw3. intros Hn. destruct (Hes Hn). unfold rest in Er1. split; [congruence|done].
  - transitivity (enqueued q2); [unfold q3; by destruct wk2|]. framed.
  - transitivity (acked q2); [unfold q3; by destruct wk2|]. framed.
  - intros wd Hck Hi Ho. unfold asteps in *. etrans; [by apply Hst1|]. rewrite <- Ec1.
    rewrite Hw3 in Ho. specialize (Hst2 wd Hck Hi Ho). unfold absq in *. by rewrite (core_abs _ _ Hc), (core_seq _ _ Hc).
  - unfold q3. destruct wk2; [right; simpl; f_equal; framed|left].
    destruct (Hw2 eq_refl) as (-> & -> & ->). by destruct (Hw1 eq_refl) as (_ & ->).
Qed.
End Advance.

(** ** Enqueue *)

Lemma fresh_not_live q X x : inv q X → mem q !! x = None → x ∉ live q ++ X.
Proof. intros Hinv Hx Hl. destruct (inv_mem _ _ Hinv x Hl) as [m Hm]. congruence. Qed.

(** Allocating a message whose sequence number nobody has. *)
Lemma inv_alloc q X x m :
  inv q X → mem q !! x = None → Msg.Seq m ≤ seq q →
  (∀ y n, y ∈ live q ++ X → mem q !! y = Some n → Msg.Seq n ≠ Msg.Seq m) →
  let q' := set_mem (<[x := m]> (mem q)) q in
  inv q' (x :: X) ∧ abs q' = abs q.
Proof.
  intros Hinv Hx Hs Hne q'. pose proof (fresh_not_live _ _ _ Hinv Hx) as Hfr.
  assert (∀ y, y ∈ live q ++ X → mem q' !! y = mem q !! y) as Hsame.
  { intros y Hy. simpl. apply lookup_insert_ne. by intros <-. }
  assert (∀ y, y ∈ live q' ++ x :: X → y = x ∨ (y ≠ x ∧ y ∈ live q ++ X)) as Hcase.
  { intros y. change (live q') with (live q). destruct (decide (y = x)); [auto|].
    rewrite !elem_of_app, elem_of_cons. naive_solver. }
  assert (mem q' !! x = Some m) as Hqx by apply lookup_insert_eq.
  assert (inv q' (x :: X)) as Hinv'.
  { split.
    - change (live q') with (live q). rewrite <- Permutation_middle. by constructor; [|apply Hinv].
    - intros y [->|[_ Hy]]%Hcase; [eauto|]. rewrite Hsame by done. by apply (inv_mem q X).
    - intros p. apply (mh_ok_agree (mem q)).
      + unfold q'. rewrite heap_at_set_mem. by apply (inv_heap q X).
      + intros y Hy. apply Hsame. apply elem_of_app. left. apply elem_of_live.
        exists (In p). by destruct p.
    - intros p. pose proof (inv_cmp _ _ Hinv p). by destruct p.
    - intros y n [->|[_ Hy]]%Hcase Hn; simpl; [by simplify_eq|].
      rewrite Hsame in Hn by done. by apply (inv_seq _ _ Hinv _ _ Hy Hn).
    - intros y z n k Hy%Hcase Hz%Hcase Hn Hk E.
      destruct Hy as [->|[_ Hy]], Hz as [->|[_ Hz]]; try done.
      + rewrite Hsame in Hk by done. simplify_eq. exfalso. by eapply Hne.
      + rewrite Hsame in Hn by done. simplify_eq. exfalso. by eapply Hne.
      + rewrite Hsame in Hn, Hk by done. by eapply (inv_seq_inj _ _ Hinv). }
  split; [done|]. symmetry. apply (abs_eq q X); [done|]. intros y P n.
  rewrite (abs_lookup q' (x :: X)) by done.
  assert (at_place q' P y ↔ at_place q P y) as -> by (by destruct P as [[]|]).
  split; intros [HP Hn]; (split; [done|]).
  - rewrite Hsame in Hn; [done|]. apply elem_of_app. left. apply elem_of_live. eauto.
  - rewrite Hsame; [done|]. apply elem_of_app. left. apply elem_of_live. eauto.
Qed.

(** The counter may move ahead of the messages. *)
Lemma inv_set_seq q X s : inv q X → seq q ≤ s → inv (set_seq s q) X ∧ abs (set_seq s q) = abs q.
Proof.
  intros Hinv Hs. split; [|done]. apply (inv_change q _ X); try done; [eauto|];
    intros p; pose proof (inv_heap _ _ Hinv p); by destruct p.
Qed.

(** Allocating a message with the next sequence number. *)
Lemma alloc_ok q X x m s :
  inv q X → mem q !! x = None → seq q < s → Msg.Seq m = s →
  let q' := set_mem (<[x := m]> (mem q)) (set_seq s q) in
  inv q' (x :: X) ∧ abs q' = abs q.
Proof.
  intros Hinv Hx Hs Em. destruct (inv_set_seq q X s Hinv) as [Hinv1 Ea]; [lia|].
  assert (∀ y n, y ∈ live (set_seq s q) ++ X → mem (set_seq s q) !! y = Some n → Msg.Seq n ≠ Msg.Seq m) as Hne.
  { intros y n Hy Hn. pose proof (inv_seq _ _ Hinv _ _ Hy Hn). lia. }
  destruct (inv_alloc (set_seq s q) X x m Hinv1 Hx) as [Hinv2 Ea2]; [simpl; lia|done|].
  split; [done|]. by etrans.
Qed.

Lemma core_wf q q' : core q' = core q → leases q' = leases q → wf q → wf q'.
Proof.
  intros Hc Hl [Hi Hlo]. split; [by apply (core_inv q)|].
  eapply leases_ok_ext; [done..|by rewrite (core_abs _ _ Hc)].
Qed.

#[export] Hint Resolve core_inv core_abs core_wf : frame.

(** The message [Enqueue] builds. *)
Definition new_msg (body : string) (priority : Z) (delay : Duration) (now : Time)
    (rnd : list Byte.byte) (s : Z) : Msg :=
  Msg.Mk (newID rnd) body priority s (Add now delay) now 0 "" zeroTime 0.

Definition accepts (q : Queue) (priority : Z) : Prop := priority = 0 ∨ Config.Priority (cfg q) = true.

Section EnqueueOk.
Context {W : Type} `{Log W}.
Implicit Type w : W.

Lemma Enqueue_disabled body priority delay now rnd q w :
  ¬ accepts q priority →
  Enqueue body priority delay now rnd q w = Some (q, w, Err ErrPriorityDisabled).
Proof.
  intros Ha. unfold Enqueue. rewrite bool_decide_true by (intros ->; apply Ha; by left).
  destruct (Config.Priority (cfg q)) eqn:E; [|done]. exfalso. apply Ha. by right.
Qed.

Lemma Enqueue_ok body priority delay now rnd q w :
  wf q → accepts q priority → 0 ≤ seq q < two64 - 1 →
  let m := new_msg body priority delay now rnd (seq q + 1) in
  let x := fresh (dom (mem q)) in
  let r := AppendSync (Rec.of_msg OpEnqueue (name q) m) w in
  ∃ q' res, Enqueue body priority delay now rnd q w = Some (q', r.1, res) ∧ wf q' ∧
    abs q !! x = None ∧ cfg q' = cfg q ∧ seq q' = seq q + 1 ∧
    acked q' = acked q ∧ walErr q' = walErr q ∧
    (∀ wd, clock wd now → admits wd (abs q) m → outcome wd r.2 →
       astep (cfg q) wd (absq q w) (absq q' r.1)) ∧
    match r.2 with
    | Some e => res = Err e ∧ abs q' = abs q ∧ enqueued q' = enqueued q ∧ wake q' = wake q
    | None => ∃ m', res = Ok m' ∧ Msg.erase m' = m ∧
        abs q' = <[x := (In (gate m now), m)]> (abs q) ∧
        enqueued q' = u64 (enqueued q + 1) ∧ wake q' = S (wake q)
    end.
Proof.
  intros Hwf Ha Hs m x r. pose proof (wf_inv _ Hwf) as Hinv. unfold Enqueue.
  assert (bool_decide (priority ≠ 0) && negb (Config.Priority (cfg q)) = false) as ->.
  { destruct Ha as [->| ->]; [done|apply andb_false_r]. }
  assert (u64 (seq q + 1) = seq q + 1) as -> by (autorewrite with words; done).
  cbn [seq set_seq mem]. fold (new_msg body priority delay now rnd (seq q + 1)). fold m. fold x.
  set (q1 := set_mem _ _). change (name q1) with (name q). fold r.
  assert (mem q !! x = None) as Hx by (apply not_elem_of_dom, is_fresh).
  destruct (alloc_ok q [] x m (seq q + 1)) as [Hinv1 Ea1]; [done..|lia|done|].
  fold q1 in Hinv1, Ea1.
  assert (abs q !! x = None) as Hax by (rewrite <- Ea1; by eapply abs_loose).
  assert (Hst : ∀ q', seq q' = seq q + 1 →
    abs q' = match r.2 with
             | None => <[x:=(In (gate m now), m)]> (abs q) | Some _ => abs q end →
    ∀ wd, clock wd now → admits wd (abs q) m → outcome wd r.2 →
    astep (cfg q) wd (absq q w) (absq q' r.1)).
  { intros q' Es' Ea' wd Hck Had Ho. unfold absq. rewrite Es', Ea'.
    replace (seq q + 1) with (u64 (seq q + 1)) by (autorewrite with words; done).
    apply (as_enqueue _ _ _ _ _ x m now); [done..| |by destruct r eqn:Er].
    unfold fresh_msg. by autorewrite with words. }
  destruct r as [w' [e|]] eqn:Er; cbn [fst snd] in *.
  - exists q1, (Err e). split_and!; try done.
    + apply inv_forget in Hinv1. split; [done|].
      eapply leases_ok_ext; [apply Hwf|done|by rewrite Ea1].
    + by apply Hst.
  - assert (mem q1 !! x = Some m) as Hm1 by apply lookup_insert_eq.
    destruct (placeLocked_ok now q1 x m [] Hinv1 Hm1) as (q2 & -> & Hinv2 & Ea2 & He2).
    simpl_bind. set (q3 := signalLocked (incr_enqueued q2)).
    pose proof (he_rest _ _ _ _ He2) as Er2.
    destruct (heap_effect_lookup _ _ _ _ _ _ He2 Hm1) as (m2 & Hm2 & Em2).
    assert (mem q3 !! x = Some m2) as -> by done. simpl_bind.
    assert (abs q3 = abs q2) as Ea3 by (by apply core_abs).
    assert (abs q3 = <[x:=(In (gate m now), m)]> (abs q)) as Ea' by (by rewrite Ea3, Ea2, Ea1).
    exists q3, (Ok m2). split_and!; try done.
    + split; [by apply (core_inv q2)|].
      eapply leases_ok_ext; [apply Hwf|framed|].
      intros rc y. rewrite Ea'. apply leased_partial_alter; [by rewrite Hax|].
      intros n [= E _]. by apply gate_not_inflight in E.
    + framed.
    + framed.
    + framed.
    + framed.
    + apply Hst; [framed|done].
    + exists m2. split_and!; try done.
      * unfold q3. simpl. f_equal. framed.
      * unfold q3. simpl. f_equal. framed.
Qed.
End EnqueueOk.

(** ** Ack, Nack, Extend *)

(** A receipt in the table names exactly one in-flight message. *)
Lemma receipt_lookup q r x :
  wf q → leases q !! r = Some x →
  ∃ m, mem q !! x = Some m ∧ x ∈ items (inflight q) ∧ Msg.Receipt m = r ∧
       abs q !! x = Some (In HInflight, Msg.erase m).
Proof.
  intros [Hinv Hl] Hr. apply Hl in Hr as (n & Hx & Er).
  destruct (abs_heap q [] HInflight x n Hinv Hx) as (Hi & m & Hm & ->). eauto 6.
Qed.

Lemma receipt_unknown q r : wf q → leases q !! r = None ↔ ∀ x, ¬ leased (abs q) r x.
Proof.
  intros [_ Hl]. split.
  - intros Hr x Hx. apply Hl in Hx. congruence.
  - intros Hn. destruct (leases q !! r) as [x|] eqn:E; [|done]. apply Hl in E. by apply Hn in E.
Qed.

(** ** Restoring the in-flight heap after a key changed *)

Section Refix.
Context (q : Queue) (x : loc) (m m1 : Msg) (mem' : store) (h' : msgHeap).
Context (Hinv : inv q []) (Hxi : x ∈ items (inflight q)) (Hm : mem q !! x = Some m).
Context (Es : Msg.Seq m1 = Msg.Seq m) (Hok : mh_ok mem' h').
Context (Hls : less h' = less (inflight q)) (Hi : items h' ≡ₚ items (inflight q)).
Context (Hfr : frame (<[x := m1]> (mem q)) mem' (items (inflight q))).

Let q2 := set_heap HInflight mem' h' (set_mem (<[x := m1]> (mem q)) q).

Lemma refix_msgs y : y ≠ x → Msg.erase <$> mem' !! y = Msg.erase <$> mem q !! y.
Proof. intros Hy. destruct Hfr as [-> _]. by rewrite lookup_insert_ne. Qed.

Lemma refix_msg : ∃ m2, mem' !! x = Some m2 ∧ Msg.erase m2 = Msg.erase m1.
Proof. apply (frame_lookup _ _ _ _ _ Hfr). apply lookup_insert_eq. Qed.

Lemma refix_heaps p : mh_ok mem' (heap_at p q2).
Proof.
  unfold q2. rewrite heap_at_set_heap. case_decide as Hp; [done|].
  rewrite heap_at_set_mem. apply (mh_ok_agree (mem q)); [by apply (inv_heap _ _ Hinv)|].
  intros y Hy. destruct Hfr as [_ Hfr'].
  assert (y ∉ items (inflight q)) as Hy'.
  { intros Hy'. apply Hp. cut (In p = In HInflight); [congruence|].
    by apply (at_place_inj q [] _ _ y Hinv). }
  rewrite Hfr' by done. apply lookup_insert_ne. by intros <-.
Qed.

Lemma refix_inv : inv q2 [].
Proof.
  destruct refix_msg as (m2 & Hm2 & Em2). apply (inv_change q _ []); try done.
  - unfold live. simpl. by rewrite Hi.
  - intros y n Hy Hn. destruct (decide (y = x)) as [->|Hne].
    + exists m2. split; [done|]. assert (n = m) as -> by congruence.
      apply (f_equal Msg.Seq) in Em2. simpl in Em2. congruence.
    + pose proof (refix_msgs y Hne) as E. rewrite Hn in E.
      apply fmap_Some in E as (n' & ? & En). exists n'. split; [done|].
      by apply (f_equal Msg.Seq) in En.
  - apply refix_heaps.
  - intros p. unfold q2. rewrite heap_at_set_heap. case_decide; [by subst p|by destruct p].
Qed.

Lemma refix_abs : abs q2 = <[x := (In HInflight, Msg.erase m1)]> (abs q).
Proof.
  destruct refix_msg as (m2 & Hm2 & Em2).
  apply (abs_eq _ []); [apply refix_inv|]. intros y P n.
  assert (at_place q2 P y ↔ at_place q P y) as ->.
  { destruct P as [[]|]; simpl; try done. by rewrite Hi. }
  rewrite lookup_insert_Some, (abs_lookup q []) by done. simpl.
  destruct (decide (y = x)) as [->|Hne].
  - rewrite Hm2. cbn [fmap option_fmap option_map]. rewrite Em2. split.
    + intros [[_ [= <- <-]]|[? _]]; done.
    + intros [HP E2%(inj Some)]. left. split; [done|]. subst n.
      by assert (P = In HInflight) as -> by (by apply (at_place_inj q [] _ _ x Hinv)).
  - rewrite refix_msgs by done. naive_solver.
Qed.
End Refix.

(** [heap.Fix] on the in-flight heap, after one of its messages was updated. *)
Lemma fix_inflight_ok q x m m1 :
  inv q [] → x ∈ items (inflight q) → mem q !! x = Some m →
  Msg.index m1 = Msg.index m → Msg.Seq m1 = Msg.Seq m →
  let q1 := set_mem (<[x := m1]> (mem q)) q in
  ∃ q2 m2, q_fix HInflight (Msg.index m1) q1 = Some q2 ∧ mem q2 !! x = Some m2 ∧
    Msg.erase m2 = Msg.erase m1 ∧ inv q2 [] ∧ rest q2 = rest q ∧
    abs q2 = <[x := (In HInflight, Msg.erase m1)]> (abs q).
Proof.
  intros Hinv Hxi Hm Ei Es q1.
  destruct (mh_Fix_ok (mem q) (inflight q) x m m1) as (mem' & h' & E & Hok & Hls & Hi & Hfr);
    [apply (inv_heap _ _ Hinv HInflight)|done..|].
  unfold q_fix. change (mem q1, heap_at HInflight q1) with (<[x:=m1]> (mem q), inflight q).
  rewrite E. destruct (refix_msg q x m1 mem' Hfr) as (m2 & Hm2 & Em2).
  eexists _, m2. split_and!; [done..| | |].
  - by apply (refix_inv q x m).
  - done.
  - by apply (refix_abs q x m).
Qed.

Section LeaseOps.
Context {W : Type} `{Log W}.
Implicit Type w : W.

Lemma Ack_unknown r q w : leases q !! r = None → Ack r q w = Some (q, w, Some ErrNoLease).
Proof. intros E. unfold Ack. by rewrite E. Qed.

Lemma Ack_ok r q w x m :
  wf q → leases q !! r = Some x → mem q !! x = Some m →
  let o := AppendSync (Rec.of_id OpAck (name q) (Msg.ID m)) w in
  ∃ q', Ack r q w = Some (q', o.1, o.2) ∧ wf q' ∧ cfg q' = cfg q ∧ seq q' = seq q ∧
    wake q' = wake q ∧ enqueued q' = enqueued q ∧ walErr q' = walErr q ∧
    (∀ wd, outcome wd o.2 → releases wd (Msg.erase m) → astep (cfg q) wd (absq q w) (absq q' o.1)) ∧
    match o.2 with
    | Some _ => q' = q
    | None => abs q' = delete x (abs q) ∧ leases q' = delete r (leases q) ∧
              acked q' = u64 (acked q + 1)
    end.
Proof.
  intros Hwf Hr Hm o. destruct (receipt_lookup q r x Hwf Hr) as (m' & Hm' & Hxi & <- & Hax).
  simplify_eq. unfold Ack. rewrite Hr, Hm. simpl_bind. fold o.
  assert (Hst : ∀ q', seq q' = seq q →
    abs q' = match o.2 with None => delete x (abs q) | Some _ => abs q end →
    ∀ wd, outcome wd o.2 → releases wd (Msg.erase m) → astep (cfg q) wd (absq q w) (absq q' o.1)).
  { intros q' Es Ea wd Ho Hrl. unfold absq. rewrite Es, Ea. eapply as_ack; [exact Ho|exact Hrl|exact Hax|].
    unfold o. by destruct (AppendSync _ w). }
  destruct o as [w' [e|]]; cbn [fst snd] in *; [exists q; split_and!; auto|].
  destruct (q_remove_ok HInflight q x [] m) as (q1 & -> & Hinv1 & Hp1 & He1);
    [apply Hwf|done..|]. simpl_bind.
  destruct (end_lease_ok q q1 x _ Hwf Hax Hinv1 Hp1 He1) as (Hinv2 & Hl2 & Ea2).
  pose proof (he_rest _ _ _ _ He1) as Er.
  change (Msg.Receipt (Msg.erase m)) with (Msg.Receipt m) in *.
  set (q2 := set_leases _ _) in *. set (q3 := incr_acked q2).
  exists q3. split_and!; try done.
  - apply inv_forget in Hinv2. by apply (core_wf q2).
  - framed.
  - framed.
  - framed.
  - framed.
  - framed.
  - apply Hst; [framed|]. rewrite <- Ea2. by apply core_abs.
  - simpl. by rewrite (rest_leases _ _ Er).
  - unfold q3. simpl. do 2 f_equal. framed.
Qed.

Lemma Nack_unknown r delay now q w :
  leases q !! r = None → Nack r delay now q w = Some (q, w, Some ErrNoLease).
Proof. intros E. unfold Nack. by rewrite E. Qed.

Lemma Nack_ok r delay now q w x m :
  wf q → leases q !! r = Some x → mem q !! x = Some m →
  ∃ q' w' e m1, Msg.erase m1 = Msg.erase m ∧
    AppendSync (retry_rec (cfg q) (unlease m1) now delay) w = (w', e) ∧
    Nack r delay now q w = Some (q', w', e) ∧ wf q' ∧ cfg q' = cfg q ∧ seq q' = seq q ∧
    abs q' = partial_alter (λ _, retry_place (cfg q) (unlease m) now delay e) x (abs q) ∧
    leases q' = delete r (leases q) ∧ nacked q' = u64 (nacked q + 1) ∧ tally q' = tally q ∧
    wake q' = (match e with Some _ => wake q | None => S (wake q) end) ∧
    ∀ wd, clock wd now → instant wd (Add now delay) → outcome wd e →
      astep (cfg q) wd (absq q w) (absq q' w').
Proof.
  intros Hwf Hr Hm. destruct (receipt_lookup q r x Hwf Hr) as (m' & Hm' & Hxi & <- & Hax).
  simplify_eq. unfold Nack. rewrite Hr, Hm. simpl_bind.
  destruct (q_remove_ok HInflight q x [] m) as (q1 & -> & Hinv1 & Hp1 & He1);
    [apply Hwf|done..|]. simpl_bind.
  destruct (end_lease_ok q q1 x _ Hwf Hax Hinv1 Hp1 He1) as (Hinv2 & Hl2 & Ea2).
  pose proof (he_rest _ _ _ _ He1) as Er.
  change (Msg.Receipt (Msg.erase m)) with (Msg.Receipt m) in *.
  set (q2 := set_leases _ _) in *.
  destruct (heap_effect_lookup _ _ _ _ _ _ He1 Hm) as (m1 & Hm1 & Em).
  rewrite (unlease_updates q2 x m1) by done.
  destruct (retry_ended_ok now delay q q2 w x m m1 incr_nacked)
    as (q' & -> & Hwf' & Ea & Ect & Ei & Hst);
    try done; [by apply (rest_cfg _ _ Er)|by apply (rest_seq _ _ Er)|].
  simpl_bind. destruct (AppendSync _ w) as [w' e] eqn:Ew. cbn [fst snd] in *.
  assert (ctrl q' = ctrl (incr_nacked (set_leases (delete (Msg.Receipt m) (leases q)) q))) as Ec.
  { rewrite Ect. framed. }
  unfold ctrl in Ec. simpl in Ec.
  exists (match e with Some _ => q' | None => signalLocked q' end), w', e, m1.
  assert (core (match e with Some _ => q' | None => signalLocked q' end) = core q') as Hc
    by by destruct e.
  split_and!; try done.
  - by destruct e.
  - apply (core_wf q'); [done|by destruct e|done].
  - rewrite (core_cfg _ _ Hc). congruence.
  - rewrite (core_seq _ _ Hc). congruence.
  - by rewrite (core_abs _ _ Hc).
  - destruct e; simpl; congruence.
  - destruct e; simpl; congruence.
  - destruct e; framed.
  - destruct e; simpl; congruence.
  - unfold absq in *. by rewrite (core_abs _ _ Hc), (core_seq _ _ Hc).
Qed.

Lemma Extend_unknown r vis now q :
  leases q !! r = None → Extend r vis now q = Some (q, Err ErrNoLease).
Proof. intros E. unfold Extend. by rewrite E. Qed.

(** The effective visibility: the caller's if positive, the queue's if not. *)
Definition effective (q : Queue) (vis : Duration) : Duration :=
  if vis <=? 0 then Config.Visibility (cfg q) else vis.

Lemma Extend_ok r vis now q (w : W) x m :
  wf q → leases q !! r = Some x → mem q !! x = Some m →
  let t := Add now (effective q vis) in
  ∃ q', Extend r vis now q = Some (q', Ok t) ∧ wf q' ∧ rest q' = rest q ∧
    abs q' = <[x := (In HInflight, Msg.erase (Msg.set_LeaseExpiry t m))]> (abs q) ∧
    ∀ wd, instant wd t → astep (cfg q) wd (absq q w) (absq q' w).
Proof.
  intros Hwf Hr Hm t. destruct (receipt_lookup q r x Hwf Hr) as (m' & Hm' & Hxi & <- & Hax).
  simplify_eq. unfold Extend. rewrite Hr. fold (effective q vis). fold t.
  rewrite (q_update_eq _ _ _ _ Hm). simpl_bind. set (m1 := Msg.set_LeaseExpiry t m).
  rewrite (lookup_insert_eq (mem q) x m1 : mem (set_mem _ q) !! x = Some m1). simpl_bind.
  destruct (fix_inflight_ok q x m m1 (wf_inv _ Hwf) Hxi Hm)
    as (q2 & m2 & -> & Hm2 & Em2 & Hinv2 & Er & Ea); [done..|]. simpl_bind.
  rewrite Hm2. simpl_bind.
  assert (Msg.LeaseExpiry m2 = t) as -> by (by apply (f_equal Msg.LeaseExpiry) in Em2).
  exists q2. split_and!; try done.
  - split; [done|]. eapply leases_ok_ext; [apply Hwf|framed|].
    intros rc y. rewrite Ea. unfold leased. rewrite lookup_insert. case_decide; [subst y|done].
    rewrite Hax. naive_solver.
  - intros wd Hinst. unfold absq. rewrite Ea, (rest_seq _ _ Er).
    by apply (as_extend _ _ _ _ _ x (Msg.erase m) t).
Qed.
End LeaseOps.

(** ** ReplayDLQ

    The loop keeps the original slice in [q.dlq] until it returns, so in the
    middle the state to reason about is the one whose dead letter list is the
    part still to be replayed. *)

Lemma q_push_set_dlq p x l q : q_push p x (set_dlq l q) = set_dlq l <$> q_push p x q.
Proof.
  unfold q_push. rewrite heap_at_set_dlq. simpl.
  by destruct (heap_Push _ _) as [[? ?]|]; destruct p.
Qed.

Lemma placeLocked_set_dlq x now l q :
  placeLocked x now (set_dlq l q) = set_dlq l <$> placeLocked x now q.
Proof.
  unfold placeLocked. simpl. destruct (mem q !! x) as [m|]; [simpl|done].
  case_match; apply q_push_set_dlq.
Qed.

(** Taking the head of the dead letter list. *)
Lemma inv_dlq_head q x l :
  inv (set_dlq (x :: l) q) [] →
  inv (set_dlq l q) [x] ∧ abs (set_dlq l q) = delete x (abs (set_dlq (x :: l) q)).
Proof.
  intros Hinv. assert (inv (set_dlq l q) [x]) as Hinv'.
  { apply (inv_change (set_dlq (x :: l) q) _ []); try done.
    - unfold live. simpl. solve_Permutation.
    - eauto.
    - intros p. pose proof (inv_heap _ _ Hinv p) as Hp. by rewrite heap_at_set_dlq in *. }
  split; [done|]. apply (abs_eq _ [x]); [done|]. intros y P n.
  rewrite lookup_delete_Some, (abs_lookup _ []) by done. simpl.
  pose proof (inv_loose _ _ _ Hinv') as Hx.
  assert (at_place (set_dlq (x :: l) q) P y ↔ at_place (set_dlq l q) P y ∨ (P = Dead ∧ y = x)) as ->.
  { destruct P as [[]|]; simpl; rewrite ?elem_of_cons; naive_solver. }
  split; [naive_solver|]. intros [HP Hn]. split; [|auto]. intros ->. apply Hx. eauto.
Qed.

Definition replay_msg (now : Time) (v : place * Msg) : place * Msg :=
  (In HReady, Msg.set_VisibleAt now (Msg.set_Attempts 0 v.2)).

Definition replay_some (now : Time) (xs : list loc) (x : loc) (v : place * Msg) :
    option (place * Msg) :=
  Some (if decide (x ∈ xs) then replay_msg now v else v).

Lemma map_imap_id (f : loc → place * Msg → option (place * Msg)) (A : amsgs) :
  (∀ x v, f x v = Some v) → map_imap f A = A.
Proof.
  intros Hf. apply map_eq. intros x. rewrite map_lookup_imap.
  destruct (A !! x); simpl; [by rewrite Hf|done].
Qed.

Lemma replay_some_cons now x xs v (A : amsgs) :
  x ∉ xs → A !! x = Some v →
  map_imap (replay_some now xs) (<[x := replay_msg now v]> (delete x A)) =
  map_imap (replay_some now (x :: xs)) A.
Proof.
  intros Hx Hv. apply map_eq. intros y. rewrite insert_delete_eq, !map_lookup_imap.
  unfold replay_some. destruct (decide (x = y)) as [<-|Hne].
  - rewrite lookup_insert_eq, Hv. simpl. rewrite decide_False by done.
    by rewrite decide_True by set_solver.
  - rewrite lookup_insert_ne by done. destruct (A !! y); [|done]. simpl.
    by rewrite (decide_ext _ (y ∈ x :: xs)) by set_solver.
Qed.

Section Replay.
Context {W : Type} `{Log W}.
Implicit Type w : W.

Lemma replay_none now l x v : replay_some now (take 0 l) x v = Some v.
Proof. unfold replay_some. by rewrite decide_False by set_solver. Qed.

(** Leaving the loop with [l] not replayed. *)
Lemma replay_stop now l d q w :
  wf (set_dlq l q) →
  let q' := if 0 <? d then signalLocked (set_dlq l q) else set_dlq l q in
  wf q' ∧ dlq q' = l ∧
  abs q' = map_imap (replay_some now (take 0 l)) (abs (set_dlq l q)) ∧
  cfg q' = cfg q ∧ seq q' = seq q ∧ tally q' = tally q ∧ wake q' = (if 0 <? d then S (wake q) else wake q) ∧
  ∀ wd, asteps (cfg q) wd (absq (set_dlq l q) w) (absq q' w).
Proof.
  intros Hwf q'. rewrite map_imap_id by apply replay_none.
  assert (core q' = core (set_dlq l q)) as Hc by (unfold q'; by destruct (0 <? d)).
  split_and!.
  - by apply (core_wf (set_dlq l q)); [|unfold q'; destruct (0 <? d)|].
  - framed.
  - by apply core_abs.
  - framed.
  - framed.
  - unfold q'. by destruct (0 <? d).
  - unfold q'. by destruct (0 <? d).
  - intros wd. unfold absq. by rewrite (core_abs _ _ Hc), (core_seq _ _ Hc).
Qed.

(** The two assignments that reset a dead letter. *)
Lemma replay_updates {B} now q x m (k : Queue → option B) :
  mem q !! x = Some m →
  (q ← q_update x (Msg.set_Attempts 0) q;
   q ← q_update x (Msg.set_VisibleAt now) q; k q) =
  k (set_mem (<[x := Msg.set_VisibleAt now (Msg.set_Attempts 0 m)]> (mem q)) q).
Proof.
  intros Hm. rewrite (q_update_eq _ _ _ _ Hm). simpl_bind.
  rewrite (q_update_eq _ _ (Msg.set_Attempts 0 m)) by (simpl; apply lookup_insert_eq). simpl_bind.
  unfold set_mem at 1. simpl. by rewrite insert_insert_eq.
Qed.

(** One dead letter reset and put on the ready heap. *)
Lemma replay_one_ok now x l q m :
  wf (set_dlq (x :: l) q) → mem q !! x = Some m →
  abs (set_dlq (x :: l) q) !! x = Some (Dead, Msg.erase m) →
  let m1 := Msg.set_VisibleAt now (Msg.set_Attempts 0 m) in
  ∃ q2, placeLocked x now (set_mem (<[x := m1]> (mem q)) q) = Some q2 ∧
    wf (set_dlq l q2) ∧ rest (set_dlq l q2) = rest (set_dlq l q) ∧
    abs (set_dlq l q2) =
      <[x := replay_msg now (Dead, Msg.erase m)]> (delete x (abs (set_dlq (x :: l) q))).
Proof.
  intros Hwf Hm Hax m1. destruct (inv_dlq_head q x l (wf_inv _ Hwf)) as [Hinv1 Ea1].
  set (q1 := set_mem (<[x := m1]> (mem q)) q).
  assert (inv (set_dlq l q1) [x]) as Hinv1' by (by apply (inv_set_mem (set_dlq l q) x [] m)).
  assert (abs (set_dlq l q1) = abs (set_dlq l q)) as Ea1'
    by (by apply (abs_set_mem (set_dlq l q) x [] m)).
  assert (mem (set_dlq l q1) !! x = Some m1) as Hm1 by apply lookup_insert_eq.
  destruct (placeLocked_ok now _ x m1 [] Hinv1' Hm1) as (v2 & Ev & Hinv2 & Ea2 & He2).
  rewrite placeLocked_set_dlq in Ev. apply fmap_Some in Ev as (q2 & E & ->).
  rewrite (gate_now _ _ : gate m1 now = HReady) in *.
  pose proof (he_rest _ _ _ _ He2) as Er.
  assert (abs (set_dlq l q2) = <[x := replay_msg now (Dead, Msg.erase m)]>
    (delete x (abs (set_dlq (x :: l) q)))) as Ea2' by (by rewrite Ea2, Ea1', Ea1).
  exists q2. split_and!; [done| |exact Er|done].
  split; [done|]. eapply leases_ok_ext; [apply Hwf|framed|].
  intros rc y. rewrite Ea2', insert_delete_eq. apply leased_partial_alter; [by rewrite Hax|done].
Qed.

(** The head of the dead letter list does not occur in what follows it. *)
Lemma dlq_head_fresh q x l k : inv (set_dlq (x :: l) q) [] → x ∉ take k l.
Proof.
  intros Hinv Hx. pose proof (inv_nodup _ _ Hinv) as Hnd. unfold live in Hnd. simpl in Hnd.
  rewrite app_nil_r in Hnd. do 3 (apply NoDup_app in Hnd as (_ & _ & Hnd)).
  apply NoDup_cons in Hnd as [Hnx _]. apply Hnx. rewrite <- (take_drop k l). set_solver.
Qed.

Lemma replay_loop_ok now l done q w :
  0 ≤ done → wf (set_dlq l q) →
  ∃ q' w' (k : nat) e, replay_loop l now done q w = Some (q', w', (done + Z.of_nat k, e)) ∧
    wf q' ∧ (k <= length l)%nat ∧ dlq q' = drop k l ∧ (e = None → k = length l) ∧
    abs q' = map_imap (replay_some now (take k l)) (abs (set_dlq l q)) ∧
    cfg q' = cfg q ∧ seq q' = seq q ∧ tally q' = tally q ∧
    wake q' = (if 0 <? done + Z.of_nat k then S (wake q) else wake q) ∧
    ∀ wd, clock wd now → (∀ e', (e = None → e' = None) → outcome wd e') →
      asteps (cfg q) wd (absq (set_dlq l q) w) (absq q' w').
Proof.
  revert done q w. induction l as [|x l IH]; intros d q w Hd Hwf; cbn [replay_loop].
  { destruct (replay_stop now [] d q w Hwf) as (Hwf' & Edl & Ea & Ec & Es & Et & Ewk & Hst).
    eexists _, w, 0%nat, None. rewrite Z.add_0_r. by split_and!. }
  pose proof (wf_inv _ Hwf) as Hinv.
  destruct (loose_lookup _ _ _ (proj1 (inv_dlq_head q x l Hinv))) as [m Hm]. simpl in Hm.
  rewrite Hm. simpl_bind.
  assert (abs (set_dlq (x :: l) q) !! x = Some (Dead, Msg.erase m)) as Hax.
  { apply (abs_lookup _ []); [done|]. simpl. rewrite Hm. split; [set_solver|done]. }
  destruct (AppendSync _ w) as [w1 [e|]] eqn:Ew.
  - eexists _, w1, 0%nat, (Some e). rewrite Z.add_0_r.
    destruct (replay_stop now (x :: l) d q w Hwf) as (Hwf' & Edl & Ea & Ec & Es & Et & Ewk & _).
    split_and!; try done; [simpl; lia|].
    intros wd Hck Ho. apply rtc_once. unfold absq. rewrite Ea, Es, map_imap_id by apply replay_none.
    apply (as_replay (cfg q) wd _ _ _ x (Msg.erase m) now w1 (Some e)); try done. by apply Ho.
  - rewrite (replay_updates now q x m) by done.
    destruct (replay_one_ok now x l q m Hwf Hm Hax) as (q2 & -> & Hwf2 & Er & Ea2). simpl_bind.
    destruct (IH (d + 1) q2 w1 ltac:(lia) Hwf2)
      as (q' & w' & k & e & -> & Hwf' & Hk & Edl & He & Ea & Ec & Es & Et & Ewk & Hst).
    assert (cfg q2 = cfg q) as Ec2 by framed.
    assert (seq q2 = seq q) as Es2 by framed.
    assert (wake q2 = wake q) as Ewk2 by framed.
    assert (tally q2 = tally q) as Et2 by framed.
    exists q', w', (S k), e. rewrite Ec, Es, Et, Ewk, Ec2, Es2, Ewk2, Et2.
    replace (d + 1 + Z.of_nat k) with (d + Z.of_nat (S k)) by lia.
    split_and!; try done; [simpl; lia|intros Hn; simpl; f_equal; by apply He| |].
    + rewrite Ea, Ea2. cbn [take]. apply replay_some_cons; [by eapply dlq_head_fresh|done].
    + rewrite Ec2 in Hst. intros wd Hck Ho. eapply rtc_l; [|by apply Hst].
      unfold absq. rewrite Ea2, insert_delete_eq. simpl. rewrite Es2.
      apply (as_replay (cfg q) wd _ _ _ x (Msg.erase m) now w1 None); try done. by apply Ho.
Qed.
End Replay.
