(* ===== verification/QueueReceive.v ===== *)
(** * Receive

    [tryReceive] in its four parts: picking messages off the ready heap,
    logging their leases, putting them back when a write fails, and committing.
    The messages come out in the order of the ready heap's comparator, the
    whole batch is leased or none of it. *)

From stdpp Require Import sorting.
From S2P Require Import Prelude ContainerHeap Msg Heaps LogStore Queue QueueInv QueueSpec QueueOps.

Implicit Types (q : Queue) (x y : loc) (X : list loc) (m n : Msg).

(** ** Picking *)

(** [x] may be delivered before [y]. *)
Definition before (q : Queue) (x y : loc) : Prop :=
  le (locless (mem q) (cmp_of (cfg q) HReady)) x y.

Lemma before_ext q q' x y :
  (∀ z, Msg.erase <$> mem q' !! z = Msg.erase <$> mem q !! z) → cfg q' = cfg q →
  before q' x y ↔ before q x y.
Proof. intros Hm Ec. unfold before, le. rewrite Ec. by rewrite (locless_eq (mem q) (mem q') _ y x) by apply Hm. Qed.

(** Only the messages of [l] left the ready heap, nothing else changed. *)
Record picked_from (q q' : Queue) (l : list loc) : Prop := {
  pf_rest : rest q' = rest q;
  pf_msgs y : Msg.erase <$> mem q' !! y = Msg.erase <$> mem q !! y;
  pf_perm : l ++ items (ready q') ≡ₚ items (ready q);
  pf_abs y : abs q' !! y = if decide (y ∈ l) then None else abs q !! y;
}.

Lemma pick_ok fuel max picked q X :
  inv q (picked ++ X) → (length (items (ready q)) < fuel)%nat →
  ∃ l q', pick fuel max picked q = Some (picked ++ l, q') ∧ inv q' ((picked ++ l) ++ X) ∧
    picked_from q q' l ∧ StronglySorted (before q) l ∧
    (∀ x y, x ∈ l → y ∈ items (ready q') → before q x y) ∧
    length l = Nat.min (Z.to_nat max - length picked) (length (items (ready q))) ∧
    (l = [] → q' = q).
Proof.
  revert picked q. induction fuel as [|fuel IH]; intros picked q Hinv Hf; [lia|]. cbn [pick].
  assert (Hstop : (Z.to_nat max - length picked = 0)%nat ∨ items (ready q) = [] →
    ∃ l q', Some (picked, q) = Some (picked ++ l, q') ∧ inv q' ((picked ++ l) ++ X) ∧
    picked_from q q' l ∧ StronglySorted (before q) l ∧
    (∀ x y, x ∈ l → y ∈ items (ready q') → before q x y) ∧
    length l = Nat.min (Z.to_nat max - length picked) (length (items (ready q))) ∧
    (l = [] → q' = q)).
  { intros Hz. exists [], q. rewrite app_nil_r. split_and!; try done.
    - constructor.
    - set_solver.
    - simpl. destruct Hz as [-> | ->]; simpl; lia. }
  destruct (Z.of_nat (length picked) <? max) eqn:Hmax; [|apply Hstop; lia].
  destruct (peek (ready q)) as [x|] eqn:Hpk; [|apply Hstop; right; by apply peek_None].
  clear Hstop.
  destruct (q_pop_ok HReady q x _ Hinv Hpk) as (q1 & -> & Hinv1 & Hp1 & He1). simpl_bind.
  assert (inv q1 ((picked ++ [x]) ++ X)) as Hinv1'.
  { eapply inv_proper; [|exact Hinv1]. solve_Permutation. }
  destruct (IH (picked ++ [x]) q1 Hinv1') as (l & q' & -> & Hinv' & Hpf & Hs & Hle & Hlen & _).
  { pose proof (Permutation_length Hp1) as Hl. simpl in Hl. lia. }
  pose proof (he_msgs _ _ _ _ He1) as Hm1. pose proof (he_rest _ _ _ _ He1) as Er1.
  pose proof (rest_cfg _ _ Er1) as Ec1.
  assert (∀ y, y ∈ items (ready q) → before q x y) as Hleast.
  { intros y Hy. pose proof (mh_peek_least _ _ _ _ (inv_heap _ _ Hinv HReady) Hpk Hy) as Hb.
    unfold before, le. by rewrite <- (inv_cmp _ _ Hinv HReady). }
  exists (x :: l), q'. rewrite <- !(assoc_L (++)) in *. simpl in *. split_and!; try done.
  - split.
    + by rewrite (pf_rest _ _ _ Hpf).
    + intros y. by rewrite (pf_msgs _ _ _ Hpf).
    + simpl. rewrite (pf_perm _ _ _ Hpf). done.
    + intros y. rewrite (pf_abs _ _ _ Hpf), (take_abs HReady q q1 x _ Hinv Hinv1 Hp1 He1).
      destruct (decide (y = x)) as [->|].
      * rewrite lookup_delete_eq. rewrite (decide_True (P := x ∈ x :: l)) by set_solver.
        by case_decide.
      * rewrite lookup_delete_ne by done. by rewrite (decide_ext _ (y ∈ x :: l)) by set_solver.
  - constructor.
    + eapply StronglySorted_impl; [|exact Hs]. intros a b Hab. by apply (before_ext q q1).
    + apply Forall_forall. intros y Hy. apply Hleast. rewrite <- Hp1.
      rewrite <- (pf_perm _ _ _ Hpf). set_solver.
  - intros a b [->|Ha]%elem_of_cons Hb.
    + apply Hleast. rewrite <- Hp1. rewrite <- (pf_perm _ _ _ Hpf). set_solver.
    + apply (before_ext q q1); [done..|]. by apply Hle.
  - rewrite Hlen. pose proof (Permutation_length Hp1) as Hl. rewrite length_app. simpl in *. lia.
Qed.

(** ** Putting back *)

Lemma push_back_ok l q :
  inv q l →
  ∃ q', push_back l q = Some q' ∧ inv q' [] ∧ rest q' = rest q ∧
    (∀ y, Msg.erase <$> mem q' !! y = Msg.erase <$> mem q !! y) ∧
    ∀ y, abs q' !! y = if decide (y ∈ l) then (λ m, (In HReady, Msg.erase m)) <$> mem q !! y
                       else abs q !! y.
Proof.
  revert q. induction l as [|x l IH]; intros q Hinv; simpl.
  { exists q. by split_and!. }
  destruct (q_push_ok HReady q x l Hinv) as (q1 & -> & Hinv1 & He1). simpl_bind.
  destruct (IH q1 Hinv1) as (q' & -> & Hinv' & Er & Hm & Ha).
  pose proof (he_msgs _ _ _ _ He1) as Hm1.
  destruct (loose_lookup _ _ _ Hinv) as [m Hmx].
  exists q'. split_and!; [done..| | |].
  - by rewrite Er, (he_rest _ _ _ _ He1).
  - intros y. by rewrite Hm.
  - intros y. rewrite Ha, (push_abs HReady q q1 x l (Msg.erase m)) by (done || by rewrite Hmx).
    assert ((λ m0, (In HReady, Msg.erase m0)) <$> mem q1 !! y =
      (λ m0, (In HReady, Msg.erase m0)) <$> mem q !! y) as ->.
    { change (λ m0, (In HReady, Msg.erase m0)) with (pair (In HReady) ∘ Msg.erase).
      by rewrite !option_fmap_compose, Hm1. }
    destruct (decide (y = x)) as [->|].
    + rewrite (decide_True (P := x ∈ x :: l)) by set_solver. rewrite lookup_insert_eq, Hmx.
      by case_decide.
    + rewrite lookup_insert_ne by done. by rewrite (decide_ext _ (y ∈ x :: l)) by set_solver.
Qed.

(** ** The batch of leases *)

(** The picked messages as they will be once leased; [rnd i] makes the receipt
    of the message at position [i]. *)
Fixpoint lease_batch (mem : store) (rnd : nat → list Byte.byte) (expiry : Time)
    (i : nat) (picked : list loc) : list (loc * Msg) :=
  match picked with
  | [] => []
  | x :: picked =>
      (x, lease_msg (newID (rnd i)) expiry (default Msg.zero (mem !! x)))
        :: lease_batch mem rnd expiry (S i) picked
  end.

Lemma lease_batch_fst mem rnd expiry i picked :
  (lease_batch mem rnd expiry i picked).*1 = picked.
Proof. revert i. induction picked as [|x l IH]; intros i; simpl; [done|]. by rewrite IH. Qed.

(** Lease records, and what the committing loop is told. *)
Definition lease_recs (nm : string) (batch : list (loc * Msg)) : list Rec :=
  (λ v : loc * Msg, Rec.of_msg OpLease nm v.2) <$> batch.
Definition lease_args (batch : list (loc * Msg)) : list (string * Time) :=
  (λ v : loc * Msg, (Msg.Receipt v.2, Msg.LeaseExpiry v.2)) <$> batch.

Lemma log_leases_ok {W} `{Log W} (w : W) rnd now visibility q picked i :
  (∀ x, x ∈ picked → is_Some (mem q !! x)) →
  let batch := lease_batch (mem q) rnd (Add now visibility) i picked in
  ∃ w' e, log_leases picked i now visibility rnd q w =
            Some (w', match e with None => Ok (lease_args batch) | Some e => Err e end) ∧
          log_batch (lease_recs (name q) batch) w w' e.
Proof.
  revert i w. induction picked as [|x l IH]; intros i w Hm; simpl.
  { exists w, None. split; [done|constructor]. }
  destruct (Hm x) as [m Hmx]; [set_solver|]. rewrite Hmx. simpl.
  destruct (Append _ w) as [w1 [e|]] eqn:Ew.
  { exists w1, (Some e). split; [done|]. by apply lb_err. }
  destruct (IH (S i) w1) as (w' & e & -> & Hb); [set_solver|].
  exists w', e. simpl. split; [by destruct e|]. by eapply lb_cons.
Qed.

(** ** Committing *)

(** Every entry of the batch is what its message becomes. *)
Definition batch_of (q : Queue) (batch : list (loc * Msg)) : Prop :=
  ∀ v, v ∈ batch → ∃ m, mem q !! v.1 = Some m ∧
    Msg.erase v.2 = Msg.erase (lease_msg (Msg.Receipt v.2) (Msg.LeaseExpiry v.2) m).

Lemma lease_batch_of q rnd expiry i picked :
  (∀ x, x ∈ picked → is_Some (mem q !! x)) →
  batch_of q (lease_batch (mem q) rnd expiry i picked).
Proof.
  revert i. induction picked as [|x l IH]; intros i Hm; [by intros v ?%not_elem_of_nil|].
  intros v [->|Hv]%elem_of_cons; simpl.
  - destruct (Hm x) as [m Hmx]; [set_solver|]. rewrite Hmx. eauto.
  - apply (IH (S i)); [set_solver|done].
Qed.

(** Receipts about to be handed out: pairwise distinct and unused. *)
Definition fresh_receipts (q : Queue) (batch : list (loc * Msg)) : Prop :=
  NoDup ((λ v : loc * Msg, Msg.Receipt v.2) <$> batch) ∧
  ∀ v, v ∈ batch → leases q !! Msg.Receipt v.2 = None.

(** A lease on [x] with a new receipt keeps the table exact. *)
Lemma leases_ok_insert q q' x m :
  leases_ok q → abs q !! x = None → leases q !! Msg.Receipt m = None →
  leases q' = <[Msg.Receipt m := x]> (leases q) →
  abs q' = <[x := (In HInflight, m)]> (abs q) → leases_ok q'.
Proof.
  intros Hl Hx Hr El Ea r y. rewrite El, Ea. unfold leased.
  rewrite lookup_insert_Some, (Hl r y). unfold leased. split.
  - intros [[<- <-]|[Hne (n & Hn & <-)]].
    + exists m. by rewrite lookup_insert_eq.
    + exists n. rewrite lookup_insert_ne; [done|]. intros ->. congruence.
  - intros (n & Hn & <-). apply lookup_insert_Some in Hn as [[<- [= <-]]|[Hne Hn]]; [by left|].
    right. split; [|eauto]. intros E.
    assert (leased (abs q) (Msg.Receipt m) y) as Hy by (by exists n).
    apply Hl in Hy. congruence.
Qed.

(** What [commit] leaves alone. *)
Definition commit_fixed (q : Queue) := (cfg q, seq q, dlq q, enqueued q, acked q, nacked q,
  expired q, walErr q, wake q).
#[export] Hint Unfold commit_fixed : frame.

(** One picked message leased and pushed on the in-flight heap. *)
Lemma commit_one_ok q x X m mx :
  inv q (x :: X) → leases_ok q → mem q !! x = Some m →
  Msg.erase mx = Msg.erase (lease_msg (Msg.Receipt mx) (Msg.LeaseExpiry mx) m) →
  leases q !! Msg.Receipt mx = None →
  let q1 := set_mem (<[x := lease_msg (Msg.Receipt mx) (Msg.LeaseExpiry mx) m]> (mem q)) q in
  ∃ q2 m2, q_push HInflight x q1 = Some q2 ∧ mem q2 !! x = Some m2 ∧
    Msg.erase m2 = Msg.erase mx ∧
    let q3 := incr_delivered (set_leases (<[Msg.Receipt m2 := x]> (leases q2)) q2) in
    inv q3 X ∧ leases_ok q3 ∧ leases q3 = <[Msg.Receipt mx := x]> (leases q) ∧
    abs q3 = <[x := (In HInflight, Msg.erase mx)]> (abs q) ∧
    commit_fixed q3 = commit_fixed q ∧ delivered q3 = u64 (delivered q + 1) ∧
    ∀ y, y ≠ x → Msg.erase <$> mem q3 !! y = Msg.erase <$> mem q !! y.
Proof.
  intros Hinv Hl Hm Emx Hr q1. set (m1 := lease_msg _ _ m) in *.
  assert (inv q1 (x :: X)) as Hinv1 by (by apply (inv_set_mem q x X m)).
  assert (abs q1 = abs q) as Ea1 by (by apply (abs_set_mem q x X m)).
  assert (mem q1 !! x = Some m1) as Hm1 by apply lookup_insert_eq.
  destruct (q_push_ok HInflight q1 x _ Hinv1) as (q2 & E2 & Hinv2 & He2).
  destruct (heap_effect_lookup _ _ _ _ _ _ He2 Hm1) as (m2 & Hm2 & Em2).
  rewrite <- Emx in Em2. pose proof (he_rest _ _ _ _ He2) as Er.
  exists q2, m2. rewrite (f_equal Msg.Receipt Em2 : Msg.Receipt m2 = Msg.Receipt mx).
  split_and!; [done..|]. intros q3.
  assert (core q3 = core q2) as Hc by done.
  assert (abs q3 = <[x := (In HInflight, Msg.erase mx)]> (abs q)) as Ea3.
  { rewrite (core_abs _ _ Hc), (push_abs HInflight q1 q2 x X (Msg.erase mx)), Ea1; try done.
    by rewrite Hm1, Emx. }
  assert (leases q3 = <[Msg.Receipt mx := x]> (leases q)) as El3.
  { simpl. f_equal. framed. }
  unfold rest in Er. simpl in Er. split_and!; [by apply (core_inv q2)| |done..| | |].
  - eapply (leases_ok_insert q _ x (Msg.erase mx)); [done| |done..].
    rewrite <- Ea1. by eapply abs_loose.
  - framed.
  - simpl. do 2 f_equal. congruence.
  - intros y Hy. etrans; [apply (he_msgs _ _ _ _ He2)|]. simpl. by rewrite lookup_insert_ne.
Qed.

(** The rest of a batch is untouched while its head is committed. *)
Lemma batch_of_tail q q' x mx batch :
  batch_of q ((x, mx) :: batch) → NoDup (x :: batch.*1) →
  (∀ y, y ≠ x → Msg.erase <$> mem q' !! y = Msg.erase <$> mem q !! y) → batch_of q' batch.
Proof.
  intros Hb [Hx _]%NoDup_cons Hq v Hv.
  destruct (Hb v) as (mv & Hmv & Ev); [set_solver|].
  assert (v.1 ≠ x) as Hne by (intros <-; by apply Hx, list_elem_of_fmap_2).
  pose proof (Hq _ Hne) as E. rewrite Hmv in E. apply fmap_Some in E as (mv' & Hmv' & Emv').
  exists mv'. split; [done|]. rewrite Ev.
  unfold lease_msg, Msg.erase, Msg.set_index in *. simpl in *. congruence.
Qed.

Lemma fresh_receipts_tail q q' x mx batch :
  fresh_receipts q ((x, mx) :: batch) → leases q' = <[Msg.Receipt mx := x]> (leases q) →
  fresh_receipts q' batch.
Proof.
  intros [[Hnx Hnd]%NoDup_cons Hun] El. split; [done|]. intros v Hv.
  rewrite El, lookup_insert_ne; [apply Hun; set_solver|].
  simpl. intros Ev. apply Hnx. simpl. rewrite Ev.
  by apply (list_elem_of_fmap_2 (λ v : loc * Msg, Msg.Receipt v.2)).
Qed.

Lemma commit_ok batch out q :
  inv q batch.*1 → leases_ok q → batch_of q batch → fresh_receipts q batch →
  ∃ new q', commit batch.*1 (lease_args batch) out q = Some (out ++ new, q') ∧
    inv q' [] ∧ leases_ok q' ∧ Msg.erase <$> new = (Msg.erase ∘ snd) <$> batch ∧
    abs q' = lease_all batch (abs q) ∧ commit_fixed q' = commit_fixed q ∧
    u64 (delivered q') = u64 (delivered q + Z.of_nat (length batch)).
Proof.
  revert out q. induction batch as [|[x mx] batch IH]; intros out q Hinv Hl Hb Hfr.
  { exists [], q. rewrite app_nil_r. split_and!; try done. simpl. by rewrite Z.add_0_r. }
  destruct (Hb (x, mx)) as (m & Hm & Emx); [set_solver|]. simpl in Hm, Emx, Hinv.
  change (((x, mx) :: batch).*1) with (x :: batch.*1).
  change (lease_args ((x, mx) :: batch)) with
    ((Msg.Receipt mx, Msg.LeaseExpiry mx) :: lease_args batch).
  change (list_fmap _ _ fst batch) with batch.*1 in *.
  cbn [commit]. rewrite (q_update_eq _ _ _ _ Hm). simpl_bind.
  destruct (commit_one_ok q x batch.*1 m mx) as
    (q2 & m2 & -> & Hm2 & Em2 & Hinv3 & Hl3 & El3 & Ea3 & Ef3 & Ed3 & Hsame);
    [done..|apply (proj2 Hfr (x, mx)); set_solver|].
  simpl_bind. rewrite Hm2. simpl_bind. set (q3 := incr_delivered _) in *.
  assert (NoDup (x :: batch.*1)) as Hnd.
  { pose proof (inv_nodup _ _ Hinv) as Hnd. by apply NoDup_app in Hnd as (_ & _ & ?). }
  destruct (IH (out ++ [m2]) q3 Hinv3 Hl3) as (new & q' & E & Hinv' & Hl' & En & Ea & Efx & Ed).
  - by eapply (batch_of_tail q).
  - by eapply (fresh_receipts_tail q).
  - exists (m2 :: new), q'. split_and!; try done.
    + by rewrite E, <- (assoc_L (++)).
    + cbn [fmap list_fmap]. f_equal; [simpl; congruence|exact En].
    + by rewrite Ea, Ea3.
    + by rewrite Efx.
    + rewrite Ed, Ed3. simpl length. unfold u64. rewrite Zplus_mod_idemp_l. f_equal. lia.
Qed.

(** ** The order of delivery *)

(** A location with what the abstract view says of it. *)
Definition entry (q : Queue) (x : loc) : loc * Msg :=
  (x, default Msg.zero (Msg.erase <$> mem q !! x)).

Lemma entry_Some q x m : mem q !! x = Some m → entry q x = (x, Msg.erase m).
Proof. intros E. unfold entry. by rewrite E. Qed.

Lemma ready_of_abs q X : inv q X → ready_of (abs q) ≡ₚ entry q <$> items (ready q).
Proof.
  intros Hinv. apply NoDup_Permutation.
  - apply ready_of_nodup.
  - apply (NoDup_fmap_2_strong _ _); [by intros x y _ _ [= ? _]|].
    apply (mh_nodup _ _ (inv_heap _ _ Hinv HReady)).
  - intros [x m]. rewrite ready_of_elem, list_elem_of_fmap. split.
    + intros (Hx & n & Hn & ->)%(abs_heap q X); [|done]. exists x.
      by rewrite (entry_Some _ _ _ Hn).
    + intros (y & E & Hy). destruct (inv_mem _ _ Hinv y) as [n Hn].
      { apply elem_of_app. left. apply elem_of_live. by exists (In HReady). }
      rewrite (entry_Some _ _ _ Hn) in E. injection E as -> ->. by eapply (abs_at q X HReady).
Qed.

Lemma before_entry q x y m n :
  mem q !! x = Some m → mem q !! y = Some n → 
  before q x y ↔ may_precede (cfg q) (entry q x) (entry q y).
Proof.
  intros Hm Hn. unfold before, may_precede, le, locless.
  rewrite (entry_Some _ _ _ Hm), (entry_Some _ _ _ Hn), Hm, Hn. simpl.
  rewrite <- (cmp_erase n m). done.
Qed.

(** Distinct sequence numbers leave no ties. *)
Lemma may_precede_antisym q X (u v : loc * Msg) :
  inv q X → u ∈ ready_of (abs q) → v ∈ ready_of (abs q) →
  may_precede (cfg q) u v → may_precede (cfg q) v u → u = v.
Proof.
  destruct u as [x m], v as [y n]. intros Hinv Hu Hv H1 H2.
  rewrite ready_of_elem in Hu, Hv.
  destruct (decide (Msg.Seq m = Msg.Seq n)) as [E|Hne].
  - destruct (abs_heap _ _ _ _ _ Hinv Hu) as (Hx & m' & Hm' & ->).
    destruct (abs_heap _ _ _ _ _ Hinv Hv) as (Hy & n' & Hn' & ->).
    assert (x = y) as ->; [|by simplify_eq].
    apply (inv_seq_inj _ _ Hinv x y m' n'); try done;
      apply elem_of_app; left; apply elem_of_live; by exists (In HReady).
  - unfold may_precede in *. simpl in *.
    destruct (orderBy_total (Config.Mode (cfg q)) m n Hne); congruence.
Qed.

(** What [pick] took is a prefix of the order of delivery. *)
Lemma picked_upcoming q q' l (lim : nat) :
  inv q [] → inv q' l → picked_from q q' l → StronglySorted (before q) l →
  (∀ x y, x ∈ l → y ∈ items (ready q') → before q x y) →
  length l = Nat.min lim (length (items (ready q))) →
  entry q <$> l = take lim (upcoming (cfg q) (abs q)).
Proof.
  intros Hinv Hinv' Hpf Hs Hle Hlen. pose proof (pf_perm _ _ _ Hpf) as Hp.
  set (R := merge_sort (may_precede (cfg q)) (entry q <$> items (ready q'))).
  assert (R ≡ₚ entry q <$> items (ready q')) as HR by apply (merge_sort_Permutation (may_precede _)).
  assert (Hmem : ∀ x, x ∈ l ++ items (ready q') → ∃ m, mem q !! x = Some m).
  { intros x Hx. apply (inv_mem _ _ Hinv). apply elem_of_app. left. apply elem_of_live.
    exists (In HReady). simpl. by rewrite <- Hp. }
  assert ((entry q <$> l) ++ R = upcoming (cfg q) (abs q)) as <-.
  { apply (StronglySorted_perm_eq (may_precede (cfg q))).
    - assert (∀ u, u ∈ (entry q <$> l) ++ R → u ∈ ready_of (abs q)) as Hin.
      { intros u Hu. rewrite (ready_of_abs q []), <- Hp, fmap_app by done. by rewrite HR in Hu. }
      intros u v Hu Hv. eapply may_precede_antisym; eauto.
    - apply StronglySorted_app_2.
      + intros u v Hu Hv. rewrite HR in Hv.
        apply list_elem_of_fmap in Hu as (x & -> & Hx), Hv as (y & -> & Hy).
        destruct (Hmem x) as [m Hm]; [set_solver|]. destruct (Hmem y) as [k Hk]; [set_solver|].
        rewrite <- (before_entry q x y m k) by done. by apply Hle.
      + clear -Hs Hmem. induction Hs as [|x l Hs IH Hx]; [constructor|]. 
        constructor; [apply IH; set_solver|]. apply Forall_forall. rewrite Forall_forall in Hx.
        intros u (y & -> & Hy)%list_elem_of_fmap.
        destruct (Hmem x) as [m Hm]; [set_solver|]. destruct (Hmem y) as [k Hk]; [set_solver|].
        rewrite <- (before_entry q x y m k) by done. by apply Hx.
      + apply (StronglySorted_merge_sort (may_precede _)).
    - apply upcoming_sorted.
    - rewrite upcoming_perm, (ready_of_abs q []), HR, <- fmap_app by done. by rewrite Hp. }
  pose proof (Permutation_length Hp) as Hl. rewrite length_app in Hl.
  destruct (decide (lim <= length l)%nat).
  - rewrite take_app_le by (rewrite length_fmap; lia). symmetry. apply take_ge. rewrite length_fmap. lia.
  - assert (R = []) as ->.
    { apply length_zero_iff_nil. rewrite HR, length_fmap. lia. }
    rewrite app_nil_r, take_ge by (rewrite length_fmap; lia). done.
Qed.

(** ** [tryReceive] *)

(** The receipts [rnd] makes for a batch of at most [k] are new. *)
Definition fresh_ids (q : Queue) (rnd : nat → list Byte.byte) (k : nat) : Prop :=
  (∀ i j, (i < k)%nat → (j < k)%nat → newID (rnd i) = newID (rnd j) → i = j) ∧
  ∀ i, (i < k)%nat → leases q !! newID (rnd i) = None.

(** Waiting for time to pass only ends leases. *)
Lemma advance_leases q qa now es r :
  wf q → wf qa → abs qa = map_imap (advance_msg (cfg q) now es) (abs q) →
  leases q !! r = None → leases qa !! r = None.
Proof.
  intros Hwf Hwfa Ea Hr. rewrite receipt_unknown in Hr |- * by done.
  intros x (m & Hx & Em). apply (Hr x). rewrite Ea, map_lookup_imap in Hx.
  destruct (abs q !! x) as [[P n]|] eqn:Hq; [|done]. unfold advance_msg in Hx. simpl in Hx.
  exists m. split; [|done]. rewrite Hq. destruct P as [[]|]; simpl in Hx; try by simplify_eq.
  - unfold gate in Hx. by destruct (Msg.Ready n now).
  - destruct (After (Msg.LeaseExpiry n) now); [done|]. by apply retry_place_not_inflight in Hx.
Qed.

Lemma lease_batch_length mem rnd expiry i l : length (lease_batch mem rnd expiry i l) = length l.
Proof. revert i. induction l; intros i; simpl; auto. Qed.

Lemma lease_batch_entry q rnd expiry i l :
  (λ v : loc * Msg, (v.1, Msg.erase v.2)) <$> lease_batch (mem q) rnd expiry i l =
  imap (λ j u, (u.1, lease_msg (newID (rnd (i + j)%nat)) expiry u.2)) (entry q <$> l).
Proof.
  revert i. induction l as [|x l IH]; intros i; [done|]. cbn [lease_batch fmap list_fmap imap].
  f_equal.
  - rewrite Nat.add_0_r. unfold entry. by destruct (mem q !! x).
  - rewrite (IH (S i)). apply imap_ext. intros j u _. simpl. do 4 f_equal. lia.
Qed.

Lemma lease_batch_receipt mem rnd expiry i l v :
  v ∈ lease_batch mem rnd expiry i l →
  ∃ j, (i ≤ j)%nat ∧ (j < i + length l)%nat ∧ Msg.Receipt v.2 = newID (rnd j).
Proof.
  revert i. induction l as [|x l IH]; intros i; simpl; [by intros ?%not_elem_of_nil|].
  intros [->|Hv]%elem_of_cons; [exists i; simpl; split_and!; [lia|lia|done]|].
  destruct (IH _ Hv) as (j & ? & ? & ?). exists j. split_and!; [lia|lia|done].
Qed.

Lemma fresh_receipts_batch q rnd expiry k i l :
  fresh_ids q rnd k → (i + length l <= k)%nat →
  fresh_receipts q (lease_batch (mem q) rnd expiry i l).
Proof.
  intros [Hinj Hnew] Hk. split.
  - revert i Hk. induction l as [|x l IH]; intros i Hk; simpl in *; constructor.
    + intros (v & E & Hv)%list_elem_of_fmap.
      apply lease_batch_receipt in Hv as (j & ? & ? & Ej). rewrite Ej in E.
      apply Hinj in E; lia.
    + apply IH. lia.
  - intros v Hv. apply lease_batch_receipt in Hv as (j & ? & ? & ->). apply Hnew. lia.
Qed.

Lemma lease_all_erase batch (A : amsgs) :
  lease_all ((λ v : loc * Msg, (v.1, Msg.erase v.2)) <$> batch) A = lease_all batch A.
Proof.
  unfold lease_all. revert A. induction batch as [|v batch IH]; intros A; [done|]. apply IH.
Qed.

Lemma lease_all_agree batch (A B : amsgs) :
  (∀ y, y ∉ batch.*1 → A !! y = B !! y) → lease_all batch A = lease_all batch B.
Proof.
  unfold lease_all. revert A B. induction batch as [|v batch IH]; intros A B Hag.
  - apply map_eq. intros y. apply Hag. apply not_elem_of_nil.
  - apply IH. intros y Hy. destruct (decide (v.1 = y)) as [<-|].
    + by rewrite !lookup_insert_eq.
    + rewrite !lookup_insert_ne by done. apply Hag. rewrite fmap_cons. set_solver.
Qed.

(** Leaving the ready heap does not touch the lease table. *)
Lemma picked_leases_ok q q' l :
  wf q → inv q' l → picked_from q q' l → (∀ x, x ∈ l → x ∈ items (ready q)) → leases_ok q'.
Proof.
  intros [Hinv Hl] _ Hpf Hr. eapply leases_ok_ext; [done|by apply rest_leases, (pf_rest _ _ _ Hpf)|].
  intros r x. unfold leased. rewrite (pf_abs _ _ _ Hpf). case_decide as Hx; [|done].
  destruct (inv_mem _ _ Hinv x) as [m Hm].
  { rewrite app_nil_r. apply elem_of_live. exists (In HReady). by apply Hr. }
  rewrite (abs_at q [] HReady x m Hinv (Hr _ Hx) Hm). naive_solver.
Qed.

Lemma push_back_abs q q' q'' l :
  wf q → picked_from q q' l → (∀ x, x ∈ l → x ∈ items (ready q)) →
  (∀ y, abs q'' !! y = if decide (y ∈ l) then (λ m, (In HReady, Msg.erase m)) <$> mem q' !! y
                       else abs q' !! y) →
  abs q'' = abs q.
Proof.
  intros [Hinv _] Hpf Hr Ha. apply map_eq. intros y. rewrite Ha, (pf_abs _ _ _ Hpf).
  case_decide as Hy; [|done]. destruct (inv_mem _ _ Hinv y) as [m Hm].
  { rewrite app_nil_r. apply elem_of_live. exists (In HReady). by apply Hr. }
  rewrite (abs_at q [] HReady y m Hinv (Hr _ Hy) Hm).
  pose proof (pf_msgs _ _ _ Hpf y) as E. rewrite Hm in E.
  apply fmap_Some in E as (n & -> & E). simpl. by rewrite E.
Qed.

Section TryReceive.
Context {W : Type} `{Log W}.
Implicit Type w : W.

(** An entry of the batch is a picked message with its lease fields set. *)
Lemma lease_batch_entry_of (mem : store) rnd expiry i l v :
  v ∈ lease_batch mem rnd expiry i l →
  v.1 ∈ l ∧ v.2 = lease_msg (Msg.Receipt v.2) expiry (default Msg.zero (mem !! v.1)).
Proof.
  revert i. induction l as [|x l IH]; intros i; [by intros ?%not_elem_of_nil|].
  intros [->|Hv]%elem_of_cons; [split; [set_solver|done]|].
  destruct (IH _ Hv). split; [set_solver|done].
Qed.

(** The batch is one [as_lease] step of the abstract queue. *)
Lemma lease_step q qp l expiry rnd (w w' : W) e :
  inv q [] → inv qp l → picked_from q qp l → (∀ x, x ∈ l → x ∈ items (ready q)) →
  let batch := lease_batch (mem qp) rnd expiry 0 l in
  log_batch (lease_recs (name q) batch) w w' e →
  ∀ wd, instant wd expiry → outcome wd e → astep (cfg q) wd (absq q w)
    (Ast (seq q) (match e with None => lease_all batch (abs q) | Some _ => abs q end) w').
Proof.
  intros Hinv Hinvp Hpf Hlr batch Hlog wd Hi Ho.
  unfold absq. eapply (as_lease _ _ _ _ _ batch expiry
    ((λ v : loc * Msg, Msg.Receipt v.2) <$> batch)); [done..| | | |done].
  - apply Forall_fmap, Forall_forall. intros v (j & _ & _ & Ej)%lease_batch_receipt. by exists (rnd j).
  - rewrite (lease_batch_fst _ _ _ _ _ : batch.*1 = l).
    pose proof (inv_nodup _ _ Hinvp) as Hnd. by apply NoDup_app in Hnd as (_ & _ & ?).
  - apply Forall2_fmap_r, Forall_Forall2_diag, Forall_forall.
    intros v [Hx Ev]%lease_batch_entry_of.
    destruct (inv_mem _ _ Hinvp v.1) as [m Hm]; [set_solver|].
    rewrite Hm in Ev. simpl in Ev. exists m. split; [|done].
    pose proof (pf_msgs _ _ _ Hpf v.1) as E. rewrite Hm in E. symmetry in E.
    apply fmap_Some in E as (n & Hn & ->). by apply (abs_at q [] HReady); [|apply Hlr|].
Qed.

(** Leasing the picked messages, once [now] has been accounted for. *)
Lemma lease_picked_ok q qp l vis now rnd w :
  wf q → inv qp l → picked_from q qp l → fresh_ids q rnd (length l) →
  let batch := lease_batch (mem qp) rnd (Add now vis) 0 l in
  ∃ w' e, log_leases l 0 now vis rnd qp w =
            Some (w', match e with None => Ok (lease_args batch) | Some e => Err e end) ∧
    match e with
    | Some _ => ∃ q', push_back l qp = Some q' ∧ wf q' ∧ rest q' = rest q ∧ abs q' = abs q
    | None => ∃ out q', commit l (lease_args batch) [] qp = Some (out, q') ∧ wf q' ∧
        commit_fixed q' = commit_fixed q ∧ Msg.erase <$> out = (Msg.erase ∘ snd) <$> batch ∧
        abs q' = lease_all batch (abs q) ∧
        u64 (delivered q') = u64 (delivered q + Z.of_nat (length l))
    end ∧
    ∀ wd, instant wd (Add now vis) → outcome wd e → astep (cfg q) wd (absq q w)
      (Ast (seq q) (match e with None => lease_all batch (abs q) | Some _ => abs q end) w').
Proof.
  intros Hwf Hinvp Hpf Hfr batch. pose proof (wf_inv _ Hwf) as Hinv.
  assert (∀ x, x ∈ l → x ∈ items (ready q)) as Hlr.
  { intros x Hx. rewrite <- (pf_perm _ _ _ Hpf). set_solver. }
  assert (∀ x, x ∈ l → is_Some (mem qp !! x)) as Hlm.
  { intros x Hx. apply (inv_mem _ _ Hinvp). set_solver. }
  pose proof (picked_leases_ok _ _ _ Hwf Hinvp Hpf Hlr) as Hlp.
  pose proof (pf_rest _ _ _ Hpf) as Er. pose proof (rest_cfg _ _ Er) as Ec.
  assert (batch.*1 = l) as E1 by apply lease_batch_fst.
  destruct (log_leases_ok w rnd now vis qp l 0 Hlm) as (w' & e & El & Hlog).
  fold batch in El, Hlog. exists w', e. split_and!; [done| |].
  - destruct e as [e|].
    + destruct (push_back_ok l qp Hinvp) as (q' & Epb & Hinv' & Er' & _ & Ha').
      exists q'. pose proof (push_back_abs q qp q' l Hwf Hpf Hlr Ha') as Ea.
      split_and!; [done| |by rewrite Er'|done]. split; [done|].
      eapply leases_ok_ext; [apply Hwf|rewrite (rest_leases _ _ Er'); by apply rest_leases|].
      by rewrite Ea.
    + destruct (commit_ok batch [] qp) as (out & q' & Ecm & Hinv' & Hl' & Eo & Ea & Efx & Ed).
      * by rewrite E1.
      * done.
      * by apply lease_batch_of.
      * apply (fresh_receipts_batch _ _ _ (length l)); [|lia]. destruct Hfr as [Hi Hn].
        split; [done|]. intros i Hi'. rewrite (rest_leases _ _ Er). by apply Hn.
      * rewrite E1 in Ecm. exists out, q'. split_and!; [done|by split| |done| |].
        -- rewrite Efx. framed.
        -- rewrite Ea. apply lease_all_agree. intros y Hy. rewrite E1 in Hy.
           rewrite (pf_abs _ _ _ Hpf). by rewrite decide_False.
        -- rewrite Ed. unfold batch. rewrite lease_batch_length. framed.
  - apply (lease_step q qp l (Add now vis) rnd); try done.
    unfold name in *. by rewrite <- Ec.
Qed.

(** The batch, read through the abstract view. *)
Lemma picked_handed q qp l rnd expiry :
  picked_from q qp l →
  (λ v : loc * Msg, (v.1, Msg.erase v.2)) <$> lease_batch (mem qp) rnd expiry 0 l =
  handed rnd expiry (entry q <$> l).
Proof.
  intros Hpf. rewrite lease_batch_entry. unfold handed. f_equal. apply list_fmap_ext.
  intros i x _. unfold entry. by rewrite (pf_msgs _ _ _ Hpf).
Qed.

(** Identifiers that were fresh before the clock advanced still are. *)
Lemma advance_fresh q qa now es rnd (n k : nat) :
  wf q → wf qa → fresh_ids q rnd n →
  abs qa = map_imap (advance_msg (cfg q) now es) (abs q) → (k <= n)%nat → fresh_ids qa rnd k.
Proof.
  intros Hwf Hwfa [Hinj Hnew] Ea Hk. split; [intros i j ? ?; apply Hinj; lia|].
  intros i ?. eapply (advance_leases q); [done|done|exact Ea|]. apply Hnew. lia.
Qed.

Lemma tryReceive_ok max vis now rnd q w :
  wf q → fresh_ids q rnd (Z.to_nat max) →
  ∃ qa wa es, advanceLocked now q w = Some (qa, wa) ∧ wf qa ∧
    abs qa = map_imap (advance_msg (cfg q) now es) (abs q) ∧
    (walErr qa = None → walErr q = None ∧ ∀ y, es y = None) ∧
    (enqueued qa = enqueued q ∧ acked qa = acked q) ∧
    (qa = q ∨ wake qa = S (wake q)) ∧
    let batch := next_batch (cfg q) (abs qa) max rnd (Add now vis) in
    ∃ q' w' out e, tryReceive max vis now rnd q w = Some (q', w', (out, wake q, e)) ∧
      wf q' ∧ cfg q' = cfg q ∧ seq q' = seq q ∧ tally q' = tally qa ∧ wake q' = wake qa ∧
      (∀ wd, clock wd now → instant wd (Add now 0) → instant wd (Add now vis) →
         (∀ e', (walErr qa = None → e' = None) → outcome wd e') → outcome wd e →
         asteps (cfg q) wd (absq q w) (absq q' w')) ∧
      match e with
      | Some _ => out = [] ∧ abs q' = abs qa
      | None => Msg.erase <$> out = batch.*2 ∧ abs q' = lease_all batch (abs qa) ∧
          u64 (delivered q') = u64 (delivered qa + Z.of_nat (length batch))
      end.
Proof.
  intros Hwf Hids. destruct (advanceLocked_ok now q w Hwf) as (qa & wa & es & Ead & Hwfa & Ea & Ec & Es & Hes & [Hc1 Hc2] & Hst & Hwk).
  exists qa, wa, es. split_and!; [done..| |].
  { destruct Hwk as [[-> _]|Hwk]; [by left|by right]. }
  cbv zeta. unfold tryReceive. rewrite Ead. simpl_bind.
  pose proof (wf_inv _ Hwfa) as Hinva.
  destruct (pick_ok (S (length (items (ready qa)))) max [] qa []) as
    (l & qp & -> & Hinvp & Hpf & Hs & Hle & Hlen & Hnil); [done|lia|]. simpl_bind. simpl in *.
  rewrite app_nil_r in Hinvp. rewrite Nat.sub_0_r in Hlen.
  unfold next_batch. rewrite <- Ec, <- (picked_upcoming qa qp l (Z.to_nat max)) by done.
  assert (fresh_ids qa rnd (length l)) as Hfr
    by (eapply (advance_fresh q); [done|done|done|exact Ea|lia]).
  assert (length (handed rnd (Add now vis) (entry qa <$> l)) = length l) as Hbl.
  { unfold handed. by rewrite length_imap, length_fmap. }
  case_bool_decide as Hl.
  { subst l. rewrite (Hnil eq_refl). exists qa, wa, [], None. rewrite Ec.
    split_and!; try done; [intros; by apply Hst|]. simpl. by rewrite Z.add_0_r. }
  destruct (lease_picked_ok qa qp l vis now rnd wa Hwfa Hinvp Hpf Hfr)
    as (w' & e & -> & Hres & Hst'). simpl_bind.
  assert (∀ q', seq q' = seq qa → abs q' = match e with
    | None => lease_all (lease_batch (mem qp) rnd (Add now vis) 0 l) (abs qa)
    | Some _ => abs qa end → ∀ wd, clock wd now → instant wd (Add now 0) → instant wd (Add now vis) →
    (∀ e', (walErr qa = None → e' = None) → outcome wd e') → outcome wd e →
    asteps (cfg qa) wd (absq q w) (absq q' w')) as Hrun.
  { intros q' Es' Ea' wd Hck Hi0 Hi Ho He. unfold asteps in *.
    etrans; [rewrite Ec; by apply Hst|]. apply rtc_once.
    unfold absq at 2. rewrite Es', Ea'. by apply Hst'. }
  destruct e as [e|].
  - destruct Hres as (q' & -> & Hwf' & Er' & Ea'). simpl_bind.
    exists q', w', [], (Some e). rewrite <- Ec in *. pose proof (rest_seq _ _ Er') as Es'.
    split_and!; try done; [by rewrite (rest_cfg _ _ Er')|congruence| | |by apply Hrun].
    + framed.
    + framed.
  - destruct Hres as (out & q' & -> & Hwf' & Efx & Eo & Ea' & Ed). simpl_bind.
    exists q', w', out, None.
    assert (seq q' = seq qa) as Es' by framed.
    pose proof (picked_handed qa qp l rnd (Add now vis) Hpf) as Eb.
    unfold commit_fixed in Efx.
    split_and!; try done; [congruence..|unfold tally; congruence|congruence| | | |].
    + by apply Hrun.
    + rewrite Eo, <- Eb. rewrite <- !list_fmap_compose. done.
    + by rewrite Ea', <- Eb, lease_all_erase.
    + by rewrite Ed, Hbl.
Qed.
End TryReceive.
