(* ===== verification/Calls.v ===== *)
(** * Sequences of method calls

    Every exported method of a queue holds [q.mu] from its first statement to
    its last, so concurrent clients produce some sequence of whole calls.  Here
    a call is a value, [exec] runs it, [reach] is reachability by calls, and
    [exec_ok] collects what [QueueOps.v] and [QueueReceive.v] prove of each
    method: no panic, [wf] preserved, and the abstract machine followed. *)

From S2P Require Import Prelude ContainerHeap Msg Heaps LogStore Queue QueueInv QueueSpec QueueOps QueueReceive.

Implicit Types (q : Queue) (x y : loc) (m n : Msg).

(** ** Calls and responses *)

Inductive call :=
  | CEnqueue (body : string) (priority : Z) (delay : Duration) (now : Time) (rnd : list Byte.byte)
  | CTryReceive (max : Z) (visibility : Duration) (now : Time) (rnd : nat → list Byte.byte)
  | CAck (receipt : string)
  | CExtend (receipt : string) (visibility : Duration) (now : Time)
  | CNack (receipt : string) (delay : Duration) (now : Time)
  | CTick (now : Time)
  | CReplayDLQ (now : Time).

Inductive response :=
  | RMsg (r : result Msg)
  | RMsgs (out : list Msg) (wake : nat) (e : option error)
  | RErr (e : option error)
  | RTime (r : result Time)
  | RCount (n : Z) (e : option error)
  | RUnit.

(** What is asked of the environment: the counter does not wrap, receipts do
    not collide. *)
Definition admissible (k : call) (q : Queue) : Prop :=
  match k with
  | CEnqueue _ _ _ _ _ => 0 ≤ seq q < two64 - 1
  | CTryReceive max _ _ rnd => fresh_ids q rnd (Z.to_nat max)
  | _ => True
  end.

Definition admissibleb (k : call) (q : Queue) : bool :=
  match k with
  | CEnqueue _ _ _ _ _ => (0 <=? seq q) && (seq q <? two64 - 1)
  | CTryReceive max _ _ rnd =>
      let ids := (λ i, newID (rnd i)) <$> List.seq 0 (Z.to_nat max) in
      bool_decide (NoDup ids) && forallb (λ r, bool_decide (leases q !! r = None)) ids
  | _ => true
  end.

Lemma admissibleb_ok k q : admissibleb k q = true → admissible k q.
Proof.
  destruct k; simpl; try done; [lia|]. intros [Hnd Hall]%andb_true_iff.
  apply bool_decide_eq_true in Hnd. rewrite forallb_forall in Hall. split.
  - intros i j Hi Hj E. apply (NoDup_lookup _ _ _ (newID (rnd i)) Hnd).
    + by rewrite list_lookup_fmap, lookup_seq_lt.
    + by rewrite list_lookup_fmap, lookup_seq_lt, E.
  - intros i Hi. apply (bool_decide_eq_true _). apply Hall. apply in_map_iff. exists i.
    split; [done|]. apply in_seq. lia.
Qed.

(** No write of the log failed during the call, as its caller can tell: a
    background failure is latched in [walErr], the others are returned. *)
Definition flawless (q : Queue) (k : call) (r : response) (q' : Queue) : bool :=
  match k, r with
  | CEnqueue _ priority _ _ _, RMsg (Err _) =>
      bool_decide (priority ≠ 0) && negb (Config.Priority (cfg q))
  | CTryReceive _ _ _ _, RMsgs _ _ e => bool_decide (e = None) && bool_decide (walErr q' = None)
  | CAck receipt, RErr (Some _) | CNack receipt _ _, RErr (Some _) =>
      bool_decide (leases q !! receipt = None)
  | CTick _, _ => bool_decide (walErr q' = None)
  | CReplayDLQ _, RCount _ e => bool_decide (e = None)
  | _, _ => true
  end.

(** The world [wd] is one in which the call [k] can run. *)
Definition serves (wd : world) (k : call) (q : Queue) : Prop :=
  match k with
  | CEnqueue body priority delay now rnd =>
      clock wd now ∧ admits wd (abs q) (new_msg body priority delay now rnd (seq q + 1))
  | CTryReceive _ vis now _ => clock wd now ∧ instant wd (Add now 0) ∧ instant wd (Add now vis)
  | CAck rc => ∀ x m, leases q !! rc = Some x → abs q !! x = Some (In HInflight, m) → releases wd m
  | CExtend _ vis now => instant wd (Add now (effective q vis))
  | CNack _ delay now => clock wd now ∧ instant wd (Add now delay)
  | CTick now => clock wd now ∧ instant wd (Add now 0)
  | CReplayDLQ now => clock wd now
  end.

(** A call that reports no failure has had none. *)
Definition reports (wd : world) (q : Queue) (k : call) (r : response) (q' : Queue) : Prop :=
  ∀ e, (flawless q k r q' = true → e = None) → outcome wd e.

Section Calls.
Context {W : Type} `{Log W}.
Implicit Type w : W.

Definition exec (k : call) (q : Queue) (w : W) : option (Queue * W * response) :=
  match k with
  | CEnqueue body priority delay now rnd =>
      '(q, w, r) ← Enqueue body priority delay now rnd q w; Some (q, w, RMsg r)
  | CTryReceive max visibility now rnd =>
      '(q, w, (out, wake, e)) ← tryReceive max visibility now rnd q w;
      Some (q, w, RMsgs out wake e)
  | CAck receipt => '(q, w, e) ← Ack receipt q w; Some (q, w, RErr e)
  | CExtend receipt visibility now =>
      '(q, r) ← Extend receipt visibility now q; Some (q, w, RTime r)
  | CNack receipt delay now =>
      '(q, w, e) ← Nack receipt delay now q w; Some (q, w, RErr e)
  | CTick now => '(q, w) ← Tick now q w; Some (q, w, RUnit)
  | CReplayDLQ now =>
      '(q, w, (n, e)) ← ReplayDLQ now q w; Some (q, w, RCount n e)
  end.

(** ** A new queue *)

Lemma mh_ok_empty mem less `{!Comparator less} : mh_ok mem (newMsgHeap less).
Proof.
  split; simpl; [constructor|by intros ??|done|].
  intros p c a b _ _ Hp. by rewrite lookup_nil in Hp.
Qed.

Lemma New_wf c : wf (New c).
Proof.
  unfold New. set (c' := if Config.VisibilityTimeoutMS _ <=? 0 then _ else _). split.
  - split; simpl.
    + constructor.
    + by intros x ?%not_elem_of_nil.
    + intros []; apply mh_ok_empty; apply _.
    + by intros [].
    + by intros x m ?%not_elem_of_nil.
    + by intros x y m n ?%not_elem_of_nil.
  - intros r x. simpl. rewrite lookup_empty. split; [done|].
    intros (m & Hx & _). unfold abs in Hx. simpl in Hx. rewrite map_lookup_imap in Hx.
    by rewrite lookup_empty in Hx.
Qed.

Lemma New_abs c : abs (New c) = ∅.
Proof. apply map_eq. intros x. unfold abs. by rewrite map_lookup_imap, !lookup_empty. Qed.

(** ** Every call is safe and follows the abstract machine *)

Definition call_ok (k : call) (q : Queue) (w : W) : Prop :=
  ∃ q' w' r, exec k q w = Some (q', w', r) ∧ wf q' ∧ cfg q' = cfg q ∧
    ∀ wd, serves wd k q → reports wd q k r q' → asteps (cfg q) wd (absq q w) (absq q' w').

(** A call that leaves everything as it was. *)
Lemma call_refused k q w r : wf q → exec k q w = Some (q, w, r) → call_ok k q w.
Proof. intros Hwf E. by exists q, w, r. Qed.

Lemma exec_enqueue body prio delay now rnd q w :
  wf q → 0 ≤ seq q < two64 - 1 → call_ok (CEnqueue body prio delay now rnd) q w.
Proof.
  intros Hwf Hk. destruct (decide (prio = 0 ∨ Config.Priority (cfg q) = true)) as [Ha|Ha].
  - destruct (Enqueue_ok body prio delay now rnd q w Hwf Ha Hk)
      as (q' & res & E & ? & _ & ? & _ & _ & _ & Hst & Hres).
    eexists q', _, (RMsg res). simpl. rewrite E. split_and!; [done..|].
    intros wd [Hck Had] Hr. apply rtc_once, Hst; [done..|]. apply Hr. simpl.
    destruct (AppendSync _ w) as [w1 [e|]]; [|done]. simpl in Hres. destruct Hres as [-> _].
    intros [Hp Hn]%andb_true_iff. apply bool_decide_eq_true in Hp. destruct Ha as [|Ha]; [done|].
    by rewrite Ha in Hn.
  - eapply call_refused; [done|]. simpl. by rewrite (Enqueue_disabled body prio delay now rnd q w Ha).
Qed.

Lemma exec_receive max vis now rnd q w :
  wf q → fresh_ids q rnd (Z.to_nat max) → call_ok (CTryReceive max vis now rnd) q w.
Proof.
  intros Hwf Hk. destruct (tryReceive_ok max vis now rnd q w Hwf Hk)
    as (qa & wa & es & _ & _ & _ & _ & _ & _ & q' & w' & out & e & E & ? & ? & _ & Et & _ & Hst & _).
  eexists q', w', _. simpl. rewrite E. split_and!; [done..|].
  intros wd (Hck & Hi0 & Hi) Hr. unfold reports in Hr. simpl in Hr.
  assert (walErr qa = walErr q') as Ew by framed. rewrite Ew in Hst.
  apply Hst; [done..| |].
  - intros e' He'. apply Hr. intros [_ Hn%bool_decide_eq_true]%andb_true_iff. by apply He'.
  - apply Hr. by intros [Hn%bool_decide_eq_true _]%andb_true_iff.
Qed.

Lemma exec_ack rc q w : wf q → call_ok (CAck rc) q w.
Proof.
  intros Hwf. destruct (leases q !! rc) as [x|] eqn:Hr.
  - destruct (receipt_lookup q rc x Hwf Hr) as (m & Hm & _ & _ & Hx).
    destruct (Ack_ok rc q w x m Hwf Hr Hm) as (q' & E & ? & ? & _ & _ & _ & _ & Hst & _).
    eexists q', _, _. simpl. rewrite E. split_and!; [done..|].
    intros wd Hsv Hrep. apply rtc_once, Hst; [|by eapply Hsv].
    apply Hrep. simpl. rewrite Hr. by destruct (AppendSync _ w).2.
  - eapply call_refused; [done|]. simpl. by rewrite (Ack_unknown rc q w Hr).
Qed.

Lemma exec_nack rc delay now q w : wf q → call_ok (CNack rc delay now) q w.
Proof.
  intros Hwf. destruct (leases q !! rc) as [x|] eqn:Hr.
  - destruct (receipt_lookup q rc x Hwf Hr) as (m & Hm & _).
    destruct (Nack_ok rc delay now q w x m Hwf Hr Hm)
      as (q' & w' & e & m1 & _ & _ & E & ? & ? & _ & _ & _ & _ & _ & _ & Hst).
    eexists q', _, _. simpl. rewrite E. split_and!; [done..|].
    intros wd [Hck Hi] Hrep. apply rtc_once, Hst; [done..|]. apply Hrep. simpl. rewrite Hr. by destruct e.
  - eapply call_refused; [done|]. simpl. by rewrite (Nack_unknown rc delay now q w Hr).
Qed.

Lemma exec_extend rc vis now q w : wf q → call_ok (CExtend rc vis now) q w.
Proof.
  intros Hwf. destruct (leases q !! rc) as [x|] eqn:Hr.
  - destruct (receipt_lookup q rc x Hwf Hr) as (m & Hm & _).
    destruct (Extend_ok rc vis now q w x m Hwf Hr Hm) as (q' & E & ? & Er & _ & Hst).
    eexists q', w, _. simpl. rewrite E. split_and!; [done..|by apply rest_cfg|].
    intros wd Hi _. by apply rtc_once, Hst.
  - eapply call_refused; [done|]. simpl. by rewrite (Extend_unknown rc vis now q Hr).
Qed.

Lemma exec_tick now q w : wf q → call_ok (CTick now) q w.
Proof.
  intros Hwf. destruct (advanceLocked_ok now q w Hwf) as (q' & w' & es & E & ? & _ & ? & _ & _ & _ & Hst & _).
  eexists q', w', _. simpl. unfold Tick. rewrite E. split_and!; [done..|].
  intros wd [Hck Hi] Hrep. apply Hst; [done..|]. intros e He. apply Hrep. simpl.
  intros Hn%bool_decide_eq_true. by apply He.
Qed.

Lemma exec_replay now q w : wf q → call_ok (CReplayDLQ now) q w.
Proof.
  intros Hwf. assert (set_dlq (dlq q) q = q) as Eq by (by destruct q).
  destruct (replay_loop_ok now (dlq q) 0 q w ltac:(lia)) as
    (q' & w' & n & e & E & ? & _ & _ & _ & _ & ? & _ & _ & _ & Hst); [by rewrite Eq|].
  eexists q', w', _. simpl. unfold ReplayDLQ. rewrite E. split_and!; [done..|].
  intros wd Hck Hrep. rewrite Eq in Hst. apply Hst; [done|]. intros e' He. apply Hrep. simpl.
  intros Hn%bool_decide_eq_true. by apply He.
Qed.

Lemma exec_ok k q w : wf q → admissible k q → call_ok k q w.
Proof.
  destruct k; intros Hwf Hk; simpl in Hk;
    [by apply exec_enqueue|by apply exec_receive|by apply exec_ack|by apply exec_extend
    |by apply exec_nack|by apply exec_tick|by apply exec_replay].
Qed.

(** Every call runs in the world that allows anything. *)
Lemma serves_anything k q : serves anything k q.
Proof. by destruct k; simpl. Qed.
Lemma reports_anything q k r q' : reports anything q k r q'.
Proof. done. Qed.

(** ** Reachability *)

(** [ok] selects the calls and outcomes considered. *)
Inductive reach (ok : Queue → call → response → Queue → bool) (q0 : Queue) (w0 : W) :
      Queue → W → Prop :=
  | reach_refl : reach ok q0 w0 q0 w0
  | reach_step k q w q' w' r :
      reach ok q0 w0 q w → admissible k q → exec k q w = Some (q', w', r) →
      ok q k r q' = true → reach ok q0 w0 q' w'.

Definition any (_ : Queue) (_ : call) (_ : response) (_ : Queue) : bool := true.

(** Running a list of calls; [None] also when one of them is not selected. *)
Fixpoint run (ok : Queue → call → response → Queue → bool) (ks : list call) (q : Queue) (w : W) :
    option (Queue * W * list response) :=
  match ks with
  | [] => Some (q, w, [])
  | k :: ks =>
      if admissibleb k q then
        '(q', w', r) ← exec k q w;
        if ok q k r q' then
          '(q'', w'', rs) ← run ok ks q' w'; Some (q'', w'', r :: rs)
        else None
      else None
  end.

Lemma run_reach ok q0 w0 ks q w q' w' rs :
  reach ok q0 w0 q w → run ok ks q w = Some (q', w', rs) → reach ok q0 w0 q' w'.
Proof.
  revert q w rs. induction ks as [|k ks IH]; intros q w rs Hr; simpl; [by intros [= <- <- _]|].
  destruct (admissibleb k q) eqn:Ha; [|done]. apply admissibleb_ok in Ha.
  intros ([[q1 w1] r1] & E & Hrun)%bind_Some. simpl in Hrun.
  destruct (ok q k r1 q1) eqn:Hok; [|done].
  apply bind_Some in Hrun as ([[q2 w2] rs2] & E2 & [= <- <- _]).
  eapply IH; [|exact E2]. by eapply reach_step.
Qed.

Lemma reach_wf ok c w0 q w :
  reach ok (New c) w0 q w →
  wf q ∧ cfg q = cfg (New c) ∧ asteps (cfg (New c)) anything (absq (New c) w0) (absq q w).
Proof.
  induction 1 as [|k q w q' w' r _ (Hwf & Ec & Hst) Hk E _].
  - split_and!; [apply New_wf|done..].
  - destruct (exec_ok k q w Hwf Hk) as (q1 & w1 & r1 & E1 & Hwf1 & Ec1 & Hst1).
    rewrite E in E1. simplify_eq. split_and!; [done|congruence|].
    unfold asteps in *. etrans; [done|]. rewrite <- Ec.
    apply Hst1; [apply serves_anything|apply reports_anything].
Qed.
End Calls.
