(* ===== verification/Effects.v ===== *)
(** * The effect of one call, message by message

    [effect q k r q'] lists what a call can do to the abstract view, the
    ledger and the wake channel, one constructor per outcome; [exec_effect]
    shows that it always does one of these.  The history properties (leases are
    exclusive, nothing is lost, no wake-up is missed, attempts are bounded) are
    inductions over runs that only look at [effect]. *)

From S2P Require Import Prelude ContainerHeap Msg Heaps LogStore Queue QueueInv QueueSpec QueueOps QueueReceive Calls.

Implicit Types (q : Queue) (x y : loc) (m n : Msg).

(** The messages a response hands out. *)
Definition deliveries (r : response) : list Msg :=
  match r with RMsgs out _ _ => out | _ => [] end.

(** A [Nack] of a live lease that reported an error. *)
Definition failed_nack (q : Queue) (k : call) (r : response) : bool :=
  match k, r with
  | CNack rc _ _, RErr (Some _) => negb (bool_decide (leases q !! rc = None))
  | _, _ => false
  end.

(** What the clock does between [q] and [q']. *)
Record advanced (now : Time) (es : loc → option error) (q q' : Queue) : Prop := {
  ad_abs : abs q' = map_imap (advance_msg (cfg q) now es) (abs q);
  ad_err : walErr q' = None → walErr q = None ∧ ∀ y, es y = None;
  ad_enqueued : enqueued q' = enqueued q;
  ad_acked : acked q' = acked q;
  ad_wake : q' = q ∨ wake q' = S (wake q);
}.

Inductive effect (q : Queue) : call → response → Queue → Prop :=
  | ef_skip k r q' :
      abs q' = abs q → tally q' = tally q → wake q' = wake q → deliveries r = [] →
      failed_nack q k r = false → effect q k r q'
  | ef_enqueue body priority delay now rnd r q' x m :
      abs q !! x = None → fresh_msg m (seq q + 1) now →
      abs q' = <[x := (In (gate m now), m)]> (abs q) →
      enqueued q' = u64 (enqueued q + 1) → acked q' = acked q → walErr q' = walErr q →
      wake q' = S (wake q) → deliveries r = [] →
      effect q (CEnqueue body priority delay now rnd) r q'
  | ef_tick now es q' : advanced now es q q' → effect q (CTick now) RUnit q'
  | ef_receive max vis now rnd es qa q' out batch e :
      wf qa → advanced now es q qa →
      batch = next_batch (cfg q) (abs qa) max rnd (Add now vis) →
      tally q' = tally qa → wake q' = wake qa →
      match e with
      | Some _ => out = [] ∧ abs q' = abs qa
      | None => Msg.erase <$> out = batch.*2 ∧ abs q' = lease_all batch (abs qa)
      end →
      effect q (CTryReceive max vis now rnd) (RMsgs out (wake q) e) q'
  | ef_ack rc q' x m :
      leases q !! rc = Some x → abs q !! x = Some (In HInflight, m) → Msg.Receipt m = rc →
      abs q' = delete x (abs q) → enqueued q' = enqueued q → acked q' = u64 (acked q + 1) →
      walErr q' = walErr q → wake q' = wake q → effect q (CAck rc) (RErr None) q'
  | ef_extend rc vis now q' x m t :
      leases q !! rc = Some x → abs q !! x = Some (In HInflight, m) → Msg.Receipt m = rc →
      abs q' = <[x := (In HInflight, Msg.set_LeaseExpiry t m)]> (abs q) →
      tally q' = tally q → wake q' = wake q →
      effect q (CExtend rc vis now) (RTime (Ok t)) q'
  | ef_nack rc delay now q' x m e :
      leases q !! rc = Some x → abs q !! x = Some (In HInflight, m) → Msg.Receipt m = rc →
      abs q' = partial_alter (λ _, retry_place (cfg q) (unlease m) now delay e) x (abs q) →
      tally q' = tally q → wake q' = (match e with Some _ => wake q | None => S (wake q) end) →
      effect q (CNack rc delay now) (RErr e) q'
  | ef_replay now q' (k : nat) (cnt : Z) e :
      (k <= length (dlq q))%nat →
      abs q' = map_imap (replay_some now (take k (dlq q))) (abs q) →
      tally q' = tally q →
      wake q' = (if 0 <? Z.of_nat k then S (wake q) else wake q) →
      effect q (CReplayDLQ now) (RCount cnt e) q'.

Lemma exec_effect {W} `{Log W} k q (w : W) q' w' r :
  wf q → admissible k q → exec k q w = Some (q', w', r) → effect q k r q'.
Proof.
  intros Hwf Hk. destruct k as [body prio delay now rnd|max vis now rnd|rc|rc vis now|rc delay now|now|now];
    simpl in *.
  - destruct (decide (prio = 0 ∨ Config.Priority (cfg q) = true)) as [Ha|Ha].
    + destruct (Enqueue_ok body prio delay now rnd q w Hwf Ha Hk)
        as (q1 & res & -> & _ & Hx & _ & Es & Eack & Ewe & _ & Hres). simpl_bind.
      intros [= <- _ <-]. destruct (AppendSync _ w) as [w1 [e|]]; simpl in Hres.
      * destruct Hres as (-> & Ea & Een & Ewk). apply ef_skip; try done.
        framed.
      * destruct Hres as (m' & -> & _ & Ea & Een & Ewk). eapply ef_enqueue; [exact Hx| |exact Ea|done..]. by split_and!.
    + rewrite (Enqueue_disabled body prio delay now rnd q w Ha). simpl_bind.
      intros [= <- _ <-]. by apply ef_skip.
  - destruct (tryReceive_ok max vis now rnd q w Hwf Hk)
      as (qa & wa & es & _ & Hwfa & Ea & Hes & [Hc1 Hc2] & Hwk & q1 & w1 & out & e & -> & _ & _ & _ &
          Et & Ewk & _ & Hout). simpl_bind.
    intros [= <- _ <-]. eapply ef_receive; [exact Hwfa|by split|done|done|done|]. 
    destruct e; [done|]. by destruct Hout as (? & ? & _).
  - destruct (leases q !! rc) as [x|] eqn:Hr.
    + destruct (receipt_lookup q rc x Hwf Hr) as (m & Hm & _ & Em & Hx).
      destruct (Ack_ok rc q w x m Hwf Hr Hm) as (q1 & -> & _ & _ & _ & Ewk & Een & Ewe & _ & Hres).
      simpl_bind. intros [= <- _ <-]. destruct (AppendSync _ w) as [w1 [e|]]; simpl in *.
      * subst q1. by apply ef_skip.
      * destruct Hres as (Ea & _ & Eack). by eapply ef_ack.
    + rewrite (Ack_unknown rc q w Hr). simpl_bind. intros [= <- _ <-]. by apply ef_skip.
  - destruct (leases q !! rc) as [x|] eqn:Hr.
    + destruct (receipt_lookup q rc x Hwf Hr) as (m & Hm & _ & Em & Hx).
      destruct (Extend_ok rc vis now q w x m Hwf Hr Hm) as (q1 & -> & _ & Er & Ea & _). simpl_bind.
      intros [= <- _ <-]. eapply ef_extend; [done..| |by apply rest_tally|by apply rest_wake]. done.
    + rewrite (Extend_unknown rc vis now q Hr). simpl_bind. intros [= <- _ <-]. by apply ef_skip.
  - destruct (leases q !! rc) as [x|] eqn:Hr.
    + destruct (receipt_lookup q rc x Hwf Hr) as (m & Hm & _ & Em & Hx).
      destruct (Nack_ok rc delay now q w x m Hwf Hr Hm)
        as (q1 & w1 & e & m1 & _ & _ & -> & _ & _ & _ & Ea & _ & _ & Et & Ewk & _). simpl_bind.
      intros [= <- _ <-]. by eapply ef_nack.
    + rewrite (Nack_unknown rc delay now q w Hr). simpl_bind. intros [= <- _ <-].
      apply ef_skip; try done. simpl. by rewrite bool_decide_true.
  - destruct (advanceLocked_ok now q w Hwf)
      as (q1 & w1 & es & E & _ & Ea & _ & _ & Hes & [Hc1 Hc2] & _ & Hwk).
    unfold Tick. rewrite E. simpl_bind. intros [= <- _ <-]. apply (ef_tick _ _ es).
    split; try done. destruct Hwk as [[? _]|?]; auto.
  - assert (set_dlq (dlq q) q = q) as Eq by (by destruct q).
    destruct (replay_loop_ok now (dlq q) 0 q w ltac:(lia)) as
      (q1 & w1 & n & e & E & _ & Hn & _ & _ & Ea & _ & _ & Et & Ewk & _); [by rewrite Eq|].
    unfold ReplayDLQ. rewrite E. simpl_bind. rewrite Eq in Ea. intros [= <- _ <-].
    by apply (ef_replay _ _ _ n).
Qed.
