(* ===== verification/History.v ===== *)
(** * What holds along any sequence of calls

    Consequences of [effect]: a running lease is exclusive, no call but [Ack]
    removes a message unless a write failed, the counters balance, a message
    that becomes ready wakes the waiting receivers, and every per-message
    invariant that the elementary transitions preserve holds for all messages. *)

From S2P Require Import Prelude ContainerHeap Msg Heaps LogStore Queue QueueInv QueueSpec QueueOps QueueReceive Calls Effects.

Implicit Types (q : Queue) (x y : loc) (m n : Msg).

(** ** The batch handed out by [tryReceive] *)

Lemma next_batch_elem c A max rnd expiry v :
  v ∈ next_batch c A max rnd expiry →
  ∃ i m, A !! v.1 = Some (In HReady, m) ∧ v.2 = lease_msg (newID (rnd i)) expiry m.
Proof.
  unfold next_batch, handed. intros (i & [x m] & -> & Hi)%elem_of_lookup_imap_1. exists i, m.
  split; [|done]. apply ready_of_elem. rewrite <- (upcoming_perm c A).
  apply list_elem_of_lookup_2 in Hi. simpl.
  rewrite <- (take_drop (Z.to_nat max) (upcoming c A)). set_solver.
Qed.

Lemma handed_fst rnd expiry us : (handed rnd expiry us).*1 = us.*1.
Proof.
  unfold handed. revert rnd. induction us as [|u us IH]; intros rnd; [done|].
  cbn [imap fmap list_fmap]. f_equal. apply (IH (λ i, rnd (S i))).
Qed.

Lemma upcoming_fst_nodup c (A : amsgs) : NoDup (upcoming c A).*1.
Proof.
  rewrite upcoming_perm. apply NoDup_fmap_2_strong; [|apply ready_of_nodup].
  intros [x m] [y n] Hx Hy E. simpl in E. subst y. rewrite ready_of_elem in Hx, Hy. congruence.
Qed.

Lemma next_batch_nodup c A max rnd expiry : NoDup (next_batch c A max rnd expiry).*1.
Proof.
  unfold next_batch. rewrite handed_fst. pose proof (upcoming_fst_nodup c A) as Hnd.
  rewrite <- (take_drop (Z.to_nat max) (upcoming c A)), fmap_app in Hnd.
  by apply NoDup_app in Hnd as (? & _ & _).
Qed.

Lemma lease_all_notin batch (A : amsgs) y : y ∉ batch.*1 → lease_all batch A !! y = A !! y.
Proof.
  unfold lease_all. revert A. induction batch as [|v batch IH]; intros A Hy; [done|].
  rewrite fmap_cons in Hy. simpl. rewrite IH by set_solver. apply lookup_insert_ne. set_solver.
Qed.

Lemma lease_all_in batch (A : amsgs) v :
  NoDup batch.*1 → v ∈ batch → lease_all batch A !! v.1 = Some (In HInflight, Msg.erase v.2).
Proof.
  unfold lease_all. revert A. induction batch as [|u batch IH]; intros A Hnd Hv;
    [by apply not_elem_of_nil in Hv|].
  rewrite fmap_cons in Hnd. apply NoDup_cons in Hnd as [Hu Hnd].
  apply elem_of_cons in Hv as [->|Hv]; [|by apply IH].
  simpl. fold (lease_all batch (<[u.1:=(In HInflight, Msg.erase u.2)]> A)).
  rewrite lease_all_notin by done. apply lookup_insert_eq.
Qed.

(** Every message after the batch: leased in it, or as before. *)
Lemma lease_all_cases c (A : amsgs) max rnd expiry y v :
  lease_all (next_batch c A max rnd expiry) A !! y = Some v →
  A !! y = Some v ∨
  ∃ i m, A !! y = Some (In HReady, m) ∧ v = (In HInflight, Msg.erase (lease_msg (newID (rnd i)) expiry m)).
Proof.
  intros Hy. destruct (decide (y ∈ (next_batch c A max rnd expiry).*1)) as [Hin|Hin].
  - right. apply list_elem_of_fmap in Hin as (u & -> & Hu).
    rewrite (lease_all_in _ _ u) in Hy by (done || apply next_batch_nodup).
    destruct (next_batch_elem _ _ _ _ _ _ Hu) as (i & m & Hm & E). exists i, m.
    split; [done|]. rewrite E in Hy. by simplify_eq.
  - left. by rewrite lease_all_notin in Hy.
Qed.

(** [out] against the batch. *)
Lemma delivered_elem (out : list Msg) (batch : list (loc * Msg)) n :
  Msg.erase <$> out = batch.*2 → n ∈ out → ∃ v, v ∈ batch ∧ Msg.erase n = v.2.
Proof.
  intros E Hn. assert (Msg.erase n ∈ batch.*2) as Hin by (rewrite <- E; by apply list_elem_of_fmap_2).
  apply list_elem_of_fmap in Hin as (v & ? & ?). eauto.
Qed.

(** ** Exclusive leases *)

(** The clock a call reads, and the receipt it presents. *)
Definition clock_of (k : call) : option Time :=
  match k with CTick now | CTryReceive _ _ now _ => Some now | _ => None end.
Definition receipt_of (k : call) : option string :=
  match k with CAck r | CExtend r _ _ | CNack r _ _ => Some r | _ => None end.

(** [k] neither presents the receipt of [m] nor comes after its expiry. *)
Definition quiet (m : Msg) (k : call) : bool :=
  negb (bool_decide (receipt_of k = Some (Msg.Receipt m))) &&
  match clock_of k with Some now => After (Msg.LeaseExpiry m) now | None => true end.

Lemma advanced_leased now es q qa x m :
  advanced now es q qa → abs q !! x = Some (In HInflight, m) → After (Msg.LeaseExpiry m) now = true →
  abs qa !! x = Some (In HInflight, m).
Proof.
  intros [-> _ _ _ _] Hx Ha. rewrite map_lookup_imap, Hx. unfold advance_msg. simpl. by rewrite Ha.
Qed.

Lemma abs_seq_inj q X x y P P' m n :
  inv q X → abs q !! x = Some (P, m) → abs q !! y = Some (P', n) → Msg.Seq m = Msg.Seq n → x = y.
Proof.
  intros Hinv Hx Hy E. apply (abs_lookup q X) in Hx as [HP Hx], Hy as [HP' Hy]; [|done..].
  apply fmap_Some in Hx as (m' & Hm & ->), Hy as (n' & Hn & ->).
  apply (inv_seq_inj _ _ Hinv x y m' n'); try done;
    apply elem_of_app; left; apply elem_of_live; eauto.
Qed.

Lemma dlq_not_inflight q X x m : inv q X → abs q !! x = Some (In HInflight, m) → x ∉ dlq q.
Proof.
  intros Hinv [Hx _]%(abs_lookup q X) Hd; [|done].
  by pose proof (at_place_inj q X _ Dead x Hinv Hx Hd).
Qed.

Lemma effect_leased k q q' r x m :
  wf q → effect q k r q' → abs q !! x = Some (In HInflight, m) → quiet m k = true →
  abs q' !! x = Some (In HInflight, m) ∧ ∀ n, n ∈ deliveries r → Msg.Seq n ≠ Msg.Seq m.
Proof.
  intros Hwf Hef Hx [Hrc Hcl]%andb_true_iff.
  apply negb_true_iff, bool_decide_eq_false in Hrc.
  assert (∀ rc y n, leases q !! rc = Some y → abs q !! y = Some (In HInflight, n) →
    Msg.Receipt n = rc → receipt_of k = Some rc → y ≠ x) as Hne by (intros; congruence).
  destruct Hef as [k r q' Ea _ _ Ed _|body prio delay now rnd r q' y n Hy _ Ea _ _ _ _ Ed|now es q' Had
    |max vis now rnd es qa q' out batch e Hwfa Had Eb _ _ Hout|rc q' y n Hr Hy Er Ea _ _ _ _
    |rc vis now q' y n t Hr Hy Er Ea _ _|rc delay now q' y n e Hr Hy Er Ea _ _|now q' j cnt e Hj Ea _ _];
    simpl in *; try (split; [|by intros ? ?%not_elem_of_nil]); try rewrite Ea.
  - rewrite Ed. split; [done|]. by intros ? ?%not_elem_of_nil.
  - rewrite Ed. split; [|by intros ? ?%not_elem_of_nil].
    rewrite lookup_insert_ne; [done|]. intros ->. congruence.
  - by eapply advanced_leased.
  - pose proof (advanced_leased _ _ _ _ _ _ Had Hx Hcl) as Hxa.
    destruct e as [e|]; [destruct Hout as [-> ->]; split; [done|by intros ? ?%not_elem_of_nil]|].
    destruct Hout as [Eout Ea]. subst batch. split.
    + rewrite Ea, lease_all_notin; [done|]. intros (v & Ev & Hv)%list_elem_of_fmap.
      destruct (next_batch_elem _ _ _ _ _ _ Hv) as (i & n & Hn & _). congruence.
    + intros n Hn E. destruct (delivered_elem _ _ _ Eout Hn) as (v & Hv & Ev).
      destruct (next_batch_elem _ _ _ _ _ _ Hv) as (i & n' & Hn' & E2).
      assert (v.1 = x) as Hvx; [|congruence].
      eapply (abs_seq_inj qa []); [apply Hwfa|done|done|].
      rewrite <- E. change (Msg.Seq n) with (Msg.Seq (Msg.erase n)). by rewrite Ev, E2.
  - rewrite lookup_delete_ne; [done|]. by eapply Hne.
  - rewrite lookup_insert_ne; [done|]. by eapply Hne.
  - rewrite lookup_partial_alter_ne; [done|]. by eapply Hne.
  - rewrite map_lookup_imap, Hx. simpl. unfold replay_some. rewrite decide_False; [done|].
    intros Hd%elem_of_take. eapply (dlq_not_inflight q); [apply Hwf|exact Hx|].
    destruct Hd as (i & Hi & _). by eapply list_elem_of_lookup_2.
Qed.

(** ** Wake-ups *)

Definition is_ready (A : amsgs) (x : loc) : Prop := ∃ m, A !! x = Some (In HReady, m).

Lemma advanced_wake_mono now es q qa : advanced now es q qa → (wake q <= wake qa)%nat.
Proof. intros [_ _ _ _ [->| ->]]; lia. Qed.

(** The generation only grows, and it does grow when a message becomes ready,
    unless a [Nack] failed on its write. *)
Lemma effect_wake k q q' r :
  effect q k r q' →
  (wake q <= wake q')%nat ∧
  (failed_nack q k r = false → (∃ x, is_ready (abs q') x ∧ ¬ is_ready (abs q) x) →
   (wake q < wake q')%nat).
Proof.
  intros [k' r' q1 Ea _ Ewk Ed _|body prio delay now rnd r' q1 y n Hy _ Ea _ _ _ Ewk Ed|now es q1 Had
    |max vis now rnd es qa q1 out batch e Hwfa Had Eb _ Ewk Hout|rc q1 y n Hr Hy Er Ea _ _ _ Ewk
    |rc vis now q1 y n t Hr Hy Er Ea _ Ewk|rc delay now q1 y n e Hr Hy Er Ea _ Ewk|now q1 j cnt e Hj Ea _ Ewk];
    simpl in *.
  - rewrite Ewk. split; [done|]. intros _ (x & Hx & Hnx). by rewrite Ea in Hx.
  - lia.
  - pose proof (advanced_wake_mono _ _ _ _ Had). split; [done|].
    intros _ (x & Hx & Hnx). destruct Had as [_ _ _ _ [->|]]; [done|lia].
  - pose proof (advanced_wake_mono _ _ _ _ Had). split; [lia|].
    intros _ (x & [m Hx] & Hnx). destruct Had as [_ _ _ _ [->|]]; [|lia]. exfalso. apply Hnx.
    destruct e as [e|]; [destruct Hout as [_ Ea]; rewrite Ea in Hx; by exists m|].
    destruct Hout as [_ Ea]. rewrite Ea, Eb in Hx.
    apply lease_all_cases in Hx as [Hx|(i & n & Hx & _)]; by eexists.
  - rewrite Ewk. split; [done|]. intros _ (x & [m Hx] & Hnx). exfalso. apply Hnx.
    rewrite Ea in Hx. apply lookup_delete_Some in Hx as [_ Hx]. by exists m.
  - rewrite Ewk. split; [done|]. intros _ (x & [m Hx] & Hnx). exfalso. apply Hnx.
    rewrite Ea in Hx. apply lookup_insert_Some in Hx as [[_ [=]]|[_ Hx]]. by exists m.
  - destruct e; [|rewrite Ewk; split; intros; lia].
    rewrite Ewk. split; [done|]. rewrite bool_decide_false by congruence. done.
  - destruct (0 <? Z.of_nat j) eqn:Hj0; [rewrite Ewk; split; intros; lia|].
    assert (j = 0%nat) as -> by lia. rewrite Ewk. split; [done|].
    intros _ (x & [m Hx] & Hnx). exfalso. apply Hnx. rewrite Ea, map_lookup_imap in Hx.
    destruct (abs q !! x) as [v|] eqn:E; [|done]. simpl in Hx. unfold replay_some in Hx.
    rewrite decide_False in Hx by set_solver. exists m. congruence.
Qed.

(** ** Nothing is lost *)

(** No write failed behind the caller's back. *)
Definition clean (q : Queue) (k : call) (r : response) (q' : Queue) : bool :=
  negb (failed_nack q k r) && bool_decide (walErr q' = None).

Lemma dom_map_imap_full (f : loc → place * Msg → option (place * Msg)) (A : amsgs) :
  (∀ x v, A !! x = Some v → is_Some (f x v)) → dom (map_imap f A) = dom A.
Proof.
  intros Hf. apply set_eq. intros x. rewrite !elem_of_dom, map_lookup_imap. split.
  - intros [v Hv]. destruct (A !! x); eauto.
  - intros [v Hv]. rewrite Hv. simpl. by apply Hf.
Qed.

Lemma retry_place_kept c m now delay : is_Some (retry_place c m now delay None).
Proof. unfold retry_place. case_match; eauto. Qed.

Lemma advanced_dom now es q qa :
  advanced now es q qa → walErr qa = None → dom (abs qa) = dom (abs q) ∧ walErr q = None.
Proof.
  intros [Ea He _ _ _] Hn. destruct (He Hn) as [Hq Hes]. split; [|done]. rewrite Ea.
  apply dom_map_imap_full. intros x v _. unfold advance_msg.
  destruct (open_msg now v) as [[[]|] m]; simpl; eauto. rewrite Hes.
  case_match; [eauto|]. apply retry_place_kept.
Qed.

Lemma lease_all_dom c (A : amsgs) max rnd expiry :
  dom (lease_all (next_batch c A max rnd expiry) A) = dom A.
Proof.
  apply set_eq. intros y. rewrite !elem_of_dom. split.
  - intros [v Hy]. apply lease_all_cases in Hy as [?|(i & m & ? & _)]; eauto.
  - intros [v Hy]. destruct (decide (y ∈ (next_batch c A max rnd expiry).*1)) as [Hin|Hin].
    + apply list_elem_of_fmap in Hin as (u & -> & Hu).
      rewrite (lease_all_in _ _ u) by (done || apply next_batch_nodup). eauto.
    + rewrite lease_all_notin by done. eauto.
Qed.

(** The messages after a call: the same ones, one more, or the acknowledged
    one less; with the counters to match. *)
Lemma effect_dom k q q' r :
  wf q → effect q k r q' → clean q k r q' = true →
  walErr q = None ∧
  ((dom (abs q') = dom (abs q) ∧ enqueued q' = enqueued q ∧ acked q' = acked q) ∨
   (∃ x, (x ∉ dom (abs q)) ∧ dom (abs q') = {[x]} ∪ dom (abs q) ∧
      enqueued q' = u64 (enqueued q + 1) ∧ acked q' = acked q) ∨
   (∃ x rc, k = CAck rc ∧ leases q !! rc = Some x ∧ x ∈ dom (abs q) ∧
      dom (abs q') = dom (abs q) ∖ {[x]} ∧ enqueued q' = enqueued q ∧ acked q' = u64 (acked q + 1))).
Proof.
  intros Hwf Hef [Hnf%negb_true_iff He%bool_decide_eq_true]%andb_true_iff.
  destruct Hef as [k r q' Ea Et _ Ed _|body prio delay now rnd r q' y n Hy _ Ea Een Eac Ewe _ Ed|now es q' Had
    |max vis now rnd es qa q' out batch e Hwfa Had Eb Et _ Hout|rc q' y n Hr Hy Er Ea Een Eac Ewe _
    |rc vis now q' y n t Hr Hy Er Ea Et _|rc delay now q' y n e Hr Hy Er Ea Et _|now q' j cnt e Hj Ea Et _];
    simpl in *; unfold tally in *.
  - split; [congruence|]. left. rewrite Ea. split_and!; congruence.
  - split; [congruence|]. right. left. exists y. rewrite Ea, dom_insert_L. split_and!; [|done..].
    by apply not_elem_of_dom.
  - destruct (advanced_dom _ _ _ _ Had He) as [Ed Eq]. split; [done|]. left. rewrite Ed.
    destruct Had. done.
  - assert (walErr qa = None) as Hea by congruence.
    destruct (advanced_dom _ _ _ _ Had Hea) as [Ed Eq]. split; [done|]. left. rewrite <- Ed.
    destruct Had. split_and!; [|congruence..]. destruct e; destruct Hout as [_ Ea]; rewrite Ea; [done|].
    rewrite Eb. apply lease_all_dom.
  - split; [congruence|]. right. right. exists y, rc. rewrite Ea, dom_delete_L. split_and!; try done.
    by apply elem_of_dom_2 in Hy.
  - split; [congruence|]. left. rewrite Ea, dom_insert_L. apply elem_of_dom_2 in Hy.
    split_and!; [set_solver|congruence..].
  - destruct e as [e|]; [by rewrite bool_decide_false in Hnf by congruence|].
    split; [congruence|]. left. split_and!; [|congruence..]. rewrite Ea.
    apply set_eq. intros x. rewrite !elem_of_dom. destruct (decide (x = y)) as [->|].
    + rewrite lookup_partial_alter_eq, Hy. split; [eauto|]. intros _. apply retry_place_kept.
    + by rewrite lookup_partial_alter_ne.
  - split; [congruence|]. left. split_and!; [|congruence..]. rewrite Ea.
    apply dom_map_imap_full. unfold replay_some. eauto.
Qed.

(** Enqueued minus acknowledged is what the queue holds, modulo 2^64. *)
Definition balanced (q : Queue) : Prop :=
  u64 (enqueued q - acked q) = u64 (Z.of_nat (size (abs q))).

Lemma effect_balanced k q q' r :
  wf q → effect q k r q' → clean q k r q' = true → balanced q → balanced q'.
Proof.
  intros Hwf Hef Hcl Hb. destruct (effect_dom _ _ _ _ Hwf Hef Hcl) as [_ Hd].
  unfold balanced in *. rewrite <- !size_dom in *. unfold u64 in *.
  destruct Hd as [(-> & -> & ->)|[(x & Hx & -> & -> & ->)|(x & rc & _ & _ & Hx & -> & -> & ->)]];
    [done|..].
  - rewrite size_union by set_solver. rewrite size_singleton.
    rewrite Zminus_mod_idemp_l. replace (enqueued q + 1 - acked q) with (enqueued q - acked q + 1) by lia.
    rewrite <- Zplus_mod_idemp_l, Hb, Zplus_mod_idemp_l. f_equal. lia.
  - assert (size (dom (abs q)) = S (size (dom (abs q) ∖ {[x]} : gset loc))) as E.
    { rewrite (union_difference_singleton_L x (dom (abs q))) at 1 by done.
      rewrite size_union by set_solver. rewrite size_singleton. lia. }
    rewrite Zminus_mod_idemp_r. replace (enqueued q - (acked q + 1)) with (enqueued q - acked q - 1) by lia.
    rewrite <- Zminus_mod_idemp_l, Hb, Zminus_mod_idemp_l, E. f_equal. lia.
Qed.

(** ** Invariants of single messages *)

(** [P] is preserved by each elementary transition of a message; [lossy] says
    whether a failed write is one. *)
Record closed (c : Config) (lossy : bool) (P : place * Msg → Prop) : Prop := {
  cl_new m s now : fresh_msg m s now → P (In (gate m now), m);
  cl_open m : P (In HDelayed, m) → P (In HReady, m);
  cl_retry m now delay e v :
    (lossy = false → e = None) → P (In HInflight, m) →
    retry_place c (unlease m) now delay e = Some v → P v;
  cl_lease m receipt expiry :
    P (In HReady, m) → P (In HInflight, Msg.erase (lease_msg receipt expiry m));
  cl_extend m t : P (In HInflight, m) → P (In HInflight, Msg.set_LeaseExpiry t m);
  cl_replay m now : P (Dead, m) → P (replay_msg now (Dead, m));
}.

Definition all_msgs (P : place * Msg → Prop) (A : amsgs) : Prop := ∀ x v, A !! x = Some v → P v.

Section Closed.
Context (c : Config) (lossy : bool) (P : place * Msg → Prop) (HP : closed c lossy P).

Lemma advanced_closed now es q qa :
  cfg q = c → advanced now es q qa → (lossy = false → ∀ y, es y = None) →
  all_msgs P (abs q) → all_msgs P (abs qa).
Proof.
  intros Ec [Ea _ _ _ _] Hes Hq x v Hv. rewrite Ea, map_lookup_imap in Hv.
  destruct (abs q !! x) as [u|] eqn:Hu; [|done]. pose proof (Hq _ _ Hu) as Hpu.
  unfold advance_msg in Hv. simpl in Hv. destruct u as [[[]|] m]; simpl in Hv; try by simplify_eq.
  - unfold gate in Hv. destruct (Msg.Ready m now); simplify_eq; [by apply (cl_open _ _ _ HP)|done].
  - destruct (After (Msg.LeaseExpiry m) now); [by simplify_eq|]. rewrite Ec in Hv.
    eapply (cl_retry _ _ _ HP); [|exact Hpu|exact Hv]. intros. by apply Hes.
Qed.

Lemma effect_closed k q q' r :
  wf q → cfg q = c → effect q k r q' → (lossy = false → clean q k r q' = true) →
  all_msgs P (abs q) → all_msgs P (abs q').
Proof.
  intros Hwf Ec Hef Hcl Hq. assert (lossy = false → failed_nack q k r = false ∧ walErr q' = None) as Hl.
  { intros [?%negb_true_iff ?%bool_decide_eq_true]%Hcl%andb_true_iff. done. }
  clear Hcl.
  destruct Hef as [k r q' Ea Et _ Ed _|body prio delay now rnd r q' y n Hy Hnew Ea Een Eac Ewe _ Ed
    |now es q' Had|max vis now rnd es qa q' out batch e Hwfa Had Eb Et _ Hout
    |rc q' y n Hr Hy Er Ea Een Eac Ewe _|rc vis now q' y n t Hr Hy Er Ea Et _
    |rc delay now q' y n e Hr Hy Er Ea Et _|now q' j cnt e Hj Ea Et _]; simpl in *.
  - by rewrite Ea.
  - rewrite Ea. intros x v [[<- <-]|[_ Hv]]%lookup_insert_Some; [|by eapply Hq].
    by eapply (cl_new _ _ _ HP).
  - eapply advanced_closed; [done..| |done]. intros Hlo. by apply (ad_err _ _ _ _ Had), Hl.
  - assert (all_msgs P (abs qa)) as Hqa.
    { eapply advanced_closed; [done..| |done]. intros Hlo. apply (ad_err _ _ _ _ Had).
      unfold tally in Et. destruct (Hl Hlo). congruence. }
    destruct e; destruct Hout as [_ Ea]; rewrite Ea; [done|]. rewrite Eb.
    intros x v [Hv|(i & m & Hm & ->)]%lease_all_cases; [by eapply Hqa|].
    apply (cl_lease _ _ _ HP). by eapply Hqa.
  - rewrite Ea. intros x v [_ Hv]%lookup_delete_Some. by eapply Hq.
  - rewrite Ea. intros x v [[<- <-]|[_ Hv]]%lookup_insert_Some; [|by eapply Hq].
    apply (cl_extend _ _ _ HP). by eapply Hq.
  - rewrite Ea, Ec. intros x v. destruct (decide (x = y)) as [->|];
      [rewrite lookup_partial_alter_eq|rewrite lookup_partial_alter_ne by done; apply Hq].
    intros Hv. eapply (cl_retry _ _ _ HP); [|by eapply Hq|exact Hv].
    intros Hlo. destruct (Hl Hlo) as [Hf _]. destruct e; [|done].
    by rewrite bool_decide_false in Hf by congruence.
  - rewrite Ea. intros x v. rewrite map_lookup_imap.
    destruct (abs q !! x) as [u|] eqn:Hu; [|done]. simpl. unfold replay_some. intros [= <-].
    case_decide as Hd; [|by eapply Hq]. destruct u as [Pl m].
    assert (Pl = Dead) as ->.
    { apply elem_of_take in Hd as (i & Hi & _). apply list_elem_of_lookup_2 in Hi.
      apply (abs_lookup q []) in Hu as [Hpl _]; [|apply Hwf].
      by apply (at_place_inj q [] _ Dead x (wf_inv _ Hwf)). }
    apply (cl_replay _ _ _ HP). by eapply Hq.
Qed.
End Closed.

(** Attempts against the dead letter cutoff. *)
Definition attempts_ok (c : Config) (v : place * Msg) : Prop :=
  match v with
  | (In HInflight, m) => 1 ≤ Msg.Attempts m ≤ Config.MaxAttempts c
  | (In _, m) => 0 ≤ Msg.Attempts m < Config.MaxAttempts c
  | (Dead, m) => Msg.Attempts m = Config.MaxAttempts c
  end.

Lemma attempts_closed c :
  0 < Config.MaxAttempts c < two63 → closed c false (attempts_ok c).
Proof.
  intros Hmax. split.
  - intros m s now (_ & _ & E & _). unfold attempts_ok, gate. destruct (Msg.Ready m now); lia.
  - done.
  - intros m now delay e v He Hm. rewrite He by done. unfold retry_place, exhausted.
    change (Msg.Attempts (unlease m)) with (Msg.Attempts m). simpl in Hm.
    destruct (_ && _) eqn:Ex; intros [= <-]; simpl.
    + change (Msg.Attempts m = Config.MaxAttempts c). lia.
    + unfold attempts_ok, gate. destruct (Msg.Ready _ _); change (0 ≤ Msg.Attempts m < Config.MaxAttempts c); lia.
  - intros m rc ex Hm. simpl in *. autorewrite with words; lia.
  - done.
  - intros m now Hm. simpl. lia.
Qed.

(** Lease fields are set only while in flight. *)
Definition lease_fields_ok (v : place * Msg) : Prop :=
  v.1 = In HInflight ∨ (Msg.Receipt v.2 = "" ∧ Msg.LeaseExpiry v.2 = zeroTime).

Lemma lease_fields_closed c : closed c true lease_fields_ok.
Proof.
  split.
  - intros m s now (_ & _ & _ & Hr & Hl). by right.
  - intros m [[=]|H]. by right.
  - intros m now delay e v _ _. unfold retry_place. repeat case_match; intros [= <-]; by right.
  - by left.
  - by left.
  - intros m now [[=]|H]. by right.
Qed.

(** ** Along runs *)

Section Runs.
Context {W : Type} `{Log W}.
Implicit Type w : W.

(** A run of a queue whose log others write to in between. *)
Inductive drift (ok : Queue → call → response → Queue → bool) (q0 : Queue) : Queue → Prop :=
  | drift_refl : drift ok q0 q0
  | drift_step k q w q' w' r :
      drift ok q0 q → admissible k q → exec k q w = Some (q', w', r) → ok q k r q' = true → drift ok q0 q'.

Lemma reach_drift ok q0 w0 q w : reach ok q0 w0 q w → drift ok q0 q.
Proof. induction 1; [apply drift_refl|by eapply drift_step]. Qed.

Lemma drift_wf ok q0 q : wf q0 → drift ok q0 q → wf q ∧ cfg q = cfg q0.
Proof.
  intros Hwf0. induction 1 as [|k q w q' w' r _ [Hwf Ec] Hk E _]; [done|].
  destruct (exec_ok k q w Hwf Hk) as (q1 & w1 & r1 & E1 & ? & ? & _).
  rewrite E in E1. simplify_eq. split; [done|congruence].
Qed.

Lemma reach_wf_from ok q0 w0 q w : wf q0 → reach ok q0 w0 q w → wf q ∧ cfg q = cfg q0.
Proof. intros Hwf0 Hr%reach_drift. by eapply drift_wf. Qed.

(** Induction over a run, with the effect of each call at hand. *)
Lemma drift_ind_effect ok (Q : Queue → Prop) q0 q :
  wf q0 → Q q0 →
  (∀ k q r q', wf q → cfg q = cfg q0 → effect q k r q' → ok q k r q' = true → Q q → Q q') →
  drift ok q0 q → Q q.
Proof.
  intros Hwf0 H0 Hstep. induction 1 as [|k q w q' w' r Hr IH Hk E Hok]; [done|].
  destruct (drift_wf _ _ _ Hwf0 Hr) as [Hwf Ec].
  eapply Hstep; [exact Hwf|exact Ec|by eapply exec_effect|done|done].
Qed.

Lemma reach_ind_effect ok (Q : Queue → Prop) q0 w0 q w :
  wf q0 → Q q0 →
  (∀ k q r q', wf q → cfg q = cfg q0 → effect q k r q' → ok q k r q' = true → Q q → Q q') →
  reach ok q0 w0 q w → Q q.
Proof. intros ??? ?%reach_drift. by eapply drift_ind_effect. Qed.

(** A receiver that found nothing has a channel that is closed once a message is
    ready, whatever happened since, failed [Nack]s apart. *)
Lemma woken_when_ready max vis now rnd q1 w1 q2 w2 wake0 q3 x m :
  wf q1 → fresh_ids q1 rnd (Z.to_nat max) → 0 < max →
  tryReceive max vis now rnd q1 w1 = Some (q2, w2, ([], wake0, None)) →
  drift (λ q k r _, negb (failed_nack q k r)) q2 q3 →
  abs q3 !! x = Some (In HReady, m) → (wake0 < wake q3)%nat.
Proof.
  intros Hwf Hids Hmax E Hr Hx.
  destruct (tryReceive_ok max vis now rnd q1 w1 Hwf Hids) as
    (qa & wa & es & _ & _ & _ & _ & _ & Hwk & q' & w' & out & e & E1 & Hwf2 & _ & _ & _ & Ewk & _ & Ho).
  rewrite E in E1. injection E1 as <- <- <- -> <-. destruct Ho as (Eo & Ea & _).
  set (batch := next_batch _ _ _ _ _) in *. assert (batch = []) as Eb by (by destruct batch).
  rewrite Eb in Ea. simpl in Ea. unfold batch, next_batch, handed in Eb.
  apply (f_equal length) in Eb. rewrite length_imap, length_take in Eb. simpl in Eb.
  assert (∀ y n, abs q2 !! y ≠ Some (In HReady, n)) as Hnone.
  { intros y n Hy. rewrite Ea, <- ready_of_elem, <- (upcoming_perm (cfg q1)) in Hy.
    destruct (upcoming _ _); [by apply not_elem_of_nil in Hy|simpl in Eb; lia]. }
  assert ((wake q1 ≤ wake q3)%nat ∧ ((∃ y, is_ready (abs q3) y) → (wake q1 < wake q3)%nat))
    as [_ Hlt]; [|apply Hlt; by exists x, m].
  revert Hr. apply (drift_ind_effect _ (λ q, (wake q1 ≤ wake q)%nat ∧
    ((∃ y, is_ready (abs q) y) → (wake q1 < wake q)%nat))); [done| |].
  - split; [rewrite Ewk; destruct Hwk; subst; lia|]. intros (y & n & Hy). by apply Hnone in Hy.
  - intros k q r q' Hwfq _ Hef Hok%negb_true_iff [Hle IH].
    destruct (effect_wake _ _ _ _ Hef) as [Hmono Hnew]. split; [lia|]. intros (y & Hy).
    destruct (abs q !! y) as [[[[]|] n]|] eqn:Hq;
      try (assert ((wake q < wake q')%nat); [|lia]; apply Hnew; [done|]; exists y; split; [done|];
           intros [n' Hn']; congruence).
    assert ((wake q1 < wake q)%nat); [|lia]. apply IH. by exists y, n.
Qed.
End Runs.
