(* ===== verification/Receive.v ===== *)
(** * The long poll of [Receive]

    [Queue.Receive] of queue/queue.go: attempts separated by waits, during which
    other goroutines use the queue.  What the outside does is a list of rounds,
    one for each attempt: the clock readings, the random bytes, the calls others
    make while the receiver is parked, and the case of the [select] that ended
    the wait.  When the list ends the receiver is still waiting. *)

From Stdlib Require Import Strings.Byte.
From S2P Require Import Prelude ContainerHeap Msg Heaps LogStore Queue QueueInv QueueSpec QueueOps QueueReceive Calls Effects History.

Implicit Types (q : Queue) (m : Msg).

(** The three cases of the [select]. *)
Inductive ending :=
  | Woken
  | TimedOut
  | Cancelled (cause : error).

Record round := Round {
  rd_now : Time;                 (* the clock inside the attempt *)
  rd_rnd : nat → list byte;      (* the random bytes of the receipts *)
  rd_clock : Time;               (* the clock read by [time.Until] *)
  rd_others : list call;         (* what others do during the wait *)
  rd_end : ending;
  rd_until : Time;               (* when the wait ended *)
}.

(** What the call comes to: the messages (a nil slice is the empty one), an
    error, or nothing yet. *)
Inductive received :=
  | Received (out : list Msg)
  | Failed (e : error)
  | Waiting.

Definition poll : Duration := 50 * Millisecond.

(** "Cap the sleep." *)
Definition sleep (remaining : Duration) : Duration :=
  if poll <? remaining then poll else remaining.

Section Receive.
Context {W : Type} `{Log W}.
Implicit Type w : W.

Fixpoint others (ks : list call) (q : Queue) (w : W) : option (Queue * W) :=
  match ks with
  | [] => Some (q, w)
  | k :: ks => '(q, w, _) ← exec k q w; others ks q w
  end.

(** The [select]: a case can be taken when its channel is ready.  [wake0] is the
    channel the attempt returned: closed once the counter has moved past it. *)
Definition selectable (r : round) (wake0 : nat) (remaining : Duration) (q : Queue) : bool :=
  match rd_end r with
  | Woken => bool_decide (wake0 < wake q)%nat
  | TimedOut => Add (rd_clock r) (sleep remaining) <=? rd_until r
  | Cancelled _ => true
  end.

Fixpoint receive_loop (rounds : list round) (max : Z) (visibility wait : Duration) (deadline : Time)
    (q : Queue) (w : W) : option (Queue * W * received) :=
  match rounds with
  | [] => Some (q, w, Waiting)
  | r :: rounds =>
      '(q, w, (out, wake0, err)) ← tryReceive max visibility (rd_now r) (rd_rnd r) q w;
      match err with
      | Some e => Some (q, w, Failed e)
      | None =>
          if negb (bool_decide (out = [])) || (wait <=? 0) then Some (q, w, Received out)
          else
            let remaining := Sub deadline (rd_clock r) in
            if remaining <=? 0 then Some (q, w, Received [])
            else
              '(q, w) ← others (rd_others r) q w;
              if selectable r wake0 remaining q then
                match rd_end r with
                | Cancelled cause => Some (q, w, Failed cause)
                | _ => receive_loop rounds max visibility wait deadline q w
                end
              else Some (q, w, Waiting)
      end
  end.

Definition at_least_one (max : Z) : Z := if max <=? 0 then 1 else max.

(** [func (q *Queue) Receive(ctx, max, visibility, wait) ([]Msg, error)], called at [now]. *)
Definition Receive (max : Z) (visibility wait : Duration) (now : Time) (rounds : list round)
    (q : Queue) (w : W) : option (Queue * W * received) :=
  let max := at_least_one max in
  let visibility := effective q visibility in
  let deadline := Add now wait in
  receive_loop rounds max visibility wait deadline q w.

(** ** What is asked of the outside *)

Fixpoint others_ok (ks : list call) (q : Queue) (w : W) : bool :=
  match ks with
  | [] => true
  | k :: ks =>
      admissibleb k q &&
      match exec k q w with Some (q, w, _) => others_ok ks q w | None => true end
  end.

(** Receipts do not collide and counters do not wrap, in every call of the run. *)
Fixpoint rounds_ok (rounds : list round) (max : Z) (visibility : Duration) (q : Queue) (w : W) : bool :=
  match rounds with
  | [] => true
  | r :: rounds =>
      admissibleb (CTryReceive max visibility (rd_now r) (rd_rnd r)) q &&
      match tryReceive max visibility (rd_now r) (rd_rnd r) q w with
      | Some (q, w, ([], _, None)) =>
          others_ok (rd_others r) q w &&
          match others (rd_others r) q w with
          | Some (q, w) => rounds_ok rounds max visibility q w
          | None => true
          end
      | _ => true
      end
  end.

Lemma reach_trans ok q0 w0 q1 w1 q2 w2 :
  reach ok q0 w0 q1 w1 → reach ok q1 w1 q2 w2 → reach ok q0 w0 q2 w2.
Proof. intros H1' H2'. induction H2'; [done|]. by eapply reach_step. Qed.

Lemma others_reach ks q w :
  wf q → others_ok ks q w = true →
  ∃ q' w', others ks q w = Some (q', w') ∧ wf q' ∧ reach any q w q' w'.
Proof.
  revert q w. induction ks as [|k ks IH]; intros q w Hwf Hok.
  { exists q, w. split_and!; [done..|apply reach_refl]. }
  cbn [others others_ok] in *. apply andb_true_iff in Hok as [Hk Hok].
  apply admissibleb_ok in Hk. destruct (exec_ok k q w Hwf Hk) as (q1 & w1 & r & E & Hwf1 & _).
  rewrite E in *. simpl_bind. destruct (IH q1 w1 Hwf1 Hok) as (q2 & w2 & -> & Hwf2 & Hr).
  exists q2, w2. split_and!; [done..|]. eapply reach_trans; [|exact Hr].
  eapply reach_step; [apply reach_refl|exact Hk|exact E|done].
Qed.

(** ** The attempts *)

(** How a poll can end: with everything its last attempt leased, or with
    nothing leased by it. *)
Definition outcome_of (wait : Duration) (deadline : Time) (rounds : list round)
    (last : list Msg * option error) (res : received) : Prop :=
  match res with
  | Received out => last = (out, None) ∧
      (out = [] → wait ≤ 0 ∨ ∃ r, r ∈ rounds ∧ deadline ≤ rd_clock r)
  | Failed e => last = ([], Some e) ∨ last = ([], None) ∧ ∃ r, r ∈ rounds ∧ rd_end r = Cancelled e
  | Waiting => last = ([], None)
  end.

Lemma outcome_of_cons wait deadline r rounds last res :
  outcome_of wait deadline rounds last res → outcome_of wait deadline (r :: rounds) last res.
Proof.
  destruct res; simpl; [|set_solver|done]. intros [? Hn]. split; [done|]. intros Ho.
  destruct (Hn Ho) as [?|(r' & ? & ?)]; [by left|]. right. exists r'. set_solver.
Qed.

(** The last attempt of a poll: [qa] is the queue before it, [qb] after it, and
    only calls of others come later. *)
Inductive ended (max : Z) (vis wait : Duration) (deadline : Time) (rounds : list round)
      (q : Queue) (w : W) (q' : Queue) (w' : W) (res : received) : Prop :=
  | Ended qa wa qb wb r wake0 out err :
      reach any q w qa wa → r ∈ rounds → admissible (CTryReceive max vis (rd_now r) (rd_rnd r)) qa →
      tryReceive max vis (rd_now r) (rd_rnd r) qa wa = Some (qb, wb, (out, wake0, err)) →
      reach any qb wb q' w' → (out ≠ [] → qb = q') → outcome_of wait deadline rounds (out, err) res →
      ended max vis wait deadline rounds q w q' w' res.

Lemma ended_later max vis wait deadline r rounds q w q1 w1 q' w' res :
  reach any q w q1 w1 → ended max vis wait deadline rounds q1 w1 q' w' res →
  ended max vis wait deadline (r :: rounds) q w q' w' res.
Proof.
  intros Hr [qa wa qb wb r' wake0 out err Hra Hin Hk E Hrb Hq Ho].
  eapply (Ended _ _ _ _ _ _ _ _ _ _ qa wa qb wb r'); [by eapply reach_trans|set_solver|done..|].
  by apply outcome_of_cons.
Qed.

Lemma Sub_nonpos t u : Sub t u <= 0 → t ≤ u.
Proof. unfold Sub, two63. lia. Qed.

(** The loop is a sequence of calls on the queue. *)
Lemma receive_loop_ok max vis wait deadline rounds : ∀ q w,
  wf q → rounds_ok rounds max vis q w = true →
  ∃ q' w' res, receive_loop rounds max vis wait deadline q w = Some (q', w', res) ∧ wf q' ∧
    reach any q w q' w' ∧ (res = Waiting ∨ ended max vis wait deadline rounds q w q' w' res).
Proof.
  induction rounds as [|r rounds IH]; intros q w Hwf Hok.
  { exists q, w, Waiting. split_and!; [done..|apply reach_refl|by left]. }
  cbn [rounds_ok receive_loop] in *. apply andb_true_iff in Hok as [Hk Hok]. apply admissibleb_ok in Hk.
  destruct (tryReceive_ok max vis (rd_now r) (rd_rnd r) q w Hwf Hk)
    as (qa & wa & es & _ & _ & _ & _ & _ & _ & q1 & w1 & out & err & E & Hwf1 & _ & _ & _ & _ & _ & Hout).
  rewrite E in *. simpl_bind. cbn iota beta.
  assert (reach any q w q1 w1) as Hr1.
  { eapply (reach_step _ _ _ (CTryReceive max vis (rd_now r) (rd_rnd r)));
      [apply reach_refl|exact Hk|simpl; by rewrite E|done]. }
  assert (∀ q' w' res, reach any q1 w1 q' w' → (out ≠ [] → q1 = q') →
    outcome_of wait deadline (r :: rounds) (out, err) res →
    ended max vis wait deadline (r :: rounds) q w q' w' res) as Hend.
  { intros q' w' res. apply Ended with q w r (wake q); [apply reach_refl|set_solver|done..]. }
  destruct err as [e|].
  { destruct Hout as [-> _]. exists q1, w1, (Failed e). split_and!; [done..|right].
    apply Hend; [apply reach_refl|done|by left]. }
  destruct (negb (bool_decide (out = [])) || (wait <=? 0)) eqn:Hb.
  { exists q1, w1, (Received out). split_and!; [done..|right].
    apply Hend; [apply reach_refl|done|]. split; [done|]. intros ->. simpl in Hb. left. lia. }
  apply orb_false_iff in Hb as [Ho%negb_false_iff%bool_decide_eq_true Hwait]. subst out.
  destruct (Sub deadline (rd_clock r) <=? 0) eqn:Hrem.
  { exists q1, w1, (Received []). split_and!; [done..|right].
    apply Hend; [apply reach_refl|done|]. split; [done|]. intros _. right. exists r.
    split; [set_solver|]. apply Sub_nonpos. lia. }
  apply andb_true_iff in Hok as [Hoth Hok].
  destruct (others_reach (rd_others r) q1 w1 Hwf1 Hoth) as (q2 & w2 & E2 & Hwf2 & Hr2).
  rewrite E2 in *. simpl_bind. cbn iota beta.
  assert (reach any q w q2 w2) as Hr by by eapply reach_trans.
  destruct (selectable _ _ _ q2).
  2: { exists q2, w2, Waiting. split_and!; [done..|by left]. }
  destruct (rd_end r) eqn:Hend'; [| |
    exists q2, w2, (Failed cause); split_and!; [done..|right]; apply Hend; [done|done|];
    right; split; [done|]; exists r; split; [set_solver|done]];
    (destruct (IH q2 w2 Hwf2 Hok) as (q' & w' & res & E' & Hwf' & Hr' & Hres);
     exists q', w', res; split_and!; [done|done|by eapply reach_trans|];
     destruct Hres as [?|Hres]; [by left|right]; by eapply ended_later).
Qed.

(** What an attempt hands out is in flight, under the receipt it carries. *)
Definition held (q : Queue) (m : Msg) : Prop :=
  ∃ x, abs q !! x = Some (In HInflight, Msg.erase m) ∧ leases q !! Msg.Receipt m = Some x.

Lemma tryReceive_held max vis now rnd q w q' w' out wake0 :
  wf q → fresh_ids q rnd (Z.to_nat max) →
  tryReceive max vis now rnd q w = Some (q', w', (out, wake0, None)) →
  (length out ≤ Z.to_nat max)%nat ∧ ∀ m, m ∈ out → held q' m.
Proof.
  intros Hwf Hids E. destruct (tryReceive_ok max vis now rnd q w Hwf Hids) as
    (qa & wa & es & _ & _ & _ & _ & _ & _ & q1 & w1 & out1 & e & E1 & Hwf' & _ & _ & _ & _ & _ & Ho).
  rewrite E in E1. injection E1 as <- <- <- _ <-. destruct Ho as (Eo & Ea & _). split.
  - rewrite <- (length_fmap Msg.erase), Eo, length_fmap. unfold next_batch, handed.
    rewrite length_imap, length_take. lia.
  - intros m Hm. destruct (delivered_elem _ _ _ Eo Hm) as (v & Hv & Ev).
    assert (abs q' !! v.1 = Some (In HInflight, Msg.erase m)) as Hx.
    { rewrite Ea, (lease_all_in _ _ v) by (done || apply next_batch_nodup). rewrite <- Ev. by destruct m. }
    exists v.1. split; [done|]. apply (wf_leases _ Hwf'). exists (Msg.erase m). by split.
Qed.

(** ** Termination *)

(** Waits that nothing cuts short, on a clock that does not go back. *)
Fixpoint paced (clk : Time) (deadline : Time) (rounds : list round) : Prop :=
  match rounds with
  | [] => True
  | r :: rounds =>
      clk ≤ rd_clock r ∧ rd_end r = TimedOut ∧
      rd_clock r + sleep (Sub deadline (rd_clock r)) ≤ rd_until r ∧ paced (rd_until r) deadline rounds
  end.

(** Every wait is a whole [poll], or the last one. *)
Lemma sleep_progress deadline clk :
  deadline - clk < two63 → 0 < Sub deadline clk →
  0 < deadline - clk ∧ (deadline ≤ clk + sleep (Sub deadline clk) ∨ clk + poll ≤ clk + sleep (Sub deadline clk)).
Proof.
  intros Hlt Hpos. unfold Sub, sleep, two63 in *. destruct (poll <? _) eqn:E; lia.
Qed.

Lemma receive_loop_returns max vis wait deadline rounds : ∀ clk q w,
  wf q → rounds_ok rounds max vis q w = true → paced clk deadline rounds →
  deadline - clk < two63 → (0 < length rounds)%nat →
  deadline - clk ≤ (Z.of_nat (length rounds) - 1) * poll →
  ∃ q' w' res, receive_loop rounds max vis wait deadline q w = Some (q', w', res) ∧ res ≠ Waiting.
Proof.
  induction rounds as [|r rounds IH]; intros clk q w Hwf Hok Hp Hlt Hl Hn; [simpl in Hl; lia|].
  cbn [rounds_ok receive_loop paced] in *. destruct Hp as (Hclk & Hend & Hun & Hp).
  apply andb_true_iff in Hok as [Hk Hok]. apply admissibleb_ok in Hk.
  destruct (tryReceive_ok max vis (rd_now r) (rd_rnd r) q w Hwf Hk)
    as (qa & wa & es & _ & _ & _ & _ & _ & _ & q1 & w1 & out & err & E & Hwf1 & _).
  rewrite E in *. simpl_bind. cbn iota beta.
  destruct err as [e|]; [by exists q1, w1, (Failed e)|].
  destruct (negb (bool_decide (out = [])) || (wait <=? 0)) eqn:Hb; [by exists q1, w1, (Received out)|].
  apply orb_false_iff in Hb as [Ho%negb_false_iff%bool_decide_eq_true Hwait]. subst out.
  destruct (Sub deadline (rd_clock r) <=? 0) eqn:Hrem; [by exists q1, w1, (Received [])|].
  apply andb_true_iff in Hok as [Hoth Hok].
  destruct (others_reach (rd_others r) q1 w1 Hwf1 Hoth) as (q2 & w2 & E2 & Hwf2 & _).
  rewrite E2 in *. simpl_bind. cbn iota beta. unfold selectable. rewrite Hend.
  destruct (sleep_progress deadline (rd_clock r)) as [Hpos Hprog]; [lia..|].
  unfold Add. rewrite (proj2 (Z.leb_le _ _)) by done.
  assert (0 < poll) as Hpoll by done. cbn [length] in *.
  assert (0 < length rounds)%nat as Hl' by (destruct rounds; simpl in *; lia).
  assert (0 ≤ Z.of_nat (length rounds) - 1) as Hge by lia.
  apply (IH (rd_until r)); [done..|lia|done|]. nia.
Qed.

(** When the description of a poll leaves it waiting: none of its attempts found
    anything or saw the deadline passed, and it ends there or with a wait none of
    whose cases is ready. *)
Definition parked (wait : Duration) (deadline : Time) (rounds : list round) (q' : Queue) : Prop :=
  rounds = [] ∨ 0 < wait ∧ ∃ pre r post, rounds = pre ++ r :: post ∧
    Forall (λ r, rd_clock r < deadline) (pre ++ [r]) ∧
    (post = [] ∨ ∃ wake0, selectable r wake0 (Sub deadline (rd_clock r)) q' = false).

Lemma receive_loop_waits max vis wait deadline rounds : ∀ q w q' w',
  receive_loop rounds max vis wait deadline q w = Some (q', w', Waiting) → parked wait deadline rounds q'.
Proof.
  induction rounds as [|r rounds IH]; intros q w q' w' E; [by left|right]. cbn [receive_loop] in E.
  apply bind_Some in E as ([[q1 w1] [[out wake0] err]] & _ & E). destruct err; [done|].
  destruct (negb _ || (wait <=? 0)) eqn:Hb; [done|]. apply orb_false_iff in Hb as [_ Hw].
  destruct (Sub deadline (rd_clock r) <=? 0) eqn:Hrem; [done|].
  assert (rd_clock r < deadline) as Hclk by (unfold Sub, two63 in Hrem; lia).
  apply bind_Some in E as ([q2 w2] & _ & E). split; [lia|].
  destruct (selectable _ _ _ q2) eqn:Hsel.
  2:{ injection E as <- _. exists [], r, rounds. split_and!; [done|by repeat constructor|right; by exists wake0]. }
  assert (∀ E' : receive_loop rounds max vis wait deadline q2 w2 = Some (q', w', Waiting),
    ∃ pre r' post, r :: rounds = pre ++ r' :: post ∧ Forall (λ r, rd_clock r < deadline) (pre ++ [r']) ∧
      (post = [] ∨ ∃ wake0, selectable r' wake0 (Sub deadline (rd_clock r')) q' = false)) as Hnext.
  { intros E'. destruct (IH _ _ _ _ E') as [->|(_ & pre & r' & post & -> & Hall & Hp)].
    - exists [], r, []. split_and!; [done|by repeat constructor|by left].
    - exists (r :: pre), r', post. split_and!; [done|by constructor|done]. }
  destruct (rd_end r); [by apply Hnext..|done].
Qed.
End Receive.
