(* ===== verification/QueueProps.v ===== *)
(** * Properties of one queue

    The theorems about [queue/queue.go] that a client of the package relies on,
    each with a run of the code where its hypotheses hold. *)

From S2P Require Import Prelude ContainerHeap Msg Heaps LogStore Queue QueueInv QueueSpec QueueOps QueueReceive Calls Effects History.

Implicit Types (q : Queue) (x y : loc) (m n : Msg).

(** ** A concrete queue

    The runs below use the in-memory log. *)

Definition jobs : Config := Config.Mk "jobs" FIFO true 2 1000.

Definition t0 : Time := unixEpoch + Second.
Definition bytes_of (i : nat) : list Byte.byte :=
  [default Byte.x00 (Byte.of_nat (i mod 256))].
Definition ids (base i : nat) : list Byte.byte := bytes_of (base + i).

(** Two messages ready, one delayed by an hour. *)
Definition fill : list call :=
  [CEnqueue "a" 0 0 t0 (bytes_of 1); CEnqueue "b" 5 0 t0 (bytes_of 2);
   CEnqueue "c" 0 Hour t0 (bytes_of 3)].

(** Then both leased for ten seconds: receipts 0a and 0b. *)
Definition lease : list call := fill ++ [CTryReceive 2 (10 * Second) t0 (ids 10)].

Definition final (ks : list call) (w : MemLog.t) : Queue * MemLog.t :=
  match run any ks (New jobs) w with Some (q, w, _) => (q, w) | None => (New jobs, w) end.

(** A log that refuses write number [k]. *)
Definition faulty (k : nat) : MemLog.t := MemLog.Mk [] (replicate k false ++ [true]).

Definition q_fill : Queue := (final fill MemLog.empty).1.
Definition w_fill : MemLog.t := (final fill MemLog.empty).2.
Definition q_lease : Queue := (final lease MemLog.empty).1.
Definition w_lease : MemLog.t := (final lease MemLog.empty).2.

Lemma final_reach ks w : reach any (New jobs) w (final ks w).1 (final ks w).2.
Proof.
  unfold final. destruct (run any ks (New jobs) w) as [[[q' w'] rs]|] eqn:E.
  - eapply run_reach; [apply reach_refl|exact E].
  - apply reach_refl.
Qed.

Lemma run_any ok ks q (w : MemLog.t) z : run ok ks q w = Some z → run any ks q w = Some z.
Proof.
  revert q w z. induction ks as [|k ks IH]; intros q w z; simpl; [done|].
  destruct (admissibleb k q); [|done]. destruct (exec k q w) as [[[q1 w1] r1]|]; [|done].
  simpl. destruct (ok q k r1 q1); [|done].
  destruct (run ok ks q1 w1) as [[[q2 w2] rs]|] eqn:E; [|done]. by rewrite (IH _ _ _ E).
Qed.

Lemma final_reach_ok ok ks w :
  is_Some (run ok ks (New jobs) w) → reach ok (New jobs) w (final ks w).1 (final ks w).2.
Proof.
  intros [[[q w'] rs] E]. unfold final. rewrite (run_any _ _ _ _ _ E).
  eapply run_reach; [apply reach_refl|exact E].
Qed.

Lemma final_wf ks w : wf (final ks w).1.
Proof. apply (reach_wf any jobs w _ _ (final_reach ks w)). Qed.

Definition rb : string := newID (ids 10 0).
Definition ra : string := newID (ids 10 1).

(** ** Safety and refinement of every call *)

(** C2: from a new queue, after any sequence of method calls, every further
    call returns (no index out of range, no nil dereference, every loop ends),
    leaves the three heaps, the cached indices, the lease table and the dead
    letter list consistent, and is a run of the abstract machine of
    [QueueSpec.v]. *)
Theorem queue_refines {W} `{Log W} (c : Config) (w0 : W) q w k :
  reach any (New c) w0 q w → admissible k q →
  ∃ q' w' r, exec k q w = Some (q', w', r) ∧ wf q' ∧
    asteps (cfg (New c)) anything (absq (New c) w0) (absq q' w').
Proof.
  intros Hr Hk. destruct (reach_wf _ _ _ _ _ Hr) as (Hwf & Ec & Hst).
  destruct (exec_ok k q w Hwf Hk) as (q' & w' & r & E & Hwf' & _ & Hst').
  exists q', w', r. split_and!; [done..|]. unfold asteps in *. etrans; [done|]. rewrite <- Ec.
  apply Hst'; [apply serves_anything|apply reports_anything].
Qed.

Lemma queue_refines_witness :
  ∃ q' w' r, exec (CAck rb) q_lease w_lease = Some (q', w', r) ∧ wf q' ∧
    asteps (cfg (New jobs)) anything (absq (New jobs) MemLog.empty) (absq q' w').
Proof. apply (queue_refines jobs MemLog.empty _ _ (CAck rb)); [apply final_reach|exact I]. Defined.

(** C15: a receive first lets time pass, then leases the first [max] ready
    messages in the order of delivery (priority, then age by the mode), all of
    them or, when a write fails, none; the copies it returns are exactly those
    messages with one attempt more, a fresh receipt and the new expiry. *)
Theorem receive_in_order {W} `{Log W} max vis now rnd q (w : W) :
  wf q → fresh_ids q rnd (Z.to_nat max) →
  ∃ qa wa, advanceLocked now q w = Some (qa, wa) ∧
    let batch := next_batch (cfg q) (abs qa) max rnd (Add now vis) in
    ∃ q' w' out e, tryReceive max vis now rnd q w = Some (q', w', (out, wake q, e)) ∧ wf q' ∧
      match e with
      | Some _ => out = [] ∧ abs q' = abs qa
      | None => Msg.erase <$> out = batch.*2 ∧ abs q' = lease_all batch (abs qa)
      end.
Proof.
  intros Hwf Hk. destruct (tryReceive_ok max vis now rnd q w Hwf Hk)
    as (qa & wa & es & E & _ & _ & _ & _ & _ & q' & w' & out & e & E' & Hwf' & _ & _ & _ & _ & _ & Ho).
  exists qa, wa. split; [done|]. exists q', w', out, e. split_and!; [done..|].
  destruct e; [done|]. by destruct Ho as (? & ? & _).
Qed.

Lemma receive_in_order_witness :
  ∃ qa wa, advanceLocked t0 q_fill w_fill = Some (qa, wa) ∧
    let batch := next_batch (cfg q_fill) (abs qa) 1 (ids 20) (Add t0 Second) in
    ∃ q' w' out e, tryReceive 1 Second t0 (ids 20) q_fill w_fill =
        Some (q', w', (out, wake q_fill, e)) ∧ wf q' ∧
      match e with
      | Some _ => out = [] ∧ abs q' = abs qa
      | None => Msg.erase <$> out = batch.*2 ∧ abs q' = lease_all batch (abs qa)
      end.
Proof.
  apply (receive_in_order 1 Second t0 (ids 20)); [apply final_wf|].
  apply (admissibleb_ok (CTryReceive 1 Second t0 (ids 20))). vm_compute. reflexivity.
Defined.

(** The higher priority goes first although it was enqueued second. *)
Example receive_prefers_priority :
  match tryReceive 1 Second t0 (ids 20) q_fill w_fill with
  | Some (_, _, (out, _, e)) => (Msg.Body <$> out, e) = (["b"], None)
  | None => False
  end.
Proof. vm_compute. reflexivity. Qed.

(** ** Nothing is lost, nothing is handed out twice *)

(** C3: while a lease runs - no call presents its receipt and no clock reading
    reaches its expiry - the message stays in flight under that receipt, and no
    call delivers it to anybody else. *)
Theorem lease_exclusive {W} `{Log W} q0 (w0 : W) q w k q' w' r x m :
  wf q0 → abs q0 !! x = Some (In HInflight, m) →
  reach (λ _ k _ _, quiet m k) q0 w0 q w →
  admissible k q → quiet m k = true → exec k q w = Some (q', w', r) →
  abs q' !! x = Some (In HInflight, m) ∧ ∀ n, n ∈ deliveries r → Msg.Seq n ≠ Msg.Seq m.
Proof.
  intros Hwf0 Hx Hr Hk Hquiet E. destruct (reach_wf_from _ _ _ _ _ Hwf0 Hr) as [Hwf _].
  eapply effect_leased; [done|by eapply exec_effect| |done]. revert Hr.
  apply (reach_ind_effect _ (λ q, abs q !! x = Some (In HInflight, m))); [done..|].
  intros k1 q1 r1 q2 Hwf1 _ Hef Hok Hx1. by eapply effect_leased.
Qed.

Definition leased_b : Msg := default Msg.zero (snd <$> abs q_lease !! 1%nat).

Lemma lease_exclusive_witness :
  match exec (CTryReceive 5 Second (t0 + 9 * Second) (ids 30)) q_lease w_lease with
  | Some (q', _, r) =>
      abs q' !! 1%nat = Some (In HInflight, leased_b) ∧
      ∀ n, n ∈ deliveries r → Msg.Seq n ≠ Msg.Seq leased_b
  | None => False
  end.
Proof.
  destruct (exec (CTryReceive 5 Second (t0 + 9 * Second) (ids 30)) q_lease w_lease)
    as [[[q' w'] r]|] eqn:E; [|vm_compute in E; discriminate E].
  eapply (lease_exclusive q_lease w_lease q_lease w_lease
    (CTryReceive 5 Second (t0 + 9 * Second) (ids 30)) q' w' r 1%nat leased_b).
  - apply final_wf.
  - vm_compute. reflexivity.
  - apply reach_refl.
  - apply admissibleb_ok. vm_compute. reflexivity.
  - vm_compute. reflexivity.
  - exact E.
Defined.

(** C4: along any sequence of calls in which no background write and no [Nack]
    of a live lease failed, a message leaves the queue only through the [Ack] of
    its own receipt: a call that is not that [Ack] keeps every message, and the
    difference of the counters [enqueued] and [acked] is the number of messages
    held (modulo 2^64). *)
Theorem nothing_lost {W} `{Log W} (c : Config) (w0 : W) q w k q' w' r :
  reach clean (New c) w0 q w → admissible k q →
  exec k q w = Some (q', w', r) → clean q k r q' = true →
  balanced q' ∧
  ∀ x, is_Some (abs q !! x) →
    is_Some (abs q' !! x) ∨ ∃ rc m, k = CAck rc ∧ abs q !! x = Some (In HInflight, m) ∧ Msg.Receipt m = rc.
Proof.
  intros Hr Hk E Hcl. destruct (reach_wf_from _ _ _ _ _ (New_wf c) Hr) as [Hwf _].
  pose proof (exec_effect _ _ _ _ _ _ Hwf Hk E) as Hef. split.
  - eapply effect_balanced; [done..|]. revert Hr.
    apply (reach_ind_effect _ balanced); [apply New_wf|unfold balanced; by rewrite New_abs|].
    intros. by eapply effect_balanced.
  - intros x Hx. rewrite <- !elem_of_dom in *.
    destruct (effect_dom _ _ _ _ Hwf Hef Hcl) as
      [_ [[-> _]|[(y & _ & -> & _)|(y & rc & -> & Hy & _ & -> & _)]]]; [by left|left; set_solver|].
    destruct (decide (x = y)) as [->|]; [right|left; set_solver].
    destruct (receipt_lookup q rc y Hwf Hy) as (m & Hm & _ & Em & Ha). by exists rc, (Msg.erase m).
Qed.

Lemma nothing_lost_witness :
  match exec (CNack rb Second t0) q_lease w_lease with
  | Some (q', _, _) =>
      balanced q' ∧
      ∀ x, is_Some (abs q_lease !! x) →
        is_Some (abs q' !! x) ∨ ∃ rc m, CNack rb Second t0 = CAck rc ∧
          abs q_lease !! x = Some (In HInflight, m) ∧ Msg.Receipt m = rc
  | None => False
  end.
Proof.
  destruct (exec (CNack rb Second t0) q_lease w_lease) as [[[q' w'] r]|] eqn:E;
    [|vm_compute in E; discriminate E].
  apply (nothing_lost jobs MemLog.empty q_lease w_lease (CNack rb Second t0) q' w' r).
  - apply final_reach_ok. vm_compute. eexists. reflexivity.
  - exact I.
  - exact E.
  - vm_compute in E. injection E as <- _ <-. vm_compute. reflexivity.
Defined.

(** C35: the exception is real.  When the write of the [nack] record fails for a
    message below the dead letter cutoff, [Nack] has already taken it out of
    the in-flight heap and returns without filing it anywhere: the message is
    in no heap and not in the dead letter list, and its receipt is gone. *)
Theorem nack_error_drops_message {W} `{Log W} r delay now q (w : W) q' w' e x m :
  wf q → leases q !! r = Some x → mem q !! x = Some m → exhausted (cfg q) m = false →
  Nack r delay now q w = Some (q', w', Some e) →
  (∀ P, ¬ at_place q' P x) ∧ leases q' !! r = None.
Proof.
  intros Hwf Hr Hm Hex E. destruct (Nack_ok r delay now q w x m Hwf Hr Hm)
    as (q1 & w1 & e1 & m1 & _ & _ & E1 & Hwf' & _ & _ & Ea & El & _).
  rewrite E in E1. injection E1 as <- <- <-. split; [|by rewrite El, lookup_delete_eq].
  intros P HP. assert (abs q' !! x = None) as Hn.
  { rewrite Ea, lookup_partial_alter_eq. unfold retry_place.
    change (exhausted (cfg q) (unlease m)) with (exhausted (cfg q) m). by rewrite Hex. }
  destruct (inv_mem _ _ (wf_inv _ Hwf') x) as [n Hxn].
  { rewrite app_nil_r. apply elem_of_live. eauto. }
  assert (abs q' !! x = Some (P, Msg.erase n)) as Hy; [|congruence].
  apply (abs_lookup q' []); [apply Hwf'|]. by rewrite Hxn.
Qed.

Definition w_full : MemLog.t := MemLog.Mk (MemLog.recs w_lease) [true].

Lemma nack_error_drops_message_witness :
  match Nack rb Second t0 q_lease w_full with
  | Some (q', _, Some _) => (∀ P, ¬ at_place q' P 1%nat) ∧ leases q' !! rb = None
  | _ => False
  end.
Proof.
  destruct (Nack rb Second t0 q_lease w_full) as [[[q' w'] [e|]]|] eqn:E;
    [|vm_compute in E; discriminate E..].
  apply (nack_error_drops_message rb Second t0 q_lease w_full q' w' e 1%nat
    (default Msg.zero (mem q_lease !! 1%nat))).
  - apply final_wf.
  - vm_compute. reflexivity.
  - vm_compute. reflexivity.
  - vm_compute. reflexivity.
  - exact E.
Defined.

(** The dead letter branch files the message again but wakes nobody: when the
    write of the [dlq] record fails, the message is ready at once and [Nack]
    returns the error before it signals, so a receiver that is parked stays so. *)
Theorem failed_park_wakes_nobody {W} `{Log W} r delay now q (w : W) q' w' e x m :
  wf q → leases q !! r = Some x → mem q !! x = Some m → exhausted (cfg q) m = true →
  Nack r delay now q w = Some (q', w', Some e) →
  (∃ v, abs q' !! x = Some (In HReady, v) ∧ Msg.ID v = Msg.ID m) ∧ wake q' = wake q.
Proof.
  intros Hwf Hr Hm Hex E. destruct (Nack_ok r delay now q w x m Hwf Hr Hm)
    as (q1 & w1 & e1 & m1 & _ & _ & E1 & _ & _ & _ & Ea & _ & _ & _ & Ewk & _).
  rewrite E in E1. injection E1 as <- <- <-. split; [|done].
  eexists. rewrite Ea, lookup_partial_alter_eq. unfold retry_place.
  change (exhausted (cfg q) (unlease m)) with (exhausted (cfg q) m). by rewrite Hex.
Qed.

(** ** The operations *)

(** An enqueue whose priority the queue does not accept changes nothing;
    any other takes the next sequence number, writes its record synchronously
    before touching a heap, and then either reports the write's error with the
    messages as they were, or files the new message by its delay gate, counts
    it and wakes the receivers. *)
Theorem enqueue_durable_first {W} `{Log W} body priority delay now rnd q (w : W) :
  wf q → 0 ≤ seq q < two64 - 1 →
  (¬ accepts q priority →
   Enqueue body priority delay now rnd q w = Some (q, w, Err ErrPriorityDisabled)) ∧
  (accepts q priority →
   let m := new_msg body priority delay now rnd (seq q + 1) in
   let o := AppendSync (Rec.of_msg OpEnqueue (name q) m) w in
   ∃ q' res, Enqueue body priority delay now rnd q w = Some (q', o.1, res) ∧ seq q' = seq q + 1 ∧
     match o.2 with
     | Some e => res = Err e ∧ abs q' = abs q ∧ enqueued q' = enqueued q ∧ wake q' = wake q
     | None => ∃ m' x, res = Ok m' ∧ Msg.erase m' = m ∧ abs q !! x = None ∧
         abs q' = <[x := (In (gate m now), m)]> (abs q) ∧
         enqueued q' = u64 (enqueued q + 1) ∧ wake q' = S (wake q)
     end).
Proof.
  intros Hwf Hs. split; [apply Enqueue_disabled|]. intros Ha m o.
  destruct (Enqueue_ok body priority delay now rnd q w Hwf Ha Hs)
    as (q' & res & E & _ & Hx & _ & Es & _ & _ & _ & Hres). fold m o in E, Hres, Hx.
  exists q', res. split_and!; [done..|]. destruct (o.2); [done|].
  destruct Hres as (m' & -> & Em & Ea & Een & Ewk). by exists m', (fresh (dom (mem q))).
Qed.

Lemma enqueue_durable_first_witness :
  ∃ q' w' res, Enqueue "d" 1 0 t0 (bytes_of 4) q_fill w_fill = Some (q', w', res) ∧ seq q' = 4.
Proof.
  assert (wf q_fill) as Hwf by apply final_wf.
  assert (0 ≤ seq q_fill < two64 - 1) as Hs by (vm_compute; split; [discriminate|reflexivity]).
  destruct (proj2 (enqueue_durable_first "d" 1 0 t0 (bytes_of 4) q_fill w_fill Hwf Hs))
    as (q' & res & E & Es & _); [right; vm_compute; reflexivity|].
  eexists q', _, res. split; [exact E|]. rewrite Es. vm_compute. reflexivity.
Defined.

(** A tick treats every message on its own: a delayed one whose gate has
    opened becomes ready, one whose lease has run out is retried or dead
    lettered, all others stay as they are; only a failed write, which is
    latched in [walErr], can do anything else. *)
Theorem tick_pointwise {W} `{Log W} now q (w : W) :
  wf q →
  ∃ q' w' es, Tick now q w = Some (q', w') ∧ wf q' ∧ (walErr q' = None → ∀ x, es x = None) ∧
    ∀ x, abs q' !! x =
      match abs q !! x with
      | Some (In HDelayed, m) => Some (In (if Msg.VisibleAt m <=? now then HReady else HDelayed), m)
      | Some (In HInflight, m) =>
          if now <? Msg.LeaseExpiry m then Some (In HInflight, m)
          else retry_place (cfg q) (unlease m) now 0 (es x)
      | v => v
      end.
Proof.
  intros Hwf. destruct (advanceLocked_ok now q w Hwf)
    as (q' & w' & es & E & Hwf' & Ea & _ & _ & Hes & _). exists q', w', es.
  split_and!; [done|done| |]; [by intros [_ ?]%Hes|]. intros x. rewrite Ea, map_lookup_imap.
  destruct (abs q !! x) as [[[[]|] m]|]; try done. simpl. unfold advance_msg. simpl.
  unfold gate, Msg.Ready, After. rewrite Z.leb_antisym. by destruct (now <? Msg.VisibleAt m).
Qed.

Lemma tick_pointwise_witness :
  ∃ q' w' es, Tick (t0 + Hour) q_lease w_lease = Some (q', w') ∧ wf q' ∧
    (walErr q' = None → ∀ x, es x = None) ∧
    ∀ x, abs q' !! x =
      match abs q_lease !! x with
      | Some (In HDelayed, m) =>
          Some (In (if Msg.VisibleAt m <=? t0 + Hour then HReady else HDelayed), m)
      | Some (In HInflight, m) =>
          if t0 + Hour <? Msg.LeaseExpiry m then Some (In HInflight, m)
          else retry_place (cfg q_lease) (unlease m) (t0 + Hour) 0 (es x)
      | v => v
      end.
Proof. apply (tick_pointwise (t0 + Hour) q_lease w_lease). apply final_wf. Defined.

(** Acknowledging a live receipt writes the record and, if that succeeds,
    removes exactly the message leased under it, through its cached index; if
    the write fails nothing changes, so the consumer can retry. *)
Theorem ack_removes_one {W} `{Log W} r q (w : W) x m :
  wf q → abs q !! x = Some (In HInflight, m) → Msg.Receipt m = r →
  let o := AppendSync (Rec.of_id OpAck (name q) (Msg.ID m)) w in
  ∃ q', Ack r q w = Some (q', o.1, o.2) ∧ wf q' ∧
    match o.2 with
    | Some _ => q' = q
    | None => abs q' = delete x (abs q) ∧ leases q' !! r = None ∧ acked q' = u64 (acked q + 1)
    end.
Proof.
  intros Hwf Hx Er o.
  assert (leases q !! r = Some x) as Hr by (apply (wf_leases _ Hwf); by exists m).
  destruct (receipt_lookup q r x Hwf Hr) as (m' & Hm & _ & _ & Ha). rewrite Hx in Ha.
  injection Ha as ->. destruct (Ack_ok r q w x m' Hwf Hr Hm) as (q' & E & Hwf' & _ & _ & _ & _ & _ & _ & Hres).
  exists q'. split_and!; [done..|]. fold (name q) in *. change (Msg.ID m') with (Msg.ID (Msg.erase m')) in Hres.
  fold o in Hres. destruct (o.2); [done|]. destruct Hres as (? & -> & ?).
  by rewrite lookup_delete_eq.
Qed.

Lemma ack_removes_one_witness :
  let o := AppendSync (Rec.of_id OpAck (name q_lease) (Msg.ID leased_b)) w_lease in
  ∃ q', Ack rb q_lease w_lease = Some (q', o.1, o.2) ∧ wf q' ∧
    match o.2 with
    | Some _ => q' = q_lease
    | None => abs q' = delete 1%nat (abs q_lease) ∧ leases q' !! rb = None ∧
              acked q' = u64 (acked q_lease + 1)
    end.
Proof.
  apply (ack_removes_one rb q_lease w_lease 1%nat leased_b).
  - apply final_wf.
  - vm_compute. reflexivity.
  - vm_compute. reflexivity.
Defined.

(** A nack ends the lease and, when the write of its record succeeds,
    parks the message in the dead letter queue if it has used up its attempts
    and otherwise hides it for [delay]; either way its receipt is dead, and
    waiting receivers are woken. *)
Theorem nack_retries_or_parks {W} `{Log W} r delay now q (w : W) x m q' w' :
  wf q → abs q !! x = Some (In HInflight, m) → Msg.Receipt m = r →
  Nack r delay now q w = Some (q', w', None) →
  let m' := Msg.set_VisibleAt (Add now delay) (unlease m) in
  abs q' = <[x := if exhausted (cfg q) m then (Dead, unlease m) else (In (gate m' now), m')]> (abs q) ∧
  leases q' = delete r (leases q) ∧ wake q' = S (wake q) ∧ nacked q' = u64 (nacked q + 1).
Proof.
  intros Hwf Hx Er E.
  assert (leases q !! r = Some x) as Hr by (apply (wf_leases _ Hwf); by exists m).
  destruct (receipt_lookup q r x Hwf Hr) as (n & Hm & _ & _ & Ha). rewrite Hx in Ha.
  injection Ha as ->. destruct (Nack_ok r delay now q w x n Hwf Hr Hm)
    as (q1 & w1 & e1 & m1 & _ & _ & E1 & _ & _ & _ & Ea & El & En & _ & Ewk & _).
  rewrite E in E1. injection E1 as <- <- <-. split_and!; [|done..]. rewrite Ea.
  unfold retry_place. change (exhausted (cfg q) (unlease n)) with (exhausted (cfg q) (Msg.erase n)).
  by destruct (exhausted _ _).
Qed.

Lemma nack_retries_or_parks_witness :
  match Nack rb Second t0 q_lease w_lease with
  | Some (q', _, None) =>
      let m' := Msg.set_VisibleAt (Add t0 Second) (unlease leased_b) in
      abs q' = <[1%nat := if exhausted (cfg q_lease) leased_b then (Dead, unlease leased_b)
                          else (In (gate m' t0), m')]> (abs q_lease) ∧
      leases q' = delete rb (leases q_lease) ∧ wake q' = S (wake q_lease) ∧
      nacked q' = u64 (nacked q_lease + 1)
  | _ => False
  end.
Proof.
  destruct (Nack rb Second t0 q_lease w_lease) as [[[q' w'] [e|]]|] eqn:E;
    [vm_compute in E; discriminate E| |vm_compute in E; discriminate E].
  apply (nack_retries_or_parks rb Second t0 q_lease w_lease 1%nat leased_b q' w').
  - apply final_wf.
  - vm_compute. reflexivity.
  - vm_compute. reflexivity.
  - exact E.
Defined.

(** Extending a live lease moves its expiry to [visibility] from now (the
    queue's own timeout when the caller passes none), restores the in-flight
    heap, and touches nothing else, the log included. *)
Theorem extend_moves_expiry r vis now q x m :
  wf q → abs q !! x = Some (In HInflight, m) → Msg.Receipt m = r →
  let t := Add now (if vis <=? 0 then Config.Visibility (cfg q) else vis) in
  ∃ q', Extend r vis now q = Some (q', Ok t) ∧ wf q' ∧ rest q' = rest q ∧
    abs q' = <[x := (In HInflight, Msg.set_LeaseExpiry t m)]> (abs q).
Proof.
  intros Hwf Hx Er t.
  assert (leases q !! r = Some x) as Hr by (apply (wf_leases _ Hwf); by exists m).
  destruct (receipt_lookup q r x Hwf Hr) as (n & Hm & _ & _ & Ha). rewrite Hx in Ha.
  injection Ha as ->. destruct (Extend_ok r vis now q MemLog.empty x n Hwf Hr Hm)
    as (q' & E & Hwf' & Er' & Ea & _). by exists q'.
Qed.

Lemma extend_moves_expiry_witness :
  let t := Add t0 (if 0 <=? 0 then Config.Visibility (cfg q_lease) else 0) in
  ∃ q', Extend rb 0 t0 q_lease = Some (q', Ok t) ∧ wf q' ∧ rest q' = rest q_lease ∧
    abs q' = <[1%nat := (In HInflight, Msg.set_LeaseExpiry t leased_b)]> (abs q_lease).
Proof.
  apply (extend_moves_expiry rb 0 t0 q_lease 1%nat leased_b).
  - apply final_wf.
  - vm_compute. reflexivity.
  - vm_compute. reflexivity.
Defined.

(** A receipt that names no running lease - never issued, acknowledged,
    returned or expired - is refused by [Ack], [Nack] and [Extend] alike, and
    neither the queue nor the log changes. *)
Theorem stale_receipt_refused {W} `{Log W} r vis delay now q (w : W) :
  wf q → (∀ x m, abs q !! x = Some (In HInflight, m) → Msg.Receipt m ≠ r) →
  Ack r q w = Some (q, w, Some ErrNoLease) ∧
  Nack r delay now q w = Some (q, w, Some ErrNoLease) ∧
  Extend r vis now q = Some (q, Err ErrNoLease).
Proof.
  intros Hwf Hno. assert (leases q !! r = None) as Hr.
  { apply receipt_unknown; [done|]. intros x (m & Hx & Em). by apply (Hno x m). }
  split_and!; [by apply Ack_unknown|by apply Nack_unknown|by apply Extend_unknown].
Qed.

Lemma stale_receipt_refused_witness :
  Ack rb q_fill w_fill = Some (q_fill, w_fill, Some ErrNoLease) ∧
  Nack rb 0 t0 q_fill w_fill = Some (q_fill, w_fill, Some ErrNoLease) ∧
  Extend rb 0 t0 q_fill = Some (q_fill, Err ErrNoLease).
Proof.
  apply (stale_receipt_refused rb 0 0 t0 q_fill w_fill); [apply final_wf|].
  intros x m Hx Em. assert (leases q_fill !! rb = Some x) as Hr.
  { apply (wf_leases _ (final_wf fill MemLog.empty)). exact (ex_intro _ m (conj Hx Em)). }
  vm_compute in Hr. discriminate Hr.
Defined.

(** Replaying the dead letter queue takes the messages in the order they
    were parked, each durably, with a fresh attempt count and ready at once.
    It reports how many it replayed even when a write fails, and then the
    remaining ones, in order, are still parked. *)
Theorem replay_dlq_prefix {W} `{Log W} now q (w : W) :
  wf q →
  ∃ q' w' (k : nat) e, ReplayDLQ now q w = Some (q', w', (Z.of_nat k, e)) ∧ wf q' ∧
    (k ≤ length (dlq q))%nat ∧ dlq q' = drop k (dlq q) ∧ (e = None → dlq q' = []) ∧
    (∀ x, abs q' !! x =
       match abs q !! x with
       | Some (P, m) =>
           Some (if decide (x ∈ take k (dlq q))
                 then (In HReady, Msg.set_VisibleAt now (Msg.set_Attempts 0 m)) else (P, m))
       | None => None
       end) ∧
    wake q' = (if decide (k = 0%nat) then wake q else S (wake q)).
Proof.
  intros Hwf. assert (set_dlq (dlq q) q = q) as Eq by (by destruct q).
  destruct (replay_loop_ok now (dlq q) 0 q w ltac:(lia)) as
    (q' & w' & k & e & E & Hwf' & Hk & Ed & He & Ea & _ & _ & _ & Ewk & _); [by rewrite Eq|].
  rewrite Eq in Ea. exists q', w', k, e. split_and!; try done.
  - intros Hn. rewrite Ed, (He Hn). apply drop_ge. lia.
  - intros x. rewrite Ea, map_lookup_imap. by destruct (abs q !! x) as [[P m]|].
  - rewrite Ewk. destruct (0 <? 0 + Z.of_nat k) eqn:E0; case_decide; try done; lia.
Qed.

(** Both messages of [q_lease] failed twice: two dead letters. *)
Definition poison : list call :=
  lease ++ [CTick (t0 + 20 * Second); CTryReceive 2 Second (t0 + 21 * Second) (ids 30);
            CTick (t0 + 30 * Second)].
Definition q_poison : Queue := (final poison MemLog.empty).1.

Lemma replay_dlq_prefix_witness :
  ∃ q' w' (k : nat) e, ReplayDLQ t0 q_poison (faulty 1) = Some (q', w', (Z.of_nat k, e)) ∧ wf q' ∧
    (k ≤ length (dlq q_poison))%nat ∧ dlq q' = drop k (dlq q_poison) ∧ (e = None → dlq q' = []) ∧
    (∀ x, abs q' !! x =
       match abs q_poison !! x with
       | Some (P, m) =>
           Some (if decide (x ∈ take k (dlq q_poison))
                 then (In HReady, Msg.set_VisibleAt t0 (Msg.set_Attempts 0 m)) else (P, m))
       | None => None
       end) ∧
    wake q' = (if decide (k = 0%nat) then wake q_poison else S (wake q_poison)).
Proof. apply (replay_dlq_prefix t0 q_poison (faulty 1)). apply final_wf. Defined.

(** The second write is refused: one replayed, one left. *)
Example replay_stops_at_error :
  match ReplayDLQ t0 q_poison (faulty 1) with
  | Some (q', _, r) => (length (dlq q_poison), length (dlq q'), r) =
                       (2%nat, 1%nat, (1, Some (ErrIO "disk full")))
  | None => False
  end.
Proof. vm_compute. reflexivity. Qed.

(** ** Invariants *)

(** C19: with a dead letter cutoff, and as long as no write of a retry failed,
    no message is ever delivered more than [MaxAttempts] times between two
    replays: in flight it has between one and [MaxAttempts] attempts, waiting it
    has fewer, and in the dead letter queue exactly that many. *)
Theorem attempts_bounded {W} `{Log W} (c : Config) (w0 : W) q w :
  0 < Config.MaxAttempts c < two63 → reach clean (New c) w0 q w →
  ∀ x P m, abs q !! x = Some (P, m) →
    match P with
    | In HInflight => 1 ≤ Msg.Attempts m ≤ Config.MaxAttempts c
    | In _ => 0 ≤ Msg.Attempts m < Config.MaxAttempts c
    | Dead => Msg.Attempts m = Config.MaxAttempts c
    end.
Proof.
  intros Hmax Hr x P m Hx.
  assert (Config.MaxAttempts (cfg (New c)) = Config.MaxAttempts c) as Em.
  { unfold New. simpl. by repeat case_match. }
  assert (all_msgs (attempts_ok (cfg (New c))) (abs q)) as Hall.
  { revert Hr. apply (reach_ind_effect _ (λ q, all_msgs (attempts_ok (cfg (New c))) (abs q)));
      [apply New_wf|by intros y v; rewrite New_abs|].
    intros k q1 r q2 Hwf Ec Hef Hok. eapply effect_closed; [|done..].
    apply attempts_closed. by rewrite Em. }
  pose proof (Hall x (P, m) Hx) as Ha. rewrite <- Em. by destruct P as [[]|].
Qed.

Definition dead_b : Msg := default Msg.zero (snd <$> abs q_poison !! 1%nat).

Lemma attempts_bounded_witness :
  abs q_poison !! 1%nat = Some (Dead, dead_b) ∧ Msg.Attempts dead_b = Config.MaxAttempts jobs.
Proof.
  assert (abs q_poison !! 1%nat = Some (Dead, dead_b)) as Hx by (vm_compute; reflexivity).
  split; [exact Hx|].
  apply (attempts_bounded jobs MemLog.empty q_poison (final poison MemLog.empty).2) with (x := 1%nat) (P := Dead);
    [vm_compute; split; reflexivity| |exact Hx].
  apply final_reach_ok. vm_compute. eexists. reflexivity.
Defined.

(** The lease fields of a message say whether it is leased: outside the
    in-flight heap its receipt is empty and its expiry zero, whatever calls were
    made and whichever of their writes failed; and in the heap its receipt leads
    the lease table to it and to nothing else. *)
Theorem lease_fields {W} `{Log W} (c : Config) (w0 : W) q w :
  reach any (New c) w0 q w →
  (∀ x P m, abs q !! x = Some (P, m) → P ≠ In HInflight →
     Msg.Receipt m = "" ∧ Msg.LeaseExpiry m = zeroTime) ∧
  (∀ r x, leases q !! r = Some x ↔ ∃ m, abs q !! x = Some (In HInflight, m) ∧ Msg.Receipt m = r).
Proof.
  intros Hr. destruct (reach_wf _ _ _ _ _ Hr) as (Hwf & _). split; [|apply Hwf].
  assert (all_msgs lease_fields_ok (abs q)) as Hall.
  { revert Hr. apply (reach_ind_effect _ (λ q, all_msgs lease_fields_ok (abs q)));
      [apply New_wf|by intros y v; rewrite New_abs|].
    intros k q1 r q2 Hwf1 Ec Hef _. eapply effect_closed; [apply lease_fields_closed|done..]. }
  intros x P m Hx HP. by destruct (Hall x (P, m) Hx).
Qed.

Lemma lease_fields_witness :
  (∀ x P m, abs q_lease !! x = Some (P, m) → P ≠ In HInflight →
     Msg.Receipt m = "" ∧ Msg.LeaseExpiry m = zeroTime) ∧
  (∀ r x, leases q_lease !! r = Some x ↔
     ∃ m, abs q_lease !! x = Some (In HInflight, m) ∧ Msg.Receipt m = r).
Proof. apply (lease_fields jobs MemLog.empty q_lease w_lease). apply final_reach. Defined.

(** A receiver that found nothing and waits on the channel it was given
    cannot miss a message: if after any further calls, none of them a [Nack]
    that failed, some message is ready, then that channel has been closed. *)
Theorem no_missed_wakeup {W} `{Log W} max vis now rnd q1 (w1 : W) q2 w2 wake0 q3 w3 x m :
  wf q1 → fresh_ids q1 rnd (Z.to_nat max) → 0 < max →
  tryReceive max vis now rnd q1 w1 = Some (q2, w2, ([], wake0, None)) →
  reach (λ q k r _, negb (failed_nack q k r)) q2 w2 q3 w3 →
  abs q3 !! x = Some (In HReady, m) → (wake0 < wake q3)%nat.
Proof.
  intros ???? Hr%reach_drift. by eapply woken_when_ready.
Qed.

Lemma no_missed_wakeup_witness :
  tryReceive 1 Second t0 (ids 20) (New jobs) MemLog.empty =
    Some (New jobs, MemLog.empty, ([], 0%nat, None)) ∧ (0 < wake q_fill)%nat.
Proof.
  split; [vm_compute; reflexivity|].
  apply (no_missed_wakeup 1 Second t0 (ids 20) (New jobs) MemLog.empty (New jobs) MemLog.empty 0%nat
    q_fill w_fill 0%nat (default Msg.zero (snd <$> abs q_fill !! 0%nat)) (New_wf jobs)).
  - apply (admissibleb_ok (CTryReceive 1 Second t0 (ids 20))). vm_compute. reflexivity.
  - reflexivity.
  - vm_compute. reflexivity.
  - apply (final_reach_ok (λ q k r _, negb (failed_nack q k r)) fill).
    vm_compute. eexists. reflexivity.
  - vm_compute. reflexivity.
Defined.
