(* ===== verification/ReceiveProps.v ===== *)
(** * Properties of the long poll

    A poll is a sequence of attempts between other callers' calls, hands out
    only what its last attempt leased, and ends soon after its deadline. *)

From Stdlib Require Import Strings.Byte.
From S2P Require Import Prelude ContainerHeap Msg Heaps LogStore Queue QueueInv QueueSpec QueueOps QueueReceive Calls Effects History Receive.

Implicit Types (q : Queue) (m : Msg).

Definition slow : Config := Config.Mk "slow" FIFO false 2 1000.
Definition t1 : Time := unixEpoch + Second.
Definition some_ids (base i : nat) : list byte := [default x00 (Byte.of_nat ((base + i) mod 256))].

(** Two waits of 50 ms; in the second somebody else enqueues. *)
Definition round_at (i : nat) (ks : list call) (e : ending) : round :=
  let t := t1 + Z.of_nat i * poll in Round t (some_ids (16 * i)) t ks e (t + poll).
Definition wait_rounds : list round :=
  [round_at 0 [] TimedOut;
   round_at 1 [CEnqueue "late" 0 0 (t1 + poll) (some_ids 200 0)] Woken;
   round_at 2 [] TimedOut].

(** C25: a call of [Receive] is a run of the queue like any other: attempts and,
    between them, what other callers do, so every theorem about reachable
    queues holds of it.  It returns at most [max] messages, each in flight
    under the receipt it carries; it returns none only if it was not to wait or
    the deadline has passed; and it fails only when an attempt failed or the
    caller hung up, in both cases with nothing leased by its last attempt. *)
Theorem receive_is_attempts {W} `{Log W} max visibility wait now rounds q (w : W) :
  let n := at_least_one max in
  let vis := effective q visibility in
  wf q → rounds_ok rounds n vis q w = true →
  ∃ q' w' res, Receive max visibility wait now rounds q w = Some (q', w', res) ∧ wf q' ∧
    reach any q w q' w' ∧
    match res with
    | Received out =>
        Z.of_nat (length out) ≤ n ∧ (∀ m, m ∈ out → held q' m) ∧
        (out = [] → wait ≤ 0 ∨ ∃ r, r ∈ rounds ∧ Add now wait ≤ rd_clock r)
    | Failed e =>
        ∃ qa wa qb wb r wake0 err, reach any q w qa wa ∧ r ∈ rounds ∧
          tryReceive n vis (rd_now r) (rd_rnd r) qa wa = Some (qb, wb, ([], wake0, err)) ∧
          reach any qb wb q' w' ∧ (err = Some e ∨ err = None ∧ ∃ r, r ∈ rounds ∧ rd_end r = Cancelled e)
    | Waiting => True
    end.
Proof.
  intros n vis Hwf Hok. unfold Receive. fold n vis.
  destruct (receive_loop_ok n vis wait (Add now wait) rounds q w Hwf Hok)
    as (q' & w' & res & E & Hwf' & Hr & Hres).
  exists q', w', res. split_and!; [done..|]. destruct Hres as [->|Hres]; [done|].
  destruct Hres as [qa wa qb wb r wake0 out err Hra Hin Hk Et Hrb Hq Ho].
  destruct (reach_wf_from _ _ _ _ _ Hwf Hra) as [Hwfa _]. destruct res as [out'|e|]; [| |done].
  - destruct Ho as [[= -> ->] Hn]. destruct (tryReceive_held _ _ _ _ _ _ _ _ _ _ Hwfa Hk Et) as [Hlen Hheld].
    assert (0 < n) as Hpos by (unfold n, at_least_one; destruct (max <=? 0) eqn:?; lia).
    split_and!; [lia| |done]. intros m Hm. rewrite <- Hq; [by apply Hheld|]. intros ->. set_solver.
  - destruct Ho as [[= -> ->]|[[= -> ->] Hc]]; exists qa, wa, qb, wb, r, wake0; eexists; split_and!;
      try done; [by left|by right].
Qed.

Lemma receive_is_attempts_witness :
  match Receive 0 0 Second t1 wait_rounds (New slow) MemLog.empty with
  | Some (q', _, Received [m]) => Msg.Body m = "late" ∧ held q' m
  | _ => False
  end.
Proof.
  destruct (receive_is_attempts 0 0 Second t1 wait_rounds (New slow) MemLog.empty)
    as (q' & w' & res & E & _ & _ & Hres); [apply New_wf|vm_compute; reflexivity|].
  rewrite E. destruct res as [[|m [|m2 out]]|e|]; try (vm_compute in E; discriminate E).
  destruct Hres as (_ & Hh & _). split; [|apply Hh; set_solver].
  vm_compute in E. injection E as _ _ <-. reflexivity.
Defined.

(** C26: a poll that nobody wakes still ends: every wait is cut to 50 ms, so on
    a clock that does not go back it needs at most one attempt for every 50 ms
    of its waiting time, and one more after the deadline. *)
Theorem receive_returns {W} `{Log W} max visibility wait now rounds q (w : W) :
  wf q → rounds_ok rounds (at_least_one max) (effective q visibility) q w = true →
  paced now (Add now wait) rounds → wait < two63 → (0 < length rounds)%nat →
  wait ≤ (Z.of_nat (length rounds) - 1) * poll →
  ∃ q' w' res, Receive max visibility wait now rounds q w = Some (q', w', res) ∧ res ≠ Waiting.
Proof.
  intros Hwf Hok Hp Hw Hl Hn. unfold Receive.
  apply (receive_loop_returns _ _ _ _ _ now); [done..| |done|]; unfold Add; lia.
Qed.

Lemma receive_returns_witness :
  match Receive 1 0 (90 * Millisecond) t1 [round_at 0 [] TimedOut; round_at 1 [] TimedOut; round_at 2 [] TimedOut]
    (New slow) MemLog.empty with
  | Some (_, _, res) => res ≠ Waiting
  | None => False
  end.
Proof.
  destruct (receive_returns 1 0 (90 * Millisecond) t1
    [round_at 0 [] TimedOut; round_at 1 [] TimedOut; round_at 2 [] TimedOut] (New slow) MemLog.empty)
    as (q' & w' & res & E & Hres).
  - apply New_wf.
  - vm_compute. reflexivity.
  - vm_compute. repeat split; discriminate.
  - vm_compute. reflexivity.
  - simpl. lia.
  - vm_compute. discriminate.
  - rewrite E. exact Hres.
Defined.
