(* ===== verification/HeapProps.v ===== *)
(** * Properties of the heaps, the identifiers and the statistics

    [queue/heaps.go] driven by [container/heap], [newID] and [Stats]. *)

From Stdlib Require Import Strings.Byte.
From S2P Require Import Prelude ContainerHeap Msg Heaps LogStore Queue QueueInv QueueSpec QueueOps Calls QueueProps.

Implicit Types (q : Queue) (x y : loc) (m n : Msg).

(** ** The comparators *)

(** The ready heap's comparator is a strict order, total on messages with
    different sequence numbers: a higher priority always goes first, and among
    equals the older one, or in LIFO mode the newer one. *)
Theorem orderBy_strict_total (mode : Mode) (a b c : Msg) :
  orderBy mode a a = false ∧
  (orderBy mode a b = true → orderBy mode b c = true → orderBy mode a c = true) ∧
  (Msg.Seq a ≠ Msg.Seq b → orderBy mode a b = negb (orderBy mode b a)) ∧
  (Msg.Priority b < Msg.Priority a → orderBy mode a b = true) ∧
  (Msg.Priority a = Msg.Priority b →
   orderBy mode a b = if bool_decide (mode = LIFO) then Msg.Seq b <? Msg.Seq a
                      else Msg.Seq a <? Msg.Seq b).
Proof.
  unfold orderBy. split_and!; intros *; repeat case_bool_decide; rewrite ?Z.ltb_lt; try lia; try done.
Qed.

(** ** The heap through its interface *)

(** C20: popping a well-formed heap returns its root, which no other message of
    the heap precedes; the rest stays a heap with every cached index right, and
    only indices were written. *)
Theorem heap_pop_least (mem : store) (h : msgHeap) (x : loc) :
  mh_ok mem h → peek h = Some x →
  ∃ mem' h', heap_Pop (mem, h) = Some (x, (mem', h')) ∧ mh_ok mem' h' ∧
    x :: items h' ≡ₚ items h ∧ (∀ y, Msg.erase <$> mem' !! y = Msg.erase <$> mem !! y) ∧
    ∀ y m n, y ∈ items h → mem !! y = Some n → mem !! x = Some m → less h n m = false.
Proof.
  intros Hok Hx. destruct (mh_Pop_ok mem h x Hok Hx) as (mem' & h' & E & Hok' & _ & Hp & [Hm _]).
  exists mem', h'. split_and!; [done..|]. intros y m n Hy Hn Hmx.
  pose proof (mh_peek_least mem h x y Hok Hx Hy) as Hl. unfold locless in Hl.
  by rewrite Hn, Hmx in Hl.
Qed.

Lemma fill_ready : mh_ok (mem q_fill) (ready q_fill).
Proof. apply (inv_heap _ _ (wf_inv _ (final_wf fill MemLog.empty)) HReady). Qed.

Lemma lease_inflight : mh_ok (mem q_lease) (inflight q_lease).
Proof. apply (inv_heap _ _ (wf_inv _ (final_wf lease MemLog.empty)) HInflight). Qed.

Lemma heap_pop_least_witness :
  ∃ mem' h', heap_Pop (mem q_fill, ready q_fill) = Some (1%nat, (mem', h')) ∧ mh_ok mem' h' ∧
    1%nat :: items h' ≡ₚ items (ready q_fill) ∧
    (∀ y, Msg.erase <$> mem' !! y = Msg.erase <$> mem q_fill !! y) ∧
    ∀ y m n, y ∈ items (ready q_fill) → mem q_fill !! y = Some n → mem q_fill !! 1%nat = Some m →
      less (ready q_fill) n m = false.
Proof.
  apply (heap_pop_least (mem q_fill) (ready q_fill) 1%nat); [apply fill_ready|].
  vm_compute. reflexivity.
Defined.

(** Removing at the index cached in a message removes that very message,
    without a search, and leaves a heap whose cached indices are all right. *)
Theorem heap_remove_by_index (mem : store) (h : msgHeap) (x : loc) (m : Msg) :
  mh_ok mem h → x ∈ items h → mem !! x = Some m →
  ∃ mem' h', heap_Remove (mem, h) (Msg.index m) = Some (x, (mem', h')) ∧ mh_ok mem' h' ∧
    x :: items h' ≡ₚ items h ∧ (∀ y, Msg.erase <$> mem' !! y = Msg.erase <$> mem !! y) ∧
    ∀ i y, items h' !! i = Some y → ∃ n, mem' !! y = Some n ∧ Msg.index n = Z.of_nat i.
Proof.
  intros Hok Hx Hm. destruct (mh_Remove_ok mem h x m Hok Hx Hm)
    as (mem' & h' & E & Hok' & _ & Hp & [Hf _]).
  exists mem', h'. split_and!; [done..|]. apply (mh_indexed _ _ Hok').
Qed.

Definition root : Msg := default Msg.zero (mem q_lease !! 1%nat).

Lemma heap_remove_by_index_witness :
  ∃ mem' h', heap_Remove (mem q_lease, inflight q_lease) (Msg.index root) = Some (1%nat, (mem', h')) ∧
    mh_ok mem' h' ∧ 1%nat :: items h' ≡ₚ items (inflight q_lease) ∧
    (∀ y, Msg.erase <$> mem' !! y = Msg.erase <$> mem q_lease !! y) ∧
    ∀ i y, items h' !! i = Some y → ∃ n, mem' !! y = Some n ∧ Msg.index n = Z.of_nat i.
Proof.
  apply (heap_remove_by_index (mem q_lease) (inflight q_lease) 1%nat root).
  - apply lease_inflight.
  - vm_compute. left.
  - vm_compute. reflexivity.
Defined.

(** After the key of one message of the heap was changed to anything,
    [heap.Fix] at its cached index makes the slice a heap again, over the same
    messages. *)
Theorem heap_fix_restores (mem : store) (h : msgHeap) (x : loc) (m m1 : Msg) :
  mh_ok mem h → x ∈ items h → mem !! x = Some m → Msg.index m1 = Msg.index m →
  ∃ mem' h', heap_Fix (<[x := m1]> mem, h) (Msg.index m1) = Some (mem', h') ∧
    mh_ok mem' h' ∧ items h' ≡ₚ items h ∧ less h' = less h ∧
    ∀ y, Msg.erase <$> mem' !! y = Msg.erase <$> (<[x := m1]> mem) !! y.
Proof.
  intros Hok Hx Hm Ei. destruct (mh_Fix_ok mem h x m m1 Hok Hx Hm Ei)
    as (mem' & h' & E & Hok' & El & Hp & [Hf _]).
  by exists mem', h'.
Qed.

Definition bumped : Msg := Msg.set_LeaseExpiry (t0 + Hour) root.

Lemma heap_fix_restores_witness :
  ∃ mem' h', heap_Fix (<[1%nat := bumped]> (mem q_lease), inflight q_lease) (Msg.index bumped) =
      Some (mem', h') ∧
    mh_ok mem' h' ∧ items h' ≡ₚ items (inflight q_lease) ∧ less h' = less (inflight q_lease) ∧
    ∀ y, Msg.erase <$> mem' !! y = Msg.erase <$> (<[1%nat := bumped]> (mem q_lease)) !! y.
Proof.
  apply (heap_fix_restores (mem q_lease) (inflight q_lease) 1%nat root bumped).
  - apply lease_inflight.
  - vm_compute. left.
  - vm_compute. reflexivity.
  - vm_compute. reflexivity.
Defined.

(** ** Identifiers *)

Definition digits : list N := List.map N.of_nat (List.seq 0 16).

Lemma hexdigit_inj (a b : N) : (a < 16)%N → (b < 16)%N → hexdigit a = hexdigit b → a = b.
Proof.
  intros Ha Hb E. assert (forallb (λ i, forallb (λ j,
    negb (bool_decide (hexdigit i = hexdigit j)) || (i =? j)%N) digits) digits = true) as Hall
    by (vm_compute; reflexivity).
  rewrite forallb_forall in Hall.
  assert (∀ k, (k < 16)%N → List.In k digits) as Hin.
  { intros k Hk. apply in_map_iff. exists (N.to_nat k). split; [lia|]. apply in_seq. lia. }
  pose proof (Hall a (Hin a Ha)) as Hb1. rewrite forallb_forall in Hb1.
  pose proof (Hb1 b (Hin b Hb)) as Hc. rewrite bool_decide_true in Hc by done.
  simpl in Hc. by apply N.eqb_eq.
Qed.

Lemma byte_nibbles (a b : byte) :
  hexdigit (Byte.to_N a / 16) = hexdigit (Byte.to_N b / 16) →
  hexdigit (Byte.to_N a mod 16) = hexdigit (Byte.to_N b mod 16) → a = b.
Proof.
  intros H1 H2. pose proof (Byte.to_N_bounded a). pose proof (Byte.to_N_bounded b).
  apply hexdigit_inj in H1; [|apply N.Div0.div_lt_upper_bound; lia..].
  apply hexdigit_inj in H2; [|apply N.mod_lt; lia..].
  assert (Byte.to_N a = Byte.to_N b) as E.
  { rewrite (N.div_mod (Byte.to_N a) 16), (N.div_mod (Byte.to_N b) 16) by lia. congruence. }
  assert (Some a = Some b) as [= ->]; [|done]. by rewrite <- !Byte.of_to_N, E.
Qed.

(** Different random bytes give different identifiers: sixteen bytes make
    a receipt or message id of thirty-two digits, and none are confused. *)
Theorem newID_injective (b1 b2 : list byte) :
  newID b1 = newID b2 ↔ b1 = b2.
Proof.
  split; [|by intros ->]. unfold newID. revert b2.
  induction b1 as [|a b1 IH]; intros [|b b2] E; try done. simpl in E.
  injection E as E1 E2 E3. f_equal; [by apply byte_nibbles|by apply IH].
Qed.

(** ** Stats *)

Lemma oldest_fold (mem : store) (l : list loc) (t : Time) :
  (∀ x, x ∈ l → ∃ m, mem !! x = Some m ∧ zeroTime < Msg.EnqueuedAt m) →
  ∃ t', foldl (oldest_step mem) (Some t) l = Some t' ∧
    ((t' = t ∧ (l = [] ∨ t ≠ zeroTime)) ∨ ∃ x m, x ∈ l ∧ mem !! x = Some m ∧ t' = Msg.EnqueuedAt m) ∧
    (∀ x m, x ∈ l → mem !! x = Some m → t' ≤ Msg.EnqueuedAt m) ∧ (t ≠ zeroTime → t' ≤ t).
Proof.
  revert t. induction l as [|x l IH]; intros t Hl; simpl.
  { exists t. split_and!; [done|auto| |lia]. by intros x m ?%not_elem_of_nil. }
  destruct (Hl x) as (m & Hm & Hpos); [set_solver|]. rewrite Hm. simpl.
  set (t1 := if IsZero t || Before (Msg.EnqueuedAt m) t then Msg.EnqueuedAt m else t).
  destruct (IH t1) as (t' & -> & Hwhere & Hmin & Hle); [set_solver|].
  assert (t1 ≠ zeroTime ∧ t1 ≤ Msg.EnqueuedAt m ∧ (t ≠ zeroTime → t1 ≤ t) ∧
    (t1 = t ∧ t ≠ zeroTime ∨ t1 = Msg.EnqueuedAt m)) as (Hnz & Hle1 & Hle2 & Hc).
  { unfold t1, IsZero, Before, zeroTime in *. destruct (t =? 0) eqn:Ez; simpl; [lia|].
    destruct (Msg.EnqueuedAt m <? t) eqn:El; lia. }
  exists t'. split_and!; [done|..].
  - destruct Hwhere as [[-> _]|(y & n & Hy & Hn & ->)].
    + destruct Hc as [[-> ?]| ->]; [left; auto|right; exists x, m; set_solver].
    + right. exists y, n. set_solver.
  - intros y n [->|Hy]%elem_of_cons Hn; [|by eapply Hmin]. simplify_eq. specialize (Hle Hnz). lia.
  - intros Ht. specialize (Hle Hnz). specialize (Hle2 Ht). lia.
Qed.

(** [Stats] reports the sizes of the heaps and of the dead letter queue,
    and the age in milliseconds of the oldest ready message (messages carry a
    nonzero enqueue time), zero when nothing is ready. *)
Theorem stats_of_queue (now : Time) q :
  wf q → (∀ x m, abs q !! x = Some (In HReady, m) → zeroTime < Msg.EnqueuedAt m) →
  ∃ s, Stats_ now q = Some s ∧
    Stats.Ready s = Z.of_nat (length (ready_of (abs q))) ∧
    Stats.Delayed s = Z.of_nat (length (items (delayed q))) ∧
    Stats.Inflight s = Z.of_nat (length (items (inflight q))) ∧
    Stats.DLQ s = Z.of_nat (length (dlq q)) ∧
    Stats.Degraded s = walErr q ∧
    ((ready_of (abs q) = [] ∧ Stats.OldestReadyAgeMS s = 0) ∨
     ∃ x m, abs q !! x = Some (In HReady, m) ∧
       (∀ y n, abs q !! y = Some (In HReady, n) → Msg.EnqueuedAt m ≤ Msg.EnqueuedAt n) ∧
       Stats.OldestReadyAgeMS s = Z.quot (Sub now (Msg.EnqueuedAt m)) Millisecond).
Proof.
  intros [Hinv _] Hpos.
  assert (Hr : ∀ x, x ∈ items (ready q) → ∃ m, mem q !! x = Some m ∧ abs q !! x = Some (In HReady, Msg.erase m)).
  { intros x Hx. destruct (inv_mem _ _ Hinv x) as [m Hm].
    { rewrite app_nil_r. apply elem_of_live. by exists (In HReady). }
    exists m. split; [done|]. by apply (abs_at q [] HReady). }
  destruct (oldest_fold (mem q) (items (ready q)) zeroTime) as (t & Et & Hwhere & Hmin & _).
  { intros x Hx. destruct (Hr x Hx) as (m & Hm & Ha). exists m. split; [done|]. by apply (Hpos x _ Ha). }
  unfold Stats_. rewrite Et. simpl_bind. eexists. split; [done|]. simpl. unfold mh_Len. simpl.
  pose proof (QueueReceive.ready_of_abs q [] Hinv) as Hp.
  split_and!; try done.
  - f_equal. apply Permutation_length in Hp. by rewrite Hp, length_fmap.
  - destruct Hwhere as [[-> [Hnil|?]]|(x & m & Hx & Hm & ->)]; [left|done|right].
    + rewrite Hnil in Hp. split; [by apply Permutation_nil_r|done].
    + destruct (Hr x Hx) as (m' & Hm' & Ha). assert (m' = m) as -> by congruence.
      exists x, (Msg.erase m). split_and!; [done| |].
      * intros y n Hy. destruct (abs_heap q [] HReady y n Hinv Hy) as (Hyi & n' & Hn' & ->).
        by apply (Hmin y n').
      * pose proof (Hpos _ _ Ha) as Hz. unfold IsZero.
        destruct (Msg.EnqueuedAt m =? 0) eqn:E0; [unfold zeroTime in Hz; simpl in Hz; lia|done].
Qed.

Lemma stats_of_queue_witness :
  ∃ s, Stats_ (t0 + Second) q_fill = Some s ∧
    Stats.Ready s = Z.of_nat (length (ready_of (abs q_fill))) ∧ Stats.DLQ s = 0.
Proof.
  destruct (stats_of_queue (t0 + Second) q_fill (final_wf fill MemLog.empty)) as (s & E & H1 & _ & _ & H2 & _).
  - assert (map_Forall (λ _ v, zeroTime < Msg.EnqueuedAt v.2) (abs q_fill)) as Hall.
    { apply (bool_decide_eq_true_1 _). vm_compute. reflexivity. }
    intros x m Hx. exact (Hall x _ Hx).
  - exists s. split; [exact E|]. split; [exact H1|]. rewrite H2. vm_compute. reflexivity.
Defined.
