(* ===== verification/Bytes.v ===== *)
(** * Bytes, big-endian words and CRC-32

    What [queue/wal.go] uses of [encoding/binary] and [hash/crc32]: 32-bit
    words in big-endian order and the IEEE checksum, computed bit by bit as the
    standard library's table-free version does.  A changed byte always changes
    the checksum ([crc32_one_byte]), because every step of the register is
    injective. *)

From Stdlib Require Import Strings.Byte.
From S2P Require Import Prelude.

Abbreviation bytes := (list byte) (only parsing).

Definition byte_of (n : N) : byte := default x00 (Byte.of_N (n mod 256)).

Lemma byte_of_to_N n : Byte.to_N (byte_of n) = (n mod 256)%N.
Proof.
  unfold byte_of. destruct (Byte.of_N (n mod 256)) as [b|] eqn:E; simpl.
  - by apply Byte.to_of_N in E.
  - apply Byte.of_N_None_iff in E. pose proof (N.mod_lt n 256). lia.
Qed.

(** [binary.BigEndian.PutUint32] and [Uint32]. *)
Definition put32 (n : N) : bytes :=
  [byte_of (n / 16777216); byte_of (n / 65536); byte_of (n / 256); byte_of n].

Definition get32 (b : bytes) : N :=
  fold_left (λ acc c, (acc * 256 + Byte.to_N c)%N) (take 4 b) 0%N.

Lemma put32_length n : length (put32 n) = 4%nat.
Proof. done. Qed.

Lemma get32_put32 n tl : (n < 4294967296)%N → get32 (put32 n ++ tl) = n.
Proof.
  intros Hn. unfold get32, put32. cbn [app firstn take fold_left].
  rewrite !byte_of_to_N.
  pose proof (N.Div0.div_mod n 256). pose proof (N.Div0.div_mod (n / 256) 256).
  pose proof (N.Div0.div_mod (n / 65536) 256).
  replace (n / 65536)%N with (n / 256 / 256)%N in * by (rewrite N.Div0.div_div; done).
  replace (n / 16777216)%N with (n / 256 / 256 / 256)%N in * by (rewrite !N.Div0.div_div; done).
  assert (n / 256 / 256 / 256 < 256)%N as Hs.
  { rewrite !N.Div0.div_div. apply N.Div0.div_lt_upper_bound. lia. }
  rewrite (N.mod_small (n / 256 / 256 / 256)) by done. rewrite take_0. simpl fold_left. lia.
Qed.

(** ** CRC-32 *)

Definition poly : N := 3988292384. (* 0xEDB88320, the reversed IEEE polynomial *)
Definition mask32 : N := 4294967295.

Definition crc_shift (c : N) : N :=
  if N.testbit c 0 then N.lxor (N.div2 c) poly else N.div2 c.

(** One byte into the register. *)
Definition crc_byte (c : N) (b : byte) : N := Nat.iter 8 crc_shift (N.lxor c (Byte.to_N b)).

(** [crc32.ChecksumIEEE]. *)
Definition crc32 (b : bytes) : N := N.lxor (fold_left crc_byte b mask32) mask32.

(** The check value of the CRC catalogue: "123456789" gives 0xCBF43926. *)
Example crc32_check : crc32 (String.list_byte_of_string "123456789") = 3421780262%N.
Proof. vm_compute. reflexivity. Qed.

Definition w32 (n : N) : Prop := (n < 2 ^ 32)%N.

Lemma w32_bits n : w32 n ↔ ∀ i, (32 <= i)%N → N.testbit n i = false.
Proof.
  unfold w32. split.
  - intros Hn i Hi. destruct (decide (n = 0%N)) as [->|Hz]; [apply N.bits_0|].
    apply N.bits_above_log2. apply N.log2_lt_pow2 in Hn; lia.
  - intros Hb. destruct (decide (n = 0%N)) as [->|Hz]; [lia|].
    apply N.log2_lt_pow2; [lia|]. destruct (decide (N.log2 n < 32)%N); [done|].
    pose proof (N.bit_log2 n Hz) as Ht. rewrite Hb in Ht by lia. done.
Qed.

Lemma w32_lxor a b : w32 a → w32 b → w32 (N.lxor a b).
Proof.
  rewrite !w32_bits. intros Ha Hb i Hi. rewrite N.lxor_spec, Ha, Hb by done. done.
Qed.

Lemma w32_byte b : w32 (Byte.to_N b).
Proof. unfold w32. pose proof (Byte.to_N_bounded b). lia. Qed.

Lemma div2_testbit a i : N.testbit (N.div2 a) i = N.testbit a (i + 1).
Proof. rewrite N.div2_spec, N.shiftr_spec by lia. done. Qed.

Lemma w32_shift c : w32 c → w32 (crc_shift c).
Proof.
  intros Hc. assert (w32 (N.div2 c)) as Hd.
  { rewrite w32_bits in *. intros i Hi. rewrite div2_testbit. apply Hc. lia. }
  unfold crc_shift. destruct (N.testbit c 0); [|done]. apply w32_lxor; [done|]. by unfold w32, poly.
Qed.

(** The top bit of the result tells which branch was taken. *)
Lemma crc_shift_top c : w32 c → N.testbit (crc_shift c) 31 = N.testbit c 0.
Proof.
  intros Hc. assert (N.testbit (N.div2 c) 31 = false) as Hd.
  { rewrite div2_testbit. rewrite w32_bits in Hc. apply Hc. lia. }
  unfold crc_shift. destruct (N.testbit c 0); [|done]. by rewrite N.lxor_spec, Hd.
Qed.

Lemma div2_inj a b : N.testbit a 0 = N.testbit b 0 → N.div2 a = N.div2 b → a = b.
Proof.
  intros H0 Hd. apply N.bits_inj. intros i. destruct (N.eq_0_gt_0_cases i) as [->|Hi]; [done|].
  replace i with (i - 1 + 1)%N by lia. by rewrite <- !div2_testbit, Hd.
Qed.

Lemma lxor_inj_r a b c : N.lxor a c = N.lxor b c → a = b.
Proof.
  intros E. apply (f_equal (λ x, N.lxor x c)) in E.
  by rewrite !N.lxor_assoc, N.lxor_nilpotent, !N.lxor_0_r in E.
Qed.

Lemma crc_shift_inj a b : w32 a → w32 b → crc_shift a = crc_shift b → a = b.
Proof.
  intros Ha Hb E. assert (N.testbit a 0 = N.testbit b 0) as H0.
  { by rewrite <- (crc_shift_top a), <- (crc_shift_top b), E. }
  apply div2_inj; [done|]. unfold crc_shift in E. rewrite H0 in E.
  destruct (N.testbit b 0); [|done]. by apply lxor_inj_r in E.
Qed.

Lemma w32_iter k c : w32 c → w32 (Nat.iter k crc_shift c).
Proof. intros Hc. induction k; simpl; [done|]. by apply w32_shift. Qed.

Lemma crc_iter_inj k a b :
  w32 a → w32 b → Nat.iter k crc_shift a = Nat.iter k crc_shift b → a = b.
Proof.
  intros Ha Hb. induction k as [|k IH]; simpl; [done|].
  intros E. apply IH, crc_shift_inj; [by apply w32_iter..|done].
Qed.

Lemma w32_crc_byte c b : w32 c → w32 (crc_byte c b).
Proof. intros Hc. apply w32_iter, w32_lxor; [done|apply w32_byte]. Qed.

Lemma w32_crc_fold l c : w32 c → w32 (fold_left crc_byte l c).
Proof. revert c. induction l as [|b l IH]; intros c Hc; simpl; [done|]. by apply IH, w32_crc_byte. Qed.

(** The rest of the data keeps different registers different. *)
Lemma crc_fold_inj l a b :
  w32 a → w32 b → fold_left crc_byte l a = fold_left crc_byte l b → a = b.
Proof.
  revert a b. induction l as [|x l IH]; intros a b Ha Hb E; simpl in E; [done|].
  apply IH in E; [|by apply w32_crc_byte..]. apply crc_iter_inj in E;
    [|apply w32_lxor; [done|apply w32_byte]..]. by apply lxor_inj_r in E.
Qed.

Lemma crc32_w32 l : (crc32 l < 4294967296)%N.
Proof. apply w32_lxor; [apply w32_crc_fold|]; by unfold w32, mask32. Qed.

Lemma crc32_change_byte pre a b post :
  a ≠ b → crc32 (pre ++ a :: post) ≠ crc32 (pre ++ b :: post).
Proof.
  intros Hab E. apply lxor_inj_r in E. rewrite !fold_left_app in E. simpl in E.
  set (c := fold_left crc_byte pre mask32) in *.
  assert (w32 c) as Hc by (apply w32_crc_fold; by unfold w32, mask32).
  apply crc_fold_inj in E; [|by apply w32_crc_byte..].
  apply crc_iter_inj in E; [|apply w32_lxor; [done|apply w32_byte]..].
  rewrite !(N.lxor_comm c) in E. apply lxor_inj_r in E. apply Hab.
  assert (Some a = Some b) as [= ->]; [|done]. by rewrite <- !Byte.of_to_N, E.
Qed.
