(* ===== verification/Encoding.v ===== *)
(** * The JSON encoder, as an interface

    The log writes a record with [json.Marshal] and reads it with
    [json.Unmarshal]; both are the class [Json].  [JsonLaws] states what
    encoding/json documents and the log relies on: a record whose strings are
    valid UTF-8, whose times are in the years RFC 3339 can write and whose
    integers fit their types comes back as it was, without the fields that are
    not exported. *)

From Stdlib Require Import Strings.Byte Strings.Ascii.
From S2P Require Import Prelude Bytes Msg.

(** ** Valid UTF-8 (RFC 3629) *)

Definition between (lo hi n : N) : bool := ((lo <=? n) && (n <=? hi))%N.
Definition continuation (c : ascii) : bool := between 128 191 (N_of_ascii c).

(** The second byte of a three byte sequence, and of a four byte one: no
    overlong form, no surrogate, nothing past U+10FFFF. *)
Definition second3 (a b : N) : bool :=
  if (a =? 224)%N then between 160 191 b
  else if (a =? 237)%N then between 128 159 b
  else between 225 239 a && between 128 191 b.
Definition second4 (a b : N) : bool :=
  if (a =? 240)%N then between 144 191 b
  else if (a =? 244)%N then between 128 143 b
  else between 241 243 a && between 128 191 b.

Fixpoint utf8 (s : string) : bool :=
  match s with
  | EmptyString => true
  | String a s =>
      if (N_of_ascii a <? 128)%N then utf8 s
      else match s with
      | EmptyString => false
      | String b s =>
          if between 194 223 (N_of_ascii a) then continuation b && utf8 s
          else match s with
          | EmptyString => false
          | String c s =>
              if (N_of_ascii a <? 240)%N
              then second3 (N_of_ascii a) (N_of_ascii b) && continuation c && utf8 s
              else match s with
              | EmptyString => false
              | String d s =>
                  second4 (N_of_ascii a) (N_of_ascii b) && continuation c && continuation d && utf8 s
              end
          end
      end
  end.

(** ** Representable values *)

(** From year 1 to the last days of year 9999, whatever the zone. *)
Definition json_time (t : Time) : bool := (0 <=? t) && (t <? 3652058 * 86400 * Second).
Definition fits_i64 (z : Z) : bool := (- two63 <=? z) && (z <? two63).
Definition fits_u64 (z : Z) : bool := (0 <=? z) && (z <? two64).

Definition msg_safe (m : Msg) : bool :=
  utf8 (Msg.ID m) && utf8 (Msg.Body m) && fits_i64 (Msg.Priority m) && fits_u64 (Msg.Seq m) &&
  json_time (Msg.VisibleAt m) && json_time (Msg.EnqueuedAt m) && fits_i64 (Msg.Attempts m) &&
  utf8 (Msg.Receipt m) && json_time (Msg.LeaseExpiry m).

Definition config_safe (c : Config) : bool :=
  utf8 (Config.Name c) && utf8 (Config.Mode c) && fits_i64 (Config.MaxAttempts c) &&
  fits_i64 (Config.VisibilityTimeoutMS c).

Definition opt_safe {A} (f : A → bool) (o : option A) : bool :=
  match o with Some a => f a | None => true end.

Definition json_safe (r : Rec) : bool :=
  utf8 (Rec.Op r) && utf8 (Rec.Queue r) && utf8 (Rec.ID r) && opt_safe msg_safe (Rec.Msg r) &&
  opt_safe config_safe (Rec.Config r) && fits_u64 (Rec.Epoch r) && fits_u64 (Rec.Seq r) &&
  fits_i64 (Rec.At r).

(** ** The interface *)

(** [json.Marshal] of a [Record] and [json.Unmarshal] into one. *)
Class Json := {
  marshal : Rec → option bytes;
  unmarshal : bytes → option Rec;
}.

Class JsonLaws `{Json} := {
  marshal_readable r b : marshal r = Some b → b ≠ [] ∧ is_Some (unmarshal b);
  marshal_safe r :
    json_safe r = true → ∃ b, marshal r = Some b ∧ unmarshal b = Some (Rec.erase r);
}.

(** ** Safe texts and values *)

Lemma utf8_ascii a s : (N_of_ascii a < 128)%N → utf8 (String a s) = utf8 s.
Proof. intros Ha. simpl. by rewrite (proj2 (N.ltb_lt _ _)). Qed.

Lemma i64_fits z : fits_i64 (i64 z) = true.
Proof. pose proof (i64_range z) as [H1 H2]. unfold fits_i64. lia. Qed.
Lemma u64_fits z : fits_u64 (u64 z) = true.
Proof. pose proof (u64_range z) as [H1 H2]. unfold fits_u64. lia. Qed.

Lemma json_safe_At r a : fits_i64 a = true → json_safe r = true → json_safe (Rec.set_At a r) = true.
Proof.
  intros Ha. unfold json_safe. rewrite !andb_true_iff. intros (Hr & _). by split.
Qed.

Example utf8_accepts : utf8 "queue/1" = true.
Proof. reflexivity. Qed.
Example utf8_refuses_overlong :
  utf8 (String (ascii_of_N 192) (String (ascii_of_N 128) EmptyString)) = false.
Proof. reflexivity. Qed.
Example utf8_refuses_surrogate :
  utf8 (String (ascii_of_N 237) (String (ascii_of_N 160) (String (ascii_of_N 128) EmptyString))) = false.
Proof. reflexivity. Qed.
