(* ===== verification/Wal.v ===== *)
(** * queue/wal.go: the write ahead log

    The log is a file of frames: a length, a checksum, a body.  The file is its
    bytes as a reader of this process sees them ([cache]) and the bytes a crash
    cannot take away ([disk], everything up to the last successful [Sync]).
    What the operating system answers is an argument of each operation: a
    [write] may stop after any number of bytes, a [sync], [truncate], [rename]
    or [open] may fail.  The encoder is the class [Json] of [Encoding.v]. *)

From Stdlib Require Import Strings.Byte.
From S2P Require Import Prelude Bytes Msg LogStore Encoding.

(** ** Frames *)

Definition recHeader : Z := 8.
Definition maxRecord : Z := Z.shiftl 32 20.

(** The bytes [encode] builds around a body. *)
Definition frame (body : bytes) : bytes :=
  put32 (N.of_nat (length body)) ++ put32 (crc32 body) ++ body.

Definition encode `{Json} (rec : Rec) : result bytes :=
  match marshal rec with
  | None => Err (ErrIO "json")
  | Some body =>
      if maxRecord <? Z.of_nat (length body) then Err (ErrOther "record too large")
      else Ok (frame body)
  end.

(** One iteration of the loop of [scan] on the unread bytes [rd]; [eof] says
    whether the reader ends in [io.EOF] or in a read error. *)
Inductive next_result :=
  | NextEnd
  | NextBad (reason : string)
  | NextRec (rec : Rec) (n : nat) (rd : bytes).

Definition next_frame `{Json} (rd : bytes) (eof : bool) : next_result :=
  match rd with
  | [] => if eof then NextEnd else NextBad "partial header"
  | _ =>
      if decide (length rd < 8)%nat then NextBad "partial header"
      else
        let n := get32 (take 4 rd) in
        let sum := get32 (take 4 (drop 4 rd)) in
        if (n =? 0)%N || (maxRecord <? Z.of_N n) then NextBad "implausible record length"
        else
          let rd := drop 8 rd in
          if decide (length rd < N.to_nat n)%nat then NextBad "truncated body"
          else
            let body := take (N.to_nat n) rd in
            if negb (crc32 body =? sum)%N then NextBad "checksum mismatch"
            else match unmarshal body with
                 | None => NextBad "undecodable record"
                 | Some rec => NextRec rec (N.to_nat n) (drop (N.to_nat n) rd)
                 end
  end.

(** ** The file *)

Record file := File { cache : bytes; disk : bytes }.

(** [f.WriteAt(buf, off)].  A failed one stops early: at least one byte is
    missing, as [io.WriterAt] has it, and the [k] bytes before it are there. *)
Definition overwrite (l : bytes) (off : nat) (buf : bytes) : bytes :=
  take off l ++ replicate (off - length l) x00 ++ buf ++ drop (off + length buf) l.

Definition WriteAt (f : file) (buf : bytes) (off : Z) (fault : option (nat * error)) :
    file * option error :=
  match fault with
  | None => (File (overwrite (cache f) (Z.to_nat off) buf) (disk f), None)
  | Some (k, e) => (File (overwrite (cache f) (Z.to_nat off)
        (take (Nat.min k (pred (length buf))) buf)) (disk f), Some e)
  end.

Definition Sync (f : file) (fault : option error) : file * option error :=
  match fault with
  | None => (File (cache f) (cache f), None)
  | Some e => (f, Some e)
  end.

Definition Truncate (f : file) (at_ : Z) (fault : option error) : file * option error :=
  match fault with
  | None => (File (take (Z.to_nat at_) (cache f)) (disk f), None)
  | Some e => (f, Some e)
  end.

(** ** The log *)

(** [type WAL struct].  [at_path] is the file the log's path names when that is
    no longer the open one. *)
Module WAL.
Record t := Mk {
  f : file;
  size : Z;
  epoch : Z;
  retired : list file;
  failed : option error;
  syncEvery : Duration;
  dirty : bool;
  orphan : option file;
  closed : bool;
}.

Definition set_f (v : file) (w : t) : t :=
  Mk v (size w) (epoch w) (retired w) (failed w) (syncEvery w) (dirty w) (orphan w) (closed w).
Definition set_size (v : Z) (w : t) : t :=
  Mk (f w) v (epoch w) (retired w) (failed w) (syncEvery w) (dirty w) (orphan w) (closed w).
Definition set_epoch (v : Z) (w : t) : t :=
  Mk (f w) (size w) v (retired w) (failed w) (syncEvery w) (dirty w) (orphan w) (closed w).
Definition set_retired (v : list file) (w : t) : t :=
  Mk (f w) (size w) (epoch w) v (failed w) (syncEvery w) (dirty w) (orphan w) (closed w).
Definition set_failed (v : option error) (w : t) : t :=
  Mk (f w) (size w) (epoch w) (retired w) v (syncEvery w) (dirty w) (orphan w) (closed w).
Definition set_dirty (v : bool) (w : t) : t :=
  Mk (f w) (size w) (epoch w) (retired w) (failed w) (syncEvery w) v (orphan w) (closed w).
Definition set_orphan (v : option file) (w : t) : t :=
  Mk (f w) (size w) (epoch w) (retired w) (failed w) (syncEvery w) (dirty w) v (closed w).
Definition set_closed (v : bool) (w : t) : t :=
  Mk (f w) (size w) (epoch w) (retired w) (failed w) (syncEvery w) (dirty w) (orphan w) v.

Definition at_path (w : t) : file := default (f w) (orphan w).
End WAL.
Abbreviation WAL := WAL.t.

(** [OpenWAL] on a file with the given content, when no call fails. *)
Definition OpenWAL (content : bytes) (syncEvery : Duration) : WAL :=
  WAL.Mk (File content content) (Z.of_nat (length content)) 0 [] None syncEvery false None false.

(** What the environment answers during one [write]. *)
Record wenv := WEnv {
  we_now : Time;
  we_write : option (nat * error);
  we_sync : option error;
}.

(** [func (w *WAL) write(rec Record, durable bool) error]. *)
Definition wal_write `{Json} (rec : Rec) (durable : bool) (env : wenv) (w : WAL) :
    WAL * option error :=
  let rec := if Rec.At rec =? 0 then Rec.set_At (UnixNano (we_now env)) rec else rec in
  match encode rec with
  | Err err => (w, Some err)
  | Ok buf =>
      match WAL.failed w with
      | Some cause => (w, Some (ErrUnusable cause))
      | None =>
          match WriteAt (WAL.f w) buf (WAL.size w) (we_write env) with
          | (f, Some err) => (WAL.set_f f w, Some err)
          | (f, None) =>
              let w := WAL.set_size (WAL.size w + Z.of_nat (length buf)) (WAL.set_f f w) in
              if negb durable then (w, None)
              else if 0 <? WAL.syncEvery w then (WAL.set_dirty true w, None)
              else match Sync (WAL.f w) (we_sync env) with
                   | (f, Some err) => (WAL.set_failed (Some err) (WAL.set_f f w), Some err)
                   | (f, None) => (WAL.set_f f w, None)
                   end
          end
      end
  end.

(** One firing of the ticker of [flusher]. *)
Definition flush (sync : option error) (w : WAL) : WAL :=
  if WAL.dirty w then
    let w := match Sync (WAL.f w) sync with
             | (f, Some err) =>
                 let w := WAL.set_f f w in
                 match WAL.failed w with
                 | None => WAL.set_failed (Some err) w
                 | Some _ => w
                 end
             | (f, None) => WAL.set_f f w
             end in
    WAL.set_dirty false w
  else w.

(** [truncate]. *)
Definition truncate (at_ : Z) (trunc sync : option error) (w : WAL) : WAL * option error :=
  if WAL.size w <=? at_ then (w, None)
  else match Truncate (WAL.f w) at_ trunc with
       | (f, Some err) => (WAL.set_f f w, Some err)
       | (f, None) =>
           let w := WAL.set_size at_ (WAL.set_f f w) in
           let (f, e) := Sync (WAL.f w) sync in (WAL.set_f f w, e)
       end.

Definition Bookmark (w : WAL) : Z * Z := (WAL.epoch w, WAL.size w).
Definition Err_ (w : WAL) : option error := WAL.failed w.

(** [Close]: the function under [closeOnce]. *)
Definition Close (sync close : option error) (w : WAL) : WAL * option error :=
  if WAL.closed w then (w, None)
  else
    let w := WAL.set_closed true (WAL.set_retired [] w) in
    match Sync (WAL.f w) sync with
    | (f, Some err) => (WAL.set_f f w, Some err)
    | (f, None) => (WAL.set_f f w, close)
    end.

(** ** Compaction *)

(** What the environment answers during one [Compact]. *)
Record cenv := CEnv {
  ce_now : nat → Time;
  ce_open : option error;
  ce_write : nat → option (nat * error);
  ce_sync : option error;
  ce_close : option error;
  ce_rename : option error;
  ce_reopen : option error;
}.

(** The loop that writes the [i]-th and following records to the new file. *)
Fixpoint write_all `{Json} (records : list Rec) (i : nat) (env : cenv) (f : file) (off : Z) :
    file * Z * option error :=
  match records with
  | [] => (f, off, None)
  | rec :: records =>
      let rec := if Rec.At rec =? 0 then Rec.set_At (UnixNano (ce_now env i)) rec else rec in
      match encode rec with
      | Err err => (f, off, Some err)
      | Ok buf =>
          match WriteAt f buf off (ce_write env i) with
          | (f, Some err) => (f, off, Some err)
          | (f, None) => write_all records (S i) env f (off + Z.of_nat (length buf))
          end
      end
  end.

(** [func (w *WAL) Compact(live []Record) error]. *)
Definition Compact `{Json} (live : list Rec) (env : cenv) (w : WAL) : WAL * option error :=
  match WAL.failed w with
  | Some cause => (w, Some (ErrUnusable cause))
  | None =>
      match ce_open env with
      | Some err => (w, Some err)
      | None =>
          let records := Rec.of_epoch (u64 (WAL.epoch w + 1)) :: live in
          match write_all records 0 env (File [] []) 0 with
          | (_, _, Some err) => (w, Some err)
          | (f, off, None) =>
              match Sync f (ce_sync env) with
              | (_, Some err) => (w, Some err)
              | (f, None) =>
                  match ce_close env, ce_rename env with
                  | Some err, _ => (w, Some err)
                  | None, Some err => (w, Some err)
                  | None, None =>
                      let w := WAL.set_orphan (Some f) w in
                      match ce_reopen env with
                      | Some err =>
                          (WAL.set_failed (Some (ErrReopen err)) w, Some (ErrReopen err))
                      | None =>
                          let w := WAL.set_retired (WAL.retired w ++ [WAL.f w]) w in
                          let w := WAL.set_size off (WAL.set_orphan None (WAL.set_f f w)) in
                          (WAL.set_epoch (u64 (WAL.epoch w + 1)) w, None)
                      end
                  end
              end
          end
      end
  end.

(** ** Reading the log back

    The callback works on a state that contains the log, since a historical
    replay writes to it while it is being read. *)

Class HasWal (S : Type) := {
  wal_of : S → WAL;
  with_wal : WAL → S → S;
}.

#[export] Instance wal_has_wal : HasWal WAL := { wal_of w := w; with_wal w _ := w }.

(** What the environment answers during one [scan]: reading fails after so many
    bytes, if at all.  (The end of the section is the reader's own [io.EOF].) *)
Record senv := SEnv { se_read : option nat; se_trunc : option error; se_sync : option error }.

(** What the reader of [scan] gives out of the bytes there are, and whether it
    ends in [io.EOF]. *)
Definition reads (env : senv) (l : bytes) : bytes * bool :=
  match se_read env with
  | Some k => if (k <? length l)%nat then (take k l, false) else (l, true)
  | None => (l, true)
  end.

Inductive scan_end :=
  | ScanDone
  | ScanStop (e : error)
  | ScanBad (offset : Z) (reason : string).

Section Scan.
Context `{Json} {St : Type} `{HasWal St}.
Context (fn : Rec → Z → St → option (St * option error)).

Definition raise_epoch (e : Z) (s : St) : St :=
  if WAL.epoch (wal_of s) <? e then with_wal (WAL.set_epoch e (wal_of s)) s else s.

Fixpoint scan_loop (fuel : nat) (rd : bytes) (eof : bool) (offset : Z) (s : St) :
    option (St * scan_end) :=
  match fuel with
  | O => None
  | S fuel =>
      match next_frame rd eof with
      | NextEnd => Some (s, ScanDone)
      | NextBad reason => Some (s, ScanBad offset reason)
      | NextRec rec n rd =>
          let next := offset + (recHeader + Z.of_nat n) in
          if bool_decide (Rec.Op rec = OpEpoch) then
            scan_loop fuel rd eof next (raise_epoch (Rec.Epoch rec) s)
          else
            '(s, err) ← fn rec offset s;
            match err with
            | Some e => Some (s, ScanStop e)
            | None => scan_loop fuel rd eof next s
            end
      end
  end.

(** The part of the file a scan from [from] reads. *)
Definition section (w : WAL) (from : Z) : bytes :=
  take (Z.to_nat (WAL.size w - from)) (drop (Z.to_nat from) (cache (WAL.f w))).

Definition scan (from : Z) (repair : bool) (env : senv) (s : St) : option (St * option error) :=
  let w := wal_of s in
  if from <? 0 then Some (s, Some (ErrOther "offset is negative"))
  else if WAL.size w <? from then Some (s, Some (ErrOther "offset is past the end of the log"))
  else if from =? WAL.size w then Some (s, None)
  else
    let rd := section w from in
    '(s, r) ← scan_loop (S (length rd)) (reads env rd).1 (reads env rd).2 from s;
    Some match r with
         | ScanDone => (s, None)
         | ScanStop e => (s, Some e)
         | ScanBad offset reason =>
             if repair then
               let (w, e) := truncate offset (se_trunc env) (se_sync env) (wal_of s) in
               (with_wal w s, e)
             else (s, Some (ErrCorrupt offset reason))
         end.

Definition Recover (env : senv) (s : St) : option (St * option error) := scan 0 true env s.
Definition Scan (from : Z) (env : senv) (s : St) : option (St * option error) :=
  scan from false env s.
End Scan.

(** ** The log as its clients hold it

    The log together with how many writes the environment has answered: write
    number [i] gets the answers [envs i]. *)

Record wlog := WLog { wl_wal : WAL; wl_step : nat }.

Definition set_wal (v : WAL) (w : wlog) : wlog := WLog v (wl_step w).

Definition wal_log `{Json} (envs : nat → wenv) : Log wlog := {|
    write r d w :=
      let '(w', e) := wal_write r d (envs (wl_step w)) (wl_wal w) in
      (WLog w' (S (wl_step w)), e);
  |}.
