(* ===== verification/WalOps.v ===== *)
(** * The log's frames, its scan and its writes

    Frames read back as they were written, a torn or changed frame is noticed,
    [scan] is a fold of its callback over the records, and [wal_write] appends
    exactly one frame or leaves the readable part of the file alone.  The last
    section discharges the interface of [LogStore.v]. *)

From Stdlib Require Import Strings.Byte.
From S2P Require Import Prelude Bytes Msg LogStore Encoding Wal.

(** ** One frame *)

Definition fits (b : bytes) : Prop := b ≠ [] ∧ Z.of_nat (length b) ≤ maxRecord.

Lemma maxRecord_eq : maxRecord = 33554432.
Proof. reflexivity. Qed.

Lemma frame_length b : length (frame b) = (8 + length b)%nat.
Proof. done. Qed.

Lemma frame_split b : frame b = put32 (N.of_nat (length b)) ++ put32 (crc32 b) ++ b.
Proof. done. Qed.

Section Frames.
Context `{Json}.

(** The header of a frame, when at least that much of it is there. *)
Lemma next_frame_header b x tl eof :
  fits b →
  next_frame (put32 (N.of_nat (length b)) ++ put32 x ++ tl) eof =
    if decide (length tl < length b)%nat then NextBad "truncated body"
    else if negb (crc32 (take (length b) tl) =? get32 (put32 x))%N then NextBad "checksum mismatch"
    else match unmarshal (take (length b) tl) with
         | None => NextBad "undecodable record"
         | Some rec => NextRec rec (length b) (drop (length b) tl)
         end.
Proof.
  intros [Hne Hmax]. rewrite maxRecord_eq in Hmax. unfold next_frame.
  set (n := N.of_nat (length b)). assert (get32 (put32 n) = n) as Hn.
  { rewrite <- (app_nil_r (put32 n)). apply get32_put32. lia. }
  assert ((n ≠ 0)%N) as Hnz by (subst n; destruct b; [done|cbn [length]; lia]).
  change (put32 n ++ put32 x ++ tl) with
    (byte_of (n / 16777216) :: byte_of (n / 65536) :: byte_of (n / 256) :: byte_of n :: put32 x ++ tl).
  rewrite decide_False by (simpl; lia). cbn [take drop firstn skipn app put32].
  change ([byte_of (n / 16777216); byte_of (n / 65536); byte_of (n / 256); byte_of n]) with (put32 n).
  change ([byte_of (x / 16777216); byte_of (x / 65536); byte_of (x / 256); byte_of x]) with (put32 x).
  rewrite Hn. rewrite (proj2 (N.eqb_neq n 0) Hnz).
  assert ((maxRecord <? Z.of_N n) = false) as -> by (apply Z.ltb_ge; rewrite maxRecord_eq; subst n; lia).
  cbn [orb]. rewrite !take_0, !drop_0. subst n. by rewrite Nat2N.id.
Qed.

Lemma next_frame_ok b tl eof r :
  fits b → unmarshal b = Some r → next_frame (frame b ++ tl) eof = NextRec r (length b) tl.
Proof.
  intros Hf Hu. rewrite frame_split, <- !(assoc_L (++)), next_frame_header by done.
  rewrite decide_False by (rewrite length_app; lia). rewrite take_app_length, drop_app_length.
  rewrite <- (app_nil_r (put32 (crc32 b))), get32_put32 by apply crc32_w32.
  by rewrite N.eqb_refl, Hu.
Qed.

(** A frame cut anywhere is noticed. *)
Lemma next_frame_torn b k eof :
  fits b → (0 < k < length (frame b))%nat → ∃ reason, next_frame (take k (frame b)) eof = NextBad reason.
Proof.
  intros Hf Hk. destruct (decide (k < 8)%nat) as [Hk8|Hk8].
  - exists "partial header". unfold next_frame.
    destruct (take k (frame b)) as [|c l] eqn:E.
    { apply (f_equal length) in E. rewrite length_take in E. simpl in E. lia. }
    rewrite decide_True; [done|]. rewrite <- E, length_take. lia.
  - exists "truncated body". rewrite frame_length in Hk.
    assert (take k (frame b) = put32 (N.of_nat (length b)) ++ put32 (crc32 b) ++ take (k - 8) b) as ->.
    { rewrite frame_split, !take_app, !put32_length.
      rewrite !take_ge by (rewrite put32_length; lia). do 3 f_equal. lia. }
    rewrite next_frame_header by done. rewrite decide_True; [done|]. rewrite length_take. lia.
Qed.

(** A frame whose body had one byte changed is noticed. *)
Lemma next_frame_changed pre a a' post tl eof :
  fits (pre ++ a :: post) → a ≠ a' →
  next_frame (put32 (N.of_nat (length (pre ++ a :: post))) ++ put32 (crc32 (pre ++ a :: post)) ++
    (pre ++ a' :: post) ++ tl) eof = NextBad "checksum mismatch".
Proof.
  intros Hf Ha. assert (length (pre ++ a' :: post) = length (pre ++ a :: post)) as El.
  { by rewrite !length_app. }
  rewrite next_frame_header by done.
  rewrite decide_False by (rewrite length_app; lia). rewrite take_app_length' by done.
  rewrite <- (app_nil_r (put32 _)), get32_put32 by apply crc32_w32.
  rewrite (proj2 (N.eqb_neq _ _)); [done|]. by apply crc32_change_byte, not_eq_sym.
Qed.

Lemma next_frame_shrinks rd eof r n rd' :
  next_frame rd eof = NextRec r n rd' → (length rd' + 8 < length rd)%nat.
Proof.
  unfold next_frame. destruct rd as [|c rd]; [by destruct eof|].
  case_decide as H8; [done|]. set (l := c :: rd) in *. set (k := get32 _).
  destruct (k =? 0)%N eqn:Hk; [done|]. simpl orb. destruct (maxRecord <? Z.of_N k); [done|].
  case_decide as Hb; [done|]. destruct (negb _); [done|].
  destruct (unmarshal _); [|done]. intros [= _ _ <-]. rewrite !length_drop in *.
  apply N.eqb_neq in Hk. assert (length l = S (length rd)) by done. lia.
Qed.

(** ** A clean log *)

Definition frames (bodies : list bytes) : bytes := concat (frame <$> bodies).

(** The bodies decode to the records. *)
Definition readable (bodies : list bytes) (rs : list Rec) : Prop :=
  Forall2 (λ b r, fits b ∧ unmarshal b = Some r) bodies rs.

Lemma frames_app l k : frames (l ++ k) = frames l ++ frames k.
Proof. unfold frames. by rewrite fmap_app, concat_app. Qed.

Lemma frames_cons b l : frames (b :: l) = frame b ++ frames l.
Proof. done. Qed.

Lemma frames_length_ge l : (length l <= length (frames l))%nat.
Proof.
  induction l as [|b l IH]; [done|]. rewrite frames_cons, length_app, frame_length. simpl. lia.
Qed.

(** Cutting a clean log leaves whole frames and one torn one at most. *)
Lemma frames_cut bodies k :
  (k <= length (frames bodies))%nat →
  ∃ j tl, take k (frames bodies) = frames (take j bodies) ++ tl ∧
    (length (frames (take j bodies)) <= k)%nat ∧
    (tl = [] ∨ ∃ b i, bodies !! j = Some b ∧ tl = take i (frame b) ∧ (0 < i < length (frame b))%nat).
Proof.
  revert k. induction bodies as [|b bodies IH]; intros k Hk.
  { exists 0%nat, []. split_and!; [by destruct k|simpl; lia|auto]. }
  rewrite frames_cons in *. rewrite length_app in Hk.
  destruct (decide (k < length (frame b))%nat) as [Hlt|Hge].
  - rewrite take_app_le by lia. destruct (decide (k = 0%nat)) as [->|Hz].
    + exists 0%nat, []. split_and!; [done|simpl; lia|auto].
    + exists 0%nat, (take k (frame b)). split_and!; [done|simpl; lia|]. right. exists b, k.
      split_and!; [done|done|lia|lia].
  - destruct (IH (k - length (frame b))%nat) as (j & tl & E & Hle & Htl); [lia|].
    exists (S j), tl. rewrite take_app_ge by lia. rewrite E. simpl take. rewrite frames_cons.
    split_and!; [by rewrite (assoc_L (++))|rewrite length_app; lia|done].
Qed.
End Frames.

(** ** The scan is a fold *)

Section Scans.
Context `{Json} {St : Type} `{HasWal St}.
Context (fn : Rec → Z → St → option (St * option error)).

(** The callback over records with their body lengths, from an offset. *)
Fixpoint feed (rs : list (Rec * nat)) (offset : Z) (s : St) : option (St * Z * option error) :=
  match rs with
  | [] => Some (s, offset, None)
  | (r, n) :: rs =>
      let next := offset + (recHeader + Z.of_nat n) in
      if bool_decide (Rec.Op r = OpEpoch) then feed rs next (raise_epoch (Rec.Epoch r) s)
      else
        '(s, err) ← fn r offset s;
        match err with
        | Some e => Some (s, offset, Some e)
        | None => feed rs next s
        end
  end.

Definition sized (rs : list Rec) (bodies : list bytes) : list (Rec * nat) :=
  zip rs (length <$> bodies).

Lemma scan_loop_frames bodies rs fuel tl eof off s :
  readable bodies rs →
  scan_loop fn (length bodies + fuel) (frames bodies ++ tl) eof off s =
    ('(s, off, e) ← feed (sized rs bodies) off s;
     match e with
     | Some e => Some (s, ScanStop e)
     | None => scan_loop fn fuel tl eof off s
     end).
Proof.
  intros Hr. revert off s. induction Hr as [|b r bodies rs [Hf Hu] Hr IH]; intros off s; [done|].
  rewrite frames_cons, <- (assoc_L (++)). cbn [length Nat.add scan_loop].
  rewrite (next_frame_ok b _ eof r) by done. unfold sized. cbn [fmap list_fmap zip zip_with feed].
  fold (sized rs bodies). case_bool_decide; [apply IH|].
  destruct (fn r off s) as [[s1 [e|]]|]; simpl; [done| |done]. apply IH.
Qed.

Lemma feed_offset rs bodies off s s' off' :
  length rs = length bodies →
  feed (sized rs bodies) off s = Some (s', off', None) → off' = off + Z.of_nat (length (frames bodies)).
Proof.
  revert bodies off s. induction rs as [|r rs IH]; intros [|b bodies] off s Hl; [|done|done|].
  { intros [= _ <-]. simpl. lia. }
  injection Hl as Hl. unfold sized. cbn [fmap list_fmap zip zip_with feed]. fold (sized rs bodies).
  rewrite frames_cons, length_app, frame_length. unfold recHeader.
  case_bool_decide; [intros E; apply IH in E; [lia|done]|].
  intros ([s1 e] & _ & E)%bind_Some. destruct e; [done|]. apply IH in E; [lia|done].
Qed.

(** The loop ends: every record read shortens what is left. *)
Lemma scan_loop_total fuel rd eof off s :
  (∀ r off s, is_Some (fn r off s)) → (length rd < fuel)%nat →
  is_Some (scan_loop fn fuel rd eof off s).
Proof.
  intros Hfn. revert rd off s. induction fuel as [|fuel IH]; intros rd off s Hf; [lia|]. simpl.
  destruct (next_frame rd eof) as [|reason|r n rd'] eqn:E; [done..|].
  apply next_frame_shrinks in E. case_bool_decide; [apply IH; lia|].
  destruct (Hfn r off s) as [[s1 [e|]] ->]; simpl; [done|]. apply IH. lia.
Qed.

Lemma reads_length env l : (length (reads env l).1 <= length l)%nat.
Proof. unfold reads. destruct (se_read env) as [k|]; [destruct (k <? _)%nat|]; simpl; rewrite ?length_take; lia. Qed.

(** A scan over whole frames, then something that is not one. *)
Definition scan_result (repair : bool) (env : senv) (eof : bool) (off : Z) (tl : bytes) (s : St) :
    option (St * option error) :=
  match next_frame tl eof with
  | NextBad reason =>
      Some (if repair then
              let (w, e) := truncate off (se_trunc env) (se_sync env) (wal_of s) in (with_wal w s, e)
            else (s, Some (ErrCorrupt off reason)))
  | _ => Some (s, None)
  end.

Lemma scan_reads from repair env s bodies rs tl eof :
  readable bodies rs → 0 ≤ from < WAL.size (wal_of s) →
  reads env (section (wal_of s) from) = (frames bodies ++ tl, eof) →
  (∀ r n rd, next_frame tl eof ≠ NextRec r n rd) →
  scan fn from repair env s =
    ('(s, off, e) ← feed (sized rs bodies) from s;
     match e with
     | Some e => Some (s, Some e)
     | None => scan_result repair env eof off tl s
     end).
Proof.
  intros Hr Hfrom Hsec Htl. unfold scan.
  rewrite (proj2 (Z.ltb_ge from 0)), (proj2 (Z.ltb_ge (WAL.size _) from)),
    (proj2 (Z.eqb_neq from (WAL.size _))) by lia.
  pose proof (reads_length env (section (wal_of s) from)) as Hle. rewrite Hsec in *.
  cbn [fst snd] in *. rewrite length_app in Hle. pose proof (frames_length_ge bodies) as Hge.
  replace (S (length (section (wal_of s) from)))
    with (length bodies + S (length (section (wal_of s) from) - length bodies))%nat by lia.
  rewrite (scan_loop_frames _ rs) by done.
  destruct (feed _ from s) as [[[s1 off] [e|]]|]; [done| |done]. simpl_bind. cbn [scan_loop].
  unfold scan_result. destruct (next_frame tl eof) as [|reason|r n rd] eqn:E;
    [done| |by destruct (Htl r n rd)].
  simpl. destruct repair; [|done]. by destruct (truncate off _ _ _).
Qed.

(** The same when every read succeeds. *)
Lemma scan_frames from repair env s bodies rs tl :
  readable bodies rs → 0 ≤ from < WAL.size (wal_of s) → se_read env = None →
  section (wal_of s) from = frames bodies ++ tl →
  (∀ r n rd, next_frame tl true ≠ NextRec r n rd) →
  scan fn from repair env s =
    ('(s, off, e) ← feed (sized rs bodies) from s;
     match e with
     | Some e => Some (s, Some e)
     | None => scan_result repair env true off tl s
     end).
Proof.
  intros Hr Hfrom Hrd Hsec Htl. apply (scan_reads _ _ _ _ bodies rs tl true); try done.
  unfold reads. by rewrite Hrd, Hsec.
Qed.
End Scans.

(** ** The state of a log *)

Section LogState.
Context `{JsonLaws}.

(** The file up to the tracked size is a clean log of these bodies; beyond it
  there may be bytes of a write that failed. *)
Record log_is (w : WAL) (bodies : list bytes) (rs : list Rec) : Prop := {
  li_readable : readable bodies rs;
  li_size : WAL.size w = Z.of_nat (length (frames bodies));
  li_bytes : take (length (frames bodies)) (cache (WAL.f w)) = frames bodies;
}.

Lemma li_length w bodies rs : log_is w bodies rs → (length (frames bodies) <= length (cache (WAL.f w)))%nat.
Proof. intros [_ _ E]. rewrite <- E at 1. rewrite length_take. lia. Qed.

Lemma overwrite_prefix l off buf : (off <= length l)%nat → take off (overwrite l off buf) = take off l.
Proof.
  intros Ho. unfold overwrite. rewrite take_app_le by (rewrite length_take; lia).
  apply take_ge. rewrite length_take. lia.
Qed.

Lemma overwrite_append l off buf :
  (off <= length l)%nat → take (off + length buf) (overwrite l off buf) = take off l ++ buf.
Proof.
  intros Ho. unfold overwrite. replace (off - length l)%nat with 0%nat by lia.
  cbn [replicate app]. rewrite (assoc_L (++)). apply take_app_length'.
  rewrite length_app, length_take. lia.
Qed.

Lemma encode_frame r buf :
  encode r = Ok buf →
  ∃ b r', marshal r = Some b ∧ buf = frame b ∧ fits b ∧ unmarshal b = Some r' .
Proof.
  unfold encode. destruct (marshal r) as [b|] eqn:E; [|done].
  destruct (maxRecord <? _) eqn:Hm; [done|]. intros [= <-]. apply Z.ltb_ge in Hm.
  destruct (marshal_readable r b E) as [Hne [r' Hr']]. by exists b, r'.
Qed.

Lemma log_is_ext w w' bodies rs :
  log_is w bodies rs → WAL.size w' = WAL.size w → cache (WAL.f w') = cache (WAL.f w) →
  log_is w' bodies rs.
Proof. intros [Hr Hs Hb] Es Ec. split; [done|congruence|by rewrite Ec]. Qed.

Lemma overwrite_end l buf : overwrite l (length l) buf = l ++ buf.
Proof.
  unfold overwrite. rewrite take_ge, Nat.sub_diag, drop_ge by lia. by rewrite app_nil_r.
Qed.

Lemma overwrite_nothing l off : (off <= length l)%nat → overwrite l off [] = l.
Proof.
  intros Ho. unfold overwrite. replace (off - length l)%nat with 0%nat by lia. simpl.
  by rewrite Nat.add_0_r, take_drop.
Qed.

(** Nothing lies behind the log, and the path names the open file. *)
Definition trim (w : WAL) : Prop :=
  WAL.size w = Z.of_nat (length (cache (WAL.f w))) ∧ WAL.orphan w = None.

(** A write that succeeds leaves nothing behind the record. *)
Lemma wal_write_trim rec d env w w' : wal_write rec d env w = (w', None) → trim w → trim w'.
Proof.
  intros E [Hs Ho]. unfold wal_write in E. destruct (encode _) as [buf|]; [|done].
  destruct (WAL.failed w); [done|]. unfold WriteAt in E. destruct (we_write env) as [[k x]|]; [done|].
  assert (Z.of_nat (length (overwrite (cache (WAL.f w)) (Z.to_nat (WAL.size w)) buf)) =
    WAL.size w + Z.of_nat (length buf)) as El.
  { rewrite Hs, Nat2Z.id, overwrite_end, length_app. lia. }
  destruct d; simpl in E; [|by injection E as <-].
  destruct (0 <? WAL.syncEvery w); [by injection E as <-|].
  destruct (we_sync env); simpl in E; [done|]. by injection E as <-.
Qed.

(** Whatever a write does, it does to the open file. *)
Lemma wal_write_orphan rec d env w w' e : wal_write rec d env w = (w', e) → WAL.orphan w' = WAL.orphan w.
Proof.
  unfold wal_write. destruct (encode _) as [buf|]; [|by intros [= <- _]].
  destruct (WAL.failed w); [by intros [= <- _]|]. unfold WriteAt.
  destruct (we_write env) as [[k x]|]; [by intros [= <- _]|].
  destruct d; simpl; [|by intros [= <- _]]. destruct (0 <? WAL.syncEvery w); [by intros [= <- _]|].
  by destruct (we_sync env); intros [= <- _].
Qed.

Lemma wal_write_epoch rec d env w : WAL.epoch (wal_write rec d env w).1 = WAL.epoch w.
Proof.
  unfold wal_write. destruct (encode _) as [buf|]; [|done]. destruct (WAL.failed w); [done|]. unfold WriteAt.
  destruct (we_write env) as [[k x]|]; [done|]. destruct d; simpl; [|done].
  destruct (0 <? WAL.syncEvery w); [done|]. by destruct (we_sync env).
Qed.

(** The bytes of a log say what it is. *)
Lemma readable_unique bodies rs bodies' rs' :
  readable bodies rs → readable bodies' rs' → frames bodies = frames bodies' → bodies = bodies' ∧ rs = rs'.
Proof.
  intros Hr. revert bodies' rs'. induction Hr as [|b r bodies rs [Hf Hu] Hr IH]; intros bodies' rs' Hr' E.
  - destruct Hr' as [|b' r' bodies' rs' [Hf' _] _]; [done|]. discriminate E.
  - destruct Hr' as [|b' r' bodies' rs' [Hf' Hu'] Hr']; [discriminate E|]. rewrite !frames_cons in E.
    pose proof (next_frame_ok b (frames bodies) true r Hf Hu) as H1'. rewrite E in H1'.
    rewrite (next_frame_ok b' (frames bodies') true r' Hf' Hu') in H1'. injection H1' as -> El Et.
    assert (b = b') as <-.
    { apply app_inj_1 in E as [E _]; [|rewrite !frame_length; lia]. by injection E. }
    by destruct (IH _ _ Hr' (eq_sym Et)) as [-> ->].
Qed.

Lemma log_is_unique w bodies rs bodies' rs' :
  log_is w bodies rs → log_is w bodies' rs' → bodies = bodies' ∧ rs = rs'.
Proof.
  intros [Hr Hs Hb] [Hr' Hs' Hb']. apply (readable_unique bodies rs bodies' rs' Hr Hr').
  rewrite <- Hb, <- Hb'. f_equal. lia.
Qed.

(** The effect of one write on the log. *)
Lemma wal_write_cases rec d env w bodies rs :
  log_is w bodies rs →
  let rec' := if Rec.At rec =? 0 then Rec.set_At (UnixNano (we_now env)) rec else rec in
  let '(w', e) := wal_write rec d env w in
  (e ≠ None ∧ log_is w' bodies rs) ∨
  ∃ b r', marshal rec' = Some b ∧ unmarshal b = Some r' ∧ log_is w' (bodies ++ [b]) (rs ++ [r']) ∧
    WAL.failed w = None ∧
    match e with
    | Some e => d = true ∧ WAL.syncEvery w ≤ 0 ∧ we_sync env = Some e ∧ WAL.failed w' = Some e
    | None => WAL.failed w' = None ∧
        (d = true → WAL.syncEvery w ≤ 0 → disk (WAL.f w') = cache (WAL.f w'))
    end.
Proof.
  intros Hli rec'. unfold wal_write. fold rec'.
  destruct (encode rec') as [buf|err] eqn:He; [|left; done].
  destruct (encode_frame _ _ He) as (b & r' & Hm & -> & Hf & Hu).
  destruct (WAL.failed w) as [cause|] eqn:Hfail; [by left|].
  pose proof (li_length _ _ _ Hli) as Hlen. destruct Hli as [Hr Hs Hb].
  unfold WriteAt. rewrite Hs, Nat2Z.id.
  destruct (we_write env) as [[k err]|].
  { left. split; [done|]. split; simpl; [done|done|]. by rewrite overwrite_prefix. }
  set (w1 := WAL.set_size _ _).
  assert (log_is w1 (bodies ++ [b]) (rs ++ [r'])) as Hli1.
  { assert (frames (bodies ++ [b]) = frames bodies ++ frame b) as Ef.
    { rewrite frames_app. f_equal. unfold frames. simpl. by rewrite app_nil_r. }
    split; simpl.
    - apply Forall2_app; [done|]. constructor; [done|constructor].
    - rewrite Ef, length_app. rewrite frame_length. lia.
    - rewrite Ef, length_app, overwrite_append by done. by rewrite Hb. }
  assert (WAL.failed w1 = None) as Hf1 by done.
  assert (WAL.syncEvery w1 = WAL.syncEvery w) as Hse by done.
  destruct d; simpl negb; cbn iota.
  2:{ right. exists b, r'. by split_and!. }
  destruct (0 <? WAL.syncEvery w1) eqn:Hsync.
  { right. exists b, r'. split_and!; try done; [by apply (log_is_ext w1)|]. intros _. rewrite <- Hse. lia. }
  unfold Sync. destruct (we_sync env) as [err|]; right.
  - exists b, r'. split_and!; try done; [by apply (log_is_ext w1)|rewrite <- Hse; lia].
  - exists b, r'. split_and!; try done. by apply (log_is_ext w1).
Qed.
End LogState.

(** ** Reading back, repairing, compacting *)

Section Readback.
Context `{JsonLaws}.

(** Nothing is lost by opening a file that ends with the log. *)
Lemma OpenWAL_is bodies rs se : readable bodies rs → log_is (OpenWAL (frames bodies) se) bodies rs.
Proof. intros Hr. split; simpl; [done|done|]. by apply take_ge. Qed.

Lemma truncate_ok at_ trunc w w' bodies rs :
  readable bodies rs → at_ = Z.of_nat (length (frames bodies)) →
  take (length (frames bodies)) (cache (WAL.f w)) = frames bodies → at_ < WAL.size w →
  truncate at_ trunc None w = (w', None) →
  log_is w' bodies rs ∧ cache (WAL.f w') = frames bodies ∧ disk (WAL.f w') = frames bodies.
Proof.
  intros Hr Ea Hb Hlt. unfold truncate. rewrite (proj2 (Z.leb_gt _ _)) by done.
  unfold Truncate. destruct trunc; [done|]. unfold Sync. simpl. intros [= <-].
  subst at_. rewrite Nat2Z.id. split_and!; simpl; [|done|done].
  split; simpl; [done|done|]. rewrite Hb. by apply take_ge.
Qed.

(** The records a scan delivers: epoch records are the log's own. *)
Definition not_epoch (r : Rec) : bool := negb (bool_decide (Rec.Op r = OpEpoch)).
Definition delivered (rs : list Rec) : list Rec := List.filter not_epoch rs.

(** The largest epoch mentioned. *)
Definition top_epoch (rs : list Rec) (e : Z) : Z :=
  fold_left (λ e r, if negb (not_epoch r) && (e <? Rec.Epoch r) then Rec.Epoch r else e) rs e.

(** A callback that collects what it is given. *)
Definition collect (r : Rec) (off : Z) (s : WAL * list (Rec * Z)) :
    option ((WAL * list (Rec * Z)) * option error) :=
  Some ((s.1, s.2 ++ [(r, off)]), None).

#[export] Instance pair_has_wal {A} : HasWal (WAL * A) :=
  { wal_of s := s.1; with_wal w s := (w, s.2) }.

Fixpoint with_offsets (rs : list (Rec * nat)) (off : Z) : list (Rec * Z) :=
  match rs with
  | [] => []
  | (r, n) :: rs =>
      (if not_epoch r then [(r, off)] else []) ++
      with_offsets rs (off + (recHeader + Z.of_nat n))
  end.

Lemma feed_collect rs bodies off w acc :
  length rs = length bodies →
  feed collect (sized rs bodies) off (w, acc) =
    Some ((WAL.set_epoch (top_epoch rs (WAL.epoch w)) w, acc ++ with_offsets (sized rs bodies) off),
          off + Z.of_nat (length (frames bodies)), None).
Proof.
  revert bodies off w acc. induction rs as [|r rs IH]; intros [|b bodies] off w acc Hl; [|done|done|].
  { simpl. rewrite app_nil_r, Z.add_0_r. by destruct w. }
  injection Hl as Hl. unfold sized. cbn [fmap list_fmap zip zip_with feed with_offsets].
  fold (sized rs bodies). rewrite frames_cons, length_app, frame_length.
  replace (off + Z.of_nat (8 + length b + length (frames bodies)))
    with (off + (recHeader + Z.of_nat (length b)) + Z.of_nat (length (frames bodies)))
    by (unfold recHeader; lia).
  unfold top_epoch. cbn [fold_left]. fold (top_epoch rs). unfold not_epoch.
  case_bool_decide as Hop; cbn [negb andb app].
  - unfold raise_epoch. cbn [wal_of pair_has_wal with_wal fst snd].
    destruct (WAL.epoch w <? Rec.Epoch r) eqn:He; rewrite IH by done; [|done].
    by destruct w.
  - simpl. rewrite IH by done. by rewrite <- (assoc_L (++)).
Qed.

Lemma with_offsets_fst rs bodies off :
  length rs = length bodies → (with_offsets (sized rs bodies) off).*1 = delivered rs.
Proof.
  revert bodies off. induction rs as [|r rs IH]; intros [|b bodies] off Hl; [done..|].
  injection Hl as Hl. unfold sized. cbn [fmap list_fmap zip zip_with with_offsets].
  fold (sized rs bodies).
  change (delivered (r :: rs)) with (if not_epoch r then r :: delivered rs else delivered rs).
  rewrite fmap_app, IH by done. by destruct (not_epoch r).
Qed.

Lemma next_frame_nil eof r n rd : next_frame [] eof ≠ NextRec r n rd.
Proof. simpl. by destruct eof. Qed.

(** The section a scan of the whole log reads. *)
Lemma section_all w bodies rs : log_is w bodies rs → section w 0 = frames bodies.
Proof.
  intros [_ Hs Hb]. unfold section. simpl. rewrite Hs, Z.sub_0_r, Nat2Z.id. done.
Qed.

Lemma section_from w pre post rs :
  log_is w (pre ++ post) rs → section w (Z.of_nat (length (frames pre))) = frames post.
Proof.
  intros [_ Hs Hb]. unfold section. rewrite Hs. rewrite frames_app, length_app in *.
  replace (Z.to_nat (Z.of_nat _ - _)) with (length (frames post)) by lia.
  by rewrite Nat2Z.id, take_drop_commute, Hb, drop_app_length.
Qed.

(** A reading scan that starts where a record does. *)
Lemma scan_boundary {St} `{HasWal St} (fn : Rec → Z → St → option (St * option error)) s pre post rs1 rs2 env :
  log_is (wal_of s) (pre ++ post) (rs1 ++ rs2) → readable pre rs1 → se_read env = None →
  scan fn (Z.of_nat (length (frames pre))) false env s =
    ('(s, _, e) ← feed fn (sized rs2 post) (Z.of_nat (length (frames pre))) s; Some (s, e)).
Proof.
  intros Hli Hr1 Heof. pose proof (li_readable _ _ _ Hli) as Hr.
  apply Forall2_app_inv in Hr as [_ Hr2]; [|by eapply Forall2_length].
  pose proof (li_size _ _ _ Hli) as Hs. rewrite frames_app, length_app in Hs.
  destruct (decide (post = [])) as [->|Hne].
  - apply Forall2_nil_inv_l in Hr2 as ->. unfold scan. rewrite Hs. simpl.
    by rewrite (proj2 (Z.ltb_ge _ _)), (proj2 (Z.ltb_ge _ _)), (proj2 (Z.eqb_eq _ _)) by lia.
  - pose proof (frames_length_ge post). assert (length post ≠ 0%nat) by by destruct post.
    rewrite (scan_frames _ _ _ _ _ post rs2 []); [|done|lia|done| |apply next_frame_nil].
    + destruct (feed _ _ _ _) as [[[s' off] [e|]]|]; [done| |done]. simpl_bind. done.
    + by rewrite (section_from _ _ _ _ Hli), app_nil_r.
Qed.

(** A record of the log, as the manager's recovery will see it. *)
Definition contents (w : WAL) : list Rec :=
  match scan collect 0 false (SEnv None None None) (w, []) with
  | Some ((_, acc), _) => acc.*1
  | None => []
  end.

Lemma scan_all w bodies rs :
  log_is w bodies rs →
  scan collect 0 false (SEnv None None None) (w, []) =
    Some ((WAL.set_epoch (top_epoch rs (WAL.epoch w)) w, with_offsets (sized rs bodies) 0), None).
Proof.
  intros Hli. pose proof (li_readable _ _ _ Hli) as Hr.
  pose proof (Forall2_length _ _ _ Hr) as Hl.
  destruct (decide (bodies = [])) as [->|Hne].
  - apply Forall2_nil_inv_l in Hr as ->. unfold scan. simpl.
    rewrite (li_size _ _ _ Hli). simpl. by destruct w.
  - rewrite (scan_frames _ _ _ _ _ bodies rs []); [|done|..].
    + rewrite feed_collect by done. simpl_bind. done.
    + simpl. rewrite (li_size _ _ _ Hli). pose proof (frames_length_ge bodies).
      destruct bodies; [done|]. simpl length in *. lia.
    + done.
    + simpl. by rewrite app_nil_r, (section_all _ _ _ Hli).
    + apply next_frame_nil.
Qed.

Lemma contents_is w bodies rs : log_is w bodies rs → contents w = delivered rs.
Proof.
  intros Hli. unfold contents. rewrite (scan_all _ _ _ Hli).
  apply with_offsets_fst. symmetry. eapply Forall2_length, (li_readable _ _ _ Hli).
Qed.
End Readback.

(** ** The interface of [LogStore.v] *)

Section Interface.
Context `{JsonLaws} (envs : nat → wenv).
#[local] Instance the_log : Log wlog := wal_log envs.


Definition wal_storable (r : Rec) : Prop :=
  Rec.Op r ≠ OpEpoch ∧ json_safe r = true.

Lemma stamped_stored r now b r' :
  wal_storable r →
  marshal (if Rec.At r =? 0 then Rec.set_At (UnixNano now) r else r) = Some b →
  unmarshal b = Some r' → stored r r'.
Proof.
  intros (_ & Hs) Hm Hu.
  assert (∃ a, (if Rec.At r =? 0 then Rec.set_At (UnixNano now) r else r) =
    Rec.set_At a r ∧ json_safe (Rec.set_At a r) = true) as (a & Ea & Hsafe).
  { destruct (Rec.At r =? 0).
    - eexists. split; [done|]. apply json_safe_At; [apply i64_fits|done].
    - exists (Rec.At r). by destruct r. }
  rewrite Ea in Hm. destruct (marshal_safe _ Hsafe) as (b' & Hm' & Hu'). exists a. congruence.
Qed.

Lemma wal_write_stored r d w w' bodies rs e :
  log_is (wl_wal w) bodies rs → wal_storable r → write r d w = (w', e) →
  (e ≠ None ∧ log_is (wl_wal w') bodies rs) ∨
  ∃ b r', stored r r' ∧ log_is (wl_wal w') (bodies ++ [b]) (rs ++ [r']).
Proof.
  intros Hli Hst E. simpl in E.
  pose proof (wal_write_cases r d (envs (wl_step w)) (wl_wal w) bodies rs Hli) as Hc. cbv zeta in Hc.
  destruct (wal_write _ _ _ _) as [w1 e1]. injection E as <- <-.
  destruct Hc as [Hc|(b & r' & Hm & Hu & Hli' & _)]; [by left|right].
  exists b, r'. split; [|done]. by eapply stamped_stored.
Qed.

Lemma delivered_snoc rs r r' :
  Rec.Op r ≠ OpEpoch → stored r r' → delivered (rs ++ [r']) = delivered rs ++ [r'].
Proof.
  intros Hop [a ->]. unfold delivered. rewrite List.filter_app. simpl. unfold not_epoch.
  by rewrite bool_decide_false.
Qed.

Lemma top_epoch_snoc rs r e : Rec.Op r ≠ OpEpoch → top_epoch (rs ++ [r]) e = top_epoch rs e.
Proof.
  intros Hr. unfold top_epoch. rewrite fold_left_app. simpl. unfold not_epoch. by rewrite bool_decide_false.
Qed.

Lemma top_epoch_ge rs e : e ≤ top_epoch rs e.
Proof.
  unfold top_epoch. revert e. induction rs as [|r rs IH]; intros e; [done|]. cbn [fold_left].
  destruct (negb (not_epoch r) && (e <? Rec.Epoch r)) eqn:E; [|apply IH].
  apply andb_true_iff in E as [_ E]. pose proof (IH (Rec.Epoch r)). lia.
Qed.

(** Records at the end of the log name no epoch above the largest. *)
Lemma top_epoch_suffix rs1 rs2 : top_epoch rs2 (top_epoch (rs1 ++ rs2) 0) = top_epoch (rs1 ++ rs2) 0.
Proof.
  unfold top_epoch at 2 3. rewrite fold_left_app. fold (top_epoch rs1 0). generalize (top_epoch rs1 0).
  intros e. fold (top_epoch rs2 e). revert e. induction rs2 as [|r rs IH]; intros e; [done|].
  unfold top_epoch in *. cbn [fold_left]. set (e1 := if _ && (e <? _) then _ else e).
  assert (e1 ≤ fold_left (λ e r, if negb (not_epoch r) && (e <? Rec.Epoch r) then Rec.Epoch r else e) rs e1) as Hge
    by apply top_epoch_ge.
  assert (negb (not_epoch r) = true → Rec.Epoch r ≤ e1) as Hr.
  { intros Hn. unfold e1. rewrite Hn. simpl. destruct (e <? Rec.Epoch r) eqn:E; lia. }
  destruct (negb (not_epoch r)) eqn:Hn; simpl; [|apply IH].
  rewrite (proj2 (Z.ltb_ge _ _)); [apply IH|]. specialize (Hr eq_refl). lia.
Qed.

#[export] Instance wal_laws : LogLaws wlog.
Proof.
  refine {| log_ok w := ∃ bodies rs, log_is (wl_wal w) bodies rs;
            log w := contents (wl_wal w); storable := wal_storable |}.
  - intros r d w (bodies & rs & Hli) _. simpl.
    pose proof (wal_write_cases r d (envs (wl_step w)) (wl_wal w) bodies rs Hli) as Hc. cbv zeta in Hc.
    destruct (wal_write _ _ _ _) as [w1 e1]. simpl.
    destruct Hc as [[_ Hc]|(b & r' & _ & _ & Hc & _)]; eauto.
  - intros r d w w' (bodies & rs & Hli) Hs E.
    destruct (wal_write_stored _ _ _ _ _ _ _ Hli Hs E) as [[Hn _]|(b & r' & Hst & Hli')]; [done|].
    exists r'. split; [done|]. rewrite (contents_is _ _ _ Hli), (contents_is _ _ _ Hli').
    eapply delivered_snoc; [apply Hs|done].
  - intros r d w w' e (bodies & rs & Hli) Hs E.
    destruct (wal_write_stored _ _ _ _ _ _ _ Hli Hs E) as [[_ Hli']|(b & r' & Hst & Hli')].
    + left. by rewrite (contents_is _ _ _ Hli), (contents_is _ _ _ Hli').
    + right. exists r'. split; [done|]. rewrite (contents_is _ _ _ Hli), (contents_is _ _ _ Hli').
      eapply delivered_snoc; [apply Hs|done].
Defined.

(** The same log when its epoch is the largest one it names. *)
Definition epoch_logged (w : WAL) : Prop := ∃ bodies rs, log_is w bodies rs ∧ top_epoch rs 0 = WAL.epoch w.

Lemma write_epoch_logged r d w :
  wal_storable r → epoch_logged (wl_wal w) → epoch_logged (wl_wal (write r d w).1).
Proof.
  intros Hs (bodies & rs & Hli & He). destruct (write r d w) as [w' e] eqn:E.
  assert (WAL.epoch (wl_wal w') = WAL.epoch (wl_wal w)) as Ee.
  { rewrite <- (wal_write_epoch r d (envs (wl_step w)) (wl_wal w)). simpl in E.
    destruct (wal_write _ _ _ _) as [w1 e1]. by injection E as <- _. }
  destruct (wal_write_stored _ _ _ _ _ _ _ Hli Hs E) as [[_ Hli']|(b & r' & [a Hst] & Hli')].
  - exists bodies, rs. cbn [fst]. by rewrite Ee.
  - exists (bodies ++ [b]), (rs ++ [r']). cbn [fst]. rewrite Ee, top_epoch_snoc; [done|]. rewrite Hst. apply Hs.
Qed.

Definition epoch_laws : LogLaws wlog.
Proof.
  refine {| log_ok w := epoch_logged (wl_wal w); log := log; storable := wal_storable |}.
  - intros r d w Hw Hs. by apply write_epoch_logged.
  - intros r d w w' (bodies & rs & Hli & _). apply (write_ok (LogLaws := wal_laws)). by exists bodies, rs.
  - intros r d w w' e (bodies & rs & Hli & _). apply (write_err (LogLaws := wal_laws)). by exists bodies, rs.
Defined.
End Interface.

(** ** Compaction *)

Section Compaction.
Context `{JsonLaws}.

(** The records as they are written: each stamped with the time of its write. *)
Definition stamp (env : cenv) (i : nat) (r : Rec) : Rec :=
  if Rec.At r =? 0 then Rec.set_At (UnixNano (ce_now env i)) r else r.

Fixpoint stamped (env : cenv) (i : nat) (rs : list Rec) : list Rec :=
  match rs with
  | [] => []
  | r :: rs => stamp env i r :: stamped env (S i) rs
  end.

Lemma write_all_ok records i env f off pre f' off' :
  write_all records i env f off = (f', off', None) →
  cache f = frames pre → off = Z.of_nat (length (frames pre)) →
  ∃ bodies rs, readable bodies rs ∧ cache f' = frames (pre ++ bodies) ∧
    off' = Z.of_nat (length (frames (pre ++ bodies))) ∧
    Forall2 (λ b r, marshal r = Some b) bodies (stamped env i records).
Proof.
  revert i f off pre. induction records as [|r records IH]; intros i f off pre E Hc Ho.
  { injection E as <- <-. exists [], []. rewrite app_nil_r. split_and!; [constructor|done|done|constructor]. }
  cbn [write_all] in E. fold (stamp env i r) in E.
  destruct (encode (stamp env i r)) as [buf|] eqn:He; [|done].
  destruct (encode_frame _ _ He) as (b & r' & Hm & -> & Hf & Hu).
  unfold WriteAt in E. destruct (ce_write env i) as [[k err]|]; [done|].
  rewrite Ho, Nat2Z.id, <- Hc, overwrite_end in E.
  assert (cache f ++ frame b = frames (pre ++ [b])) as Ef.
  { rewrite frames_app, Hc. f_equal. unfold frames. simpl. by rewrite app_nil_r. }
  destruct (IH _ _ _ (pre ++ [b]) E) as (bodies & rs & Hr & Hc' & Ho' & Hall).
  - simpl. exact Ef.
  - rewrite <- Ef, length_app. lia.
  - exists (b :: bodies), (r' :: rs). rewrite <- (assoc_L (++)) in Hc', Ho'. simpl in *.
    split_and!; [by constructor|done|done|by constructor].
Qed.

(** The new file: an epoch record, then the live ones. *)
Definition compacted (w : WAL) (live : list Rec) (env : cenv) : list Rec :=
  stamped env 0 (Rec.of_epoch (u64 (WAL.epoch w + 1)) :: live).

(** Whatever fails, the path names either the old log or the complete new one. *)
Lemma Compact_cases live env w :
  let '(w', e) := Compact live env w in
  (e ≠ None ∧ w' = w) ∨
  ∃ bodies rs f, readable bodies rs ∧ Forall2 (λ b r, marshal r = Some b) bodies (compacted w live env) ∧
    cache f = frames bodies ∧ disk f = frames bodies ∧ WAL.failed w = None ∧ WAL.at_path w' = f ∧
    match e with
    | Some _ => WAL.failed w' = e ∧ WAL.f w' = WAL.f w
    | None => log_is w' bodies rs ∧ WAL.f w' = f ∧ WAL.epoch w' = u64 (WAL.epoch w + 1) ∧
        WAL.retired w' = WAL.retired w ++ [WAL.f w] ∧ WAL.failed w' = None
    end.
Proof.
  unfold Compact. destruct (WAL.failed w) as [cause|] eqn:Hfail; [by left|].
  destruct (ce_open env); [by left|].
  destruct (write_all _ 0 env (File [] []) 0) as [[f off] [err|]] eqn:Hw; [by left|].
  destruct (write_all_ok _ _ _ _ _ [] _ _ Hw eq_refl eq_refl) as (bodies & rs & Hr & Hc & Ho & Hm).
  simpl in Hc, Ho. unfold Sync. destruct (ce_sync env); [by left|].
  destruct (ce_close env); [by left|]. destruct (ce_rename env); [by left|].
  destruct (ce_reopen env) as [err|]; right; exists bodies, rs, (File (cache f) (cache f)).
  - split_and!; done.
  - split_and!; try done. split; simpl; [done|done|]. rewrite Hc. by apply take_ge.
Qed.

(** A compaction that succeeds starts a file of its own. *)
Lemma Compact_trim live env w w' : Compact live env w = (w', None) → trim w'.
Proof.
  intros E. pose proof (Compact_cases live env w) as Hc. rewrite E in Hc.
  destruct Hc as [[? _]|(bodies & rs & f & _ & _ & Hca & _ & _ & Hp & Hli & Ef & _)]; [done|].
  split; [by rewrite Ef, Hca, (li_size _ _ _ Hli)|].
  unfold Compact in E. destruct (WAL.failed w); [done|]. destruct (ce_open env); [done|].
  destruct (write_all _ 0 env _ 0) as [[f1 off] [x|]]; [done|]. destruct (Sync f1 _) as [f2 [x|]]; [done|].
  destruct (ce_close env), (ce_rename env), (ce_reopen env); try done. by injection E as <-.
Qed.

Lemma readable_det bodies rs rs' :
  Forall2 (λ b r, marshal r = Some b) bodies rs' → Forall (λ r, json_safe r = true) rs' →
  readable bodies rs → rs = Rec.erase <$> rs'.
Proof.
  intros Hm. revert rs. induction Hm as [|b r bodies rs' Hb Hm IH]; intros rs Hs Hr.
  - by apply Forall2_nil_inv_l in Hr as ->.
  - apply Forall2_cons_inv_l in Hr as (r' & rs1 & [_ Hu] & Hr & ->). apply Forall_cons in Hs as [Hs Hs'].
    destruct (marshal_safe r Hs) as (b' & Hb' & Hu'). simpl. f_equal; [congruence|by apply IH].
Qed.
End Compaction.

(** ** Scanning arbitrary bytes *)

Section Anything.
Context `{JsonLaws}.

Lemma collect_total r off s : is_Some (collect r off s).
Proof. done. Qed.

(** A collecting scan extends what it has and touches only the epoch. *)
Lemma scan_loop_collect fuel rd eof off w acc s r :
  scan_loop collect fuel rd eof off (w, acc) = Some (s, r) →
  ∃ e extra, s = (WAL.set_epoch e w, acc ++ extra) ∧ WAL.epoch w ≤ e.
Proof.
  revert rd off w acc. induction fuel as [|fuel IH]; intros rd off w acc; simpl; [done|].
  assert (∃ e extra, (w, acc) = (WAL.set_epoch e w, acc ++ extra) ∧ WAL.epoch w ≤ e) as Hstop.
  { exists (WAL.epoch w), []. rewrite app_nil_r. by destruct w. }
  destruct (next_frame rd eof) as [|reason|rec n rd']; [by intros [= <- _]..|].
  case_bool_decide.
  - unfold raise_epoch. simpl. destruct (WAL.epoch w <? Rec.Epoch rec) eqn:He; intros E;
      apply IH in E as (e & extra & -> & Hle); exists e, extra; [|done].
    split; [by destruct w|]. simpl in Hle. lia.
  - intros E. apply IH in E as (e & extra & -> & Hle). exists e, ((rec, off) :: extra).
    split; [|done]. by rewrite <- (assoc_L (++)).
Qed.

Lemma scan_some from repair env s : is_Some (scan collect from repair env s).
Proof.
  unfold scan. destruct (from <? 0); [done|]. destruct (WAL.size _ <? from); [done|].
  destruct (from =? WAL.size _); [done|].
  pose proof (reads_length env (section (wal_of s) from)).
  destruct (scan_loop_total collect (S (length (section (wal_of s) from)))
    (reads env (section (wal_of s) from)).1 (reads env (section (wal_of s) from)).2 from s)
    as [[s' r] ->]; [intros; apply collect_total|lia|done].
Qed.

(** What is read of a log is read whole, wherever behind it reading fails. *)
Lemma reads_prefix l garbage se :
  (∀ k, se_read se = Some k → (length l <= k)%nat) →
  ∃ rest eof, reads se (l ++ garbage) = (l ++ rest, eof).
Proof.
  unfold reads. destruct (se_read se) as [k|]; [|eauto]. intros Hk. specialize (Hk k eq_refl).
  destruct (k <? _)%nat; [|eauto]. rewrite take_app_ge by done. eauto.
Qed.

Lemma recover_prefix bodies rs garbage se sy :
  readable bodies rs → (∀ k, se_read se = Some k → (length (frames bodies) <= k)%nat) →
  ∃ s e extra, Recover collect se (OpenWAL (frames bodies ++ garbage) sy, []) = Some (s, e) ∧
    s.2.*1 = delivered rs ++ extra.
Proof.
  intros Hr Hse. pose proof (Forall2_length _ _ _ Hr) as Hl. set (w := OpenWAL _ sy).
  destruct (scan_some 0 true se (w, [])) as [[s e] E]. exists s, e. unfold Recover. rewrite E.
  unfold scan in E. cbn [wal_of pair_has_wal fst] in E. change (0 <? 0) with false in E. cbn iota in E.
  assert (section w 0 = frames bodies ++ garbage) as Hsec.
  { unfold section. simpl. rewrite Z.sub_0_r, Nat2Z.id. by apply take_ge. }
  rewrite (proj2 (Z.ltb_ge (WAL.size w) 0)) in E by apply Nat2Z.is_nonneg.
  destruct (0 =? WAL.size w) eqn:Hz.
  { exists []. injection E as <- <-. simpl. rewrite app_nil_r.
    pose proof (frames_length_ge bodies) as Hge. apply Z.eqb_eq in Hz.
    change (WAL.size w) with (Z.of_nat (length (frames bodies ++ garbage))) in Hz.
    rewrite length_app in Hz.
    assert (rs = []) as -> by (destruct rs; [done|simpl in *; lia]). done. }
  rewrite Hsec in E. pose proof (frames_length_ge bodies) as Hge.
  destruct (reads_prefix (frames bodies) garbage se Hse) as (rest & eof & Hrd). rewrite Hrd in E.
  cbn [fst snd] in E.
  replace (S (length (frames bodies ++ garbage)))
    with (length bodies + S (length (frames bodies ++ garbage) - length bodies))%nat in E
    by (rewrite length_app; lia).
  rewrite (scan_loop_frames _ _ rs), feed_collect in E by done. simpl_bind.
  apply bind_Some in E as ([s1 r] & E1 & E).
  apply scan_loop_collect in E1 as (e' & extra & -> & _). exists (extra.*1).
  injection E as E. assert (s.2 = with_offsets (sized rs bodies) 0 ++ extra) as ->.
  { destruct r; simpl in E; [by injection E as <- _..|].
    destruct (truncate _ _ _ _). by injection E as <- _. }
  by rewrite fmap_app, with_offsets_fst.
Qed.
End Anything.

(** ** Repairing a torn log *)

Section Repair.
Context `{JsonLaws}.

(** What may follow the last whole frame: anything that does not itself begin
    with one - nothing, part of a frame, the end of an older one. *)
Definition torn (tl : bytes) : Prop := ∀ r n rd, next_frame tl true ≠ NextRec r n rd.

Lemma torn_nil : torn [].
Proof. done. Qed.

Lemma torn_cut b i : fits b → (i < length (frame b))%nat → torn (take i (frame b)).
Proof.
  intros Hf Hi r n rd. destruct (decide (i = 0%nat)) as [->|Hz]; [done|].
  destruct (next_frame_torn b i true Hf) as [reason ->]; [lia|done].
Qed.

(** The length a frame begins with is below 2 to the 25, the text of a record
    is printable: bytes that begin inside a text are torn. *)
Lemma torn_text c rest : (3 ≤ Byte.to_N c)%N → torn (c :: rest).
Proof.
  intros Hc r n rd. unfold next_frame. case_decide as H8; [done|].
  assert (50331648 <= get32 (take 4 (c :: rest)))%N as Hg.
  { destruct rest as [|c1 [|c2 [|c3 rest]]]; simpl in H8; [lia..|]. unfold get32. simpl. lia. }
  set (k := get32 _) in *. assert ((k =? 0)%N = false) as -> by (apply N.eqb_neq; lia).
  by assert ((maxRecord <? Z.of_N k) = true) as -> by (apply Z.ltb_lt; rewrite maxRecord_eq; lia).
Qed.

(** A reader that fails where bytes are left sees no more than one that ends there. *)
Lemma torn_fails tl eof : torn tl → ∀ r n rd, next_frame tl eof ≠ NextRec r n rd.
Proof. intros Ht r n rd. destruct eof; [apply Ht|]. destruct tl; [done|]. exact (Ht r n rd). Qed.

Lemma torn_bad tl : torn tl → tl ≠ [] → ∃ reason, next_frame tl true = NextBad reason.
Proof.
  intros Ht Hne. destruct (next_frame tl true) as [|reason|r n rd] eqn:E; [|eauto|by destruct (Ht r n rd)].
  exfalso. destruct tl; [done|]. unfold next_frame in E. repeat (case_decide || case_match); done.
Qed.

(** What a truncation leaves alone. *)
Definition same_wal (w w' : WAL) : Prop :=
  WAL.epoch w' = WAL.epoch w ∧ WAL.failed w' = WAL.failed w ∧ WAL.syncEvery w' = WAL.syncEvery w ∧
  WAL.retired w' = WAL.retired w ∧ WAL.dirty w' = WAL.dirty w ∧ WAL.orphan w' = WAL.orphan w ∧
  WAL.closed w' = WAL.closed w.

(** The truncation that ends a recovery. *)
Lemma repair_ok w bodies rs tl :
  readable bodies rs → cache (WAL.f w) = frames bodies ++ tl → disk (WAL.f w) = cache (WAL.f w) →
  WAL.size w = Z.of_nat (length (frames bodies ++ tl)) → torn tl →
  ∃ w' : WAL, (∀ (St : Type) (HW : HasWal St) (s : St), wal_of s = w → with_wal w s = s →
      scan_result true (SEnv None None None) true (0 + Z.of_nat (length (frames bodies))) tl s =
        Some (with_wal w' s, None)) ∧
    log_is w' bodies rs ∧ cache (WAL.f w') = frames bodies ∧ disk (WAL.f w') = frames bodies ∧
    same_wal w w'.
Proof.
  intros Hr Hc Hd Hs Ht. rewrite length_app in Hs.
  assert (take (length (frames bodies)) (cache (WAL.f w)) = frames bodies) as Hb.
  { by rewrite Hc, take_app_length. }
  destruct (decide (tl = [])) as [->|Hne].
  - rewrite app_nil_r in Hc. exists w. split_and!; [by intros St ? s _ ->| |done|congruence|done].
    split; [done| |done]. rewrite Hs. simpl. lia.
  - assert (length tl ≠ 0%nat) by by destruct tl.
    assert (Z.of_nat (length (frames bodies)) < WAL.size w) as Hlt by lia.
    destruct (truncate (0 + Z.of_nat (length (frames bodies))) None None w) as [w2 e2] eqn:Et.
    assert (e2 = None ∧ same_wal w w2) as [-> Hsame].
    { unfold truncate in Et. rewrite (proj2 (Z.leb_gt _ _)) in Et by (rewrite Z.add_0_l; exact Hlt).
      simpl in Et. by injection Et as <- <-. }
    destruct (truncate_ok _ _ _ _ bodies rs Hr (Z.add_0_l _) Hb Hlt Et) as (Hli & Hc2 & Hd2).
    exists w2. split_and!; try done. intros St ? s Hw _. unfold scan_result.
    destruct (torn_bad tl Ht Hne) as [reason ->].
    cbn [se_trunc se_sync]. by rewrite Hw, Et.
Qed.

(** Recovery with a callback that never stops, over a log and a torn tail. *)
Lemma recover_any {St} `{HasWal St} fn (step : list (Rec * nat) → St → St) (s : St) bodies rs tl :
  (∀ l off s, ∃ off', feed fn l off s = Some (step l s, off', None)) →
  readable bodies rs → torn tl → bodies ≠ [] ∨ tl ≠ [] →
  WAL.size (wal_of s) = Z.of_nat (length (frames bodies ++ tl)) →
  cache (WAL.f (wal_of s)) = frames bodies ++ tl →
  Recover fn (SEnv None None None) s =
    scan_result true (SEnv None None None) true (0 + Z.of_nat (length (frames bodies))) tl
      (step (sized rs bodies) s).
Proof.
  intros Hfeed Hr Ht Hne Hs Hc. pose proof (Forall2_length _ _ _ Hr) as Hl. unfold Recover.
  rewrite (scan_frames _ _ _ _ _ bodies rs tl); [|done| |done| |done].
  - destruct (Hfeed (sized rs bodies) 0 s) as [off E]. rewrite E. simpl_bind.
    by rewrite (feed_offset fn rs bodies _ _ _ _ (eq_sym Hl) E).
  - rewrite Hs, length_app. pose proof (frames_length_ge bodies) as Hge.
    destruct Hne as [Hne|Hne]; [destruct bodies|destruct tl]; try done; simpl in *; lia.
  - unfold section. rewrite Hs, Z.sub_0_r, Nat2Z.id, Hc. by apply take_ge.
Qed.

Lemma recover_cut bodies rs tl :
  readable bodies rs → torn tl →
  ∃ w acc, Recover collect (SEnv None None None) (OpenWAL (frames bodies ++ tl) 0, []) =
      Some ((w, acc), None) ∧
    acc = with_offsets (sized rs bodies) 0 ∧ log_is w bodies rs ∧
    cache (WAL.f w) = frames bodies ∧ disk (WAL.f w) = frames bodies.
Proof.
  intros Hr Ht. pose proof (Forall2_length _ _ _ Hr) as Hl. set (w0 := OpenWAL _ 0).
  destruct (repair_ok (WAL.set_epoch (top_epoch rs 0) w0) bodies rs tl Hr) as (w & Hrep & Hli & Hc & Hd & _);
    [done..|].
  destruct (decide (bodies = [] ∧ tl = [])) as [[-> ->]|Hnz].
  - apply Forall2_nil_inv_l in Hr as ->. exists w0, []. split_and!; try done.
    by apply (OpenWAL_is [] []); constructor.
  - exists w, (with_offsets (sized rs bodies) 0). split_and!; try done.
    unfold Recover. rewrite (scan_frames _ _ _ _ _ bodies rs tl).
    + rewrite feed_collect by done. simpl_bind. by apply Hrep.
    + done.
    + simpl. rewrite length_app. pose proof (frames_length_ge bodies).
      destruct bodies, tl; simpl in *; try lia. by destruct Hnz.
    + done.
    + unfold section. simpl. rewrite Z.sub_0_r, Nat2Z.id. by apply take_ge.
    + done.
Qed.
End Repair.

(** ** A damaged log *)

Section Damage.
Context `{JsonLaws}.

(** The frame of [x ++ a :: y] with its byte [a] turned into [a']. *)
Definition damaged (x : bytes) (a a' : byte) (y : bytes) : bytes :=
  put32 (N.of_nat (length (x ++ a :: y))) ++ put32 (crc32 (x ++ a :: y)) ++ (x ++ a' :: y).

Lemma damaged_scan pre rs x a a' y post repair env w :
  readable pre rs → fits (x ++ a :: y) → a ≠ a' → se_read env = None →
  WAL.size w = Z.of_nat (length (frames pre ++ damaged x a a' y ++ frames post)) →
  cache (WAL.f w) = frames pre ++ damaged x a a' y ++ frames post →
  scan collect 0 repair env (w, []) =
    scan_result repair env true (Z.of_nat (length (frames pre))) (damaged x a a' y ++ frames post)
      (WAL.set_epoch (top_epoch rs (WAL.epoch w)) w, with_offsets (sized rs pre) 0).
Proof.
  intros Hr Hf Ha He Hs Hc. pose proof (Forall2_length _ _ _ Hr) as Hl.
  assert (torn (damaged x a a' y ++ frames post)) as Hnr.
  { intros r n rd. unfold damaged. rewrite <- !(assoc_L (++)). intros E.
    pose proof (next_frame_changed x a a' y (frames post) true Hf Ha) as Hn.
    rewrite <- !(assoc_L (++)) in Hn. congruence. }
  rewrite (scan_frames collect 0 repair env (w, []) pre rs (damaged x a a' y ++ frames post));
    [|done| |done| |done].
  - rewrite feed_collect by done. simpl_bind. by rewrite Z.add_0_l.
  - cbn [wal_of pair_has_wal fst]. rewrite Hs, !length_app. unfold damaged. rewrite !length_app. simpl. lia.
  - cbn [wal_of pair_has_wal fst]. unfold section. rewrite Hs, Z.sub_0_r, Nat2Z.id, Hc.
    change (Z.to_nat 0) with 0%nat. rewrite drop_0. by apply take_ge.
Qed.
End Damage.
