(* ===== verification/WireCodec.v ===== *)
(** * A codec for concrete runs

    [encoding/json] is an interface of the model ([Encoding.Json]).  This instance,
    a plain self-delimiting encoding of every exported field, meets its laws for
    all records, so that the theorems stated for any codec can be run.  It is
    used in no definition that models the program. *)

From Stdlib Require Import Strings.Byte Strings.Ascii.
From S2P Require Import Prelude Bytes Msg LogStore Encoding Wal WalOps.

Module WireCodec.

(** A printer with the parser that undoes it. *)
Class Wire (A : Type) := { put : A → bytes; get : bytes → option (A * bytes) }.
Definition faithful {A} `{Wire A} (canon : A → A) : Prop :=
  ∀ a tl, get (put a ++ tl) = Some (canon a, tl).

Fixpoint put_pos (p : positive) : bytes :=
  match p with xH => [x32] | xO p => x30 :: put_pos p | xI p => x31 :: put_pos p end.
Fixpoint get_pos (b : bytes) : option (positive * bytes) :=
  match b with
  | x32 :: b => Some (xH, b)
  | x30 :: b => '(p, b) ← get_pos b; Some (xO p, b)
  | x31 :: b => '(p, b) ← get_pos b; Some (xI p, b)
  | _ => None
  end.

Lemma get_put_pos p tl : get_pos (put_pos p ++ tl) = Some (p, tl).
Proof. induction p as [p IH|p IH|]; simpl; [by rewrite IH..|done]. Qed.

#[export] Instance wire_Z : Wire Z := {
  put z := match z with Z0 => [x30] | Zpos p => x31 :: put_pos p | Zneg p => x32 :: put_pos p end;
  get b := match b with
           | x30 :: b => Some (Z0, b)
           | x31 :: b => '(p, b) ← get_pos b; Some (Zpos p, b)
           | x32 :: b => '(p, b) ← get_pos b; Some (Zneg p, b)
           | _ => None
           end;
}.

Lemma wire_Z_ok : faithful (A := Z) id.
Proof. intros [|p|p] tl; simpl; [done|by rewrite get_put_pos..]. Qed.

Fixpoint put_string (s : string) : bytes :=
  match s with EmptyString => [x30] | String c s => x31 :: byte_of_ascii c :: put_string s end.
Fixpoint get_string (b : bytes) : option (string * bytes) :=
  match b with
  | x30 :: b => Some (EmptyString, b)
  | x31 :: c :: b => '(s, b) ← get_string b; Some (String (ascii_of_byte c) s, b)
  | _ => None
  end.

#[export] Instance wire_string : Wire string := { put := put_string; get := get_string }.

Lemma wire_string_ok : faithful (A := string) id.
Proof.
  intros s tl. simpl. induction s as [|c s IH]; simpl; [done|]. rewrite IH. simpl.
  by rewrite ascii_of_byte_of_ascii.
Qed.

#[export] Instance wire_bool : Wire bool := {
  put b := if b then [x31] else [x30];
  get b := match b with x31 :: b => Some (true, b) | x30 :: b => Some (false, b) | _ => None end;
}.

Lemma wire_bool_ok : faithful (A := bool) id.
Proof. by intros []. Qed.

#[export] Instance wire_option {A} `{Wire A} : Wire (option A) := {
  put o := match o with None => [x30] | Some a => x31 :: put a end;
  get b := match b with
           | x30 :: b => Some (None, b)
           | x31 :: b => '(a, b) ← get b; Some (Some a, b)
           | _ => None
           end;
}.

Lemma wire_option_ok {A} `{Wire A} canon :
  faithful (A := A) canon → faithful (A := option A) (fmap canon).
Proof. intros Hf [a|] tl; simpl; [by rewrite Hf|done]. Qed.

#[export] Instance wire_msg : Wire Msg := {
  put m := put (Msg.ID m) ++ put (Msg.Body m) ++ put (Msg.Priority m) ++ put (Msg.Seq m) ++
    put (Msg.VisibleAt m) ++ put (Msg.EnqueuedAt m) ++ put (Msg.Attempts m) ++
    put (Msg.Receipt m) ++ put (Msg.LeaseExpiry m);
  get b := '(id, b) ← get b; '(body, b) ← get b; '(prio, b) ← get b; '(s, b) ← get b;
    '(v, b) ← get b; '(e, b) ← get b; '(a, b) ← get b; '(r, b) ← get b; '(l, b) ← get b;
    Some (Msg.Mk id body prio s v e a r l 0, b);
}.

#[export] Instance wire_config : Wire Config := {
  put c := put (Config.Name c) ++ put (Config.Mode c) ++ put (Config.Priority c) ++
    put (Config.MaxAttempts c) ++ put (Config.VisibilityTimeoutMS c);
  get b := '(n, b) ← get b; '(m, b) ← get b; '(p, b) ← get b; '(a, b) ← get b; '(v, b) ← get b;
    Some (Config.Mk n m p a v, b);
}.

Ltac roundtrip :=
  repeat (rewrite <- (assoc_L (++)) || rewrite wire_Z_ok || rewrite wire_string_ok
          || rewrite wire_bool_ok || (progress simpl_bind)).

Lemma wire_msg_ok : faithful (A := Msg) Msg.erase.
Proof. intros m tl. cbn [put get wire_msg]. roundtrip. by destruct m. Qed.

Lemma wire_config_ok : faithful (A := Config) id.
Proof. intros c tl. cbn [put get wire_config]. roundtrip. by destruct c. Qed.

#[export] Instance wire_rec : Wire Rec := {
  put r := put (Rec.Op r) ++ put (Rec.Queue r) ++ put (Rec.ID r) ++ put (Rec.Msg r) ++
    put (Rec.Config r) ++ put (Rec.Epoch r) ++ put (Rec.Seq r) ++ put (Rec.At r);
  get b := '(op, b) ← get b; '(q, b) ← get b; '(id, b) ← get b; '(m, b) ← get b;
    '(c, b) ← get b; '(e, b) ← get b; '(s, b) ← get b; '(a, b) ← get b;
    Some (Rec.Mk op q id m c e s a, b);
}.

Lemma wire_rec_ok : faithful (A := Rec) Rec.erase.
Proof.
  intros r tl. cbn [put get wire_rec]. roundtrip.
  rewrite (wire_option_ok _ wire_msg_ok). roundtrip.
  rewrite (wire_option_ok _ wire_config_ok). roundtrip.
  destruct r as [? ? ? ? [c|] ? ? ?]; done.
Qed.

#[export] Instance json : Json := {
  marshal r := Some (put r);
  unmarshal b := '(r, tl) ← get b; match tl with [] => Some r | _ => None end;
}.

Lemma unmarshal_put (r : Rec) : unmarshal (put r) = Some (Rec.erase r).
Proof. cbn [unmarshal json]. rewrite <- (app_nil_r (put r)), wire_rec_ok. done. Qed.

#[export] Instance json_laws : JsonLaws.
Proof.
  split.
  - intros r b E. assert (b = put r) as -> by (by injection E).
    split; [|exact (mk_is_Some _ _ (unmarshal_put r))].
    clear E. intros E. pose proof (unmarshal_put r) as Hu. by rewrite E in Hu.
  - intros r _. exists (put r). split; [done|]. apply unmarshal_put.
Defined.

(** Concrete logs. *)
Lemma bodies_readable (l : list Rec) :
  Forall (λ r, fits (put r)) l → readable (put <$> l) (Rec.erase <$> l).
Proof.
  induction 1 as [|r l Hf Hl IH]; [constructor|]. constructor; [|done].
  split; [done|apply unmarshal_put].
Qed.
End WireCodec.

Lemma fits_dec b : bool_decide (b ≠ []) && (Z.of_nat (length b) <=? maxRecord) = true → fits b.
Proof. intros [H1%bool_decide_eq_true H2]%andb_true_iff. split; [done|lia]. Qed.
