(* ===== verification/WalProps.v ===== *)
(** * Properties of the write ahead log

    What [queue/wal.go] promises: records come back in order, what was
    acknowledged as durable survives a crash, a torn or damaged log is noticed
    and repaired by recovery only, a latched failure refuses every write, and
    compaction is atomic. *)

From Stdlib Require Import Strings.Byte.
From S2P Require Import Prelude Bytes Msg LogStore Encoding Wal WalOps WireCodec.
Import (hints) WireCodec.

(** ** Concrete logs *)

Definition rec1 : Rec := Rec.set_At 1 (Rec.of_config OpCreateQueue "jobs" (Config.Mk "jobs" FIFO true 2 1000) 0).
Definition rec2 : Rec := Rec.set_At 2 (Rec.of_msg OpEnqueue "jobs" (Msg.Mk "a1" "hi" 0 1 5 5 0 "" 0 0)).
Definition rec3 : Rec := Rec.set_At 3 (Rec.of_id OpAck "jobs" "a1").
Definition recs : list Rec := [rec1; rec2; rec3].
Definition bodies : list bytes := WireCodec.put <$> recs.

Definition quiet_env : wenv := WEnv unixEpoch None None.
Definition open_env : senv := SEnv None None None.

Lemma bodies_ok : readable bodies (Rec.erase <$> recs).
Proof.
  apply WireCodec.bodies_readable. repeat constructor; apply fits_dec; vm_compute; reflexivity.
Qed.

(** ** Durability *)

(** C16: when a synchronous append returns nil on a log without group commit,
    its record has been added at the end of the log and the whole file has
    reached the disk; and from then on, whatever bytes a crash leaves after it,
    recovery of that file reads every record of the log in order, the new one
    included, before anything else.  (Reading may fail, but behind the record:
    [read_error_truncates] is what a failure before it does.) *)
Theorem durable_append `{JsonLaws} rec env w w' bodies rs garbage se :
  log_is w bodies rs → WAL.syncEvery w = 0 → Rec.Op rec ≠ OpEpoch → wal_storable rec →
  wal_write rec true env w = (w', None) →
  (∀ k, se_read se = Some k → WAL.size w' ≤ Z.of_nat k) →
  ∃ b r', stored rec r' ∧ log_is w' (bodies ++ [b]) (rs ++ [r']) ∧ disk (WAL.f w') = cache (WAL.f w') ∧
    ∃ s e extra, Recover collect se
        (OpenWAL (take (Z.to_nat (WAL.size w')) (disk (WAL.f w')) ++ garbage) 0, []) = Some (s, e) ∧
      s.2.*1 = (delivered rs ++ [r']) ++ extra.
Proof.
  intros Hli Hse Hop Hst E Hrd.
  pose proof (wal_write_cases rec true env w bodies rs Hli) as Hc. cbv zeta in Hc. rewrite E in Hc.
  destruct Hc as [[? _]|(b & r' & Hm & Hu & Hli' & _ & _ & Hd)]; [done|].
  assert (stored rec r') as Hstored by by eapply stamped_stored.
  exists b, r'. split_and!; [done..|by apply Hd; lia|].
  rewrite Hd, (li_size _ _ _ Hli'), Nat2Z.id, (li_bytes _ _ _ Hli') by lia.
  destruct (recover_prefix (bodies ++ [b]) (rs ++ [r']) garbage se 0) as (s & e & extra & Hrec & Hacc).
  - apply (li_readable _ _ _ Hli').
  - intros k Hk. apply Hrd in Hk. rewrite (li_size _ _ _ Hli') in Hk. lia.
  - exists s, e, extra. split; [done|]. rewrite Hacc. f_equal. by eapply delivered_snoc.
Qed.

(** A log of the first two records, about to receive the third. *)
Definition two : WAL := OpenWAL (frames (take 2 bodies)) 0.

Lemma two_is : log_is two (take 2 bodies) (Rec.erase <$> take 2 recs).
Proof.
  apply OpenWAL_is. apply (WireCodec.bodies_readable (take 2 recs)).
  repeat constructor; apply fits_dec; vm_compute; reflexivity.
Qed.

Lemma durable_append_witness :
  ∃ w' b r', wal_write rec3 true quiet_env two = (w', None) ∧ stored rec3 r' ∧
    disk (WAL.f w') = cache (WAL.f w') ∧
    ∃ s e extra, Recover collect open_env
        (OpenWAL (take (Z.to_nat (WAL.size w')) (disk (WAL.f w')) ++ [x00; x01]) 0, []) = Some (s, e) ∧
      s.2.*1 = (delivered (Rec.erase <$> take 2 recs) ++ [r']) ++ extra ∧ b = WireCodec.put rec3.
Proof.
  destruct (wal_write rec3 true quiet_env two) as [w' [e|]] eqn:E; [vm_compute in E; discriminate E|].
  destruct (durable_append rec3 quiet_env two w' (take 2 bodies) (Rec.erase <$> take 2 recs) [x00; x01] open_env)
    as (b & r' & Hs & Hli & Hd & s & e & extra & Hr & Hacc).
  - apply two_is.
  - vm_compute. reflexivity.
  - vm_compute. discriminate.
  - split; [vm_compute; discriminate|vm_compute; reflexivity].
  - exact E.
  - vm_compute. discriminate.
  - exists w', (WireCodec.put rec3), r'. split; [reflexivity|]. split; [exact Hs|]. split; [exact Hd|].
    exists s, e, extra. split; [exact Hr|]. split; [exact Hacc|reflexivity].
Defined.

(** C17: whatever prefix of a clean log a crash leaves, recovery delivers exactly
    the records whose frames are complete, in order and at their offsets,
    removes the torn frame, and leaves a clean log that the next append
    extends. *)
Theorem recover_torn_log `{JsonLaws} bodies rs k :
  readable bodies rs → (k ≤ length (frames bodies))%nat →
  ∃ j, let kept := take j bodies in
    (length (frames kept) ≤ k)%nat ∧
    (∀ b, bodies !! j = Some b → (k < length (frames (take (S j) bodies)))%nat) ∧
    ∃ w acc, Recover collect open_env (OpenWAL (take k (frames bodies)) 0, []) = Some ((w, acc), None) ∧
      acc = with_offsets (sized (take j rs) kept) 0 ∧ log_is w kept (take j rs) ∧
      cache (WAL.f w) = frames kept ∧ disk (WAL.f w) = frames kept.
Proof.
  intros Hr Hk. destruct (frames_cut bodies k Hk) as (j & tl & E & Hj & Htl).
  assert (readable (take j bodies) (take j rs)) as Hrj by by apply Forall2_take.
  assert ((length (frames (take j bodies)) + length tl = k)%nat) as Hlen.
  { apply (f_equal length) in E. rewrite length_take, length_app in E. lia. }
  exists j. cbv zeta. split; [done|]. split.
  { intros b Hb. rewrite (take_S_r _ _ b) by done. rewrite frames_app, length_app.
    change (frames [b]) with (frame b ++ []). rewrite app_nil_r.
    destruct Htl as [->|(b' & i & Hb' & -> & Hi)].
    - simpl in Hlen. rewrite frame_length. lia.
    - assert (b' = b) as -> by congruence. rewrite length_take in Hlen. lia. }
  rewrite E. destruct (recover_cut (take j bodies) (take j rs) tl Hrj) as (w & acc & Hrec & Hrest).
  { destruct Htl as [->|(b & i & Hb & -> & Hi)]; [apply torn_nil|].
    destruct (Forall2_lookup_l _ _ _ _ _ Hr Hb) as (r' & _ & Hf & _). apply torn_cut; [done|lia]. }
  by exists w, acc.
Qed.

Lemma recover_torn_log_witness :
  ∃ j, let kept := take j bodies in
    (length (frames kept) ≤ 100)%nat ∧
    (∀ b, bodies !! j = Some b → (100 < length (frames (take (S j) bodies)))%nat) ∧
    ∃ w acc, Recover collect open_env (OpenWAL (take 100 (frames bodies)) 0, []) = Some ((w, acc), None) ∧
      acc = with_offsets (sized (take j (Rec.erase <$> recs)) kept) 0 ∧
      log_is w kept (take j (Rec.erase <$> recs)) ∧
      cache (WAL.f w) = frames kept ∧ disk (WAL.f w) = frames kept.
Proof.
  apply (recover_torn_log bodies (Rec.erase <$> recs) 100); [apply bodies_ok|].
  apply Nat.leb_le. vm_compute. reflexivity.
Defined.

(** Every write either appends exactly one frame, which decodes to the
    stamped record, or reports an error and leaves the readable part of the log
    as it was; an error after the frame was appended can only come from the
    sync, and then it is latched. *)
Theorem write_appends_one_or_nothing `{JsonLaws} rec durable env w bodies rs w' e :
  log_is w bodies rs → wal_storable rec → wal_write rec durable env w = (w', e) →
  (e ≠ None ∧ log_is w' bodies rs) ∨
  (∃ b r', stored rec r' ∧ log_is w' (bodies ++ [b]) (rs ++ [r']) ∧ WAL.failed w = None ∧
     (e = None ∨ (durable = true ∧ e = we_sync env ∧ WAL.failed w' = e))).
Proof.
  intros Hli Hst E. pose proof (wal_write_cases rec durable env w bodies rs Hli) as Hc.
  cbv zeta in Hc. rewrite E in Hc. destruct Hc as [Hc|(b & r' & Hm & Hu & Hli' & Hf & He)]; [by left|right].
  exists b, r'. split_and!; [by eapply stamped_stored|done|done|].
  destruct e as [e|]; [right|by left]. destruct He as (? & _ & ? & ?). done.
Qed.

Lemma write_appends_one_or_nothing_witness :
  ∃ w' e, wal_write rec3 true (WEnv unixEpoch (Some (5%nat, ErrIO "disk full")) None) two = (w', e) ∧
    ((e ≠ None ∧ log_is w' (take 2 bodies) (Rec.erase <$> take 2 recs)) ∨
     (∃ b r', stored rec3 r' ∧ log_is w' (take 2 bodies ++ [b]) ((Rec.erase <$> take 2 recs) ++ [r']) ∧
        WAL.failed two = None ∧ (e = None ∨ (true = true ∧ e = None ∧ WAL.failed w' = e)))).
Proof.
  destruct (wal_write rec3 true (WEnv unixEpoch (Some (5%nat, ErrIO "disk full")) None) two) as [w' e] eqn:E.
  exists w', e. split; [reflexivity|].
  apply (write_appends_one_or_nothing rec3 true (WEnv unixEpoch (Some (5%nat, ErrIO "disk full")) None)
    two (take 2 bodies) (Rec.erase <$> take 2 recs) w' e).
  - apply two_is.
  - split; [vm_compute; discriminate|vm_compute; reflexivity].
  - exact E.
Defined.

(** C32: once a storage failure is latched - a failed sync, inline or in the
    flusher, or a compaction that could not reopen its file - every later write
    and compaction is refused and changes nothing, and no later sync clears it. *)
Theorem failure_is_latched `{Json} rec durable env live cenv w cause :
  WAL.failed w = Some cause →
  (∃ e, wal_write rec durable env w = (w, Some e)) ∧
  (∀ buf, encode (if Rec.At rec =? 0 then Rec.set_At (UnixNano (we_now env)) rec else rec) = Ok buf →
     wal_write rec durable env w = (w, Some (ErrUnusable cause))) ∧
  Compact live cenv w = (w, Some (ErrUnusable cause)) ∧
  ∀ sync, WAL.failed (flush sync w) = Some cause.
Proof.
  intros Hf. split_and!.
  - unfold wal_write. destruct (encode _); [rewrite Hf|]; eauto.
  - intros buf He. unfold wal_write. by rewrite He, Hf.
  - unfold Compact. by rewrite Hf.
  - intros sync. unfold flush. destruct (WAL.dirty w); [|done].
    destruct sync; simpl; by rewrite ?Hf.
Qed.

Definition broken : WAL := (wal_write rec3 true (WEnv unixEpoch None (Some (ErrIO "fsync"))) two).1.

Lemma failure_is_latched_witness :
  WAL.failed broken = Some (ErrIO "fsync") ∧
  wal_write rec1 false quiet_env broken = (broken, Some (ErrUnusable (ErrIO "fsync"))).
Proof.
  assert (WAL.failed broken = Some (ErrIO "fsync")) as Hf by (vm_compute; reflexivity).
  split; [exact Hf|].
  destruct (failure_is_latched rec1 false quiet_env []
    (CEnv (λ _, 0) None (λ _, None) None None None None) broken (ErrIO "fsync") Hf) as (_ & Hw & _).
  eapply Hw. vm_compute. reflexivity.
Defined.

(** ** Reading *)

(** An offset that was the end of the log when a bookmark was taken still
    is a record boundary after any number of further appends: a scan from it
    delivers exactly the records appended since, at their offsets. *)
Theorem scan_from_bookmark `{JsonLaws} w pre post rs1 rs2 :
  log_is w (pre ++ post) (rs1 ++ rs2) → readable pre rs1 →
  Scan collect (Z.of_nat (length (frames pre))) open_env (w, []) =
    Some ((WAL.set_epoch (top_epoch rs2 (WAL.epoch w)) w,
           with_offsets (sized rs2 post) (Z.of_nat (length (frames pre)))), None).
Proof.
  intros Hli Hr1. unfold Scan. rewrite (scan_boundary _ _ pre post rs1 rs2) by done.
  rewrite feed_collect; [done|]. pose proof (li_readable _ _ _ Hli) as Hr.
  apply Forall2_app_inv in Hr as [_ Hr2]; [|by eapply Forall2_length]. by eapply eq_sym, Forall2_length.
Qed.

Lemma scan_from_bookmark_witness :
  Scan collect (Z.of_nat (length (frames (take 1 bodies)))) open_env (OpenWAL (frames bodies) 0, []) =
    Some ((WAL.set_epoch (top_epoch (Rec.erase <$> drop 1 recs) (WAL.epoch (OpenWAL (frames bodies) 0)))
             (OpenWAL (frames bodies) 0),
           with_offsets (sized (Rec.erase <$> drop 1 recs) (drop 1 bodies))
             (Z.of_nat (length (frames (take 1 bodies))))), None).
Proof.
  apply (scan_from_bookmark (OpenWAL (frames bodies) 0) (take 1 bodies) (drop 1 bodies)
    (Rec.erase <$> take 1 recs) (Rec.erase <$> drop 1 recs)).
  - apply OpenWAL_is. apply bodies_ok.
  - apply (WireCodec.bodies_readable (take 1 recs)). repeat constructor; apply fits_dec; vm_compute; reflexivity.
Defined.

(** A scan never changes the log, whatever offset its caller names and
    whatever the file holds: it returns, it may learn a larger epoch, and
    everything else - the bytes, the size, the latched error - is as before. *)
Theorem scan_is_read_only `{Json} from env w acc :
  ∃ e epoch extra, Scan collect from env (w, acc) =
    Some ((WAL.set_epoch epoch w, acc ++ extra), e) ∧ WAL.epoch w ≤ epoch.
Proof.
  destruct (scan_some from false env (w, acc)) as [[s e] E]. exists e. unfold Scan. rewrite E.
  assert (Hsame : ∃ epoch extra, (w, acc) = (WAL.set_epoch epoch w, acc ++ extra) ∧ WAL.epoch w ≤ epoch).
  { exists (WAL.epoch w), []. rewrite app_nil_r. by destruct w. }
  enough (∃ epoch extra, s = (WAL.set_epoch epoch w, acc ++ extra) ∧ WAL.epoch w ≤ epoch)
    as (epoch & extra & -> & ?) by eauto.
  unfold scan in E. destruct (from <? 0); [by injection E as <- _|].
  destruct (WAL.size _ <? from); [by injection E as <- _|].
  destruct (from =? WAL.size _); [by injection E as <- _|].
  apply bind_Some in E as ([s1 r] & E1 & E). apply scan_loop_collect in E1 as (ep & extra & -> & Hle).
  exists ep, extra. destruct r; injection E as <- _; done.
Qed.

(** An offset inside the text of a record, as opposed to one at its start,
    is refused: the next byte, read as the top byte of a length, already makes
    the length implausible (printable text is at least 0x20), so nothing is
    delivered and the caller is told. *)
Theorem scan_inside_text_refused `{JsonLaws} w from c rest :
  0 ≤ from < WAL.size w → section w from = c :: rest → (3 ≤ Byte.to_N c)%N →
  Scan collect from open_env (w, []) = Some ((w, []), Some (ErrCorrupt from
    (if decide (length (c :: rest) < 8)%nat then "partial header" else "implausible record length"))).
Proof.
  intros Hfrom Hsec Hc. unfold Scan.
  assert (next_frame (c :: rest) true = NextBad
    (if decide (length (c :: rest) < 8)%nat then "partial header" else "implausible record length")) as Hn.
  { unfold next_frame. case_decide as H8; [done|].
    assert (50331648 <= get32 (take 4 (c :: rest)))%N as Hg.
    { destruct rest as [|c1 [|c2 [|c3 rest]]]; simpl in H8; [lia..|]. unfold get32. simpl. lia. }
    set (n := get32 _) in *. assert ((n =? 0)%N = false) as -> by (apply N.eqb_neq; lia).
    assert ((maxRecord <? Z.of_N n) = true) as -> by (apply Z.ltb_lt; rewrite maxRecord_eq; lia).
    done. }
  rewrite (scan_frames collect from false open_env (w, []) [] [] (c :: rest)); [|constructor|done|done|done|].
  - simpl. unfold scan_result. by rewrite Hn.
  - intros r n rd. by rewrite Hn.
Qed.

Lemma scan_inside_text_refused_witness :
  Scan collect 9 open_env (OpenWAL (frames bodies) 0, []) =
    Some ((OpenWAL (frames bodies) 0, []), Some (ErrCorrupt 9 "implausible record length")).
Proof.
  destruct (section (OpenWAL (frames bodies) 0) 9) as [|c rest] eqn:E; [vm_compute in E; discriminate E|].
  rewrite (scan_inside_text_refused (OpenWAL (frames bodies) 0) 9 c rest).
  - rewrite <- E. vm_compute. reflexivity.
  - vm_compute. split; [discriminate|reflexivity].
  - exact E.
  - vm_compute in E. injection E as <- _. vm_compute. discriminate.
Defined.

(** C33: a single changed byte anywhere in the body of any record is noticed: a
    read-only scan delivers the records before it, reports corruption at that
    record's offset and changes nothing, and recovery delivers the same records
    and cuts the log there. *)
Theorem damaged_byte_detected `{JsonLaws} pre rs x a a' y post :
  readable pre rs → fits (x ++ a :: y) → a ≠ a' →
  let l := frames pre ++ damaged x a a' y ++ frames post in
  let w := OpenWAL l 0 in
  let w1 := WAL.set_epoch (top_epoch rs 0) w in
  let seen := with_offsets (sized rs pre) 0 in
  let at_ := Z.of_nat (length (frames pre)) in
  Scan collect 0 open_env (w, []) = Some ((w1, seen), Some (ErrCorrupt at_ "checksum mismatch")) ∧
  ∃ w2, Recover collect open_env (w, []) = Some ((w2, seen), None) ∧
    log_is w2 pre rs ∧ cache (WAL.f w2) = frames pre.
Proof.
  intros Hr Hf Ha l w w1 seen at_. unfold Scan, Recover.
  assert (next_frame (damaged x a a' y ++ frames post) true = NextBad "checksum mismatch") as Hn.
  { pose proof (next_frame_changed x a a' y (frames post) true Hf Ha) as Hn.
    unfold damaged. by rewrite <- !(assoc_L (++)) in *. }
  rewrite !(damaged_scan pre rs x a a' y post _ _ _ Hr Hf Ha) by done.
  unfold scan_result. rewrite Hn. split; [done|].
  change (WAL.epoch w) with 0. fold w1 seen.
  cbn [wal_of pair_has_wal with_wal fst snd se_trunc se_sync open_env].
  assert (at_ < WAL.size w1) as Hlt.
  { subst at_. simpl. subst l. unfold damaged. rewrite !length_app. simpl. lia. }
  destruct (truncate at_ None None w1) as [w2 e2] eqn:Et. fold at_. rewrite Et.
  assert (e2 = None) as ->.
  { unfold truncate in Et. rewrite (proj2 (Z.leb_gt _ _)) in Et by exact Hlt. simpl in Et.
    by injection Et as _ <-. }
  destruct (truncate_ok at_ None w1 w2 pre rs Hr eq_refl) as (Hli & Hc & _); [|done..|].
  - change (cache (WAL.f w1)) with l. subst l. by rewrite take_app_length.
  - by exists w2.
Qed.

Definition body2 : bytes := WireCodec.put rec2.

Lemma damaged_byte_detected_witness :
  let l := frames (take 1 bodies) ++
    damaged (take 20 body2) (default x00 (body2 !! 20%nat)) x7f (drop 21 body2) ++ frames (drop 2 bodies) in
  let w := OpenWAL l 0 in
  let at_ := Z.of_nat (length (frames (take 1 bodies))) in
  ∃ s w2 seen, Scan collect 0 open_env (w, []) = Some (s, Some (ErrCorrupt at_ "checksum mismatch")) ∧
    Recover collect open_env (w, []) = Some ((w2, seen), None) ∧
    cache (WAL.f w2) = frames (take 1 bodies).
Proof.
  destruct (damaged_byte_detected (take 1 bodies) (Rec.erase <$> take 1 recs) (take 20 body2)
    (default x00 (body2 !! 20%nat)) x7f (drop 21 body2) (drop 2 bodies)) as (Hs & w2 & Hr & _ & Hc).
  - apply (WireCodec.bodies_readable (take 1 recs)). repeat constructor; apply fits_dec; vm_compute; reflexivity.
  - apply fits_dec. vm_compute. reflexivity.
  - vm_compute. discriminate.
  - eexists _, w2, _. split; [exact Hs|]. split; [exact Hr|exact Hc].
Defined.

(** C34: a read that fails while the log is being recovered is taken for a torn
    tail: wherever inside a whole record [b] the device gives up, recovery
    reports success, and the record and every later one - acknowledged, synced
    and intact - are cut off the file and off the disk.  ([scan] asks only
    whether the error is [io.EOF], and otherwise calls [truncate].) *)
Theorem read_error_truncates `{JsonLaws} pre b post rs r rs' k sy :
  readable (pre ++ b :: post) (rs ++ r :: rs') → length rs = length pre →
  (length (frames pre) <= k < length (frames (pre ++ [b])))%nat →
  ∃ w, Recover collect (SEnv (Some k) None None) (OpenWAL (frames (pre ++ b :: post)) sy, []) =
      Some ((w, with_offsets (sized rs pre) 0), None) ∧
    log_is w pre rs ∧ disk (WAL.f w) = frames pre ∧ cache (WAL.f w) = frames pre ∧
    contents (OpenWAL (frames (pre ++ b :: post)) sy) = delivered rs ++ delivered (r :: rs').
Proof.
  intros Hr Hl Hk. pose proof Hr as Hr'. apply Forall2_app_inv in Hr' as [Hr1 Hr2]; [|done].
  apply Forall2_cons in Hr2 as [[Hf _] _].
  assert (Hsplit : frames (pre ++ b :: post) = frames pre ++ frame b ++ frames post) by by rewrite frames_app.
  rewrite frames_app, length_app in Hk. change (frames [b]) with (frame b ++ []) in Hk.
  rewrite app_nil_r in Hk. set (w0 := OpenWAL _ sy). set (i := (k - length (frames pre))%nat).
  pose proof (torn_cut b i Hf) as Ht. unfold Recover.
  rewrite (scan_reads collect 0 true _ (w0, []) pre rs (take i (frame b)) false); [|done|..].
  - rewrite feed_collect by done. simpl_bind. unfold scan_result.
    destruct (next_frame (take i (frame b)) false) as [|reason|r1 n1 rd1] eqn:En.
    { exfalso. destruct (take i (frame b)); [done|]. unfold next_frame in En.
      repeat (case_decide || case_match); done. }
    2:{ exfalso. apply (torn_fails _ false (Ht ltac:(lia)) _ _ _ En). }
    cbn [wal_of pair_has_wal with_wal fst snd se_trunc se_sync]. rewrite Z.add_0_l.
    set (w1 := WAL.set_epoch _ w0).
    destruct (truncate (Z.of_nat (length (frames pre))) None None w1) as [w e] eqn:Et.
    assert (Z.of_nat (length (frames pre)) < WAL.size w1) as Hlt.
    { simpl. rewrite Hsplit, !length_app. lia. }
    assert (e = None) as ->.
    { unfold truncate in Et. rewrite (proj2 (Z.leb_gt _ _)) in Et by exact Hlt. simpl in Et.
      by injection Et as _ <-. }
    destruct (truncate_ok _ None w1 w pre rs Hr1 eq_refl) as (Hli & Hc & Hd); [|done..|].
    { change (cache (WAL.f w1)) with (frames (pre ++ b :: post)). by rewrite Hsplit, take_app_length. }
    exists w. split_and!; [done..|]. rewrite (contents_is w0 _ _ (OpenWAL_is _ _ sy Hr)).
    unfold delivered. by rewrite List.filter_app.
  - simpl. rewrite Hsplit, !length_app, frame_length. lia.
  - cbn [wal_of pair_has_wal fst]. rewrite (section_all w0 _ _ (OpenWAL_is _ _ sy Hr)). unfold reads. simpl.
    rewrite Hsplit, (proj2 (Nat.ltb_lt _ _)) by (rewrite !length_app; lia).
    rewrite take_app_ge by lia. fold i. by rewrite take_app_le by lia.
  - apply torn_fails, Ht. lia.
Qed.

(** The disk gives up in the middle of the second of three records. *)
Lemma read_error_truncates_witness :
  ∃ w acc, Recover collect (SEnv (Some 120%nat) None None) (OpenWAL (frames bodies) 0, []) =
      Some ((w, acc), None) ∧
    length (contents (OpenWAL (frames bodies) 0)) = 3%nat ∧ length acc = 1%nat ∧
    disk (WAL.f w) = frames (take 1 bodies).
Proof.
  destruct (read_error_truncates (take 1 bodies) (WireCodec.put rec2) (drop 2 bodies)
    (Rec.erase <$> take 1 recs) (Rec.erase rec2) (Rec.erase <$> drop 2 recs) 120 0)
    as (w & E & _ & Hd & _ & Hc).
  - apply bodies_ok.
  - reflexivity.
  - split; [apply Nat.leb_le|apply Nat.ltb_lt]; vm_compute; reflexivity.
  - exists w, (with_offsets (sized (Rec.erase <$> take 1 recs) (take 1 bodies)) 0).
    split; [exact E|]. split; [|split; [vm_compute; reflexivity|exact Hd]].
    transitivity (length (delivered (Rec.erase <$> take 1 recs) ++
      delivered (Rec.erase rec2 :: (Rec.erase <$> drop 2 recs)))); [exact (f_equal length Hc)|].
    vm_compute. reflexivity.
Defined.

(** ** Compaction and group commit *)

(** C18: compaction is atomic, whatever fails along the way.  Either nothing of
    the log has changed and the error says why; or the path names a complete,
    synced new log - an epoch record one above the old, then the live records in
    order, stamped - and the log continues on it; or, when only the reopening
    failed, the path names that new log and the old handle is latched so that no
    write is acknowledged into the orphaned file. *)
Theorem compact_is_atomic `{JsonLaws} live env w w' e :
  Forall (λ r, json_safe r = true) (compacted w live env) → Compact live env w = (w', e) →
  (e ≠ None ∧ w' = w) ∨
  ∃ bodies, let rs := Rec.erase <$> compacted w live env in
    readable bodies rs ∧ cache (WAL.at_path w') = frames bodies ∧ disk (WAL.at_path w') = frames bodies ∧
    match e with
    | Some _ => WAL.failed w' = e ∧ WAL.f w' = WAL.f w
    | None => log_is w' bodies rs ∧ WAL.at_path w' = WAL.f w' ∧ WAL.epoch w' = u64 (WAL.epoch w + 1) ∧
        WAL.retired w' = WAL.retired w ++ [WAL.f w] ∧ WAL.failed w' = None
    end.
Proof.
  intros Hs E. pose proof (Compact_cases live env w) as Hc. rewrite E in Hc.
  destruct Hc as [Hc|(bodies & rs & f & Hr & Hm & Hca & Hd & Hf & Hp & He)]; [by left|right].
  pose proof (readable_det _ _ _ Hm Hs Hr) as ->. exists bodies. cbv zeta. rewrite Hp.
  split_and!; [done..|]. destruct e; [done|]. destruct He as (Hli & <- & He). split_and!; try done.
  all: by destruct He as (? & ? & ?).
Qed.

Definition good_cenv : cenv := CEnv (λ _, unixEpoch + 7) None (λ _, None) None None None None.

Lemma compact_is_atomic_witness :
  ∃ w' e, Compact [rec1] good_cenv two = (w', e) ∧
    ((e ≠ None ∧ w' = two) ∨
     ∃ bodies, let rs := Rec.erase <$> compacted two [rec1] good_cenv in
       readable bodies rs ∧ cache (WAL.at_path w') = frames bodies ∧
       disk (WAL.at_path w') = frames bodies ∧
       match e with
       | Some _ => WAL.failed w' = e ∧ WAL.f w' = WAL.f two
       | None => log_is w' bodies rs ∧ WAL.at_path w' = WAL.f w' ∧
           WAL.epoch w' = u64 (WAL.epoch two + 1) ∧
           WAL.retired w' = WAL.retired two ++ [WAL.f two] ∧ WAL.failed w' = None
       end).
Proof.
  destruct (Compact [rec1] good_cenv two) as [w' e] eqn:E. exists w', e. split; [reflexivity|].
  apply (compact_is_atomic [rec1] good_cenv two w' e); [|exact E].
  repeat constructor; vm_compute; reflexivity.
Defined.

(** C40: under group commit a synchronous append that returns nil has not
    reached the disk, in spite of its name; the next tick of the flusher whose
    sync succeeds puts every byte written so far there, and one whose sync fails
    is latched. *)
Theorem group_commit_defers `{Json} rec env w w' :
  0 < WAL.syncEvery w → wal_write rec true env w = (w', None) →
  disk (WAL.f w') = disk (WAL.f w) ∧ WAL.dirty w' = true ∧ WAL.failed w' = None ∧
  (let w2 := flush None w' in
   disk (WAL.f w2) = cache (WAL.f w') ∧ cache (WAL.f w2) = cache (WAL.f w') ∧ WAL.dirty w2 = false) ∧
  ∀ err, WAL.failed (flush (Some err) w') = Some err.
Proof.
  intros Hse. unfold wal_write. destruct (encode _) as [buf|e]; [|done].
  destruct (WAL.failed w) eqn:Hf; [done|]. unfold WriteAt.
  destruct (we_write env) as [[k e]|]; [done|]. simpl negb. cbn iota.
  assert ((0 <? WAL.syncEvery (WAL.set_size (WAL.size w + Z.of_nat (length buf))
    (WAL.set_f (File (overwrite (cache (WAL.f w)) (Z.to_nat (WAL.size w)) buf) (disk (WAL.f w))) w))) = true)
    as -> by (apply Z.ltb_lt; exact Hse).
  intros [= <-]. split_and!; try done. intros err. unfold flush. simpl. by rewrite Hf.
Qed.

Definition grouped : WAL := OpenWAL (frames (take 2 bodies)) (5 * Millisecond).

Lemma group_commit_defers_witness :
  ∃ w', wal_write rec3 true quiet_env grouped = (w', None) ∧
    disk (WAL.f w') = frames (take 2 bodies) ∧ disk (WAL.f (flush None w')) = cache (WAL.f w').
Proof.
  destruct (wal_write rec3 true quiet_env grouped) as [w' [e|]] eqn:E; [vm_compute in E; discriminate E|].
  destruct (group_commit_defers rec3 quiet_env grouped w') as (Hd & _ & _ & (Hf & _) & _).
  - vm_compute. reflexivity.
  - exact E.
  - exists w'. split; [reflexivity|]. split; [exact Hd|exact Hf].
Defined.
