(* ===== verification/Manager.v ===== *)
(** * queue/manager.go: all the queues over one log

    The manager's operations, each a function of its state and of what it reads
    from its environment: the clock, random bytes, the answers of the file
    system.  [None] is a panic of a queue operation.  The background pump, the
    HTTP handlers and the tests only use what is here. *)

From Stdlib Require Import Strings.Byte.
From S2P Require Import Prelude ContainerHeap Msg Heaps LogStore Queue Bytes Encoding Wal.

(** [type Bookmark struct]. *)
Module Bookmark.
Record t := Mk { Epoch : Z; Offset : Z }.
End Bookmark.

(** [type Manager struct].  A [*Queue] is the map's entry of that name: queues
    are never removed.  [closed] is [closeOnce] done, [every] the interval the
    pump was started with. *)
Record Manager := MkManager {
  queues : gmap string Queue;
  wal : wlog;
  every : Duration;
  closed : bool;
}.

Definition set_queues v m := MkManager v (wal m) (every m) (closed m).
Definition set_log v m := MkManager (queues m) v (every m) (closed m).

(** The order in which [range] visits a map: Go does not fix it. *)
Class Ranging := { range {A} : gmap string A → list (string * A) }.
Class RangingLaws `{Ranging} := { range_perm {A} (m : gmap string A) : range m ≡ₚ map_to_list m }.

(** ** Recovery: what one record does *)

(** [type staging struct], the state of one queue while the log is read. *)
Record staging := Staging {
  s_live : gmap string Msg;
  s_dlq : gset string;
  s_maxSeq : Z;
}.

Definition no_staging : staging := Staging ∅ ∅ 0.
Definition set_live v s := Staging v (s_dlq s) (s_maxSeq s).
Definition set_dead v s := Staging (s_live s) v (s_maxSeq s).

Definition bump (s : staging) (seq : Z) : staging :=
  if s_maxSeq s <? seq then Staging (s_live s) (s_dlq s) seq else s.

(** The state of [recover]'s callback: the log it reads, the queues created so
    far, and [pending]. *)
Record recovery := Recovery {
  r_wal : WAL;
  r_queues : gmap string Queue;
  r_pending : gmap string staging;
}.

#[export] Instance recovery_has_wal : HasWal recovery := {
  wal_of := r_wal;
  with_wal w s := Recovery w (r_queues s) (r_pending s);
}.

(** [s := get(name)] followed by an update of [s]. *)
Definition on_staging (name : string) (f : staging → staging) (s : recovery) : recovery :=
  Recovery (r_wal s) (r_queues s)
    (<[name := f (default no_staging (r_pending s !! name))]> (r_pending s)).

(** [cur.Attempts = ...] and the like, when [cur] is live. *)
Definition on_live (id : string) (f : Msg → Msg) (s : staging) : staging :=
  match s_live s !! id with
  | Some cur => set_live (<[id := f cur]> (s_live s)) s
  | None => s
  end.

(** The body of the callback. *)
Definition recover_record (rec : Rec) (s : recovery) : recovery :=
  let on := on_staging (Rec.Queue rec) in
  if bool_decide (Rec.Op rec = OpCreateQueue) then
    match Rec.Config rec with
    | None => s
    | Some c =>
        let qs := match r_queues s !! Rec.Queue rec with
                  | None => <[Rec.Queue rec := New c]> (r_queues s)
                  | Some _ => r_queues s
                  end in
        on (λ st, bump st (Rec.Seq rec)) (Recovery (r_wal s) qs (r_pending s))
    end
  else if bool_decide (Rec.Op rec = OpEnqueue) then
    match Rec.Msg rec with
    | None => s
    | Some cp => on (λ st, bump (set_live (<[Msg.ID cp := cp]> (s_live st)) st) (Msg.Seq cp)) s
    end
  else if bool_decide (Rec.Op rec = OpLease) then
    match Rec.Msg rec with
    | None => s
    | Some m => on (on_live (Msg.ID m) (Msg.set_Attempts (Msg.Attempts m))) s
    end
  else if bool_decide (Rec.Op rec = OpNack) then
    match Rec.Msg rec with
    | None => s
    | Some m =>
        on (on_live (Msg.ID m)
              (λ cur, Msg.set_VisibleAt (Msg.VisibleAt m) (Msg.set_Attempts (Msg.Attempts m) cur))) s
    end
  else if bool_decide (Rec.Op rec = OpAck) then
    on (λ st, set_dead (s_dlq st ∖ {[Rec.ID rec]}) (set_live (delete (Rec.ID rec) (s_live st)) st)) s
  else if bool_decide (Rec.Op rec = OpDLQ) then
    on (λ st, set_dead (s_dlq st ∪ {[Rec.ID rec]}) st) s
  else if bool_decide (Rec.Op rec = OpReplay) then
    on (λ st, on_live (Rec.ID rec) (Msg.set_Attempts 0) (set_dead (s_dlq st ∖ {[Rec.ID rec]}) st)) s
  else s.

Definition recover_fn (rec : Rec) (_ : Z) (s : recovery) : option (recovery * option error) :=
  Some (recover_record rec s, None).

(** ** Recovery: installing the messages *)

Definition by_seq (a b : Msg) : Prop := Msg.Seq a ≤ Msg.Seq b.
#[export] Instance by_seq_dec : RelDecision by_seq.
Proof. unfold by_seq. intros a b. apply _. Defined.

(** [sort.Slice] by sequence number. *)
Definition sort_by_seq : list Msg → list Msg := merge_sort by_seq.

(** The loops of [restore].  A message reaches the queue's store here, with the
    two lease fields cleared. *)
Definition adopt (m : Msg) (q : Queue) : option (loc * Queue) :=
  let x := fresh (dom (mem q)) in
  let q := set_mem (<[x := m]> (mem q)) q in
  q ← q_update x (Msg.set_Receipt "") q;
  q ← q_update x (Msg.set_LeaseExpiry zeroTime) q;
  Some (x, q).

Fixpoint restore_live (live : list Msg) (now : Time) (q : Queue) : option Queue :=
  match live with
  | [] => Some q
  | m :: live =>
      '(x, q) ← adopt m q;
      q ← placeLocked x now q;
      restore_live live now q
  end.

Fixpoint restore_dead (dead : list Msg) (q : Queue) : option Queue :=
  match dead with
  | [] => Some q
  | m :: dead =>
      '(x, q) ← adopt m q;
      restore_dead dead (set_dlq (dlq q ++ [x]) q)
  end.

(** [func (q *Queue) restore(live, dead []*Msg, maxSeq uint64)]. *)
Definition restore (live dead : list Msg) (maxSeq : Z) (now : Time) (q : Queue) : option Queue :=
  q ← restore_live live now (set_seq maxSeq q);
  restore_dead dead q.

Section Recover.
Context `{Json} `{Ranging}.

(** The partition of [s.live] by the dead letter marks. *)
Definition pick_msgs (dead : bool) (s : staging) : list Msg :=
  (filter (λ v : string * Msg, bool_decide (v.1 ∈ s_dlq s) = dead) (range (s_live s))).*2.

(** The loop over [pending]; each [restore] reads the clock. *)
Fixpoint install (pending : list (string * staging)) (now : string → Time) (qs : gmap string Queue) :
    option (result (gmap string Queue)) :=
  match pending with
  | [] => Some (Ok qs)
  | (name, s) :: pending =>
      match qs !! name with
      | None =>
          if bool_decide (s_live s = ∅) && bool_decide (s_dlq s = ∅) then install pending now qs
          else Some (Err (ErrOther ("log holds messages for unknown queue " ++ name)))
      | Some q =>
          q ← restore (sort_by_seq (pick_msgs false s)) (sort_by_seq (pick_msgs true s))
                (s_maxSeq s) (now name) q;
          install pending now (<[name := q]> qs)
      end
  end.

(** [func (m *Manager) recover() error]: the log after the scan, and the queues
    or the error. *)
Definition recover (se : senv) (now : string → Time) (w : WAL) :
    option (WAL * result (gmap string Queue)) :=
  '(s, err) ← Recover recover_fn se (Recovery w ∅ ∅);
  match err with
  | Some e => Some (r_wal s, Err e)
  | None =>
      r ← install (range (r_pending s)) now (r_queues s);
      Some (r_wal s, r)
  end.

(** What the environment answers while the log is opened: the content found at
    the path or an error, the scan's answers, the clock. *)
Record oenv := OEnv {
  oe_content : Prelude.result error bytes;
  oe_scan : senv;
  oe_now : string → Time;
}.

(** [func Open(path string, syncEvery, tick time.Duration) ( *Manager, error)]. *)
Definition Open (syncEvery tick : Duration) (env : oenv) (step : nat) : option (result Manager) :=
  match oe_content env with
  | Err e => Some (Err e)
  | Ok content =>
      '(w, r) ← recover (oe_scan env) (oe_now env) (OpenWAL content syncEvery);
      Some match r with
           | Err e => Err e
           | Ok qs =>
               Ok (MkManager qs (WLog w step)
                     (if tick <=? 0 then 50 * Millisecond else tick) false)
           end
  end.
End Recover.

(** ** Compaction: what to keep *)

(** [emit]: the message without its lease. *)
Definition emitted (m : Msg) : Msg := Msg.set_LeaseExpiry zeroTime (Msg.set_Receipt "" m).

Fixpoint emit_all (name : string) (mem : store) (l : list loc) : option (list Rec) :=
  match l with
  | [] => Some []
  | x :: l =>
      m ← mem !! x;
      rs ← emit_all name mem l;
      Some (Rec.of_msg OpEnqueue name (emitted m) :: rs)
  end.

Fixpoint emit_dead (name : string) (mem : store) (l : list loc) : option (list Rec) :=
  match l with
  | [] => Some []
  | x :: l =>
      m ← mem !! x;
      rs ← emit_dead name mem l;
      Some (Rec.of_msg OpEnqueue name (emitted m) :: Rec.of_id OpDLQ name (Msg.ID m) :: rs)
  end.

(** [func (q *Queue) liveRecordsLocked() []Record]. *)
Definition liveRecordsLocked (q : Queue) : option (list Rec) :=
  let n := name q in
  r ← emit_all n (mem q) (items (ready q));
  d ← emit_all n (mem q) (items (delayed q));
  i ← emit_all n (mem q) (items (inflight q));
  x ← emit_dead n (mem q) (dlq q);
  Some ((Rec.of_config OpCreateQueue n (cfg q) (seq q) :: r) ++ d ++ i ++ x).

(** [sort.Slice] by queue name. *)
Definition by_name {A} (f : A → string) (a b : A) : Prop := String.leb (f a) (f b) = true.
#[export] Instance by_name_dec {A} (f : A → string) : RelDecision (by_name f).
Proof. unfold by_name. intros a b. apply _. Defined.

(** ** The methods *)

Section Methods.
Context `{Json} `{Ranging} (envs : nat → wenv).
#[local] Instance manager_log : Log wlog := wal_log envs.

(** [strings.ContainsAny(cfg.Name, "/?#% ")]. *)
Fixpoint containsAny (s chars : string) : bool :=
  match s with
  | EmptyString => false
  | String c s => bool_decide (c ∈ String.list_ascii_of_string chars) || containsAny s chars
  end.

(** [func (m *Manager) Create(cfg Config) ( *Queue, error)]. *)
Definition Create (c : Config) (m : Manager) : Manager * result Queue :=
  if bool_decide (Config.Name c = "") then (m, Err (ErrOther "queue name is required"))
  else if containsAny (Config.Name c) "/?#% " then (m, Err (ErrOther "queue name may not contain"))
  else if bool_decide (Config.Mode c ≠ FIFO) && bool_decide (Config.Mode c ≠ LIFO)
  then (m, Err (ErrOther "mode must be"))
  else match queues m !! Config.Name c with
  | Some _ => (m, Err ErrQueueExists)
  | None =>
      let q := New c in
      let stored := cfg q in
      match AppendSync (Rec.of_config OpCreateQueue (Config.Name c) stored 0) (wal m) with
      | (w, Some err) => (set_log w m, Err err)
      | (w, None) => (set_queues (<[Config.Name c := q]> (queues m)) (set_log w m), Ok q)
      end
  end.

(** [func (m *Manager) Get(name string) ( *Queue, error)]. *)
Definition Get (name : string) (m : Manager) : result Queue :=
  match queues m !! name with None => Err ErrQueueNotFound | Some q => Ok q end.

(** A method of the queue called [name], through the pointer [Get] returned. *)
Definition on_queue {R} (name : string) (f : Queue → wlog → option (Queue * wlog * R)) (m : Manager) :
    option (Manager * R) :=
  q ← queues m !! name;
  '(q, w, r) ← f q (wal m);
  Some (set_queues (<[name := q]> (queues m)) (set_log w m), r).

(** [func (m *Manager) List() []Stats]. *)
Definition List_ (now : string → Time) (m : Manager) : option (list Stats.t) :=
  out ← mapM (λ v, Stats_ (now v.1) v.2) (range (queues m));
  Some (merge_sort (by_name Stats.Name) out).

(** [func (m *Manager) Bookmark() Bookmark]. *)
Definition Bookmark_ (m : Manager) : Bookmark.t :=
  let '(epoch, offset) := Bookmark (wl_wal (wal m)) in Bookmark.Mk epoch offset.

(** [func (m *Manager) Err() error]. *)
Definition ManagerErr (m : Manager) : option error := Err_ (wl_wal (wal m)).

(** ** Historical replay *)

(** The callback of the collecting scan; an [item] is a body and a priority. *)
Definition replay_fn (name : string) (since : Time) (rec : Rec) (_ : Z)
    (s : WAL * list (string * Z)) : option (WAL * list (string * Z) * option error) :=
  let skip := Some (s, None) in
  match Rec.Msg rec with
  | None => skip
  | Some m =>
      if negb (bool_decide (Rec.Op rec = OpEnqueue)) || negb (bool_decide (Rec.Queue rec = name))
      then skip
      else if negb (IsZero since) && Before (Msg.EnqueuedAt m) since then skip
      else Some (s.1, s.2 ++ [(Msg.Body m, Msg.Priority m)], None)
  end.

#[local] Instance found_has_wal : HasWal (WAL * list (string * Z)) :=
  {| wal_of s := s.1; with_wal w s := (w, s.2) |}.

(** "Collect first": everything up to the loop that enqueues. *)
Definition Replay_collect (name : string) (bm : Bookmark.t) (since : Time) (env : senv)
    (m : Manager) : option (Manager * result (list (string * Z))) :=
  match Get name m with
  | Err e => Some (m, Err e)
  | Ok _ =>
      let '(epoch, _) := Bookmark (wl_wal (wal m)) in
      if (0 <? Bookmark.Offset bm) && bool_decide (Bookmark.Epoch bm ≠ epoch)
      then Some (m, Err (ErrStaleBookmark (Bookmark.Epoch bm) epoch))
      else
        '(w, found, err) ← Scan (replay_fn name since) (Bookmark.Offset bm) env (wl_wal (wal m), []);
        let m := set_log (set_wal w (wal m)) m in
        Some (m, match err with Some e => Err e | None => Ok found end)
  end.

(** "Enqueue second": item [i] reads the clock and the random source at [i]. *)
Fixpoint Replay_publish (name : string) (found : list (string * Z)) (i : nat) (now : nat → Time)
    (rnd : nat → list byte) (published : Z) (m : Manager) : option (Manager * (Z * option error)) :=
  match found with
  | [] => Some (m, (published, None))
  | (body, priority) :: found =>
      '(m, r) ← on_queue name (Enqueue body priority 0 (now i) (rnd i)) m;
      match r with
      | Err e => Some (m, (published, Some e))
      | Ok _ => Replay_publish name found (S i) now rnd (published + 1) m
      end
  end.

(** [func (m *Manager) Replay(name string, bm Bookmark, since time.Time) (int, error)],
    when nothing else runs between its two halves. *)
Definition Replay (name : string) (bm : Bookmark.t) (since : Time) (env : senv)
    (now : nat → Time) (rnd : nat → list byte) (m : Manager) : option (Manager * (Z * option error)) :=
  '(m, r) ← Replay_collect name bm since env m;
  match r with
  | Err e => Some (m, (0, Some e))
  | Ok found => Replay_publish name found 0 now rnd 0 m
  end.

(** ** Compaction, the pump, Close *)

(** [func (m *Manager) Compact() error]: one step, since it holds every lock. *)
Definition CompactAll (env : cenv) (m : Manager) : option (Manager * option error) :=
  let qs := merge_sort (by_name name) (range (queues m)).*2 in
  live ← mapM liveRecordsLocked qs;
  let '(w, e) := Compact (concat live) env (wl_wal (wal m)) in
  Some (set_log (set_wal w (wal m)) m, e).

(** One firing of the ticker of [pump]. *)
Fixpoint tick_all (names : list string) (now : Time) (m : Manager) : option Manager :=
  match names with
  | [] => Some m
  | n :: names =>
      '(m, _) ← on_queue n (λ q w, '(q, w) ← Tick now q w; Some (q, w, tt)) m;
      tick_all names now m
  end.

Definition pump (now : Time) (m : Manager) : option Manager :=
  tick_all (range (queues m)).*1 now m.

(** [func (m *Manager) Close() error]. *)
Definition CloseAll (sync close : option error) (m : Manager) : Manager * option error :=
  if closed m then (m, None)
  else
    let '(w, e) := Close sync close (wl_wal (wal m)) in
    (MkManager (queues m) (set_wal w (wal m)) (every m) true, e).
End Methods.
