(* ===== verification/Recovery.v ===== *)
(** * What the log says about a queue

    Recovery folds over the records of the log; [stage n rs] is that fold for
    the one queue [n].  [mirrors] relates it to the queue's messages in memory,
    and [asteps_mirror] shows that every run of the abstract machine whose
    writes succeed keeps the two in step: what a restart would rebuild is
    always what the queue holds, up to the leases. *)

From S2P Require Import Prelude ContainerHeap Msg Heaps LogStore Queue QueueInv QueueSpec QueueOps Bytes Encoding Wal Manager.

Implicit Types (x y : loc) (m : Msg) (st : staging) (A : amsgs).

(** ** The fold of one queue *)

Definition stage_step (rec : Rec) (st : staging) : staging :=
  if bool_decide (Rec.Op rec = OpCreateQueue) then
    match Rec.Config rec with None => st | Some _ => bump st (Rec.Seq rec) end
  else if bool_decide (Rec.Op rec = OpEnqueue) then
    match Rec.Msg rec with
    | None => st
    | Some cp => bump (set_live (<[Msg.ID cp := cp]> (s_live st)) st) (Msg.Seq cp)
    end
  else if bool_decide (Rec.Op rec = OpLease) then
    match Rec.Msg rec with
    | None => st
    | Some m => on_live (Msg.ID m) (Msg.set_Attempts (Msg.Attempts m)) st
    end
  else if bool_decide (Rec.Op rec = OpNack) then
    match Rec.Msg rec with
    | None => st
    | Some m =>
        on_live (Msg.ID m)
          (λ cur, Msg.set_VisibleAt (Msg.VisibleAt m) (Msg.set_Attempts (Msg.Attempts m) cur)) st
    end
  else if bool_decide (Rec.Op rec = OpAck) then
    set_dead (s_dlq st ∖ {[Rec.ID rec]}) (set_live (delete (Rec.ID rec) (s_live st)) st)
  else if bool_decide (Rec.Op rec = OpDLQ) then set_dead (s_dlq st ∪ {[Rec.ID rec]}) st
  else if bool_decide (Rec.Op rec = OpReplay) then
    on_live (Rec.ID rec) (Msg.set_Attempts 0) (set_dead (s_dlq st ∖ {[Rec.ID rec]}) st)
  else st.

Definition stage_on (n : string) (st : staging) (rec : Rec) : staging :=
  if bool_decide (Rec.Queue rec = n) then stage_step rec st else st.
Definition stage (n : string) (rs : list Rec) : staging := foldl (stage_on n) no_staging rs.

Lemma stage_app n rs rs' : stage n (rs ++ rs') = foldl (stage_on n) (stage n rs) rs'.
Proof. apply foldl_app. Qed.

Lemma stage_snoc n rs r : stage n (rs ++ [r]) = stage_on n (stage n rs) r.
Proof. by rewrite stage_app. Qed.

(** Records of other queues say nothing. *)
Lemma stage_other n rs rs' : Forall (λ r, Rec.Queue r ≠ n) rs' → stage n (rs ++ rs') = stage n rs.
Proof.
  intros Hrs. rewrite stage_app. generalize (stage n rs). induction Hrs as [|r rs' Hr _ IH]; [done|].
  intros st. simpl. unfold stage_on at 2. by rewrite bool_decide_false.
Qed.

(** The configuration a queue was created with. *)
Definition create_on (n : string) (c : option Config) (rec : Rec) : option Config :=
  match c with
  | Some _ => c
  | None =>
      if bool_decide (Rec.Queue rec = n) && bool_decide (Rec.Op rec = OpCreateQueue)
      then Rec.Config rec else None
  end.
Definition created (n : string) (rs : list Rec) : option Config := foldl (create_on n) None rs.

Lemma created_app n rs rs' : created n (rs ++ rs') = foldl (create_on n) (created n rs) rs'.
Proof. apply foldl_app. Qed.

Lemma created_mono n rs rs' c : created n rs = Some c → created n (rs ++ rs') = Some c.
Proof. intros E. rewrite created_app, E. by induction rs'. Qed.

Lemma created_none n rs rs' :
  Forall (λ r, Rec.Queue r ≠ n ∨ Rec.Op r ≠ OpCreateQueue) rs' →
  created n (rs ++ rs') = created n rs.
Proof.
  intros Hrs. rewrite created_app. generalize (created n rs). induction Hrs as [|r rs' Hr _ IH]; [done|].
  intros o. cbn [foldl]. rewrite IH. destruct o; [done|]. unfold create_on.
  repeat case_bool_decide; simpl; try done. naive_solver.
Qed.

(** The manager's fold is the fold of each queue. *)
Definition recover_all (rs : list Rec) (s : recovery) : recovery :=
  foldl (λ s r, recover_record r s) s rs.

Definition staged (s : recovery) (n : string) : staging := default no_staging (r_pending s !! n).

Lemma staged_on s n n' f :
  staged (on_staging n' f s) n = if bool_decide (n' = n) then f (staged s n) else staged s n.
Proof.
  unfold staged, on_staging. simpl. rewrite lookup_insert. case_decide; case_bool_decide; by subst.
Qed.

Lemma recover_record_staged r s n : staged (recover_record r s) n = stage_on n (staged s n) r.
Proof.
  unfold recover_record, stage_on, stage_step.
  repeat (case_bool_decide || case_match); rewrite ?staged_on; repeat case_bool_decide; done.
Qed.

Lemma recover_record_wal r s : r_wal (recover_record r s) = r_wal s.
Proof. unfold recover_record. repeat case_match; done. Qed.

Lemma recover_record_queues r s n c :
  (New <$> c) = r_queues s !! n → (New <$> create_on n c r) = r_queues (recover_record r s) !! n.
Proof.
  intros E. unfold recover_record, create_on.
  destruct (bool_decide (Rec.Op r = OpCreateQueue)).
  - rewrite andb_true_r. destruct (Rec.Config r) as [c'|] eqn:Hc.
    + cbn [on_staging r_queues]. destruct (decide (Rec.Queue r = n)) as [<-|Hn].
      * rewrite <- E, bool_decide_true by done. destruct c; [done|]. simpl. by rewrite lookup_insert_eq.
      * rewrite bool_decide_false by done. destruct (r_queues s !! Rec.Queue r); destruct c; try done;
          by rewrite lookup_insert_ne.
    + rewrite <- E. destruct c; [done|]. by case_match.
  - rewrite andb_false_r. assert (match c with Some _ => c | None => None end = c) as -> by by destruct c.
    rewrite E. repeat case_match; done.
Qed.

Lemma recover_all_staged rs w n : staged (recover_all rs (Recovery w ∅ ∅)) n = stage n rs.
Proof.
  unfold recover_all, stage. assert (staged (Recovery w ∅ ∅) n = no_staging) as E by done.
  revert E. generalize (Recovery w ∅ ∅) no_staging.
  induction rs as [|r rs IH]; intros s st E; [done|]. simpl. apply IH.
  by rewrite recover_record_staged, E.
Qed.

Lemma recover_all_queues rs w n :
  r_queues (recover_all rs (Recovery w ∅ ∅)) !! n = New <$> created n rs.
Proof.
  unfold recover_all, created. assert ((New <$> None) = r_queues (Recovery w ∅ ∅) !! n) as E by done.
  revert E. generalize (Recovery w ∅ ∅) (@None Config).
  induction rs as [|r rs IH]; intros s c E; [done|]. simpl. by apply IH, recover_record_queues.
Qed.

(** ** Memory and log agree *)

(** [u] is what the log keeps of the message [m] at [P]: everything but the
    lease; the exact gate while it is delayed, some past instant otherwise. *)
Definition survives (T : Time) (P : place) (m u : Msg) : Prop :=
  ∃ v, u = Msg.erase (Msg.set_VisibleAt v (unlease m)) ∧ json_time v = true ∧
    match P with
    | In HDelayed => v = Msg.VisibleAt m
    | _ => v ≤ T ∧ Msg.VisibleAt m ≤ T
    end.

Record mirrors (T : Time) (s : Z) (A : amsgs) (st : staging) : Prop := {
  mi_seq : s_maxSeq st = s;
  mi_ids x y u v : A !! x = Some u → A !! y = Some v → Msg.ID u.2 = Msg.ID v.2 → x = y;
  mi_live x P m : A !! x = Some (P, m) → ∃ u, s_live st !! Msg.ID m = Some u ∧ survives T P m u;
  mi_only id : is_Some (s_live st !! id) → ∃ x P m, A !! x = Some (P, m) ∧ Msg.ID m = id;
  mi_dead id : id ∈ s_dlq st ↔ ∃ x m, A !! x = Some (Dead, m) ∧ Msg.ID m = id;
}.

Lemma survives_le T T' P m u : T ≤ T' → survives T P m u → survives T' P m u.
Proof. intros HT (v & Eu & Hj & Hv). exists v. split_and!; [done..|]. destruct P as [[]|]; lia. Qed.

Lemma mirrors_le T T' s A st : T ≤ T' → mirrors T s A st → mirrors T' s A st.
Proof.
  intros HT []. split; try done. intros x P m Hx.
  destruct (mi_live0 x P m Hx) as (u & Hu & Hs). exists u. split; [done|]. by eapply survives_le.
Qed.

Lemma mirrors_empty T : mirrors T 0 ∅ no_staging.
Proof.
  split; try done; simpl.
  - intros id [u Hu]. by rewrite lookup_empty in Hu.
  - intros id. split; [set_solver|]. intros (x & m & Hx & _). by rewrite lookup_empty in Hx.
Qed.

Lemma mirrors_fresh T s A st id :
  mirrors T s A st → (∀ x v, A !! x = Some v → Msg.ID v.2 ≠ id) → s_live st !! id = None ∧ id ∉ s_dlq st.
Proof.
  intros Hm Hid. split.
  - destruct (s_live st !! id) eqn:E; [|done]. exfalso.
    destruct (mi_only _ _ _ _ Hm id) as (x & P & m & Hx & E'); [by rewrite E|]. by apply (Hid x (P, m)).
  - rewrite (mi_dead _ _ _ _ Hm). intros (x & m & Hx & E). by apply (Hid x (Dead, m)).
Qed.

(** One message changes place and content. *)
Lemma mirrors_update T s A st x P m P' m' u d :
  mirrors T s A st → A !! x = Some (P, m) → Msg.ID m' = Msg.ID m → survives T P' m' u →
  (Msg.ID m ∈ d ↔ P' = Dead) → (∀ id, id ≠ Msg.ID m → id ∈ d ↔ id ∈ s_dlq st) →
  mirrors T s (<[x := (P', m')]> A) (Staging (<[Msg.ID m := u]> (s_live st)) d (s_maxSeq st)).
Proof.
  intros Hm Hx Ei Hs Hd Hd'. pose proof (mi_ids _ _ _ _ Hm) as Hids.
  assert (∀ y v, y ≠ x → A !! y = Some v → Msg.ID v.2 ≠ Msg.ID m) as Hne.
  { intros y v Hy Hv E. apply Hy. by apply (Hids _ _ v (P, m)). }
  split; simpl.
  - apply Hm.
  - intros y z u1 u2. destruct (decide (x = y)) as [<-|Hy], (decide (x = z)) as [<-|Hz];
      rewrite ?lookup_insert_eq, ?lookup_insert_ne by done; [done|..].
    + intros [= <-] Hu E. simpl in E. rewrite Ei in E. by destruct (Hne z u2 (not_eq_sym Hz) Hu).
    + intros Hu [= <-] E. simpl in E. rewrite Ei in E. by destruct (Hne y u1 (not_eq_sym Hy) Hu).
    + apply Hids.
  - intros y Q n Hy. rewrite lookup_insert in Hy. case_decide; simplify_eq.
    + rewrite Ei, lookup_insert_eq. eauto.
    + rewrite lookup_insert_ne by (apply not_eq_sym, (Hne y (Q, n)); [by apply not_eq_sym|done]).
      by eapply (mi_live _ _ _ _ Hm).
  - intros id. rewrite lookup_insert. case_decide; [subst id|].
    + intros _. exists x, P', m'. by rewrite lookup_insert_eq.
    + intros (y & Q & n & Hy & E)%(mi_only _ _ _ _ Hm). exists y, Q, n.
      rewrite lookup_insert_ne; [done|]. intros <-. rewrite Hx in Hy. naive_solver.
  - intros id. destruct (decide (id = Msg.ID m)) as [->|Hid].
    + rewrite Hd. split; [intros ->; exists x, m'; by rewrite lookup_insert_eq|].
      intros (y & n & Hy & E). rewrite lookup_insert in Hy. case_decide as Hxy; [by simplify_eq|].
      by destruct (Hne y (Dead, n) (not_eq_sym Hxy) Hy).
    + rewrite Hd', (mi_dead _ _ _ _ Hm) by done. split; intros (y & n & Hy & E); exists y, n.
      * rewrite lookup_insert_ne; [done|]. intros <-. naive_solver.
      * rewrite lookup_insert in Hy. case_decide; [congruence|done].
Qed.

(** The same, when the log already says what it has to. *)
Lemma mirrors_move T s A st x P m P' m' :
  mirrors T s A st → A !! x = Some (P, m) → Msg.ID m' = Msg.ID m → P ≠ Dead → P' ≠ Dead →
  (∀ u, survives T P m u → survives T P' m' u) →
  mirrors T s (<[x := (P', m')]> A) st.
Proof.
  intros Hm Hx Ei HP HP' Hs. destruct (mi_live _ _ _ _ Hm _ _ _ Hx) as (u & Hu & Hsu).
  assert (st = Staging (<[Msg.ID m := u]> (s_live st)) (s_dlq st) (s_maxSeq st)) as ->.
  { rewrite insert_id by done. by destruct st. }
  eapply mirrors_update; [done..|by apply Hs| |done]. split; [|done]. intros Hd. exfalso.
  apply (mi_dead _ _ _ _ Hm) in Hd as (y & n & Hy & E).
  assert (x = y) as <- by (by apply (mi_ids _ _ _ _ Hm x y (P, m) (Dead, n))). congruence.
Qed.

(** One more message. *)
Lemma mirrors_add T s A st x P m u d :
  mirrors T s A st → A !! x = None → (∀ y v, A !! y = Some v → Msg.ID v.2 ≠ Msg.ID m) →
  survives T P m u → (Msg.ID m ∈ d ↔ P = Dead) →
  (∀ id, id ≠ Msg.ID m → id ∈ d ↔ id ∈ s_dlq st) →
  mirrors T s (<[x := (P, m)]> A) (Staging (<[Msg.ID m := u]> (s_live st)) d (s_maxSeq st)).
Proof.
  intros Hm Hx Hid Hs Hd Hd'. split; simpl.
  - apply Hm.
  - intros y z u1 u2. destruct (decide (x = y)) as [<-|Hy], (decide (x = z)) as [<-|Hz];
      rewrite ?lookup_insert_eq, ?lookup_insert_ne by done; [done|..].
    + intros [= <-] Hu E. by destruct (Hid z u2 Hu).
    + intros Hu [= <-] E. by destruct (Hid y u1 Hu).
    + apply (mi_ids _ _ _ _ Hm).
  - intros y Q n Hy. rewrite lookup_insert in Hy. case_decide; simplify_eq.
    + rewrite lookup_insert_eq. eauto.
    + rewrite lookup_insert_ne by (apply not_eq_sym, (Hid y (Q, n)); done).
      by eapply (mi_live _ _ _ _ Hm).
  - intros id. rewrite lookup_insert. case_decide; [subst id|].
    + intros _. exists x, P, m. by rewrite lookup_insert_eq.
    + intros (y & Q & n & Hy & E)%(mi_only _ _ _ _ Hm). exists y, Q, n.
      rewrite lookup_insert_ne; [done|]. congruence.
  - intros id. destruct (decide (id = Msg.ID m)) as [->|Hne].
    + rewrite Hd. split; [intros ->; exists x, m; by rewrite lookup_insert_eq|].
      intros (y & n & Hy & E). rewrite lookup_insert in Hy. case_decide; [by simplify_eq|].
      by destruct (Hid y (Dead, n) Hy).
    + rewrite Hd', (mi_dead _ _ _ _ Hm) by done. split; intros (y & n & Hy & E); exists y, n.
      * rewrite lookup_insert_ne; [done|]. congruence.
      * rewrite lookup_insert in Hy. case_decide; [|done]. congruence.
Qed.

Lemma mirrors_seq T s s' A st st' :
  mirrors T s A st → s_live st' = s_live st → s_dlq st' = s_dlq st → s_maxSeq st' = s' →
  mirrors T s' A st'.
Proof. intros [] E1 E2 E3. split; rewrite ?E1, ?E2; done. Qed.

Lemma mirrors_insert T s s' A st x P m u :
  mirrors T s A st → A !! x = None → (∀ y v, A !! y = Some v → Msg.ID v.2 ≠ Msg.ID m) →
  P ≠ Dead → survives T P m u → s < s' →
  mirrors T s' (<[x := (P, m)]> A) (bump (set_live (<[Msg.ID m := u]> (s_live st)) st) s').
Proof.
  intros Hm Hx Hid HP Hs Hlt. destruct (mirrors_fresh _ _ _ _ _ Hm Hid) as [_ Hnd].
  eapply mirrors_seq; [by apply (mirrors_add T s A st x P m u (s_dlq st))| | |];
    unfold bump; simpl; by rewrite (mi_seq _ _ _ _ Hm), (proj2 (Z.ltb_lt _ _)).
Qed.

Lemma mirrors_delete T s A st x P m :
  mirrors T s A st → A !! x = Some (P, m) →
  mirrors T s (delete x A)
    (set_dead (s_dlq st ∖ {[Msg.ID m]}) (set_live (delete (Msg.ID m) (s_live st)) st)).
Proof.
  intros Hm Hx. pose proof (mi_ids _ _ _ _ Hm) as Hids. split; simpl.
  - apply Hm.
  - intros y z u v [_ Hy]%lookup_delete_Some [_ Hz]%lookup_delete_Some. by apply Hids.
  - intros y Q n [Hne Hy]%lookup_delete_Some. rewrite lookup_delete_ne.
    + by eapply (mi_live _ _ _ _ Hm).
    + intros E. apply Hne. by apply (Hids _ _ (P, m) (Q, n)).
  - intros id [u [Hne Hu]%lookup_delete_Some].
    destruct (mi_only _ _ _ _ Hm id) as (y & Q & n & Hy & E); [by rewrite Hu|].
    exists y, Q, n. rewrite lookup_delete_ne; [done|]. intros <-. naive_solver.
  - intros id. rewrite elem_of_difference, elem_of_singleton, (mi_dead _ _ _ _ Hm). split.
    + intros [(y & n & Hy & E) Hne]. exists y, n. rewrite lookup_delete_ne; [done|]. intros <-. naive_solver.
    + intros (y & n & [Hne Hy]%lookup_delete_Some & E). split; [eauto|]. intros ->.
      apply Hne. by apply (Hids _ _ (P, m) (Dead, n)).
Qed.

(** ** Every successful step keeps them in agreement *)

Definition safe (A : amsgs) : Prop := ∀ x P m, A !! x = Some (P, m) → msg_safe m = true.

(** The runs considered: the clock stays at or below [T], no write fails, new
    identifiers are new, and texts and times are ones the encoder can write. *)
Definition steady (T : Time) : world := {|
    clock t := json_time t = true ∧ t ≤ T;
    instant t := json_time t = true;
    outcome e := e = None;
    admits A m := msg_safe m = true ∧ ∀ x v, A !! x = Some v → Msg.ID v.2 ≠ Msg.ID m;
    releases _ := True;
  |}.

(** [l'] continues [l] by records of the queue [n], none of which creates it. *)
Definition continues (n : string) (l l' : list Rec) : Prop :=
  ∃ rs, l' = l ++ rs ∧ Forall (λ r, Rec.Queue r = n ∧ Rec.Op r ≠ OpCreateQueue) rs.

#[export] Instance continues_preorder n : PreOrder (continues n).
Proof.
  split.
  - intros l. exists []. by rewrite app_nil_r.
  - intros l1 l2 l3 (rs & -> & H1) (rs' & -> & H2). exists (rs ++ rs').
    by rewrite (assoc_L (++)), Forall_app.
Qed.

(** *** What each record does to the fold *)

Section Records.
Context (n : string) (st : staging).

Ltac by_stage := intros [a ->]; unfold stage_on; simpl; by rewrite bool_decide_true.

Lemma stage_enqueue m r' :
  stored (Rec.of_msg OpEnqueue n m) r' →
  stage_on n st r' = bump (set_live (<[Msg.ID m := Msg.erase m]> (s_live st)) st) (Msg.Seq m).
Proof. by_stage. Qed.
Lemma stage_lease m r' :
  stored (Rec.of_msg OpLease n m) r' →
  stage_on n st r' = on_live (Msg.ID m) (Msg.set_Attempts (Msg.Attempts m)) st.
Proof. by_stage. Qed.
Lemma stage_nack id m r' :
  stored (Rec.of_id_msg OpNack n id m) r' →
  stage_on n st r' = on_live (Msg.ID m)
    (λ cur, Msg.set_VisibleAt (Msg.VisibleAt m) (Msg.set_Attempts (Msg.Attempts m) cur)) st.
Proof. by_stage. Qed.
Lemma stage_ack id r' :
  stored (Rec.of_id OpAck n id) r' →
  stage_on n st r' = set_dead (s_dlq st ∖ {[id]}) (set_live (delete id (s_live st)) st).
Proof. by_stage. Qed.
Lemma stage_dlq id r' :
  stored (Rec.of_id OpDLQ n id) r' → stage_on n st r' = set_dead (s_dlq st ∪ {[id]}) st.
Proof. by_stage. Qed.
Lemma stage_replay id r' :
  stored (Rec.of_id OpReplay n id) r' →
  stage_on n st r' = on_live id (Msg.set_Attempts 0) (set_dead (s_dlq st ∖ {[id]}) st).
Proof. by_stage. Qed.
End Records.

Lemma stored_queue r r' : stored r r' → Rec.Queue r' = Rec.Queue r ∧ Rec.Op r' = Rec.Op r.
Proof. by intros [a ->]. Qed.

(** [Rec.erase] and the stamp leave the fold's input as it is. *)
Lemma on_live_some st id f u :
  s_live st !! id = Some u → on_live id f st = Staging (<[id := f u]> (s_live st)) (s_dlq st) (s_maxSeq st).
Proof. intros E. unfold on_live. by rewrite E. Qed.

(** *** Messages that stay encodable *)

Lemma msg_safe_erase m : msg_safe (Msg.erase m) = msg_safe m.
Proof. done. Qed.

Lemma hexdigit_ascii k : (k < 16)%N → (Ascii.N_of_ascii (hexdigit k) < 128)%N.
Proof.
  intros Hk. assert (k ∈ (N.of_nat <$> List.seq 0 16)) as Hin.
  { apply list_elem_of_fmap. exists (N.to_nat k). split; [lia|]. apply elem_of_seq. lia. }
  clear Hk. revert k Hin. apply Forall_forall. apply (bool_decide_eq_true_1 _). vm_compute. reflexivity.
Qed.

Lemma newID_utf8 b : utf8 (newID b) = true.
Proof.
  induction b as [|c b IH]; [done|]. unfold newID in *. cbn [hex_encode].
  pose proof (Byte.to_N_bounded c) as Hc.
  rewrite !utf8_ascii; [done|apply hexdigit_ascii..].
  - apply N.mod_lt. lia.
  - apply N.Div0.div_lt_upper_bound. lia.
Qed.

Lemma msg_safe_unlease m : msg_safe m = true → msg_safe (unlease m) = true.
Proof. unfold msg_safe. simpl. rewrite !andb_true_iff. tauto. Qed.
Lemma msg_safe_VisibleAt v m : json_time v = true → msg_safe m = true → msg_safe (Msg.set_VisibleAt v m) = true.
Proof. unfold msg_safe. simpl. rewrite !andb_true_iff. tauto. Qed.
Lemma msg_safe_LeaseExpiry v m : json_time v = true → msg_safe m = true → msg_safe (Msg.set_LeaseExpiry v m) = true.
Proof. unfold msg_safe. simpl. rewrite !andb_true_iff. tauto. Qed.
Lemma msg_safe_Attempts a m : fits_i64 a = true → msg_safe m = true → msg_safe (Msg.set_Attempts a m) = true.
Proof. unfold msg_safe. simpl. rewrite !andb_true_iff. tauto. Qed.
Lemma msg_safe_lease b t m :
  json_time t = true → msg_safe m = true → msg_safe (lease_msg (newID b) t m) = true.
Proof.
  intros Ht Hm. apply msg_safe_LeaseExpiry; [done|].
  assert (msg_safe (Msg.set_Attempts (i64 (Msg.Attempts m + 1)) m) = true) as Ha
    by by apply msg_safe_Attempts; [apply i64_fits|].
  revert Ha. unfold msg_safe. simpl. rewrite !andb_true_iff. pose proof (newID_utf8 b). tauto.
Qed.

Lemma safe_insert A x P m : safe A → msg_safe m = true → safe (<[x := (P, m)]> A).
Proof.
  intros Hs Hm y Q k. rewrite lookup_insert. case_decide; [by intros [= <- <-]|by apply Hs].
Qed.
Lemma safe_delete A x : safe A → safe (delete x A).
Proof. intros Hs y Q k [_ Hy]%lookup_delete_Some. by eapply Hs. Qed.

Lemma safe_rec_msg op n id m :
  utf8 op = true → utf8 n = true → utf8 id = true → msg_safe m = true →
  json_safe (Rec.of_id_msg op n id m) = true.
Proof. intros H1 H2 H3 H4. unfold json_safe. simpl. by rewrite H1, H2, H3, H4. Qed.
Lemma safe_rec_id op n id :
  utf8 op = true → utf8 n = true → utf8 id = true → json_safe (Rec.of_id op n id) = true.
Proof. intros H1 H2 H3. unfold json_safe. simpl. by rewrite H1, H2, H3. Qed.
Lemma safe_rec_config op n c s :
  utf8 op = true → utf8 n = true → config_safe c = true → fits_u64 s = true →
  json_safe (Rec.of_config op n c s) = true.
Proof. intros H1 H2 H3 H4. unfold json_safe. simpl. by rewrite H1, H2, H3, H4. Qed.
Lemma msg_safe_times m : msg_safe m = true → json_time (Msg.VisibleAt m) = true.
Proof. unfold msg_safe. rewrite !andb_true_iff. tauto. Qed.
Lemma msg_safe_ID m : msg_safe m = true → utf8 (Msg.ID m) = true.
Proof. unfold msg_safe. rewrite !andb_true_iff. tauto. Qed.

(** *** The steps *)

Section Steps.
Context {W : Type} `{LogLaws W} (T : Time) (c : Config).
Context (Hstor : ∀ r, Rec.Op r ≠ OpEpoch → json_safe r = true → storable r).
Context (Hname : utf8 (Config.Name c) = true).
Abbreviation name := (Config.Name c).

Definition agrees (s : Z) (A : amsgs) (w : W) : Prop :=
  log_ok w ∧ mirrors T s A (stage name (log w)) ∧ safe A.

(** One record written: the fold takes one step. *)
Lemma agrees_write s s' A A' (w w' : W) r d :
  agrees s A w → write r d w = (w', None) → json_safe r = true →
  Rec.Queue r = name → Rec.Op r ≠ OpEpoch → Rec.Op r ≠ OpCreateQueue → safe A' →
  (∀ st r', stored r r' → mirrors T s A st → mirrors T s' A' (stage_on name st r')) →
  agrees s' A' w' ∧ continues name (log w) (log w').
Proof.
  intros (Hok & Hm & Hs) E Hj Hq Ho Hc Hs' Hst.
  destruct (write_ok r d w w' Hok (Hstor _ Ho Hj) E) as (r' & Hr & El).
  destruct (stored_queue _ _ Hr) as [Eq Eo]. split.
  - split_and!; [|rewrite El, stage_snoc; by apply Hst|done].
    pose proof (write_log_ok r d w Hok (Hstor _ Ho Hj)) as Hw. by rewrite E in Hw.
  - exists [r']. split; [done|]. constructor; [|constructor]. by rewrite Eq, Eo.
Qed.

Lemma agree_enqueue s A w x m now w' :
  agrees s A w → admits (steady T) A m → clock (steady T) now → 0 ≤ s < two64 - 1 → A !! x = None →
  fresh_msg m (u64 (s + 1)) now → AppendSync (Rec.of_msg OpEnqueue name m) w = (w', None) →
  agrees (u64 (s + 1)) (<[x := (In (gate m now), Msg.erase m)]> A) w' ∧ continues name (log w) (log w').
Proof.
  intros Ha [Hsm Hid] [_ HT] Hs Hx (Eseq & _ & _ & Er & El) E.
  rewrite u64_id in Eseq |- * by auto with words. pose proof Ha as (_ & _ & Hsafe).
  eapply agrees_write; [exact Ha|exact E|by apply (safe_rec_msg _ _ "")|done..| |].
  - by apply safe_insert.
  - intros st r' Hst Hm. rewrite (stage_enqueue _ _ _ _ Hst), Eseq.
    eapply (mirrors_insert _ _ _ _ _ _ _ (Msg.erase m)); [done..| |lia].
    exists (Msg.VisibleAt m). split; [destruct m; simpl in *; by subst|]. split; [by apply msg_safe_times|].
    unfold gate. destruct (Msg.Ready m now) eqn:Hr; [|done]. apply Msg.Ready_le in Hr. simpl. lia.
Qed.

Lemma agree_open s A w x m now :
  agrees s A w → clock (steady T) now → A !! x = Some (In HDelayed, m) → Msg.Ready m now = true →
  agrees s (<[x := (In HReady, m)]> A) w.
Proof.
  intros (Hok & Hm & Hs) [_ HT] Hx Hr%Msg.Ready_le. split_and!; [done| |].
  - eapply mirrors_move; [done..|]. intros u (v & -> & Hj & ->). exists (Msg.VisibleAt m). split_and!; [done|done|lia|lia].
  - apply safe_insert; [done|]. by eapply Hs.
Qed.

Lemma agree_retry s A w x m m' now delay w' :
  agrees s A w → clock (steady T) now → instant (steady T) (Add now delay) →
  A !! x = Some (In HInflight, m) → Msg.erase m' = m →
  AppendSync (retry_rec c (unlease m') now delay) w = (w', None) →
  agrees s (partial_alter (λ _, retry_place c (unlease m') now delay None) x A) w' ∧
  continues name (log w) (log w').
Proof.
  intros Ha [_ HT] Hi Hx <- E. pose proof Ha as (_ & _ & Hs).
  assert (msg_safe (unlease m') = true) as Hsm.
  { apply msg_safe_unlease. exact (Hs _ _ _ Hx). }
  unfold retry_rec, retry_place in *. destruct (exhausted c (unlease m')).
  - eapply agrees_write; [exact Ha|exact E| |done..| |].
    + apply safe_rec_id; [done..|by apply msg_safe_ID].
    + by apply safe_insert.
    + intros st r' Hst Hm. rewrite (stage_dlq _ _ _ _ Hst).
      change (Msg.ID (unlease m')) with (Msg.ID m').
      destruct (mi_live _ _ _ _ Hm _ _ _ Hx) as (u & Hu & v & Eu & Hv).
      assert (set_dead (s_dlq st ∪ {[Msg.ID m']}) st =
        Staging (<[Msg.ID (Msg.erase m') := u]> (s_live st)) (s_dlq st ∪ {[Msg.ID m']}) (s_maxSeq st)) as ->.
      { by rewrite insert_id. }
      eapply mirrors_update; [done..| | |].
      * exists v. by split.
      * simpl. set_solver.
      * intros id Hid. simpl in Hid. set_solver.
  - set (n := Msg.set_VisibleAt _ _) in *.
    assert (msg_safe n = true) as Hsn by by apply msg_safe_VisibleAt.
    eapply agrees_write; [exact Ha|exact E| |done..| |].
    + apply safe_rec_msg; [done..| |done]. by apply msg_safe_ID.
    + by apply safe_insert.
    + intros st r' Hst Hm. rewrite (stage_nack _ _ _ _ _ Hst).
      destruct (mi_live _ _ _ _ Hm _ _ _ Hx) as (u & Hu & v & Eu & Hv).
      rewrite (on_live_some _ _ _ u) by exact Hu. change (Msg.ID n) with (Msg.ID (Msg.erase m')).
      eapply mirrors_update; [done..| | |done].
      * exists (Add now delay). split; [by rewrite Eu|]. split; [done|]. unfold gate.
        destruct (Msg.Ready n now) eqn:Hr; [|done]. apply Msg.Ready_le in Hr. simpl in *. lia.
      * split; [|done]. intros Hd. exfalso. apply (mi_dead _ _ _ _ Hm) in Hd as (y & k & Hy & Ek).
        assert (x = y) as <- by (by apply (mi_ids _ _ _ _ Hm x y _ _ Hx Hy)). congruence.
Qed.

Lemma agree_ack s A w x m w' :
  agrees s A w → A !! x = Some (In HInflight, m) →
  AppendSync (Rec.of_id OpAck name (Msg.ID m)) w = (w', None) →
  agrees s (delete x A) w' ∧ continues name (log w) (log w').
Proof.
  intros Ha Hx E. pose proof Ha as (_ & _ & Hs).
  eapply agrees_write; [exact Ha|exact E| |done..| |].
  - apply safe_rec_id; [done..|]. apply msg_safe_ID. by eapply Hs.
  - by apply safe_delete.
  - intros st r' Hst Hm. rewrite (stage_ack _ _ _ _ Hst). by eapply mirrors_delete.
Qed.

Lemma agree_extend s A w x m t :
  agrees s A w → instant (steady T) t → A !! x = Some (In HInflight, m) →
  agrees s (<[x := (In HInflight, Msg.set_LeaseExpiry t m)]> A) w.
Proof.
  intros (Hok & Hm & Hs) Ht Hx. split_and!; [done| |].
  - eapply mirrors_move; [done..|]. intros u (v & -> & ?). by exists v.
  - apply safe_insert; [done|]. apply msg_safe_LeaseExpiry; [done|]. by eapply Hs.
Qed.

Lemma agree_replay s A w x m now w' :
  agrees s A w → clock (steady T) now → A !! x = Some (Dead, m) →
  AppendSync (Rec.of_id OpReplay name (Msg.ID m)) w = (w', None) →
  agrees s (<[x := (In HReady, Msg.set_VisibleAt now (Msg.set_Attempts 0 m))]> A) w' ∧
  continues name (log w) (log w').
Proof.
  intros Ha [Hj HT] Hx E. pose proof Ha as (_ & _ & Hs). pose proof (Hs _ _ _ Hx) as Hsm.
  eapply agrees_write; [exact Ha|exact E| |done..| |].
  - apply safe_rec_id; [done..|]. by apply msg_safe_ID.
  - apply safe_insert; [done|]. apply msg_safe_VisibleAt; [done|]. by apply msg_safe_Attempts.
  - intros st r' Hst Hm. rewrite (stage_replay _ _ _ _ Hst).
    destruct (mi_live _ _ _ _ Hm _ _ _ Hx) as (u & Hu & v & Eu & Hv).
    rewrite (on_live_some _ _ _ u) by exact Hu. cbn [s_live s_dlq s_maxSeq set_dead].
    eapply mirrors_update; [done..| | |].
    + exists v. split; [by rewrite Eu|]. destruct Hv. split; [done|]. simpl. lia.
    + simpl. set_solver.
    + intros id Hid. simpl. set_solver.
Qed.

Lemma agree_lease1 s A w x m b t w' :
  agrees s A w → instant (steady T) t → A !! x = Some (In HReady, Msg.erase m) →
  Append (Rec.of_msg OpLease name (lease_msg (newID b) t m)) w = (w', None) →
  agrees s (<[x := (In HInflight, Msg.erase (lease_msg (newID b) t m))]> A) w' ∧
  continues name (log w) (log w').
Proof.
  intros Ha Ht Hx E. pose proof Ha as (_ & _ & Hs).
  assert (msg_safe (lease_msg (newID b) t m) = true) as Hsm.
  { apply msg_safe_lease; [done|]. exact (Hs _ _ _ Hx). }
  eapply agrees_write; [exact Ha|exact E| |done..| |].
  - by apply (safe_rec_msg _ _ "").
  - by apply safe_insert.
  - intros st r' Hst Hm. rewrite (stage_lease _ _ _ _ Hst).
    destruct (mi_live _ _ _ _ Hm _ _ _ Hx) as (u & Hu & v & Eu & Hv).
    rewrite (on_live_some _ _ _ u) by exact Hu.
    change (Msg.ID (lease_msg (newID b) t m)) with (Msg.ID (Msg.erase m)).
    eapply mirrors_update; [done..| | |done].
    + exists v. by rewrite Eu.
    + split; [|done]. intros Hd. exfalso. apply (mi_dead _ _ _ _ Hm) in Hd as (y & k & Hy & Ek).
      assert (x = y) as <- by (by apply (mi_ids _ _ _ _ Hm x y _ _ Hx Hy)). congruence.
Qed.

Lemma agree_lease s w batch t (rs : list string) w' : ∀ A,
  agrees s A w → instant (steady T) t → Forall (λ r, ∃ b, r = newID b) rs → NoDup batch.*1 →
  Forall2 (λ v r, ∃ m, A !! v.1 = Some (In HReady, Msg.erase m) ∧ v.2 = lease_msg r t m) batch rs →
  log_batch ((λ v : loc * Msg, Rec.of_msg OpLease name v.2) <$> batch) w w' None →
  agrees s (lease_all batch A) w' ∧ continues name (log w) (log w').
Proof.
  revert w rs. induction batch as [|[x k] batch IH]; intros w rs A Ha Ht Hrs Hnd Hb Hlog.
  { inversion Hlog; subst. by split. }
  apply Forall2_cons_inv_l in Hb as (r & rs' & (m & Hx & Ek) & Hb & ->). simpl in Hx, Ek. subst k.
  apply Forall_cons in Hrs as [[b ->] Hrs]. rewrite fmap_cons in Hnd. rewrite fmap_cons in Hlog.
  apply NoDup_cons in Hnd as [Hn Hnd]. inversion Hlog; subst.
  match goal with E : Append _ _ = _ |- _ => destruct (agree_lease1 _ _ _ _ _ _ _ _ Ha Ht Hx E) as [Ha1 Hc1] end.
  edestruct IH as [Ha2 Hc2]; [exact Ha1|done|exact Hrs|exact Hnd| |eassumption|].
  - clear -Hb Hn. induction Hb as [|[y k] r batch rs (n & Hy & En) Hb IHb]; [constructor|].
    rewrite fmap_cons in Hn. apply not_elem_of_cons in Hn as [Hne Hn]. constructor; [|by apply IHb].
    exists n. split; [|done]. simpl in *. by rewrite lookup_insert_ne.
  - split; [done|]. by etrans.
Qed.

(** Any step of the abstract machine in a steady world. *)
Lemma astep_agrees s A w s' A' w' :
  agrees s A w → astep c (steady T) (Ast s A w) (Ast s' A' w') →
  agrees s' A' w' ∧ continues name (log w) (log w').
Proof.
  intros Ha Hst. inversion Hst; subst;
    repeat match goal with Ho : outcome _ ?e |- _ => is_var e; simpl in Ho; subst e end.
  - by eapply agree_enqueue.
  - split; [by eapply agree_open|done].
  - by eapply agree_retry.
  - by eapply agree_lease.
  - by eapply agree_ack.
  - split; [by eapply agree_extend|done].
  - by eapply agree_replay.
Qed.

Lemma asteps_agree (a a' : ast W) :
  agrees (a_seq a) (a_msgs a) (a_log a) → asteps c (steady T) a a' →
  agrees (a_seq a') (a_msgs a') (a_log a') ∧ continues name (log (a_log a)) (log (a_log a')).
Proof.
  intros Ha Hst. induction Hst as [a|[s A w] [s1 A1 w1] a2 H1 _ IH]; [by split|].
  destruct (astep_agrees _ _ _ _ _ _ Ha H1) as [Ha1 Hc1]. destruct (IH Ha1) as [Ha2 Hc2].
  split; [done|]. by etrans.
Qed.
End Steps.

(** A queue that was created is also pending. *)
Lemma recover_record_pending r s n :
  (is_Some (r_queues s !! n) → is_Some (r_pending s !! n)) →
  is_Some (r_queues (recover_record r s) !! n) → is_Some (r_pending (recover_record r s) !! n).
Proof.
  intros Hs. assert (∀ k f, is_Some (r_pending s !! n) → is_Some (<[k := f]> (r_pending s) !! n)) as Hins.
  { intros k f Hp. rewrite lookup_insert. by case_decide. }
  unfold recover_record, on_staging. destruct (bool_decide (Rec.Op r = OpCreateQueue)).
  { destruct (Rec.Config r); [|done]. simpl. rewrite lookup_insert. case_decide as Hn; [done|].
    destruct (r_queues s !! Rec.Queue r); [done|]. by rewrite lookup_insert_ne. }
  repeat case_match; simpl; auto.
Qed.

Lemma recover_all_pending rs w n :
  is_Some (created n rs) → is_Some (r_pending (recover_all rs (Recovery w ∅ ∅)) !! n).
Proof.
  intros [c Hc]. assert (∀ s : recovery, (is_Some (r_queues s !! n) → is_Some (r_pending s !! n)) →
    is_Some (r_queues (recover_all rs s) !! n) → is_Some (r_pending (recover_all rs s) !! n)) as Hall.
  { clear Hc. unfold recover_all. induction rs as [|r rs IH]; intros s Hs; [done|].
    simpl. apply IH. by apply recover_record_pending. }
  apply Hall; [intros [? Hx]; simpl in Hx; by rewrite lookup_empty in Hx|]. by rewrite recover_all_queues, Hc.
Qed.

(** ** Records of different queues do not meet *)

Definition of_queue (n : string) (rs : list Rec) : list Rec := filter (λ r, Rec.Queue r = n) rs.

(** What the recovery knows of one queue. *)
Definition at_queue (n : string) (s : recovery) : option Queue * option staging := (r_queues s !! n, r_pending s !! n).

Lemma recover_record_away r s n : Rec.Queue r ≠ n → at_queue n (recover_record r s) = at_queue n s.
Proof.
  intros Hn. unfold at_queue, recover_record, on_staging.
  repeat case_match; simpl; by rewrite ?lookup_insert_ne.
Qed.

Lemma recover_record_local r s s' :
  at_queue (Rec.Queue r) s = at_queue (Rec.Queue r) s' →
  at_queue (Rec.Queue r) (recover_record r s) = at_queue (Rec.Queue r) (recover_record r s').
Proof.
  intros [= Eq Ep]. unfold at_queue, recover_record, on_staging. rewrite Eq, Ep.
  repeat case_match; simpl; rewrite ?lookup_insert_eq; congruence.
Qed.

Lemma recover_all_local n rs : ∀ s s',
  at_queue n s = at_queue n s' → at_queue n (recover_all rs s) = at_queue n (recover_all (of_queue n rs) s').
Proof.
  unfold recover_all, of_queue. induction rs as [|r rs IH]; intros s s' E; [done|]. cbn [foldl].
  destruct (decide (Rec.Queue r = n)) as [<-|Hn].
  - rewrite filter_cons_True by done. cbn [foldl]. by apply IH, recover_record_local.
  - rewrite filter_cons_False by done. apply IH. by rewrite recover_record_away.
Qed.

(** Only the order within each queue matters. *)
Lemma recover_all_interleaved rs rs' s :
  (∀ n, of_queue n rs = of_queue n rs') →
  r_queues (recover_all rs s) = r_queues (recover_all rs' s) ∧ r_pending (recover_all rs s) = r_pending (recover_all rs' s).
Proof.
  intros Hrs. assert (∀ n, at_queue n (recover_all rs s) = at_queue n (recover_all rs' s)) as E.
  { intros n. rewrite (recover_all_local n rs s s), (recover_all_local n rs' s s) by done. by rewrite Hrs. }
  split; apply map_eq; intros n; by injection (E n).
Qed.
