(* ===== verification/Restore.v ===== *)
(** * Reinstalling recovered messages

    [restore] files a list of messages in an empty queue.  The result is a
    well-formed queue that holds exactly those messages, each in ready, in
    delayed or in the dead letter list, with no lease. *)

From S2P Require Import Prelude ContainerHeap Msg Heaps LogStore Queue QueueInv QueueSpec QueueOps Calls Wal Manager.

Implicit Types (q : Queue) (x y : loc) (m : Msg) (A : amsgs) (u v : place * Msg).

(** [A] holds the messages [vs], each once, under distinct identifiers. *)
Record holds_exactly (A : amsgs) (vs : list (place * Msg)) : Prop := {
  he_in x v : A !! x = Some v → v ∈ vs;
  he_all v : v ∈ vs → ∃ x, A !! x = Some v;
  he_ids x y u v : A !! x = Some u → A !! y = Some v → Msg.ID u.2 = Msg.ID v.2 → x = y;
}.

Lemma holds_nothing : holds_exactly ∅ [].
Proof. split; intros *; try (intros Hx; by rewrite lookup_empty in Hx). by intros ?%not_elem_of_nil. Qed.

Lemma holds_insert A vs x v :
  holds_exactly A vs → A !! x = None → (∀ u, u ∈ vs → Msg.ID u.2 ≠ Msg.ID v.2) →
  holds_exactly (<[x := v]> A) (vs ++ [v]).
Proof.
  intros Hh Hx Hid. split.
  - intros y w. rewrite lookup_insert, elem_of_app, list_elem_of_singleton.
    case_decide; [naive_solver|]. intros Hy. left. by eapply he_in.
  - intros w [Hw|Hw]%elem_of_app.
    + destruct (he_all _ _ Hh w Hw) as [y Hy]. exists y. rewrite lookup_insert_ne; [done|]. congruence.
    + apply list_elem_of_singleton in Hw as ->. exists x. apply lookup_insert_eq.
  - intros y z u w. destruct (decide (x = y)) as [<-|Hy], (decide (x = z)) as [<-|Hz];
      rewrite ?lookup_insert_eq, ?lookup_insert_ne by done; [done|..].
    + intros [= <-] Hu E. destruct (Hid w); [by eapply he_in|done].
    + intros Hu [= <-] E. destruct (Hid u); [by eapply he_in|done].
    + by apply (he_ids _ _ Hh).
Qed.

Lemma abs_live q X x m :
  inv q X → x ∈ live q → mem q !! x = Some m → ∃ P, abs q !! x = Some (P, Msg.erase m).
Proof.
  intros Hinv [P HP]%elem_of_live Hm. exists P. apply (abs_lookup q X); [done|]. by rewrite Hm.
Qed.

Section Adopt.
Context (q : Queue) (m : Msg) (vs : list (place * Msg)).
Context (Hwf : wf q) (Hh : holds_exactly (abs q) vs).
Context (Hle : Msg.Seq m ≤ seq q) (Hnew : ∀ u, u ∈ vs → Msg.Seq u.2 ≠ Msg.Seq m ∧ Msg.ID u.2 ≠ Msg.ID m).

(** The queue with the message in its store, not yet in any heap. *)
Definition adopted : Queue := set_mem (<[fresh (dom (mem q)) := unlease m]> (mem q)) q.

Lemma adopt_eq : adopt m q = Some (fresh (dom (mem q)), adopted).
Proof.
  unfold adopt. rewrite (unlease_updates _ _ m) by (simpl; apply lookup_insert_eq).
  unfold adopted. do 2 f_equal. unfold set_mem. simpl. by rewrite insert_insert_eq.
Qed.

Lemma adopted_ok :
  inv adopted [fresh (dom (mem q))] ∧ abs adopted = abs q ∧ abs q !! fresh (dom (mem q)) = None.
Proof.
  assert (mem q !! fresh (dom (mem q)) = None) as Hx by (apply not_elem_of_dom, is_fresh).
  destruct (inv_alloc q [] _ (unlease m) (wf_inv _ Hwf) Hx) as [Hinv Ea].
  - done.
  - intros y n Hy Hn. rewrite app_nil_r in Hy.
    destruct (abs_live q [] y n (wf_inv _ Hwf) Hy Hn) as [P HP].
    apply (he_in _ _ Hh) in HP. by apply (Hnew _ HP).
  - split_and!; [done..|]. rewrite <- Ea. by eapply abs_loose.
Qed.

(** The entry a message becomes: without its lease, under its gate. *)
Definition revived (now : Time) (m : Msg) : place * Msg := (In (gate m now), Msg.erase (unlease m)).
Definition buried (m : Msg) : place * Msg := (Dead, Msg.erase (unlease m)).

Lemma adopt_live now :
  ∃ q', placeLocked (fresh (dom (mem q))) now adopted = Some q' ∧ wf q' ∧ rest q' = rest q ∧
    holds_exactly (abs q') (vs ++ [revived now m]).
Proof.
  destruct adopted_ok as (Hinv & Ea & Hx).
  destruct (placeLocked_ok now adopted _ (unlease m) [] Hinv) as (q' & E & Hinv' & Ea' & He).
  { apply lookup_insert_eq. }
  assert (rest q' = rest q) as Er by exact (he_rest _ _ _ _ He).
  assert (abs q' = <[fresh (dom (mem q)) := revived now m]> (abs q)) as Eq by by rewrite Ea', Ea.
  exists q'. split_and!; [done| |done|].
  - split; [done|]. eapply leases_ok_ext; [apply Hwf|by apply rest_leases|].
    intros rc y. rewrite Eq. apply leased_partial_alter; [by rewrite Hx|].
    intros n [= E' _]. by apply gate_not_inflight in E'.
  - rewrite Eq. apply holds_insert; [done..|]. intros u Hu. by apply Hnew.
Qed.

Lemma adopt_dead :
  let q' := set_dlq (dlq adopted ++ [fresh (dom (mem q))]) adopted in
  wf q' ∧ holds_exactly (abs q') (vs ++ [buried m]).
Proof.
  intros q'. destruct adopted_ok as (Hinv & Ea & Hx).
  assert (abs q' = <[fresh (dom (mem q)) := buried m]> (abs q)) as Eq.
  { unfold q'. rewrite (abs_dlq _ _ [] (unlease m)), Ea; [done|done|apply lookup_insert_eq]. }
  split.
  - split; [by apply inv_dlq|]. eapply leases_ok_ext; [apply Hwf|done|].
    intros rc y. rewrite Eq. apply leased_partial_alter; [by rewrite Hx|done].
  - rewrite Eq. apply holds_insert; [done..|]. intros u Hu. by apply Hnew.
Qed.
End Adopt.

(** What a list of recovered messages has to satisfy. *)
Record restorable (top : Z) (ms : list Msg) : Prop := {
  rs_top m : m ∈ ms → Msg.Seq m ≤ top;
  rs_seqs : NoDup (Msg.Seq <$> ms);
  rs_ids : NoDup (Msg.ID <$> ms);
}.

Lemma restorable_cons top m ms : restorable top (m :: ms) → restorable top ms.
Proof.
  intros [H1 H2 H3]. rewrite fmap_cons in H2. rewrite fmap_cons in H3. apply NoDup_cons in H2 as [_ H2].
  apply NoDup_cons in H3 as [_ H3]. split; [|done..]. intros n Hn. apply H1. set_solver.
Qed.

#[export] Instance restorable_proper top : Proper ((≡ₚ) ==> iff) (restorable top).
Proof.
  enough (∀ l l', l ≡ₚ l' → restorable top l → restorable top l') as He.
  { intros l l' E. split; by apply He. }
  intros l l' E [H1 H2 H3]. split; [intros m; rewrite <- E; apply H1|by rewrite <- E..].
Qed.

(** The entries [vs] and the messages still to come do not clash. *)
Definition apart (vs : list (place * Msg)) (ms : list Msg) : Prop :=
  ∀ m u, m ∈ ms → u ∈ vs → Msg.Seq u.2 ≠ Msg.Seq m ∧ Msg.ID u.2 ≠ Msg.ID m.

Lemma apart_next top vs m ms v :
  restorable top (m :: ms) → apart vs (m :: ms) → Msg.Seq v.2 = Msg.Seq m → Msg.ID v.2 = Msg.ID m →
  apart (vs ++ [v]) ms.
Proof.
  intros [_ H2 H3] Ha Es Ei n u Hn [Hu|Hu]%elem_of_app; [by apply Ha; [set_solver|]|].
  apply list_elem_of_singleton in Hu as ->. rewrite Es, Ei.
  rewrite fmap_cons in H2. rewrite fmap_cons in H3. apply NoDup_cons in H2 as [H2 _]. apply NoDup_cons in H3 as [H3 _].
  split; intros E; [apply H2|apply H3]; apply list_elem_of_fmap; eauto.
Qed.

Lemma restore_live_ok now ms : ∀ q vs,
  wf q → holds_exactly (abs q) vs → restorable (seq q) ms → apart vs ms →
  ∃ q', restore_live ms now q = Some q' ∧ wf q' ∧ rest q' = rest q ∧
    holds_exactly (abs q') (vs ++ (revived now <$> ms)).
Proof.
  induction ms as [|m ms IH]; intros q vs Hwf Hh Hr Ha.
  { exists q. by rewrite app_nil_r. }
  cbn [restore_live]. rewrite adopt_eq. simpl_bind.
  destruct (adopt_live q m vs Hwf Hh) with (now := now) as (q1 & -> & Hwf1 & Er1 & Hh1).
  { apply Hr. set_solver. }
  { intros u Hu. apply Ha; [set_solver|done]. }
  simpl_bind. destruct (IH q1 (vs ++ [revived now m]) Hwf1 Hh1) as (q' & E & Hwf' & Er' & Hh').
  - rewrite (rest_seq _ _ Er1). by apply restorable_cons in Hr.
  - by eapply apart_next.
  - exists q'. split_and!; [done|done|congruence|]. by rewrite <- (assoc_L (++)) in Hh'.
Qed.

(** Everything but the store and the dead letter list. *)
Definition frozen q := (cfg q, seq q, leases q,
  (enqueued q, delivered q, acked q, nacked q, expired q), walErr q, wake q).
#[export] Hint Unfold frozen : frame.

Lemma rest_frozen q q' : rest q' = rest q → frozen q' = frozen q.
Proof. unfold rest, frozen. congruence. Qed.

Lemma restore_dead_ok ms : ∀ q vs,
  wf q → holds_exactly (abs q) vs → restorable (seq q) ms → apart vs ms →
  ∃ q', restore_dead ms q = Some q' ∧ wf q' ∧ frozen q' = frozen q ∧
    holds_exactly (abs q') (vs ++ (buried <$> ms)).
Proof.
  induction ms as [|m ms IH]; intros q vs Hwf Hh Hr Ha.
  { exists q. by rewrite app_nil_r. }
  cbn [restore_dead]. rewrite adopt_eq. simpl_bind.
  destruct (adopt_dead q m vs Hwf Hh) as (Hwf1 & Hh1).
  { apply Hr. set_solver. }
  { intros u Hu. apply Ha; [set_solver|done]. }
  set (q1 := set_dlq _ _) in *.
  destruct (IH q1 (vs ++ [buried m]) Hwf1 Hh1) as (q' & E & Hwf' & Ef' & Hh').
  - by apply restorable_cons in Hr.
  - by eapply apart_next.
  - exists q'. split_and!; [done..|]. by rewrite <- (assoc_L (++)) in Hh'.
Qed.

(** [restore] on a new queue. *)
Lemma restore_ok c live dead top now :
  restorable top (live ++ dead) → 0 ≤ top →
  ∃ q, restore live dead top now (New c) = Some q ∧ wf q ∧
    frozen q = frozen (set_seq top (New c)) ∧
    holds_exactly (abs q) ((revived now <$> live) ++ (buried <$> dead)).
Proof.
  intros [H1 H2 H3] Htop. unfold restore. rewrite fmap_app in H2. rewrite fmap_app in H3.
  apply NoDup_app in H2 as (S1 & S2 & S3), H3 as (I1 & I2 & I3).
  assert (wf (set_seq top (New c))) as Hwf0.
  { destruct (New_wf c) as [Hi Hl]. destruct (inv_set_seq _ _ top Hi) as [Hi' Ea]; [done|].
    split; [done|]. by eapply leases_ok_ext. }
  destruct (restore_live_ok now live (set_seq top (New c)) []) as (q1 & -> & Hwf1 & Er1 & Hh1).
  - done.
  - rewrite (New_abs c : abs (set_seq top (New c)) = ∅). apply holds_nothing.
  - split; [|done..]. intros m Hm. apply H1. set_solver.
  - by intros m u _ ?%not_elem_of_nil.
  - simpl_bind. apply rest_frozen in Er1. assert (seq q1 = top) as Es by framed.
    destruct (restore_dead_ok dead q1 (revived now <$> live) Hwf1 Hh1) as (q2 & E & Hwf2 & Ef & Hh2).
    + rewrite Es. split; [|done..]. intros m Hm. apply H1. set_solver.
    + intros m u Hm (n & -> & Hn)%list_elem_of_fmap. simpl. split; intros E.
      * apply (S2 (Msg.Seq n)); apply list_elem_of_fmap; eauto.
      * apply (I2 (Msg.ID n)); apply list_elem_of_fmap; eauto.
    + exists q2. split_and!; [done|done|congruence|done].
Qed.
