(* ===== verification/ManagerOps.v ===== *)
(** * The manager's recovery and compaction

    [recover] of a clean log, with a torn record at its end or not, installs in
    every queue what [stage] says of it; the records of a compaction rebuild
    the same state. *)

From Stdlib Require Import Strings.Byte.
From S2P Require Import Prelude ContainerHeap Msg Heaps LogStore Queue QueueInv QueueSpec QueueOps Calls Bytes Encoding Wal WalOps Manager Recovery Restore.

Implicit Types (q : Queue) (x y : loc) (m u : Msg) (A : amsgs) (st : staging).

(** ** The scan *)

Section Scan.
Context `{JsonLaws}.

(** The callback over the records, epoch records apart. *)
Fixpoint recover_step (rs : list (Rec * nat)) (s : recovery) : recovery :=
  match rs with
  | [] => s
  | (r, _) :: rs =>
      recover_step rs
        (if bool_decide (Rec.Op r = OpEpoch) then raise_epoch (Rec.Epoch r) s else recover_record r s)
  end.

Lemma feed_recover l off s : ∃ off', feed recover_fn l off s = Some (recover_step l s, off', None).
Proof.
  revert off s. induction l as [|[r n] l IH]; intros off s; [by exists off|]. simpl.
  case_bool_decide; apply IH.
Qed.

(** The log component and the queues do not mix. *)
Lemma recover_record_with w r s : recover_record r (with_wal w s) = with_wal w (recover_record r s).
Proof. destruct s. unfold recover_record, on_staging. simpl. repeat case_match; done. Qed.

Lemma recover_all_with w rs s : recover_all rs (with_wal w s) = with_wal w (recover_all rs s).
Proof.
  unfold recover_all. revert s. induction rs as [|r rs IH]; intros s; [done|]. cbn [foldl].
  by rewrite recover_record_with, IH.
Qed.

Lemma recover_step_all rs bodies s :
  length rs = length bodies →
  recover_step (sized rs bodies) s =
    with_wal (WAL.set_epoch (top_epoch rs (WAL.epoch (r_wal s))) (r_wal s)) (recover_all (delivered rs) s).
Proof.
  revert bodies s. induction rs as [|r rs IH]; intros [|b bodies] s Hl; [|done|done|].
  { destruct s as [[] ? ?]. done. }
  injection Hl as Hl. unfold sized. cbn [fmap list_fmap zip zip_with recover_step]. fold (sized rs bodies).
  rewrite IH by done. unfold top_epoch. cbn [fold_left]. fold (top_epoch rs).
  change (delivered (r :: rs)) with (if not_epoch r then r :: delivered rs else delivered rs).
  unfold not_epoch. case_bool_decide; cbn [negb andb].
  - unfold raise_epoch. cbn [wal_of recovery_has_wal]. destruct (WAL.epoch (r_wal s) <? Rec.Epoch r); [|done].
    rewrite recover_all_with. by destruct s as [[] ? ?].
  - cbn [recover_all foldl]. by rewrite recover_record_wal.
Qed.

(** What [recover] makes of a clean log and part of a frame. *)
Definition rebuilt (rs : list Rec) : recovery := recover_all (delivered rs) (Recovery (OpenWAL [] 0) ∅ ∅).

Lemma recover_ok `{Ranging} bodies rs tl sy now :
  readable bodies rs → torn tl →
  ∃ w', log_is w' bodies rs ∧ cache (WAL.f w') = frames bodies ∧ disk (WAL.f w') = frames bodies ∧
    WAL.epoch w' = top_epoch rs 0 ∧ WAL.failed w' = None ∧ WAL.syncEvery w' = sy ∧ WAL.orphan w' = None ∧
    recover (SEnv None None None) now (OpenWAL (frames bodies ++ tl) sy) =
      (r ← install (range (r_pending (rebuilt rs))) now (r_queues (rebuilt rs)); Some (w', r)).
Proof.
  intros Hr Ht. pose proof (Forall2_length _ _ _ Hr) as Hl. set (w0 := OpenWAL _ sy).
  set (w1 := WAL.set_epoch (top_epoch rs 0) w0).
  destruct (repair_ok w1 bodies rs tl Hr) as (w' & Hrep & Hli & Hc & Hd & He & Hf & Hse & _ & _ & Ho & _); [done..|].
  assert (recover_all (delivered rs) (Recovery w0 ∅ ∅) = with_wal w0 (rebuilt rs)) as Eall.
  { unfold rebuilt. by rewrite <- recover_all_with. }
  exists w'. split_and!; try done. unfold recover.
  destruct (decide (bodies = [] ∧ tl = [])) as [[-> ->]|Hne].
  - apply Forall2_nil_inv_l in Hr as ->. simpl.
    assert (w' = w1) as ->; [|by simpl].
    specialize (Hrep _ recovery_has_wal (Recovery w1 ∅ ∅) eq_refl eq_refl).
    unfold scan_result in Hrep. simpl in Hrep. by injection Hrep as <-.
  - rewrite (recover_any recover_fn recover_step (Recovery w0 ∅ ∅) bodies rs tl feed_recover);
      [|done|done|destruct bodies, tl; naive_solver|done..].
    rewrite recover_step_all, Eall by done. cbn [r_wal with_wal recovery_has_wal r_queues r_pending].
    change (WAL.set_epoch (top_epoch rs (WAL.epoch w0)) w0) with w1.
    rewrite (Hrep _ recovery_has_wal (Recovery w1 _ _)) by done. done.
Qed.
End Scan.

(** ** Installing the queues *)

Section Install.
Context `{RangingLaws}.

Lemma install_ok pending now qs :
  NoDup pending.*1 →
  (∀ n st, (n, st) ∈ pending → qs !! n = None → s_live st = ∅ ∧ s_dlq st = ∅) →
  (∀ n st q, (n, st) ∈ pending → qs !! n = Some q →
     is_Some (restore (sort_by_seq (pick_msgs false st)) (sort_by_seq (pick_msgs true st))
       (s_maxSeq st) (now n) q)) →
  ∃ qs', install pending now qs = Some (Ok qs') ∧
    (∀ n, n ∉ pending.*1 → qs' !! n = qs !! n) ∧
    ∀ n st, (n, st) ∈ pending →
      qs' !! n = (q ← qs !! n; restore (sort_by_seq (pick_msgs false st))
        (sort_by_seq (pick_msgs true st)) (s_maxSeq st) (now n) q).
Proof.
  revert qs. induction pending as [|[n st] pending IH]; intros qs Hnd Hun Hre.
  { exists qs. split_and!; [done..|]. by intros n st ?%not_elem_of_nil. }
  rewrite fmap_cons in Hnd. apply NoDup_cons in Hnd as [Hn Hnd]. cbn [install].
  assert (∀ n' st', (n', st') ∈ pending → n' ≠ n) as Hne.
  { intros n' st' Hin ->. apply Hn. apply list_elem_of_fmap. by exists (n, st'). }
  destruct (qs !! n) as [q|] eqn:Eq.
  - destruct (Hre n st q) as [q' Eq']; [set_solver|done|]. rewrite Eq'. simpl_bind.
    destruct (IH (<[n := q']> qs)) as (qs' & -> & Ho & Hi); [done|..].
    + intros n' st' Hin. rewrite lookup_insert_ne by (apply not_eq_sym; by eapply Hne).
      apply Hun. set_solver.
    + intros n' st' q0 Hin. rewrite lookup_insert_ne by (apply not_eq_sym; by eapply Hne).
      apply Hre. set_solver.
    + exists qs'. split_and!; [done| |].
      * intros n' [Hn1 Hn2]%not_elem_of_cons. rewrite Ho by done. by apply lookup_insert_ne, not_eq_sym.
      * intros n' st' [[= -> ->]|Hin]%elem_of_cons.
        -- by rewrite Ho, lookup_insert_eq, Eq by done.
        -- rewrite (Hi n' st') by done. by rewrite lookup_insert_ne by (apply not_eq_sym; by eapply Hne).
  - destruct (Hun n st) as [-> ->]; [set_solver|done|]. rewrite !bool_decide_true by done. cbn [andb].
    destruct (IH qs) as (qs' & -> & Ho & Hi); [done|set_solver|set_solver|].
    exists qs'. split_and!; [done| |].
    + intros n' [Hn1 Hn2]%not_elem_of_cons. by apply Ho.
    + intros n' st' [[= -> ->]|Hin]%elem_of_cons; [|by apply Hi]. by rewrite Ho, Eq by done.
Qed.

(** A name without a queue has no messages when the loop gets through. *)
Lemma install_refuses pending now qs qs' :
  install pending now qs = Some (Ok qs') → ∀ n, qs !! n = None →
  qs' !! n = None ∧ ∀ st, (n, st) ∈ pending → s_live st = ∅ ∧ s_dlq st = ∅.
Proof.
  revert qs. induction pending as [|[n' st'] pending IH]; intros qs E n Hn; cbn [install] in E.
  { injection E as <-. split; [done|]. by intros st ?%not_elem_of_nil. }
  destruct (qs !! n') as [q|] eqn:Hq.
  - apply bind_Some in E as (q' & _ & E). destruct (IH _ E n) as [H1' H2'].
    { rewrite lookup_insert_ne; [done|]. congruence. }
    split; [done|]. intros st [[= -> _]|Hin]%elem_of_cons; [congruence|by apply H2'].
  - destruct (bool_decide _ && _) eqn:Hb; [|done].
    rewrite andb_true_iff, !bool_decide_eq_true in Hb. destruct (IH _ E n Hn) as [H1' H2'].
    split; [done|]. intros st [[= -> ->]|Hin]%elem_of_cons; [done|by apply H2'].
Qed.

(** The messages [install] gives to [restore]. *)
Lemma elem_pick b st u :
  u ∈ pick_msgs b st ↔ ∃ id, s_live st !! id = Some u ∧ bool_decide (id ∈ s_dlq st) = b.
Proof.
  unfold pick_msgs. rewrite list_elem_of_fmap. split.
  - intros ([id u'] & -> & [Hb Hin]%list_elem_of_filter). simpl in *. exists id. split; [|done].
    apply elem_of_map_to_list. by rewrite <- (range_perm (s_live st)).
  - intros (id & Hu & Hb). exists (id, u). split; [done|]. apply list_elem_of_filter. split; [done|].
    rewrite (range_perm (s_live st)). by apply elem_of_map_to_list.
Qed.

Lemma pick_all st : pick_msgs false st ++ pick_msgs true st ≡ₚ (map_to_list (s_live st)).*2.
Proof.
  unfold pick_msgs. rewrite <- fmap_app. apply fmap_Permutation.
  rewrite <- (range_perm (s_live st)). generalize (range (s_live st)). intros l.
  induction l as [|[id u] l IH]; [done|]. rewrite !filter_cons. cbn [fst].
  destruct (bool_decide (id ∈ s_dlq st)).
  - rewrite decide_False, decide_True by done. rewrite <- Permutation_middle. by rewrite IH.
  - rewrite decide_True, decide_False by done. simpl. by rewrite IH.
Qed.

Lemma sort_by_seq_perm l : sort_by_seq l ≡ₚ l.
Proof. apply merge_sort_Permutation. Qed.

(** What the queue's messages say of the recovered ones. *)
Lemma staged_of T s A st id u :
  mirrors T s A st → s_live st !! id = Some u →
  ∃ x P m, A !! x = Some (P, m) ∧ Msg.ID m = id ∧ survives T P m u ∧ (id ∈ s_dlq st ↔ P = Dead).
Proof.
  intros Hm Hu. destruct (mi_only _ _ _ _ Hm id) as (x & P & m & Hx & E); [by rewrite Hu|].
  destruct (mi_live _ _ _ _ Hm _ _ _ Hx) as (u' & Hu' & Hs). rewrite E, Hu in Hu'. simplify_eq.
  exists x, P, m. split_and!; [done..|]. rewrite (mi_dead _ _ _ _ Hm). split; [|intros ->; eauto].
  intros (y & n & Hy & En). assert (x = y) as <- by (by apply (mi_ids _ _ _ _ Hm x y _ _ Hx Hy)). congruence.
Qed.

Lemma survives_fields T P m u :
  survives T P m u → Msg.ID u = Msg.ID m ∧ Msg.Seq u = Msg.Seq m ∧ Msg.erase (unlease u) = u.
Proof. by intros (v & -> & _). Qed.

Lemma wf_abs_seq q x P m : wf q → abs q !! x = Some (P, m) → Msg.Seq m ≤ seq q.
Proof.
  intros [Hinv _] Hx. apply (abs_lookup q [] _ _ _ Hinv) in Hx as [HP (n & Hn & ->)%fmap_Some].
  apply (inv_seq _ _ Hinv x n); [|done]. rewrite app_nil_r. apply elem_of_live. eauto.
Qed.

Lemma wf_abs_seq_inj q x y P Q m n :
  wf q → abs q !! x = Some (P, m) → abs q !! y = Some (Q, n) → Msg.Seq m = Msg.Seq n → x = y.
Proof.
  intros [Hinv _] Hx Hy E. apply (abs_lookup q [] _ _ _ Hinv) in Hx as [HP (m' & Hm & ->)%fmap_Some].
  apply (abs_lookup q [] _ _ _ Hinv) in Hy as [HQ (n' & Hn & ->)%fmap_Some].
  eapply (inv_seq_inj _ _ Hinv x y m' n'); rewrite ?app_nil_r; [apply elem_of_live; eauto..|done|done|done].
Qed.

Lemma staged_restorable T q st :
  wf q → mirrors T (seq q) (abs q) st →
  restorable (seq q) (sort_by_seq (pick_msgs false st) ++ sort_by_seq (pick_msgs true st)).
Proof.
  intros Hwf Hm. rewrite !sort_by_seq_perm, pick_all.
  assert (∀ id u, (id, u) ∈ map_to_list (s_live st) →
    ∃ x P m, abs q !! x = Some (P, m) ∧ Msg.ID m = id ∧ Msg.ID u = id ∧ Msg.Seq u = Msg.Seq m) as Hst.
  { intros id u Hu%elem_of_map_to_list. destruct (staged_of _ _ _ _ _ _ Hm Hu) as (x & P & m & Hx & <- & Hs & _).
    apply survives_fields in Hs as (E1 & E2 & _). by exists x, P, m. }
  split.
  - intros u ([id u'] & -> & Hu)%list_elem_of_fmap. destruct (Hst _ _ Hu) as (x & P & m & Hx & _ & _ & E).
    simpl. rewrite E. by eapply wf_abs_seq.
  - rewrite <- list_fmap_compose. apply NoDup_fmap_2_strong; [|apply NoDup_map_to_list].
    intros [id u] [id' u'] H1 H2 E. simpl in E. destruct (Hst _ _ H1) as (x & P & m & Hx & Ei & _ & Es).
    destruct (Hst _ _ H2) as (x' & P' & m' & Hx' & Ei' & _ & Es').
    assert (x = x') as <- by (eapply wf_abs_seq_inj; [done..|congruence]).
    assert (id = id') as <- by congruence. f_equal.
    apply elem_of_map_to_list in H1, H2. congruence.
  - assert (Msg.ID <$> (map_to_list (s_live st)).*2 = (map_to_list (s_live st)).*1) as ->.
    { rewrite <- list_fmap_compose. apply list_fmap_ext. intros i [id u] Hi.
      apply list_elem_of_lookup_2 in Hi. by destruct (Hst _ _ Hi) as (_ & _ & _ & _ & _ & ? & _). }
    apply NoDup_fst_map_to_list.
Qed.

(** What a restart makes of a place: leases are over, gates that have passed
    are open. *)
Definition reborn_place (now : Time) (P : place) (m : Msg) : place :=
  match P with
  | Dead => Dead
  | In HDelayed => In (gate m now)
  | In _ => In HReady
  end.

(** [A'] is [A] after a restart at [now]: the same messages with the same
    attempt counts, out of every lease, each under its gate if it was waiting
    for one, and no others. *)
Record reborn (now : Time) (A A' : amsgs) : Prop := {
  rb_each x P m : A !! x = Some (P, m) →
    ∃ y v, A' !! y = Some (reborn_place now P m, Msg.erase (Msg.set_VisibleAt v (unlease m))) ∧
      (P = In HDelayed → v = Msg.VisibleAt m);
  rb_only y e : A' !! y = Some e → ∃ x d, A !! x = Some d ∧ Msg.ID d.2 = Msg.ID e.2;
  rb_ids y z e d : A' !! y = Some e → A' !! z = Some d → Msg.ID e.2 = Msg.ID d.2 → y = z;
}.

Section Entries.
Context (T now : Time) (s : Z) (A A' : amsgs) (st : staging).
Context (Hm : mirrors T s A st) (HT : T ≤ now).
Context (Hh : holds_exactly A' ((revived now <$> sort_by_seq (pick_msgs false st)) ++
                               (buried <$> sort_by_seq (pick_msgs true st)))).

(** Where a recovered message goes. *)
Lemma entry_of id u :
  s_live st !! id = Some u →
  ∃ y, A' !! y = Some (if bool_decide (id ∈ s_dlq st) then Dead else In (gate u now), u).
Proof.
  intros Hu. destruct (staged_of _ _ _ _ _ _ Hm Hu) as (x & P & m & _ & _ & Hs & _).
  apply survives_fields in Hs as (_ & _ & Eu). apply (he_all _ _ Hh). apply elem_of_app.
  case_bool_decide as Hd; [right|left]; apply list_elem_of_fmap; exists u;
    (split; [(unfold buried || unfold revived); by rewrite Eu|]); rewrite sort_by_seq_perm; apply elem_pick;
    exists id; (split; [done|]).
  - by apply bool_decide_eq_true.
  - by apply bool_decide_eq_false.
Qed.

Lemma entry_inv y P u :
  A' !! y = Some (P, u) →
  s_live st !! Msg.ID u = Some u ∧
  P = if bool_decide (Msg.ID u ∈ s_dlq st) then Dead else In (gate u now).
Proof.
  intros Hy%(he_in _ _ Hh).
  assert (∃ b, u ∈ pick_msgs b st ∧ P = if (b : bool) then Dead else In (gate u now)) as (b & Hu & ->).
  { apply elem_of_app in Hy as [(n & E & Hn)%list_elem_of_fmap|(n & E & Hn)%list_elem_of_fmap];
      rewrite sort_by_seq_perm in Hn; pose proof Hn as (id & Hid & _)%elem_pick;
      destruct (staged_of _ _ _ _ _ _ Hm Hid) as (x & Q & m & _ & _ & Hs & _);
      apply survives_fields in Hs as (_ & _ & En); unfold revived, buried in E; rewrite En in E;
      injection E as -> ->; eauto. }
  apply elem_pick in Hu as (id & Hid & Hb).
  destruct (staged_of _ _ _ _ _ _ Hm Hid) as (x & Q & m & _ & Em & Hs & _).
  apply survives_fields in Hs as (Ei & _). assert (Msg.ID u = id) as -> by congruence.
  split; [done|]. by rewrite Hb.
Qed.

Lemma entries_mirror : mirrors now s A' st.
Proof.
  split; [apply Hm|apply Hh|..].
  - intros y P u Hy. destruct (entry_inv _ _ _ Hy) as [Hu ->]. exists u. split; [done|].
    destruct (staged_of _ _ _ _ _ _ Hm Hu) as (x & Q & m & _ & _ & (v & Eu & Hj & Hv) & Hd).
    exists v. split_and!; [by rewrite Eu|done|].
    assert (Msg.VisibleAt u = v) as Ev by by rewrite Eu. case_bool_decide as Hb.
    + apply Hd in Hb. subst Q. lia.
    + unfold gate. destruct (Msg.Ready u now) eqn:Hr; [|done]. apply Msg.Ready_le in Hr. lia.
  - intros id [u Hu]. destruct (entry_of _ _ Hu) as [y Hy]. eexists y, _, u. split; [exact Hy|].
    destruct (staged_of _ _ _ _ _ _ Hm Hu) as (x & Q & m & _ & Em & Hs & _).
    apply survives_fields in Hs as (Ei & _). congruence.
  - intros id. split.
    + intros Hd. pose proof Hd as (x & m & Hx & Em)%(mi_dead _ _ _ _ Hm).
      destruct (mi_live _ _ _ _ Hm _ _ _ Hx) as (u & Hu & Hs). rewrite Em in Hu.
      destruct (entry_of _ _ Hu) as [y Hy]. rewrite bool_decide_true in Hy by done. exists y, u.
      split; [done|]. apply survives_fields in Hs as (Ei & _). congruence.
    + intros (y & u & Hy & <-). destruct (entry_inv _ _ _ Hy) as [_ E]. by case_bool_decide.
Qed.

Lemma entries_safe : safe A → safe A'.
Proof.
  intros Hs y P u Hy. destruct (entry_inv _ _ _ Hy) as [Hu _].
  destruct (staged_of _ _ _ _ _ _ Hm Hu) as (x & Q & m & Hx & _ & (v & -> & Hj & _) & _).
  rewrite msg_safe_erase. apply msg_safe_VisibleAt; [done|]. apply msg_safe_unlease. by eapply Hs.
Qed.

Lemma entries_reborn : reborn now A A'.
Proof.
  split; [| |apply Hh].
  - intros x P m Hx. destruct (mi_live _ _ _ _ Hm _ _ _ Hx) as (u & Hu & v & Eu & Hj & Hv).
    destruct (entry_of _ _ Hu) as [y Hy].
    assert (Msg.ID m ∈ s_dlq st ↔ P = Dead) as Hd.
    { destruct (staged_of _ _ _ _ _ _ Hm Hu) as (x' & P' & m' & Hx' & E & _ & Hd).
      assert (x = x') as <- by (by apply (mi_ids _ _ _ _ Hm x x' _ _ Hx Hx')). by simplify_eq. }
    exists y, v. rewrite <- Eu. split; [|intros ->; done]. rewrite Hy. do 2 f_equal.
    destruct P as [p|]; [rewrite bool_decide_false by (rewrite Hd; done)|by rewrite bool_decide_true by by apply Hd].
    assert (gate u now = gate (Msg.set_VisibleAt v m) now) as -> by by rewrite Eu.
    destruct p; simpl; [|by subst v; destruct m|];
      unfold gate; by rewrite (proj2 (Msg.Ready_le _ _)) by (simpl; lia).
  - intros y [P u] Hy. destruct (entry_inv _ _ _ Hy) as [Hu _].
    destruct (staged_of _ _ _ _ _ _ Hm Hu) as (x & Q & m & Hx & Em & _). by exists x, (Q, m).
Qed.
End Entries.

(** One queue, before and after. *)
Lemma restored_ok T now q st c :
  wf q → mirrors T (seq q) (abs q) st → safe (abs q) → T ≤ now → 0 ≤ seq q →
  ∃ q', restore (sort_by_seq (pick_msgs false st)) (sort_by_seq (pick_msgs true st))
          (s_maxSeq st) now (New c) = Some q' ∧ wf q' ∧
    frozen q' = frozen (set_seq (seq q) (New c)) ∧
    mirrors now (seq q) (abs q') st ∧ safe (abs q') ∧ reborn now (abs q) (abs q').
Proof.
  intros Hwf Hm Hs HT Hp. rewrite (mi_seq _ _ _ _ Hm).
  destruct (restore_ok c _ _ (seq q) now (staged_restorable T q st Hwf Hm) Hp)
    as (q' & E & Hwf' & Ef & Hh).
  exists q'. split_and!; [done..| | |].
  - by eapply entries_mirror.
  - by eapply entries_safe.
  - by eapply entries_reborn.
Qed.
End Install.
