(* ===== verification/CompactOps.v ===== *)
(** * What a compaction writes

    [liveRecordsLocked] never fails on a well-formed queue, its records can be
    encoded, and read back they say of the queue exactly what its messages are. *)

From S2P Require Import Prelude ContainerHeap Msg Heaps LogStore Queue QueueInv QueueSpec QueueOps Bytes Encoding Wal WalOps Manager Recovery Restore ManagerOps.

Implicit Types (q : Queue) (x y : loc) (m : Msg) (A : amsgs) (st : staging).

(** ** The records of one queue *)

(** The records of a message at a place. *)
Definition place_recs (n : string) (P : place) (m : Msg) : list Rec :=
  Rec.of_msg OpEnqueue n (emitted m) ::
  (match P with Dead => [Rec.of_id OpDLQ n (Msg.ID m)] | _ => [] end).

Definition content (mem : store) (x : loc) : Msg := default Msg.zero (mem !! x).
Definition recs_at (n : string) (mem : store) (P : place) (l : list loc) : list Rec :=
  concat ((λ x, place_recs n P (content mem x)) <$> l).

Lemma emit_all_ok n mem p l :
  (∀ x, x ∈ l → is_Some (mem !! x)) → emit_all n mem l = Some (recs_at n mem (In p) l).
Proof.
  induction l as [|x l IH]; intros Hl; [done|]. cbn [emit_all].
  destruct (Hl x) as [m Hm]; [set_solver|]. rewrite Hm. simpl_bind. rewrite IH by set_solver.
  simpl_bind. unfold recs_at, content. simpl. by rewrite Hm.
Qed.

Lemma emit_dead_ok n mem l :
  (∀ x, x ∈ l → is_Some (mem !! x)) → emit_dead n mem l = Some (recs_at n mem Dead l).
Proof.
  induction l as [|x l IH]; intros Hl; [done|]. cbn [emit_dead].
  destruct (Hl x) as [m Hm]; [set_solver|]. rewrite Hm. simpl_bind. rewrite IH by set_solver.
  simpl_bind. unfold recs_at, content. simpl. by rewrite Hm.
Qed.

(** The records of a queue. *)
Definition queue_recs (q : Queue) : list Rec :=
  Rec.of_config OpCreateQueue (name q) (cfg q) (seq q) ::
  recs_at (name q) (mem q) (In HReady) (items (ready q)) ++
  recs_at (name q) (mem q) (In HDelayed) (items (delayed q)) ++
  recs_at (name q) (mem q) (In HInflight) (items (inflight q)) ++
  recs_at (name q) (mem q) Dead (dlq q).

Lemma live_mem q P x : wf q → at_place q P x → is_Some (mem q !! x).
Proof.
  intros [Hinv _] HP. apply (inv_mem _ _ Hinv). rewrite app_nil_r. apply elem_of_live. eauto.
Qed.

Lemma liveRecordsLocked_ok q : wf q → liveRecordsLocked q = Some (queue_recs q).
Proof.
  intros Hwf. unfold liveRecordsLocked.
  rewrite (emit_all_ok _ _ HReady (items (ready q))) by (intros x; apply (live_mem q (In HReady) x Hwf)). simpl_bind.
  rewrite (emit_all_ok _ _ HDelayed (items (delayed q))) by (intros x; apply (live_mem q (In HDelayed) x Hwf)). simpl_bind.
  rewrite (emit_all_ok _ _ HInflight (items (inflight q))) by (intros x; apply (live_mem q (In HInflight) x Hwf)). simpl_bind.
  rewrite emit_dead_ok by (intros x; apply (live_mem q Dead x Hwf)). done.
Qed.

Lemma recs_at_queue n mem P l : Forall (λ r, Rec.Queue r = n ∧ Rec.Op r ≠ OpEpoch) (recs_at n mem P l).
Proof.
  unfold recs_at. apply Forall_concat, Forall_fmap, Forall_forall. intros x _.
  destruct P; repeat constructor; done.
Qed.

Lemma queue_recs_queue q : Forall (λ r, Rec.Queue r = name q ∧ Rec.Op r ≠ OpEpoch) (queue_recs q).
Proof. constructor; [done|]. rewrite !Forall_app. split_and!; apply recs_at_queue. Qed.

(** They can all be encoded. *)
Lemma recs_at_safe n mem P l :
  utf8 n = true → (∀ x, x ∈ l → msg_safe (content mem x) = true) →
  Forall (λ r, json_safe r = true) (recs_at n mem P l).
Proof.
  intros Hn Hl. unfold recs_at. apply Forall_concat, Forall_fmap, Forall_forall. intros x Hx.
  pose proof (Hl x Hx) as Hs. constructor.
  - apply (safe_rec_msg _ _ ""); [done..|]. by apply msg_safe_unlease.
  - destruct P; repeat constructor. by apply safe_rec_id; [| |apply msg_safe_ID].
Qed.

Lemma queue_recs_safe q :
  wf q → safe (abs q) → config_safe (cfg q) = true → 0 ≤ seq q < two64 →
  Forall (λ r, json_safe r = true) (queue_recs q).
Proof.
  intros Hwf Hs Hc Hq. assert (utf8 (name q) = true) as Hn.
  { unfold config_safe in Hc. rewrite !andb_true_iff in Hc. tauto. }
  assert (∀ P x, at_place q P x → msg_safe (content (mem q) x) = true) as Hm.
  { intros P x HP. destruct (live_mem q P x Hwf HP) as [m Hm]. unfold content. rewrite Hm. simpl.
    apply (Hs x P (Msg.erase m)). apply (abs_lookup q []); [apply Hwf|]. by rewrite Hm. }
  constructor.
  - apply safe_rec_config; [done..|]. unfold fits_u64. lia.
  - rewrite !Forall_app. split_and!; apply recs_at_safe; try done; intros x Hx;
      [by apply (Hm (In HReady))|by apply (Hm (In HDelayed))|by apply (Hm (In HInflight))|by apply (Hm Dead)].
Qed.

(** ** Reading them back *)

Section Readback.
Context (T : Time) (q : Queue) (st0 : staging).
Context (Hwf : wf q) (Hm0 : mirrors T (seq q) (abs q) st0) (Hsafe : safe (abs q)) (Hpos : 0 ≤ seq q).

(** The part of the queue's messages written so far. *)
Definition covers (done : list loc) (A : amsgs) : Prop :=
  ∀ y, A !! y = if decide (y ∈ done) then abs q !! y else None.

Lemma covers_insert done A x v :
  covers done A → abs q !! x = Some v → covers (done ++ [x]) (<[x := v]> A).
Proof.
  intros Hc Hx y. rewrite lookup_insert, Hc. case_decide as Hxy; [subst y|].
  - by rewrite decide_True by set_solver.
  - rewrite (decide_ext (y ∈ done ++ [x]) (y ∈ done)); [done|]. set_solver.
Qed.

(** One message, one or two records. *)
Lemma message_back P x m done A st rs :
  mirrors T (seq q) A st → covers done A → x ∉ done →
  abs q !! x = Some (P, Msg.erase m) → Forall2 stored (place_recs (name q) P m) rs →
  ∃ A', covers (done ++ [x]) A' ∧ mirrors T (seq q) A' (foldl (stage_on (name q)) st rs).
Proof.
  intros Hm Hc Hd Hx Hrs. exists (<[x := (P, Msg.erase m)]> A). split; [by apply covers_insert|].
  assert (A !! x = None) as HA by by rewrite Hc, decide_False.
  assert (∀ y v, A !! y = Some v → Msg.ID v.2 ≠ Msg.ID m) as Hid.
  { intros y v Hy E. rewrite Hc in Hy. case_decide as Hyd; [|done]. apply Hd.
    by rewrite <- (mi_ids _ _ _ _ Hm0 y x v (P, Msg.erase m) Hy Hx E). }
  assert (survives T P (Msg.erase m) (Msg.erase (emitted m))) as Hs.
  { destruct (mi_live _ _ _ _ Hm0 _ _ _ Hx) as (u & _ & v & _ & _ & Hv). exists (Msg.VisibleAt m).
    split_and!; [done|apply msg_safe_times; exact (Hsafe _ _ _ Hx)|].
    destruct P as [[]|]; simpl in *; lia. }
  inversion Hrs as [|r1 r1' l1 l1' H1 H2]; subst; clear Hrs. cbn [foldl].
  rewrite (stage_enqueue _ _ _ _ H1).
  pose proof (wf_abs_seq q x _ _ Hwf Hx) as Hle. simpl in Hle.
  assert (∀ st', s_maxSeq st' = seq q → bump st' (Msg.Seq (emitted m)) = st') as Hb.
  { intros st' E. unfold bump. rewrite E. by rewrite (proj2 (Z.ltb_ge _ _)). }
  rewrite Hb by apply (mi_seq _ _ _ _ Hm).
  destruct (mirrors_fresh _ _ _ _ _ Hm Hid) as [_ Hnd].
  destruct P as [p|]; simpl in H2.
  - apply Forall2_nil_inv_l in H2 as ->. by apply (mirrors_add T _ _ st x (In p) (Msg.erase m)).
  - apply Forall2_cons_inv_l in H2 as (r2 & l2 & H2 & E & ->). apply Forall2_nil_inv_l in E as ->.
    cbn [foldl]. rewrite (stage_dlq _ _ _ _ H2).
    unfold set_dead, set_live. cbn [s_live s_dlq s_maxSeq].
    apply (mirrors_add T _ _ st x Dead (Msg.erase m)); try done; simpl; [set_solver|].
    intros id Hne. simpl in Hne. set_solver.
Qed.

Lemma place_back P l : ∀ done A st rs,
  mirrors T (seq q) A st → covers done A → (∀ x, x ∈ l → at_place q P x ∧ x ∉ done) → NoDup l →
  Forall2 stored (recs_at (name q) (mem q) P l) rs →
  ∃ A', covers (done ++ l) A' ∧ mirrors T (seq q) A' (foldl (stage_on (name q)) st rs).
Proof.
  induction l as [|x l IH]; intros done A st rs Hm Hc Hl Hnd Hrs.
  { apply Forall2_nil_inv_l in Hrs as ->. exists A. by rewrite app_nil_r. }
  apply NoDup_cons in Hnd as [Hx Hnd]. destruct (Hl x) as [HP Hxd]; [set_solver|].
  unfold recs_at in Hrs. cbn [fmap list_fmap concat] in Hrs.
  apply Forall2_app_inv_l in Hrs as (rs1 & rs2 & H1 & H2 & ->).
  destruct (live_mem q P x Hwf HP) as [m Hmx]. unfold content in H1. rewrite Hmx in H1. simpl in H1.
  destruct (message_back P x m done A st rs1 Hm Hc Hxd) as (A1 & Hc1 & Hm1); [|done|].
  { apply (abs_lookup q []); [apply Hwf|]. by rewrite Hmx. }
  destruct (IH (done ++ [x]) A1 _ rs2 Hm1 Hc1) as (A2 & Hc2 & Hm2); [|done|exact H2|].
  - intros y Hy. destruct (Hl y) as [? Hyd]; [set_solver|]. split; [done|].
    intros [?|?%list_elem_of_singleton]%elem_of_app; [done|]. by subst y.
  - exists A2. rewrite foldl_app. split; [|done]. by rewrite <- (assoc_L (++)) in Hc2.
Qed.

Lemma queue_back rs :
  Forall2 stored (queue_recs q) rs →
  mirrors T (seq q) (abs q) (stage (name q) rs) ∧ created (name q) rs = Some (cfg q).
Proof.
  intros Hrs. unfold queue_recs in Hrs. apply Forall2_cons_inv_l in Hrs as (r & rs1 & [a ->] & Hrs & ->).
  split; [|apply (created_mono _ [_]); unfold created; simpl; by rewrite bool_decide_true].
  apply Forall2_app_inv_l in Hrs as (l1 & rs2 & H1 & Hrs & ->).
  apply Forall2_app_inv_l in Hrs as (l2 & rs3 & H2 & Hrs & ->).
  apply Forall2_app_inv_l in Hrs as (l3 & l4 & H3 & H4 & ->).
  pose proof (inv_nodup _ _ (wf_inv _ Hwf)) as Hnd. rewrite app_nil_r in Hnd. unfold live in Hnd.
  apply NoDup_app in Hnd as (N1 & D1 & Hnd). apply NoDup_app in Hnd as (N2 & D2 & Hnd).
  apply NoDup_app in Hnd as (N3 & D3 & N4).
  unfold stage. cbn [foldl]. set (st1 := stage_on _ no_staging _).
  assert (mirrors T (seq q) ∅ st1) as Hm1.
  { assert (st1 = bump no_staging (seq q)) as ->.
    { unfold st1, stage_on. by rewrite bool_decide_true. }
    eapply mirrors_seq; [apply (mirrors_empty T)|..]; unfold bump; simpl;
      destruct (0 <? seq q) eqn:E; simpl; try done; lia. }
  rewrite !foldl_app.
  destruct (place_back (In HReady) (items (ready q)) [] ∅ st1 l1 Hm1) as (A1 & C1 & M1); [| |done..|].
  { intros y. rewrite lookup_empty. by rewrite decide_False by apply not_elem_of_nil. }
  { intros x Hx. split; [done|apply not_elem_of_nil]. }
  destruct (place_back (In HDelayed) (items (delayed q)) _ A1 _ l2 M1 C1) as (A2 & C2 & M2); [|done..|].
  { intros x Hx. split; [done|]. intros Hx1. apply (D1 x Hx1). set_solver. }
  destruct (place_back (In HInflight) (items (inflight q)) _ A2 _ l3 M2 C2) as (A3 & C3 & M3); [|done..|].
  { intros x Hx. split; [done|]. intros [Hx1|Hx1]%elem_of_app; [apply (D1 x Hx1)|apply (D2 x Hx1)]; set_solver. }
  destruct (place_back Dead (dlq q) _ A3 _ l4 M3 C3) as (A4 & C4 & M4); [|done..|].
  { intros x Hx. split; [done|]. rewrite !elem_of_app. intros [[[Hx1%not_elem_of_nil|Hx1]|Hx1]|Hx1];
      [done|apply (D1 x Hx1)|apply (D2 x Hx1)|apply (D3 x Hx1)]; set_solver. }
  assert (A4 = abs q) as <-; [|done]. apply map_eq. intros y. rewrite C4. case_decide as Hy; [done|].
  destruct (abs q !! y) as [[P m]|] eqn:E; [|done]. exfalso. apply Hy.
  apply (abs_lookup q []) in E as [HP _]; [|apply Hwf].
  rewrite !elem_of_app. destruct P as [[]|]; simpl in HP; tauto.
Qed.
End Readback.

(** ** All the queues at once *)

Definition all_recs (qs : list Queue) : list Rec := concat (queue_recs <$> qs).

Lemma stored_forall (P : Rec → Prop) rs rs' :
  (∀ r r', stored r r' → P r → P r') → Forall2 stored rs rs' → Forall P rs → Forall P rs'.
Proof.
  intros HP. induction 1 as [|r r' rs rs' Hr Hrs IH]; [done|]. intros [H1 H2]%Forall_cons.
  constructor; [by eapply HP|by apply IH].
Qed.

Lemma all_recs_queue qs (n : string) :
  (∀ q, q ∈ qs → name q ≠ n) → Forall (λ r, Rec.Queue r ≠ n) (all_recs qs).
Proof.
  intros Hn. unfold all_recs. apply Forall_concat, Forall_fmap, Forall_forall. intros q Hq.
  eapply Forall_impl; [apply queue_recs_queue|]. simpl. intros r [-> _]. by apply Hn.
Qed.

Lemma stored_other qs n rs :
  (∀ q, q ∈ qs → name q ≠ n) → Forall2 stored (all_recs qs) rs → Forall (λ r, Rec.Queue r ≠ n) rs.
Proof.
  intros Hn Hrs. eapply stored_forall; [|exact Hrs|by apply all_recs_queue].
  intros r r' Hr Hq. by rewrite (proj1 (stored_queue _ _ Hr)).
Qed.

Lemma others_silent n (rs : list Rec) :
  Forall (λ r, Rec.Queue r ≠ n) rs → stage n rs = no_staging ∧ created n rs = None.
Proof.
  intros Hrs. split; [by apply (stage_other n [])|].
  apply (created_none n []). eapply Forall_impl; [exact Hrs|]. intros r Hr. by left.
Qed.

Lemma all_back T q st0 qs rs :
  wf q → mirrors T (seq q) (abs q) st0 → safe (abs q) → 0 ≤ seq q →
  q ∈ qs → NoDup (name <$> qs) → Forall2 stored (all_recs qs) rs →
  mirrors T (seq q) (abs q) (stage (name q) rs) ∧ created (name q) rs = Some (cfg q).
Proof.
  intros Hwf Hm Hs Hp Hq Hnd Hrs. apply list_elem_of_split in Hq as (l1 & l2 & ->).
  rewrite fmap_app, fmap_cons in Hnd. apply NoDup_app in Hnd as (_ & Hd & Hnd).
  apply NoDup_cons in Hnd as [Hn2 _].
  assert (∀ q', q' ∈ l1 → name q' ≠ name q) as Hn1.
  { intros q' Hq' E. apply (Hd (name q')); [apply list_elem_of_fmap; eauto|]. rewrite E. set_solver. }
  assert (∀ q', q' ∈ l2 → name q' ≠ name q) as Hn2'.
  { intros q' Hq' E. apply Hn2. rewrite <- E. apply list_elem_of_fmap. eauto. }
  unfold all_recs in Hrs. rewrite fmap_app, fmap_cons, concat_app in Hrs. cbn [concat] in Hrs.
  apply Forall2_app_inv_l in Hrs as (r1 & r23 & H1 & Hrs & ->).
  apply Forall2_app_inv_l in Hrs as (r2 & r3 & H2 & H3 & ->).
  destruct (others_silent (name q) r1) as [S1 C1]; [by apply (stored_other l1)|].
  destruct (queue_back T q st0 Hwf Hm Hs Hp r2 H2) as [M2 C2]. rewrite (assoc_L (++)). split.
  - rewrite stage_other by (by apply (stored_other l2)). by rewrite stage_app, S1.
  - apply created_mono. by rewrite created_app, C1.
Qed.

(** ** The new log *)

Section NewLog.
Context `{JsonLaws}.

Lemma stored_stamped env i rs : Forall2 stored rs (Rec.erase <$> stamped env i rs).
Proof.
  revert i. induction rs as [|r rs IH]; intros i; [constructor|]. constructor; [|apply IH].
  unfold stamp. destruct (Rec.At r =? 0); [by eexists|]. exists (Rec.At r). by destruct r.
Qed.

Lemma stamped_safe env i rs :
  Forall (λ r, json_safe r = true) rs → Forall (λ r, json_safe r = true) (stamped env i rs).
Proof.
  intros Hs. revert i. induction Hs as [|r rs Hr Hs IH]; intros i; constructor; [|apply IH].
  unfold stamp. destruct (Rec.At r =? 0); [|done]. by apply json_safe_At; [apply i64_fits|].
Qed.

Lemma epoch_safe e : json_safe (Rec.of_epoch (u64 e)) = true.
Proof. unfold json_safe. simpl. by rewrite u64_fits. Qed.

Lemma delivered_all rs : Forall (λ r, Rec.Op r ≠ OpEpoch) rs → delivered rs = rs.
Proof.
  induction 1 as [|r rs Hr _ IH]; [done|]. change (delivered (r :: rs)) with
    (if not_epoch r then r :: delivered rs else delivered rs).
  unfold not_epoch. rewrite bool_decide_false, IH by done. done.
Qed.

Lemma top_epoch_none rs e : Forall (λ r, Rec.Op r ≠ OpEpoch) rs → top_epoch rs e = e.
Proof.
  unfold top_epoch. induction 1 as [|r rs Hr _ IH]; [done|]. cbn [fold_left].
  unfold not_epoch at 2. by rewrite bool_decide_false.
Qed.

(** A successful compaction: the log now is the live records. *)
Lemma Compact_contents live env w w' :
  Forall (λ r, json_safe r = true) live → Forall (λ r, Rec.Op r ≠ OpEpoch) live →
  Compact live env w = (w', None) →
  (∃ bodies rs, log_is w' bodies rs ∧ top_epoch rs 0 = WAL.epoch w') ∧
  Forall2 stored live (contents w') ∧
  WAL.epoch w' = u64 (WAL.epoch w + 1) ∧ WAL.failed w' = None.
Proof.
  intros Hs Ho E. pose proof (Compact_cases live env w) as Hc. rewrite E in Hc.
  destruct Hc as [[? _]|(bodies & rs & f & Hr & Hm & _ & _ & _ & _ & Hli & _ & He & _ & Hf)]; [done|].
  assert (rs = Rec.erase <$> compacted w live env) as ->.
  { eapply readable_det; [exact Hm| |exact Hr]. apply stamped_safe.
    constructor; [apply epoch_safe|done]. }
  pose proof (stored_stamped env 1 live) as Hst.
  assert (Forall (λ r, Rec.Op r ≠ OpEpoch) (Rec.erase <$> stamped env 1 live)) as Hop.
  { eapply stored_forall; [|exact Hst|exact Ho]. intros r r' Hr' Hop. by rewrite (proj2 (stored_queue _ _ Hr')). }
  split_and!; [eexists _, _; split; [exact Hli|]| |done|done].
  { unfold compacted. cbn [stamped fmap list_fmap]. rewrite He.
    set (e := u64 _). unfold top_epoch. cbn [fold_left]. fold (top_epoch (Rec.erase <$> stamped env 1 live)).
    pose proof (u64_range (WAL.epoch w + 1)) as [He0 _]. fold e in He0.
    rewrite top_epoch_none by done. unfold stamp. simpl. destruct (0 <? e) eqn:Hlt; [done|]. lia. }
  rewrite (contents_is _ _ _ Hli).
  assert (delivered (Rec.erase <$> compacted w live env) = Rec.erase <$> stamped env 1 live) as ->; [|done].
  unfold compacted. cbn [stamped fmap list_fmap].
  rewrite <- (delivered_all (Rec.erase <$> stamped env 1 live)) at 2 by done.
  unfold stamp. simpl. done.
Qed.
End NewLog.

(** ** [CompactAll] *)

Section CompactAll.
Context `{JsonLaws} `{RangingLaws}.

(** The queues in the order the compaction visits them. *)
Definition visited (M : Manager) : list Queue := merge_sort (by_name name) (range (queues M)).*2.

Lemma visited_perm M : visited M ≡ₚ (map_to_list (queues M)).*2.
Proof. unfold visited. by rewrite merge_sort_Permutation, range_perm. Qed.

Lemma elem_visited M q : q ∈ visited M ↔ ∃ n, queues M !! n = Some q.
Proof.
  rewrite visited_perm, list_elem_of_fmap. split.
  - intros ([n q'] & -> & Hq%elem_of_map_to_list). eauto.
  - intros (n & Hq). exists (n, q). split; [done|]. by apply elem_of_map_to_list.
Qed.

Lemma visited_names M : (∀ n q, queues M !! n = Some q → name q = n) → NoDup (name <$> visited M).
Proof.
  intros Hn. rewrite visited_perm, <- list_fmap_compose.
  rewrite (list_fmap_ext _ fst); [apply NoDup_fst_map_to_list|].
  intros i [n q] Hi. apply list_elem_of_lookup_2, elem_of_map_to_list in Hi. simpl. by apply Hn.
Qed.

Lemma mapM_live qs : (∀ q, q ∈ qs → wf q) → mapM liveRecordsLocked qs = Some (queue_recs <$> qs).
Proof.
  induction qs as [|q qs IH]; intros Hwf; [done|]. cbn [mapM].
  rewrite liveRecordsLocked_ok by (apply Hwf; set_solver). simpl_bind.
  by rewrite IH by (intros q' Hq'; apply Hwf; set_solver).
Qed.

Lemma CompactAll_eq env M :
  (∀ n q, queues M !! n = Some q → wf q) →
  CompactAll env M =
    (let '(w, e) := Compact (all_recs (visited M)) env (wl_wal (wal M)) in
     Some (set_log (set_wal w (wal M)) M, e)).
Proof.
  intros Hwf. unfold CompactAll. fold (visited M). rewrite mapM_live; [done|].
  intros q (n & Hq)%elem_visited. by eapply Hwf.
Qed.
End CompactAll.
