(* ===== verification/ReplayOps.v ===== *)
(** * Historical replay, in two halves

    Collecting is a filter of the records behind the offset; publishing files
    one new message for every collected item, in order, until a write fails. *)

From Stdlib Require Import Strings.Byte.
From S2P Require Import Prelude ContainerHeap Msg Heaps LogStore Queue QueueInv QueueSpec QueueOps Bytes Encoding Wal WalOps Manager.

Implicit Types (q : Queue) (M : Manager) (n : string) (m : Msg) (found : list (string * Z)).

(** ** Collecting *)

(** What the replay of queue [n] takes from a record. *)
Definition wanted n (since : Time) (r : Rec) : option (string * Z) :=
  m ← Rec.Msg r;
  if bool_decide (Rec.Op r = OpEnqueue) && bool_decide (Rec.Queue r = n) &&
     (IsZero since || negb (Before (Msg.EnqueuedAt m) since))
  then Some (Msg.Body m, Msg.Priority m) else None.

Lemma replay_fn_wanted n since r off s :
  replay_fn n since r off s = Some ((s.1, s.2 ++ option_list (wanted n since r)), None).
Proof.
  unfold replay_fn, wanted. destruct s as [w acc]. simpl.
  destruct (Rec.Msg r); simpl; [|by rewrite app_nil_r].
  destruct (bool_decide (Rec.Op r = _)), (bool_decide (Rec.Queue r = n)), (IsZero since),
    (Before (Msg.EnqueuedAt t) since); simpl; by rewrite ?app_nil_r.
Qed.

Section Collect.
Context `{JsonLaws}.

Lemma feed_replay n since rs bodies off w acc :
  length rs = length bodies →
  ∃ off', feed (replay_fn n since) (sized rs bodies) off (w, acc) =
    Some ((WAL.set_epoch (top_epoch rs (WAL.epoch w)) w, acc ++ omap (wanted n since) (WalOps.delivered rs)),
      off', None).
Proof.
  revert bodies off w acc. induction rs as [|r rs IH]; intros [|b bodies] off w acc Hl; [|done|done|].
  { exists off. simpl. rewrite app_nil_r. by destruct w. }
  injection Hl as Hl. unfold sized. cbn [fmap list_fmap zip zip_with feed]. fold (sized rs bodies).
  unfold top_epoch. cbn [fold_left]. fold (top_epoch rs).
  change (WalOps.delivered (r :: rs)) with
    (if not_epoch r then r :: WalOps.delivered rs else WalOps.delivered rs).
  unfold not_epoch. case_bool_decide as Hop; cbn [negb andb].
  - unfold raise_epoch. cbn [wal_of pair_has_wal with_wal fst snd].
    destruct (WAL.epoch w <? Rec.Epoch r) eqn:He; [|by apply IH].
    destruct (IH bodies (off + (recHeader + Z.of_nat (length b))) (WAL.set_epoch (Rec.Epoch r) w) acc Hl)
      as [off' ->]. exists off'. by destruct w.
  - rewrite replay_fn_wanted. simpl_bind. cbn [fst snd].
    destruct (IH bodies (off + (recHeader + Z.of_nat (length b))) w (acc ++ option_list (wanted n since r)) Hl)
      as [off' ->]. exists off'. cbn [omap list_omap]. rewrite <- (assoc_L (++)).
    by destruct (wanted n since r).
Qed.

(** The scan of a replay whose offset is the start of a record. *)
Lemma scan_replay n since w pre post rs1 rs2 env :
  log_is w (pre ++ post) (rs1 ++ rs2) → readable pre rs1 → se_read env = None →
  Scan (replay_fn n since) (Z.of_nat (length (frames pre))) env (w, []) =
    Some ((WAL.set_epoch (top_epoch rs2 (WAL.epoch w)) w, omap (wanted n since) (WalOps.delivered rs2)), None).
Proof.
  intros Hli Hr1 Hrd. unfold Scan. rewrite (scan_boundary _ _ pre post rs1 rs2) by done.
  pose proof (li_readable _ _ _ Hli) as Hr.
  apply Forall2_app_inv in Hr as [_ Hr2]; [|by eapply Forall2_length].
  by destruct (feed_replay n since rs2 post (Z.of_nat (length (frames pre))) w []
    (eq_sym (Forall2_length _ _ _ Hr2))) as [off' ->].
Qed.

(** From any offset, of any file, the scan comes to an end and changes at most
    the epoch. *)
Lemma scan_replay_any n since from env w :
  ∃ e found err, Scan (replay_fn n since) from env (w, []) = Some (WAL.set_epoch e w, found, err).
Proof.
  assert (∀ fuel rd eof off w1 acc s r,
    scan_loop (replay_fn n since) fuel rd eof off (w1, acc) = Some (s, r) →
    ∃ e, s.1 = WAL.set_epoch e w1) as Hloop.
  { induction fuel as [|fuel IH]; intros rd eof off w1 acc s r; simpl; [done|].
    destruct (next_frame rd eof) as [|reason|rec k rd'];
      [intros [= <- _]; exists (WAL.epoch w1); by destruct w1..|].
    case_bool_decide.
    - unfold raise_epoch. cbn [wal_of pair_has_wal with_wal fst snd].
      destruct (WAL.epoch w1 <? Rec.Epoch rec); intros E; apply IH in E as [e E]; exists e; [|done].
      by rewrite E.
    - rewrite replay_fn_wanted. simpl_bind. cbn iota beta. intros E. by apply IH in E. }
  assert (∀ err : option error, ∃ e (found : list (string * Z)) (err' : option error),
    Some (w, @nil (string * Z), err) = Some (WAL.set_epoch e w, found, err')) as Hnone.
  { intros err. exists (WAL.epoch w), [], err. by destruct w. }
  unfold Scan, scan. destruct (from <? 0); [apply Hnone|].
  destruct (WAL.size _ <? from); [apply Hnone|]. destruct (from =? WAL.size _); [apply Hnone|].
  pose proof (reads_length env (section (wal_of (w, @nil (string * Z))) from)).
  destruct (scan_loop_total (replay_fn n since) (S (length (section (wal_of (w, @nil (string * Z))) from)))
    (reads env (section (wal_of (w, @nil (string * Z))) from)).1
    (reads env (section (wal_of (w, @nil (string * Z))) from)).2 from (w, [])) as [[[w' found] r] E].
  - intros. rewrite replay_fn_wanted. by eexists.
  - lia.
  - rewrite E. simpl_bind. apply Hloop in E as [e E]. simpl in E. subst w'. destruct r; by eexists _, _, _.
Qed.

(** The first half of a replay, from any bookmark: the queues and the bytes of
    the log stay. *)
Lemma Replay_collect_frame n bm since env M :
  ∃ M' r, Replay_collect n bm since env M = Some (M', r) ∧ queues M' = queues M ∧
    ∃ e, M' = set_log (set_wal (WAL.set_epoch e (wl_wal (wal M))) (wal M)) M.
Proof.
  assert (∃ e, M = set_log (set_wal (WAL.set_epoch e (wl_wal (wal M))) (wal M)) M) as Hid.
  { exists (WAL.epoch (wl_wal (wal M))). by destruct M as [? [[] ?] ? ?]. }
  unfold Replay_collect, Get. destruct (queues M !! n); [|by eexists _, _].
  unfold Bookmark. destruct (_ && _); [by eexists _, _|].
  change (@found_has_wal) with (@pair_has_wal (list (string * Z))).
  destruct (scan_replay_any n since (Bookmark.Offset bm) env (wl_wal (wal M)))
    as (e & found & err & E). rewrite E. simpl_bind. cbn iota beta.
  eexists _, _. split; [done|]. split; [done|]. by exists e.
Qed.

(** The first half of a replay whose bookmark is good. *)
Lemma Replay_collect_ok n bm since env M pre post rs1 rs2 :
  let w := wl_wal (wal M) in
  is_Some (queues M !! n) → log_is w (pre ++ post) (rs1 ++ rs2) → readable pre rs1 →
  Bookmark.Offset bm = Z.of_nat (length (frames pre)) →
  (Bookmark.Offset bm = 0 ∨ Bookmark.Epoch bm = WAL.epoch w) → se_read env = None →
  Replay_collect n bm since env M =
    Some (set_log (set_wal (WAL.set_epoch (top_epoch rs2 (WAL.epoch w)) w) (wal M)) M,
      Ok (omap (wanted n since) (WalOps.delivered rs2))).
Proof.
  intros w [q Hq] Hli Hr Eo Hep Hrd. unfold Replay_collect, Get. rewrite Hq. unfold Bookmark. cbv zeta. fold w.
  assert ((0 <? Bookmark.Offset bm) && bool_decide (Bookmark.Epoch bm ≠ WAL.epoch w) = false) as ->.
  { destruct Hep as [->|Ee]; [done|]. rewrite andb_false_iff. right. apply bool_decide_false. by intros []. }
  rewrite Eo. change (@found_has_wal) with (@pair_has_wal (list (string * Z))).
  by rewrite (scan_replay n since w pre post rs1 rs2 env Hli Hr Hrd).
Qed.
End Collect.

(** ** Publishing *)

(** The messages the items become, the first of them the [i]-th call of
    [Enqueue] and numbered [s]. *)
Fixpoint republished found (i : nat) (s : Z) (now : nat → Time) (rnd : nat → list byte) :
    list (place * Msg) :=
  match found with
  | [] => []
  | (body, priority) :: found =>
      let m := new_msg body priority 0 (now i) (rnd i) s in
      (In (gate m (now i)), m) :: republished found (S i) (s + 1) now rnd
  end.

Lemma republished_length found i s now rnd : length (republished found i s now rnd) = length found.
Proof. revert i s. induction found as [|[b p] found IH]; intros i s; [done|]. simpl. by rewrite IH. Qed.

(** The state of a queue after [k] of the items were published. *)
Record published_in (new : list (place * Msg)) (k : nat) (e : option error) q q' : Prop := {
  pi_wf : wf q';
  pi_cfg : cfg q' = cfg q;
  pi_count : (k ≤ length new)%nat;
  pi_all : e = None ↔ k = length new;
  pi_seq : seq q + Z.of_nat k ≤ seq q' ≤ seq q + Z.of_nat k + 1;
  pi_msgs : ∃ xs, length xs = k ∧ NoDup xs ∧ (∀ x, x ∈ xs → abs q !! x = None) ∧
    abs q' = list_to_map (zip xs (take k new)) ∪ abs q;
}.

Lemma published_none new e q q' :
  wf q' → cfg q' = cfg q → abs q' = abs q → (e = None ↔ new = []) → seq q ≤ seq q' ≤ seq q + 1 →
  published_in new 0 e q q'.
Proof.
  intros Hwf Hc Ha He Hs. split; [done|done|lia| |lia|].
  - rewrite He. destruct new; simpl; naive_solver.
  - exists []. split_and!; [done|constructor|by intros ? ?%not_elem_of_nil|]. simpl. by rewrite map_empty_union.
Qed.

Lemma published_cons v new k e q q1 q' x :
  abs q !! x = None → abs q1 = <[x := v]> (abs q) → cfg q1 = cfg q → seq q1 = seq q + 1 →
  published_in new k e q1 q' → published_in (v :: new) (S k) e q q'.
Proof.
  intros Hx Ea Ec Es [H1 H2 H3 H4 H5 (xs & Hl & Hnd & Hf & Em)].
  split; [done|congruence|simpl; lia| |lia|].
  - rewrite H4. simpl. lia.
  - exists (x :: xs). assert (x ∉ xs) as Hn.
    { intros Hin%Hf. by rewrite Ea, lookup_insert_eq in Hin. }
    assert (∀ y, y ∈ xs → x ≠ y) as Hne by (intros y Hy ->; done).
    split_and!; [simpl; lia|by constructor| |].
    + intros y [->|Hy]%elem_of_cons; [done|]. specialize (Hf y Hy).
      rewrite Ea, lookup_insert_ne in Hf; [done|by apply Hne].
    + rewrite Em, Ea. simpl. rewrite <- insert_union_l, <- insert_union_r; [done|].
      apply not_elem_of_list_to_map_1. intros Hin. apply Hn.
      apply list_elem_of_fmap in Hin as ([y w] & -> & Hin). by apply elem_of_zip_l in Hin.
Qed.

Section Publish.
Context `{Json} `{Ranging} (envs : nat → wenv).
#[local] Instance replay_log : Log wlog := wal_log envs.

Lemma Replay_publish_ok n now rnd found : ∀ i p M q,
  queues M !! n = Some q → wf q → 0 ≤ seq q → seq q + Z.of_nat (length found) < two64 →
  ∃ M' q' k e, Replay_publish envs n found i now rnd p M = Some (M', (p + Z.of_nat k, e)) ∧
    queues M' = <[n := q']> (queues M) ∧
    published_in (republished found i (seq q + 1) now rnd) k e q q'.
Proof.
  induction found as [|[body prio] found IH]; intros i p M q Hq Hwf Hs Hb.
  { exists M, q, 0%nat, None. rewrite Z.add_0_r, insert_id by done. split_and!; [done..|].
    apply published_none; [done..|lia]. }
  cbn [length] in Hb. cbn [Replay_publish republished]. unfold on_queue. rewrite Hq. simpl_bind.
  change (manager_log envs) with replay_log.
  destruct (decide (accepts q prio)) as [Ha|Ha].
  - destruct (Enqueue_ok body prio 0 (now i) (rnd i) q (wal M)) as
      (q1 & res & E & Hwf1 & Hx & Ec & Es & _ & _ & _ & Hres); [done..|lia|].
    rewrite E. simpl_bind. cbv zeta in Hres. destruct (snd _) as [e|].
    + destruct Hres as (-> & Ea & _). eexists _, q1, 0%nat, (Some e). rewrite Z.add_0_r.
      split_and!; [done..|]. apply published_none; [done..|lia].
    + destruct Hres as (m' & -> & _ & Ea & _). set (M1 := set_queues _ _).
      destruct (IH (S i) (p + 1) M1 q1) as (M' & q' & k & e & E' & Eq & Hp);
        [apply lookup_insert_eq|done|lia|lia|].
      exists M', q', (S k), e. rewrite E'. split_and!.
      * do 3 f_equal. lia.
      * rewrite Eq. simpl. apply insert_insert_eq.
      * eapply published_cons; [done|exact Ea|done|done|]. by rewrite <- Es.
  - rewrite Enqueue_disabled by done. simpl_bind.
    eexists _, q, 0%nat, (Some ErrPriorityDisabled). rewrite Z.add_0_r. split_and!; [done..|].
    apply published_none; [done..|lia].
Qed.
End Publish.
