(* ===== verification/ManagerRun.v ===== *)
(** * Runs of a manager

    Creations, calls on its queues, compactions and restarts, in any order.
    [healthy] is the invariant of the runs in which no write failed: in every
    queue, memory and log agree. *)

From Stdlib Require Import Strings.Byte.
From S2P Require Import Prelude ContainerHeap Msg Heaps LogStore Queue QueueInv QueueSpec QueueOps QueueReceive Calls Bytes Encoding Wal WalOps Manager Recovery Restore ManagerOps CompactOps ReplayOps.

Implicit Types (q : Queue) (M : Manager) (T : Time) (n : string).

(** ** Calls *)

(** [MFlush] is one firing of the group-commit ticker, [MCollect] the reading
    half of a historical replay, whose other half is calls of [Enqueue].  The
    process that ends in a restart had written the bytes [cut] of one more record
    by then, where the log ends. *)
Inductive mcall :=
  | MCreate (c : Config)
  | MCall (n : string) (k : call)
  | MCompact (env : cenv)
  | MFlush (sync : option error)
  | MCollect (n : string) (bm : Bookmark.t) (since : Time) (env : senv)
  | MRestart (cut : bytes) (syncEvery tick : Duration) (now : string → Time).

Inductive mresponse :=
  | MQueue (r : result Queue)
  | MCalled (r : result response)
  | MDone (e : option error).

(** The bytes of the records written so far. *)
Definition on_file (M : Manager) : bytes :=
  take (Z.to_nat (WAL.size (wl_wal (wal M)))) (cache (WAL.f (wl_wal (wal M)))).

(** What the next process finds at the path: the whole file, with the bytes that
    failed writes left behind the end of the log, [cut] over them. *)
Definition in_path (M : Manager) (cut : bytes) : bytes :=
  let w := wl_wal (wal M) in
  match WAL.orphan w with
  | Some f => cache f
  | None => overwrite (cache (WAL.f w)) (Z.to_nat (WAL.size w)) cut
  end.

(** The part of it that is not the log. *)
Definition behind (M : Manager) (cut : bytes) : bytes :=
  drop (Z.to_nat (WAL.size (wl_wal (wal M)))) (in_path M cut).

Section Runs.
Context `{JsonLaws} `{RangingLaws} (envs : nat → wenv).
#[local] Instance run_log : Log wlog := wal_log envs.
#[local] Instance run_laws : LogLaws wlog := wal_laws envs.

Definition quiet_scan : senv := SEnv None None None.

Definition mexec (mc : mcall) (M : Manager) : option (Manager * mresponse) :=
  match mc with
  | MCreate c => let '(M, r) := Create envs c M in Some (M, MQueue r)
  | MCall n k =>
      match Get n M with
      | Err e => Some (M, MCalled (Err e))
      | Ok _ => '(M, r) ← on_queue n (exec k) M; Some (M, MCalled (Ok r))
      end
  | MCompact env => '(M, e) ← CompactAll env M; Some (M, MDone e)
  | MFlush sync => Some (set_log (set_wal (flush sync (wl_wal (wal M))) (wal M)) M, MDone None)
  | MCollect n bm since env => '(M, _) ← Replay_collect n bm since env M; Some (M, MDone None)
  | MRestart cut syncEvery tick now =>
      r ← Open syncEvery tick (OEnv (Ok (in_path M cut)) quiet_scan now) (wl_step (wal M));
      Some match r with
           | Ok M' => (M', MDone None)
           | Err e => (M, MDone (Some e))
           end
  end.

(** What is asked of the environment: identifiers do not repeat, texts and times
    can be written down, the clock of a call is at most [T], and a restart's
    clock is not behind any earlier reading and its file does not go on with a
    whole record. *)
Definition mserves (T0 T : Time) (mc : mcall) (M : Manager) : Prop :=
  match mc with
  | MCreate c => config_safe c = true
  | MCall n k => ∀ q, queues M !! n = Some q → admissible k q ∧ serves (steady T) k q
  | MCompact _ | MFlush _ | MCollect _ _ _ _ => True
  | MRestart cut _ _ now => torn cut ∧ ∀ n, T0 ≤ now n ≤ T
  end.

(** The caller was told of no failure. *)
Definition mflawless (mc : mcall) (M : Manager) (r : mresponse) (M' : Manager) : Prop :=
  match mc, r with
  | MCreate _, MQueue (Err _) => M' = M
  | MCall n k, MCalled (Ok r) =>
      ∀ q q', queues M !! n = Some q → queues M' !! n = Some q' → flawless q k r q' = true
  | MCompact _, MDone (Some _) => M' = M
  | _, _ => True
  end.

(** ** The invariant *)

(** A queue, as the log [l] and the manager have it. *)
Record queue_ok (T : Time) (l : list Rec) (n : string) (q : Queue) : Prop := {
  qo_wf : wf q;
  qo_name : name q = n;
  qo_mirrors : mirrors T (seq q) (abs q) (stage n l);
  qo_safe : safe (abs q);
  qo_created : created n l = Some (cfg q);
  qo_config : config_safe (cfg q) = true;
  qo_normal : cfg (New (cfg q)) = cfg q;
  qo_seq : 0 ≤ seq q < two64;
}.

(** What the log says of a queue that does not exist. *)
Definition unknown_ok (l : list Rec) (n : string) : Prop :=
  created n l = None ∧ s_live (stage n l) = ∅ ∧ s_dlq (stage n l) = ∅ ∧ s_maxSeq (stage n l) = 0.

Record healthy (T : Time) (M : Manager) : Prop := {
  hy_log : log_ok (wal M);
  hy_trim : trim (wl_wal (wal M));
  hy_queue n q : queues M !! n = Some q → queue_ok T (log (wal M)) n q;
  hy_unknown n : queues M !! n = None → unknown_ok (log (wal M)) n;
}.

Lemma queue_ok_le T T' l n q : T ≤ T' → queue_ok T l n q → queue_ok T' l n q.
Proof. intros HT []. split; try done. by eapply mirrors_le. Qed.

Lemma healthy_le T T' M : T ≤ T' → healthy T M → healthy T' M.
Proof. intros HT []. split; try done. intros n q Hq. eapply queue_ok_le; eauto. Qed.

(** Records of one queue leave the others as they are. *)
Lemma queue_ok_continues T l l' n n' q :
  n ≠ n' → continues n l l' → queue_ok T l n' q → queue_ok T l' n' q.
Proof.
  intros Hne (rs & -> & Hrs) []. split; try done.
  - rewrite stage_other; [done|]. eapply Forall_impl; [exact Hrs|]. simpl. intros r [-> _]. done.
  - by apply created_mono.
Qed.

Lemma unknown_ok_continues l l' n n' : n ≠ n' → continues n l l' → unknown_ok l n' → unknown_ok l' n'.
Proof.
  intros Hne (rs & -> & Hrs) Hun. unfold unknown_ok.
  rewrite stage_other, created_none; [done|..]; (eapply Forall_impl; [exact Hrs|]); simpl; intros r [E _].
  - left. congruence.
  - congruence.
Qed.

(** Where the log ends, the file goes on with what lies behind. *)
Lemma in_path_split M bodies rs cut :
  log_is (wl_wal (wal M)) bodies rs → WAL.orphan (wl_wal (wal M)) = None →
  in_path M cut = frames bodies ++ behind M cut.
Proof.
  intros Hli Ho. unfold behind, in_path. rewrite Ho.
  rewrite (li_size _ _ _ Hli), Nat2Z.id. rewrite <- (li_bytes _ _ _ Hli) at 2.
  rewrite <- (overwrite_prefix (cache (WAL.f (wl_wal (wal M)))) _ cut) by by eapply li_length.
  by rewrite take_drop.
Qed.

Lemma behind_trim M cut : trim (wl_wal (wal M)) → behind M cut = cut.
Proof.
  intros [Hs Ho]. unfold behind, in_path. rewrite Ho, Hs, Nat2Z.id, overwrite_end. apply drop_app_length.
Qed.

Lemma on_file_is M bodies rs : log_is (wl_wal (wal M)) bodies rs → on_file M = frames bodies.
Proof. intros Hli. unfold on_file. rewrite (li_size _ _ _ Hli), Nat2Z.id. apply Hli. Qed.

(** The log of a call whose writes succeeded. *)
Lemma exec_trim T k q w q' w' r :
  wf q → admissible k q → serves (steady T) k q → exec k q w = Some (q', w', r) → flawless q k r q' = true →
  trim (wl_wal w) → trim (wl_wal w').
Proof.
  intros Hwf Hk Hs E Hfl. destruct (exec_ok k q w Hwf Hk) as (q1 & w1 & r1 & E1 & _ & _ & Hst).
  rewrite E in E1. simplify_eq.
  apply (asteps_wrote (cfg q) (steady T) (λ w, trim (wl_wal w)) (absq q w) (absq q1 w1)); [done| |].
  - intros r d v v' Hv. simpl. destruct (wal_write r d _ _) as [v1 e1] eqn:Ew. intros [= <- ->].
    by eapply wal_write_trim.
  - apply Hst; [done|]. intros e He. by apply He.
Qed.

Lemma wal_storable_all r : Rec.Op r ≠ OpEpoch → json_safe r = true → storable r.
Proof. by split. Qed.

Lemma config_safe_name c : config_safe c = true → utf8 (Config.Name c) = true.
Proof. unfold config_safe. rewrite !andb_true_iff. tauto. Qed.

(** ** Calls on a queue *)

Lemma exec_seq k q w q' w' r :
  wf q → admissible k q → exec k q w = Some (q', w', r) → 0 ≤ seq q < two64 → 0 ≤ seq q' < two64.
Proof.
  intros Hwf Hk E Hs. destruct (exec_ok k q w Hwf Hk) as (q1 & w1 & r1 & E1 & _ & _ & Hst).
  rewrite E in E1. simplify_eq.
  specialize (Hst anything (serves_anything k q) (reports_anything _ _ _ _)).
  assert (∀ a a' : ast wlog, asteps (cfg q) anything a a' → 0 ≤ a_seq a < two64 → 0 ≤ a_seq a' < two64) as Hinv.
  { clear. induction 1 as [|a1 a2 a3 Hstep _ IH]; [done|]. intros Ha. apply IH. inversion Hstep; subst; simpl in *; try done.
    apply u64_range. }
  by apply (Hinv _ _ Hst).
Qed.

Lemma healthy_call T M n k q q' w' r :
  healthy T M → queues M !! n = Some q → admissible k q → serves (steady T) k q →
  exec k q (wal M) = Some (q', w', r) → flawless q k r q' = true →
  healthy T (set_queues (<[n := q']> (queues M)) (set_log w' M)).
Proof.
  intros Hh Hq Hk Hserve E Hfl. pose proof (hy_queue _ _ Hh n q Hq) as Hqo.
  destruct (exec_ok k q (wal M) (qo_wf _ _ _ _ Hqo) Hk) as (q1 & w1 & r1 & E1 & Hwf' & Ec & Hst).
  rewrite E in E1. simplify_eq.
  assert (name q = n) as En by apply (qo_name _ _ _ _ Hqo).
  destruct (asteps_agree T (cfg q) wal_storable_all (config_safe_name _ (qo_config _ _ _ _ Hqo))
    (absq q (wal M)) (absq q1 w1)) as [(Hok & Hm & Hs) Hcont].
  - split_and!; simpl; [apply (hy_log _ _ Hh)| |apply (qo_safe _ _ _ _ Hqo)].
    fold (name q). rewrite En. apply (qo_mirrors _ _ _ _ Hqo).
  - apply Hst; [done|]. intros e He. by apply He.
  - simpl in Hm, Hs, Hcont, Hok. fold (name q) in Hm, Hcont. rewrite En in Hm, Hcont.
    split; simpl; [done|eapply (exec_trim T k q (wal M) q1 w1 r1); [apply Hqo|done..|apply (hy_trim _ _ Hh)]|..].
    + intros n' q' Hq'. destruct (decide (n = n')) as [<-|Hne].
      * rewrite lookup_insert_eq in Hq'. injection Hq' as <-. destruct Hqo. split; try done; try congruence.
        -- unfold name in *. congruence.
        -- destruct Hcont as (rs & -> & _). rewrite Ec. by apply created_mono.
        -- exact (exec_seq k q (wal M) q1 w1 r1 qo_wf0 Hk E qo_seq0).
      * rewrite lookup_insert_ne in Hq' by done.
        eapply queue_ok_continues; [done..|]. by apply (hy_queue _ _ Hh).
    + intros n' Hn'. destruct (decide (n = n')) as [<-|Hne]; [by rewrite lookup_insert_eq in Hn'|].
      rewrite lookup_insert_ne in Hn' by done.
      eapply unknown_ok_continues; [done..|]. by apply (hy_unknown _ _ Hh).
Qed.

(** ** Creation *)

Lemma New_normal c : cfg (New (cfg (New c))) = cfg (New c).
Proof.
  unfold New. simpl. repeat case_bool_decide; simpl in *; repeat case_match; simpl in *; try done; lia.
Qed.

Lemma New_name c : name (New c) = Config.Name c.
Proof. unfold New, name. simpl. repeat case_bool_decide; repeat case_match; done. Qed.

Lemma New_safe c : config_safe c = true → config_safe (cfg (New c)) = true.
Proof.
  unfold New, config_safe. simpl. rewrite !andb_true_iff. intros (((H1' & H2') & H3') & H4').
  repeat case_bool_decide; repeat case_match; simpl; done.
Qed.

(** The creation record, read back. *)
Lemma create_back c r' n l :
  Config.Name c = n → stored (Rec.of_config OpCreateQueue n (cfg (New c)) 0) r' →
  unknown_ok l n → stage n (l ++ [r']) = stage n l ∧ created n (l ++ [r']) = Some (cfg (New c)).
Proof.
  intros <- [a ->] (Hc & _ & _ & Hm). split.
  - rewrite stage_snoc. unfold stage_on. rewrite bool_decide_true by done.
    unfold stage_step. simpl. unfold bump. by rewrite Hm.
  - rewrite created_app, Hc. simpl. by rewrite bool_decide_true.
Qed.

Lemma mirrors_unknown T l n : unknown_ok l n → mirrors T 0 ∅ (stage n l).
Proof.
  intros (_ & E1 & E2 & E3). eapply mirrors_seq; [apply (mirrors_empty T)|..]; by rewrite ?E1, ?E2, ?E3.
Qed.

Lemma healthy_created T M c w :
  healthy T M → config_safe c = true → queues M !! Config.Name c = None →
  AppendSync (Rec.of_config OpCreateQueue (Config.Name c) (cfg (New c)) 0) (wal M) = (w, None) →
  healthy T (set_queues (<[Config.Name c := New c]> (queues M)) (set_log w M)).
Proof.
  intros Hh Hc Hnone E. set (n := Config.Name c) in *. pose proof (hy_log _ _ Hh) as Hok.
  assert (storable (Rec.of_config OpCreateQueue n (cfg (New c)) 0)) as Hst.
  { apply wal_storable_all; [done|].
    apply safe_rec_config; [done|by apply config_safe_name|by apply New_safe|done]. }
  destruct (write_ok _ _ _ _ Hok Hst E) as (r' & Hr & El).
  pose proof (write_log_ok (Rec.of_config OpCreateQueue n (cfg (New c)) 0) true _ Hok Hst) as Hok'.
  unfold AppendSync in E. rewrite E in Hok'.
  destruct (stored_queue _ _ Hr) as [Er _]. pose proof (hy_unknown _ _ Hh n Hnone) as Hun.
  destruct (create_back c r' n (log (wal M)) eq_refl Hr Hun) as [Es Ecr].
  assert (∀ n', n ≠ n' → Forall (λ r, Rec.Queue r ≠ n') [r']) as Hoth.
  { intros n' Hne. constructor; [|constructor]. by rewrite Er. }
  assert (trim (wl_wal w)) as Htr.
  { simpl in E. destruct (wal_write _ _ _ _) as [v1 e1] eqn:Ew. injection E as <- ->.
    eapply wal_write_trim; [done|apply (hy_trim _ _ Hh)]. }
  split; simpl; [done|done|..]; change (contents (wl_wal w)) with (log w); rewrite El.
  - intros n' q Hq. destruct (decide (n = n')) as [<-|Hne].
    + rewrite lookup_insert_eq in Hq. injection Hq as <-. split.
      * apply New_wf.
      * apply New_name.
      * rewrite Es, New_abs. by apply mirrors_unknown.
      * rewrite New_abs. by intros x P m Hx%lookup_empty_Some.
      * done.
      * by apply New_safe.
      * apply New_normal.
      * done.
    + rewrite lookup_insert_ne in Hq by done. destruct (hy_queue _ _ Hh _ _ Hq). split; try done.
      * rewrite stage_other; [done|by apply Hoth].
      * by apply created_mono.
  - intros n' Hn'. destruct (decide (n = n')) as [<-|Hne]; [by rewrite lookup_insert_eq in Hn'|].
    rewrite lookup_insert_ne in Hn' by done. pose proof (hy_unknown _ _ Hh _ Hn') as Hu.
    unfold unknown_ok. rewrite stage_other, created_none; [done| |by apply Hoth].
    eapply Forall_impl; [by apply Hoth|]. intros r Hx. by left.
Qed.

Lemma healthy_create T M c :
  healthy T M → config_safe c = true →
  let '(M', r) := Create envs c M in
  match r with Err _ => M' = M | Ok _ => True end → healthy T M'.
Proof.
  intros Hh Hc. unfold Create. case_bool_decide; [done|].
  destruct (containsAny _ _); [done|]. destruct (bool_decide _ && _); [done|].
  destruct (queues M !! Config.Name c) eqn:Hnone; [done|].
  destruct (AppendSync _ _) as [w [e|]] eqn:E; [by intros ->|]. intros _. by apply healthy_created.
Qed.

(** ** Compaction *)

Lemma unknown_ok_silent l n : Forall (λ r, Rec.Queue r ≠ n) l → unknown_ok l n.
Proof. intros [E1 E2]%others_silent. unfold unknown_ok. by rewrite E1, E2. Qed.

(** A queue without what the log has of it: enough for its compaction. *)
Record queue_sound (T : Time) (n : string) (q : Queue) : Prop := {
  qs_wf : wf q;
  qs_name : name q = n;
  qs_mirrors : ∃ st, mirrors T (seq q) (abs q) st;
  qs_safe : safe (abs q);
  qs_config : config_safe (cfg q) = true;
  qs_normal : cfg (New (cfg q)) = cfg q;
  qs_seq : 0 ≤ seq q < two64;
}.

Lemma queue_ok_sound T l n q : queue_ok T l n q → queue_sound T n q.
Proof. intros []. split; try done. by eexists. Qed.

(** What a compaction writes can be written. *)
Lemma visited_safe T M :
  (∀ n q, queues M !! n = Some q → queue_sound T n q) →
  Forall (λ r, json_safe r = true) (all_recs (visited M)) ∧
  Forall (λ r, Rec.Op r ≠ OpEpoch) (all_recs (visited M)).
Proof.
  intros Hq. unfold all_recs. split; apply Forall_concat, Forall_fmap, Forall_forall;
    intros q (n & Hin)%elem_visited; pose proof (Hq n q Hin) as Hqs.
  - apply queue_recs_safe; apply Hqs.
  - eapply Forall_impl; [apply queue_recs_queue|]. by intros r [_ ?].
Qed.

(** A compaction that succeeds brings memory and log together, whatever failed
    before it. *)
Lemma compact_heals T M env M' :
  (∀ n q, queues M !! n = Some q → queue_sound T n q) →
  CompactAll env M = Some (M', None) → healthy T M'.
Proof.
  intros Hs. pose proof (visited_safe T M Hs) as [Hjs Hop].
  assert (∀ n q, queues M !! n = Some q → name q = n) as Hname by (intros n q Hq; apply (Hs n q Hq)).
  rewrite CompactAll_eq by (intros n q Hq; apply (Hs n q Hq)).
  destruct (Compact _ env (wl_wal (wal M))) as [w e] eqn:E. intros [= <- ->].
  pose proof (Compact_trim _ _ _ _ E) as Htr.
  apply Compact_contents in E as ((bodies & rs & Hok & _) & Hrs & _); [|done..]. split; simpl; [eauto|done|..].
  - intros n q Hq. destruct (Hs n q Hq) as [? <- [st Hm] ? ? ? ?].
    destruct (all_back T q st (visited M) (contents w)) as [Hm' Hc];
      [done|done|done|lia|apply elem_visited; eauto|by apply visited_names|done|]. by split.
  - intros n Hn. apply unknown_ok_silent. apply (stored_other (visited M)); [|done].
    intros q (n' & Hq)%elem_visited. rewrite (Hname _ _ Hq). congruence.
Qed.

Lemma healthy_sound T M n q : healthy T M → queues M !! n = Some q → queue_sound T n q.
Proof. intros Hh Hq. by eapply queue_ok_sound, (hy_queue _ _ Hh). Qed.

(** A [Nack] whose record could not be written, on a message that is not due
    for the dead letter queue. *)
Lemma failed_nack T M n q r x m delay now M1 e :
  healthy T M → queues M !! n = Some q → leases q !! r = Some x → mem q !! x = Some m →
  exhausted (cfg q) m = false →
  mexec (MCall n (CNack r delay now)) M = Some (M1, MCalled (Ok (RErr (Some e)))) →
  ∃ q', queues M1 = <[n := q']> (queues M) ∧ queue_sound T n q' ∧ abs q' = delete x (abs q).
Proof.
  intros Hh Hq Hl Hm Hex. destruct (hy_queue _ _ Hh n q Hq) as [Hwf Hn Hmi Hsafe _ Hc Hnorm Hs].
  destruct (Nack_ok r delay now q (wal M) x m Hwf Hl Hm)
    as (q' & w' & e' & m1 & _ & _ & E & Hwf' & Ec & Es & Ea & _).
  simpl. unfold Get, on_queue. rewrite Hq. simpl. rewrite E. simpl. intros [= <- ->].
  exists q'. split; [done|].
  assert (abs q' = delete x (abs q)) as Ed.
  { rewrite Ea. apply map_eq. intros y. destruct (decide (x = y)) as [<-|Hne].
    - rewrite lookup_partial_alter_eq, lookup_delete_eq. unfold retry_place.
      change (exhausted (cfg q) (unlease m)) with (exhausted (cfg q) m). by rewrite Hex.
    - by rewrite lookup_partial_alter_ne, lookup_delete_ne. }
  split; [|done]. destruct (receipt_lookup q r x Hwf Hl) as (m' & _ & _ & _ & Hx).
  split; rewrite ?Ec, ?Es; try done.
  - unfold name in *. by rewrite Ec.
  - rewrite Ed. eexists. by eapply mirrors_delete.
  - rewrite Ed. intros y P m2 [_ Hy]%lookup_delete_Some. by eapply Hsafe.
Qed.

Lemma healthy_compact T M env M' :
  healthy T M → CompactAll env M = Some (M', None) → healthy T M'.
Proof. intros Hh. apply compact_heals. intros n q. by apply healthy_sound. Qed.

(** ** Restart *)

(** What a restart at [now] leaves of a queue. *)
Record queue_reborn (now : Time) (q q' : Queue) : Prop := {
  qr_wf : wf q';
  qr_cfg : cfg q' = cfg q;
  qr_seq : seq q' = seq q;
  qr_leases : leases q' = ∅;
  qr_msgs : reborn now (abs q) (abs q');
}.

(** The same queues under the same names, and nothing else. *)
Definition manager_reborn (now : string → Time) (M M' : Manager) : Prop :=
  (∀ n q, queues M !! n = Some q → ∃ q', queues M' !! n = Some q' ∧ queue_reborn (now n) q q') ∧
  (∀ n, queues M !! n = None → queues M' !! n = None).

(** One recovered queue meets the invariant again. *)
Lemma restart_queue T l now n q :
  queue_ok T l n q → T ≤ now →
  ∃ q', restore (sort_by_seq (pick_msgs false (stage n l))) (sort_by_seq (pick_msgs true (stage n l)))
      (s_maxSeq (stage n l)) now (New (cfg q)) = Some q' ∧
    queue_ok now l n q' ∧ queue_reborn now q q'.
Proof.
  intros [] HT. destruct (restored_ok T now q (stage n l) (cfg q)) as (q' & E & Hwf' & Ef & Hm' & Hs' & Hr);
    [done..|lia|].
  assert (cfg q' = cfg q) as Ec.
  { rewrite <- qo_normal0. change (cfg (New (cfg q))) with (cfg (set_seq (seq q) (New (cfg q)))).
    framed. }
  assert (seq q' = seq q) as Es.
  { change (seq q) with (seq (set_seq (seq q) (New (cfg q)))). framed. }
  assert (leases q' = ∅) as El.
  { change (∅ : gmap string loc) with (leases (set_seq (seq q) (New (cfg q)))). framed. }
  exists q'. split_and!; [done| |by split].
  split; rewrite ?Es, ?Ec; try done. unfold name in *. congruence.
Qed.

Lemma install_restart T T' M rs now :
  healthy T M → log (wal M) = delivered rs → (∀ n, T ≤ now n ≤ T') →
  ∃ qs, install (range (r_pending (rebuilt rs))) now (r_queues (rebuilt rs)) = Some (Ok qs) ∧
    (∀ n q, queues M !! n = Some q → ∃ q', qs !! n = Some q' ∧
       queue_ok T' (log (wal M)) n q' ∧ queue_reborn (now n) q q') ∧
    ∀ n, queues M !! n = None → qs !! n = None.
Proof.
  intros Hh El Hnow. set (X := rebuilt rs). set (pending := range (r_pending X)).
  assert (∀ n st, (n, st) ∈ pending → st = stage n (log (wal M))) as Hst.
  { intros n st Hin. unfold pending in Hin. rewrite range_perm in Hin. apply elem_of_map_to_list in Hin.
    rewrite El, <- (recover_all_staged _ (OpenWAL [] 0)). fold (rebuilt rs). fold X. unfold staged.
    by rewrite Hin. }
  assert (∀ n, r_queues X !! n = New <$> created n (log (wal M))) as Hqs.
  { intros n. unfold X, rebuilt. by rewrite recover_all_queues, El. }
  assert (∀ n q, queues M !! n = Some q → r_queues X !! n = Some (New (cfg q))) as Hsome.
  { intros n q Hq. by rewrite Hqs, (qo_created _ _ _ _ (hy_queue _ _ Hh n q Hq)). }
  assert (∀ n, queues M !! n = None → r_queues X !! n = None) as Hnone.
  { intros n Hn. rewrite Hqs. by destruct (hy_unknown _ _ Hh n Hn) as [-> _]. }
  destruct (install_ok pending now (r_queues X)) as (qs & E & Ho & Hi).
  - unfold pending. rewrite range_perm. apply NoDup_fst_map_to_list.
  - intros n st Hin Hn. rewrite (Hst _ _ Hin). destruct (queues M !! n) as [q|] eqn:Hq.
    + rewrite (Hsome _ _ Hq) in Hn. done.
    + by destruct (hy_unknown _ _ Hh n Hq) as (_ & ? & ? & _).
  - intros n st q0 Hin Hn. rewrite (Hst _ _ Hin). destruct (queues M !! n) as [q|] eqn:Hq.
    + rewrite (Hsome _ _ Hq) in Hn. injection Hn as <-.
      destruct (restart_queue T _ (now n) n q (hy_queue _ _ Hh n q Hq)) as (q' & -> & _); [apply Hnow|done].
    + by rewrite (Hnone _ Hq) in Hn.
  - exists qs. split_and!; [done| |].
    + intros n q Hq. assert (is_Some (r_pending X !! n)) as [st Hp].
      { apply recover_all_pending. rewrite <- El, (qo_created _ _ _ _ (hy_queue _ _ Hh n q Hq)). done. }
      assert ((n, st) ∈ pending) as Hin.
      { unfold pending. rewrite range_perm. by apply elem_of_map_to_list. }
      destruct (restart_queue T _ (now n) n q (hy_queue _ _ Hh n q Hq)) as (q' & E' & Hqo & Hr); [apply Hnow|].
      exists q'. rewrite (Hi _ _ Hin), (Hsome _ _ Hq), (Hst _ _ Hin). split_and!; [done| |done].
      eapply queue_ok_le; [|done]. apply Hnow.
    + intros n Hn. destruct (r_pending X !! n) as [st|] eqn:Hp.
      * rewrite (Hi n st), (Hnone _ Hn); [done|]. unfold pending. rewrite range_perm.
        by apply elem_of_map_to_list.
      * rewrite Ho; [by apply Hnone|]. intros ([n' st] & -> & Hin)%list_elem_of_fmap.
        unfold pending in Hin. rewrite range_perm in Hin. apply elem_of_map_to_list in Hin. simpl in Hp. congruence.
Qed.

Lemma restart_ok T T' M tl sy tick now :
  healthy T M → torn tl → (∀ n, T ≤ now n ≤ T') →
  ∃ M', mexec (MRestart tl sy tick now) M = Some (M', MDone None) ∧ healthy T' M' ∧
    manager_reborn now M M' ∧ log (wal M') = log (wal M) ∧
    disk (WAL.f (wl_wal (wal M'))) = on_file M.
Proof.
  intros Hh Ht Hnow. pose proof (hy_log _ _ Hh) as (bodies & rs & Hli).
  pose proof (in_path_split M bodies rs tl Hli (proj2 (hy_trim _ _ Hh))) as Ef.
  rewrite (behind_trim _ _ (hy_trim _ _ Hh)) in Ef.
  assert (log (wal M) = delivered rs) as El by exact (contents_is _ _ _ Hli).
  destruct (recover_ok bodies rs tl sy now (li_readable _ _ _ Hli) Ht)
    as (w' & Hli' & Hc & Hd & _ & _ & _ & Ho & Erec).
  destruct (install_restart T T' M rs now Hh El Hnow) as (qs & Ei & Hq & Hn).
  simpl. unfold Open. simpl. rewrite Ef. unfold quiet_scan. rewrite Erec, Ei. simpl.
  eexists. split; [done|]. assert (contents w' = log (wal M)) as El'.
  { by rewrite (contents_is _ _ _ Hli'). }
  split_and!; simpl; [|split|done|by rewrite (on_file_is _ _ _ Hli)].
  - split; simpl; [eauto|by split; [rewrite Hc; apply Hli'|]|..]; rewrite El'.
    + intros n q' Hq'. destruct (queues M !! n) as [q|] eqn:E; [|by rewrite (Hn _ E) in Hq'].
      destruct (Hq n q E) as (q1 & E1 & Hqo & _). by simplify_eq.
    + intros n Hn'. destruct (queues M !! n) as [q|] eqn:E.
      * destruct (Hq n q E) as (q1 & E1 & _). congruence.
      * by apply (hy_unknown _ _ Hh).
  - intros n q E. destruct (Hq n q E) as (q' & E' & _ & Hr). eauto.
  - done.
Qed.

(** ** Reachability *)

(** [mreach T M]: a manager opened on an empty file gets to [M] by calls that
    were all served and reported no failure, with every clock at most [T]. *)
Inductive mreach : Time → Manager → Prop :=
  | mr_open T sy tick now M :
      Open sy tick (OEnv (Ok []) quiet_scan now) 0 = Some (Ok M) → mreach T M
  | mr_step T0 T M mc M' r :
      mreach T0 M → T0 ≤ T → mserves T0 T mc M → mexec mc M = Some (M', r) →
      mflawless mc M r M' → mreach T M'.

Lemma healthy_open T sy tick now M :
  Open sy tick (OEnv (Ok []) quiet_scan now) 0 = Some (Ok M) → healthy T M.
Proof.
  destruct (recover_ok [] [] [] sy now) as (w' & Hli & Hc & _ & _ & _ & _ & Ho & E); [constructor|done|].
  unfold Open. simpl. unfold quiet_scan. simpl in E. rewrite E. unfold rebuilt. simpl.
  assert (range (A := staging) ∅ = []) as ->.
  { apply Permutation_nil_r. rewrite range_perm. by rewrite map_to_list_empty. }
  simpl. intros [= <-]. split; simpl.
  - eauto.
  - split; [|done]. rewrite Hc. apply Hli.
  - by intros n q ?%lookup_empty_Some.
  - intros n _. by rewrite (contents_is _ _ _ Hli).
Qed.

(** Steps that leave the queues alone and the bytes of the log where they are. *)
Lemma healthy_same_log T M M' :
  healthy T M → queues M' = queues M →
  WAL.size (wl_wal (wal M')) = WAL.size (wl_wal (wal M)) →
  cache (WAL.f (wl_wal (wal M'))) = cache (WAL.f (wl_wal (wal M))) →
  WAL.orphan (wl_wal (wal M')) = WAL.orphan (wl_wal (wal M)) → healthy T M'.
Proof.
  intros Hh Eq Es Ec Eo. destruct (hy_log _ _ Hh) as (bodies & rs & Hli).
  assert (log_is (wl_wal (wal M')) bodies rs) as Hli' by by eapply log_is_ext.
  assert (log (wal M') = log (wal M)) as El.
  { transitivity (delivered rs); [|symmetry]; by apply contents_is with bodies. }
  split; rewrite ?Eq, ?El.
  - by exists bodies, rs.
  - split; rewrite ?Es, ?Ec, ?Eo; apply (hy_trim _ _ Hh).
  - apply (hy_queue _ _ Hh).
  - apply (hy_unknown _ _ Hh).
Qed.

Lemma flush_bytes sync (w : WAL) :
  WAL.size (flush sync w) = WAL.size w ∧ cache (WAL.f (flush sync w)) = cache (WAL.f w) ∧
  WAL.orphan (flush sync w) = WAL.orphan w.
Proof. unfold flush. destruct (WAL.dirty w); [|done]. by destruct sync; simpl; [destruct (WAL.failed w)|]. Qed.

Lemma mexec_healthy T0 T mc M M' r :
  healthy T0 M → T0 ≤ T → mserves T0 T mc M → mexec mc M = Some (M', r) → mflawless mc M r M' →
  healthy T M'.
Proof.
  intros Hh0 HT Hs E Hf. pose proof (healthy_le _ _ _ HT Hh0) as Hh. destruct mc as [c|n k|env|sync|n bm since env|tl sy tick now].
  - simpl in E. pose proof (healthy_create T M c Hh Hs) as Hc.
    destruct (Create envs c M) as [M1 r1]. injection E as <- <-. apply Hc. by destruct r1.
  - simpl in E. unfold Get, on_queue in E. destruct (queues M !! n) as [q|] eqn:Hq; [|by injection E as <- <-].
    simpl in E. destruct (exec k q (wal M)) as [[[q' w'] r1]|] eqn:Ex; [|done]. injection E as <- <-.
    destruct (Hs q Hq) as [Hk Hserve]. eapply healthy_call; [done..|].
    apply (Hf q q' Hq). simpl. apply lookup_insert_eq.
  - simpl in E. destruct (CompactAll env M) as [[M1 e]|] eqn:Ec; [|done]. injection E as <- <-.
    destruct e; [by rewrite Hf|by eapply healthy_compact].
  - injection E as <- _. destruct (flush_bytes sync (wl_wal (wal M))) as (? & ? & ?). by apply (healthy_same_log T M).
  - simpl in E. destruct (Replay_collect_frame n bm since env M) as (M1 & r1 & E1 & Eq & e & Ew).
    rewrite E1 in E. injection E as <- _. apply (healthy_same_log T M); [done..| | |]; by rewrite Ew.
  - destruct Hs as [Ht Hnow]. destruct (restart_ok T0 T M tl sy tick now Hh0 Ht Hnow) as (M1 & E1 & Hh1 & _).
    by simplify_eq.
Qed.

(** Deciding the side conditions, for concrete runs. *)
Definition steadyb (T : Time) (k : call) (q : Queue) : bool :=
  let ok t := json_time t && (t <=? T) in
  match k with
  | CEnqueue body priority delay now rnd =>
      ok now && msg_safe (new_msg body priority delay now rnd (seq q + 1)) &&
      bool_decide (map_Forall (λ _ v, Msg.ID v.2 ≠ newID rnd) (abs q))
  | CTryReceive _ vis now _ => ok now && json_time (Add now 0) && json_time (Add now vis)
  | CAck _ => true
  | CExtend _ vis now => json_time (Add now (effective q vis))
  | CNack _ delay now => ok now && json_time (Add now delay)
  | CTick now => ok now && json_time (Add now 0)
  | CReplayDLQ now => ok now
  end.

Lemma steadyb_ok T k q : steadyb T k q = true → serves (steady T) k q.
Proof.
  destruct k; simpl; rewrite ?andb_true_iff, ?Z.leb_le; try by intros. all: try tauto.
  intros [[Hn Hm] Hid%bool_decide_eq_true]. split; [done|]. split; [done|]. intros x v Hv. by apply (Hid x v).
Qed.

Definition mserved (T : Time) (mc : mcall) (M : Manager) : bool :=
  match mc with
  | MCreate c => config_safe c
  | MCall n k =>
      match queues M !! n with Some q => admissibleb k q && steadyb T k q | None => true end
  | MCompact _ | MFlush _ | MCollect _ _ _ _ => true
  | MRestart _ _ _ _ => false
  end.

Lemma mserved_ok T0 T mc M : mserved T mc M = true → mserves T0 T mc M.
Proof.
  destruct mc as [c|n k|env|sync|n bm since env|tl sy tick now]; simpl; try done. intros Hs q Hq. rewrite Hq in Hs.
  apply andb_true_iff in Hs as [H1' H2']. split; [by apply admissibleb_ok|by apply steadyb_ok].
Qed.

Definition munfailed (mc : mcall) (M : Manager) (r : mresponse) (M' : Manager) : bool :=
  match mc, r with
  | MCreate _, MQueue (Err _) | MCompact _, MDone (Some _) => false
  | MCall n k, MCalled (Ok r) =>
      match queues M !! n, queues M' !! n with
      | Some q, Some q' => flawless q k r q'
      | _, _ => true
      end
  | _, _ => true
  end.

Lemma munfailed_ok mc M r M' : munfailed mc M r M' = true → mflawless mc M r M'.
Proof.
  destruct mc as [c|n k|env|sync|n bm since env|tl sy tick now], r as [[]|[]|[]]; simpl; try done.
  intros Hf q q' Hq Hq'. by rewrite Hq, Hq' in Hf.
Qed.

(** A list of calls, each with a bound on the clock; [None] when one of them is
    not served, panics, or reports a failure. *)
Fixpoint mrun (calls : list (Time * mcall)) (T0 : Time) (M : Manager) : option (Time * Manager) :=
  match calls with
  | [] => Some (T0, M)
  | (T, mc) :: calls =>
      if (T0 <=? T) && mserved T mc M then
        '(M', r) ← mexec mc M;
        if munfailed mc M r M' then mrun calls T M' else None
      else None
  end.

Lemma mrun_reach calls T0 M T M' : mreach T0 M → mrun calls T0 M = Some (T, M') → mreach T M'.
Proof.
  revert T0 M. induction calls as [|[T1 mc] calls IH]; intros T0 M Hr; simpl; [by intros [= <- <-]|].
  destruct (T0 <=? T1) eqn:HT; [|done]. cbn [andb]. apply Z.leb_le in HT.
  destruct (mserved T1 mc M) eqn:Hs; [|done].
  intros ([M1 r] & E & Hrun)%bind_Some. cbn iota beta in Hrun.
  destruct (munfailed mc M r M1) eqn:Hf; [|done]. apply (IH T1 M1); [|done].
  eapply mr_step; [exact Hr|exact HT|by apply mserved_ok|exact E|by apply munfailed_ok].
Qed.

Lemma mreach_healthy T M : mreach T M → healthy T M.
Proof.
  induction 1 as [T sy tick now M E|T0 T M mc M' r _ IH HT Hs E Hf]; [by eapply healthy_open|].
  by eapply mexec_healthy.
Qed.
End Runs.
