(* ===== verification/Compacted.v ===== *)
(** * A manager after a compaction

    Its log is the records of its queues and a new epoch: how many they are,
    what a restart and a replay of it find. *)

From Stdlib Require Import Strings.Byte.
From S2P Require Import Prelude ContainerHeap Msg Heaps LogStore Queue QueueInv QueueSpec QueueOps QueueReceive Calls Bytes Encoding Wal WalOps Manager Recovery Restore ManagerOps CompactOps ManagerRun ReplayOps.

Implicit Types (q : Queue) (M : Manager) (T : Time) (n : string) (x : loc).

(** ** Counting *)

(** One record per queue and per message, and one more per dead letter. *)
Definition queue_cost q : nat :=
  S (length (items (ready q)) + length (items (delayed q)) + length (items (inflight q)) + 2 * length (dlq q)).

Lemma recs_at_length n mem P l :
  length (recs_at n mem P l) = (length l * match P with Dead => 2 | _ => 1 end)%nat.
Proof.
  unfold recs_at. induction l as [|x l IH]; [done|]. cbn [fmap list_fmap concat].
  rewrite length_app, IH. destruct P; simpl; lia.
Qed.

Lemma queue_recs_length q : length (queue_recs q) = queue_cost q.
Proof.
  unfold queue_recs, queue_cost. cbn [length]. rewrite !length_app, !recs_at_length. lia.
Qed.

Lemma all_recs_length qs : length (all_recs qs) = sum_list_with queue_cost qs.
Proof.
  unfold all_recs. induction qs as [|q qs IH]; [done|]. cbn [fmap list_fmap concat sum_list_with].
  by rewrite length_app, IH, queue_recs_length.
Qed.

(** ** Replaying *)

(** What a message is replayed as. *)
Definition payload (mem : store) (x : loc) : string * Z :=
  (Msg.Body (content mem x), Msg.Priority (content mem x)).

Definition all_locs q : list loc :=
  items (ready q) ++ items (delayed q) ++ items (inflight q) ++ dlq q.

Lemma wanted_stored n r r' : stored r r' → wanted n zeroTime r' = wanted n zeroTime r.
Proof. intros [a ->]. unfold wanted. simpl. by destruct (Rec.Msg r). Qed.

Lemma omap_stored n rs rs' :
  Forall2 stored rs rs' → omap (wanted n zeroTime) rs' = omap (wanted n zeroTime) rs.
Proof.
  induction 1 as [|r r' rs rs' Hr _ IH]; [done|]. cbn [omap list_omap].
  by rewrite (wanted_stored n r r' Hr), IH.
Qed.

Lemma wanted_recs_at n mem P l : omap (wanted n zeroTime) (recs_at n mem P l) = payload mem <$> l.
Proof.
  unfold recs_at. induction l as [|x l IH]; [done|]. cbn [fmap list_fmap concat].
  rewrite omap_app, IH. unfold place_recs, wanted at 1. simpl. rewrite bool_decide_true by done.
  by destruct P.
Qed.

Lemma wanted_queue_recs q : omap (wanted (name q) zeroTime) (queue_recs q) = payload (mem q) <$> all_locs q.
Proof.
  unfold queue_recs, all_locs. cbn [omap list_omap]. unfold wanted at 1. simpl.
  by rewrite !omap_app, !wanted_recs_at, !fmap_app.
Qed.

Lemma wanted_other n rs : Forall (λ r, Rec.Queue r ≠ n) rs → omap (wanted n zeroTime) rs = [].
Proof.
  induction 1 as [|r rs Hr _ IH]; [done|]. cbn [omap list_omap]. rewrite IH. unfold wanted.
  destruct (Rec.Msg r); [|done]. simpl. by rewrite (bool_decide_false (Rec.Queue r = n)), andb_false_r.
Qed.

Lemma wanted_all_recs qs q :
  q ∈ qs → NoDup (name <$> qs) →
  omap (wanted (name q) zeroTime) (all_recs qs) = payload (mem q) <$> all_locs q.
Proof.
  intros Hq Hnd. apply list_elem_of_split in Hq as (l1 & l2 & ->).
  rewrite fmap_app, fmap_cons in Hnd. apply NoDup_app in Hnd as (_ & Hd & Hnd).
  apply NoDup_cons in Hnd as [Hn2 _].
  unfold all_recs. rewrite fmap_app, fmap_cons, concat_app. cbn [concat].
  rewrite !omap_app. fold (all_recs l1). fold (all_recs l2).
  rewrite (wanted_other _ (all_recs l1)), (wanted_other _ (all_recs l2)), wanted_queue_recs, app_nil_r; [done|..];
    apply all_recs_queue; intros q' Hq' E.
  - apply Hn2. rewrite <- E. apply list_elem_of_fmap. eauto.
  - apply (Hd (name q')); [apply list_elem_of_fmap; eauto|]. rewrite E. set_solver.
Qed.

(** ** The compaction as a step of the manager *)

Section Compacted.
Context `{JsonLaws} `{RangingLaws} (envs : nat → wenv).

Lemma CompactAll_ok env M M' :
  CompactAll env M = Some (M', None) →
  ∃ live w, Compact live env (wl_wal (wal M)) = (w, None) ∧ M' = set_log (set_wal w (wal M)) M.
Proof.
  unfold CompactAll. intros (live & _ & E)%bind_Some.
  destruct (Compact _ env _) as [w e] eqn:Ec. injection E as <- ->. eauto.
Qed.

Lemma CompactAll_epoch env M M' :
  CompactAll env M = Some (M', None) →
  queues M' = queues M ∧ WAL.epoch (wl_wal (wal M')) = u64 (WAL.epoch (wl_wal (wal M)) + 1).
Proof.
  intros (live & w & E & ->)%CompactAll_ok. split; [done|]. simpl.
  pose proof (Compact_cases live env (wl_wal (wal M))) as Hc. rewrite E in Hc.
  destruct Hc as [[? _]|(bodies & rs & f & _ & _ & _ & _ & _ & _ & _ & _ & He & _)]; done.
Qed.

(** The log of the new epoch. *)
Lemma CompactAll_log T env M M' :
  (∀ n q, queues M !! n = Some q → queue_sound T n q) →
  CompactAll env M = Some (M', None) →
  ∃ bodies rs, log_is (wl_wal (wal M')) bodies rs ∧ top_epoch rs 0 = WAL.epoch (wl_wal (wal M')) ∧
    Forall2 stored (all_recs (visited M)) (WalOps.delivered rs).
Proof.
  intros Hs. pose proof (visited_safe T M Hs) as [Hjs Hop].
  rewrite CompactAll_eq by (intros n q Hq; apply (Hs n q Hq)).
  destruct (Compact _ env (wl_wal (wal M))) as [w e] eqn:E. intros [= <- ->]. simpl.
  apply Compact_contents in E as ((bodies & rs & Hli & He) & Hrs & _); [|done..].
  exists bodies, rs. rewrite <- (contents_is _ _ _ Hli). done.
Qed.

(** A restart reads the epoch from the log. *)
Lemma restart_epoch M M' bodies rs tl sy tick now :
  log_is (wl_wal (wal M)) bodies rs → trim (wl_wal (wal M)) → torn tl →
  mexec envs (MRestart tl sy tick now) M = Some (M', MDone None) →
  log_is (wl_wal (wal M')) bodies rs ∧ WAL.epoch (wl_wal (wal M')) = top_epoch rs 0.
Proof.
  intros Hli Htr Ht. destruct (recover_ok bodies rs tl sy now (li_readable _ _ _ Hli) Ht)
    as (w' & Hli' & _ & _ & He & _ & _ & _ & Erec).
  pose proof (in_path_split M bodies rs tl Hli (proj2 Htr)) as Ef. rewrite (behind_trim _ _ Htr) in Ef.
  simpl. unfold Open. simpl. rewrite Ef. unfold quiet_scan. rewrite Erec.
  destruct (install _ _ _) as [[qs|e]|]; simpl; [|done..]. by intros [= <-].
Qed.
End Compacted.

(** ** Epochs along a run *)

Section Walk.
Context `{JsonLaws} `{RangingLaws} (envs : nat → wenv).
#[local] Instance walk_log : Log wlog := wal_log envs.

Definition epoch_of (M : Manager) : Z := WAL.epoch (wl_wal (wal M)).

(** A bookmark of this epoch names the start of a record, as those the log hands
    out do; and there are fewer than 2 to the 64 compactions. *)
Definition marked (mc : mcall) (M : Manager) : Prop :=
  match mc with
  | MCollect _ bm _ env =>
      se_read env = None ∧
      (Bookmark.Offset bm = 0 ∨ Bookmark.Epoch bm ≠ epoch_of M ∨
       ∃ pre post rs1 rs2, log_is (wl_wal (wal M)) (pre ++ post) (rs1 ++ rs2) ∧ readable pre rs1 ∧
         Bookmark.Offset bm = Z.of_nat (length (frames pre)))
  | MCompact _ => epoch_of M < two64 - 1
  | _ => True
  end.

(** From one state of a manager to a later one, without a failure. *)
Inductive walk (T0 : Time) (M0 : Manager) : Time → Manager → Prop :=
  | wk_refl : walk T0 M0 T0 M0
  | wk_step T1 M1 T2 mc M2 r :
      walk T0 M0 T1 M1 → T1 ≤ T2 → mserves T1 T2 mc M1 → marked mc M1 →
      mexec envs mc M1 = Some (M2, r) → mflawless mc M1 r M2 → walk T0 M0 T2 M2.

Lemma walk_trans T0 M0 T1 M1 T2 M2 : walk T0 M0 T1 M1 → walk T1 M1 T2 M2 → walk T0 M0 T2 M2.
Proof. intros Hw. induction 1; [done|]. by eapply wk_step. Qed.

(** What a walk keeps. *)
Record dated (T : Time) (M : Manager) : Prop := {
  da_healthy : healthy envs T M;
  da_logged : epoch_logged (wl_wal (wal M));
  da_range : 0 ≤ epoch_of M < two64;
}.

Lemma dated_open T sy tick now M :
  Open sy tick (OEnv (Ok []) quiet_scan now) 0 = Some (Ok M) → dated T M.
Proof.
  intros E. pose proof (healthy_open envs T sy tick now M E) as Hh.
  destruct (recover_ok [] [] [] sy now) as (w' & Hli & _ & _ & He & _ & _ & _ & Er); [constructor|done|].
  unfold Open in E. simpl in E. unfold quiet_scan in E. simpl in Er. rewrite Er in E.
  destruct (install _ _ _) as [[qs|x]|]; [|discriminate E..]. simpl in E. injection E as <-.
  split; [done|exists [], []; simpl; by rewrite He|]. unfold epoch_of. simpl. rewrite He. by vm_compute.
Qed.

(** A log that is as it was, its epoch too. *)
Lemma logged_same (w w' : WAL) :
  epoch_logged w → WAL.size w' = WAL.size w → cache (WAL.f w') = cache (WAL.f w) → WAL.epoch w' = WAL.epoch w →
  epoch_logged w'.
Proof. intros (bodies & rs & Hli & E) Es Ec Ee. exists bodies, rs. rewrite Ee. by split; [eapply log_is_ext|]. Qed.

Lemma exec_epoch T k n q M q' w' r :
  dated T M → queues M !! n = Some q → admissible k q → serves (steady T) k q →
  exec k q (wal M) = Some (q', w', r) → flawless q k r q' = true →
  epoch_logged (wl_wal w') ∧ WAL.epoch (wl_wal w') = epoch_of M.
Proof.
  intros [Hh Hl _] Hq Hk Hs E Hfl. pose proof (hy_queue _ _ _ Hh n q Hq) as Hqo.
  destruct (exec_ok k q (wal M) (qo_wf _ _ _ _ Hqo) Hk) as (q1 & w1 & r1 & E1 & _ & _ & Hst).
  rewrite E in E1. injection E1 as <- <- <-. assert (name q = n) as En by apply (qo_name _ _ _ _ Hqo). split.
  - destruct (asteps_agree (H0 := epoch_laws envs) T (cfg q) (wal_storable_all envs)
      (config_safe_name _ (qo_config _ _ _ _ Hqo)) (absq q (wal M)) (absq q' w')) as [(Hok & _) _]; [| |exact Hok].
    + split_and!; simpl; [done| |apply (qo_safe _ _ _ _ Hqo)].
      fold (name q). rewrite En. apply (qo_mirrors _ _ _ _ Hqo).
    + apply Hst; [done|]. intros e He. by apply He.
  - specialize (Hst anything (serves_anything k q) (reports_anything _ _ _ _)).
    apply (asteps_log (cfg q) anything (λ w, WAL.epoch (wl_wal w) = epoch_of M) _ _) in Hst; [done| |done].
    intros rec d v v' e <-. simpl.
    pose proof (wal_write_epoch rec d (envs (wl_step v)) (wl_wal v)) as Hw.
    destruct (wal_write rec d _ _) as [v1 e1]. by intros [= <- _].
Qed.

Lemma create_epoch T M c :
  dated T M → config_safe c = true →
  let '(M', r) := Create envs c M in
  epoch_logged (wl_wal (wal M')) ∧ epoch_of M' = epoch_of M.
Proof.
  intros [Hh Hl _] Hc. unfold Create. case_bool_decide; [done|].
  destruct (containsAny _ _); [done|]. destruct (bool_decide _ && _); [done|].
  destruct (queues M !! Config.Name c); [done|]. set (rec := Rec.of_config _ _ _ _).
  assert (storable (LogLaws := wal_laws envs) rec) as Hst.
  { apply wal_storable_all; [done|].
    apply safe_rec_config; [done|by apply config_safe_name|by apply New_safe|done]. }
  pose proof (write_epoch_logged envs rec true (wal M) Hst Hl) as Hw.
  pose proof (wal_write_epoch rec true (envs (wl_step (wal M))) (wl_wal (wal M))) as He.
  unfold AppendSync. simpl in Hw |- *. destruct (wal_write rec true _ _) as [w1 [e|]]; simpl in *; done.
Qed.

Lemma collect_epoch n bm since env M M' r :
  marked (MCollect n bm since env) M → epoch_logged (wl_wal (wal M)) →
  Replay_collect n bm since env M = Some (M', r) → epoch_of M' = epoch_of M.
Proof.
  intros [Hrd Hm] (bodies & rs & Hli & He) E. unfold epoch_of in *. destruct (Z.ltb_spec (Bookmark.Offset bm) 0) as [Hneg|Hpos].
  { unfold Replay_collect in E. destruct (Get n M); [|by injection E as <- _]. unfold Bookmark in E. simpl in E.
    rewrite (proj2 (Z.ltb_ge 0 _)) in E by lia. unfold Scan, scan in E.
    rewrite (proj2 (Z.ltb_lt _ 0)) in E by lia. by injection E as <- _. }
  destruct (decide (0 < Bookmark.Offset bm ∧ Bookmark.Epoch bm ≠ WAL.epoch (wl_wal (wal M)))) as [[Hp Hne]|Hfresh].
  { unfold Replay_collect in E. destruct (Get n M); [|by injection E as <- _]. unfold Bookmark in E. simpl in E.
    rewrite (proj2 (Z.ltb_lt 0 _)), bool_decide_true in E by done. by injection E as <- _. }
  assert (∃ pre post rs1 rs2, log_is (wl_wal (wal M)) (pre ++ post) (rs1 ++ rs2) ∧ readable pre rs1 ∧
    Bookmark.Offset bm = Z.of_nat (length (frames pre))) as (pre & post & rs1 & rs2 & Hli' & Hr & Eo).
  { destruct (decide (Bookmark.Offset bm = 0)) as [Hz|Hnz]; [exists [], bodies, [], rs; split_and!; [done|constructor|done]|].
    destruct Hm as [Hz|[Hne|Hb]]; [lia|exfalso; apply Hfresh; split; [lia|done]|done]. }
  destruct (queues M !! n) as [q|] eqn:Hq.
  - rewrite (Replay_collect_ok n bm since _ M pre post rs1 rs2) in E; [|by eexists|done|done|done| |done].
    + injection E as <- _. simpl. destruct (log_is_unique _ _ _ _ _ Hli Hli') as [_ ->].
      rewrite <- He. apply top_epoch_suffix.
    + destruct (decide (Bookmark.Offset bm = 0)); [by left|right]. apply dec_stable. intros Hne. apply Hfresh.
      split; [lia|done].
  - unfold Replay_collect, Get in E. rewrite Hq in E. by injection E as <- _.
Qed.

(** Every step keeps it, and no step lowers the epoch. *)
Lemma dated_step T0 T mc M M' r :
  dated T0 M → T0 ≤ T → mserves T0 T mc M → marked mc M → mexec envs mc M = Some (M', r) → mflawless mc M r M' →
  dated T M' ∧ epoch_of M ≤ epoch_of M'.
Proof.
  intros Hd HT Hs Hm E Hf. pose proof Hd as [Hh0 Hl Hb].
  pose proof (mexec_healthy envs T0 T mc M M' r Hh0 HT Hs E Hf) as Hh'.
  pose proof (healthy_le _ _ _ _ HT Hh0) as Hh.
  enough (epoch_logged (wl_wal (wal M')) ∧ (epoch_of M' = epoch_of M ∨ epoch_of M < epoch_of M' < two64)) as [? ?].
  { split; [split; [done..|]|]; lia. }
  destruct mc as [c|n k|env|sync|n bm since env|tl sy tick now]; simpl in E.
  - pose proof (create_epoch T0 M c Hd Hs) as Hc. destruct (Create envs c M) as [M1 r1]. injection E as <- _.
    destruct Hc. auto.
  - unfold Get, on_queue in E. destruct (queues M !! n) as [q|] eqn:Hq; [|injection E as <- _; auto].
    simpl in E. destruct (exec k q (wal M)) as [[[q' w'] r1]|] eqn:Ex; [|done]. injection E as <- <-.
    destruct (Hs q Hq) as [Hk Hserve].
    destruct (exec_epoch T k n q M q' w' r1) as [? ?]; [by split|done..| |by auto].
    apply (Hf q q' Hq). simpl. apply lookup_insert_eq.
  - destruct (CompactAll env M) as [[M1 e]|] eqn:Ec; [|done]. injection E as <- <-.
    destruct e as [e|]; [rewrite Hf; auto|]. destruct (CompactAll_epoch env M M1 Ec) as [_ Ee].
    destruct (CompactAll_log T env M M1) as (bodies & rs & Hli & Hep & _); [intros n q; by eapply healthy_sound|done|].
    split; [by exists bodies, rs|]. right. unfold epoch_of in *. rewrite Ee. simpl in Hm. unfold epoch_of in Hm.
    rewrite u64_id by (unfold in_u64; lia). lia.
  - injection E as <- _. destruct (flush_bytes sync (wl_wal (wal M))) as (? & ? & _).
    assert (WAL.epoch (flush sync (wl_wal (wal M))) = epoch_of M) as Ee.
    { unfold flush, epoch_of. destruct (WAL.dirty _); [|done]. by destruct sync; simpl; [destruct (WAL.failed _)|]. }
    split; [by eapply logged_same|by left].
  - destruct (Replay_collect n bm since env M) as [[M1 r1]|] eqn:Er; [|done]. injection E as <- _.
    pose proof (collect_epoch n bm since env M M1 r1 Hm Hl Er) as Ee.
    destruct (Replay_collect_frame n bm since env M) as (M2 & r2 & E2 & _ & e & Ew). rewrite Er in E2.
    injection E2 as <- _. split; [|by left]. eapply logged_same; [exact Hl|by rewrite Ew..|exact Ee].
  - destruct Hs as [Ht Hnow]. pose proof Hl as (bodies & rs & Hli & He).
    destruct (restart_ok envs T0 T M tl sy tick now Hh0 Ht Hnow) as (M1 & E1 & Hh1 & _ & El & Ed).
    assert (M1 = M' ∧ r = MDone None) as [-> ->] by (simpl in E1; rewrite E1 in E; by injection E).
    destruct (restart_epoch envs M M' bodies rs tl sy tick now Hli (hy_trim _ _ _ Hh0) Ht E1) as [Hli' Ee].
    split; [by exists bodies, rs|left; unfold epoch_of; congruence].
Qed.

Lemma dated_walk T0 M0 T M : dated T0 M0 → walk T0 M0 T M → dated T M ∧ epoch_of M0 ≤ epoch_of M.
Proof.
  intros Hd. induction 1 as [|T1 M1 T2 mc M2 r _ [IH Hle] HT Hs Hm E Hf]; [done|].
  destruct (dated_step _ _ _ _ _ _ IH HT Hs Hm E Hf). split; [done|lia].
Qed.

(** A compaction that succeeds on the way raises it. *)
Lemma dated_compaction T M env M' :
  dated T M → epoch_of M < two64 - 1 → CompactAll env M = Some (M', None) →
  dated T M' ∧ epoch_of M < epoch_of M'.
Proof.
  intros Hd Hlt E. destruct (dated_step T T (MCompact env) M M' (MDone None)) as [Hd' _]; try done.
  { simpl. by rewrite E. }
  split; [done|]. destruct (CompactAll_epoch env M M' E) as [_ Ee]. pose proof (da_range _ _ Hd).
  unfold epoch_of in *. rewrite Ee, u64_id by (unfold in_u64; lia). lia.
Qed.
End Walk.
