(* ===== verification/Faults.v ===== *)
(** * Runs in which writes fail

    Any write of the log may fail, and a failed write may or may not have
    reached the file, so memory and log part ways.  What remains true of the
    log: a message it holds stays in it until an ack of that message, and what
    it holds can be installed again. *)

From S2P Require Import Prelude ContainerHeap Msg Heaps LogStore Queue QueueInv QueueSpec QueueOps Calls Encoding Wal Manager Recovery.

Implicit Types (m u : Msg) (A : amsgs) (st : staging) (x y : loc).

(** A staged queue that can be restored: identifiers are the keys, sequence
    numbers differ and do not exceed the counter, and the counter not [top]. *)
Record sane (top : Z) (st : staging) : Prop := {
  sn_top : 0 ≤ s_maxSeq st ≤ top;
  sn_key i u : s_live st !! i = Some u → Msg.ID u = i ∧ Msg.Seq u ≤ s_maxSeq st;
  sn_seq i j u v : s_live st !! i = Some u → s_live st !! j = Some v → Msg.Seq u = Msg.Seq v → i = j;
}.

(** The message [id] with its body is in the log. *)
Definition saved (id body : string) (st : staging) : Prop :=
  ∃ u, s_live st !! id = Some u ∧ Msg.Body u = body.

(** The world: times and new texts can be written, anything may fail; nobody
    acknowledges the message [id], and no new identifier is equal to it. *)
Definition careless (id : string) : world := {|
  clock t := json_time t = true;
  instant t := json_time t = true;
  outcome _ := True;
  admits _ m := msg_safe m = true ∧ Msg.ID m ≠ id;
  releases m := Msg.ID m ≠ id;
|}.

Lemma sane_le top top' st : top ≤ top' → sane top st → sane top' st.
Proof. intros Ht []. split; [lia|done|done]. Qed.

(** ** What each record does *)

Section Records.
Context (id body : string).

(** What keeps a message's identity. *)
Definition gentle (f : Msg → Msg) : Prop :=
  ∀ u, Msg.ID (f u) = Msg.ID u ∧ Msg.Seq (f u) = Msg.Seq u ∧ Msg.Body (f u) = Msg.Body u.

Lemma on_live_back f st i j w :
  gentle f → s_live (on_live i f st) !! j = Some w →
  ∃ u, s_live st !! j = Some u ∧ Msg.ID w = Msg.ID u ∧ Msg.Seq w = Msg.Seq u.
Proof.
  intros Hf. unfold on_live. destruct (s_live st !! i) as [v|] eqn:Hi; [|by exists w]. simpl.
  rewrite lookup_insert. case_decide as Hj; [subst j; intros [= <-]; exists v; by destruct (Hf v) as (? & ? & _)|by exists w].
Qed.

Lemma sane_live top st i f : gentle f → sane top st → sane top (on_live i f st).
Proof.
  intros Hf [H1 H2 H3].
  assert (s_maxSeq (on_live i f st) = s_maxSeq st) as Em by (unfold on_live; by destruct (s_live st !! i)).
  split; rewrite ?Em; [done|..].
  - intros j w (u & Hu & -> & ->)%on_live_back; [by apply H2|done].
  - intros j k w1 w2 (u1 & Hu1 & _ & ->)%on_live_back (u2 & Hu2 & _ & ->)%on_live_back; [by apply H3|done..].
Qed.

Lemma saved_live st i f : gentle f → saved id body st → saved id body (on_live i f st).
Proof.
  intros Hf (u & Hu & Hb). unfold on_live. destruct (s_live st !! i) as [v|] eqn:Hi; [|by exists u].
  unfold saved. simpl. destruct (decide (i = id)) as [->|Hne].
  - exists (f v). rewrite lookup_insert_eq. split; [done|]. simplify_eq. by destruct (Hf u) as (_ & _ & ->).
  - exists u. by rewrite lookup_insert_ne.
Qed.

Lemma sane_ack top st i : sane top st → sane top (set_live (delete i (s_live st)) st).
Proof.
  intros [H1 H2 H3]. split; simpl; [done|..].
  - intros j w [_ Hw]%lookup_delete_Some. by apply H2.
  - intros j k w1 w2 [_ Hw1]%lookup_delete_Some [_ Hw2]%lookup_delete_Some. by apply H3.
Qed.

Lemma saved_ack st i : i ≠ id → saved id body st → saved id body (set_live (delete i (s_live st)) st).
Proof. intros Hi (u & Hu & Hb). exists u. split; [|done]. simpl. by rewrite lookup_delete_ne. Qed.

Lemma enqueue_bump top st m :
  top < Msg.Seq m → sane top st →
  bump (set_live (<[Msg.ID m := Msg.erase m]> (s_live st)) st) (Msg.Seq m) =
    Staging (<[Msg.ID m := Msg.erase m]> (s_live st)) (s_dlq st) (Msg.Seq m).
Proof. intros Hs [H1 _ _]. unfold bump. simpl. by rewrite (proj2 (Z.ltb_lt _ _)) by lia. Qed.

Lemma sane_enqueue top st m :
  top < Msg.Seq m → sane top st →
  sane (Msg.Seq m) (Staging (<[Msg.ID m := Msg.erase m]> (s_live st)) (s_dlq st) (Msg.Seq m)).
Proof.
  intros Hs [H1 H2 H3]. split; simpl; [lia|..].
  - intros j w. rewrite lookup_insert. case_decide as Hj; [subst j; by intros [= <-]|].
    intros [-> ?]%H2. split; [done|lia].
  - intros j k w1 w2. rewrite !lookup_insert. repeat case_decide; subst; try done.
    + intros [= <-] [_ Hk]%H2 E. simpl in E. lia.
    + intros [_ Hj]%H2 [= <-] E. simpl in E. lia.
    + by apply H3.
Qed.

(** The two together; [tracked] is whether [id] belongs to this queue. *)
Context (tracked : Prop).
Definition holds (top : Z) (st : staging) : Prop := sane top st ∧ (tracked → saved id body st).

Lemma holds_live top st i f : gentle f → holds top st → holds top (on_live i f st).
Proof. intros Hf [Hs Hv]. split; [by apply sane_live|]. intros Ht. by apply saved_live, Hv. Qed.

Lemma holds_dead top st d : holds top st → holds top (set_dead d st).
Proof. intros [[] Hs]. by split. Qed.

Lemma holds_ack top st i : i ≠ id → holds top st → holds top (set_live (delete i (s_live st)) st).
Proof. intros Hi [Hs Hv]. split; [by apply sane_ack|]. intros Ht. by apply saved_ack, Hv. Qed.

Lemma holds_enqueue top st m :
  Msg.ID m ≠ id → top < Msg.Seq m → holds top st →
  holds (Msg.Seq m) (bump (set_live (<[Msg.ID m := Msg.erase m]> (s_live st)) st) (Msg.Seq m)).
Proof.
  intros Hi Hs [Hsn Hv]. rewrite (enqueue_bump top) by done. split; [by eapply sane_enqueue|].
  intros Ht. destruct (Hv Ht) as (u & Hu & Hb). exists u. split; [|done]. simpl. by rewrite lookup_insert_ne.
Qed.
End Records.

(** ** Steps *)

Section Steps.
Context {W : Type} `{LogLaws W} (c : Config) (id body : string) (tracked : Prop).
Context (Hstor : ∀ r, Rec.Op r ≠ OpEpoch → json_safe r = true → storable r).
Context (Hname : utf8 (Config.Name c) = true).
Abbreviation name := (Config.Name c).

Definition keeps (s : Z) (A : amsgs) (w : W) : Prop :=
  log_ok w ∧ safe A ∧ holds id body tracked s (stage name (log w)).

(** One record written, or perhaps not. *)
Lemma keeps_write s s' A A' (w w' : W) r d e :
  keeps s A w → write r d w = (w', e) → json_safe r = true →
  Rec.Queue r = name → Rec.Op r ≠ OpEpoch → Rec.Op r ≠ OpCreateQueue → safe A' → s ≤ s' →
  (∀ st r', stored r r' → holds id body tracked s st → holds id body tracked s' (stage_on name st r')) →
  keeps s' A' w' ∧ continues name (log w) (log w').
Proof.
  intros (Hok & Hs & Hh) E Hj Hq Ho Hc Hs' Hle Hst.
  assert (log w' = log w ∨ ∃ r', stored r r' ∧ log w' = log w ++ [r']) as Hlog.
  { destruct e as [e|]; [by apply (write_err r d w w' e Hok (Hstor _ Ho Hj))|right].
    by apply (write_ok r d w w' Hok (Hstor _ Ho Hj)). }
  pose proof (write_log_ok r d w Hok (Hstor _ Ho Hj)) as Hw. rewrite E in Hw. destruct Hlog as [El|(r' & Hr & El)].
  - split; [split_and!; [done..|rewrite El; destruct Hh as [Hsn Hsv]; split; [by eapply sane_le|done]]|].
    exists []. by rewrite El, app_nil_r.
  - destruct (stored_queue _ _ Hr) as [Eq Eo]. split.
    + split_and!; [done..|rewrite El, stage_snoc; by apply Hst].
    + exists [r']. split; [done|]. constructor; [|constructor]. by rewrite Eq, Eo.
Qed.

Lemma keep_enqueue s A w x m now w' e :
  keeps s A w → admits (careless id) A m → 0 ≤ s < two64 - 1 →
  fresh_msg m (u64 (s + 1)) now → AppendSync (Rec.of_msg OpEnqueue name m) w = (w', e) →
  keeps (u64 (s + 1)) (match e with None => <[x := (In (gate m now), Msg.erase m)]> A | Some _ => A end) w' ∧
  continues name (log w) (log w').
Proof.
  intros Ha [Hsm Hid] Hs (Eseq & _) E.
  rewrite u64_id in Eseq |- * by auto with words. pose proof Ha as (_ & Hsafe & _).
  eapply keeps_write; [exact Ha|exact E|by apply (safe_rec_msg _ _ "")|done..| |lia|].
  - destruct e; [done|by apply safe_insert].
  - intros st r' Hst Hh. rewrite (stage_enqueue _ _ _ _ Hst), <- Eseq. apply (holds_enqueue id body tracked s); [done|lia|done].
Qed.

Lemma keep_retry s A w x m m' now delay w' e :
  keeps s A w → clock (careless id) now → instant (careless id) (Add now delay) →
  A !! x = Some (In HInflight, m) → Msg.erase m' = m →
  AppendSync (retry_rec c (unlease m') now delay) w = (w', e) →
  keeps s (partial_alter (λ _, retry_place c (unlease m') now delay e) x A) w' ∧
  continues name (log w) (log w').
Proof.
  intros Ha Hck Hi Hx <- E. pose proof Ha as (_ & Hs & _).
  assert (msg_safe (unlease m') = true) as Hsm by exact (msg_safe_unlease _ (Hs _ _ _ Hx)).
  assert (∀ v, v = None ∨ (∃ P n, v = Some (P, n) ∧ msg_safe n = true) →
    safe (partial_alter (λ _, v) x A)) as Hpa.
  { intros v [->|(P & n & -> & Hn)]; [by apply safe_delete|by apply safe_insert]. }
  unfold retry_rec, retry_place in *. destruct (exhausted c (unlease m')).
  - eapply keeps_write; [exact Ha|exact E| |done..| |lia|].
    + apply safe_rec_id; [done..|by apply msg_safe_ID].
    + apply Hpa. right. destruct e; eexists _, _; (split; [done|]); [|done].
      by apply (msg_safe_VisibleAt now).
    + intros st r' Hst Hh. rewrite (stage_dlq _ _ _ _ Hst). by apply holds_dead.
  - assert (msg_safe (Msg.set_VisibleAt (Add now delay) (unlease m')) = true) as Hsn
      by by apply msg_safe_VisibleAt.
    eapply keeps_write; [exact Ha|exact E| |done..| |lia|].
    + apply safe_rec_msg; [done..| |done]. by apply msg_safe_ID.
    + apply Hpa. destruct e; [by left|right]. by eexists _, _.
    + intros st r' Hst Hh. rewrite (stage_nack _ _ _ _ _ Hst). by apply holds_live.
Qed.

Lemma keep_ack s A w x m w' e :
  keeps s A w → releases (careless id) m → A !! x = Some (In HInflight, m) →
  AppendSync (Rec.of_id OpAck name (Msg.ID m)) w = (w', e) →
  keeps s (match e with None => delete x A | Some _ => A end) w' ∧ continues name (log w) (log w').
Proof.
  intros Ha Hrl Hx E. pose proof Ha as (_ & Hs & _).
  eapply keeps_write; [exact Ha|exact E| |done..| |lia|].
  - apply safe_rec_id; [done..|]. apply msg_safe_ID. by eapply Hs.
  - destruct e; [done|by apply safe_delete].
  - intros st r' Hst Hh. rewrite (stage_ack _ _ _ _ Hst). by apply holds_dead, holds_ack.
Qed.

Lemma keep_replay s A w x m now w' e :
  keeps s A w → clock (careless id) now → A !! x = Some (Dead, m) →
  AppendSync (Rec.of_id OpReplay name (Msg.ID m)) w = (w', e) →
  keeps s (match e with
           | None => <[x := (In HReady, Msg.set_VisibleAt now (Msg.set_Attempts 0 m))]> A
           | Some _ => A end) w' ∧
  continues name (log w) (log w').
Proof.
  intros Ha Hj Hx E. pose proof Ha as (_ & Hs & _). pose proof (Hs _ _ _ Hx) as Hsm.
  eapply keeps_write; [exact Ha|exact E| |done..| |lia|].
  - apply safe_rec_id; [done..|]. by apply msg_safe_ID.
  - destruct e; [done|]. apply safe_insert; [done|]. apply msg_safe_VisibleAt; [done|]. by apply msg_safe_Attempts.
  - intros st r' Hst Hh. rewrite (stage_replay _ _ _ _ Hst). by apply holds_live, holds_dead.
Qed.

Lemma safe_lease_all A batch : safe A → Forall (λ v : loc * Msg, msg_safe v.2 = true) batch → safe (lease_all batch A).
Proof.
  unfold lease_all. intros Hs Hb. revert A Hs. induction Hb as [|v batch Hv _ IH]; intros A Hs; [done|].
  simpl. apply IH. by apply safe_insert.
Qed.

Lemma keep_log_batch s A (batch : list (loc * Msg)) w w' e :
  keeps s A w → Forall (λ v : loc * Msg, msg_safe v.2 = true) batch →
  log_batch ((λ v : loc * Msg, Rec.of_msg OpLease name v.2) <$> batch) w w' e →
  keeps s A w' ∧ continues name (log w) (log w').
Proof.
  intros Ha Hb. assert (∀ v w1 w2 e', keeps s A w1 → msg_safe v = true →
    Append (Rec.of_msg OpLease name v) w1 = (w2, e') → keeps s A w2 ∧ continues name (log w1) (log w2)) as Hone.
  { intros v w1 w2 e' Ha1 Hv E. pose proof Ha1 as (_ & Hs & _).
    eapply keeps_write; [exact Ha1|exact E|by apply (safe_rec_msg _ _ "")|done..|lia|].
    intros st r' Hst Hh. rewrite (stage_lease _ _ _ _ Hst). by apply holds_live. }
  revert w Ha. induction Hb as [|[x v] batch Hv Hb IH]; intros w Ha Hlog; inversion Hlog; subst; [done|..].
  - edestruct Hone as [Ha1 Hc1]; [exact Ha|exact Hv|eassumption|].
    edestruct IH as [Ha2 Hc2]; [exact Ha1|eassumption|]. split; [done|]. by etrans.
  - by eapply Hone.
Qed.

Lemma keep_lease s A w (batch : list (loc * Msg)) t (rs : list string) w' e :
  keeps s A w → instant (careless id) t → Forall (λ r, ∃ b, r = newID b) rs →
  Forall2 (λ v r, ∃ m, A !! v.1 = Some (In HReady, Msg.erase m) ∧ v.2 = lease_msg r t m) batch rs →
  log_batch ((λ v : loc * Msg, Rec.of_msg OpLease name v.2) <$> batch) w w' e →
  keeps s (match e with None => lease_all batch A | Some _ => A end) w' ∧ continues name (log w) (log w').
Proof.
  intros Ha Ht Hrs Hb Hlog. pose proof Ha as (_ & Hs & _).
  assert (Forall (λ v : loc * Msg, msg_safe v.2 = true) batch) as Hsafe.
  { clear Hlog. induction Hb as [|v r batch rs (m & Hx & E) _ IH]; [done|].
    apply Forall_cons in Hrs as [[b ->] Hrs]. constructor; [|by apply IH].
    rewrite E. apply msg_safe_lease; [done|]. exact (Hs _ _ _ Hx). }
  destruct (keep_log_batch _ _ _ _ _ _ Ha Hsafe Hlog) as [(Hok & _ & Hh) Hc]. split; [|done].
  split_and!; [done| |done]. destruct e; [done|by apply safe_lease_all].
Qed.

Lemma astep_keeps s A w s' A' w' :
  keeps s A w → astep c (careless id) (Ast s A w) (Ast s' A' w') →
  keeps s' A' w' ∧ continues name (log w) (log w').
Proof.
  intros Ha Hst. pose proof Ha as (Hok & Hs & Hh). inversion Hst; subst.
  - by eapply keep_enqueue.
  - split; [|done]. split_and!; [done| |done]. apply safe_insert; [done|]. by eapply Hs.
  - by eapply keep_retry.
  - by eapply keep_lease.
  - by eapply keep_ack.
  - split; [|done]. split_and!; [done| |done]. apply safe_insert; [done|].
    apply msg_safe_LeaseExpiry; [done|]. by eapply Hs.
  - by eapply keep_replay.
Qed.

Lemma asteps_keep (a a' : ast W) :
  keeps (a_seq a) (a_msgs a) (a_log a) → asteps c (careless id) a a' →
  keeps (a_seq a') (a_msgs a') (a_log a') ∧ continues name (log (a_log a)) (log (a_log a')).
Proof.
  intros Ha Hst. induction Hst as [a|[s A w] [s1 A1 w1] a2 H1 _ IH]; [by split|].
  destruct (astep_keeps _ _ _ _ _ _ Ha H1) as [Ha1 Hc1]. destruct (IH Ha1) as [Ha2 Hc2].
  split; [done|]. by etrans.
Qed.
End Steps.
