(* ===== verification/FaultRun.v ===== *)
(** * A manager whose writes fail

    Calls on its queues in any order, any of whose writes may fail; then a
    restart.  Creations and compactions are left out: a compaction after a failed
    write can lose a message for good, as [ManagerProps] shows. *)

From Stdlib Require Import Strings.Byte.
From S2P Require Import Prelude ContainerHeap Msg Heaps LogStore Queue QueueInv QueueSpec QueueOps QueueReceive Calls Bytes Encoding Wal WalOps Manager Recovery Restore ManagerOps CompactOps ManagerRun Faults.

Implicit Types (q : Queue) (M : Manager) (T : Time) (n : string) (m u : Msg) (st : staging).

Section FaultRun.
Context `{JsonLaws} `{RangingLaws} (envs : nat → wenv) (n0 id body : string).
#[local] Instance fault_log : Log wlog := wal_log envs.
#[local] Instance fault_laws : LogLaws wlog := wal_laws envs.

(** ** The invariant *)

Record queue_kept (l : list Rec) (n : string) (q : Queue) : Prop := {
  qk_wf : wf q;
  qk_name : name q = n;
  qk_safe : safe (abs q);
  qk_holds : holds id body (n = n0) (seq q) (stage n l);
  qk_created : created n l = Some (cfg q);
  qk_config : config_safe (cfg q) = true;
  qk_seq : 0 ≤ seq q < two64;
}.

Record enduring (M : Manager) : Prop := {
  en_log : log_ok (wal M);
  en_path : WAL.orphan (wl_wal (wal M)) = None;
  en_queue n q : queues M !! n = Some q → queue_kept (log (wal M)) n q;
  en_unknown n : queues M !! n = None → unknown_ok (log (wal M)) n;
}.

Lemma queue_kept_continues l l' n n' q :
  n ≠ n' → continues n l l' → queue_kept l n' q → queue_kept l' n' q.
Proof.
  intros Hne (rs & -> & Hrs) []. split; try done.
  - rewrite stage_other; [done|]. eapply Forall_impl; [exact Hrs|]. simpl. intros r [-> _]. done.
  - by apply created_mono.
Qed.

(** ** The start: memory and log agree *)

Lemma mirrors_sane T q st : wf q → 0 ≤ seq q → mirrors T (seq q) (abs q) st → sane (seq q) st.
Proof.
  intros Hwf Hs Hm.
  assert (∀ i u, s_live st !! i = Some u → ∃ x P m, abs q !! x = Some (P, m) ∧ Msg.ID m = i ∧
    Msg.ID u = i ∧ Msg.Seq u = Msg.Seq m) as Hst.
  { intros i u Hu. destruct (staged_of _ _ _ _ _ _ Hm Hu) as (x & P & m & Hx & <- & Hsv & _).
    apply survives_fields in Hsv as (E1 & E2 & _). by exists x, P, m. }
  split; rewrite ?(mi_seq _ _ _ _ Hm); [lia|..].
  - intros i u Hu. destruct (Hst i u Hu) as (x & P & m & Hx & _ & -> & ->). split; [done|]. by eapply wf_abs_seq.
  - intros i j u v Hu Hv E. destruct (Hst i u Hu) as (x & P & m & Hx & <- & _ & Eu).
    destruct (Hst j v Hv) as (y & Q & k & Hy & <- & _ & Ev).
    assert (x = y) as <- by (eapply wf_abs_seq_inj; [done..|congruence]). by simplify_eq.
Qed.

Lemma enduring_start T M q x P m :
  healthy envs T M → queues M !! n0 = Some q → abs q !! x = Some (P, m) → Msg.ID m = id → Msg.Body m = body →
  enduring M.
Proof.
  intros Hh Hq Hx Ei Eb. split; [apply (hy_log _ _ _ Hh)|apply (hy_trim _ _ _ Hh)| |apply (hy_unknown _ _ _ Hh)].
  intros n q1 Hq1. destruct (hy_queue _ _ _ Hh n q1 Hq1). split; try done. split.
  - eapply mirrors_sane; [done|lia|done].
  - intros ->. assert (q1 = q) as -> by congruence.
    destruct (mi_live _ _ _ _ qo_mirrors x P m Hx) as (u & Hu & v & Eu & _).
    exists u. rewrite <- Ei. split; [done|]. by rewrite Eu.
Qed.

(** ** The calls *)

(** No call moves the file away from its path. *)
Lemma exec_path k q w q' w' r :
  wf q → admissible k q → exec k q w = Some (q', w', r) → WAL.orphan (wl_wal w') = WAL.orphan (wl_wal w).
Proof.
  intros Hwf Hk E. destruct (exec_ok k q w Hwf Hk) as (q1 & w1 & r1 & E1 & _ & _ & Hst).
  rewrite E in E1. simplify_eq.
  specialize (Hst anything (serves_anything k q) (reports_anything _ _ _ _)).
  apply (asteps_log (cfg q) anything (λ v, WAL.orphan (wl_wal v) = WAL.orphan (wl_wal w)) _ _) in Hst; [done| |done].
  intros r d v v' e <-. simpl. destruct (wal_write r d _ _) as [v1 e1] eqn:Ew. intros [= <- _].
  by eapply wal_write_orphan.
Qed.

Lemma enduring_call M n k q q' w' r :
  enduring M → queues M !! n = Some q → admissible k q → serves (careless id) k q →
  exec k q (wal M) = Some (q', w', r) →
  enduring (set_queues (<[n := q']> (queues M)) (set_log w' M)).
Proof.
  intros Hh Hq Hk Hserve E. pose proof (en_queue _ Hh n q Hq) as Hqk.
  destruct (exec_ok k q (wal M) (qk_wf _ _ _ Hqk) Hk) as (q1 & w1 & r1 & E1 & Hwf' & Ec & Hst).
  rewrite E in E1. simplify_eq.
  assert (name q = n) as En by apply (qk_name _ _ _ Hqk).
  destruct (asteps_keep (cfg q) id body (n = n0) (wal_storable_all envs) (config_safe_name _ (qk_config _ _ _ Hqk))
    (absq q (wal M)) (absq q1 w1)) as [(Hok & Hs & Hm) Hcont].
  - split_and!; simpl; [apply (en_log _ Hh)|apply (qk_safe _ _ _ Hqk)|].
    fold (name q). rewrite En. apply (qk_holds _ _ _ Hqk).
  - apply Hst; [done|]. by intros e _.
  - simpl in Hm, Hs, Hcont, Hok. fold (name q) in Hm, Hcont. rewrite En in Hm, Hcont.
    split; simpl; [done|by rewrite (exec_path k q (wal M) q1 w1 r1 (qk_wf _ _ _ Hqk) Hk E), (en_path _ Hh)|..].
    + intros n' q' Hq'. destruct (decide (n = n')) as [<-|Hne].
      * rewrite lookup_insert_eq in Hq'. injection Hq' as <-. destruct Hqk. split; try done; try congruence.
        -- unfold name in *. congruence.
        -- destruct Hcont as (rs & -> & _). rewrite Ec. by apply created_mono.
        -- exact (exec_seq envs k q (wal M) q1 w1 r1 qk_wf0 Hk E qk_seq0).
      * rewrite lookup_insert_ne in Hq' by done.
        eapply queue_kept_continues; [done..|]. by apply (en_queue _ Hh).
    + intros n' Hn'. destruct (decide (n = n')) as [<-|Hne]; [by rewrite lookup_insert_eq in Hn'|].
      rewrite lookup_insert_ne in Hn' by done.
      eapply unknown_ok_continues; [done..|]. by apply (en_unknown _ Hh).
Qed.

(** ** The restart *)

Lemma sane_restorable top st :
  sane top st → restorable (s_maxSeq st) (sort_by_seq (pick_msgs false st) ++ sort_by_seq (pick_msgs true st)).
Proof.
  intros [_ Hk Hs]. rewrite !sort_by_seq_perm, pick_all. split.
  - intros u ([i v] & -> & Hu%elem_of_map_to_list)%list_elem_of_fmap. by apply (Hk i).
  - rewrite <- list_fmap_compose. apply NoDup_fmap_2_strong; [|apply NoDup_map_to_list].
    intros [i u] [j v] Hu%elem_of_map_to_list Hv%elem_of_map_to_list E. simpl in E.
    assert (i = j) as <- by by eapply Hs. by simplify_eq.
  - rewrite <- list_fmap_compose. apply NoDup_fmap_2_strong; [|apply NoDup_map_to_list].
    intros [i u] [j v] Hu%elem_of_map_to_list Hv%elem_of_map_to_list E. simpl in E.
    destruct (Hk _ _ Hu) as [Ei _], (Hk _ _ Hv) as [Ej _]. assert (i = j) as <- by congruence. by simplify_eq.
Qed.

(** One queue, installed from a log that still has the message. *)
Lemma kept_restored st top now c :
  sane top st →
  ∃ q, restore (sort_by_seq (pick_msgs false st)) (sort_by_seq (pick_msgs true st)) (s_maxSeq st) now (New c) = Some q ∧
    wf q ∧ (saved id body st → ∃ y P v, abs q !! y = Some (P, v) ∧ Msg.ID v = id ∧ Msg.Body v = body).
Proof.
  intros Hs. destruct (restore_ok c _ _ _ now (sane_restorable top st Hs)) as (q & E & Hwf & _ & Hh).
  { apply Hs. }
  exists q. split_and!; [done..|]. intros (u & Hu & Hb). destruct (sn_key _ _ Hs _ _ Hu) as [Ei _].
  assert (∃ P, (P, Msg.erase (unlease u)) ∈ (revived now <$> sort_by_seq (pick_msgs false st)) ++
    (buried <$> sort_by_seq (pick_msgs true st))) as [P HP].
  { destruct (decide (id ∈ s_dlq st)) as [Hd|Hd]; eexists; apply elem_of_app; [right|left];
      apply list_elem_of_fmap; exists u; (split; [reflexivity|]); rewrite sort_by_seq_perm; apply elem_pick;
      exists id; split; [done|by apply bool_decide_eq_true|done|by apply bool_decide_eq_false]. }
  destruct (he_all _ _ Hh _ HP) as [y Hy]. by eexists y, P, _.
Qed.

(** What one failed write leaves behind a log: part of a frame at most. *)
Lemma failed_write_torn rec d env w w' e :
  wal_write rec d env w = (w', Some e) → we_sync env = None → trim w →
  torn (drop (Z.to_nat (WAL.size w')) (cache (WAL.f w'))).
Proof.
  intros E Hsy [Hs _]. assert (torn (drop (Z.to_nat (WAL.size w)) (cache (WAL.f w)))) as Hsame.
  { rewrite Hs, Nat2Z.id, drop_all. apply torn_nil. }
  unfold wal_write in E. destruct (encode _) as [buf|] eqn:He; [|by injection E as <- _].
  destruct (WAL.failed w); [by injection E as <- _|]. unfold WriteAt in E.
  destruct (we_write env) as [[k x]|].
  - injection E as <- _. simpl. rewrite Hs, Nat2Z.id, overwrite_end, drop_app_length.
    destruct (encode_frame _ _ He) as (b & r' & _ & -> & Hf & _). apply torn_cut; [done|].
    pose proof (frame_length b). lia.
  - destruct d; simpl in E; [|done]. destruct (0 <? WAL.syncEvery w); [done|]. rewrite Hsy in E. done.
Qed.

Lemma enduring_restart M cut sy tick now q0 :
  enduring M → torn (behind M cut) → queues M !! n0 = Some q0 →
  ∃ M' q, mexec envs (MRestart cut sy tick now) M = Some (M', MDone None) ∧ queues M' !! n0 = Some q ∧ wf q ∧
    ∃ y P v, abs q !! y = Some (P, v) ∧ Msg.ID v = id ∧ Msg.Body v = body.
Proof.
  intros Hh Ht Hq0. destruct (en_log _ Hh) as (bodies & rs & Hli).
  pose proof (in_path_split M bodies rs cut Hli (en_path _ Hh)) as Ef.
  assert (log (wal M) = WalOps.delivered rs) as El by exact (contents_is _ _ _ Hli).
  destruct (recover_ok bodies rs (behind M cut) sy now (li_readable _ _ _ Hli) Ht) as (w' & _ & _ & _ & _ & _ & _ & _ & Erec).
  set (X := rebuilt rs) in *.
  assert (∀ n st, (n, st) ∈ range (r_pending X) → st = stage n (log (wal M))) as Hst.
  { intros n st Hin. rewrite range_perm in Hin. apply elem_of_map_to_list in Hin.
    rewrite El, <- (recover_all_staged _ (OpenWAL [] 0)). fold (rebuilt rs). fold X. unfold staged. by rewrite Hin. }
  assert (∀ n, r_queues X !! n = New <$> created n (log (wal M))) as Hqs.
  { intros n. unfold X, rebuilt. by rewrite recover_all_queues, El. }
  destruct (install_ok (range (r_pending X)) now (r_queues X)) as (qs & E & _ & Hi).
  - rewrite range_perm. apply NoDup_fst_map_to_list.
  - intros n st Hin Hn. rewrite (Hst _ _ Hin). destruct (queues M !! n) as [q|] eqn:Hq.
    + by rewrite Hqs, (qk_created _ _ _ (en_queue _ Hh n q Hq)) in Hn.
    + by destruct (en_unknown _ Hh n Hq) as (_ & ? & ? & _).
  - intros n st q1 Hin Hn. rewrite (Hst _ _ Hin). destruct (queues M !! n) as [q|] eqn:Hq.
    + pose proof (en_queue _ Hh n q Hq) as Hqk. rewrite Hqs, (qk_created _ _ _ Hqk) in Hn. injection Hn as <-.
      destruct (kept_restored _ _ (now n) (cfg q) (proj1 (qk_holds _ _ _ Hqk))) as (q' & -> & _). by eexists.
    + destruct (en_unknown _ Hh n Hq) as (Hc & _). by rewrite Hqs, Hc in Hn.
  - pose proof (en_queue _ Hh n0 q0 Hq0) as Hqk.
    destruct (kept_restored _ _ (now n0) (cfg q0) (proj1 (qk_holds _ _ _ Hqk))) as (q' & E' & Hwf' & Hmsg).
    simpl. unfold Open. simpl. rewrite Ef. unfold quiet_scan. rewrite Erec, E. simpl_bind.
    eexists _, q'. split; [done|]. split_and!; [simpl|done|by apply Hmsg, (qk_holds _ _ _ Hqk)].
    assert (is_Some (r_pending X !! n0)) as [st Hp].
    { apply recover_all_pending. by rewrite <- El, (qk_created _ _ _ Hqk). }
    assert ((n0, st) ∈ range (r_pending X)) as Hin by (rewrite range_perm; by apply elem_of_map_to_list).
    by rewrite (Hi _ _ Hin), Hqs, (qk_created _ _ _ Hqk), (Hst _ _ Hin).
Qed.

(** ** Reachability *)

(** Calls that may fail in any way; none of them acknowledges the message. *)
Inductive freach (M0 : Manager) : Manager → Prop :=
| fr_refl : freach M0 M0
| fr_step M n k q M' r :
    freach M0 M → queues M !! n = Some q → admissible k q → serves (careless id) k q →
    mexec envs (MCall n k) M = Some (M', r) → freach M0 M'.

Lemma freach_enduring M0 M : enduring M0 → freach M0 M → enduring M ∧ dom (queues M) = dom (queues M0).
Proof.
  intros H0'. induction 1 as [|M n k q M' r _ [IH Ed] Hq Hk Hs E]; [done|].
  simpl in E. unfold Get, on_queue in E. rewrite Hq in E. cbn [mbind option_bind] in E.
  destruct (exec k q (wal M)) as [[[q' w'] r1]|] eqn:Ex; [|done]. injection E as <- _.
  split; [by eapply enduring_call|]. simpl. rewrite dom_insert_L, <- Ed. apply elem_of_dom_2 in Hq. set_solver.
Qed.
End FaultRun.
