(* ===== verification/ManagerProps.v ===== *)
(** * Properties of the manager

    What [queue/manager.go] promises: a restart loses nothing but the leases,
    whatever was compacted before; a queue is durable before it exists; a
    bookmark dies with the epoch it names; a replay is finite and says how far
    it got. *)

From Stdlib Require Import Strings.Byte.
From S2P Require Import Prelude ContainerHeap Msg Heaps LogStore Queue QueueInv QueueSpec QueueOps QueueReceive Calls Bytes Encoding Wal WalOps WireCodec Manager Recovery Restore ManagerOps CompactOps ManagerRun ReplayOps Compacted Faults FaultRun.
Import (hints) WireCodec.

Implicit Types (q : Queue) (M : Manager) (T : Time) (n : string).

(** ** A concrete manager *)

(** Maps visited in the order of their representation. *)
#[export] Instance key_order : Ranging := { range A m := map_to_list m }.
#[export] Instance key_order_laws : RangingLaws.
Proof. by split. Qed.

Definition calm : nat → wenv := λ _, WEnv unixEpoch None None.
Definition one_byte (i : nat) : list byte := [default x00 (Byte.of_nat i)].

Definition M_new : Manager :=
  match Open 0 0 (OEnv (Ok []) quiet_scan (λ _, 0)) 0 with
  | Some (Ok M) => M
  | _ => MkManager ∅ (WLog (OpenWAL [] 0) 0) 0 false
  end.

Lemma M_new_reach envs : mreach envs 0 M_new.
Proof. apply (mr_open envs 0 0 0 (λ _, 0)). vm_compute. reflexivity. Qed.

(** Two messages, the first leased, the second delayed until 102. *)
Definition two_jobs : list (Time * mcall) :=
  [(10, MCreate (Config.Mk "q" FIFO true 2 1000));
   (10, MCall "q" (CEnqueue "a" 0 0 1 (one_byte 1)));
   (10, MCall "q" (CEnqueue "b" 5 100 2 (one_byte 2)));
   (10, MCall "q" (CTryReceive 1 50 3 one_byte))].

Definition final_of (envs : nat → wenv) (calls : list (Time * mcall)) : Time * Manager :=
  default (0, M_new) (mrun envs calls 0 M_new).
Definition M_jobs : Manager := (final_of calm two_jobs).2.

Lemma final_mreach envs calls : mreach envs (final_of envs calls).1 (final_of envs calls).2.
Proof.
  unfold final_of. destruct (mrun envs calls 0 M_new) as [[T M]|] eqn:E; [|apply M_new_reach].
  by eapply mrun_reach; [apply M_new_reach|].
Qed.

Lemma M_jobs_reach : mreach calm 10 M_jobs.
Proof.
  assert ((final_of calm two_jobs).1 = 10) as E by (vm_compute; reflexivity).
  pose proof (final_mreach calm two_jobs) as Hr. by rewrite E in Hr.
Qed.

(** ** Restart *)

(** C1: restarting is exact.  From any state a manager reaches by creations,
    calls, compactions and restarts none of which reported a failure, killing
    the process - even in the middle of writing one more record - and opening
    its file again gives back the same queues with the same configuration and
    sequence counter and exactly the same messages: every lease is over and its
    message ready again with the attempts it had, a delayed message keeps its
    gate to the instant, a dead letter stays one, nothing else appears, and the
    torn bytes are gone from the disk. *)
Theorem restart_is_exact `{JsonLaws} `{RangingLaws} (envs : nat → wenv) T T' M tl sy tick now :
  mreach envs T M → torn tl → (∀ n, T ≤ now n ≤ T') →
  ∃ M', mexec envs (MRestart tl sy tick now) M = Some (M', MDone None) ∧
    manager_reborn now M M' ∧ disk (WAL.f (wl_wal (wal M'))) = on_file M.
Proof.
  intros Hr Ht Hnow.
  destruct (restart_ok envs T T' M tl sy tick now (mreach_healthy _ _ _ Hr) Ht Hnow)
    as (M' & E & _ & Hre & _ & Hd). by exists M'.
Qed.

Lemma restart_is_exact_witness :
  ∃ M', mexec calm (MRestart [x00; x00] 0 0 (λ _, 60)) M_jobs = Some (M', MDone None) ∧
    manager_reborn (λ _, 60) M_jobs M' ∧ disk (WAL.f (wl_wal (wal M'))) = on_file M_jobs.
Proof.
  apply (restart_is_exact calm 10 60 M_jobs [x00; x00] 0 0 (λ _, 60)); [apply M_jobs_reach| |].
  - intros r n rd E. discriminate E.
  - intros _. lia.
Defined.

(** ** Compaction *)

Definition good_cenv : cenv := CEnv (λ _, unixEpoch) None (λ _, None) None None None None.

(** C9: as long as no call has reported a failure, a compaction that succeeds
    changes nothing but the log, and to a restart the two logs are the same:
    opening the compacted file rebuilds what opening the old one would have.
    (After a failed [Nack] it does not: [failed_nack_compacted_away].)  The new
    log is as short as it can be: one record for every queue and every message,
    and one more for every dead letter. *)
Theorem compaction_is_equivalent `{JsonLaws} `{RangingLaws} (envs : nat → wenv) T T' M M' env tl sy tick now :
  mreach envs T M → CompactAll env M = Some (M', None) → torn tl → (∀ n, T ≤ now n ≤ T') →
  queues M' = queues M ∧
  length (contents (wl_wal (wal M'))) = sum_list_with queue_cost (visited M) ∧
  ∃ M1 M2, mexec envs (MRestart tl sy tick now) M = Some (M1, MDone None) ∧
    mexec envs (MRestart tl sy tick now) M' = Some (M2, MDone None) ∧
    manager_reborn now M M1 ∧ manager_reborn now M M2.
Proof.
  intros Hr Ec Ht Hnow. pose proof (mreach_healthy _ _ _ Hr) as Hh.
  destruct (CompactAll_epoch env M M' Ec) as [Eq _]. split; [done|].
  destruct (CompactAll_log T env M M') as (bodies & rs & Hli & _ & Hst); [intros n q; by eapply healthy_sound|done|].
  split; [by rewrite (contents_is _ _ _ Hli), <- (Forall2_length _ _ _ Hst), all_recs_length|].
  destruct (restart_ok envs T T' M tl sy tick now Hh Ht Hnow) as (M1 & E1 & _ & R1 & _).
  destruct (restart_ok envs T T' M' tl sy tick now (healthy_compact _ _ _ _ _ Hh Ec) Ht Hnow)
    as (M2 & E2 & _ & R2 & _).
  exists M1, M2. split_and!; [done..|]. unfold manager_reborn in *. by rewrite Eq in R2.
Qed.

Definition M_compact : Manager := default M_new (fst <$> CompactAll good_cenv M_jobs).

Lemma M_compact_eq : CompactAll good_cenv M_jobs = Some (M_compact, None).
Proof. vm_compute. reflexivity. Qed.

Lemma compaction_is_equivalent_witness :
  length (contents (wl_wal (wal M_compact))) = 3%nat ∧
  ∃ M1 M2, mexec calm (MRestart [] 0 0 (λ _, 60)) M_jobs = Some (M1, MDone None) ∧
    mexec calm (MRestart [] 0 0 (λ _, 60)) M_compact = Some (M2, MDone None) ∧
    manager_reborn (λ _, 60) M_jobs M1 ∧ manager_reborn (λ _, 60) M_jobs M2.
Proof.
  destruct (compaction_is_equivalent calm 10 60 M_jobs M_compact good_cenv [] 0 0 (λ _, 60))
    as (_ & El & Hre); [apply M_jobs_reach|apply M_compact_eq|apply torn_nil|intros _; lia|].
  split; [|exact Hre]. rewrite El. vm_compute. reflexivity.
Defined.

(** C29: a compaction ends the epoch for good.  From a manager opened on an empty
    file on, take any run without a failure, any state of it, any bookmark with a
    position issued there, and any later compaction that succeeds: wherever the
    run goes on to - through writes, more compactions, restarts - the bookmark is
    refused, the manager unchanged and nothing published, because the epoch has
    grown past it and every restart carries on with the one in the log.  (Asked
    is that positions sent in with the epoch in force are the starts of records,
    as the server's own are, and fewer than 2 to the 64 compactions: [marked].) *)
Theorem bookmarks_expire `{JsonLaws} `{RangingLaws} (envs : nat → wenv) sy tick at_ M0 T0 T1 M1 T2 M2 env M3 T4 M4 n q bm since se now rnd :
  Open sy tick (OEnv (Ok []) quiet_scan at_) 0 = Some (Ok M0) →
  walk envs T0 M0 T1 M1 → Bookmark.Epoch bm = Bookmark.Epoch (Bookmark_ M1) → 0 < Bookmark.Offset bm →
  walk envs T1 M1 T2 M2 → epoch_of M2 < two64 - 1 → CompactAll env M2 = Some (M3, None) →
  walk envs T2 M3 T4 M4 → queues M4 !! n = Some q →
  Replay envs n bm since se now rnd M4 =
    Some (M4, (0, Some (ErrStaleBookmark (Bookmark.Epoch bm) (Bookmark.Epoch (Bookmark_ M4))))) ∧
  Bookmark.Epoch bm < Bookmark.Epoch (Bookmark_ M4).
Proof.
  intros Eo W1 Eb Hoff W2 Hlt Ec W3 Hq. pose proof (dated_open envs T0 sy tick at_ M0 Eo) as D0.
  destruct (dated_walk envs _ _ _ _ D0 W1) as [D1 _]. destruct (dated_walk envs _ _ _ _ D1 W2) as [D2 L2].
  destruct (dated_compaction envs _ _ _ _ D2 Hlt Ec) as [D3 L3].
  destruct (dated_walk envs _ _ _ _ D3 W3) as [D4 L4].
  unfold Bookmark_, Bookmark in *. simpl in *. unfold epoch_of in *.
  assert (Bookmark.Epoch bm < WAL.epoch (wl_wal (wal M4))) as Hb by lia. split; [|done].
  unfold Replay, Replay_collect, Get. rewrite Hq. unfold Bookmark.
  rewrite (proj2 (Z.ltb_lt _ _)), bool_decide_true by (done || lia). done.
Qed.

(** A run that ends where [mrun] does. *)
Lemma mrun_walk envs calls T0 M0 T1 M1 T M' :
  Forall (λ v, match v.2 with MCollect _ _ _ _ | MCompact _ => False | _ => True end) calls →
  walk envs T0 M0 T1 M1 → mrun envs calls T1 M1 = Some (T, M') → walk envs T0 M0 T M'.
Proof.
  intros Hall. revert T1 M1. induction Hall as [|[T2 mc] calls Hmc _ IH]; intros T1 M1 Hw; simpl; [by intros [= <- <-]|].
  destruct (T1 <=? T2) eqn:HT; [|done]. cbn [andb]. apply Z.leb_le in HT.
  destruct (mserved T2 mc M1) eqn:Hs; [|done].
  intros ([M2 r] & E & Hrun)%bind_Some. cbn iota beta in Hrun.
  destruct (munfailed mc M1 r M2) eqn:Hf; [|done]. apply (IH T2 M2); [|done].
  eapply wk_step; [exact Hw|exact HT|by apply mserved_ok| |exact E|by apply munfailed_ok].
  by destruct mc.
Qed.

Lemma M_jobs_walk : walk calm 0 M_new 10 M_jobs.
Proof.
  unfold M_jobs, final_of. destruct (mrun calm two_jobs 0 M_new) as [[T M]|] eqn:E; [|vm_compute in E; discriminate E].
  assert (T = 10) as -> by (vm_compute in E; injection E as <- _; reflexivity).
  eapply mrun_walk; [|apply wk_refl|exact E]. repeat constructor.
Qed.

(** Across a restart: the bookmark of the first process, sent to the second. *)
Lemma bookmarks_expire_witness :
  let bm := Bookmark_ M_jobs in
  ∃ M4, mexec calm (MRestart [] 0 0 (λ _, 60)) M_compact = Some (M4, MDone None) ∧
    Replay calm "q" bm zeroTime quiet_scan (λ _, 60) one_byte M4 =
      Some (M4, (0, Some (ErrStaleBookmark (Bookmark.Epoch bm) (Bookmark.Epoch (Bookmark_ M4))))) ∧
    Bookmark.Epoch bm < Bookmark.Epoch (Bookmark_ M4).
Proof.
  intros bm. destruct (mexec calm (MRestart [] 0 0 (λ _, 60)) M_compact) as [[M4 r]|] eqn:E; [|vm_compute in E; discriminate E].
  assert (r = MDone None) as -> by (vm_compute in E; injection E as _ <-; reflexivity).
  destruct (queues M4 !! "q") as [q|] eqn:Hq;
    [|vm_compute in E; injection E as <-; vm_compute in Hq; discriminate Hq].
  exists M4. split; [reflexivity|].
  apply (bookmarks_expire calm 0 0 (λ _, 0) M_new 0 10 M_jobs 10 M_jobs good_cenv M_compact 60 M4 "q" q).
  - vm_compute. reflexivity.
  - exact M_jobs_walk.
  - reflexivity.
  - vm_compute. reflexivity.
  - apply wk_refl.
  - vm_compute. reflexivity.
  - apply M_compact_eq.
  - eapply wk_step; [apply wk_refl| | | |exact E|exact I]; [lia| |exact I].
    split; [apply torn_nil|intros _; lia].
  - exact Hq.
Defined.

(** ** Historical replay *)

(** C28: a replay is finite and honest.  From the start of any record of the
    current epoch it collects exactly the messages whose enqueue records lie
    behind that position, for this queue and not older than [since], and then
    publishes them in order as new messages: new identifiers, the next sequence
    numbers, no attempts.  Records it writes itself are not collected.  The
    count is the number of messages that entered the queue, on failure too. *)
Theorem replay_republishes `{JsonLaws} `{Ranging} (envs : nat → wenv) n bm since fs now rnd M q pre post rs1 rs2 :
  let w := wl_wal (wal M) in
  let found := omap (wanted n since) (WalOps.delivered rs2) in
  queues M !! n = Some q → wf q → log_is w (pre ++ post) (rs1 ++ rs2) → readable pre rs1 →
  Bookmark.Offset bm = Z.of_nat (length (frames pre)) →
  (Bookmark.Offset bm = 0 ∨ Bookmark.Epoch bm = WAL.epoch w) →
  0 ≤ seq q → seq q + Z.of_nat (length found) < two64 →
  ∃ M' q' k e, Replay envs n bm since (SEnv None None fs) now rnd M = Some (M', (Z.of_nat k, e)) ∧
    queues M' = <[n := q']> (queues M) ∧
    published_in (republished found 0 (seq q + 1) now rnd) k e q q'.
Proof.
  intros w found Hq Hwf Hli Hr Eo Hep Hs Hb. unfold Replay.
  rewrite (Replay_collect_ok n bm since _ M pre post rs1 rs2); [|by eexists|done..]. simpl_bind.
  set (M1 := set_log _ M). fold found.
  destruct (Replay_publish_ok envs n now rnd found 0 0 M1 q) as (M' & q' & k & e & -> & Eq & Hp); [done..|].
  by exists M', q', k, e.
Qed.

(** From the very beginning, so no epoch is asked for. *)
Lemma replay_republishes_witness :
  ∃ M' q q' k e, queues M_jobs !! "q" = Some q ∧
    Replay calm "q" (Bookmark.Mk 7 0) zeroTime quiet_scan (λ _, 60) (λ i, one_byte (20 + i)) M_jobs =
      Some (M', (Z.of_nat k, e)) ∧
    queues M' = <["q" := q']> (queues M_jobs) ∧
    published_in (republished [("a", 0); ("b", 5)] 0 3 (λ _, 60) (λ i, one_byte (20 + i))) k e q q'.
Proof.
  destruct (queues M_jobs !! "q") as [q|] eqn:Hq; [|vm_compute in Hq; discriminate Hq].
  pose proof (mreach_healthy _ _ _ M_jobs_reach) as Hh.
  destruct (hy_log _ _ _ Hh) as (bodies & rs & Hli).
  assert (omap (wanted "q" zeroTime) (WalOps.delivered rs) = [("a", 0); ("b", 5)]) as Ef.
  { rewrite <- (contents_is _ _ _ Hli). vm_compute. reflexivity. }
  assert (seq q = 2) as Es by (vm_compute in Hq; injection Hq as <-; reflexivity).
  destruct (replay_republishes calm "q" (Bookmark.Mk 7 0) zeroTime None (λ _, 60) (λ i, one_byte (20 + i))
    M_jobs q [] bodies [] rs) as (M' & q' & k & e & E & Eq & Hp).
  - exact Hq.
  - apply (qo_wf _ _ _ _ (hy_queue _ _ _ Hh "q" q Hq)).
  - exact Hli.
  - constructor.
  - reflexivity.
  - by left.
  - lia.
  - rewrite Ef, Es. vm_compute. reflexivity.
  - rewrite Ef, Es in Hp. exists M', q, q', k, e. split; [reflexivity|]. split; [exact E|]. split; [exact Eq|exact Hp].
Defined.

(** C38: the epoch check has a gap.  A bookmark with offset zero is accepted
    whatever its epoch, so after a compaction it replays what the compaction
    wrote: everything the queue still holds, leased, delayed and dead letters
    included, is collected for a second copy. *)
Theorem replay_from_zero_duplicates `{JsonLaws} `{RangingLaws} (envs : nat → wenv) T M M' env n q epoch fs :
  mreach envs T M → CompactAll env M = Some (M', None) → queues M !! n = Some q →
  ∃ M2, Replay_collect n (Bookmark.Mk epoch 0) zeroTime (SEnv None None fs) M' =
    Some (M2, Ok (payload (mem q) <$> all_locs q)).
Proof.
  intros Hr Ec Hq. pose proof (mreach_healthy _ _ _ Hr) as Hh.
  destruct (CompactAll_epoch env M M' Ec) as [Eq _].
  destruct (CompactAll_log T env M M') as (bodies & rs & Hli & _ & Hst);
    [intros n' q'; by eapply healthy_sound|done|].
  eexists. rewrite (Replay_collect_ok n _ _ _ M' [] bodies [] rs);
    [|rewrite Eq; by eexists|exact Hli|constructor|done|by left|done].
  do 3 f_equal. rewrite (omap_stored n _ _ Hst).
  assert (name q = n) as <- by apply (qo_name _ _ _ _ (hy_queue _ _ _ Hh n q Hq)).
  apply wanted_all_recs; [apply elem_visited; eauto|]. apply visited_names.
  intros n' q' Hq'. apply (qo_name _ _ _ _ (hy_queue _ _ _ Hh n' q' Hq')).
Qed.

Lemma replay_from_zero_duplicates_witness :
  ∃ M2, Replay_collect "q" (Bookmark.Mk 99 0) zeroTime quiet_scan M_compact = Some (M2, Ok [("b", 5); ("a", 0)]).
Proof.
  destruct (queues M_jobs !! "q") as [q|] eqn:Hq; [|vm_compute in Hq; discriminate Hq].
  destruct (replay_from_zero_duplicates calm 10 M_jobs M_compact good_cenv "q" q 99 None) as [M2 E].
  - apply M_jobs_reach.
  - apply M_compact_eq.
  - exact Hq.
  - exists M2. etransitivity; [exact E|]. vm_compute in Hq. injection Hq as <-. vm_compute. reflexivity.
Defined.

(** ** Creation *)

(** A name that can be a segment of a path. *)
Definition path_segment (s : string) : Prop :=
  s ≠ "" ∧ ∀ ch, ch ∈ String.list_ascii_of_string s → ch ∉ String.list_ascii_of_string "/?#% ".

Lemma containsAny_spec s chars :
  containsAny s chars = false ↔
  ∀ ch, ch ∈ String.list_ascii_of_string s → ch ∉ String.list_ascii_of_string chars.
Proof.
  induction s as [|ch s IH]; [simpl; split; [by intros _ c ?%not_elem_of_nil|done]|].
  cbn [containsAny String.list_ascii_of_string]. rewrite orb_false_iff, bool_decide_eq_false, IH.
  set_solver.
Qed.

(** C30: a queue exists only once it is durable.  A creation that succeeds was
    of a valid configuration under a free name, and from then on the queue is
    empty, and a restart - at once, after any torn write - has it again with
    the same configuration.  A creation that fails leaves the queues alone, and
    each way to fail has its error: an empty name, a name with a character that
    cannot stand in a path, a mode that is none, a name that is taken, a record
    that could not be written.  [ErrQueueExists] is the answer exactly when the
    configuration is valid and the name taken, the file system's own errors
    being others. *)
Theorem create_durable_first `{JsonLaws} `{RangingLaws} (envs : nat → wenv) T T' c M M' r tl sy tick now :
  mreach envs T M → config_safe c = true → torn tl → (∀ n, T ≤ now n ≤ T') →
  Create envs c M = (M', r) →
  let valid := path_segment (Config.Name c) ∧ (Config.Mode c = FIFO ∨ Config.Mode c = LIFO) in
  match r with
  | Ok q => valid ∧ q = New c ∧ queues M !! Config.Name c = None ∧
      queues M' = <[Config.Name c := q]> (queues M) ∧
      ∃ M2 q2, mexec envs (MRestart tl sy tick now) M' = Some (M2, MDone None) ∧
        queues M2 !! Config.Name c = Some q2 ∧ cfg q2 = cfg q ∧ seq q2 = 0 ∧ abs q2 = ∅
  | Err e =>
      let taken := is_Some (queues M !! Config.Name c) in
      let written := wal_write (Rec.of_config OpCreateQueue (Config.Name c) (cfg (New c)) 0) true
        (envs (wl_step (wal M))) (wl_wal (wal M)) in
      queues M' = queues M ∧
      (Config.Name c = "" ∧ e = ErrOther "queue name is required" ∨
       Config.Name c ≠ "" ∧ ¬ path_segment (Config.Name c) ∧ e = ErrOther "queue name may not contain" ∨
       path_segment (Config.Name c) ∧ Config.Mode c ≠ FIFO ∧ Config.Mode c ≠ LIFO ∧ e = ErrOther "mode must be" ∨
       valid ∧ taken ∧ e = ErrQueueExists ∨
       valid ∧ ¬ taken ∧ written.2 = Some e) ∧
      (written.2 ≠ Some ErrQueueExists → e = ErrQueueExists ↔ valid ∧ taken)
  end.
Proof.
  intros Hr Hc Ht Hnow E valid. pose proof (mreach_healthy _ _ _ Hr) as Hh.
  pose proof (healthy_create envs T M c Hh Hc) as Hh'. rewrite E in Hh'. unfold Create in E.
  case_bool_decide as H1'.
  { injection E as <- <-. split_and!; [done|by left|]. intros _. split; [done|]. by intros [[[? _] _] _]. }
  destruct (containsAny _ _) eqn:H2'.
  { assert (¬ path_segment (Config.Name c)) as Hno.
    { intros [_ Hs]. apply containsAny_spec in Hs. congruence. }
    injection E as <- <-. split_and!; [done|by right; left|]. intros _. split; [done|]. by intros [[? _] _]. }
  assert (path_segment (Config.Name c)) as Hseg by (split; [done|by apply containsAny_spec]).
  destruct (bool_decide _ && _) eqn:H3'.
  { rewrite andb_true_iff, !bool_decide_eq_true in H3'. destruct H3' as [Hf Hl].
    injection E as <- <-. split_and!; [done|by right; right; left|]. intros _. split; [done|].
    by intros [[_ [?|?]] _]. }
  assert (valid) as Hv.
  { split; [done|]. rewrite andb_false_iff, !bool_decide_eq_false in H3'.
    destruct H3' as [H3'|H3']; apply dec_stable in H3'; auto. }
  destruct (queues M !! Config.Name c) eqn:Hq.
  { injection E as <- <-. split_and!; [done|by do 3 right; left|]. intros _. by split. }
  unfold AppendSync in E. simpl in E. destruct (wal_write _ _ _ _) as [w [e|]] eqn:Ew.
  { injection E as <- <-. cbn [snd]. split_and!; [done|do 4 right; by split_and!; [|intros [? ?]|]|].
    intros Hne. split; [congruence|]. by intros [_ [? ?]]. }
  injection E as <- <-.
  split_and!; [done..|].
  destruct (restart_ok envs T T' _ tl sy tick now (Hh' I) Ht Hnow) as (M2 & E2 & _ & [Hre _] & _).
  destruct (Hre (Config.Name c) (New c)) as (q2 & Hq2 & [_ Ec Es _ Hb]); [apply lookup_insert_eq|].
  exists M2, q2. split_and!; [done|done|done|done|]. apply map_empty. intros y.
  destruct (abs q2 !! y) as [v|] eqn:Hy; [|done].
  destruct (rb_only _ _ _ Hb _ _ Hy) as (x & d & Hx & _). by rewrite New_abs in Hx.
Qed.

Lemma create_durable_first_witness :
  let c := Config.Mk "r" LIFO false 0 0 in
  match Create calm c M_jobs with
  | (M', Ok q) => ∃ M2 q2, mexec calm (MRestart [] 0 0 (λ _, 60)) M' = Some (M2, MDone None) ∧
      queues M2 !! "r" = Some q2 ∧ cfg q2 = cfg q ∧ seq q2 = 0 ∧ abs q2 = ∅
  | _ => False
  end.
Proof.
  intros c. destruct (Create calm c M_jobs) as [M' [q|e]] eqn:E; [|vm_compute in E; discriminate E].
  apply (create_durable_first calm 10 60 c M_jobs M' (Ok q) [] 0 0 (λ _, 60)).
  - apply M_jobs_reach.
  - vm_compute. reflexivity.
  - apply torn_nil.
  - intros _. lia.
  - exact E.
Defined.

(** ** The log is shared *)

(** What opening a log comes to, the log itself apart. *)
Definition opened (r : result Manager) : result (gmap string Queue) :=
  match r with Ok M => Ok (queues M) | Err e => Err e end.

(** C11: how the records of different queues interleave in the log does not matter.
    Each queue writes under its own mutex and the log takes the records one by one,
    so the records of two queues fall into any order, even within one batch of
    leases.  Two logs in which every queue has written the same records in the
    same order open to the same queues - to the last heap slot - or are refused
    with the same error, whatever torn record each ends with. *)
Theorem recovery_ignores_interleaving `{JsonLaws} `{RangingLaws} bodies rs tl bodies' rs' tl' sy tick now step :
  readable bodies rs → torn tl → readable bodies' rs' → torn tl' →
  (∀ n, of_queue n (WalOps.delivered rs) = of_queue n (WalOps.delivered rs')) →
  opened <$> Open sy tick (OEnv (Ok (frames bodies ++ tl)) quiet_scan now) step =
  opened <$> Open sy tick (OEnv (Ok (frames bodies' ++ tl')) quiet_scan now) step.
Proof.
  intros Hr Ht Hr' Ht' Hrs. unfold Open. cbn [oe_content oe_scan oe_now].
  destruct (recover_ok bodies rs tl sy now Hr Ht) as (w & _ & _ & _ & _ & _ & _ & _ & E).
  destruct (recover_ok bodies' rs' tl' sy now Hr' Ht') as (w' & _ & _ & _ & _ & _ & _ & _ & E').
  unfold quiet_scan. rewrite E, E'.
  destruct (recover_all_interleaved _ _ (Recovery (OpenWAL [] 0) ∅ ∅) Hrs) as [Eq Ep].
  fold (rebuilt rs) (rebuilt rs') in Eq, Ep. rewrite Eq, Ep.
  clear. by destruct (install _ _ _) as [[qs|e]|].
Qed.

(** A batch of two leases on one queue, and an enqueue on another before it,
    within it or after it. *)
Definition two_queues (a b c : list Rec) : list Rec :=
  [Rec.of_config OpCreateQueue "p" (Config.Mk "p" FIFO false 0 0) 0;
   Rec.of_config OpCreateQueue "q" (Config.Mk "q" FIFO false 0 0) 0;
   Rec.of_msg OpEnqueue "p" (Msg.Mk "p1" "x" 0 1 5 0 0 "" 0 0);
   Rec.of_msg OpEnqueue "p" (Msg.Mk "p2" "y" 0 2 5 0 0 "" 0 0)] ++ a ++
  [Rec.of_msg OpLease "p" (Msg.Mk "p1" "x" 0 1 5 1 0 "" 0 0)] ++ b ++
  [Rec.of_msg OpLease "p" (Msg.Mk "p2" "y" 0 2 5 1 0 "" 0 0)] ++ c.
Definition stranger : list Rec := [Rec.of_msg OpEnqueue "q" (Msg.Mk "q1" "z" 0 1 5 0 0 "" 0 0)].

Lemma recovery_ignores_interleaving_witness :
  let disk rs := frames (WireCodec.put <$> rs) in
  opened <$> Open 0 0 (OEnv (Ok (disk (two_queues [] stranger []) ++ [])) quiet_scan (λ _, 9)) 0 =
  opened <$> Open 0 0 (OEnv (Ok (disk (two_queues [] [] stranger) ++ [x00])) quiet_scan (λ _, 9)) 0.
Proof.
  intros disk.
  apply (recovery_ignores_interleaving _ (Rec.erase <$> two_queues [] stranger []) _ _ (Rec.erase <$> two_queues [] [] stranger)).
  - apply WireCodec.bodies_readable. repeat constructor; apply fits_dec; vm_compute; reflexivity.
  - apply torn_nil.
  - apply WireCodec.bodies_readable. repeat constructor; apply fits_dec; vm_compute; reflexivity.
  - intros r n rd E. discriminate E.
  - intros n. cbv zeta. unfold of_queue.
    set (l := WalOps.delivered _). set (l' := WalOps.delivered _). vm_compute in l, l'. subst l l'.
    rewrite !filter_cons. repeat case_decide; try reflexivity; simpl in *; congruence.
Defined.

(** ** Messages without a queue *)

(** C31: recovery does not drop messages silently.  When a log opens, every
    queue name the log mentions without ever creating it has no message left,
    alive or dead; a log with such a message does not open. *)
Theorem open_refuses_orphans `{JsonLaws} `{RangingLaws} bodies rs tl sy tick now step M n :
  readable bodies rs → torn tl →
  Open sy tick (OEnv (Ok (frames bodies ++ tl)) quiet_scan now) step = Some (Ok M) →
  created n (WalOps.delivered rs) = None →
  s_live (stage n (WalOps.delivered rs)) = ∅ ∧ s_dlq (stage n (WalOps.delivered rs)) = ∅ ∧
  queues M !! n = None.
Proof.
  intros Hr Ht E Hn. destruct (recover_ok bodies rs tl sy now Hr Ht) as (w' & _ & _ & _ & _ & _ & _ & _ & Erec).
  unfold Open in E. simpl in E. unfold quiet_scan in E. rewrite Erec in E.
  destruct (install _ _ _) as [[qs|]|] eqn:Ei; [|done..]. simpl in E. injection E as <-. simpl.
  assert (r_queues (rebuilt rs) !! n = None) as Hq by (unfold rebuilt; by rewrite recover_all_queues, Hn).
  assert (staged (rebuilt rs) n = stage n (WalOps.delivered rs)) as Es by apply recover_all_staged.
  destruct (install_refuses _ _ _ _ Ei n Hq) as [Hnone Hun]. rewrite <- Es. unfold staged.
  destruct (r_pending (rebuilt rs) !! n) as [st|] eqn:Hp; [|by split_and!].
  destruct (Hun st) as [H1' H2']; [|by split_and!].
  rewrite range_perm. by apply elem_of_map_to_list.
Qed.

(** An enqueue for a queue that was never created, and its ack. *)
Definition orphan_recs : list Rec :=
  [Rec.of_msg OpEnqueue "gone" (Msg.Mk "a1" "hi" 0 1 5 5 0 "" 0 0); Rec.of_id OpAck "gone" "a1"].

Lemma open_refuses_orphans_witness :
  s_live (stage "gone" (Rec.erase <$> orphan_recs)) = ∅ ∧ s_dlq (stage "gone" (Rec.erase <$> orphan_recs)) = ∅.
Proof.
  set (bodies := WireCodec.put <$> orphan_recs).
  destruct (Open 0 0 (OEnv (Ok (frames bodies ++ [])) quiet_scan (λ _, 0)) 0) as [[M|e]|] eqn:E;
    [|vm_compute in E; discriminate E..].
  destruct (open_refuses_orphans bodies (Rec.erase <$> orphan_recs) [] 0 0 (λ _, 0) 0 M "gone")
    as (H1' & H2' & _).
  - apply WireCodec.bodies_readable. repeat constructor; apply fits_dec; vm_compute; reflexivity.
  - apply torn_nil.
  - exact E.
  - vm_compute. reflexivity.
  - split; [exact H1'|exact H2'].
Defined.

(** ** Failed writes *)

(** C8: an accepted message outlives every failure.  Take a message a queue holds
    while memory and log agree, and let any calls follow, each of whose writes
    may fail in any way, reported or not: as long as nobody acknowledges that
    message and no compaction runs, a restart finds it in its queue, body and
    all, even when a failed [Nack] or dead letter record has since made memory
    and log differ.  The restart reads the file as it is, with what the failed
    writes left behind the end of the log and the bytes [cut] of a last record
    over that; asked is only that those bytes do not happen to begin with a whole
    record.  One failed write never leaves one ([failed_write_torn]), and neither
    does the end of a record's text ([torn_text]); it takes pieces of two records
    that fit together and have the right CRC-32. *)
Theorem accepted_survives_faults `{JsonLaws} `{RangingLaws} (envs : nat → wenv) T M0 n q0 x P m M cut sy tick now :
  mreach envs T M0 → queues M0 !! n = Some q0 → abs q0 !! x = Some (P, m) →
  freach envs (Msg.ID m) M0 M → torn (behind M cut) →
  ∃ M' q y P' v, mexec envs (MRestart cut sy tick now) M = Some (M', MDone None) ∧
    queues M' !! n = Some q ∧ wf q ∧ abs q !! y = Some (P', v) ∧ Msg.ID v = Msg.ID m ∧ Msg.Body v = Msg.Body m.
Proof.
  intros Hr Hq Hx Hf Ht. pose proof (mreach_healthy _ _ _ Hr) as Hh.
  pose proof (enduring_start envs n (Msg.ID m) (Msg.Body m) T M0 q0 x P m Hh Hq Hx eq_refl eq_refl) as H0'.
  destruct (freach_enduring envs n (Msg.ID m) (Msg.Body m) M0 M H0' Hf) as [He Ed].
  assert (is_Some (queues M !! n)) as [q Hqm] by (apply elem_of_dom; rewrite Ed; by eapply elem_of_dom_2).
  destruct (enduring_restart envs n (Msg.ID m) (Msg.Body m) M cut sy tick now q He Ht Hqm)
    as (M' & q' & E & Hq' & Hwf & y & P' & v & Hy & Ei & Eb).
  by exists M', q', y, P', v.
Qed.

(** The fifth write fails and leaves five bytes behind. *)
Definition failing (i : nat) : wenv :=
  if bool_decide (i = 4)%nat then WEnv unixEpoch (Some (5%nat, ErrIO "disk full")) None else calm i.
Definition M_fail : Manager := (final_of failing two_jobs).2.

Lemma M_fail_reach : mreach failing 10 M_fail.
Proof.
  assert ((final_of failing two_jobs).1 = 10) as ET by (vm_compute; reflexivity).
  pose proof (final_mreach failing two_jobs) as Hr. by rewrite ET in Hr.
Qed.

(** Two messages that are ready, and a batch whose second lease record is refused. *)
Definition M_batch : Manager :=
  (final_of failing
    [(10, MCreate (Config.Mk "q" FIFO true 2 1000));
     (10, MCall "q" (CEnqueue "a" 0 0 1 (one_byte 1))); (10, MCall "q" (CEnqueue "b" 0 0 2 (one_byte 2)))]).2.

Definition attempts_in (M : Manager) : list Z :=
  match queues M !! "q" with Some q => (λ v : place * Msg, Msg.Attempts v.2) <$> (map_to_list (abs q)).*2 | None => [] end.

(** Nobody was given anything, and after a restart one of the messages has been
    attempted: its record was written before the other was refused. *)
Example refused_batch_is_counted :
  match mexec failing (MCall "q" (CTryReceive 2 50 3 one_byte)) M_batch with
  | Some (M1, MCalled (Ok (RMsgs [] _ (Some _)))) =>
      attempts_in M1 = [0; 0] ∧
      (attempts_in ∘ fst) <$> mexec failing (MRestart [] 0 0 (λ _, 60)) M1 = Some [0; 1]
  | _ => False
  end.
Proof. vm_compute. split; reflexivity. Qed.

(** The sixth write fails, late in its record. *)
Definition leaving (i : nat) : wenv :=
  if bool_decide (i = 5)%nat then WEnv unixEpoch (Some (60%nat, ErrIO "disk full")) None else calm i.
Definition receipt_of (i : nat) : string := newID (one_byte (10 + i)).
Definition two_leased : list (Time * mcall) :=
  [(10, MCreate (Config.Mk "q" FIFO true 2 1000));
   (10, MCall "q" (CEnqueue "a" 0 0 1 (one_byte 1))); (10, MCall "q" (CEnqueue "b" 0 0 2 (one_byte 2)));
   (10, MCall "q" (CTryReceive 2 50 3 (λ i, one_byte (10 + i))))].
Definition M_leased : Manager := (final_of leaving two_leased).2.

(** A [Nack] fails and leaves most of its record; the [Ack] of another message,
    whose record is shorter, succeeds: the end of the long record is still there. *)
Lemma accepted_survives_faults_witness :
  match mexec leaving (MCall "q" (CNack (receipt_of 0) 0 20)) M_leased with
  | Some (M1, MCalled (Ok (RErr (Some _)))) =>
      match mexec leaving (MCall "q" (CAck (receipt_of 1))) M1 with
      | Some (M2, MCalled (Ok (RErr None))) =>
          behind M2 [] ≠ [] ∧
          ∃ M' q y P v, mexec leaving (MRestart [] 0 0 (λ _, 60)) M2 = Some (M', MDone None) ∧
            queues M' !! "q" = Some q ∧ wf q ∧ abs q !! y = Some (P, v) ∧
            Msg.ID v = newID (one_byte 1) ∧ Msg.Body v = "a"
      | _ => False
      end
  | _ => False
  end.
Proof.
  destruct (mexec _ _ M_leased) as [[M1 [|[[| |[e|]| | |]|]|]]|] eqn:E1; try (vm_compute in E1; discriminate E1).
  destruct (mexec _ _ M1) as [[M2 [|[[| |[e2|]| | |]|]|]]|] eqn:E2;
    try (vm_compute in E1; injection E1 as <- _; vm_compute in E2; discriminate E2).
  destruct (queues M_leased !! "q") as [q|] eqn:Hq; [|vm_compute in Hq; discriminate Hq].
  destruct (queues M1 !! "q") as [q1|] eqn:Hq1;
    [|vm_compute in E1; injection E1 as <- _; vm_compute in Hq1; discriminate Hq1].
  destruct (abs q !! 0%nat) as [[P m]|] eqn:Hx;
    [|vm_compute in Hq; injection Hq as <-; vm_compute in Hx; discriminate Hx].
  assert (Msg.ID m = newID (one_byte 1) ∧ Msg.Body m = "a") as [Ei Eb].
  { vm_compute in Hq. injection Hq as <-. vm_compute in Hx. injection Hx as _ <-. vm_compute. split; reflexivity. }
  assert (behind M2 [] ≠ [] ∧ torn (behind M2 [])) as [Hne Ht].
  { vm_compute in E1. injection E1 as <- _. vm_compute in E2. injection E2 as <-.
    set (l := behind _ _). vm_compute in l. subst l. split; [discriminate|]. apply torn_text. vm_compute. discriminate. }
  split; [exact Hne|]. rewrite <- Ei, <- Eb.
  apply (accepted_survives_faults leaving 10 M_leased "q" q 0%nat P m M2 [] 0 0 (λ _, 60)); [|exact Hq|exact Hx| |exact Ht].
  - assert ((final_of leaving two_leased).1 = 10) as ET by (vm_compute; reflexivity).
    pose proof (final_mreach leaving two_leased) as Hr. rewrite ET in Hr. exact Hr.
  - apply (fr_step leaving (Msg.ID m) M_leased M1 "q" (CAck (receipt_of 1)) q1 M2 (MCalled (Ok (RErr None))));
      [|exact Hq1|exact I| |exact E2].
    + apply (fr_step leaving (Msg.ID m) M_leased M_leased "q" (CNack (receipt_of 0) 0 20) q M1 (MCalled (Ok (RErr (Some e)))));
        [apply fr_refl|exact Hq|exact I| |exact E1]. split; vm_compute; reflexivity.
    + intros y v Hl Hv. rewrite Ei. vm_compute in E1. injection E1 as <- _. vm_compute in Hq1. injection Hq1 as <-.
      vm_compute in Hl. injection Hl as <-. vm_compute in Hv. injection Hv as <-. vm_compute. discriminate.
Defined.

(** C36: a message that a failed [Nack] leaves out of every heap is
    still in the log, where a restart would find it - unless a compaction comes
    first: it keeps what the heaps hold, so the message is lost for good,
    though it was accepted and never acknowledged. *)
Theorem failed_nack_compacted_away `{JsonLaws} `{RangingLaws} (envs : nat → wenv)
    T T' M M1 M2 n q r x m delay now0 e env tl sy tick now :
  mreach envs T M → queues M !! n = Some q → leases q !! r = Some x → mem q !! x = Some m →
  exhausted (cfg q) m = false →
  mexec envs (MCall n (CNack r delay now0)) M = Some (M1, MCalled (Ok (RErr (Some e)))) →
  CompactAll env M1 = Some (M2, None) → torn tl → (∀ n, T ≤ now n ≤ T') →
  ∃ M3 q3, mexec envs (MRestart tl sy tick now) M2 = Some (M3, MDone None) ∧
    queues M3 !! n = Some q3 ∧ ∀ y v, abs q3 !! y = Some v → Msg.ID v.2 ≠ Msg.ID m.
Proof.
  intros Hr Hq Hl Hm Hex E Ec Ht Hnow. pose proof (mreach_healthy _ _ _ Hr) as Hh.
  destruct (failed_nack envs T M n q r x m delay now0 M1 e) as (q1 & Eq & Hs1 & Ea); [done..|].
  assert (∀ n' q', queues M1 !! n' = Some q' → queue_sound T n' q') as Hs.
  { intros n' q'. rewrite Eq. destruct (decide (n = n')) as [<-|Hne].
    - rewrite lookup_insert_eq. by intros [= <-].
    - rewrite lookup_insert_ne by done. by eapply healthy_sound. }
  destruct (CompactAll_epoch env M1 M2 Ec) as [Eq2 _].
  destruct (restart_ok envs T T' M2 tl sy tick now (compact_heals envs T M1 env M2 Hs Ec) Ht Hnow)
    as (M3 & E3 & _ & [Hre _] & _).
  destruct (Hre n q1) as (q3 & Hq3 & [_ _ _ _ Hb]); [by rewrite Eq2, Eq, lookup_insert_eq|].
  exists M3, q3. split_and!; [done|done|]. intros y v Hy Ei.
  destruct (rb_only _ _ _ Hb _ _ Hy) as (z & d & Hz & Ed). rewrite Ea in Hz.
  apply lookup_delete_Some in Hz as [Hne Hz]. apply Hne.
  pose proof (hy_queue _ _ _ Hh n q Hq) as Hqo.
  destruct (receipt_lookup q r x (qo_wf _ _ _ _ Hqo) Hl) as (m' & Hm' & _ & _ & Hx). simplify_eq.
  apply (mi_ids _ _ _ _ (qo_mirrors _ _ _ _ Hqo) x z _ d Hx Hz). simpl. congruence.
Qed.

Lemma failed_nack_compacted_away_witness :
  match mexec failing (MCall "q" (CNack (newID (one_byte 0)) 0 20)) M_fail with
  | Some (M1, MCalled (Ok (RErr (Some _)))) =>
      match CompactAll good_cenv M1 with
      | Some (M2, None) =>
          ∃ M3 q3, mexec failing (MRestart [] 0 0 (λ _, 60)) M2 = Some (M3, MDone None) ∧
            queues M3 !! "q" = Some q3 ∧ ∀ y v, abs q3 !! y = Some v → Msg.ID v.2 ≠ newID (one_byte 1)
      | _ => False
      end
  | _ => False
  end.
Proof.
  destruct (mexec _ _ M_fail) as [[M1 [|[[| |[e|]| | |]|]|]]|] eqn:E; try (vm_compute in E; discriminate E).
  destruct (CompactAll good_cenv M1) as [[M2 [e2|]]|] eqn:Ec;
    try (vm_compute in E; injection E as <- <-; vm_compute in Ec; discriminate Ec).
  destruct (queues M_fail !! "q") as [q|] eqn:Hq; [|vm_compute in Hq; discriminate Hq].
  destruct (leases q !! newID (one_byte 0)) as [x|] eqn:Hl;
    [|vm_compute in Hq; injection Hq as <-; vm_compute in Hl; discriminate Hl].
  destruct (mem q !! x) as [m|] eqn:Hm;
    [|vm_compute in Hq; injection Hq as <-; vm_compute in Hl; injection Hl as <-; vm_compute in Hm; discriminate Hm].
  assert (exhausted (cfg q) m = false ∧ Msg.ID m = newID (one_byte 1)) as [Hex Ei].
  { vm_compute in Hq. injection Hq as <-. vm_compute in Hl. injection Hl as <-. vm_compute in Hm.
    injection Hm as <-. vm_compute. split; reflexivity. }
  rewrite <- Ei.
  apply (failed_nack_compacted_away failing 10 60 M_fail M1 M2 "q" q (newID (one_byte 0)) x m 0 20 e good_cenv).
  - exact M_fail_reach.
  - exact Hq.
  - exact Hl.
  - exact Hm.
  - exact Hex.
  - exact E.
  - exact Ec.
  - apply torn_nil.
  - intros _. lia.
Defined.
