(* ===== verification/Api.v ===== *)
(** * api.go: the HTTP handlers

    Every handler as a function from the decoded request, the manager and what
    it reads from its environment to the manager and the reply.  The router, the
    sockets and the JSON encoder are not modelled: a request names its route and
    its path value, and its body is what [json.Decoder] makes of it. *)

From Stdlib Require Import Strings.Byte.
From S2P Require Import Prelude ContainerHeap Msg Heaps LogStore Queue QueueOps Calls Bytes Encoding Wal Manager Receive.

(** ** Bounds *)

Definition maxDelay : Duration := 365 * 24 * Hour.
Definition maxVisibility : Duration := 12 * Hour.
Definition maxWait : Duration := 60 * Second.
Definition maxBatch : Z := 1000.

(** [func boundedMS(n int, max time.Duration, field string) (time.Duration, error)]. *)
Definition boundedMS (n : Z) (max : Duration) (field : string) : result Duration :=
  if n <? 0 then Err (ErrOther (field ++ " must not be negative"))
  else
    let limit := Z.quot max Millisecond in
    if limit <? n then Err (ErrOther (field ++ " must be at most"))
    else Ok (i64 (n * Millisecond)).

(** ** Bodies and replies *)

(** What decoding a body comes to: [io.EOF], any other error, or a value. *)
Inductive body (A : Type) :=
  | NoBody
  | Malformed (e : error)
  | Decoded (v : A).
Arguments NoBody {A}.
Arguments Malformed {A} e.
Arguments Decoded {A} v.

(** [decode]: an absent body leaves the destination as it was declared. *)
Definition decode {A} (dst : A) (b : body A) : result A :=
  match b with NoBody => Ok dst | Malformed e => Err e | Decoded v => Ok v end.

Record enqueueReq := EnqueueReq { enq_Body : string; enq_Priority : Z; enq_DelayMS : Z }.
Record receiveReq := ReceiveReq { rcv_Max : Z; rcv_VisibilityMS : Z; rcv_WaitMS : Z }.
Record ackReq := AckReq { ack_Receipt : string }.
Record nackReq := NackReq { nack_Receipt : string; nack_DelayMS : Z }.
Record extendReq := ExtendReq { ext_Receipt : string; ext_VisibilityMS : Z }.
Record replayReq := ReplayReq {
  rep_Source : string; rep_Epoch : Z; rep_FromOffset : Z; rep_SinceUnixMS : Z;
}.

Inductive payload :=
  | PError (e : error)
  | PConfig (c : Config)
  | PQueues (l : list Stats.t)
  | PStats (s : Stats.t)
  | PMsg (m : Msg)
  | PMessages (l : list Msg)
  | PAcked
  | PNacked
  | PExpiry (t : Time)
  | PReplayed (source : string) (n : Z)
  | PReplayFailed (source : string) (n : Z) (e : error)
  | PCompacted (before after epoch : Z)
  | PBookmark (b : Bookmark.t)
  | PHealthy
  | PDegraded (e : error)
  | PEmpty.

(** [respond]; [fail] is a reply with an error. *)
Record reply := Reply { status : Z; payload_of : payload }.
Definition fail (status : Z) (e : error) : reply := Reply status (PError e).

Definition StatusOK := 200.
Definition StatusCreated := 201.
Definition StatusBadRequest := 400.
Definition StatusNotFound := 404.
Definition StatusConflict := 409.
Definition StatusInternalServerError := 500.
Definition StatusServiceUnavailable := 503.

(** [errors.Is]: the wrapped error counts too. *)
Fixpoint errorsIs (target : error → bool) (e : error) : bool :=
  target e || match e with ErrUnusable c | ErrReopen c => errorsIs target c | _ => false end.

Definition isErr (target e : error) : bool := bool_decide (e = target).
Definition isStale (e : error) : bool := match e with ErrStaleBookmark _ _ => true | _ => false end.
Definition isCorrupt (e : error) : bool := match e with ErrCorrupt _ _ => true | _ => false end.

(** [time.UnixMilli]. *)
Definition UnixMilli (ms : Z) : Time := unixEpoch + ms * Millisecond.

Section Handlers.
Context `{Json} `{Ranging} (envs : nat → wenv).
#[local] Instance api_log : Log wlog := wal_log envs.

(** A handler's effect; [None] inside is a poll that is still waiting. *)
Abbreviation handled := (option (Manager * option reply)).
Definition answer (m : Manager) (r : reply) : handled := Some (m, Some r).

(** ** Queues *)

Definition createQueue (b : body Config) (m : Manager) : handled :=
  match decode (Config.Mk "" "" false 0 0) b with
  | Err e => answer m (fail StatusBadRequest e)
  | Ok cfg =>
      let cfg := if bool_decide (Config.Mode cfg = "") then Config.set_Mode FIFO cfg else cfg in
      if (Config.VisibilityTimeoutMS cfg <? 0) ||
         (maxVisibility <? i64 (i64 (Config.VisibilityTimeoutMS cfg) * Millisecond))
      then answer m (fail StatusBadRequest (ErrOther "visibility_timeout_ms must be between"))
      else
        match Create envs cfg m with
        | (m, Err e) =>
            answer m (fail (if errorsIs (isErr ErrQueueExists) e then StatusConflict else StatusBadRequest) e)
        | (m, Ok q) => answer m (Reply StatusCreated (PConfig (Queue.cfg q)))
        end
  end.

Definition listQueues (now : string → Time) (m : Manager) : handled :=
  l ← List_ now m; answer m (Reply StatusOK (PQueues l)).

Definition queueStats (name : string) (now : Time) (m : Manager) : handled :=
  match Get name m with
  | Err e => answer m (fail StatusNotFound e)
  | Ok q => s ← Stats_ now q; answer m (Reply StatusOK (PStats s))
  end.

(** ** Messages *)

(** The beginning they share: the queue, then the body. *)
Definition with_body {A} (name : string) (dst : A) (b : body A) (m : Manager) (f : A → handled) : handled :=
  match Get name m with
  | Err e => answer m (fail StatusNotFound e)
  | Ok _ =>
      match decode dst b with
      | Err e => answer m (fail StatusBadRequest e)
      | Ok req => f req
      end
  end.

(** [if err != nil { fail(w, http.StatusBadRequest, err); return }]. *)
Definition or_bad_request {A} (r : result A) (m : Manager) (f : A → handled) : handled :=
  match r with Err e => answer m (fail StatusBadRequest e) | Ok v => f v end.

Definition enqueue (name : string) (b : body enqueueReq) (now : Time) (rnd : list byte) (m : Manager) :
    handled :=
  with_body name (EnqueueReq "" 0 0) b m (λ req,
    if bool_decide (enq_Body req = "") then answer m (fail StatusBadRequest (ErrOther "body is required"))
    else
      or_bad_request (boundedMS (enq_DelayMS req) maxDelay "delay_ms") m (λ delay,
        '(m, r) ← on_queue name (Enqueue (enq_Body req) (enq_Priority req) delay now rnd) m;
        match r with
        | Err e =>
            answer m (fail (if errorsIs (isErr ErrPriorityDisabled) e then StatusBadRequest
                            else StatusInternalServerError) e)
        | Ok msg => answer m (Reply StatusCreated (PMsg msg))
        end)).

(** [gone] is [r.Context().Err() != nil]: the handler returns without a word, which
    net/http makes an empty 200 for whoever is still there.  [None] while the poll
    waits. *)
Definition receive (name : string) (b : body receiveReq) (now : Time) (rounds : list round) (gone : bool)
    (m : Manager) : handled :=
  with_body name (ReceiveReq 0 0 0) b m (λ req,
    if (rcv_Max req <? 0) || (maxBatch <? rcv_Max req)
    then answer m (fail StatusBadRequest (ErrOther "max must be between"))
    else
      or_bad_request (boundedMS (rcv_VisibilityMS req) maxVisibility "visibility_ms") m (λ visibility,
      or_bad_request (boundedMS (rcv_WaitMS req) maxWait "wait_ms") m (λ wait,
        '(m, r) ← on_queue name (Receive (rcv_Max req) visibility wait now rounds) m;
        match r with
        | Failed e => if (gone : bool) then answer m (Reply StatusOK PEmpty) else answer m (fail StatusInternalServerError e)
        | Waiting => Some (m, None)
        | Received msgs => answer m (Reply StatusOK (PMessages msgs))
        end))).

(** The status of an error of a method that takes a receipt. *)
Definition lease_status (e : error) : Z :=
  if errorsIs (isErr ErrNoLease) e then StatusConflict else StatusInternalServerError.

Definition ack (name : string) (b : body ackReq) (m : Manager) : handled :=
  with_body name (AckReq "") b m (λ req,
    '(m, e) ← on_queue name (Ack (ack_Receipt req)) m;
    match e with
    | Some e => answer m (fail (lease_status e) e)
    | None => answer m (Reply StatusOK PAcked)
    end).

Definition nack (name : string) (b : body nackReq) (now : Time) (m : Manager) : handled :=
  with_body name (NackReq "" 0) b m (λ req,
    or_bad_request (boundedMS (nack_DelayMS req) maxDelay "delay_ms") m (λ delay,
      '(m, e) ← on_queue name (Nack (nack_Receipt req) delay now) m;
      match e with
      | Some e => answer m (fail (lease_status e) e)
      | None => answer m (Reply StatusOK PNacked)
      end)).

Definition extend (name : string) (b : body extendReq) (now : Time) (m : Manager) : handled :=
  with_body name (ExtendReq "" 0) b m (λ req,
    or_bad_request (boundedMS (ext_VisibilityMS req) maxVisibility "visibility_ms") m (λ visibility,
      '(m, r) ← on_queue name (λ q w, '(q, r) ← Extend (ext_Receipt req) visibility now q; Some (q, w, r)) m;
      match r with
      | Err e => answer m (fail (lease_status e) e)
      | Ok expiry => answer m (Reply StatusOK (PExpiry expiry))
      end)).

(** ** Replay *)

Definition replay (name : string) (b : body replayReq) (dlq_now : Time) (env : senv) (now : nat → Time)
    (rnd : nat → list byte) (m : Manager) : handled :=
  with_body name (ReplayReq "" 0 0 0) b m (λ req,
    if bool_decide (rep_Source req = "") || bool_decide (rep_Source req = "dlq") then
      '(m, (n, e)) ← on_queue name (ReplayDLQ dlq_now) m;
      match e with
      | Some e => answer m (Reply StatusInternalServerError (PReplayFailed "dlq" n e))
      | None => answer m (Reply StatusOK (PReplayed "dlq" n))
      end
    else if bool_decide (rep_Source req = "log") then
      if rep_FromOffset req <? 0
      then answer m (fail StatusBadRequest (ErrOther "from_offset must not be negative"))
      else
        let since := if 0 <? rep_SinceUnixMS req then UnixMilli (rep_SinceUnixMS req) else zeroTime in
        '(m, (n, e)) ← Replay envs name (Bookmark.Mk (rep_Epoch req) (rep_FromOffset req)) since env now rnd m;
        match e with
        | Some e =>
            answer m (Reply (if errorsIs isStale e || errorsIs isCorrupt e then StatusBadRequest
                             else StatusInternalServerError) (PReplayFailed "log" n e))
        | None => answer m (Reply StatusOK (PReplayed "log" n))
        end
    else answer m (fail StatusBadRequest (ErrOther "source must be"))).

(** ** Administration *)

Definition compact (env : cenv) (m : Manager) : handled :=
  let before := Bookmark_ m in
  '(m, e) ← CompactAll env m;
  match e with
  | Some e => answer m (fail StatusInternalServerError e)
  | None =>
      let after := Bookmark_ m in
      answer m (Reply StatusOK (PCompacted (Bookmark.Offset before) (Bookmark.Offset after) (Bookmark.Epoch after)))
  end.

Definition bookmark (m : Manager) : handled := answer m (Reply StatusOK (PBookmark (Bookmark_ m))).

Definition health (m : Manager) : handled :=
  match ManagerErr m with
  | Some e => answer m (Reply StatusServiceUnavailable (PDegraded e))
  | None => answer m (Reply StatusOK PHealthy)
  end.

(** ** The routes *)

(** A request, with what its handler reads from the environment. *)
Inductive request :=
  | PostQueues (b : body Config)
  | GetQueues (now : string → Time)
  | GetQueue (name : string) (now : Time)
  | PostMessages (name : string) (b : body enqueueReq) (now : Time) (rnd : list byte)
  | PostReceive (name : string) (b : body receiveReq) (now : Time) (rounds : list round) (gone : bool)
  | PostAck (name : string) (b : body ackReq)
  | PostNack (name : string) (b : body nackReq) (now : Time)
  | PostExtend (name : string) (b : body extendReq) (now : Time)
  | PostReplay (name : string) (b : body replayReq) (dlq_now : Time) (env : senv) (now : nat → Time)
      (rnd : nat → list byte)
  | PostCompact (env : cenv)
  | GetBookmark
  | GetHealthz.

(** [routes]. *)
Definition serve (r : request) : Manager → handled :=
  match r with
  | PostQueues b => createQueue b
  | GetQueues now => listQueues now
  | GetQueue name now => queueStats name now
  | PostMessages name b now rnd => enqueue name b now rnd
  | PostReceive name b now rounds gone => receive name b now rounds gone
  | PostAck name b => ack name b
  | PostNack name b now => nack name b now
  | PostExtend name b now => extend name b now
  | PostReplay name b dlq_now env now rnd => replay name b dlq_now env now rnd
  | PostCompact env => compact env
  | GetBookmark => bookmark
  | GetHealthz => health
  end.
End Handlers.
