(* ===== verification/ApiOps.v ===== *)
(** * The handlers, one lemma each

    A handler of a sound manager replies with one of the statuses it names, the
    manager stays sound, and a reply that blames the client has left every
    queue's messages alone. *)

From Stdlib Require Import Strings.Byte.
From S2P Require Import Prelude ContainerHeap Msg Heaps LogStore Queue QueueInv QueueSpec QueueOps QueueReceive Calls Effects History Bytes Encoding Wal WalOps Manager Recovery Restore ManagerOps CompactOps ManagerRun ReplayOps Receive Api.

Implicit Types (q : Queue) (m : Msg) (M : Manager) (n : string).

(** ** Sound managers *)

(** Every queue is well formed and filed under its own name. *)
Definition sound M : Prop := ∀ n q, queues M !! n = Some q → wf q ∧ name q = n.

(** The messages of every queue are the same. *)
Definition kept M M' : Prop := ∀ n, abs <$> queues M' !! n = abs <$> queues M !! n.

Lemma kept_refl M : kept M M.
Proof. done. Qed.

(** Errors that come from the file system or the encoder, not from the package. *)
Definition foreign (e : error) : bool :=
  negb (errorsIs (λ e, isErr ErrNoLease e || isStale e || isCorrupt e) e).

Definition foreign_opt (e : option error) : Prop := ∀ x, e = Some x → foreign x = true.
Definition foreign_log (w : wlog) : Prop := foreign_opt (WAL.failed (wl_wal w)).

(** The answers of the operating system are not the package's own errors. *)
Definition foreign_env (envs : nat → wenv) : Prop :=
  ∀ i, (∀ k e, we_write (envs i) = Some (k, e) → foreign e = true) ∧ foreign_opt (we_sync (envs i)).

Lemma errorsIs_impl (p p' : error → bool) e :
  (∀ x, p x = true → p' x = true) → errorsIs p' e = false → errorsIs p e = false.
Proof.
  intros Hp. induction e; simpl; rewrite ?orb_false_iff; intros Hf;
    repeat match goal with |- context [p ?x] => pose proof (Hp x); destruct (p x) eqn:? end;
    naive_solver.
Qed.

Lemma foreign_no_lease e : foreign e = true → errorsIs (isErr ErrNoLease) e = false.
Proof.
  intros Hf%negb_true_iff. revert Hf. apply errorsIs_impl. intros x ->. done.
Qed.

Lemma foreign_replay e : foreign e = true → errorsIs isStale e || errorsIs isCorrupt e = false.
Proof.
  intros Hf%negb_true_iff. apply orb_false_iff.
  split; revert Hf; apply errorsIs_impl; intros x ->; by rewrite ?orb_true_r.
Qed.

Section Foreign.
Context `{Json} (envs : nat → wenv) (Henv : foreign_env envs).
#[local] Instance foreign_wal : Log wlog := wal_log envs.

Lemma write_foreign r d w w' e :
  foreign_log w → write r d w = (w', e) → foreign_log w' ∧ foreign_opt e.
Proof.
  unfold foreign_log. intros Hw E. simpl in E. destruct (Henv (wl_step w)) as [H1' H2'].
  destruct (wal_write _ _ _ _) as [w1 e1] eqn:Ew. injection E as <- <-. simpl.
  unfold wal_write, encode in Ew.
  destruct (marshal _) as [b|]; [|injection Ew as <- <-; split; [done|by intros x [= <-]]].
  destruct (maxRecord <? _); [injection Ew as <- <-; split; [done|by intros x [= <-]]|].
  destruct (WAL.failed (wl_wal w)) as [c|] eqn:Ef.
  { injection Ew as <- <-. rewrite Ef. split; [done|]. intros x [= <-]. by apply (Hw c). }
  unfold WriteAt in Ew. destruct (we_write _) as [[k e]|] eqn:Ewr.
  - injection Ew as <- <-. simpl. rewrite Ef. split; [done|]. intros x [= <-]. by eapply H1'.
  - destruct d; cbn [negb] in Ew; [|injection Ew as <- <-; simpl; by rewrite Ef].
    destruct (0 <? _); [injection Ew as <- <-; simpl; by rewrite Ef|].
    unfold Sync in Ew. destruct (we_sync _) as [e|] eqn:Es; injection Ew as <- <-; simpl; [done|].
    by rewrite Ef.
Qed.
End Foreign.

(** ** Handlers *)

Section Handlers.
Context `{JsonLaws} `{RangingLaws} (envs : nat → wenv).
#[local] Instance ops_log : Log wlog := wal_log envs.

Definition blames (r : reply) : Prop := 400 ≤ status r < 500.

(** A handler that runs to its reply. *)
Definition fine (codes : list Z) M (h : option (Manager * option reply)) : Prop :=
  ∃ M' r, h = Some (M', Some r) ∧ sound M' ∧ status r ∈ codes ∧
    (foreign_env envs → foreign_log (wal M) → blames r → kept M M').

Lemma fine_weaken codes codes' M h : codes ⊆ codes' → fine codes M h → fine codes' M h.
Proof. intros Hc (M' & r & ? & ? & ? & ?). exists M', r. split_and!; [done..|set_solver|done]. Qed.

Lemma fine_answer codes M r : sound M → status r ∈ codes → fine codes M (answer M r).
Proof. intros Hs Hr. by exists M, r. Qed.

(** The reply after one method of the queue [n]. *)
Lemma fine_after codes M n q q' w' r :
  sound M → queues M !! n = Some q → wf q' → cfg q' = cfg q → status r ∈ codes →
  (foreign_env envs → foreign_log (wal M) → blames r → abs q' = abs q) →
  fine codes M (answer (set_queues (<[n := q']> (queues M)) (set_log w' M)) r).
Proof.
  intros Hs Hq Hwf Hc Hr Hk. eexists _, r. split_and!; [done| |done|].
  - intros n' q1 Hq1. simpl in Hq1. destruct (decide (n = n')) as [<-|Hne].
    + rewrite lookup_insert_eq in Hq1. injection Hq1 as <-. split; [done|].
      unfold name. rewrite Hc. apply (Hs _ _ Hq).
    + rewrite lookup_insert_ne in Hq1 by done. by apply Hs.
  - intros He Hw Hb n'. simpl. destruct (decide (n = n')) as [<-|Hne].
    + rewrite lookup_insert_eq, Hq. simpl. by rewrite Hk.
    + by rewrite lookup_insert_ne.
Qed.

(** The shared beginning. *)
Lemma fine_body {A} codes n (dst : A) b M f :
  sound M → StatusNotFound ∈ codes → StatusBadRequest ∈ codes →
  (∀ q req, queues M !! n = Some q → decode dst b = Ok req → fine codes M (f req)) →
  fine codes M (with_body n dst b M f).
Proof.
  intros Hs H4 H0' Hf. unfold with_body, Get. destruct (queues M !! n) as [q|] eqn:Hq.
  - destruct (decode dst b) as [req|e] eqn:Hd; [by eapply Hf|by apply fine_answer].
  - by apply fine_answer.
Qed.

Lemma fine_bounded {A} codes (v : result A) M f :
  sound M → StatusBadRequest ∈ codes → (∀ x, v = Ok x → fine codes M (f x)) →
  fine codes M (or_bad_request v M f).
Proof. intros Hs H0' Hf. destruct v; [by apply Hf|by apply fine_answer]. Qed.

Ltac codes := unfold fail, StatusOK, StatusCreated, StatusBadRequest, StatusNotFound, StatusConflict,
  StatusInternalServerError, StatusServiceUnavailable in *; simpl; repeat case_match; set_solver.

(** The handlers' log is this section's. *)
Ltac at_queue Hs Hq Hwf :=
  unfold on_queue; rewrite Hq; simpl_bind; try change (api_log envs) with ops_log;
  destruct (Hs _ _ Hq) as [Hwf _].

Lemma createQueue_fine b M : sound M → fine [201; 400; 409] M (createQueue envs b M).
Proof.
  intros Hs. unfold createQueue. destruct (decode _ b) as [c|e]; [|apply fine_answer; [done|codes]].
  set (c' := if bool_decide _ then _ else _). destruct (_ || _); [apply fine_answer; [done|codes]|].
  unfold Create. case_bool_decide; [apply fine_answer; [done|codes]|].
  destruct (containsAny _ _); [apply fine_answer; [done|codes]|].
  destruct (bool_decide _ && _); [apply fine_answer; [done|codes]|].
  destruct (queues M !! Config.Name c') eqn:Hn; [apply fine_answer; [done|codes]|].
  destruct (AppendSync _ _) as [w [e|]].
  - eexists _, _. split; [done|]. split_and!; [done|codes|done].
  - eexists _, _. split; [done|]. split_and!; [|codes|unfold blames, StatusCreated; simpl; lia].
    intros n q Hq. simpl in Hq. destruct (decide (Config.Name c' = n)) as [<-|Hne].
    + rewrite lookup_insert_eq in Hq. injection Hq as <-. split; [apply New_wf|apply New_name].
    + rewrite lookup_insert_ne in Hq by done. by apply Hs.
Qed.

Lemma enqueue_fine n b now rnd M :
  sound M → (∀ q, queues M !! n = Some q → 0 ≤ seq q < two64 - 1) →
  fine [201; 400; 404; 500] M (enqueue envs n b now rnd M).
Proof.
  intros Hs Hseq. apply fine_body; [done|codes..|]. intros q req Hq _.
  case_bool_decide; [apply fine_answer; [done|codes]|]. apply fine_bounded; [done|codes|]. intros d _.
  at_queue Hs Hq Hwf.
  destruct (decide (accepts q (enq_Priority req))) as [Ha|Ha].
  - destruct (Enqueue_ok (enq_Body req) (enq_Priority req) d now rnd q (wal M) Hwf Ha (Hseq q Hq))
      as (q' & res & E & Hwf' & _ & Hc & _ & _ & _ & _ & Hres). rewrite E. simpl_bind. cbn iota beta.
    destruct (snd _) as [e|].
    + destruct Hres as (-> & Ea & _). by eapply fine_after; [done..|codes|].
    + destruct Hres as (m' & -> & _). eapply fine_after; [done..|codes|].
      unfold blames, StatusCreated. simpl. lia.
  - rewrite Enqueue_disabled by done. simpl_bind. cbn iota beta. by eapply fine_after; [done..|codes|].
Qed.

Lemma ack_fine n b M : sound M → fine [200; 400; 404; 409; 500] M (ack envs n b M).
Proof.
  intros Hs. apply fine_body; [done|codes..|]. intros q req Hq _.
  at_queue Hs Hq Hwf.
  destruct (leases q !! ack_Receipt req) as [x|] eqn:Hl.
  - destruct (receipt_lookup q _ x Hwf Hl) as (m & Hm & _).
    destruct (Ack_ok (ack_Receipt req) q (wal M) x m Hwf Hl Hm) as (q' & E & Hwf' & Hc & _ & _ & _ & _ & _ & Ho).
    rewrite E. simpl_bind. cbn iota beta. destruct (snd _) as [e|].
    + eapply fine_after; [done..|unfold lease_status; codes|]. by subst q'.
    + eapply fine_after; [done..|codes|]. unfold blames, StatusOK. simpl. lia.
  - rewrite Ack_unknown by done. simpl_bind. cbn iota beta. by eapply fine_after; [done..|codes|].
Qed.

Lemma nack_fine n b now M : sound M → fine [200; 400; 404; 409; 500] M (nack envs n b now M).
Proof.
  intros Hs. apply fine_body; [done|codes..|]. intros q req Hq _.
  apply fine_bounded; [done|codes|]. intros d _.
  at_queue Hs Hq Hwf.
  destruct (leases q !! nack_Receipt req) as [x|] eqn:Hl.
  - destruct (receipt_lookup q _ x Hwf Hl) as (m & Hm & _).
    destruct (Nack_ok (nack_Receipt req) d now q (wal M) x m Hwf Hl Hm)
      as (q' & w' & e & m1 & _ & Ew & E & Hwf' & Hc & _).
    rewrite E. simpl_bind. cbn iota beta. destruct e as [e|].
    + eapply fine_after; [done..|unfold lease_status; codes|]. intros Henv Hw Hb. exfalso.
      destruct (write_foreign envs Henv _ _ _ _ _ Hw Ew) as [_ Hf].
      unfold blames, lease_status in Hb. simpl in Hb.
      rewrite (foreign_no_lease e) in Hb by by apply Hf. unfold StatusInternalServerError in Hb. lia.
    + eapply fine_after; [done..|codes|]. unfold blames, StatusOK. simpl. lia.
  - rewrite Nack_unknown by done. simpl_bind. cbn iota beta. by eapply fine_after; [done..|codes|].
Qed.

Lemma extend_fine n b now M : sound M → fine [200; 400; 404; 409; 500] M (extend n b now M).
Proof.
  intros Hs. apply fine_body; [done|codes..|]. intros q req Hq _.
  apply fine_bounded; [done|codes|]. intros d _.
  at_queue Hs Hq Hwf.
  destruct (leases q !! ext_Receipt req) as [x|] eqn:Hl.
  - destruct (receipt_lookup q _ x Hwf Hl) as (m & Hm & _).
    destruct (Extend_ok (ext_Receipt req) d now q (wal M) x m Hwf Hl Hm) as (q' & E & Hwf' & Er & _).
    rewrite E. simpl_bind. cbn iota beta. eapply fine_after; [done..|by apply rest_cfg|codes|].
    unfold blames, StatusOK. simpl. lia.
  - rewrite Extend_unknown by done. simpl_bind. cbn iota beta. by eapply fine_after; [done..|codes|].
Qed.

(** A poll whose call of [Receive] does not return within the rounds described. *)
Definition polling n (b : body receiveReq) (now : Time) (rounds : list round) M : Prop :=
  ∃ q req vis wait q' w', queues M !! n = Some q ∧ decode (ReceiveReq 0 0 0) b = Ok req ∧
    boundedMS (rcv_VisibilityMS req) maxVisibility "visibility_ms" = Ok vis ∧
    boundedMS (rcv_WaitMS req) maxWait "wait_ms" = Ok wait ∧
    Receive (rcv_Max req) vis wait now rounds q (wal M) = Some (q', w', Waiting) ∧
    parked wait (Add now wait) rounds q'.

Lemma receive_fine n b now rounds gone M :
  sound M →
  (∀ q req vis, queues M !! n = Some q → decode (ReceiveReq 0 0 0) b = Ok req →
     boundedMS (rcv_VisibilityMS req) maxVisibility "visibility_ms" = Ok vis →
     rounds_ok rounds (at_least_one (rcv_Max req)) (effective q vis) q (wal M) = true) →
  fine [200; 400; 404; 500] M (receive envs n b now rounds gone M) ∨
  ∃ M', receive envs n b now rounds gone M = Some (M', None) ∧ sound M' ∧ polling n b now rounds M.
Proof.
  intros Hs Hok. unfold receive, with_body, Get.
  destruct (queues M !! n) as [q|] eqn:Hq; [|left; apply fine_answer; [done|codes]].
  destruct (decode _ b) as [req|e] eqn:Hd; [|left; apply fine_answer; [done|codes]].
  destruct (_ || _); [left; apply fine_answer; [done|codes]|]. unfold or_bad_request.
  destruct (boundedMS (rcv_VisibilityMS req) _ _) as [vis|] eqn:Hv; [|left; apply fine_answer; [done|codes]].
  destruct (boundedMS (rcv_WaitMS req) _ _) as [wait|] eqn:Hwt; [|left; apply fine_answer; [done|codes]].
  at_queue Hs Hq Hwf. unfold Receive.
  destruct (receive_loop_ok (at_least_one (rcv_Max req)) (effective q vis) wait (Add now wait) rounds q (wal M))
    as (q' & w' & res & E & Hwf' & Hr & _); [done|by apply Hok|].
  rewrite E. simpl_bind. cbn iota beta. destruct (reach_wf_from _ _ _ _ _ Hwf Hr) as [_ Hc].
  assert (∀ r, status r ∈ [200; 400; 404; 500] → ¬ blames r →
    fine [200; 400; 404; 500] M (answer (set_queues (<[n := q']> (queues M)) (set_log w' M)) r)) as Hf.
  { intros r Hr' Hb. by eapply fine_after. }
  assert (sound (set_queues (<[n := q']> (queues M)) (set_log w' M))) as Hs'.
  { destruct (Hf (Reply 200 PHealthy)) as (M1 & r1 & E1 & Hs1 & _); [codes|unfold blames; simpl; lia|].
    by injection E1 as <- <-. }
  destruct res as [out|e|]; [left; apply Hf; [codes|unfold blames, StatusOK; simpl; lia]|left|].
  - destruct gone; (apply Hf; [codes|]); unfold blames, StatusOK, StatusInternalServerError; simpl; lia.
  - right. eexists. split_and!; [done|done|]. exists q, req, vis, wait, q', w'. split_and!; try done.
    by eapply receive_loop_waits.
Qed.

(** ** Replays *)

Lemma Replay_collect_kept n bm since env M :
  ∃ M' r, Replay_collect n bm since env M = Some (M', r) ∧ queues M' = queues M ∧
    (foreign_log (wal M) → foreign_log (wal M')).
Proof.
  destruct (Replay_collect_frame n bm since env M) as (M' & r & E & Eq & e & ->). by eexists _, _.
Qed.

Lemma Replay_publish_foreign n now rnd found : foreign_env envs → ∀ i p M q M' k e,
  queues M !! n = Some q → wf q → foreign_log (wal M) → 0 ≤ seq q →
  seq q + Z.of_nat (length found) < two64 →
  Replay_publish envs n found i now rnd p M = Some (M', (k, Some e)) →
  errorsIs isStale e || errorsIs isCorrupt e = false.
Proof.
  intros Henv. induction found as [|[body prio] found IH]; intros i p M q M' k e Hq Hwf Hw Hs Hb; [done|].
  cbn [length] in Hb. cbn [Replay_publish]. unfold on_queue. rewrite Hq. simpl_bind.
  change (manager_log envs) with ops_log.
  destruct (decide (accepts q prio)) as [Ha|Ha].
  - destruct (Enqueue_ok body prio 0 (now i) (rnd i) q (wal M)) as
      (q1 & res & E & Hwf1 & _ & _ & Es & _ & _ & _ & Hres); [done..|lia|].
    rewrite E. simpl_bind. cbn iota beta.
    destruct (AppendSync _ (wal M)) as [w1 e1] eqn:Ew. cbn [fst snd] in *.
    destruct (write_foreign envs Henv _ _ _ _ _ Hw Ew) as [Hw1 Hf1]. destruct e1 as [e1|].
    + destruct Hres as (-> & _). intros [= _ _ <-]. by apply foreign_replay, Hf1.
    + destruct Hres as (m' & -> & _). apply (IH _ _ _ q1); [apply lookup_insert_eq|done|done|lia|lia].
  - rewrite Enqueue_disabled by done. simpl_bind. by intros [= _ _ <-].
Qed.

Lemma sound_queues M M' : queues M' = queues M → sound M → sound M'.
Proof. intros E Hs n q. rewrite E. apply Hs. Qed.

Lemma kept_queues M M' : queues M' = queues M → kept M M'.
Proof. intros E n. by rewrite E. Qed.

(** The number of messages a replay finds does not wrap the counter. *)
Definition replayable n since bm env M : Prop :=
  ∀ q M1 found, queues M !! n = Some q → Replay_collect n bm since env M = Some (M1, Ok found) →
    0 ≤ seq q ∧ seq q + Z.of_nat (length found) < two64.

Definition since_of (req : replayReq) : Time :=
  if 0 <? rep_SinceUnixMS req then UnixMilli (rep_SinceUnixMS req) else zeroTime.
Definition bookmark_of (req : replayReq) : Bookmark.t := Bookmark.Mk (rep_Epoch req) (rep_FromOffset req).

(** The log replay inside the handler. *)
Lemma Replay_fine n bm since env now rnd M :
  sound M → is_Some (queues M !! n) → replayable n since bm env M →
  ∃ M' k e, Replay envs n bm since env now rnd M = Some (M', (k, e)) ∧ sound M' ∧
    ∀ x, e = Some x → foreign_env envs → foreign_log (wal M) →
      errorsIs isStale x || errorsIs isCorrupt x = true → kept M M'.
Proof.
  intros Hs [q Hq] Hrep. destruct (Hs n q Hq) as [Hwf Hn]. unfold Replay.
  destruct (Replay_collect_kept n bm since env M) as (M1 & r & E & Eq & Hf). rewrite E. simpl_bind.
  assert (sound M1) as Hs1 by by eapply sound_queues. destruct r as [found|e].
  - destruct (Hrep q M1 found Hq E) as [Hs0 Hs2].
    destruct (Replay_publish_ok envs n now rnd found 0 0 M1 q) as (M' & q' & k & e & E' & Eq' & [Hwf' Hc _ _ _ _]);
      [by rewrite Eq|done..|].
    exists M', (0 + Z.of_nat k), e. split_and!; [done| |].
    + intros n' q1. rewrite Eq', Eq. destruct (decide (n = n')) as [<-|Hne].
      * rewrite lookup_insert_eq. intros [= <-]. split; [done|]. unfold name in *. by rewrite Hc.
      * rewrite lookup_insert_ne by done. apply Hs.
    + intros x -> Henv Hw Hx. exfalso.
      assert (errorsIs isStale x || errorsIs isCorrupt x = false); [|congruence].
      apply (Replay_publish_foreign n now rnd found Henv 0 0 M1 q M' (0 + Z.of_nat k) x);
        [by rewrite Eq|done|by apply Hf|done..].
  - exists M1, 0, (Some e). split_and!; [done..|]. intros x _ _ _ _. by apply kept_queues.
Qed.

Lemma replay_fine n b dlq_now env now rnd M :
  sound M →
  (∀ req, decode (ReplayReq "" 0 0 0) b = Ok req → replayable n (since_of req) (bookmark_of req) env M) →
  fine [200; 400; 404; 500] M (replay envs n b dlq_now env now rnd M).
Proof.
  intros Hs Hrep. apply fine_body; [done|codes..|]. intros q req Hq Hd.
  destruct (_ || _).
  - at_queue Hs Hq Hwf.
    destruct (exec_ok (CReplayDLQ dlq_now) q (wal M) Hwf I) as (q' & w' & r & E & Hwf' & Hc & _). simpl in E.
    destruct (ReplayDLQ dlq_now q (wal M)) as [[[q1 w1] [k e]]|]; [|done]. simpl in E. injection E as <- <- <-.
    simpl_bind. cbn iota beta. destruct e as [e|]; eapply fine_after; try done; try codes;
      unfold blames, StatusOK, StatusInternalServerError; simpl; lia.
  - case_bool_decide; [|apply fine_answer; [done|codes]].
    destruct (_ <? 0); [apply fine_answer; [done|codes]|].
    cbv zeta. fold (since_of req). fold (bookmark_of req).
    destruct (Replay_fine n (bookmark_of req) (since_of req) env now rnd M Hs)
      as (M' & k & e & -> & Hs' & Hk); [by eexists|by apply Hrep|]. simpl_bind. cbn iota beta.
    destruct e as [e|].
    + eexists M', _. split; [reflexivity|]. split; [exact Hs'|]. split; [codes|]. intros Henv Hw Hb.
      destruct (errorsIs isStale e || errorsIs isCorrupt e) eqn:Hx; [by apply (Hk e)|].
      unfold blames, StatusInternalServerError in Hb. simpl in Hb. lia.
    + eexists M', _. split; [reflexivity|]. split; [exact Hs'|]. split; [codes|]. intros _ _ Hb.
      unfold blames, StatusOK in Hb. simpl in Hb. lia.
Qed.

(** ** Reading and compacting *)

Lemma oldest_total mem l t :
  (∀ x, x ∈ l → is_Some (mem !! x)) → is_Some (foldl (oldest_step mem) (Some t) l).
Proof.
  revert t. induction l as [|x l IH]; intros t Hl; [by eexists|]. cbn [foldl].
  destruct (Hl x) as [m Hm]; [set_solver|]. unfold oldest_step at 2. simpl. rewrite Hm. simpl.
  apply IH. set_solver.
Qed.

Lemma Stats_total now q : wf q → is_Some (Stats_ now q).
Proof.
  intros Hwf. unfold Stats_. destruct (oldest_total (mem q) (items (ready q)) zeroTime) as [t ->].
  - intros x Hx. by apply (live_mem q (In HReady) x Hwf).
  - by eexists.
Qed.

Lemma listQueues_fine now M : sound M → fine [200] M (listQueues now M).
Proof.
  intros Hs. unfold listQueues, List_.
  destruct (mapM (λ v : string * Queue, Stats_ (now v.1) v.2) (range (queues M))) as [out|] eqn:E.
  - simpl_bind. apply fine_answer; [done|codes].
  - exfalso. revert E. apply not_eq_None_Some, mapM_is_Some, Forall_forall. intros [n q] Hin.
    apply Stats_total. rewrite range_perm in Hin. apply elem_of_map_to_list in Hin. by apply (Hs n q).
Qed.

Lemma queueStats_fine n now M : sound M → fine [200; 404] M (queueStats n now M).
Proof.
  intros Hs. unfold queueStats, Get. destruct (queues M !! n) as [q|] eqn:Hq; [|apply fine_answer; [done|codes]].
  destruct (Stats_total now q) as [s ->]; [by apply (Hs n)|]. simpl_bind. apply fine_answer; [done|codes].
Qed.

Lemma compact_fine env M : sound M → fine [200; 500] M (compact env M).
Proof.
  intros Hs. unfold compact. rewrite CompactAll_eq by (intros n q Hq; by apply (Hs n q)).
  destruct (Compact _ env _) as [w e]. simpl_bind. cbn iota beta.
  destruct e; eexists _, _; (split; [done|]); split_and!; try codes; try exact Hs; intros _ _ _ n; done.
Qed.

Lemma health_fine M : sound M → fine [200; 503] M (health M).
Proof. intros Hs. unfold health. destruct (ManagerErr M); apply fine_answer; try done; codes. Qed.

Lemma Create_config c M M' q : Create envs c M = (M', Ok q) → q = New c.
Proof.
  unfold Create. case_bool_decide; [done|]. destruct (containsAny _ _); [done|].
  destruct (bool_decide _ && _); [done|]. destruct (queues M !! _); [done|].
  destruct (AppendSync _ _) as [w [e|]]; [done|]. by intros [= _ <-].
Qed.

(** ** All routes *)

(** What is asked of a request's environment: counters do not wrap and random
    identifiers do not collide. *)
Definition request_ok (r : request) M : Prop :=
  match r with
  | PostMessages n _ _ _ => ∀ q, queues M !! n = Some q → 0 ≤ seq q < two64 - 1
  | PostReceive n b _ rounds _ =>
      ∀ q req vis, queues M !! n = Some q → decode (ReceiveReq 0 0 0) b = Ok req →
        boundedMS (rcv_VisibilityMS req) maxVisibility "visibility_ms" = Ok vis →
        rounds_ok rounds (at_least_one (rcv_Max req)) (effective q vis) q (wal M) = true
  | PostReplay n b _ env _ _ =>
      ∀ req, decode (ReplayReq "" 0 0 0) b = Ok req → replayable n (since_of req) (bookmark_of req) env M
  | _ => True
  end.

(** The statuses of a route. *)
Definition statuses (r : request) : list Z :=
  match r with
  | PostQueues _ => [201; 400; 409]
  | GetQueue _ _ => [200; 404]
  | PostMessages _ _ _ _ => [201; 400; 404; 500]
  | PostReceive _ _ _ _ _ | PostReplay _ _ _ _ _ _ => [200; 400; 404; 500]
  | PostAck _ _ | PostNack _ _ _ | PostExtend _ _ _ => [200; 400; 404; 409; 500]
  | PostCompact _ => [200; 500]
  | GetQueues _ | GetBookmark => [200]
  | GetHealthz => [200; 503]
  end.

Definition long_poll (r : request) : bool :=
  match r with PostReceive _ _ _ _ _ => true | _ => false end.

(** What goes without an answer. *)
Definition unanswered (r : request) M : Prop :=
  match r with PostReceive n b now rounds _ => polling n b now rounds M | _ => False end.

(** A poll is told to its end when the clock and the timers of its rounds reach
    its deadline. *)
Definition told (r : request) : Prop :=
  match r with
  | PostReceive _ b now rounds _ => ∀ req wait,
      decode (ReceiveReq 0 0 0) b = Ok req → boundedMS (rcv_WaitMS req) maxWait "wait_ms" = Ok wait →
      paced now (Add now wait) rounds ∧ (0 < length rounds)%nat ∧ wait ≤ (Z.of_nat (length rounds) - 1) * poll
  | _ => True
  end.

Lemma told_answered r M : sound M → request_ok r M → told r → ¬ unanswered r M.
Proof.
  intros Hs Hok Ht. destruct r; simpl in *; try tauto.
  intros (q & req & vis & wait & q' & w' & Hq & Hd & Hv & Hw & E & _).
  destruct (Ht _ _ Hd Hw) as (Hp & Hl & Hn). destruct (Hs _ _ Hq) as [Hwf _].
  assert (wait < two63) as Hlt.
  { unfold boundedMS in Hw. destruct (rcv_WaitMS req <? 0) eqn:H1'; [done|].
    destruct (Z.quot _ _ <? _); [done|]. injection Hw as <-. apply i64_range. }
  unfold Receive in E.
  destruct (receive_loop_returns (at_least_one (rcv_Max req)) (effective q vis) wait (Add now wait) rounds now q (wal M))
    as (q1 & w1 & res & E1 & Hres); [done|by apply (Hok _ _ _ Hq Hd Hv)|done|unfold Add; lia|done|unfold Add; lia|].
  change (wal_log envs) with ops_log in *. congruence.
Qed.

Lemma serve_ok r M :
  sound M → request_ok r M →
  fine (statuses r) M (serve envs r M) ∨
  (long_poll r = true ∧ unanswered r M ∧ ∃ M', serve envs r M = Some (M', None) ∧ sound M').
Proof.
  intros Hs Hok. destruct r; cbn [serve statuses long_poll]; simpl in Hok.
  - left. by apply createQueue_fine.
  - left. by apply listQueues_fine.
  - left. by apply queueStats_fine.
  - left. by apply enqueue_fine.
  - destruct (receive_fine name b now rounds gone M Hs Hok) as [?|(M' & ? & ? & ?)]; [by left|right].
    split_and!; [done|done|by exists M'].
  - left. by apply ack_fine.
  - left. by apply nack_fine.
  - left. by apply extend_fine.
  - left. by apply replay_fine.
  - left. by apply compact_fine.
  - left. apply fine_answer; [done|codes].
  - left. by apply health_fine.
Qed.

(** ** Success *)

(** What a 201 for a message says of the manager. *)
Lemma enqueue_created T M n req now rnd M' m :
  healthy envs T M → in_i64 (enq_DelayMS req) →
  mserves T T (MCall n (CEnqueue (enq_Body req) (enq_Priority req) (enq_DelayMS req * Millisecond) now rnd)) M →
  serve envs (PostMessages n (Decoded req) now rnd) M = Some (M', Some (Reply StatusCreated (PMsg m))) →
  ∃ q q' x, queues M !! n = Some q ∧ queues M' !! n = Some q' ∧ healthy envs T M' ∧
    (let u := new_msg (enq_Body req) (enq_Priority req) (enq_DelayMS req * Millisecond) now rnd (seq q + 1) in
     abs q' !! x = Some (In (gate u now), u) ∧ Msg.ID u = Msg.ID m) ∧ now ≤ T.
Proof.
  intros Hh Hi Hsv E. simpl in E. unfold enqueue, with_body, Get in E.
  destruct (queues M !! n) as [q|] eqn:Hq; [|done]. simpl in E. case_bool_decide; [done|].
  destruct (boundedMS _ _ _) as [d|] eqn:Hd; [|done]. simpl in E.
  assert (d = enq_DelayMS req * Millisecond) as ->.
  { unfold boundedMS in Hd. destruct (enq_DelayMS req <? 0) eqn:H1'; [done|].
    destruct (Z.quot _ _ <? _) eqn:H2'; [done|]. injection Hd as <-. apply i64_id.
    change (Z.quot maxDelay Millisecond) with 31536000000 in H2'. unfold in_i64, two63, Millisecond. lia. }
  set (d := _ * Millisecond) in *. destruct (Hsv q Hq) as [Hk Hserve].
  unfold on_queue in E. rewrite Hq in E. change (api_log envs) with ops_log in E. cbn [mbind option_bind] in E.
  destruct (Enqueue (enq_Body req) (enq_Priority req) d now rnd q (wal M)) as [[[q' w'] [u|e]]|] eqn:Ee;
    [|by injection E as _ E; destruct (errorsIs _ _)|done].
  injection E as <- <-. exists q, q'.
  assert (accepts q (enq_Priority req)) as Ha.
  { destruct (decide (accepts q (enq_Priority req))) as [|Ha]; [done|]. by rewrite Enqueue_disabled in Ee. }
  destruct (Enqueue_ok (enq_Body req) (enq_Priority req) d now rnd q (wal M)) as
    (q1 & res & E1 & _ & Hx & _ & _ & _ & _ & _ & Hres); [|done|done|].
  { apply (qo_wf _ _ _ _ (hy_queue _ _ _ Hh n q Hq)). }
  rewrite Ee in E1. injection E1 as <- _ <-. destruct (snd _); [by destruct Hres|].
  destruct Hres as (m' & [= <-] & Em & Ea & _). eexists. cbv zeta. split_and!; [done|apply lookup_insert_eq| | | |].
  - apply (healthy_call envs T M n (CEnqueue (enq_Body req) (enq_Priority req) d now rnd) q q' w' (RMsg (Ok u)));
      [done..| |done]. simpl. change (run_log envs) with ops_log. by rewrite Ee.
  - rewrite Ea. apply lookup_insert_eq.
  - by rewrite <- Em.
  - by destruct Hserve as [[_ ?] _].
Qed.

(** What a 200 for an ack says of the manager. *)
Lemma ack_done T M n q x m rc M' :
  healthy envs T M → queues M !! n = Some q → leases q !! rc = Some x → mem q !! x = Some m →
  serve envs (PostAck n (Decoded (AckReq rc))) M = Some (M', Some (Reply StatusOK PAcked)) →
  ∃ q', queues M' !! n = Some q' ∧ healthy envs T M' ∧
    ∀ y v, abs q' !! y = Some v → Msg.ID v.2 ≠ Msg.ID m.
Proof.
  intros Hh Hq Hl Hm E. pose proof (hy_queue _ _ _ Hh n q Hq) as Hqo. pose proof (qo_wf _ _ _ _ Hqo) as Hwf.
  simpl in E. unfold ack, with_body, Get in E. rewrite Hq in E. cbn [decode] in E.
  unfold on_queue in E. rewrite Hq in E. change (api_log envs) with ops_log in E. cbn [mbind option_bind] in E.
  destruct (receipt_lookup q rc x Hwf Hl) as (m' & Hm' & _ & _ & Hx). simplify_eq.
  destruct (Ack_ok rc q (wal M) x m Hwf Hl Hm) as (q' & Ea & _ & _ & _ & _ & _ & _ & _ & Ho).
  cbn [ack_Receipt] in E. rewrite Ea in E. cbn iota beta in E. destruct (snd _) as [e|] eqn:Eo; [done|].
  injection E as <-. exists q'. split_and!; [apply lookup_insert_eq| |].
  - apply (healthy_call envs T M n (CAck rc) q q' _ (RErr None)); try done.
    simpl. change (run_log envs) with ops_log. by rewrite Ea.
  - destruct Ho as (Eq & _). intros y v Hy Ei. rewrite Eq in Hy.
    apply lookup_delete_Some in Hy as [Hne Hy]. apply Hne.
    by apply (mi_ids _ _ _ _ (qo_mirrors _ _ _ _ Hqo) x y _ v Hx Hy).
Qed.
End Handlers.
