(* ===== verification/ApiProps.v ===== *)
(** * Properties of the HTTP surface

    What [api.go] promises a client: every request is answered, but for a poll
    that still waits, an error that blames the client has changed no message,
    durations are bounded before they are multiplied - except one - and a success
    status is a promise about the disk. *)

From Stdlib Require Import Strings.Byte.
From S2P Require Import Prelude ContainerHeap Msg Heaps LogStore Queue QueueInv QueueSpec QueueOps QueueReceive Calls Effects History Bytes Encoding Wal WalOps WireCodec Manager Recovery Restore ManagerOps CompactOps ManagerRun ReplayOps Receive Api ApiOps.
Import (hints) WireCodec.

Implicit Types (q : Queue) (m : Msg) (M : Manager) (n : string).

(** ** A concrete server *)

#[local] Instance listed : Ranging := { range A x := map_to_list x }.
#[local] Instance listed_laws : RangingLaws.
Proof. by split. Qed.

Definition still : nat → wenv := λ _, WEnv unixEpoch None None.
Definition two_bytes (i : nat) : list byte := [x2a; default x00 (Byte.of_nat i)].
Definition M_empty : Manager := MkManager ∅ (WLog (OpenWAL [] 0) 0) (50 * Millisecond) false.

(** A queue with one message in it. *)
Definition first_calls : list (Time * mcall) :=
  [(10, MCreate (Config.Mk "q" FIFO false 3 0)); (10, MCall "q" (CEnqueue "a" 0 0 10 (two_bytes 1)))].
Definition M_served : Manager := (default (0, M_empty) (mrun still first_calls 0 M_empty)).2.

Lemma M_empty_reach : mreach still 0 M_empty.
Proof. apply (mr_open still 0 0 0 (λ _, 0)). vm_compute. reflexivity. Qed.

Lemma M_served_reach : mreach still 10 M_served.
Proof.
  unfold M_served. destruct (mrun still first_calls 0 M_empty) as [[T M]|] eqn:E; [|vm_compute in E; discriminate E].
  assert (T = 10) as -> by (vm_compute in E; injection E as <- _; reflexivity).
  exact (mrun_reach still first_calls 0 M_empty 10 M M_empty_reach E).
Qed.

Lemma M_served_sound : sound M_served.
Proof.
  intros n q Hq. pose proof (hy_queue _ _ _ (mreach_healthy _ _ _ M_served_reach) n q Hq) as Hqo.
  split; apply Hqo.
Qed.

(** The queue before its message. *)
Definition M_polled : Manager := (default (0, M_empty) (mrun still (take 1 first_calls) 0 M_empty)).2.

Lemma M_polled_sound : sound M_polled.
Proof.
  intros n q Hq. unfold M_polled in Hq.
  destruct (mrun still (take 1 first_calls) 0 M_empty) as [[T M]|] eqn:E; [|vm_compute in E; discriminate E].
  pose proof (mrun_reach still _ 0 M_empty T M M_empty_reach E) as Hr.
  pose proof (hy_queue _ _ _ (mreach_healthy _ _ _ Hr) n q Hq) as Hqo. split; apply Hqo.
Qed.

(** ** Bounds *)

(** [boundedMS] accepts exactly the values from 0 to the ceiling, in whole
    milliseconds, and the product it returns is the true one: it is not negative,
    not above the ceiling, and has not wrapped. *)
Theorem boundedMS_exact (n : Z) (max : Duration) (field : string) :
  in_i64 n → 0 ≤ max < two63 →
  (∀ d, boundedMS n max field = Ok d ↔ 0 ≤ n ≤ Z.quot max Millisecond ∧ d = n * Millisecond) ∧
  (∀ d, boundedMS n max field = Ok d → 0 ≤ d ≤ max) ∧
  (n < 0 ∨ Z.quot max Millisecond < n → ∃ e, boundedMS n max field = Err e).
Proof.
  intros Hn Hmax. assert (Millisecond = 1000000) as Ems by done.
  assert (Z.quot max Millisecond = max / Millisecond) as Eq by (apply Z.quot_div_nonneg; lia).
  assert (∀ d, boundedMS n max field = Ok d ↔ 0 ≤ n ≤ Z.quot max Millisecond ∧ d = n * Millisecond) as Hiff.
  { intros d. unfold boundedMS. rewrite Eq. pose proof (Z.mul_div_le max Millisecond).
    destruct (n <? 0) eqn:H1'; [split; [done|lia]|].
    destruct (max / Millisecond <? n) eqn:H2'; [split; [done|lia]|].
    rewrite i64_id by (unfold in_i64, two63 in *; nia).
    split; [intros [= <-]; lia|by intros [_ ->]]. }
  split_and!; [done| |].
  - intros d [Hr ->]%Hiff. rewrite Eq in Hr. pose proof (Z.mul_div_le max Millisecond). nia.
  - intros Hout. unfold boundedMS. destruct (n <? 0) eqn:H1'; [by eexists|].
    destruct (Z.quot max Millisecond <? n) eqn:H2'; [by eexists|]. lia.
Qed.

Lemma boundedMS_exact_witness :
  boundedMS 31536000000 maxDelay "delay_ms" = Ok maxDelay ∧
  ∃ e, boundedMS 9223372036855 maxDelay "delay_ms" = Err e.
Proof.
  assert (0 ≤ maxDelay < two63) as Hmax by (vm_compute; split; [discriminate|reflexivity]).
  split.
  - apply (boundedMS_exact 31536000000 maxDelay "delay_ms"); [vm_compute; split; [discriminate|reflexivity]|exact Hmax|].
    vm_compute. split; [split; discriminate|reflexivity].
  - apply (boundedMS_exact 9223372036855 maxDelay "delay_ms"); [vm_compute; split; [discriminate|reflexivity]|exact Hmax|].
    right. vm_compute. reflexivity.
Defined.

(** C39: [createQueue] multiplies before it compares.  A visibility timeout of
    more than twelve hours whose product with a millisecond wraps to a negative
    number passes the check, and the queue is created with it: every lease of
    the default length is over before it begins. *)
Theorem create_visibility_overflow `{Json} (envs : nat → wenv) c M M' q :
  Config.Mode c ≠ "" → in_i64 (Config.VisibilityTimeoutMS c) → 0 ≤ Config.VisibilityTimeoutMS c →
  Config.Visibility c < 0 → Create envs c M = (M', Ok q) →
  createQueue envs (Decoded c) M = Some (M', Some (Reply StatusCreated (PConfig (cfg q)))) ∧
  maxVisibility < Config.VisibilityTimeoutMS c * Millisecond ∧
  Config.VisibilityTimeoutMS (cfg q) = Config.VisibilityTimeoutMS c ∧
  ∀ now, Add now (effective q 0) < now.
Proof.
  intros Hmode Hin Hpos Hneg E. pose proof (Create_config _ _ _ _ _ E) as Ec.
  assert (i64 (Config.VisibilityTimeoutMS c) = Config.VisibilityTimeoutMS c) as Ei by by apply i64_id.
  assert (maxVisibility < Config.VisibilityTimeoutMS c * Millisecond) as Hbig.
  { apply Z.nle_gt. intros Hle. unfold Config.Visibility in Hneg. rewrite Ei in Hneg.
    rewrite i64_id in Hneg; unfold in_i64, two63, maxVisibility, Hour, Second, Millisecond in *; lia. }
  assert (0 < Config.VisibilityTimeoutMS c) as Hpos' by (unfold Millisecond, maxVisibility, Hour, Second in Hbig; lia).
  assert (cfg q = c) as Eq.
  { rewrite Ec. unfold New. simpl. rewrite bool_decide_false by done.
    by rewrite (proj2 (Z.leb_gt _ _)). }
  split_and!; [|done|by rewrite Eq|].
  - unfold createQueue. simpl. rewrite bool_decide_false by done.
    fold (Config.Visibility c). rewrite (proj2 (Z.ltb_ge _ _)), (proj2 (Z.ltb_ge maxVisibility _)); [|by unfold maxVisibility, Hour, Second in *; lia|done].
    simpl. by rewrite E.
  - intros now. unfold effective, Add. rewrite Eq. simpl. lia.
Qed.

(** 292 years and a millisecond. *)
Definition endless : Config := Config.Mk "slow" FIFO false 3 9223372036855.

Lemma create_visibility_overflow_witness :
  match Create still endless M_empty with
  | (M', Ok q) =>
      createQueue still (Decoded endless) M_empty = Some (M', Some (Reply StatusCreated (PConfig (cfg q)))) ∧
      ∀ now, Add now (effective q 0) < now
  | _ => False
  end.
Proof.
  destruct (Create still endless M_empty) as [M' [q|e]] eqn:E; [|vm_compute in E; discriminate E].
  destruct (create_visibility_overflow still endless M_empty M' q) as (H1' & _ & _ & H4).
  - discriminate.
  - vm_compute. split; [discriminate|reflexivity].
  - vm_compute. discriminate.
  - vm_compute. reflexivity.
  - exact E.
  - split; [exact H1'|exact H4].
Defined.

(** ** Every request *)

(** C23: the server answers every request.  Whatever the route and the body, and
    whatever the disk does, the handler comes to an end without a panic, with a
    status its route allows, and leaves every queue well formed under its own
    name, so the next request finds the same.  Without an answer is only a poll
    whose call of [Receive] is still waiting where the description of what
    happens around it stops - every attempt found nothing, before the deadline,
    and the last wait has no case ready or is not described any further - and a
    poll whose timers and clock are described up to its deadline never is. *)
Theorem serve_is_total `{JsonLaws} `{RangingLaws} (envs : nat → wenv) r M :
  sound M → request_ok envs r M →
  ∃ M' rep, serve envs r M = Some (M', rep) ∧ sound M' ∧
    match rep with
    | Some rep => status rep ∈ statuses r
    | None => unanswered envs r M
    end ∧ (told r → is_Some rep).
Proof.
  intros Hs Hok. destruct (serve_ok envs r M Hs Hok) as [(M' & rep & E & Hs' & Hc & _)|(_ & Hu & M' & E & Hs')].
  - by exists M', (Some rep).
  - exists M', None. split_and!; [done..|]. intros Ht. by destruct (told_answered envs r M Hs Hok Ht).
Qed.

(** A poll of 90 ms on an empty queue: three attempts, then an empty answer. *)
Definition idle_round (i : nat) : round :=
  let t := 20 + Z.of_nat i * poll in Round t (λ k, two_bytes (16 * i + k + 60)) t [] TimedOut (t + poll).
Definition idle_poll : request :=
  PostReceive "q" (Decoded (ReceiveReq 1 0 90)) 20 (idle_round <$> [0; 1; 2]%nat) false.

Lemma serve_is_total_witness :
  ∃ M' rep, serve still idle_poll M_polled = Some (M', Some rep) ∧ sound M' ∧ status rep ∈ [200; 400; 404; 500].
Proof.
  destruct (serve_is_total still idle_poll M_polled) as (M' & rep & E & Hs & Hr & Ht).
  - apply M_polled_sound.
  - intros q req vis Hq Hd Hv. vm_compute in Hq. injection Hq as <-. simpl in Hd. injection Hd as <-.
    vm_compute in Hv. injection Hv as <-. vm_compute. reflexivity.
  - destruct Ht as [a ->].
    + intros req wait Hd Hw. simpl in Hd. injection Hd as <-. vm_compute in Hw. injection Hw as <-.
      split; [vm_compute; repeat split; discriminate|split; [simpl; lia|vm_compute; discriminate]].
    + exists M', a. split; [exact E|]. split; [exact Hs|exact Hr].
Defined.

(** C21: an error that blames the client is a refusal.  Whenever the reply has a
    4xx status, every queue holds exactly the messages it held before, in the
    same places, so the client may correct the request and send it again; a
    failure that has changed a queue is never reported that way. *)
Theorem client_errors_change_nothing `{JsonLaws} `{RangingLaws} (envs : nat → wenv) r M M' rep :
  sound M → request_ok envs r M → foreign_env envs → foreign_log (wal M) →
  serve envs r M = Some (M', Some rep) → 400 ≤ status rep < 500 → kept M M'.
Proof.
  intros Hs Hok Henv Hw E Hb.
  destruct (serve_ok envs r M Hs Hok) as [(M1 & rep1 & E1 & _ & _ & Hk)|(_ & _ & M1 & E1 & _)];
    rewrite E in E1; simplify_eq. by apply Hk.
Qed.

Lemma client_errors_change_nothing_witness :
  match serve still (PostNack "q" (Decoded (NackReq "nobody" 5)) 20) M_served with
  | Some (M', Some rep) => status rep = 409 ∧ kept M_served M'
  | _ => False
  end.
Proof.
  destruct (serve still (PostNack "q" (Decoded (NackReq "nobody" 5)) 20) M_served)
    as [[M' [rep|]]|] eqn:E; [|vm_compute in E; discriminate E..].
  assert (status rep = 409) as Er by (vm_compute in E; injection E as _ <-; reflexivity).
  split; [exact Er|].
  apply (client_errors_change_nothing still (PostNack "q" (Decoded (NackReq "nobody" 5)) 20) M_served M' rep).
  - apply M_served_sound.
  - exact I.
  - intros i. split; [intros k e He; discriminate He|intros e He; discriminate He].
  - intros e He. vm_compute in He. discriminate He.
  - exact E.
  - rewrite Er. lia.
Defined.

(** Blame can still be misplaced: when the record of a new queue cannot be written
    the answer is 400, as if the request were at fault, where every other handler
    answers 500. *)
Theorem failed_create_blames_client `{Json} `{Ranging} (envs : nat → wenv) c M w e :
  Config.Name c ≠ "" → containsAny (Config.Name c) "/?#% " = false → Config.Mode c = FIFO ∨ Config.Mode c = LIFO →
  0 ≤ Config.VisibilityTimeoutMS c ≤ 43200000 → queues M !! Config.Name c = None →
  @AppendSync _ (wal_log envs) (Rec.of_config OpCreateQueue (Config.Name c) (cfg (New c)) 0) (wal M) = (w, Some e) →
  errorsIs (isErr ErrQueueExists) e = false →
  serve envs (PostQueues (Decoded c)) M = Some (set_log w M, Some (fail StatusBadRequest e)).
Proof.
  intros Hn Hs Hm Hv Hq Ew He. cbn [serve]. unfold createQueue. cbn [decode].
  rewrite bool_decide_eq_false_2 by by destruct Hm as [-> | ->].
  assert ((Config.VisibilityTimeoutMS c <? 0) || (maxVisibility <? i64 (i64 (Config.VisibilityTimeoutMS c) * Millisecond)) = false) as ->.
  { rewrite (i64_id (Config.VisibilityTimeoutMS c)), i64_id by (unfold in_i64, Millisecond, two63 in *; lia).
    unfold maxVisibility, Hour, Second, Millisecond in *. lia. }
  unfold Create. rewrite bool_decide_eq_false_2, Hs by done.
  assert (bool_decide (Config.Mode c ≠ FIFO) && bool_decide (Config.Mode c ≠ LIFO) = false) as ->.
  { destruct Hm as [-> | ->]; reflexivity. }
  rewrite Hq. change (manager_log envs) with (wal_log envs). rewrite Ew. by rewrite He.
Qed.

(** ** Success is durable *)

(** C5: a 201 is a durability promise.  When a posted message is answered with
    201, killing the server at that moment - even in the middle of another write
    - and starting it again finds the message in its queue: same identifier,
    body and priority, not leased, never attempted, behind its delay gate if the
    delay still lasts and ready otherwise. *)
Theorem created_message_survives `{JsonLaws} `{RangingLaws} (envs : nat → wenv) T T' M n req now rnd M' m tl sy tick at_ :
  let due := now + enq_DelayMS req * Millisecond in
  mreach envs T M → in_i64 (enq_DelayMS req) →
  mserves T T (MCall n (CEnqueue (enq_Body req) (enq_Priority req) (enq_DelayMS req * Millisecond) now rnd)) M →
  serve envs (PostMessages n (Decoded req) now rnd) M = Some (M', Some (Reply StatusCreated (PMsg m))) →
  torn tl → (∀ n, T ≤ at_ n ≤ T') →
  ∃ M2 q2 y v, mexec envs (MRestart tl sy tick at_) M' = Some (M2, MDone None) ∧
    queues M2 !! n = Some q2 ∧ leases q2 = ∅ ∧
    abs q2 !! y = Some (In (if at_ n <? due then HDelayed else HReady), v) ∧
    Msg.ID v = Msg.ID m ∧ Msg.Body v = enq_Body req ∧ Msg.Priority v = enq_Priority req ∧ Msg.Attempts v = 0.
Proof.
  intros due Hr Hi Hsv E Ht Hat. pose proof (mreach_healthy _ _ _ Hr) as Hh.
  destruct (enqueue_created envs T M n req now rnd M' m Hh Hi Hsv E) as (q & q' & x & Hq & Hq' & Hh' & [Hx Ei] & Hnow).
  destruct (restart_ok envs T T' M' tl sy tick at_ Hh' Ht Hat) as (M2 & E2 & _ & [Hre _] & _).
  destruct (Hre n q' Hq') as (q2 & Hq2 & [_ _ _ El Hb]).
  destruct (rb_each _ _ _ Hb _ _ _ Hx) as (y & v & Hy & _).
  set (u := new_msg _ _ _ _ _ _) in *.
  assert (reborn_place (at_ n) (In (gate u now)) u = In (if at_ n <? due then HDelayed else HReady)) as Ep.
  { unfold reborn_place, gate, Msg.Ready, After. simpl. unfold Add. fold due. pose proof (Hat n).
    destruct (now <? due) eqn:E3; simpl; destruct (at_ n <? due) eqn:E4; simpl; try done; lia. }
  rewrite Ep in Hy. eexists M2, q2, y, _.
  split_and!; [exact E2|exact Hq2|exact El|exact Hy|exact Ei|done..].
Qed.

Lemma created_message_survives_witness :
  match serve still (PostMessages "q" (Decoded (EnqueueReq "b" 0 100)) 20 (two_bytes 2)) M_served with
  | Some (M', Some (Reply 201 (PMsg m))) =>
      ∃ M2 q2 y v, mexec still (MRestart [x00; x00] 0 0 (λ _, 60)) M' = Some (M2, MDone None) ∧
        queues M2 !! "q" = Some q2 ∧ leases q2 = ∅ ∧ abs q2 !! y = Some (In HDelayed, v) ∧
        Msg.ID v = Msg.ID m ∧ Msg.Body v = "b" ∧ Msg.Priority v = 0 ∧ Msg.Attempts v = 0
  | _ => False
  end.
Proof.
  destruct (serve still (PostMessages "q" (Decoded (EnqueueReq "b" 0 100)) 20 (two_bytes 2)) M_served)
    as [[M' [[st [| | | |m| | | | | | | | | | |]]|]]|] eqn:E; try (vm_compute in E; discriminate E).
  assert (st = 201) as -> by (vm_compute in E; injection E as _ <- _; reflexivity).
  apply (created_message_survives still 20 60 M_served "q" (EnqueueReq "b" 0 100) 20 (two_bytes 2) M' m
    [x00; x00] 0 0 (λ _, 60)).
  - eapply (mr_step still 10 20 M_served (MCall "none" (CTick 0))); [exact M_served_reach|lia| |reflexivity|].
    + intros q Hq. vm_compute in Hq. discriminate Hq.
    + exact I.
  - vm_compute. split; [discriminate|reflexivity].
  - intros q Hq. split; [apply admissibleb_ok|apply steadyb_ok]; vm_compute in Hq; injection Hq as <-;
      vm_compute; reflexivity.
  - exact E.
  - intros r n rd Er. discriminate Er.
  - intros _. lia.
Defined.

(** C6: an ack that is answered with 200 is final: whatever message it was for,
    no restart brings it back. *)
Theorem acked_message_is_gone `{JsonLaws} `{RangingLaws} (envs : nat → wenv) T T' M n q x m rc M' tl sy tick at_ :
  mreach envs T M → queues M !! n = Some q → leases q !! rc = Some x → mem q !! x = Some m →
  serve envs (PostAck n (Decoded (AckReq rc))) M = Some (M', Some (Reply StatusOK PAcked)) →
  torn tl → (∀ n, T ≤ at_ n ≤ T') →
  ∃ M2 q2, mexec envs (MRestart tl sy tick at_) M' = Some (M2, MDone None) ∧
    queues M2 !! n = Some q2 ∧ ∀ y v, abs q2 !! y = Some v → Msg.ID v.2 ≠ Msg.ID m.
Proof.
  intros Hr Hq Hl Hm E Ht Hat. pose proof (mreach_healthy _ _ _ Hr) as Hh.
  destruct (ack_done envs T M n q x m rc M' Hh Hq Hl Hm E) as (q' & Hq' & Hh' & Hgone).
  destruct (restart_ok envs T T' M' tl sy tick at_ Hh' Ht Hat) as (M2 & E2 & _ & [Hre _] & _).
  destruct (Hre n q' Hq') as (q2 & Hq2 & [_ _ _ _ Hb]).
  exists M2, q2. split_and!; [done..|]. intros y v Hy Ei.
  destruct (rb_only _ _ _ Hb _ _ Hy) as (z & d & Hz & Ed). apply (Hgone z d Hz). congruence.
Qed.

(** The message is leased, then acked. *)
Definition M_leased : Manager :=
  (default (0, M_empty) (mrun still (first_calls ++ [(20, MCall "q" (CTryReceive 1 50 20 two_bytes))]) 0 M_empty)).2.

Lemma M_leased_reach : mreach still 20 M_leased.
Proof.
  unfold M_leased. destruct (mrun still _ 0 M_empty) as [[T M]|] eqn:E; [|vm_compute in E; discriminate E].
  assert (T = 20) as -> by (vm_compute in E; injection E as <- _; reflexivity).
  exact (mrun_reach still _ 0 M_empty 20 M M_empty_reach E).
Qed.

Lemma acked_message_is_gone_witness :
  match serve still (PostAck "q" (Decoded (AckReq (newID (two_bytes 0))))) M_leased with
  | Some (M', Some (Reply 200 PAcked)) =>
      ∃ M2 q2, mexec still (MRestart [] 0 0 (λ _, 60)) M' = Some (M2, MDone None) ∧
        queues M2 !! "q" = Some q2 ∧ ∀ y v, abs q2 !! y = Some v → Msg.ID v.2 ≠ newID (two_bytes 1)
  | _ => False
  end.
Proof.
  destruct (serve still (PostAck "q" (Decoded (AckReq (newID (two_bytes 0))))) M_leased)
    as [[M' [[st [| | | |m'| | | | | | | | | | |]]|]]|] eqn:E; try (vm_compute in E; discriminate E).
  assert (st = 200) as -> by (vm_compute in E; injection E as _ <-; reflexivity).
  destruct (queues M_leased !! "q") as [q|] eqn:Hq; [|vm_compute in Hq; discriminate Hq].
  destruct (leases q !! newID (two_bytes 0)) as [x|] eqn:Hl;
    [|vm_compute in Hq; injection Hq as <-; vm_compute in Hl; discriminate Hl].
  destruct (mem q !! x) as [m|] eqn:Hm;
    [|vm_compute in Hq; injection Hq as <-; vm_compute in Hl; injection Hl as <-; vm_compute in Hm; discriminate Hm].
  assert (newID (two_bytes 1) = Msg.ID m) as ->.
  { vm_compute in Hq. injection Hq as <-. vm_compute in Hl. injection Hl as <-. vm_compute in Hm.
    injection Hm as <-. vm_compute. reflexivity. }
  apply (acked_message_is_gone still 20 60 M_leased "q" q x m (newID (two_bytes 0)) M').
  - exact M_leased_reach.
  - exact Hq.
  - exact Hl.
  - exact Hm.
  - exact E.
  - apply torn_nil.
  - intros _. lia.
Defined.
