(* ===== verification/Server.v ===== *)
(** * main.go: the server process

    [main] opens the manager, serves until a signal arrives or the listener
    fails, drains, and closes the log last.  What happens meanwhile is a list of
    events: requests handled and firings of the two tickers, in the order in
    which they take the manager's locks.  Of the flags, [-fsync-every] and
    [-tick] reach the queue; the content of [-wal] is in the environment. *)

From Stdlib Require Import Strings.Byte.
From S2P Require Import Prelude Msg LogStore Queue Encoding Wal Manager Api.

Record flags := Flags { fsyncEvery : Duration; tick : Duration }.

Inductive event :=
  | Request (r : request)
  | PumpTick (now : Time)
  | FlushTick (sync : option error).

(** Why [main] stops serving.  After a signal the requests in flight are
    drained, and [mgr.Close] gets these answers from the file. *)
Inductive stopping :=
  | Signal (drain : list event) (sync close : option error)
  | ListenFailed.

(** How the process ends: its status, what it answered, what it leaves in memory. *)
Record exit := Exit { code : Z; answered : list reply; left : option Manager }.

Section Server.
Context `{Json} `{Ranging} (envs : nat → wenv).

Definition react (ev : event) (m : Manager) : option (Manager * list reply) :=
  match ev with
  | Request r => '(m, r) ← serve envs r m; Some (m, option_list r)
  | PumpTick now => m ← pump envs now m; Some (m, [])
  | FlushTick sync => Some (set_log (set_wal (flush sync (wl_wal (wal m))) (wal m)) m, [])
  end.

Fixpoint session (evs : list event) (m : Manager) : option (Manager * list reply) :=
  match evs with
  | [] => Some (m, [])
  | ev :: evs =>
      '(m, rs) ← react ev m;
      '(m, rs') ← session evs m;
      Some (m, rs ++ rs')
  end.

(** [func main()]; writes of the log are answered from [step] on. *)
Definition main (o : flags) (env : oenv) (step : nat) (evs : list event) (why : stopping) : option exit :=
  r ← Open (fsyncEvery o) (tick o) env step;
  match r with
  | Err _ => Some (Exit 1 [] None)
  | Ok mgr =>
      _ ← List_ (oe_now env) mgr;
      '(mgr, rs) ← session evs mgr;
      match why with
      | ListenFailed => Some (Exit 1 rs (Some mgr))
      | Signal drain sync close =>
          '(mgr, rs') ← session drain mgr;
          let '(mgr, err) := CloseAll sync close mgr in
          Some (Exit (match err with Some _ => 1 | None => 0 end) (rs ++ rs') (Some mgr))
      end
  end.
End Server.
