(* ===== verification/ServerOps.v ===== *)
(** * The server is a run of its manager

    [mtrace] records a run of the manager step by step.  Every event of the
    server, and every request among them, is such a run, so the theorems about
    the manager's runs are theorems about the server. *)

From Stdlib Require Import Strings.Byte.
From S2P Require Import Prelude ContainerHeap Msg Heaps LogStore Queue QueueInv QueueSpec QueueOps QueueReceive Calls Effects History Receive Encoding Wal WalOps Manager ManagerOps CompactOps ReplayOps ManagerRun Api ApiOps Server.

Implicit Types (q : Queue) (M : Manager) (n : string) (T : Time).

(** ** Recorded runs *)

Record mstep := MStep { before : Manager; what : mcall; said : mresponse; after : Manager }.

(** The step was served in the sense of [mserves], and reported no failure. *)
Definition served_step `{Json} T (s : mstep) : Prop := mserves T T (what s) (before s).
Definition unfailing (s : mstep) : Prop := mflawless (what s) (before s) (said s) (after s).

Section Traces.
Context `{JsonLaws} `{RangingLaws} (envs : nat → wenv).
#[local] Instance trace_log : Log wlog := wal_log envs.

Inductive mtrace M0 : list mstep → Manager → Prop :=
  | mt_nil : mtrace M0 [] M0
  | mt_snoc tr M mc r M' :
      mtrace M0 tr M → mexec envs mc M = Some (M', r) → mtrace M0 (tr ++ [MStep M mc r M']) M'.

Lemma mtrace_one M mc r M' : mexec envs mc M = Some (M', r) → mtrace M [MStep M mc r M'] M'.
Proof. intros E. apply (mt_snoc M []); [constructor|done]. Qed.

Lemma mtrace_app M0 tr M tr' M' : mtrace M0 tr M → mtrace M tr' M' → mtrace M0 (tr ++ tr') M'.
Proof.
  intros Ht Ht'. induction Ht' as [|tr' M' mc r M2 _ IH E]; [by rewrite app_nil_r|].
  rewrite (assoc_L (++)). by econstructor.
Qed.

(** A recorded run in which nothing failed is a run of [mreach]. *)
Lemma mtrace_reach T0 T M tr M' :
  mreach envs T0 M → T0 ≤ T → mtrace M tr M' →
  Forall (served_step T) tr → Forall unfailing tr → ∃ T', T0 ≤ T' ≤ T ∧ mreach envs T' M'.
Proof.
  intros Hr HT Ht. induction Ht as [|tr M1 mc r M2 _ IH E]; [intros _ _; by exists T0|].
  rewrite !Forall_app, !Forall_singleton. intros [Hs Hs1] [Hu Hu1].
  destruct (IH Hs Hu) as (T1 & [HT1 HT1'] & Hr1). exists T. split; [lia|].
  eapply (mr_step envs T1 T M1); [done|lia| |done|done].
  destruct mc; try done. destruct Hs1 as [Htl Hnow]. split; [done|]. intros k.
  specialize (Hnow k). simpl in Hnow. lia.
Qed.

(** *** Runs of one queue *)

Definition put n q (w : wlog) M : Manager := set_queues (<[n := q]> (queues M)) (set_log w M).

Lemma put_same n q M : queues M !! n = Some q → put n q (wal M) M = M.
Proof. intros Hq. unfold put. rewrite insert_id by done. by destruct M. Qed.

Lemma call_exec n k q q' w' r M :
  queues M !! n = Some q → exec k q (wal M) = Some (q', w', r) →
  mexec envs (MCall n k) M = Some (put n q' w' M, MCalled (Ok r)).
Proof.
  intros Hq E. simpl. unfold Get, on_queue. rewrite Hq. simpl_bind.
  change (run_log envs) with trace_log. by rewrite E.
Qed.

Lemma call_trace n k q q' w' r M :
  queues M !! n = Some q → exec k q (wal M) = Some (q', w', r) →
  let M' := put n q' w' M in mtrace M [MStep M (MCall n k) (MCalled (Ok r)) M'] M'.
Proof. intros Hq E. by apply mtrace_one, (call_exec n k q). Qed.

(** What its only call has to report for such a step to be unfailing. *)
Lemma call_unfailing n k q q' w' r M :
  queues M !! n = Some q → flawless q k r q' = true →
  unfailing (MStep M (MCall n k) (MCalled (Ok r)) (put n q' w' M)).
Proof.
  intros Hq Hf q1 q2 Hq1 Hq2. simpl in *. rewrite lookup_insert_eq in Hq2. by simplify_eq.
Qed.

Lemma reach_trace ok n q q' w' M :
  queues M !! n = Some q → reach ok q (wal M) q' w' → ∃ tr, mtrace M tr (put n q' w' M).
Proof.
  intros Hq. induction 1 as [|k q1 w1 q2 w2 r _ [tr IH] _ E _].
  - exists []. rewrite put_same by done. constructor.
  - assert (put n q2 w2 M = put n q2 w2 (put n q1 w1 M)) as ->.
    { unfold put. simpl. by rewrite insert_insert_eq. }
    eexists. eapply mtrace_app; [exact IH|]. apply (call_trace n k q1 q2 w2 r); [|done].
    apply lookup_insert_eq.
Qed.
(** ** Requests *)

(** The handler is a run of the manager, unfailing when it reports success. *)
Definition traced M (h : option (Manager * option reply)) : Prop :=
  ∀ M' rep, h = Some (M', rep) →
    ∃ tr, mtrace M tr M' ∧ ∀ r, rep = Some r → status r < 400 → Forall unfailing tr.

Lemma traced_answer M r : traced M (answer M r).
Proof. intros M' rep [= <- <-]. exists []. split; [constructor|]. by intros. Qed.

Lemma traced_call n k q q' w' r M rep :
  queues M !! n = Some q → exec k q (wal M) = Some (q', w', r) →
  (∀ a, rep = Some a → status a < 400 → flawless q k r q' = true) →
  traced M (Some (put n q' w' M, rep)).
Proof.
  intros Hq E Hf M' rep' [= <- <-]. eexists. split; [by apply (call_trace n k q)|].
  intros a -> Ha. apply Forall_singleton, (call_unfailing n k q); [done|]. by apply (Hf a).
Qed.

Lemma traced_body {A} n (dst : A) b M f :
  (∀ q req, queues M !! n = Some q → decode dst b = Ok req → traced M (f req)) →
  traced M (with_body n dst b M f).
Proof.
  intros Hf. unfold with_body, Get. destruct (queues M !! n) as [q|] eqn:Hq; [|apply traced_answer].
  destruct (decode dst b) as [req|e] eqn:Hd; [by eapply Hf|apply traced_answer].
Qed.

Lemma traced_bounded {A} (v : result A) M f :
  (∀ x, v = Ok x → traced M (f x)) → traced M (or_bad_request v M f).
Proof. intros Hf. destruct v; [by apply Hf|apply traced_answer]. Qed.

Lemma createQueue_traced b M : traced M (createQueue envs b M).
Proof.
  unfold createQueue. destruct (decode _ b) as [c0|e]; [|apply traced_answer]. set (c := if bool_decide _ then _ else _).
  destruct (_ || _); [apply traced_answer|].
  intros M' rep E. exists [MStep M (MCreate c) (MQueue (Create envs c M).2) M'].
  destruct (Create envs c M) as [M1 [q|e]] eqn:Ec; injection E as <- <-; (split; [apply mtrace_one; simpl; by rewrite Ec|]).
  - intros r _ _. by apply Forall_singleton.
  - intros r [= <-]. simpl. by case_match.
Qed.

(** A handler that calls one method of its queue and then replies. *)
Ltac one_call := unfold on_queue; match goal with Hq : queues ?M !! _ = Some _ |- _ => rewrite Hq end;
  simpl_bind; change (api_log envs) with trace_log.

Lemma enqueue_traced n b now rnd M : traced M (enqueue envs n b now rnd M).
Proof.
  apply traced_body. intros q req Hq _. case_bool_decide; [apply traced_answer|].
  apply traced_bounded. intros d _. one_call.
  destruct (Enqueue _ _ _ _ _ q _) as [[[q' w'] r]|] eqn:E; [|by intros ? ?]. simpl_bind.
  destruct r as [m|e]; (eapply (traced_call n (CEnqueue (enq_Body req) (enq_Priority req) d now rnd) q);
    [done|simpl; by rewrite E|]); [done|]. intros a [= <-]. simpl. by case_match.
Qed.

Lemma ack_traced n b M : traced M (ack envs n b M).
Proof.
  apply traced_body. intros q req Hq _. one_call.
  destruct (Ack _ q _) as [[[q' w'] e]|] eqn:E; [|by intros ? ?]. simpl_bind.
  destruct e as [e|]; (eapply (traced_call n (CAck (ack_Receipt req)) q); [done|simpl; by rewrite E|]); [|done].
  intros a [= <-]. unfold lease_status. simpl. by case_match.
Qed.

Lemma nack_traced n b now M : traced M (nack envs n b now M).
Proof.
  apply traced_body. intros q req Hq _. apply traced_bounded. intros d _. one_call.
  destruct (Nack _ _ _ q _) as [[[q' w'] e]|] eqn:E; [|by intros ? ?]. simpl_bind.
  destruct e as [e|]; (eapply (traced_call n (CNack (nack_Receipt req) d now) q); [done|simpl; by rewrite E|]); [|done].
  intros a [= <-]. unfold lease_status. simpl. by case_match.
Qed.

Lemma extend_traced n b now M : traced M (extend n b now M).
Proof.
  apply traced_body. intros q req Hq _. apply traced_bounded. intros d _. one_call.
  destruct (Extend _ _ _ q) as [[q' r]|] eqn:E; [|by intros ? ?]. simpl_bind.
  destruct r as [t|e]; (eapply (traced_call n (CExtend (ext_Receipt req) d now) q); [done|simpl; by rewrite E|done]).
Qed.

(** A poll is a run of its queue; what its attempts and the others met on the
    way does not show in the reply. *)
Lemma receive_traced n b now rounds gone M :
  sound M →
  (∀ q req vis, queues M !! n = Some q → decode (ReceiveReq 0 0 0) b = Ok req →
     boundedMS (rcv_VisibilityMS req) maxVisibility "visibility_ms" = Ok vis →
     rounds_ok rounds (at_least_one (rcv_Max req)) (effective q vis) q (wal M) = true) →
  ∀ M' rep, receive envs n b now rounds gone M = Some (M', rep) → ∃ tr, mtrace M tr M'.
Proof.
  intros Hs Hok M' rep. assert (∀ r, answer M r = Some (M', rep) → ∃ tr, mtrace M tr M') as Ha.
  { intros r [= <- _]. exists []. constructor. }
  unfold receive, with_body, Get. destruct (queues M !! n) as [q|] eqn:Hq; [|apply Ha].
  destruct (decode _ b) as [req|e] eqn:Hd; [|apply Ha]. destruct (_ || _); [apply Ha|]. unfold or_bad_request.
  destruct (boundedMS (rcv_VisibilityMS req) _ _) as [vis|] eqn:Hv; [|apply Ha].
  destruct (boundedMS (rcv_WaitMS req) _ _) as [wait|]; [|apply Ha]. one_call. unfold Receive.
  destruct (receive_loop_ok (at_least_one (rcv_Max req)) (effective q vis) wait (Add now wait) rounds q (wal M))
    as (q' & w' & res & E & _ & Hr & _); [by apply (Hs n q)|by apply (Hok q)|].
  rewrite E. simpl_bind. cbn iota beta. intros Hrep.
  assert (M' = put n q' w' M) as -> by (destruct res, gone; by injection Hrep as <- _).
  by eapply reach_trace.
Qed.

(** *** Replays *)

Lemma publish_traced n now rnd found : ∀ i p M q M' k e,
  queues M !! n = Some q → Replay_publish envs n found i now rnd p M = Some (M', (k, e)) →
  ∃ tr, mtrace M tr M' ∧ (e = None → Forall unfailing tr).
Proof.
  induction found as [|[body prio] found IH]; intros i p M q M' k e Hq.
  { intros [= <- _ _]. exists []. split; [constructor|done]. }
  cbn [Replay_publish]. unfold on_queue. rewrite Hq. simpl_bind. change (manager_log envs) with trace_log.
  destruct (Enqueue body prio 0 (now i) (rnd i) q (wal M)) as [[[q1 w1] r]|] eqn:E; [|done].
  simpl_bind. cbn iota beta. fold (put n q1 w1 M).
  assert (exec (CEnqueue body prio 0 (now i) (rnd i)) q (wal M) = Some (q1, w1, RMsg r)) as Ex
    by (simpl; by rewrite E).
  pose proof (call_trace n _ q q1 w1 _ M Hq Ex) as Ht. destruct r as [m|x].
  - intros Hp. destruct (IH (S i) (p + 1) (put n q1 w1 M) q1 M' k e) as (tr & Ht' & Hu); [apply lookup_insert_eq|done|].
    eexists. split; [by eapply mtrace_app|]. intros He. apply Forall_app. split; [|by apply Hu].
    by apply Forall_singleton, (call_unfailing n _ q).
  - intros [= <- _ <-]. by eexists.
Qed.

Lemma Replay_traced n bm since env now rnd M q M' k e :
  queues M !! n = Some q → Replay envs n bm since env now rnd M = Some (M', (k, e)) →
  ∃ tr, mtrace M tr M' ∧ (e = None → Forall unfailing tr).
Proof.
  intros Hq. unfold Replay. destruct (Replay_collect_frame n bm since env M) as (M1 & r & E & Eq & _).
  assert (mtrace M [MStep M (MCollect n bm since env) (MDone None) M1] M1) as Ht.
  { apply mtrace_one. simpl. by rewrite E. }
  rewrite E. simpl_bind. destruct r as [found|x].
  - intros Hp. destruct (publish_traced n now rnd found 0 0 M1 q M' k e) as (tr & Ht' & Hu); [by rewrite Eq|done|].
    eexists. split; [by eapply mtrace_app|]. intros He. apply Forall_app. split; [|by apply Hu].
    by apply Forall_singleton.
  - intros [= <- _ <-]. by eexists.
Qed.

Lemma replay_traced n b dlq_now env now rnd M : traced M (replay envs n b dlq_now env now rnd M).
Proof.
  apply traced_body. intros q req Hq _. destruct (_ || _).
  - one_call. destruct (ReplayDLQ dlq_now q _) as [[[q' w'] [k e]]|] eqn:E; [|by intros ? ?]. simpl_bind.
    destruct e as [e|]; (eapply (traced_call n (CReplayDLQ dlq_now) q); [done|simpl; by rewrite E|]); [|done].
    intros a [= <-] Ha. by compute in Ha.
  - case_bool_decide; [|apply traced_answer]. destruct (_ <? 0); [apply traced_answer|]. cbv zeta.
    intros M' rep. destruct (Replay _ _ _ _ _ _ _ _) as [[M1 [k e]]|] eqn:E; [|done]. simpl_bind. cbn iota beta.
    destruct (Replay_traced n _ _ _ _ _ M q M1 k e Hq E) as (tr & Ht & Hu).
    destruct e as [e|]; intros [= <- <-]; exists tr; (split; [done|]); [|by intros; apply Hu].
    intros a [= <-] Ha. simpl in Ha. by destruct (_ || _); compute in Ha.
Qed.

Lemma compact_traced env M : traced M (compact env M).
Proof.
  unfold compact. destruct (CompactAll env M) as [[M1 e]|] eqn:E; [|by intros ? ?]. simpl_bind.
  assert (mtrace M [MStep M (MCompact env) (MDone e) M1] M1) as Ht by (apply mtrace_one; simpl; by rewrite E).
  destruct e as [e|]; intros M' rep [= <- <-]; (eexists; split; [exact Ht|]).
  - intros a [= <-] Ha. by compute in Ha.
  - intros a _ _. by apply Forall_singleton.
Qed.

(** ** Events *)

(** A request is a run of the manager, and an unfailing one when it reports
    success; a poll's reply speaks of its last attempt only. *)
Lemma serve_traced (r : request) M M' rep :
  sound M → request_ok envs r M → serve envs r M = Some (M', rep) →
  ∃ tr, mtrace M tr M' ∧
    ∀ a, rep = Some a → status a < 400 → long_poll r = false → Forall unfailing tr.
Proof.
  intros Hs Hok E.
  assert (traced M (serve envs r M) → ∃ tr, mtrace M tr M' ∧
    ∀ a, rep = Some a → status a < 400 → long_poll r = false → Forall unfailing tr) as Hq.
  { intros Ht. destruct (Ht M' rep E) as (tr & Htr & Hu). exists tr. split; [done|]. intros a Ha ? _. by apply (Hu a). }
  destruct r; cbn [serve long_poll] in *; simpl in Hok.
  - apply Hq, createQueue_traced.
  - apply Hq. unfold listQueues. destruct (List_ now M); [apply traced_answer|by intros ? ?].
  - apply Hq. unfold queueStats. destruct (Get name M) as [q|]; [|apply traced_answer].
    destruct (Stats_ now q); [apply traced_answer|by intros ? ?].
  - apply Hq, enqueue_traced.
  - destruct (receive_traced name b now rounds gone M Hs Hok M' rep E) as [tr Ht]. by exists tr.
  - apply Hq, ack_traced.
  - apply Hq, nack_traced.
  - apply Hq, extend_traced.
  - apply Hq, replay_traced.
  - apply Hq, compact_traced.
  - apply Hq, traced_answer.
  - apply Hq. unfold health. destruct (ManagerErr M); apply traced_answer.
Qed.

Lemma sound_put n q q' w' M : sound M → queues M !! n = Some q → wf q' → cfg q' = cfg q → sound (put n q' w' M).
Proof.
  intros Hs Hq Hwf Hc n' q1 Hq1. simpl in Hq1. destruct (decide (n = n')) as [<-|Hne].
  - rewrite lookup_insert_eq in Hq1. injection Hq1 as <-. split; [done|].
    unfold name. rewrite Hc. apply (Hs _ _ Hq).
  - rewrite lookup_insert_ne in Hq1 by done. by apply Hs.
Qed.

(** One firing of the pump ticks every queue. *)
Lemma tick_all_ok names now : ∀ M,
  sound M → (∀ n, n ∈ names → is_Some (queues M !! n)) →
  ∃ M' tr, tick_all envs names now M = Some M' ∧ sound M' ∧ mtrace M tr M'.
Proof.
  induction names as [|n names IH]; intros M Hs Hn; [exists M, []; split_and!; [done..|constructor]|].
  destruct (Hn n) as [q Hq]; [set_solver|]. cbn [tick_all]. unfold on_queue. rewrite Hq. simpl_bind.
  destruct (exec_ok (CTick now) q (wal M) (proj1 (Hs n q Hq)) I) as (q' & w' & r & E & Hwf' & Hc & _).
  pose proof (call_trace n (CTick now) q q' w' r M Hq E) as Ht. simpl in E.
  change (manager_log envs) with trace_log. destruct (Tick now q (wal M)) as [[q1 w1]|]; [|done].
  injection E as <- <- <-. simpl_bind. cbn iota beta. fold (put n q1 w1 M).
  destruct (IH (put n q1 w1 M)) as (M' & tr & E' & Hs' & Ht').
  - by eapply sound_put.
  - intros n' Hn'. simpl. destruct (decide (n = n')) as [<-|Hne]; [rewrite lookup_insert_eq; by eexists|].
    rewrite lookup_insert_ne by done. apply Hn. set_solver.
  - eexists M', _. split_and!; [done..|]. by eapply mtrace_app.
Qed.

Lemma pump_ok now M : sound M → ∃ M' tr, pump envs now M = Some M' ∧ sound M' ∧ mtrace M tr M'.
Proof.
  intros Hs. apply tick_all_ok; [done|]. intros n ([n' q] & -> & Hin)%list_elem_of_fmap.
  rewrite range_perm in Hin. apply elem_of_map_to_list in Hin. by exists q.
Qed.

(** What is asked of the environment in the course of a session. *)
Definition event_ok (ev : event) M : Prop :=
  match ev with Request r => request_ok envs r M | _ => True end.

Fixpoint session_ok (evs : list event) M : Prop :=
  match evs with
  | [] => True
  | ev :: evs => event_ok ev M ∧ ∀ M' rs, react envs ev M = Some (M', rs) → session_ok evs M'
  end.

(** The events that must be answered: a poll may still be waiting. *)
Definition due (ev : event) : bool := match ev with Request r => negb (long_poll r) | _ => false end.

Lemma react_ok ev M :
  sound M → event_ok ev M →
  ∃ M' rs tr, react envs ev M = Some (M', rs) ∧ sound M' ∧ mtrace M tr M' ∧ (due ev = true → length rs = 1%nat).
Proof.
  intros Hs Hok. destruct ev as [r|now|sync]; simpl in Hok |- *.
  - assert (∃ M' rep, serve envs r M = Some (M', rep) ∧ sound M' ∧ (long_poll r = false → is_Some rep)) as (M' & rep & E & Hs' & Hd).
    { destruct (serve_ok envs r M Hs Hok) as [(M' & rep & E & Hs' & _)|(Hp & _ & M' & E & Hs')].
      - exists M', (Some rep). split_and!; [done..|]. by eexists.
      - exists M', None. split_and!; [done..|]. by rewrite Hp. }
    destruct (serve_traced r M M' rep Hs Hok E) as (tr & Ht & _). rewrite E. simpl_bind.
    eexists M', _, tr. split_and!; [done..|]. intros Hl%negb_true_iff. by destruct (Hd Hl) as [a ->].
  - destruct (pump_ok now M Hs) as (M' & tr & -> & Hs' & Ht). simpl_bind. by exists M', [], tr.
  - eexists _, [], _. split_and!; [done|exact Hs| |done]. by apply (mtrace_one _ (MFlush sync) (MDone None)).
Qed.

Lemma session_runs evs : ∀ M,
  sound M → session_ok evs M →
  ∃ M' rs tr, session envs evs M = Some (M', rs) ∧ sound M' ∧ mtrace M tr M' ∧
    (length (List.filter due evs) ≤ length rs)%nat.
Proof.
  induction evs as [|ev evs IH]; intros M Hs Hok; [exists M, [], []; split_and!; [done..|constructor|done]|].
  destruct Hok as [Hev Hok]. destruct (react_ok ev M Hs Hev) as (M1 & rs1 & tr1 & E1 & Hs1 & Ht1 & Hl1).
  destruct (IH M1 Hs1 (Hok _ _ E1)) as (M2 & rs2 & tr2 & E2 & Hs2 & Ht2 & Hl2).
  eexists M2, _, _. cbn [session]. rewrite E1. simpl_bind. rewrite E2. split_and!; [done|done|by eapply mtrace_app|].
  cbn [List.filter]. rewrite length_app. destruct (due ev) eqn:Hd; [|lia]. rewrite Hl1 by done. simpl. lia.
Qed.

Lemma session_app evs evs' : ∀ M,
  session envs (evs ++ evs') M =
    ('(M1, rs) ← session envs evs M; '(M2, rs') ← session envs evs' M1; Some (M2, rs ++ rs')).
Proof.
  induction evs as [|ev evs IH]; intros M; simpl; [by destruct (session envs evs' M) as [[]|]|].
  destruct (react envs ev M) as [[M1 rs]|]; [|done]. simpl_bind. rewrite IH.
  destruct (session envs evs M1) as [[M2 rs1]|]; [|done]. simpl_bind.
  destruct (session envs evs' M2) as [[M3 rs2]|]; [|done]. simpl_bind. by rewrite (assoc_L (++)).
Qed.

Lemma List_total now M : sound M → is_Some (List_ now M).
Proof.
  intros Hs. destruct (listQueues_fine envs now M Hs) as (M' & r & E & _).
  unfold listQueues in E. destruct (List_ now M); [by eexists|done].
Qed.
End Traces.
