(* ===== verification/Shutdown.v ===== *)
(** * Stopping the server

    In every state a manager reaches, its log is open and is the file its path
    names; so [Close] can make all of it durable, and the next process finds it. *)

From Stdlib Require Import Strings.Byte.
From S2P Require Import Prelude ContainerHeap Msg Heaps LogStore Queue QueueInv QueueSpec QueueOps QueueReceive Calls Encoding Wal WalOps Manager Recovery ManagerOps CompactOps Compacted ReplayOps ManagerRun Api ApiOps Server ServerOps.

Implicit Types (q : Queue) (M : Manager) (n : string) (T : Time) (w : WAL).

(** The log is open, and a compaction has not left it behind. *)
Definition handle_ok w : Prop := WAL.closed w = false ∧ WAL.orphan w = None.
Definition log_handle (l : wlog) : Prop := handle_ok (wl_wal l).
Definition in_service M : Prop := closed M = false ∧ log_handle (wal M).

Section Handles.
Context `{JsonLaws} `{RangingLaws} (envs : nat → wenv).
#[local] Instance handle_log : Log wlog := wal_log envs.

Lemma write_handle r d (l l' : wlog) e : log_handle l → write r d l = (l', e) → log_handle l'.
Proof.
  unfold log_handle. intros Hh. simpl. unfold wal_write.
  destruct (encode _); [|by intros [= <- _]]. destruct (WAL.failed _); [by intros [= <- _]|].
  unfold WriteAt. destruct (we_write _) as [[k x]|]; [by intros [= <- _]|].
  destruct (negb d); [by intros [= <- _]|]. destruct (0 <? _); [by intros [= <- _]|].
  unfold Sync. by destruct (we_sync _); intros [= <- _].
Qed.

Lemma exec_handle k q l q' l' r :
  wf q → admissible k q → log_handle l → exec k q l = Some (q', l', r) → log_handle l'.
Proof.
  intros Hwf Hk Hl E. destruct (exec_ok k q l Hwf Hk) as (q1 & l1 & r1 & E1 & _ & _ & Hst).
  rewrite E in E1. injection E1 as <- <- <-.
  specialize (Hst anything (serves_anything _ _) (reports_anything _ _ _ _)).
  apply (asteps_log (cfg q) anything log_handle _ _) in Hst; [done|exact write_handle|done].
Qed.

Lemma Compact_handle live env w w' : handle_ok w → Compact live env w = (w', None) → handle_ok w'.
Proof.
  intros [Hc _]. unfold Compact. destruct (WAL.failed w); [done|]. destruct (ce_open env); [done|].
  destruct (write_all _ _ _ _ _) as [[f off] [x|]]; [done|]. destruct (Sync f _) as [f' [x|]]; [done|].
  destruct (ce_close env); [done|]. destruct (ce_rename env); [done|]. destruct (ce_reopen env); [done|].
  by intros [= <-].
Qed.

Lemma flush_handle sync w : handle_ok w → handle_ok (flush sync w).
Proof. unfold flush. destruct (WAL.dirty w); [|done]. by destruct sync; simpl; [destruct (WAL.failed w)|]. Qed.

(** Recovery reads, and repairs, through the handle it opened. *)
Lemma scan_loop_handle fuel : ∀ rd eof off (s : recovery) s' r,
  handle_ok (r_wal s) → scan_loop recover_fn fuel rd eof off s = Some (s', r) → handle_ok (r_wal s').
Proof.
  induction fuel as [|fuel IH]; intros rd eof off s s' r Hs; [done|]. cbn [scan_loop].
  destruct (next_frame rd eof) as [|x|rec k rd']; [by intros [= <- _]..|]. case_bool_decide.
  - apply IH. unfold raise_epoch. by case_match.
  - unfold recover_fn at 1. simpl_bind. cbn iota beta. apply IH. by rewrite recover_record_wal.
Qed.

Lemma scan_handle from repair se (s s' : recovery) e :
  handle_ok (r_wal s) → scan recover_fn from repair se s = Some (s', e) → handle_ok (r_wal s').
Proof.
  intros Hs. unfold scan. cbn [wal_of recovery_has_wal]. destruct (from <? 0); [by intros [= <- _]|].
  destruct (WAL.size _ <? from); [by intros [= <- _]|]. destruct (from =? _); [by intros [= <- _]|].
  destruct (scan_loop _ _ _ _ _ _) as [[s1 res]|] eqn:Es; [|done].
  apply scan_loop_handle in Es; [|done]. simpl_bind. destruct res as [|x|off x]; [by intros [= <- _]..|].
  destruct repair; [|by intros [= <- _]].
  unfold truncate, Truncate, Sync. cbn [wal_of recovery_has_wal]. destruct (_ <=? _); [by intros [= <- _]|].
  destruct (se_trunc se); [by intros [= <- _]|]. by destruct (se_sync se); intros [= <- _].
Qed.

Lemma recover_handle se now w w' r : handle_ok w → recover se now w = Some (w', r) → handle_ok w'.
Proof.
  intros Hw. unfold recover, Recover. intros ([s [e|]] & Es & E)%bind_Some;
    apply scan_handle in Es; try done; [by injection E as <- _|].
  apply bind_Some in E as (qs & _ & E). by injection E as <- _.
Qed.

Lemma Open_service sy tick env step M : Open sy tick env step = Some (Ok M) → in_service M.
Proof.
  unfold Open. destruct (oe_content env) as [content|]; [|done]. intros ([w [qs|e]] & E & EM)%bind_Some; [|done]. injection EM as <-. split; [done|].
  by apply recover_handle in E.
Qed.

Lemma mreach_service T M : mreach envs T M → in_service M.
Proof.
  induction 1 as [T sy tick now M E|T0 T M mc M' r Hr IH HT Hs E Hf]; [by eapply Open_service|].
  destruct IH as [Hc Hl]. destruct mc as [c|n k|env|sync|n bm since env|tl sy tick now]; simpl in E.
  - destruct (Create envs c M) as [M1 [q|e]] eqn:Ec; injection E as <- <-; [|by rewrite Hf].
    unfold Create in Ec. case_bool_decide; [done|]. destruct (containsAny _ _); [done|].
    destruct (_ && _); [done|]. destruct (queues M !! _); [done|]. change (manager_log envs) with handle_log in Ec.
    destruct (AppendSync _ (wal M)) as [l [e|]] eqn:Ew; [done|]. injection Ec as <- <-.
    split; [done|]. by eapply write_handle.
  - unfold Get, on_queue in E. destruct (queues M !! n) as [q|] eqn:Hq; [|by injection E as <- <-].
    simpl in E. change (run_log envs) with handle_log in E.
    destruct (exec k q (wal M)) as [[[q' l'] r1]|] eqn:Ex; [|done]. injection E as <- <-. split; [done|].
    eapply exec_handle; [|apply (Hs q Hq)|exact Hl|exact Ex].
    apply (qo_wf _ _ _ _ (hy_queue _ _ _ (mreach_healthy _ _ _ Hr) n q Hq)).
  - destruct (CompactAll env M) as [[M1 e]|] eqn:Ec; [|done]. injection E as <- <-.
    destruct e; [by rewrite Hf|]. apply CompactAll_ok in Ec as (live & w & Ew & ->).
    split; [done|]. by eapply Compact_handle.
  - injection E as <- _. split; [done|]. by apply flush_handle.
  - destruct (Replay_collect_frame n bm since env M) as (M1 & r1 & E1 & _ & e & EM).
    rewrite E1 in E. injection E as <- _. by rewrite EM.
  - destruct (Open _ _ _ _) as [[M1|e]|] eqn:Eo; [| |done]; injection E as <- _; [by eapply Open_service|done].
Qed.

(** ** Close *)

Lemma CloseAll_ok M :
  in_service M →
  ∃ M', CloseAll None None M = (M', None) ∧ queues M' = queues M ∧
    disk (WAL.at_path (wl_wal (wal M'))) = cache (WAL.f (wl_wal (wal M))).
Proof.
  intros [Hc [Hcl Ho]]. unfold CloseAll. rewrite Hc. unfold Close. rewrite Hcl. simpl.
  eexists. split; [done|]. split; [done|]. unfold WAL.at_path. simpl. by rewrite Ho.
Qed.

(** The close in terms of the open file, whatever the sync and the close answer. *)
Lemma CloseAll_file sync close M :
  in_service M →
  let w := wl_wal (wal M) in
  ∃ M', CloseAll sync close M = (M', match sync with Some e => Some e | None => close end) ∧
    queues M' = queues M ∧ cache (WAL.f (wl_wal (wal M'))) = cache (WAL.f w) ∧
    (sync = None → disk (WAL.f (wl_wal (wal M'))) = cache (WAL.f w)) ∧
    WAL.size (wl_wal (wal M')) = WAL.size w ∧ WAL.orphan (wl_wal (wal M')) = None.
Proof.
  intros [Hc [Hcl Ho]]. unfold CloseAll. rewrite Hc. unfold Close. rewrite Hcl. simpl.
  destruct sync; simpl; eexists; by split_and!.
Qed.

(** The next process finds what was in the file. *)
Lemma reopen_ok T T' M sy tick now :
  mreach envs T M → (∀ n, T ≤ now n ≤ T') →
  ∃ M', Open sy tick (OEnv (Ok (cache (WAL.f (wl_wal (wal M))))) quiet_scan now) (wl_step (wal M)) = Some (Ok M') ∧
    manager_reborn now M M'.
Proof.
  intros Hr Hnow. pose proof (mreach_healthy _ _ _ Hr) as Hh.
  destruct (restart_ok envs T T' M [] sy tick now Hh torn_nil Hnow) as (M' & E & _ & Hre & _).
  exists M'. split; [|done]. destruct (hy_trim _ _ _ Hh) as [Hs Ho]. simpl in E.
  unfold in_path in E. rewrite Ho, Hs, Nat2Z.id, overwrite_end, app_nil_r in E.
  apply bind_Some in E as ([M4|e] & E4 & E3); [|done]. by injection E3 as ->.
Qed.
End Handles.
