(* ===== verification/ServerProps.v ===== *)
(** * Properties of the server process

    What [main.go] composes: every request is a run of the manager, the process
    serves whatever it is sent, and a stop by signal leaves on the disk exactly
    what the next start needs. *)

From Stdlib Require Import Strings.Byte.
From S2P Require Import Prelude ContainerHeap Msg Heaps LogStore Queue QueueInv QueueSpec QueueOps QueueReceive Calls Bytes Encoding Wal WalOps WireCodec Manager Recovery ManagerOps ManagerRun Receive Api ApiOps Server ServerOps Shutdown.
Import (hints) WireCodec.

Implicit Types (q : Queue) (M : Manager) (n : string) (T : Time).

#[local] Instance in_key_order : Ranging := { range A x := map_to_list x }.
#[local] Instance in_key_order_laws : RangingLaws.
Proof. by split. Qed.

(** ** A concrete process, with group commit *)

Definition calm_disk : nat → wenv := λ _, WEnv unixEpoch None None.
Definition some_bytes (i : nat) : list byte := [x2b; default x00 (Byte.of_nat i)].
Definition grouped : flags := Flags (10 * Millisecond) (50 * Millisecond).
Definition no_file : oenv := OEnv (Ok []) quiet_scan (λ _, 0).

Definition arrivals : list event :=
  [Request (PostQueues (Decoded (Config.Mk "q" "" false 3 0)));
   Request (PostMessages "q" (Decoded (EnqueueReq "a" 0 0)) 10 (some_bytes 1));
   Request (PostMessages "q" (Decoded (EnqueueReq "b" 0 100)) 10 (some_bytes 2));
   PumpTick 20;
   Request (PostReceive "q" (Decoded (ReceiveReq 1 0 0)) 20 [Round 20 some_bytes 20 [] TimedOut 20] false);
   Request (PostAck "q" (Decoded (AckReq "nobody")))].

(** What they make of the manager, as calls. *)
Definition as_calls : list (Time * mcall) :=
  [(10, MCreate (Config.Mk "q" FIFO false 3 0));
   (10, MCall "q" (CEnqueue "a" 0 0 10 (some_bytes 1)));
   (10, MCall "q" (CEnqueue "b" 0 (100 * Millisecond) 10 (some_bytes 2)));
   (20, MCall "q" (CTick 20));
   (20, MCall "q" (CTryReceive 1 (30 * Second) 20 some_bytes));
   (20, MCall "q" (CAck "nobody"))].

Definition M_idle : Manager := MkManager ∅ (WLog (OpenWAL [] 0) 0) 0 false.
Definition M_start : Manager :=
  match Open (fsyncEvery grouped) (tick grouped) no_file 0 with Some (Ok M) => M | _ => M_idle end.
Definition M_busy : Manager := (default (0, M_idle) (mrun calm_disk as_calls 0 M_start)).2.

Lemma M_start_open : Open (fsyncEvery grouped) (tick grouped) no_file 0 = Some (Ok M_start).
Proof. vm_compute. reflexivity. Qed.

Lemma M_start_reach : mreach calm_disk 0 M_start.
Proof. exact (mr_open calm_disk 0 _ _ _ _ M_start_open). Qed.

Lemma M_start_sound : sound M_start.
Proof.
  intros n q Hq. pose proof (hy_queue _ _ _ (mreach_healthy _ _ _ M_start_reach) n q Hq) as Hqo.
  split; apply Hqo.
Qed.

Lemma M_busy_reach : mreach calm_disk 20 M_busy.
Proof.
  unfold M_busy. destruct (mrun calm_disk as_calls 0 M_start) as [[T M]|] eqn:E; [|vm_compute in E; discriminate E].
  assert (T = 20) as -> by (vm_compute in E; injection E as <- _; reflexivity).
  exact (mrun_reach calm_disk as_calls 0 M_start 20 M M_start_reach E).
Qed.

Lemma busy_session : fst <$> session calm_disk arrivals M_start = Some M_busy.
Proof. vm_compute. reflexivity. Qed.

(** ** Requests *)

(** C22: the HTTP surface adds no behaviour of its own.  Whatever a request does
    to the manager is a run of the manager's calls, recorded step by step; and a
    request other than a poll that is answered with success has made no step
    that failed, so it leads from any reachable manager to a reachable one, and
    what holds in every reachable manager - exact restarts, harmless compactions,
    expiring bookmarks - holds of the server. *)
Theorem requests_are_runs `{JsonLaws} `{RangingLaws} (envs : nat → wenv) (r : request) M M' rep :
  sound M → request_ok envs r M → serve envs r M = Some (M', rep) →
  ∃ tr, mtrace envs M tr M' ∧
    ∀ a, rep = Some a → status a < 400 → long_poll r = false →
      Forall unfailing tr ∧ ∀ T, mreach envs T M → Forall (served_step T) tr → mreach envs T M'.
Proof.
  intros Hs Hok E. destruct (serve_traced envs r M M' rep Hs Hok E) as (tr & Ht & Hu).
  exists tr. split; [done|]. intros a Ha Hst Hp. pose proof (Hu a Ha Hst Hp) as Huf. split; [done|].
  intros T Hr Hse. by destruct (mtrace_reach envs T T M tr M' Hr) as (T' & HT & Hr'); [lia|done..|assert (T' = T) as <- by lia].
Qed.

Lemma requests_are_runs_witness :
  match serve calm_disk (PostMessages "q" (Decoded (EnqueueReq "c" 0 0)) 20 (some_bytes 3)) M_busy with
  | Some (M', Some a) =>
      status a = 201 ∧ ∃ tr, mtrace calm_disk M_busy tr M' ∧ Forall unfailing tr
  | _ => False
  end.
Proof.
  destruct (serve calm_disk (PostMessages "q" (Decoded (EnqueueReq "c" 0 0)) 20 (some_bytes 3)) M_busy)
    as [[M' [a|]]|] eqn:E; [|vm_compute in E; discriminate E..].
  assert (status a = 201) as Ea by (vm_compute in E; injection E as _ <-; reflexivity).
  split; [exact Ea|].
  destruct (requests_are_runs calm_disk (PostMessages "q" (Decoded (EnqueueReq "c" 0 0)) 20 (some_bytes 3))
    M_busy M' (Some a)) as (tr & Ht & Hu).
  - intros n q Hq. pose proof (hy_queue _ _ _ (mreach_healthy _ _ _ M_busy_reach) n q Hq) as Hqo. split; apply Hqo.
  - intros q Hq. vm_compute in Hq. injection Hq as <-. vm_compute. split; [discriminate|reflexivity].
  - exact E.
  - exists tr. split; [exact Ht|]. apply (Hu a); [reflexivity|rewrite Ea; lia|reflexivity].
Defined.

(** ** The process *)

(** The requests still to come when a stop is signalled. *)
Definition drained (why : stopping) : list event :=
  match why with Signal drain _ _ => drain | ListenFailed => [] end.

(** C24: a server that has started serves until it is stopped.  Whatever
    requests arrive and however the tickers fire between them, the process comes
    to its end without a panic: everything but a poll is answered, the drained
    requests included; the manager has made a run of its calls, sound at its
    end; and the status is 0 exactly when a signal stopped the process and the
    log was synced and closed. *)
Theorem main_serves `{JsonLaws} `{RangingLaws} (envs : nat → wenv) o env step evs why M0 :
  Open (fsyncEvery o) (tick o) env step = Some (Ok M0) → sound M0 →
  session_ok envs (evs ++ drained why) M0 →
  ∃ c rs M1 M2 tr, main envs o env step evs why = Some (Exit c rs (Some M2)) ∧
    mtrace envs M0 tr M1 ∧ sound M1 ∧ queues M2 = queues M1 ∧
    (length (List.filter due (evs ++ drained why)) ≤ length rs)%nat ∧
    match why with
    | ListenFailed => c = 1 ∧ M2 = M1
    | Signal _ sync close =>
        M2 = (CloseAll sync close M1).1 ∧ c = match (CloseAll sync close M1).2 with Some _ => 1 | None => 0 end
    end.
Proof.
  intros Eo Hs Hok. destruct (List_total envs (oe_now env) M0 Hs) as [l El].
  destruct (session_runs envs (evs ++ drained why) M0 Hs Hok) as (M1 & rs & tr & E & Hs1 & Ht & Hl).
  unfold main. rewrite Eo. simpl_bind. rewrite El. simpl_bind.
  rewrite session_app in E. destruct (session envs evs M0) as [[Ma ra]|]; [|done]. simpl_bind.
  destruct why as [drain sync close|]; simpl in E.
  - destruct (session envs drain Ma) as [[Mb rb]|]; [|done]. injection E as <- <-. simpl_bind.
    destruct (CloseAll sync close Mb) as [Mc e] eqn:Ec. eexists _, (ra ++ rb), Mb, Mc, tr.
    split_and!; [reflexivity|done|done| |done|by rewrite Ec..].
    unfold CloseAll in Ec. destruct (closed Mb); [by injection Ec as <- _|].
    destruct (Close sync close _). by injection Ec as <- _.
  - injection E as <- <-. rewrite !app_nil_r in Hl. eexists _, ra, Ma, Ma, tr.
    split_and!; [reflexivity|done..| |done|done]. simpl. by rewrite app_nil_r.
Qed.

Lemma main_serves_witness :
  ∃ c rs M1 M2 tr, main calm_disk grouped no_file 0 arrivals ListenFailed = Some (Exit c rs (Some M2)) ∧
    mtrace calm_disk M_start tr M1 ∧ sound M1 ∧ queues M2 = queues M1 ∧ (4 ≤ length rs)%nat ∧ c = 1 ∧ M2 = M1.
Proof.
  destruct (main_serves calm_disk grouped no_file 0 arrivals ListenFailed M_start)
    as (c & rs & M1 & M2 & tr & E & Ht & Hs & Hq & Hl & Hc).
  - exact M_start_open.
  - exact M_start_sound.
  - cbn [arrivals drained app session_ok event_ok].
    repeat (split; [simpl; try exact I|intros ? ? E; vm_compute in E; injection E as <- _]); [..|exact I].
    all: try (intros q Hq; vm_compute in Hq; injection Hq as <-; vm_compute; split; [discriminate|reflexivity]).
    intros q req vis Hq Er Ev. vm_compute in Hq. injection Hq as <-. injection Er as <-.
    vm_compute in Ev. injection Ev as <-. vm_compute. reflexivity.
  - exists c, rs, M1, M2, tr. exact (conj E (conj Ht (conj Hs (conj Hq (conj Hl Hc))))).
Defined.

(** ** Stopping *)

(** C7: after a session in which nothing failed, a stop by signal whose final sync
    and close succeed is a clean hand-over.  Once the last request has been
    drained, closing the manager puts every byte of its log on the disk - under
    group commit too, where the last acknowledged writes were not there yet -
    and the process exits with status 0; the next process that opens the file
    then has exactly the queues and messages the first one was left with, the
    leases apart.  ([mreach] says that no call reported a failure; after a failed
    [Nack] memory and log differ, and the next process has what the log has:
    [accepted_survives_faults].) *)
Theorem graceful_stop_is_exact `{JsonLaws} `{RangingLaws} (envs : nat → wenv) o env step evs drain M0 M1 rs T T' o' now :
  Open (fsyncEvery o) (tick o) env step = Some (Ok M0) → sound M0 →
  session envs (evs ++ drain) M0 = Some (M1, rs) → mreach envs T M1 →
  (∀ n, T ≤ now n ≤ T') →
  ∃ M2, main envs o env step evs (Signal drain None None) = Some (Exit 0 rs (Some M2)) ∧
    let content := disk (WAL.at_path (wl_wal (wal M2))) in
    content = cache (WAL.f (wl_wal (wal M1))) ∧
    ∃ M3, Open (fsyncEvery o') (tick o') (OEnv (Ok content) quiet_scan now) (wl_step (wal M1)) = Some (Ok M3) ∧
      manager_reborn now M1 M3.
Proof.
  intros Eo Hs E Hr Hnow. destruct (List_total envs (oe_now env) M0 Hs) as [l El].
  rewrite session_app in E. destruct (session envs evs M0) as [[Ma ra]|] eqn:Ea; [|done]. simpl in E.
  destruct (session envs drain Ma) as [[Mb rb]|] eqn:Eb; [|done]. injection E as -> <-.
  destruct (CloseAll_ok M1 (mreach_service envs T M1 Hr)) as (M2 & E2 & _ & Ed).
  exists M2. split.
  - unfold main. rewrite Eo. simpl_bind. rewrite El. simpl_bind. rewrite Ea. simpl_bind. rewrite Eb. simpl_bind.
    by rewrite E2.
  - cbv zeta. rewrite Ed. split; [done|].
    by apply (reopen_ok envs T T' M1).
Qed.

Lemma graceful_stop_is_exact_witness :
  ∃ M2 rs, main calm_disk grouped no_file 0 (take 5 arrivals) (Signal (drop 5 arrivals) None None) =
      Some (Exit 0 rs (Some M2)) ∧
    let content := disk (WAL.at_path (wl_wal (wal M2))) in
    content = cache (WAL.f (wl_wal (wal M_busy))) ∧ content ≠ disk (WAL.f (wl_wal (wal M_busy))) ∧
    ∃ M3, Open 0 0 (OEnv (Ok content) quiet_scan (λ _, 60)) (wl_step (wal M_busy)) = Some (Ok M3) ∧
      manager_reborn (λ _, 60) M_busy M3.
Proof.
  destruct (session calm_disk arrivals M_start) as [[M1 rs]|] eqn:E; [|vm_compute in E; discriminate E].
  assert (M1 = M_busy) as -> by (pose proof busy_session as Hb; rewrite E in Hb; exact (inj Some _ _ Hb)).
  destruct (graceful_stop_is_exact calm_disk grouped no_file 0 (take 5 arrivals) (drop 5 arrivals) M_start M_busy rs
    20 60 (Flags 0 0) (λ _, 60)) as (M2 & E2 & Ec & M3 & E3 & Hre).
  - exact M_start_open.
  - exact M_start_sound.
  - exact E.
  - exact M_busy_reach.
  - intros _. lia.
  - exists M2, rs. split; [exact E2|]. split; [exact Ec|]. split; [|exists M3; exact (conj E3 Hre)].
    rewrite Ec. vm_compute. discriminate.
Defined.
