(* ===== verification/Threads.v ===== *)
(** * Goroutines: every request between its locks

    [Api.v] runs a handler from beginning to end.  The server runs one goroutine
    for each request, and what is atomic is what happens under a lock.  Here a
    goroutine is a [task]: critical sections, each one method of the manager, of
    a queue or of the log under its mutex, with the code between them that
    touches no shared state; and, for a poll, the [select] it parks in.  The
    scheduler picks the goroutine that goes next. *)

From Stdlib Require Import Strings.Byte.
From S2P Require Import Prelude Msg LogStore Queue QueueOps Calls Receive Encoding Wal Manager Api.

(** ** Critical sections

    A method that writes several records gives the log's lock up between them;
    here it writes them back to back. *)

(** The methods that hold [q.mu] from beginning to end. *)
Inductive method : Type → Type :=
  | MEnqueue (body : string) (priority : Z) (delay : Duration) (now : Time) (rnd : list byte) : method (result Msg)
  | MTryReceive (max : Z) (visibility : Duration) (now : Time) (rnd : nat → list byte) :
      method (list Msg * nat * option error)
  | MAck (receipt : string) : method (option error)
  | MExtend (receipt : string) (visibility : Duration) (now : Time) : method (result Time)
  | MNack (receipt : string) (delay : Duration) (now : Time) : method (option error)
  | MReplayDLQ (now : Time) : method (Z * option error)
  | MTick (now : Time) : method unit
  | MStats (now : Time) : method Stats.t.

(** A method of the queue [n], or a method of the manager or the log that holds
    its lock from beginning to end.  [CScan] reads the file [Scan] captured
    together with its end: later writes land behind that end or, after a
    compaction, in another file, so all of it is read at that moment. *)
Inductive crit : Type → Type :=
  | COn (n : string) {A} (m : method A) : crit A
  | CGet (n : string) : crit (result Queue)
  | CCreate (cfg : Config) : crit (result Queue)
  | CNames : crit (list string)
  | CBookmark : crit Bookmark.t
  | CScan (n : string) (from : Z) (since : Time) (env : senv) : crit (result (list (string * Z)))
  | CCompact (env : cenv) : crit (option error)
  | CErr : crit (option error).

Inductive task (R : Type) : Type :=
  | Done (x : R)
  | Do {A : Type} (c : crit A) (k : A → task R)
  | Park (ready : Manager → bool) (k : task R).
Arguments Done {R} x.
Arguments Do {R A} c k.
Arguments Park {R} ready k.

(** ** The handlers of api.go *)

Abbreviation handler := (task (option reply)).
Definition reply_with (r : reply) : handler := Done (Some r).

Definition createQueue_task (b : body Config) : handler :=
  match decode (Config.Mk "" "" false 0 0) b with
  | Err e => reply_with (fail StatusBadRequest e)
  | Ok cfg =>
      let cfg := if bool_decide (Config.Mode cfg = "") then Config.set_Mode FIFO cfg else cfg in
      if (Config.VisibilityTimeoutMS cfg <? 0) ||
         (maxVisibility <? i64 (i64 (Config.VisibilityTimeoutMS cfg) * Millisecond))
      then reply_with (fail StatusBadRequest (ErrOther "visibility_timeout_ms must be between"))
      else
        Do (CCreate cfg) (λ r,
          match r with
          | Err e =>
              reply_with (fail (if errorsIs (isErr ErrQueueExists) e then StatusConflict else StatusBadRequest) e)
          | Ok q => reply_with (Reply StatusCreated (PConfig (Queue.cfg q)))
          end)
  end.

(** [List]: the queues under the manager's lock, then each one's numbers. *)
Fixpoint stats_task (names : list string) (now : string → Time) (out : list Stats.t) : handler :=
  match names with
  | [] => reply_with (Reply StatusOK (PQueues (merge_sort (by_name Stats.Name) out)))
  | n :: names => Do (COn n (MStats (now n))) (λ s, stats_task names now (out ++ [s]))
  end.

Definition listQueues_task (now : string → Time) : handler :=
  Do CNames (λ names, stats_task names now []).

Definition queueStats_task (name : string) (now : Time) : handler :=
  Do (CGet name) (λ r,
    match r with
    | Err e => reply_with (fail StatusNotFound e)
    | Ok _ => Do (COn name (MStats now)) (λ s, reply_with (Reply StatusOK (PStats s)))
    end).

Definition with_body_task {A} (name : string) (dst : A) (b : body A) (f : Queue → A → handler) : handler :=
  Do (CGet name) (λ r,
    match r with
    | Err e => reply_with (fail StatusNotFound e)
    | Ok q =>
        match decode dst b with
        | Err e => reply_with (fail StatusBadRequest e)
        | Ok req => f q req
        end
    end).

Definition or_bad_request_task {A} (r : result A) (f : A → handler) : handler :=
  match r with Err e => reply_with (fail StatusBadRequest e) | Ok v => f v end.

Definition enqueue_task (name : string) (b : body enqueueReq) (now : Time) (rnd : list byte) : handler :=
  with_body_task name (EnqueueReq "" 0 0) b (λ _ req,
    if bool_decide (enq_Body req = "") then reply_with (fail StatusBadRequest (ErrOther "body is required"))
    else
      or_bad_request_task (boundedMS (enq_DelayMS req) maxDelay "delay_ms") (λ delay,
        Do (COn name (MEnqueue (enq_Body req) (enq_Priority req) delay now rnd)) (λ r,
          match r with
          | Err e =>
              reply_with (fail (if errorsIs (isErr ErrPriorityDisabled) e then StatusBadRequest
                                else StatusInternalServerError) e)
          | Ok msg => reply_with (Reply StatusCreated (PMsg msg))
          end))).

(** The loop of [Receive]: an attempt, and the [select].  What others do while
    it waits is up to the scheduler, so [rd_others] is not used.  The list of
    rounds is what the theorems follow the poll through; behind the last one it
    stays parked.  That the loop ends is not shown here but in [ReceiveProps]. *)
Definition resumes (name : string) (r : round) (wake0 : nat) (remaining : Duration) (m : Manager) : bool :=
  match queues m !! name with Some q => selectable r wake0 remaining q | None => false end.

Fixpoint poll_task (name : string) (rounds : list round) (max : Z) (visibility wait : Duration) (deadline : Time)
    (k : received → handler) : handler :=
  match rounds with
  | [] => Park (λ _, false) (Done None)
  | r :: rounds =>
      Do (COn name (MTryReceive max visibility (rd_now r) (rd_rnd r))) (λ '(out, wake0, err),
        match err with
        | Some e => k (Failed e)
        | None =>
            if negb (bool_decide (out = [])) || (wait <=? 0) then k (Received out)
            else
              let remaining := Sub deadline (rd_clock r) in
              if remaining <=? 0 then k (Received [])
              else
                Park (resumes name r wake0 remaining)
                  match rd_end r with
                  | Cancelled cause => k (Failed cause)
                  | _ => poll_task name rounds max visibility wait deadline k
                  end
        end)
  end.

Definition receive_task (name : string) (b : body receiveReq) (now : Time) (rounds : list round) (gone : bool) :
    handler :=
  with_body_task name (ReceiveReq 0 0 0) b (λ q req,
    if (rcv_Max req <? 0) || (maxBatch <? rcv_Max req)
    then reply_with (fail StatusBadRequest (ErrOther "max must be between"))
    else
      or_bad_request_task (boundedMS (rcv_VisibilityMS req) maxVisibility "visibility_ms") (λ visibility,
      or_bad_request_task (boundedMS (rcv_WaitMS req) maxWait "wait_ms") (λ wait,
        poll_task name rounds (at_least_one (rcv_Max req)) (effective q visibility) wait (Add now wait) (λ r,
          match r with
          | Failed e => if (gone : bool) then reply_with (Reply StatusOK PEmpty) else reply_with (fail StatusInternalServerError e)
          | Waiting => Done None
          | Received msgs => reply_with (Reply StatusOK (PMessages msgs))
          end)))).

Definition ack_task (name : string) (b : body ackReq) : handler :=
  with_body_task name (AckReq "") b (λ _ req,
    Do (COn name (MAck (ack_Receipt req))) (λ e,
      match e with
      | Some e => reply_with (fail (lease_status e) e)
      | None => reply_with (Reply StatusOK PAcked)
      end)).

Definition nack_task (name : string) (b : body nackReq) (now : Time) : handler :=
  with_body_task name (NackReq "" 0) b (λ _ req,
    or_bad_request_task (boundedMS (nack_DelayMS req) maxDelay "delay_ms") (λ delay,
      Do (COn name (MNack (nack_Receipt req) delay now)) (λ e,
        match e with
        | Some e => reply_with (fail (lease_status e) e)
        | None => reply_with (Reply StatusOK PNacked)
        end))).

Definition extend_task (name : string) (b : body extendReq) (now : Time) : handler :=
  with_body_task name (ExtendReq "" 0) b (λ _ req,
    or_bad_request_task (boundedMS (ext_VisibilityMS req) maxVisibility "visibility_ms") (λ visibility,
      Do (COn name (MExtend (ext_Receipt req) visibility now)) (λ r,
        match r with
        | Err e => reply_with (fail (lease_status e) e)
        | Ok expiry => reply_with (Reply StatusOK (PExpiry expiry))
        end))).

(** [Manager.Replay]: the lookup, the epoch, the scan, and then one [Enqueue]
    after the other, with the locks free in between. *)
Fixpoint publish_task (name : string) (found : list (string * Z)) (i : nat) (now : nat → Time)
    (rnd : nat → list byte) (published : Z) (k : Z → option error → handler) : handler :=
  match found with
  | [] => k published None
  | (body, priority) :: found =>
      Do (COn name (MEnqueue body priority 0 (now i) (rnd i))) (λ r,
        match r with
        | Err e => k published (Some e)
        | Ok _ => publish_task name found (S i) now rnd (published + 1) k
        end)
  end.

Definition Replay_task (name : string) (bm : Bookmark.t) (since : Time) (env : senv) (now : nat → Time)
    (rnd : nat → list byte) (k : Z → option error → handler) : handler :=
  Do (CGet name) (λ r,
    match r with
    | Err e => k 0 (Some e)
    | Ok _ =>
        Do CBookmark (λ cur,
          let epoch := Bookmark.Epoch cur in
          if (0 <? Bookmark.Offset bm) && bool_decide (Bookmark.Epoch bm ≠ epoch)
          then k 0 (Some (ErrStaleBookmark (Bookmark.Epoch bm) epoch))
          else
            Do (CScan name (Bookmark.Offset bm) since env) (λ r,
              match r with
              | Err e => k 0 (Some e)
              | Ok found => publish_task name found 0 now rnd 0 k
              end))
    end).

(** The answer to a replay of the log. *)
Definition log_replayed (j : Z) (e : option error) : handler :=
  match e with
  | Some e =>
      reply_with (Reply (if errorsIs isStale e || errorsIs isCorrupt e then StatusBadRequest
                         else StatusInternalServerError) (PReplayFailed "log" j e))
  | None => reply_with (Reply StatusOK (PReplayed "log" j))
  end.

Definition replay_task (name : string) (b : body replayReq) (dlq_now : Time) (env : senv) (now : nat → Time)
    (rnd : nat → list byte) : handler :=
  with_body_task name (ReplayReq "" 0 0 0) b (λ _ req,
    if bool_decide (rep_Source req = "") || bool_decide (rep_Source req = "dlq") then
      Do (COn name (MReplayDLQ dlq_now)) (λ '(n, e),
        match e with
        | Some e => reply_with (Reply StatusInternalServerError (PReplayFailed "dlq" n e))
        | None => reply_with (Reply StatusOK (PReplayed "dlq" n))
        end)
    else if bool_decide (rep_Source req = "log") then
      if rep_FromOffset req <? 0
      then reply_with (fail StatusBadRequest (ErrOther "from_offset must not be negative"))
      else
        let since := if 0 <? rep_SinceUnixMS req then UnixMilli (rep_SinceUnixMS req) else zeroTime in
        Replay_task name (Bookmark.Mk (rep_Epoch req) (rep_FromOffset req)) since env now rnd log_replayed
    else reply_with (fail StatusBadRequest (ErrOther "source must be"))).

Definition compact_task (env : cenv) : handler :=
  Do CBookmark (λ before,
    Do (CCompact env) (λ e,
      match e with
      | Some e => reply_with (fail StatusInternalServerError e)
      | None =>
          Do CBookmark (λ after,
            reply_with (Reply StatusOK
              (PCompacted (Bookmark.Offset before) (Bookmark.Offset after) (Bookmark.Epoch after))))
      end)).

Definition bookmark_task : handler := Do CBookmark (λ bm, reply_with (Reply StatusOK (PBookmark bm))).

Definition health_task : handler :=
  Do CErr (λ e,
    match e with
    | Some e => reply_with (Reply StatusServiceUnavailable (PDegraded e))
    | None => reply_with (Reply StatusOK PHealthy)
    end).

Definition serve_task (r : request) : handler :=
  match r with
  | PostQueues b => createQueue_task b
  | GetQueues now => listQueues_task now
  | GetQueue name now => queueStats_task name now
  | PostMessages name b now rnd => enqueue_task name b now rnd
  | PostReceive name b now rounds gone => receive_task name b now rounds gone
  | PostAck name b => ack_task name b
  | PostNack name b now => nack_task name b now
  | PostExtend name b now => extend_task name b now
  | PostReplay name b dlq_now env now rnd => replay_task name b dlq_now env now rnd
  | PostCompact env => compact_task env
  | GetBookmark => bookmark_task
  | GetHealthz => health_task
  end.

(** One firing of [pump]'s ticker.  It holds the manager's read lock, which keeps
    creations and compactions out; here they may come in between, so the pool has
    more schedules than the program. *)
Fixpoint ticks_task (names : list string) (now : Time) : handler :=
  match names with
  | [] => Done None
  | n :: names => Do (COn n (MTick now)) (λ _, ticks_task names now)
  end.
Definition pump_task (now : Time) : handler := Do CNames (λ names, ticks_task names now).

(** ** Running *)

Section Run.
Context `{Json} `{Ranging} (envs : nat → wenv).
#[local] Instance thread_log : Log wlog := wal_log envs.
#[local] Existing Instance found_has_wal.

Definition invoke {A} (m : method A) (q : Queue) (w : wlog) : option (Queue * wlog * A) :=
  match m in method A return option (Queue * wlog * A) with
  | MEnqueue body priority delay now rnd => Enqueue body priority delay now rnd q w
  | MTryReceive max visibility now rnd => tryReceive max visibility now rnd q w
  | MAck receipt => Ack receipt q w
  | MExtend receipt visibility now => '(q, r) ← Extend receipt visibility now q; Some (q, w, r)
  | MNack receipt delay now => Nack receipt delay now q w
  | MReplayDLQ now => ReplayDLQ now q w
  | MTick now => '(q, w) ← Tick now q w; Some (q, w, tt)
  | MStats now => s ← Stats_ now q; Some (q, w, s)
  end.

(** One section from beginning to end.  One that writes several records writes them
    back to back here, where the log's own lock is free between two of them: a
    record of another queue in between makes no difference to recovery
    ([recovery_ignores_interleaving]), and the close of the log in between is a cut
    turn of [Late.v]. *)
Definition perform {A} (c : crit A) (m : Manager) : option (Manager * A) :=
  match c in crit A return option (Manager * A) with
  | COn n f => on_queue n (invoke f) m
  | CGet n => Some (m, Get n m)
  | CCreate cfg => Some (Create envs cfg m)
  | CNames => Some (m, (range (queues m)).*1)
  | CBookmark => Some (m, Bookmark_ m)
  | CScan n from since env =>
      '(w, found, err) ← Scan (replay_fn n since) from env (wl_wal (wal m), []);
      Some (set_log (set_wal w (wal m)) m, match err with Some e => Err e | None => Ok found end)
  | CCompact env => CompactAll env m
  | CErr => Some (m, ManagerErr m)
  end.

(** A goroutine with nobody else about: a [select] with no case ready waits for
    ever. *)
Fixpoint alone (t : handler) (m : Manager) : option (Manager * option reply) :=
  match t with
  | Done r => Some (m, r)
  | Do c k => '(m, a) ← perform c m; alone (k a) m
  | Park ready t => if ready m then alone t m else Some (m, None)
  end.

(** ** The pool *)

Record pool := Pool { shared : Manager; goroutines : list handler }.

(** A turn of one goroutine. *)
Inductive turn :=
  | Finished
  | Blocked
  | Panicked
  | Moved (m : Manager) (t : handler).

Definition take_turn (t : handler) (m : Manager) : turn :=
  match t with
  | Done _ => Finished
  | Do c k => match perform c m with Some (m, a) => Moved m (k a) | None => Panicked end
  | Park ready t => if ready m then Moved m t else Blocked
  end.

(** What the scheduler and the outside can do next. *)
Inductive move :=
  | Arrive (r : request)
  | Ticker (now : Time)
  | Flusher (sync : option error)
  | Go (i : nat).

(** [None]: the goroutine does not exist, is blocked, has finished or panics. *)
Definition move_pool (mv : move) (p : pool) : option pool :=
  match mv with
  | Arrive r => Some (Pool (shared p) (goroutines p ++ [serve_task r]))
  | Ticker now => Some (Pool (shared p) (goroutines p ++ [pump_task now]))
  | Flusher sync =>
      let m := shared p in
      Some (Pool (set_log (set_wal (flush sync (wl_wal (wal m))) (wal m)) m) (goroutines p))
  | Go i =>
      t ← goroutines p !! i;
      match take_turn t (shared p) with
      | Moved m t => Some (Pool m (<[i := t]> (goroutines p)))
      | _ => None
      end
  end.

Fixpoint schedule (mvs : list move) (p : pool) : option pool :=
  match mvs with
  | [] => Some p
  | mv :: mvs => p ← move_pool mv p; schedule mvs p
  end.
End Run.
