(* ===== verification/ThreadOps.v ===== *)
(** * The goroutines and the sequential handlers

    Run alone, a goroutine does what its handler in [Api.v] does; between
    others, each of its turns is a call of the manager or a look at it. *)

From Stdlib Require Import Strings.Byte.
From S2P Require Import Prelude ContainerHeap Msg Heaps LogStore Queue QueueInv QueueSpec QueueOps QueueReceive Calls Effects History Receive Encoding Wal WalOps Manager ManagerOps ReplayOps ManagerRun Api ApiOps Server ServerOps Threads.

Implicit Types (q : Queue) (M : Manager) (n : string) (t : handler).

(** ** Alone *)

Section Alone.
Context `{JsonLaws} `{RangingLaws} (envs : nat → wenv).
#[local] Instance alone_log : Log wlog := wal_log envs.
#[local] Existing Instance found_has_wal.
#[local] Abbreviation alone := (alone envs).

Lemma alone_stats names now M out :
  alone (stats_task names now out) M =
    (l ← mapM (λ n, q ← queues M !! n; Stats_ (now n) q) names;
     answer M (Reply StatusOK (PQueues (merge_sort (by_name Stats.Name) (out ++ l))))).
Proof.
  revert out. induction names as [|n names IH]; intros out; [simpl; by rewrite app_nil_r|].
  cbn [stats_task Threads.alone perform]. unfold on_queue. cbn [mapM].
  destruct (queues M !! n) as [q|] eqn:Hq; [|done]. simpl_bind. simpl.
  destruct (Stats_ (now n) q) as [s|]; [|done]. simpl_bind.
  assert (set_queues (<[n := q]> (queues M)) (set_log (wal M) M) = M) as ->.
  { rewrite insert_id by done. by destruct M. }
  rewrite IH. destruct (mapM _ names) as [l|]; [|done]. simpl. by rewrite <- (assoc_L (++)).
Qed.

Lemma listQueues_alone now M : alone (listQueues_task now) M = listQueues now M.
Proof.
  unfold listQueues_task. cbn [Threads.alone perform]. simpl_bind. rewrite alone_stats.
  unfold listQueues, List_. simpl.
  assert (mapM (λ n, q ← queues M !! n; Stats_ (now n) q) (range (queues M)).*1 =
    mapM (λ v, Stats_ (now v.1) v.2) (range (queues M))) as ->.
  { assert (∀ v, v ∈ range (queues M) → queues M !! v.1 = Some v.2) as Hin.
    { intros [n q] Hv. rewrite range_perm in Hv. by apply elem_of_map_to_list in Hv. }
    induction (range (queues M)) as [|v l IH]; [done|]. cbn [fmap list_fmap mapM].
    rewrite (Hin v) by set_solver. simpl. destruct (Stats_ (now v.1) v.2); [|done]. simpl.
    by rewrite IH by set_solver. }
  by destruct (mapM _ _).
Qed.

Lemma with_body_alone {A} n (dst : A) b f g M :
  (∀ q req, queues M !! n = Some q → alone (f q req) M = g req) →
  alone (with_body_task n dst b f) M = with_body n dst b M g.
Proof.
  intros Hf. unfold with_body_task, with_body. cbn [Threads.alone perform]. simpl_bind. unfold Get.
  destruct (queues M !! n) as [q|] eqn:Hq; [|done]. destruct (decode dst b); [by apply Hf|done].
Qed.

Lemma or_bad_request_alone {A} (v : result A) f g M :
  (∀ x, alone (f x) M = g x) → alone (or_bad_request_task v f) M = or_bad_request v M g.
Proof. intros Hf. by destruct v; simpl. Qed.

(** A section of the queue [n] on its own. *)
Lemma on_alone {A} n (m : method A) k M q :
  queues M !! n = Some q →
  alone (Do (COn n m) k) M =
    ('(q', w, a) ← invoke envs m q (wal M); alone (k a) (put n q' w M)).
Proof.
  intros Hq. cbn [Threads.alone perform]. unfold on_queue. rewrite Hq. simpl_bind.
  by destruct (invoke envs m q (wal M)) as [[[q' w] a]|].
Qed.

(** Both sides call the same method of the queue [n]. *)
Ltac same_call :=
  match goal with Hq : queues ?M !! ?n = Some ?q |- _ =>
    rewrite (on_alone n _ _ M q Hq); unfold on_queue; rewrite Hq; simpl_bind; cbn [invoke];
    change (api_log envs) with alone_log; change (thread_log envs) with alone_log
  end.

Lemma enqueue_alone n b now rnd M : alone (enqueue_task n b now rnd) M = enqueue envs n b now rnd M.
Proof.
  apply with_body_alone. intros q req Hq. case_bool_decide; [done|]. apply or_bad_request_alone. intros d.
  same_call. by destruct (Enqueue _ _ _ _ _ q _) as [[[q' w'] [m|e]]|].
Qed.

Lemma ack_alone n b M : alone (ack_task n b) M = ack envs n b M.
Proof.
  apply with_body_alone. intros q req Hq. same_call. by destruct (Ack _ q _) as [[[q' w'] [e|]]|].
Qed.

Lemma nack_alone n b now M : alone (nack_task n b now) M = nack envs n b now M.
Proof.
  apply with_body_alone. intros q req Hq. apply or_bad_request_alone. intros d.
  same_call. by destruct (Nack _ _ _ q _) as [[[q' w'] [e|]]|].
Qed.

Lemma extend_alone n b now M : alone (extend_task n b now) M = extend n b now M.
Proof.
  apply with_body_alone. intros q req Hq. apply or_bad_request_alone. intros d.
  same_call. by destruct (Extend _ _ _ q) as [[q' [t|e]]|].
Qed.

Lemma queueStats_alone n now M : alone (queueStats_task n now) M = queueStats n now M.
Proof.
  unfold queueStats_task, queueStats. cbn [Threads.alone perform]. simpl_bind. unfold Get.
  destruct (queues M !! n) as [q|] eqn:Hq; [|done]. cbn iota. rewrite (on_alone n _ _ M q Hq). cbn [invoke]. destruct (Stats_ now q); [|done].
  simpl_bind. by rewrite put_same.
Qed.

(** *** Replay *)

Lemma publish_alone n now rnd k found : ∀ i p M q,
  queues M !! n = Some q →
  alone (publish_task n found i now rnd p k) M =
    ('(M, (p, e)) ← Replay_publish envs n found i now rnd p M; alone (k p e) M).
Proof.
  induction found as [|[body prio] found IH]; intros i p M q Hq; [done|].
  cbn [publish_task Replay_publish]. same_call. change (manager_log envs) with alone_log.
  destruct (Enqueue body prio 0 (now i) (rnd i) q (wal M)) as [[[q' w'] [m|e]]|]; [|done..].
  simpl_bind. apply (IH _ _ _ q'). apply lookup_insert_eq.
Qed.

Lemma Replay_alone n bm since env now rnd k M q :
  queues M !! n = Some q →
  alone (Replay_task n bm since env now rnd k) M =
    ('(M, (p, e)) ← Replay envs n bm since env now rnd M; alone (k p e) M).
Proof.
  intros Hq. unfold Replay_task, Replay, Replay_collect. cbn [Threads.alone perform]. simpl_bind.
  unfold Get. rewrite Hq. cbn [Threads.alone perform]. simpl_bind.
  unfold Bookmark_, Bookmark. cbn [Bookmark.Epoch].
  destruct (_ && _); [done|]. cbn [Threads.alone perform].
  destruct (Scan _ _ _ _) as [[[w found] [e|]]|]; [done| |done]. simpl_bind.
  by apply (publish_alone _ _ _ _ _ _ _ _ q).
Qed.

Lemma replay_alone n b dlq_now env now rnd M :
  alone (replay_task n b dlq_now env now rnd) M = replay envs n b dlq_now env now rnd M.
Proof.
  apply with_body_alone. intros q req Hq. destruct (_ || _).
  - same_call. by destruct (ReplayDLQ dlq_now q _) as [[[q' w'] [k [e|]]]|].
  - case_bool_decide; [|done]. destruct (_ <? 0); [done|]. cbv zeta. rewrite (Replay_alone _ _ _ _ _ _ _ _ q) by done.
    destruct (Replay _ _ _ _ _ _ _ _) as [[M1 [k [e|]]]|]; done.
Qed.

(** A replay of the log, from its scan on. *)
Definition scan_task n off since env now rnd : handler :=
  Do (CScan n off since env) (λ r,
    match r with
    | Err e => log_replayed 0 (Some e)
    | Ok found => publish_task n found 0 now rnd 0 log_replayed
    end).

Definition log_replay n epoch off dlq_now env now rnd : request :=
  PostReplay n (Decoded (ReplayReq "log" epoch off 0)) dlq_now env now rnd.

Lemma log_replay_alone n epoch off dlq_now env now rnd M q :
  queues M !! n = Some q → 0 < off →
  alone (serve_task (log_replay n epoch off dlq_now env now rnd)) M =
    (let cur := Bookmark.Epoch (Bookmark_ M) in
     if bool_decide (epoch ≠ cur) then alone (log_replayed 0 (Some (ErrStaleBookmark epoch cur))) M
     else alone (scan_task n off zeroTime env now rnd) M).
Proof.
  intros Hq Hoff. unfold log_replay. cbn [serve_task]. unfold replay_task, with_body_task. cbn [Threads.alone perform].
  simpl_bind. unfold Get. rewrite Hq. cbn [decode rep_Source rep_FromOffset rep_Epoch rep_SinceUnixMS].
  rewrite (proj2 (Z.ltb_ge off 0)) by lia. cbn [Replay_task]. simpl. unfold Get. rewrite Hq. simpl.
  rewrite (proj2 (Z.ltb_lt 0 off)) by done. cbn [andb]. by case_bool_decide.
Qed.

(** *** The poll *)

(** Nobody else's calls are part of the rounds. *)
Definition unshared (r : round) : Prop := rd_others r = [].

Lemma poll_alone n max vis wait deadline k rounds : ∀ M q,
  Forall unshared rounds → queues M !! n = Some q →
  alone (poll_task n rounds max vis wait deadline k) M =
    ('(q, w, res) ← receive_loop rounds max vis wait deadline q (wal M);
     match res with Waiting => Some (put n q w M, None) | _ => alone (k res) (put n q w M) end).
Proof.
  induction rounds as [|r rounds IH]; intros M q Hr Hq.
  { simpl. by rewrite put_same. }
  apply Forall_cons in Hr as [Hn Hr]. cbn [poll_task receive_loop]. rewrite (on_alone n _ _ M q) by done.
  cbn [invoke]. change (thread_log envs) with alone_log.
  destruct (tryReceive max vis (rd_now r) (rd_rnd r) q (wal M)) as [[[q1 w1] [[out wake0] [e|]]]|]; [done| |done].
  simpl_bind. cbn iota beta. destruct (_ || _); [done|]. destruct (_ <=? 0); [done|]. rewrite Hn. simpl_bind.
  cbn [Threads.alone others]. unfold resumes. rewrite (lookup_insert_eq (queues M) n q1 : queues (put n q1 w1 M) !! n = Some q1).
  simpl_bind. cbn iota beta. destruct (selectable _ _ _ q1); [|done].
  assert (alone (poll_task n rounds max vis wait deadline k) (put n q1 w1 M) =
    ('(q, w, res) ← receive_loop rounds max vis wait deadline q1 w1;
     match res with Waiting => Some (put n q w M, None) | _ => alone (k res) (put n q w M) end)) as Hloop.
  { rewrite (IH _ q1) by (done || apply lookup_insert_eq). simpl.
    destruct (receive_loop rounds max vis wait deadline q1 w1) as [[[q2 w2] res]|]; [|done]. simpl_bind.
    assert (put n q2 w2 (put n q1 w1 M) = put n q2 w2 M) as -> by (unfold put; simpl; by rewrite insert_insert_eq).
    done. }
  by destruct (rd_end r).
Qed.

Lemma receive_alone n b now rounds gone M :
  Forall unshared rounds → alone (receive_task n b now rounds gone) M = receive envs n b now rounds gone M.
Proof.
  intros Hr. apply with_body_alone. intros q req Hq. destruct (_ || _); [done|].
  apply or_bad_request_alone. intros vis. apply or_bad_request_alone. intros wait.
  rewrite (poll_alone _ _ _ _ _ _ _ _ q) by done. unfold on_queue, Receive. rewrite Hq. simpl_bind.
  change (api_log envs) with alone_log.
  destruct (receive_loop _ _ _ _ _ q _) as [[[q' w'] [out|e|]]|]; [done| |done..]. simpl_bind. by destruct gone.
Qed.

(** The rounds of a request say nothing of other goroutines. *)
Definition solitary (r : request) : Prop :=
  match r with PostReceive _ _ _ rounds _ => Forall unshared rounds | _ => True end.

Lemma serve_alone r M : solitary r → alone (serve_task r) M = serve envs r M.
Proof.
  intros Hr. destruct r; cbn [serve_task serve].
  - unfold createQueue_task, createQueue. destruct (decode _ b); [|done]. destruct (_ || _); [done|].
    cbn [Threads.alone perform]. simpl_bind. by destruct (Create _ _ _) as [M1 [q|e]].
  - apply listQueues_alone.
  - apply queueStats_alone.
  - apply enqueue_alone.
  - by apply receive_alone.
  - apply ack_alone.
  - apply nack_alone.
  - apply extend_alone.
  - apply replay_alone.
  - unfold compact_task, compact. cbn [Threads.alone perform]. simpl_bind.
    by destruct (CompactAll env M) as [[M1 [e|]]|].
  - done.
  - unfold health_task, health. cbn [Threads.alone perform]. simpl_bind. by destruct (ManagerErr M).
Qed.
End Alone.
