(* ===== verification/ThreadRun.v ===== *)
(** * Running the pool

    Every turn of a goroutine from a sound manager succeeds, leaves it sound and
    is at most one call of [ManagerRun.v], so an interleaving is a run of the
    manager.  Here are the invariant of the pool and what a turn does to one
    queue. *)

From Stdlib Require Import Strings.Byte.
From S2P Require Import Prelude ContainerHeap Msg Heaps LogStore Queue QueueInv QueueSpec QueueOps QueueReceive Calls Effects History Receive Encoding Wal WalOps Manager ManagerOps CompactOps ReplayOps ManagerRun Api ApiOps Server ServerOps Threads ThreadOps.

Implicit Types (q : Queue) (M : Manager) (n : string) (t : handler) (p : pool).

(** ** Methods as calls *)

Definition as_call {A} (m : method A) : option call :=
  match m with
  | MEnqueue body priority delay now rnd => Some (CEnqueue body priority delay now rnd)
  | MTryReceive max visibility now rnd => Some (CTryReceive max visibility now rnd)
  | MAck receipt => Some (CAck receipt)
  | MExtend receipt visibility now => Some (CExtend receipt visibility now)
  | MNack receipt delay now => Some (CNack receipt delay now)
  | MReplayDLQ now => Some (CReplayDLQ now)
  | MTick now => Some (CTick now)
  | MStats _ => None
  end.

Definition respond {A} (m : method A) : A → response :=
  match m in method A return A → response with
  | MEnqueue _ _ _ _ _ => RMsg
  | MTryReceive _ _ _ _ => λ '(out, wake, e), RMsgs out wake e
  | MAck _ | MNack _ _ _ => RErr
  | MExtend _ _ _ => RTime
  | MReplayDLQ _ => λ '(k, e), RCount k e
  | MTick _ | MStats _ => λ _, RUnit
  end.

(** The queue whose method the section runs, or whose records it looks for. *)
Definition target {A} (c : crit A) : option string :=
  match c with COn n _ | CScan n _ _ _ => Some n | _ => None end.

(** What is asked of the environment in a section. *)
Definition permitted {A} (c : crit A) M : Prop :=
  match c with
  | COn n m => ∀ q k, queues M !! n = Some q → as_call m = Some k → admissible k q
  | _ => True
  end.

(** Queues are created and never removed. *)
Definition later M M' : Prop := ∀ n, is_Some (queues M !! n) → is_Some (queues M' !! n).
#[export] Instance later_preorder : PreOrder later.
Proof. split; [by intros ??|]. intros M1 M2 M3 H1 H2 n Hn. by apply H2, H1. Qed.

Section Pool.
Context `{JsonLaws} `{RangingLaws} (envs : nat → wenv).
#[local] Instance pool_log : Log wlog := wal_log envs.
#[local] Existing Instance found_has_wal.

Lemma exec_invoke {A} (m : method A) k q w :
  as_call m = Some k →
  exec k q w = ('(q', w', a) ← invoke envs m q w; Some (q', w', respond m a)).
Proof.
  destruct m; intros [= <-]; cbn [exec invoke respond]; change (thread_log envs) with pool_log.
  - by destruct (Enqueue _ _ _ _ _ q w) as [[[]]|].
  - by destruct (tryReceive _ _ _ _ q w) as [[[? ?] [[]]]|].
  - by destruct (Ack _ q w) as [[[]]|].
  - by destruct (Extend _ _ _ q) as [[]|].
  - by destruct (Nack _ _ _ q w) as [[[]]|].
  - by destruct (ReplayDLQ _ q w) as [[[? ?] []]|].
  - by destruct (Tick _ q w) as [[]|].
Qed.

(** ** One section *)

(** What a section may do: at most one call of the manager. *)
Definition section_ok {A} (c : crit A) M : Prop :=
  ∃ M' a tr, perform envs c M = Some (M', a) ∧ sound M' ∧ later M M' ∧ mtrace envs M tr M'.

Lemma look_ok {A} (c : crit A) M a : perform envs c M = Some (M, a) → sound M → section_ok c M.
Proof. intros E Hs. exists M, a, []. split_and!; [done..|constructor]. Qed.

(** A creation adds its queue, or nothing. *)
Lemma Create_grows cfg M M' r :
  Create envs cfg M = (M', r) →
  queues M' = queues M ∨
  queues M !! Config.Name cfg = None ∧ queues M' = <[Config.Name cfg := New cfg]> (queues M).
Proof.
  unfold Create. case_bool_decide; [intros [= <- _]; by left|].
  destruct (containsAny _ _); [intros [= <- _]; by left|].
  destruct (_ && _); [intros [= <- _]; by left|].
  destruct (queues M !! Config.Name cfg) eqn:Hn; [intros [= <- _]; by left|].
  destruct (AppendSync _ _) as [w [e|]]; intros [= <- _]; [by left|by right].
Qed.

Lemma later_insert n q M M' : queues M' = <[n := q]> (queues M) → later M M'.
Proof.
  intros E n' Hn'. rewrite E. destruct (decide (n = n')) as [<-|Hne]; [rewrite lookup_insert_eq; by eexists|].
  by rewrite lookup_insert_ne.
Qed.

Lemma later_same M M' : queues M' = queues M → later M M'.
Proof. intros E n. by rewrite E. Qed.

Lemma on_ok {A} n (m : method A) M q :
  sound M → queues M !! n = Some q → permitted (COn n m) M → section_ok (COn n m) M.
Proof.
  intros Hs Hq Hp. destruct (as_call m) as [k|] eqn:Ek.
  - destruct (exec_ok k q (wal M) (proj1 (Hs n q Hq)) (Hp q k Hq Ek)) as (q' & w' & r & E & Hwf & Hc & _).
    pose proof (call_trace envs n k q q' w' r M Hq E) as Ht.
    rewrite (exec_invoke m k) in E by done. unfold section_ok, perform, on_queue. rewrite Hq. simpl_bind.
    destruct (invoke envs m q (wal M)) as [[[q1 w1] a]|]; [|done]. simpl in E. injection E as <- <- <-.
    eexists _, a, _. split_and!; [done| |by eapply later_insert|done]. by eapply sound_put.
  - destruct m; try done. destruct (Stats_total envs now q (proj1 (Hs n q Hq))) as [s E].
    eapply look_ok; [|done]. cbn [perform]. unfold on_queue. rewrite Hq. simpl_bind. cbn [invoke]. rewrite E. simpl_bind.
    fold (put n q (wal M) M). by rewrite put_same.
Qed.

Lemma create_ok cfg M : sound M → section_ok (CCreate cfg) M.
Proof.
  intros Hs. unfold section_ok. cbn [perform]. destruct (Create envs cfg M) as [M' r] eqn:E.
  exists M', r, [MStep M (MCreate cfg) (MQueue r) M'].
  split; [done|]. apply and_assoc. split; [|apply mtrace_one; simpl; by rewrite E].
  destruct (Create_grows _ _ _ _ E) as [Eq|[Hn Eq]].
  - split; [by eapply sound_queues|by apply later_same].
  - split; [|by eapply later_insert]. intros n q. rewrite Eq. destruct (decide (Config.Name cfg = n)) as [<-|Hne].
    + rewrite lookup_insert_eq. intros [= <-]. split; [apply New_wf|apply New_name].
    + rewrite lookup_insert_ne by done. apply Hs.
Qed.

Lemma scan_ok n from since env M :
  sound M → is_Some (queues M !! n) → section_ok (CScan n from since env) M.
Proof.
  intros Hs [q Hq]. unfold section_ok. cbn [perform].
  set (bm := Bookmark.Mk (WAL.epoch (wl_wal (wal M))) from).
  assert (∃ M' r, perform envs (CScan n from since env) M = Some (M', r) ∧
    Replay_collect n bm since env M = Some (M', r)) as (M' & r & E & Ec).
  { change (@found_has_wal) with (@pair_has_wal (list (string * Z))).
    destruct (scan_replay_any n since from env (wl_wal (wal M))) as (e & found & err & E).
    cbn [perform]. unfold Replay_collect, Get. rewrite Hq. unfold Bookmark, bm. cbn [Bookmark.Epoch Bookmark.Offset].
    change (@found_has_wal) with (@pair_has_wal (list (string * Z))).
    rewrite (bool_decide_false (_ ≠ _)) by auto. rewrite andb_false_r. rewrite E. simpl_bind. by eexists _, _. }
  cbn [perform] in E. rewrite E.
  destruct (Replay_collect_frame n bm since env M) as (M1 & r1 & E1 & Eq & _). rewrite Ec in E1. injection E1 as <- <-.
  exists M', r, [MStep M (MCollect n bm since env) (MDone None) M']. split_and!; [done| | |].
  - by eapply sound_queues.
  - by apply later_same.
  - apply mtrace_one. simpl. by rewrite Ec.
Qed.

Lemma perform_ok {A} (c : crit A) M :
  sound M → permitted c M → (∀ n, target c = Some n → is_Some (queues M !! n)) → section_ok c M.
Proof.
  intros Hs Hp Hn. destruct c as [n A m|n|cfg| | |n from since env|env|].
  - destruct (Hn n eq_refl) as [q Hq]. by apply (on_ok n m M q).
  - by eapply look_ok.
  - by apply create_ok.
  - by eapply look_ok.
  - by eapply look_ok.
  - by apply scan_ok; [|apply Hn].
  - unfold section_ok. cbn [perform].
    assert (∃ M' e, CompactAll env M = Some (M', e) ∧ queues M' = queues M) as (M' & e & E & Eq).
    { rewrite CompactAll_eq by (intros n q Hq; by apply (Hs n q)).
      destruct (Compact _ env _) as [w e]. by eexists _, _. }
    rewrite E. exists M', e, [MStep M (MCompact env) (MDone e) M']. split_and!; [done| | |].
    + by eapply sound_queues.
    + by apply later_same.
    + apply mtrace_one. simpl. by rewrite E.
  - by eapply look_ok.
Qed.

(** What a section does to the queue [n]: a method of it runs, or nothing. *)
Definition ran_on n {A} (c : crit A) M q q' : A → Prop :=
  match c in crit A return A → Prop with
  | COn n' m => λ a, n' = n ∧ ∃ w', invoke envs m q (wal M) = Some (q', w', a)
  | _ => λ _, False
  end.

Lemma perform_queue {A} (c : crit A) M M' a n q :
  perform envs c M = Some (M', a) → queues M !! n = Some q →
  ∃ q', queues M' !! n = Some q' ∧ (q' = q ∨ ran_on n c M q q' a).
Proof.
  intros E Hq. assert (queues M' = queues M → ∃ q', queues M' !! n = Some q' ∧ (q' = q ∨ ran_on n c M q q' a)) as Hsame.
  { intros ->. exists q. split; [done|by left]. }
  destruct c as [n' A m|n'|cfg| | |n' from since env|env|]; cbn [perform] in E;
    try (by injection E as <- _; apply Hsame).
  - unfold on_queue in E. apply bind_Some in E as (q1 & Hq1 & ([[q2 w2] a2] & E & [= <- <-])%bind_Some).
    simpl. destruct (decide (n' = n)) as [<-|Hne].
    + rewrite lookup_insert_eq. simplify_eq. exists q2. split; [done|]. right. split; [done|]. by exists w2.
    + rewrite lookup_insert_ne by done. exists q. split; [done|by left].
  - injection E as E. destruct (Create_grows _ _ _ _ E) as [Eq|[Hn Eq]]; [by apply Hsame|]. rewrite Eq.
    rewrite lookup_insert_ne by congruence. exists q. split; [done|by left].
  - apply bind_Some in E as ([[w f] e] & _ & [= <- _]). by apply Hsame.
  - unfold CompactAll in E. apply bind_Some in E as (live & _ & E). destruct (Compact _ _ _) as [w e].
    injection E as <- _. by apply Hsame.
Qed.

Lemma perform_later {A} (c : crit A) M M' a : perform envs c M = Some (M', a) → later M M'.
Proof. intros E n [q Hq]. destruct (perform_queue c M M' a n q E Hq) as (q' & -> & _). by eexists. Qed.

(** ** The invariant of the pool *)

(** Every queue the goroutine still goes to is there when it does. *)
Fixpoint fit t M : Prop :=
  match t with
  | Done _ => True
  | Do c k =>
      (∀ n, target c = Some n → is_Some (queues M !! n)) ∧
      ∀ M1 M2 a, later M M1 → perform envs c M1 = Some (M2, a) → fit (k a) M2
  | Park _ t => fit t M
  end.

Lemma fit_later t M M' : fit t M → later M M' → fit t M'.
Proof.
  induction t as [x|A c k _|ready t IH]; [done| |by apply IH]. intros [Hn Hk] Hl.
  split; [intros n Hc; by apply Hl, Hn|]. intros M1 M2 a Hl1. apply Hk. by etrans.
Qed.

Lemma fit_look {A} (c : crit A) k M : target c = None → (∀ a M1, fit (k a) M1) → fit (Do c k) M.
Proof. intros Hc Hk. split; [by rewrite Hc|]. intros M1 M2 a _ _. apply Hk. Qed.

Lemma fit_on {A} n (m : method A) k M :
  is_Some (queues M !! n) → (∀ a M1, is_Some (queues M1 !! n) → fit (k a) M1) → fit (Do (COn n m) k) M.
Proof.
  intros Hn Hk. split; [by intros n' [= <-]|]. intros M1 M2 a Hl E. apply Hk.
  apply perform_later in E. by apply E, Hl.
Qed.

Lemma fit_get n k M :
  (∀ e M1, fit (k (Err e)) M1) → (∀ q M1, is_Some (queues M1 !! n) → fit (k (Ok q)) M1) → fit (Do (CGet n) k) M.
Proof.
  intros He Hk. split; [done|]. intros M1 M2 r Hl [= <- <-]. unfold Get.
  destruct (queues M1 !! n) eqn:Hq; [apply Hk; by eexists|apply He].
Qed.

Lemma fit_names k M :
  (∀ names M1, (∀ n, n ∈ names → is_Some (queues M1 !! n)) → fit (k names) M1) → fit (Do CNames k) M.
Proof.
  intros Hk. split; [done|]. intros M1 M2 names Hl [= <- <-]. apply Hk.
  intros n ([n' q] & -> & Hin)%list_elem_of_fmap. rewrite range_perm in Hin. apply elem_of_map_to_list in Hin. by exists q.
Qed.

Lemma fit_body {A} n (dst : A) b f M :
  (∀ q req M1, is_Some (queues M1 !! n) → fit (f q req) M1) → fit (with_body_task n dst b f) M.
Proof. intros Hf. apply fit_get; [done|]. intros q M1 Hn. destruct (decode dst b); [by apply Hf|done]. Qed.

Lemma fit_bounded {A} (v : result A) f M : (∀ x, fit (f x) M) → fit (or_bad_request_task v f) M.
Proof. intros Hf. by destruct v; simpl. Qed.

Lemma stats_fit names now : ∀ out M, (∀ n, n ∈ names → is_Some (queues M !! n)) → fit (stats_task names now out) M.
Proof.
  induction names as [|n names IH]; intros out M Hn; [done|].
  split; [intros ? [= <-]; apply Hn; set_solver|]. intros M1 M2 s Hl E. apply IH. intros n' Hn'.
  apply (perform_later _ _ _ _ E), Hl, Hn. set_solver.
Qed.

Lemma ticks_fit names now : ∀ M, (∀ n, n ∈ names → is_Some (queues M !! n)) → fit (ticks_task names now) M.
Proof.
  induction names as [|n names IH]; intros M Hn; [done|].
  split; [intros ? [= <-]; apply Hn; set_solver|]. intros M1 M2 s Hl E. apply IH. intros n' Hn'.
  apply (perform_later _ _ _ _ E), Hl, Hn. set_solver.
Qed.

Lemma poll_fit n max vis wait deadline k rounds : (∀ r M, fit (k r) M) → ∀ M,
  is_Some (queues M !! n) → fit (poll_task n rounds max vis wait deadline k) M.
Proof.
  intros Hk. induction rounds as [|r rounds IH]; intros M Hn; [done|]. cbn [poll_task].
  apply fit_on; [done|]. intros [[out wake0] [e|]] M1 Hn1; [by apply Hk|].
  destruct (_ || _); [by apply Hk|]. destruct (_ <=? 0); [by apply Hk|]. cbn [fit].
  destruct (rd_end r); [by apply IH..|by apply Hk].
Qed.

Lemma publish_fit n now rnd k found : (∀ j e M, fit (k j e) M) → ∀ i j M,
  is_Some (queues M !! n) → fit (publish_task n found i now rnd j k) M.
Proof.
  intros Hk. induction found as [|[body prio] found IH]; intros i j M Hn; [by apply Hk|]. cbn [publish_task].
  apply fit_on; [done|]. intros [m|e] M1 Hn1; [by apply IH|by apply Hk].
Qed.

Lemma Replay_fit n bm since env now rnd k M : (∀ j e M, fit (k j e) M) → fit (Replay_task n bm since env now rnd k) M.
Proof.
  intros Hk. apply fit_get; [by intros; apply Hk|]. intros q M1 Hn. split; [done|].
  intros M2 M3 cur Hl E. apply perform_later in E. cbv zeta. destruct (_ && _); [by apply Hk|].
  split; [intros ? [= <-]; by apply E, Hl|]. intros M4 M5 [found|e] Hl' E'; [|by apply Hk].
  apply publish_fit; [done|]. apply (perform_later _ _ _ _ E'), Hl', E, Hl, Hn.
Qed.

Lemma serve_fit r M : fit (serve_task r) M.
Proof.
  destruct r; cbn [serve_task].
  - unfold createQueue_task. destruct (decode _ b); [|done]. destruct (_ || _); [done|].
    apply fit_look; [done|]. by intros [] ?.
  - apply fit_names. intros names M1 Hn. by apply stats_fit.
  - apply fit_get; [done|]. intros q M1 Hn. by apply fit_on.
  - apply fit_body. intros q req M1 Hn. case_bool_decide; [done|]. apply fit_bounded. intros d.
    apply fit_on; [done|]. by intros [] ?.
  - apply fit_body. intros q req M1 Hn. destruct (_ || _); [done|]. do 2 (apply fit_bounded; intros ?).
    apply poll_fit; [|done]. intros [out|e|] M2; [done| |done]. by destruct gone.
  - apply fit_body. intros q req M1 Hn. apply fit_on; [done|]. by intros [] ?.
  - apply fit_body. intros q req M1 Hn. apply fit_bounded. intros d. apply fit_on; [done|]. by intros [] ?.
  - apply fit_body. intros q req M1 Hn. apply fit_bounded. intros d. apply fit_on; [done|]. by intros [] ?.
  - apply fit_body. intros q req M1 Hn. destruct (_ || _); [apply fit_on; [done|]; by intros [? []] ?|].
    case_bool_decide; [|done]. destruct (_ <? 0); [done|]. apply Replay_fit. by intros ? [].
  - apply fit_look; [done|]. intros ? ?. apply fit_look; [done|]. intros [] ?; [done|]. by apply fit_look.
  - by apply fit_look.
  - apply fit_look; [done|]. by intros [] ?.
Qed.

Lemma pump_fit now M : fit (pump_task now) M.
Proof. apply fit_names. intros names M1 Hn. by apply ticks_fit. Qed.

(** ** Schedules *)

(** [P] of every move, at the pool it is made in. *)
Fixpoint along (P : move → pool → Prop) (mvs : list move) p : Prop :=
  match mvs with
  | [] => True
  | mv :: mvs => P mv p ∧ ∀ p', move_pool envs mv p = Some p' → along P mvs p'
  end.

(** The environment of a turn. *)
Definition turn_ok (mv : move) p : Prop :=
  match mv with
  | Go i => match goroutines p !! i with Some (Do c _) => permitted c (shared p) | _ => True end
  | _ => True
  end.

(** Deciding it, for concrete schedules. *)
Definition permittedb {A} (c : crit A) M : bool :=
  match c with
  | COn n m =>
      match queues M !! n, as_call m with Some q, Some k => admissibleb k q | _, _ => true end
  | _ => true
  end.

Definition turn_okb (mv : move) p : bool :=
  match mv with
  | Go i => match goroutines p !! i with Some (Do c _) => permittedb c (shared p) | _ => true end
  | _ => true
  end.

Fixpoint alongb (P : move → pool → bool) (mvs : list move) p : bool :=
  match mvs with
  | [] => true
  | mv :: mvs => P mv p && match move_pool envs mv p with Some p' => alongb P mvs p' | None => true end
  end.

Lemma alongb_ok (P : move → pool → Prop) Pb mvs :
  (∀ mv p, Pb mv p = true → P mv p) → ∀ p, alongb Pb mvs p = true → along P mvs p.
Proof.
  intros HP. induction mvs as [|mv mvs IH]; intros p; [done|]. cbn [alongb along]. intros [H1' H2']%andb_true_iff.
  split; [by apply HP|]. intros p' E. rewrite E in H2'. by apply IH.
Qed.

Lemma turn_okb_ok mv p : turn_okb mv p = true → turn_ok mv p.
Proof.
  destruct mv as [| | |i]; [done..|]. simpl. destruct (goroutines p !! i) as [[x|A c k|]|]; [done| |done..].
  destruct c as [n A m| | | | | | |]; try done. simpl. intros Hb q k' Hq Hk. rewrite Hq, Hk in Hb.
  by apply admissibleb_ok.
Qed.

Record pool_ok p : Prop := {
  po_sound : sound (shared p);
  po_fit i t : goroutines p !! i = Some t → fit t (shared p);
}.

Lemma pool_ok_snoc p t : pool_ok p → fit t (shared p) → pool_ok (Pool (shared p) (goroutines p ++ [t])).
Proof.
  intros [Hs Hf] Ht. split; [done|]. intros i t'. simpl.
  intros [Hi|(_ & [_ <-]%list_lookup_singleton_Some)]%lookup_app_Some; [by eapply Hf|done].
Qed.

(** A goroutine's turn, by what it has before it. *)
Lemma go_inv i p p' :
  move_pool envs (Go i) p = Some p' →
  (∃ A (c : crit A) k M a, goroutines p !! i = Some (Do c k) ∧ perform envs c (shared p) = Some (M, a) ∧
     p' = Pool M (<[i := k a]> (goroutines p))) ∨
  (∃ ready t, goroutines p !! i = Some (Park ready t) ∧ ready (shared p) = true ∧
     p' = Pool (shared p) (<[i := t]> (goroutines p))).
Proof.
  simpl. intros (t & Hi & E)%bind_Some. destruct t as [x|A c k|ready t]; simpl in E; [done| |].
  - destruct (perform envs c (shared p)) as [[M a]|] eqn:Ep; [|done]. injection E as <-. left.
    by exists A, c, k, M, a.
  - destruct (ready (shared p)) eqn:Hr; [|done]. injection E as <-. right. by exists ready, t.
Qed.

Lemma fit_insert p i t M :
  pool_ok p → later (shared p) M → fit t M →
  ∀ j t', <[i := t]> (goroutines p) !! j = Some t' → fit t' M.
Proof.
  intros Hp Hl Ht j t' Hj. apply list_lookup_insert_Some in Hj as [(_ & -> & _)|[_ Hj]]; [done|].
  eapply fit_later; [|done]. by eapply po_fit.
Qed.

(** Every move keeps the invariant and is a run of the manager. *)
Lemma move_ok mv p p' :
  pool_ok p → turn_ok mv p → move_pool envs mv p = Some p' →
  pool_ok p' ∧ later (shared p) (shared p') ∧ ∃ tr, mtrace envs (shared p) tr (shared p').
Proof.
  intros Hp Ht. assert (∃ tr, mtrace envs (shared p) tr (shared p)) as Hnil by (exists []; constructor).
  destruct mv as [r|now|sync|i].
  - intros [= <-]. split_and!; [|by intros ?|done]. by apply pool_ok_snoc, serve_fit.
  - intros [= <-]. split_and!; [|by intros ?|done]. by apply pool_ok_snoc, pump_fit.
  - intros [= <-]. split_and!; [|by intros ?|].
    + destruct Hp as [Hs Hf]. split; [exact Hs|]. intros i t Hi. simpl in *. eapply fit_later; [by eapply Hf|by intros ?].
    + eexists. by apply (mtrace_one envs _ (MFlush sync) (MDone None)).
  - intros E. destruct (go_inv _ _ _ E) as [(A & c & k & M & a & Hi & Ep & ->)|(ready & t & Hi & _ & ->)]; simpl in *.
    + rewrite Hi in Ht. destruct (po_fit _ Hp i _ Hi) as [Hn Hk].
      destruct (perform_ok c (shared p) (po_sound _ Hp) Ht Hn) as (M1 & a1 & tr & E1 & Hs & Hl & Htr).
      rewrite Ep in E1. injection E1 as <- <-. split_and!; [|done|by exists tr].
      split; [done|]. apply fit_insert; [done..|]. by apply (Hk (shared p)).
    + split_and!; [|by intros ?|done]. split; [apply Hp|]. apply fit_insert; [done..|]. by apply (po_fit _ Hp i _ Hi).
Qed.

Lemma schedule_ok mvs : ∀ p p',
  pool_ok p → along turn_ok mvs p → schedule envs mvs p = Some p' →
  pool_ok p' ∧ later (shared p) (shared p') ∧ ∃ tr, mtrace envs (shared p) tr (shared p').
Proof.
  induction mvs as [|mv mvs IH]; intros p p' Hp Hok.
  { intros [= <-]. split; [done|]. split; [by intros ?|]. exists []. constructor. }
  destruct Hok as [Ht Hok]. cbn [schedule]. intros (p1 & E1 & E)%bind_Some.
  destruct (move_ok mv p p1 Hp Ht E1) as (Hp1 & Hl1 & tr1 & Htr1).
  destruct (IH p1 p' Hp1 (Hok p1 E1) E) as (Hp' & Hl & tr & Htr).
  split_and!; [done|by etrans|]. eexists. by eapply mtrace_app.
Qed.

(** Nobody panics: a turn moves, or finds the goroutine finished or waiting. *)
Lemma turn_total i p t :
  pool_ok p → turn_ok (Go i) p → goroutines p !! i = Some t → take_turn envs t (shared p) ≠ Panicked.
Proof.
  intros Hp Ht Hi. simpl in Ht. rewrite Hi in Ht. pose proof (po_fit _ Hp i t Hi) as Hf.
  destruct t as [x|A c k|ready t]; simpl; [done| |by destruct (ready _)].
  destruct Hf as [Hn _]. by destruct (perform_ok c (shared p) (po_sound _ Hp) Ht Hn) as (M & a & _ & -> & _).
Qed.

Lemma schedule_app mvs mvs' : ∀ p,
  schedule envs (mvs ++ mvs') p = (p ← schedule envs mvs p; schedule envs mvs' p).
Proof.
  induction mvs as [|mv mvs IH]; intros p; [done|]. cbn [schedule app].
  destruct (move_pool envs mv p); [|done]. apply IH.
Qed.

(** A section that goes through, in a schedule. *)
Lemma schedule_do {A} i (c : crit A) k p M a mvs :
  goroutines p !! i = Some (Do c k) → perform envs c (shared p) = Some (M, a) →
  schedule envs (Go i :: mvs) p = schedule envs mvs (Pool M (<[i := k a]> (goroutines p))).
Proof. intros Hi E. cbn [schedule move_pool]. rewrite Hi. simpl_bind. cbn [take_turn]. by rewrite E. Qed.

(** ** A goroutine's own turns *)

(** The manager before and after each turn of the goroutine [i]. *)
Fixpoint turns (i : nat) (mvs : list move) p : list (Manager * Manager) :=
  match mvs with
  | [] => []
  | mv :: mvs =>
      match move_pool envs mv p with
      | Some p' =>
          match mv with
          | Go j => if decide (i = j) then [(shared p, shared p')] else []
          | _ => []
          end ++ turns i mvs p'
      | None => []
      end
  end.

(** Moves of others leave the goroutine as it is. *)
Lemma move_other mv i p p' t :
  mv ≠ Go i → move_pool envs mv p = Some p' → goroutines p !! i = Some t → goroutines p' !! i = Some t.
Proof.
  intros Hne E Hi. destruct mv as [r|now|sync|j].
  - injection E as <-. by apply lookup_app_l_Some.
  - injection E as <-. by apply lookup_app_l_Some.
  - by injection E as <-.
  - assert (j ≠ i) as Hj by (by intros ->).
    destruct (go_inv _ _ _ E) as [(A & c & k & M & a & _ & _ & ->)|(ready & u & _ & _ & ->)]; simpl;
      by rewrite list_lookup_insert_ne.
Qed.

Lemma finished_turns i mvs : ∀ p p' x,
  goroutines p !! i = Some (Done x) → schedule envs mvs p = Some p' →
  turns i mvs p = [] ∧ goroutines p' !! i = Some (Done x).
Proof.
  induction mvs as [|mv mvs IH]; intros p p' x Hi; [by intros [= <-]|]. cbn [schedule turns].
  intros (p1 & E1 & E)%bind_Some. rewrite E1. assert (mv ≠ Go i) as Hne.
  { intros ->. simpl in E1. by rewrite Hi in E1. }
  destruct (IH p1 p' x (move_other _ _ _ _ _ Hne E1 Hi) E) as [-> Hi']. split; [|done].
  destruct mv as [| | |j]; [done..|]. by rewrite decide_False by congruence.
Qed.
End Pool.
