(* ===== verification/Linear.v ===== *)
(** * Requests that take effect at once

    Most handlers change the manager in one critical section, after at most a
    look at it.  Whatever other goroutines do in between, such a request has the
    effect and the answer [serve] gives it at the moment of that section. *)

From Stdlib Require Import Strings.Byte.
From S2P Require Import Prelude ContainerHeap Msg Heaps LogStore Queue QueueInv QueueSpec QueueOps QueueReceive Calls Effects History Receive Encoding Wal WalOps Manager ManagerOps ReplayOps ManagerRun Api ApiOps Server ServerOps Threads ThreadOps ThreadRun.

Implicit Types (q : Queue) (M : Manager) (n : string) (t : handler) (p : pool).

(** The requests whose handler has one section that changes anything.  A list of
    all queues takes one look at each, a poll and a historical replay come back
    for more, and a compaction reports two positions of the log. *)
Definition atomic (r : request) : bool :=
  match r with
  | GetQueues _ | PostReceive _ _ _ _ _ | PostCompact _ => false
  | PostReplay _ b _ _ _ _ =>
      match decode (ReplayReq "" 0 0 0) b with
      | Ok req => negb (bool_decide (rep_Source req = "log"))
      | Err _ => true
      end
  | _ => true
  end.

(** At most one section. *)
Definition one_shot t : Prop :=
  match t with Done _ => True | Do _ k => ∀ a, ∃ x, k a = Done x | Park _ _ => False end.

(** A lookup first: when it succeeds, it is not used but for that. *)
Definition after_get t : Prop :=
  ∃ n k, t = Do (CGet n) k ∧ (∀ e, ∃ x, k (Err e) = Done x) ∧ (∀ q, one_shot (k (Ok q))) ∧
    ∀ q q', k (Ok q) = k (Ok q').

Lemma after_get_body {A} n (dst : A) b f :
  (∀ q req, decode dst b = Ok req → one_shot (f q req)) → (∀ q q' req, f q req = f q' req) →
  after_get (with_body_task n dst b f).
Proof.
  intros Hf Hq. eexists n, _. split; [done|]. split_and!.
  - intros e. by eexists.
  - intros q. destruct (decode dst b) eqn:Hd; [by apply Hf|done].
  - intros q q'. by destruct (decode dst b).
Qed.

Lemma one_shot_bounded {A} (v : result A) f : (∀ x, one_shot (f x)) → one_shot (or_bad_request_task v f).
Proof. intros Hf. by destruct v; simpl. Qed.

Lemma atomic_task r : atomic r = true → one_shot (serve_task r) ∨ after_get (serve_task r).
Proof.
  destruct r; intros Ha; try discriminate Ha; cbn [serve_task].
  - left. unfold createQueue_task. destruct (decode _ b); [|done]. destruct (_ || _); [done|].
    intros []; by eexists.
  - right. eexists name, _. split; [done|]. split_and!; [intros e; by eexists|intros q s; by eexists|done].
  - right. apply after_get_body; [|done]. intros q req _. case_bool_decide; [done|].
    apply one_shot_bounded. intros d []; by eexists.
  - right. apply after_get_body; [|done]. intros q req _ []; by eexists.
  - right. apply after_get_body; [|done]. intros q req _. apply one_shot_bounded. intros d []; by eexists.
  - right. apply after_get_body; [|done]. intros q req _. apply one_shot_bounded. intros d []; by eexists.
  - right. simpl in Ha. apply after_get_body; [|done]. intros q req Hd. rewrite Hd in Ha.
    destruct (_ || _); [intros [? []]; by eexists|]. rewrite bool_decide_false; [done|].
    apply negb_true_iff, bool_decide_eq_false in Ha. done.
  - left. intros bm. by eexists.
  - left. intros []; by eexists.
Qed.

Lemma atomic_solitary r : atomic r = true → solitary r.
Proof. by destruct r. Qed.

Section Linear.
Context `{JsonLaws} `{RangingLaws} (envs : nat → wenv).
#[local] Instance linear_log : Log wlog := wal_log envs.
#[local] Existing Instance found_has_wal.

(** From [M] on, what is left of the request is all of it. *)
Definition stands_for r t M : Prop := ∀ M1, later M M1 → alone envs t M1 = serve envs r M1.

Definition look (v : Manager * Manager) : Prop := v.1 = v.2.

(** How far a request has got: the turns of its goroutine and what it is now. *)
Definition progress r (vs : list (Manager * Manager)) t : Prop :=
  match t with
  | Done rep => ∃ looks M1 M2, vs = looks ++ [(M1, M2)] ∧ Forall look looks ∧ serve envs r M1 = Some (M2, rep)
  | _ => Forall look vs
  end.

Lemma move_later mv p p' : move_pool envs mv p = Some p' → later (shared p) (shared p').
Proof.
  destruct mv as [r|now|sync|i]; [intros [= <-]; by intros ?..|]. intros E.
  destruct (go_inv envs _ _ _ E) as [(A & c & k & M & a & _ & Ep & ->)|(ready & t & _ & _ & ->)]; [|by intros ?].
  by apply (perform_later envs c _ _ a).
Qed.

(** A goroutine that may still have a turn: its turns begin with somebody
    else's move, or with its own. *)
Lemma turns_other mv mvs i p p1 :
  mv ≠ Go i → move_pool envs mv p = Some p1 → turns envs i (mv :: mvs) p = turns envs i mvs p1.
Proof. intros Hne E. cbn [turns]. rewrite E. destruct mv; [done..|]. by rewrite decide_False by congruence. Qed.

Lemma turns_own mvs i p p1 :
  move_pool envs (Go i) p = Some p1 →
  turns envs i (Go i :: mvs) p = (shared p, shared p1) :: turns envs i mvs p1.
Proof. intros E. cbn [turns]. rewrite E. by rewrite decide_True. Qed.

#[local] Instance own_dec mv i : Decision (mv = Go i).
Proof.
  destruct mv as [| | |j]; [by right..|]. destruct (decide (i = j)) as [->|]; [by left|right; congruence].
Defined.

(** The turn of a section. *)
Lemma go_do {A} i (c : crit A) k p p1 :
  goroutines p !! i = Some (Do c k) → move_pool envs (Go i) p = Some p1 →
  ∃ a, perform envs c (shared p) = Some (shared p1, a) ∧ goroutines p1 !! i = Some (k a).
Proof.
  intros Hi. cbn [move_pool]. rewrite Hi. simpl_bind. cbn [take_turn].
  destruct (perform envs c (shared p)) as [[M a]|]; [|done]. intros [= <-]. exists a. split; [done|]. simpl.
  apply list_lookup_insert_eq. by apply lookup_lt_Some in Hi.
Qed.

(** The section of a request that has no other. *)
Lemma one_shot_progress r i mvs : ∀ p p' A (c : crit A) k,
  goroutines p !! i = Some (Do c k) → one_shot (Do c k) → stands_for r (Do c k) (shared p) →
  schedule envs mvs p = Some p' → ∃ t, goroutines p' !! i = Some t ∧ progress r (turns envs i mvs p) t.
Proof.
  induction mvs as [|mv mvs IH]; intros p p' A c k Hi Ho Hst; cbn [schedule].
  { intros [= <-]. exists (Do c k). split; [done|constructor]. }
  intros (p1 & E1 & E)%bind_Some. destruct (decide (mv = Go i)) as [->|Hne].
  - rewrite (turns_own _ _ _ _ E1). destruct (go_do i c k p p1 Hi E1) as (a & Ep & Hi1).
    destruct (Ho a) as [x Hx]. rewrite Hx in Hi1. destruct (finished_turns envs i mvs p1 p' x Hi1 E) as [-> Hi'].
    exists (Done x). split; [done|]. exists [], (shared p), (shared p1). split; [done|]. split; [constructor|].
    rewrite <- (Hst (shared p)) by by intros ?. cbn [alone]. rewrite Ep. simpl_bind. by rewrite Hx.
  - rewrite (turns_other _ _ _ _ _ Hne E1). apply (IH p1 p' A c k); [by eapply move_other|done| |done].
    intros M1 Hl. apply Hst. etrans; [by apply (move_later mv)|done].
Qed.

Lemma progress_look r vs t M : progress r vs t → progress r ((M, M) :: vs) t.
Proof.
  destruct t; simpl; [|by constructor..].
  intros (looks & M1 & M2 & -> & Hl & E). exists ((M, M) :: looks), M1, M2. split_and!; [done|by constructor|done].
Qed.

(** After a lookup that succeeded, the rest is the whole request. *)
Lemma stands_after_get r n k M q :
  atomic r = true → serve_task r = Do (CGet n) k → (∀ q q', k (Ok q) = k (Ok q')) →
  queues M !! n = Some q → stands_for r (k (Ok q)) M.
Proof.
  intros Ha Et Hk Hq M1 Hl. rewrite <- (serve_alone envs r M1) by by apply atomic_solitary.
  rewrite Et. cbn [alone perform]. simpl_bind. unfold Get. destruct (Hl n) as [q1 ->]; [by exists q|].
  by rewrite (Hk q q1).
Qed.

Lemma after_get_progress r i mvs : atomic r = true → after_get (serve_task r) → ∀ p p',
  goroutines p !! i = Some (serve_task r) → schedule envs mvs p = Some p' →
  ∃ t, goroutines p' !! i = Some t ∧ progress r (turns envs i mvs p) t.
Proof.
  intros Ha (n & k & Et & He & Ho & Hk). induction mvs as [|mv mvs IH]; intros p p' Hi; cbn [schedule].
  { intros [= <-]. exists (serve_task r). split; [done|]. rewrite Et. constructor. }
  intros (p1 & E1 & E)%bind_Some. destruct (decide (mv = Go i)) as [->|Hne].
  2:{ rewrite (turns_other _ _ _ _ _ Hne E1). apply IH; [by eapply move_other|done]. }
  rewrite (turns_own _ _ _ _ E1). rewrite Et in Hi. destruct (go_do i (CGet n) k p p1 Hi E1) as (a & [= Es <-] & Hi1).
  assert (serve envs r (shared p) = alone envs (k (Get n (shared p))) (shared p)) as Hr.
  { rewrite <- serve_alone by by apply atomic_solitary. by rewrite Et. }
  unfold Get in *. destruct (queues (shared p) !! n) as [q|] eqn:Hq.
  - pose proof (stands_after_get r n k _ q Ha Et Hk Hq) as Hst. pose proof (Ho q) as Hone.
    destruct (k (Ok q)) as [x|A c k'|ready t] eqn:Ek; [| |done].
    + destruct (finished_turns envs i mvs p1 p' x Hi1 E) as [-> Hi']. exists (Done x). split; [done|].
      exists [], (shared p), (shared p1). split_and!; [done|constructor|]. by rewrite Hr, <- Es.
    + rewrite Es in Hst. destruct (one_shot_progress r i mvs p1 p' A c k' Hi1 Hone Hst E) as (t & Hi' & Hp).
      exists t. split; [done|]. rewrite <- Es. by apply progress_look.
  - destruct (He ErrQueueNotFound) as [x Hx]. rewrite Hx in *.
    destruct (finished_turns envs i mvs p1 p' x Hi1 E) as [-> Hi']. exists (Done x). split; [done|].
    exists [], (shared p), (shared p1). split_and!; [done|constructor|]. by rewrite Hr, <- Es.
Qed.

(** A request whose handler looks at nothing. *)
Lemma done_serve r x M : atomic r = true → serve_task r = Done x → serve envs r M = Some (M, x).
Proof. intros Ha E. rewrite <- serve_alone by by apply atomic_solitary. by rewrite E. Qed.

Lemma request_progress r i mvs p p' :
  atomic r = true → goroutines p !! i = Some (serve_task r) → schedule envs mvs p = Some p' →
  ∃ t, goroutines p' !! i = Some t ∧
    (progress r (turns envs i mvs p) t ∨
     turns envs i mvs p = [] ∧ ∃ x, t = Done x ∧ ∀ M, serve envs r M = Some (M, x)).
Proof.
  intros Ha Hi E. destruct (atomic_task r Ha) as [Ho|Hg].
  - destruct (serve_task r) as [x|A c k|ready t] eqn:Et; [| |done].
    + destruct (finished_turns envs i mvs p p' x Hi E) as [Hn Hi']. exists (Done x). split; [done|]. right.
      split; [done|]. exists x. split; [done|]. intros M. by apply done_serve.
    + destruct (one_shot_progress r i mvs p p' A c k Hi Ho) as (u & ? & ?); [|done|by exists u; eauto].
      intros M1 _. rewrite <- Et. by apply serve_alone, atomic_solitary.
  - destruct (after_get_progress r i mvs Ha Hg p p' Hi E) as (t & ? & ?). by exists t; eauto.
Qed.
End Linear.
