(* ===== verification/Wakeup.v ===== *)
(** * A parked poll among other goroutines

    What the moves of others do to one queue is a run of that queue, with a log
    they all write to; so the channel a poll waits on is closed when a message
    becomes ready, and its goroutine can go on. *)

From Stdlib Require Import Strings.Byte.
From S2P Require Import Prelude ContainerHeap Msg Heaps LogStore Queue QueueInv QueueSpec QueueOps QueueReceive Calls Effects History Receive Encoding Wal WalOps Manager ManagerOps ReplayOps ManagerRun Api ApiOps Server ServerOps Threads ThreadOps ThreadRun Linear.

Implicit Types (q : Queue) (M : Manager) (n : string) (t : handler) (p : pool).

Section Wakeup.
Context `{JsonLaws} `{RangingLaws} (envs : nat → wenv).
#[local] Instance wakeup_log : Log wlog := wal_log envs.

(** The section is not a [Nack] of the queue [n] that loses its message. *)
Definition nack_written n {A} (c : crit A) q : A → Prop :=
  match c in crit A return A → Prop with
  | COn n' m => λ a, n' = n → ∀ k, as_call m = Some k → Effects.failed_nack q k (respond m a) = false
  | _ => λ _, True
  end.

Definition nacks_written n (mv : move) p : Prop :=
  match mv with
  | Go i =>
      match goroutines p !! i with
      | Some (Do c _) =>
          ∀ q M a, queues (shared p) !! n = Some q → perform envs c (shared p) = Some (M, a) → nack_written n c q a
      | _ => True
      end
  | _ => True
  end.

(** No [Nack] at all, for concrete schedules. *)
Definition no_nack (mv : move) p : bool :=
  match mv with
  | Go i => match goroutines p !! i with Some (Do (COn _ (MNack _ _ _)) _) => false | _ => true end
  | _ => true
  end.

Lemma no_nack_ok n mv p : no_nack mv p = true → nacks_written n mv p.
Proof.
  destruct mv as [| | |i]; [done..|]. simpl. destruct (goroutines p !! i) as [[x|A c k|]|]; [done| |done..].
  destruct c as [n' A m| | | | | | |]; try done. intros Hm q M a _ _ _ k' Ek. destruct m; try done; by injection Ek as <-.
Qed.

Abbreviation quietly := (drift (λ q k r (_ : Queue), negb (Effects.failed_nack q k r))).

Lemma drift_trans ok q0 q1 q2 : drift ok q0 q1 → drift ok q1 q2 → drift ok q0 q2.
Proof. intros H01. induction 1; [done|by eapply drift_step]. Qed.

Lemma ran_drift n {A} (c : crit A) M q q' a :
  permitted c M → queues M !! n = Some q → ran_on envs n c M q q' a → nack_written n c q a → quietly q q'.
Proof.
  intros Hp Hq Hr Hn. destruct c as [n' A m| | | | | | |]; try done. destruct Hr as [-> [w' E]].
  destruct (as_call m) as [k|] eqn:Ek.
  - pose proof (exec_invoke envs m k q (wal M) Ek) as Ex. rewrite E in Ex. simpl in Ex.
    apply (drift_step _ _ k q (wal M) q' w' (respond m a)); [apply drift_refl|by apply Hp|done|].
    by rewrite (Hn eq_refl k Ek).
  - destruct m; try done. simpl in E. apply bind_Some in E as (s & _ & [= <- _ _]). apply drift_refl.
Qed.

Lemma move_drift n mv p p' q :
  turn_ok mv p → nacks_written n mv p → move_pool envs mv p = Some p' → queues (shared p) !! n = Some q →
  ∃ q', queues (shared p') !! n = Some q' ∧ quietly q q'.
Proof.
  intros Ht Hn E Hq. assert (∃ q', queues (shared p) !! n = Some q' ∧ quietly q q') as Hsame.
  { exists q. split; [done|apply drift_refl]. }
  destruct mv as [r|now|sync|i]; [by injection E as <-..|].
  destruct (go_inv _ _ _ _ E) as [(A & c & k & M & a & Hi & Ep & ->)|(ready & t & _ & _ & ->)]; [|done].
  simpl in Ht, Hn |- *. rewrite Hi in Ht, Hn. destruct (perform_queue envs c _ _ _ _ _ Ep Hq) as (q' & Hq' & Hr).
  exists q'. split; [done|]. destruct Hr as [->|Hr]; [apply drift_refl|].
  eapply ran_drift; [exact Ht|exact Hq|exact Hr|]. by apply (Hn q M a).
Qed.

Lemma schedule_drift n mvs : ∀ p p' q,
  along envs turn_ok mvs p → along envs (nacks_written n) mvs p → schedule envs mvs p = Some p' →
  queues (shared p) !! n = Some q → ∃ q', queues (shared p') !! n = Some q' ∧ quietly q q'.
Proof.
  induction mvs as [|mv mvs IH]; intros p p' q.
  { intros _ _ [= <-] Hq. exists q. split; [done|apply drift_refl]. }
  intros [Ht Hts] [Hn Hns] (p1 & E1 & E)%bind_Some Hq.
  destruct (move_drift n mv p p1 q Ht Hn E1 Hq) as (q1 & Hq1 & Hd1).
  destruct (IH p1 p' q1 (Hts p1 E1) (Hns p1 E1) E Hq1) as (q' & ? & ?).
  exists q'. split; [done|]. by eapply drift_trans.
Qed.

Lemma schedule_other mvs i : ∀ p p' t,
  Forall (λ mv, mv ≠ Go i) mvs → schedule envs mvs p = Some p' → goroutines p !! i = Some t →
  goroutines p' !! i = Some t.
Proof.
  induction mvs as [|mv mvs IH]; intros p p' t; [by intros _ [= <-]|]. intros [Hne Hall]%Forall_cons.
  cbn [schedule]. intros (p1 & E1 & E)%bind_Some Hi. apply (IH p1); [done..|]. by eapply move_other.
Qed.

(** How an attempt comes to park. *)
Lemma attempt_parks n r rounds max vis wait deadline k i p p1 ready t :
  (∀ x, ∃ rep, k x = Done rep) →
  goroutines p !! i = Some (poll_task n (r :: rounds) max vis wait deadline k) →
  move_pool envs (Go i) p = Some p1 → goroutines p1 !! i = Some (Park ready t) →
  ∃ q1 q2 w2 wake0 remaining, queues (shared p) !! n = Some q1 ∧
    tryReceive max vis (rd_now r) (rd_rnd r) q1 (wal (shared p)) = Some (q2, w2, ([], wake0, None)) ∧
    queues (shared p1) !! n = Some q2 ∧ ready = resumes n r wake0 remaining ∧
    t = match rd_end r with
        | Cancelled cause => k (Failed cause)
        | _ => poll_task n rounds max vis wait deadline k
        end.
Proof.
  intros Hk Hi E Hi1. cbn [poll_task] in Hi. destruct (go_do envs i _ _ p p1 Hi E) as ([[out wake0] err] & Ep & Hg).
  rewrite Hi1 in Hg. injection Hg as Hg. assert (∀ x, Park ready t ≠ k x) as Hno.
  { intros x. by destruct (Hk x) as [rep ->]. }
  destruct err as [e|]; [by apply Hno in Hg|]. destruct (_ || _) eqn:Ho; [by apply Hno in Hg|].
  apply orb_false_iff in Ho as [Ho%negb_false_iff%bool_decide_eq_true _]. subst out.
  set (remaining := Sub deadline (rd_clock r)) in *. destruct (remaining <=? 0); [by apply Hno in Hg|].
  injection Hg as -> ->. cbn [perform] in Ep. unfold on_queue in Ep.
  apply bind_Some in Ep as (q1 & Hq1 & ([[q2 w2] v] & Et & [= <- ->])%bind_Some).
  exists q1, q2, w2, wake0, remaining. split_and!; [done..| |done|done]. apply lookup_insert_eq.
Qed.
End Wakeup.
