(* ===== verification/ThreadProps.v ===== *)
(** * Properties of the goroutines

    What the locks of the program buy: most requests take effect at one instant,
    every interleaving is a run of the manager, and a poll that waits can go on
    when there is something for it.  And what they do not buy: between the epoch
    check of a replay and its scan, a compaction can change what the bookmark
    means. *)

From Stdlib Require Import Strings.Byte.
From S2P Require Import Prelude ContainerHeap Msg Heaps LogStore Queue QueueInv QueueSpec QueueOps QueueReceive Calls Effects History Receive Bytes Encoding Wal WalOps WireCodec Manager Recovery ManagerOps CompactOps ReplayOps Compacted ManagerRun Api ApiOps Server ServerOps Threads ThreadOps ThreadRun Linear Wakeup.
Import (hints) WireCodec.

Implicit Types (q : Queue) (M : Manager) (n : string) (t : handler) (p : pool).

#[local] Instance as_listed : Ranging := { range A x := map_to_list x }.
#[local] Instance as_listed_laws : RangingLaws.
Proof. by split. Qed.

(** ** A concrete pool *)

Definition good_disk : nat → wenv := λ _, WEnv unixEpoch None None.
Definition two_of (i : nat) : list byte := [x2c; default x00 (Byte.of_nat i)].
Definition M_void : Manager := MkManager ∅ (WLog (OpenWAL [] 0) 0) (50 * Millisecond) false.
Definition built (calls : list (Time * mcall)) : Manager := (default (0, M_void) (mrun good_disk calls 0 M_void)).2.

Lemma M_void_reach : mreach good_disk 0 M_void.
Proof. apply (mr_open good_disk 0 0 0 (λ _, 0)). vm_compute. reflexivity. Qed.

Lemma built_sound calls : sound (built calls).
Proof.
  intros n q Hq. assert (∃ T, mreach good_disk T (built calls)) as [T Hr].
  { unfold built. destruct (mrun good_disk calls 0 M_void) as [[T M]|] eqn:E; [|exists 0; apply M_void_reach].
    exists T. exact (mrun_reach good_disk calls 0 M_void T M M_void_reach E). }
  pose proof (hy_queue _ _ _ (mreach_healthy _ _ _ Hr) n q Hq) as Hqo. split; apply Hqo.
Qed.

(** A queue with the message "a" in it, leased to somebody. *)
Definition leased_a : list (Time * mcall) :=
  [(10, MCreate (Config.Mk "q" FIFO false 3 0));
   (10, MCall "q" (CEnqueue "a" 0 0 10 (two_of 1)));
   (20, MCall "q" (CTryReceive 1 (120 * Second) 20 two_of))].

Definition an_enqueue (text : string) (i : nat) : request :=
  PostMessages "q" (Decoded (EnqueueReq text 0 0)) 20 (two_of i).

(** ** At once *)

(** C13: every request but a list of all queues, a poll, a replay of the log
    and a compaction takes effect at one instant.  However its turns fall
    between those of other goroutines, all but the last change nothing, and the
    last leaves the manager and gives the answer that [serve] has for the
    manager it finds; as long as it has not answered, the request has changed
    nothing. *)
Theorem requests_take_effect_at_once `{JsonLaws} `{RangingLaws} (envs : nat → wenv) (r : request) mvs p p' :
  let i := length (goroutines p) in
  atomic r = true → schedule envs (Arrive r :: mvs) p = Some p' →
  ∃ t, goroutines p' !! i = Some t ∧
    match t with
    | Done rep =>
        (∃ looks M1 M2, turns envs i (Arrive r :: mvs) p = looks ++ [(M1, M2)] ∧
           Forall (λ v, v.1 = v.2) looks ∧ serve envs r M1 = Some (M2, rep)) ∨
        (turns envs i (Arrive r :: mvs) p = [] ∧ ∀ M, serve envs r M = Some (M, rep))
    | _ => Forall (λ v, v.1 = v.2) (turns envs i (Arrive r :: mvs) p)
    end.
Proof.
  intros i Ha E. set (p1 := Pool (shared p) (goroutines p ++ [serve_task r])).
  change (schedule envs mvs p1 = Some p') in E. change (turns envs i (Arrive r :: mvs) p) with (turns envs i mvs p1).
  assert (goroutines p1 !! i = Some (serve_task r)) as Hi by by apply list_lookup_middle.
  destruct (request_progress envs r i mvs p1 p' Ha Hi E) as (t & Ht & Hp). exists t. split; [done|].
  destruct Hp as [Hp|(-> & x & -> & Hx)]; [|right; by split]. by destruct t; [left|..].
Qed.

Lemma requests_take_effect_at_once_witness :
  let mvs := [Arrive (an_enqueue "c" 8); Go 0; Go 1; Go 1; Go 0] in
  ∃ p' rep, schedule good_disk (Arrive (an_enqueue "b" 7) :: mvs) (Pool (built leased_a) []) = Some p' ∧
    goroutines p' !! 0%nat = Some (Done (Some rep)) ∧ status rep = 201 ∧
    ∃ looks M1 M2, turns good_disk 0 (Arrive (an_enqueue "b" 7) :: mvs) (Pool (built leased_a) []) = looks ++ [(M1, M2)] ∧
      Forall (λ v, v.1 = v.2) looks ∧ serve good_disk (an_enqueue "b" 7) M1 = Some (M2, Some rep).
Proof.
  intros mvs.
  destruct (schedule good_disk (Arrive (an_enqueue "b" 7) :: mvs) (Pool (built leased_a) [])) as [p'|] eqn:E;
    [|vm_compute in E; discriminate E].
  destruct (requests_take_effect_at_once good_disk (an_enqueue "b" 7) mvs (Pool (built leased_a) []) p')
    as (t & Ht & Hp); [reflexivity|exact E|].
  assert (option_map (λ t, match t with Done (Some rep) => status rep | _ => 0 end)
    (schedule good_disk (Arrive (an_enqueue "b" 7) :: mvs) (Pool (built leased_a) []) ≫= λ p, goroutines p !! 0%nat) = Some 201) as Es
    by (vm_compute; reflexivity).
  rewrite E in Es. simpl in Es, Ht. rewrite Ht in Es. destruct t as [[rep|]| |]; [|discriminate Es..].
  injection Es as Es. exists p', rep. split; [reflexivity|]. split; [exact Ht|]. split; [exact Es|].
  destruct Hp as [Hp|[Hn _]]; [exact Hp|]. vm_compute in Hn. discriminate Hn.
Defined.

(** ** Interleavings *)

(** C14: every interleaving is a run of the manager.  Whatever requests arrive,
    however the tickers fire and whoever the scheduler picks, no goroutine
    panics, the manager stays sound, queues stay where they are, and all that
    happened to the manager is a sequence of its calls, so that what holds of its
    runs (exact restarts, harmless compactions, messages that are kept) holds
    under concurrency. *)
Theorem interleavings_are_runs `{JsonLaws} `{RangingLaws} (envs : nat → wenv) mvs M p :
  sound M → along envs turn_ok mvs (Pool M []) → schedule envs mvs (Pool M []) = Some p →
  sound (shared p) ∧ (∀ n, is_Some (queues M !! n) → is_Some (queues (shared p) !! n)) ∧
  (∃ tr, mtrace envs M tr (shared p) ∧
     ∀ T, mreach envs T M → Forall (served_step T) tr → Forall unfailing tr → mreach envs T (shared p)) ∧
  ∀ i t, goroutines p !! i = Some t → turn_ok (Go i) p → take_turn envs t (shared p) ≠ Panicked.
Proof.
  intros Hs Hok E. assert (pool_ok envs (Pool M [])) as Hp0 by (by split).
  destruct (schedule_ok envs mvs _ p Hp0 Hok E) as (Hp & Hl & tr & Ht). split; [apply Hp|]. split; [exact Hl|].
  split; [|intros i t Hi Hti; by apply (turn_total envs i p t)]. exists tr. split; [done|]. intros T Hr Hse Hu.
  by destruct (mtrace_reach envs T T M tr (shared p) Hr) as (T' & HT & Hr'); [lia|done..|assert (T' = T) as <- by lia].
Qed.

(** Two producers, a poll, the pump and a compaction. *)
Definition busy_moves : list move :=
  [Arrive (an_enqueue "b" 7); Arrive (PostReceive "q" (Decoded (ReceiveReq 1 0 0)) 20 [Round 20 (λ k, two_of (40 + k)) 20 [] TimedOut 20] false);
   Go 0; Ticker 20; Go 1; Go 2; Arrive (PostCompact (CEnv (λ _, unixEpoch) None (λ _, None) None None None None));
   Go 3; Go 0; Go 3; Flusher None; Go 2; Go 1; Go 3].

Lemma busy_env : along good_disk turn_ok busy_moves (Pool (built leased_a) []).
Proof. apply (alongb_ok good_disk _ turn_okb); [apply turn_okb_ok|vm_compute; reflexivity]. Qed.

Lemma interleavings_are_runs_witness :
  ∃ p, schedule good_disk busy_moves (Pool (built leased_a) []) = Some p ∧
    (λ t, match t with Done (Some a) => status a | Done None => 0 | _ => -1 end) <$> goroutines p = [201; 200; 0; 200] ∧
    sound (shared p) ∧ ∃ tr, mtrace good_disk (built leased_a) tr (shared p).
Proof.
  destruct (schedule good_disk busy_moves (Pool (built leased_a) [])) as [p|] eqn:E; [|vm_compute in E; discriminate E].
  assert ((λ p, (λ t, match t with Done (Some a) => status a | Done None => 0 | _ => -1 end) <$> goroutines p) <$>
    schedule good_disk busy_moves (Pool (built leased_a) []) = Some [201; 200; 0; 200]) as Er by (vm_compute; reflexivity).
  rewrite E in Er. injection Er as Er. exists p. split; [reflexivity|]. split; [exact Er|].
  destruct (interleavings_are_runs good_disk busy_moves (built leased_a) p) as (Hs & _ & (tr & Ht & _) & _);
    [apply built_sound|exact busy_env|exact E|].
  split; [exact Hs|by exists tr].
Defined.

(** ** Wake-ups *)

(** C12: a waiting poll is not forgotten.  A goroutine that found nothing and
    parked, to be woken by its queue's channel, can go on as soon as a message of
    that queue is ready, whatever others did to the queue, the log and the other
    queues since - requests, ticks, compactions - as long as no [Nack] on the
    queue failed; and going on is another attempt. *)
Theorem parked_poll_goes_on `{JsonLaws} `{RangingLaws} (envs : nat → wenv)
    n r rounds max vis wait deadline k i mvs p p1 p2 ready t q x m :
  sound (shared p) → 0 < max → rd_end r = Woken → (∀ res, ∃ rep, k res = Done rep) →
  goroutines p !! i = Some (poll_task n (r :: rounds) max vis wait deadline k) →
  turn_ok (Go i) p → move_pool envs (Go i) p = Some p1 → goroutines p1 !! i = Some (Park ready t) →
  Forall (λ mv, mv ≠ Go i) mvs → along envs turn_ok mvs p1 → along envs (nacks_written envs n) mvs p1 →
  schedule envs mvs p1 = Some p2 →
  queues (shared p2) !! n = Some q → abs q !! x = Some (In HReady, m) →
  ∃ p3, move_pool envs (Go i) p2 = Some p3 ∧ shared p3 = shared p2 ∧
    goroutines p3 !! i = Some (poll_task n rounds max vis wait deadline k).
Proof.
  intros Hs Hmax Hw Hk Hi Ht E1 Hp1 Hne Hts Hns E Hq Hx.
  destruct (attempt_parks envs n r rounds max vis wait deadline k i p p1 ready t Hk Hi E1 Hp1)
    as (q1 & q2 & w2 & wake0 & remaining & Hq1 & Er & Hq2 & -> & ->). rewrite Hw in Hp1.
  destruct (schedule_drift envs n mvs p1 p2 q2 Hts Hns E Hq2) as (q' & Hq' & Hd). rewrite Hq in Hq'. injection Hq' as <-.
  pose proof (schedule_other envs mvs i p1 p2 _ Hne E Hp1) as Hi2.
  assert (wake0 < wake q)%nat as Hlt.
  { eapply (woken_when_ready max vis (rd_now r) (rd_rnd r) q1 (wal (shared p))); [by apply (Hs n)| |done|exact Er|exact Hd|exact Hx].
    simpl in Ht. rewrite Hi in Ht. by apply (Ht q1 (CTryReceive max vis (rd_now r) (rd_rnd r)) Hq1). }
  eexists. split; [|split].
  - cbn [move_pool]. rewrite Hi2. simpl_bind. cbn [take_turn].
    assert (resumes n r wake0 remaining (shared p2) = true) as ->; [|done].
    unfold resumes. rewrite Hq. unfold selectable. rewrite Hw. by apply bool_decide_eq_true.
  - done.
  - simpl. apply list_lookup_insert_eq. by apply lookup_lt_Some in Hi2.
Qed.

(** A poll of an empty queue, and the message that comes meanwhile. *)
Definition a_round : round := Round 20 two_of 20 [] Woken 20.
Definition waiting : pool :=
  Pool (built [(10, MCreate (Config.Mk "q" FIFO false 3 0))])
    [poll_task "q" [a_round; a_round] 1 Second Second (Add 20 Second) (λ _, Done None)].
Definition meanwhile : list move := [Arrive (an_enqueue "b" 7); Go 1; Ticker 20; Go 1; Go 2; Go 2].

Lemma parked_poll_goes_on_witness :
  ∃ p2 p3, schedule good_disk (Go 0 :: meanwhile) waiting = Some p2 ∧ move_pool good_disk (Go 0) p2 = Some p3 ∧
    goroutines p3 !! 0%nat = Some (poll_task "q" [a_round] 1 Second Second (Add 20 Second) (λ _, Done None)).
Proof.
  destruct (move_pool good_disk (Go 0) waiting) as [p1|] eqn:E1; [|vm_compute in E1; discriminate E1].
  assert ((move_pool good_disk (Go 0) waiting ≫= λ p, Some (alongb good_disk turn_okb meanwhile p,
    alongb good_disk no_nack meanwhile p)) = Some (true, true)) as Ha by (vm_compute; reflexivity).
  assert ((move_pool good_disk (Go 0) waiting ≫= λ p, t ← goroutines p !! 0%nat;
    Some (match t with Park _ _ => true | _ => false end)) = Some true) as Hp by (vm_compute; reflexivity).
  assert ((move_pool good_disk (Go 0) waiting ≫= λ p, p2 ← schedule good_disk meanwhile p;
    q ← queues (shared p2) !! "q"; v ← abs q !! 0%nat; Some v.1) = Some (In HReady)) as Hq by (vm_compute; reflexivity).
  rewrite E1 in Ha, Hp, Hq. cbn [mbind option_bind] in Ha, Hp, Hq. injection Ha as Ha Hb.
  destruct (goroutines p1 !! 0%nat) as [[x|A c k|ready t]|] eqn:Hg; try discriminate Hp.
  destruct (schedule good_disk meanwhile p1) as [p2|] eqn:E; [|discriminate Hq]. cbn [mbind option_bind] in Hq.
  destruct (queues (shared p2) !! "q") as [q|] eqn:Hq2; [|discriminate Hq]. cbn [mbind option_bind] in Hq.
  destruct (abs q !! 0%nat) as [[P m]|] eqn:Hx; [|discriminate Hq]. injection Hq as ->.
  destruct (parked_poll_goes_on good_disk "q" a_round [a_round] 1 Second Second (Add 20 Second) (λ _, Done None) 0
    meanwhile waiting p1 p2 ready t q 0%nat m) as (p3 & E3 & _ & Hi).
  - apply built_sound.
  - reflexivity.
  - reflexivity.
  - intros _. by exists None.
  - reflexivity.
  - apply turn_okb_ok. vm_compute. reflexivity.
  - exact E1.
  - exact Hg.
  - repeat constructor; discriminate.
  - by apply (alongb_ok good_disk _ turn_okb); [apply turn_okb_ok|].
  - by apply (alongb_ok good_disk _ no_nack); [apply no_nack_ok|].
  - exact E.
  - exact Hq2.
  - exact Hx.
  - exists p2, p3. split; [|by split]. cbn [schedule]. rewrite E1. exact E.
Defined.

(** ** What the locks do not buy *)

#[local] Arguments schedule : simpl never.

(** C37: the epoch check of a replay is a race.  Of a replay and a compaction
    that arrive together, the scheduler can let the replay look the epoch up,
    then the compaction run, then the replay scan.  What is left of the replay
    then does what a replay with the compacted log's epoch at the stale offset
    would do; the check, made after the compaction, refuses it. *)
Theorem replay_races_compaction `{JsonLaws} `{RangingLaws} (envs : nat → wenv) n off dlq_now se now rnd env M M' q :
  queues M !! n = Some q → 0 < off → 0 ≤ WAL.epoch (wl_wal (wal M)) < two64 → CompactAll env M = Some (M', None) →
  let asks epoch := log_replay n epoch off dlq_now se now rnd in
  let stale := Bookmark.Epoch (Bookmark_ M) in
  let new := Bookmark.Epoch (Bookmark_ M') in
  ∃ p t, schedule envs [Arrive (asks stale); Arrive (PostCompact env); Go 0; Go 0; Go 0; Go 1; Go 1; Go 0] (Pool M []) = Some p ∧
    goroutines p !! 0%nat = Some t ∧ alone envs t (shared p) = serve envs (asks new) M' ∧
    serve envs (asks stale) M' = Some (M', Some (Reply 400 (PReplayFailed "log" 0 (ErrStaleBookmark stale new)))).
Proof.
  intros Hq Hoff He Ec asks stale new. destruct (CompactAll_epoch env M M' Ec) as [Eq Ee].
  assert (stale ≠ new) as Hne.
  { unfold stale, new, Bookmark_, Bookmark. simpl. rewrite Ee. intros E. symmetry in E. by apply u64_succ_neq in E. }
  assert (queues M' !! n = Some q) as Hq' by by rewrite Eq.
  assert (Get n M = Ok q) as Hget by (unfold Get; by rewrite Hq).
  assert (∃ M2 r, perform envs (CScan n off zeroTime se) M' = Some (M2, r)) as (M2 & r & Es).
  { cbn [perform]. change (@found_has_wal) with (@pair_has_wal (list (string * Z))).
    destruct (scan_replay_any n zeroTime off se (wl_wal (wal M'))) as (e & found & err & ->). simpl_bind. by eexists _, _. }
  rewrite <- !(serve_alone envs) by done. unfold asks.
  rewrite !(log_replay_alone envs _ _ _ _ _ _ _ M' q) by done. cbv zeta. fold new.
  rewrite (bool_decide_eq_false_2 (new ≠ new)) by auto. rewrite bool_decide_eq_true_2 by done.
  eexists _, _. split; [|split; [|split]].
  - match goal with |- schedule _ (_ :: _ :: ?mvs) _ = _ =>
      transitivity (schedule envs mvs (Pool M [serve_task (asks stale); compact_task env])); [reflexivity|] end.
    erewrite (schedule_do envs 0 (CGet n) _ _ M (Ok q)); [|reflexivity|simpl; by rewrite Hget].
    cbn [decode rep_Source rep_FromOffset rep_Epoch rep_SinceUnixMS]. rewrite (proj2 (Z.ltb_ge off 0)) by lia. simpl.
    erewrite (schedule_do envs 0 (CGet n) _ _ M (Ok q)); [|reflexivity|simpl; by rewrite Hget]. simpl.
    erewrite (schedule_do envs 0 CBookmark _ _ M (Bookmark_ M)); [|reflexivity..]. cbv zeta. fold stale.
    cbn [Bookmark.Epoch Bookmark.Offset]. rewrite (bool_decide_eq_false_2 (stale ≠ stale)), andb_false_r by auto. simpl.
    erewrite (schedule_do envs 1 CBookmark _ _ M (Bookmark_ M)); [|reflexivity..]. simpl.
    erewrite (schedule_do envs 1 (CCompact env) _ _ M' None); [|reflexivity|exact Ec]. simpl.
    erewrite (schedule_do envs 0 (CScan n off zeroTime se) _ _ M2 r); [|reflexivity|exact Es]. simpl. reflexivity.
  - reflexivity.
  - cbn [shared]. unfold scan_task. cbn [alone]. by rewrite Es.
  - reflexivity.
Qed.

(** The bookmark is taken with "a" in the queue, then a long text arrives.  The
    raced replay passes the text over and enqueues "a" once more. *)
Definition marked : list (Time * mcall) :=
  leased_a ++ [(20, MCall "q" (CEnqueue (String.string_of_list_ascii (replicate 36 (Ascii.ascii_of_nat 120))) 0 0 20 (two_of 9)))].
Definition new_file : cenv := CEnv (λ _, unixEpoch) None (λ _, None) None None None None.

Lemma replay_races_compaction_witness :
  let asks epoch := log_replay "q" epoch 236 20 quiet_scan (λ _, 20) (λ k, two_of (20 + k)) in
  Bookmark_ (built leased_a) = Bookmark.Mk 0 236 ∧
  ∃ p t, schedule good_disk [Arrive (asks 0); Arrive (PostCompact new_file); Go 0; Go 0; Go 0; Go 1; Go 1; Go 0]
      (Pool (built marked) []) = Some p ∧ goroutines p !! 0%nat = Some t ∧
    snd <$> alone good_disk t (shared p) = Some (Some (Reply 200 (PReplayed "log" 1))) ∧
    (λ v, (λ o, Msg.Body o.2.2) <$> (map_to_list (default ∅ (abs <$> queues v.1 !! "q")))) <$> alone good_disk t (shared p) =
      Some ["a"; String.string_of_list_ascii (replicate 36 (Ascii.ascii_of_nat 120)); "a"].
Proof.
  intros asks. split; [vm_compute; reflexivity|].
  destruct (CompactAll new_file (built marked)) as [[M' [e|]]|] eqn:Ec; [vm_compute in Ec; discriminate Ec| |vm_compute in Ec; discriminate Ec].
  destruct (queues (built marked) !! "q") as [q|] eqn:Hq; [|vm_compute in Hq; discriminate Hq].
  destruct (replay_races_compaction good_disk "q" 236 20 quiet_scan (λ _, 20) (λ k, two_of (20 + k)) new_file
    (built marked) M' q) as (p & t & E & Ht & Ea & _).
  - exact Hq.
  - reflexivity.
  - vm_compute. split; [discriminate|reflexivity].
  - exact Ec.
  - exists p, t. split; [exact E|]. split; [exact Ht|]. rewrite Ea.
    assert (M' = default M_void (fst <$> CompactAll new_file (built marked))) as -> by by rewrite Ec.
    split; vm_compute; reflexivity.
Defined.
