(* ===== verification/Late.v ===== *)
(** * Handlers that outlive the listener

    When the drain of [main] times out, [srv.Close] closes the connections and
    [mgr.Close] the log; neither waits for the handlers that are still running.
    [Close] takes the log's lock only, so it can fall between two records of one
    section: the section began with an open file and ends with a closed one.
    Until the process is gone the handlers go on like that, and every write fails
    before a byte.  Here is that end of [main], and what the sections of such a
    late handler can and cannot do; [Cuts.v] has those the close falls into. *)

From Stdlib Require Import Strings.Byte.
From S2P Require Import Prelude ContainerHeap Msg Heaps LogStore Queue QueueInv QueueSpec QueueOps QueueReceive Calls Effects History Receive Encoding Wal WalOps Manager ManagerOps ReplayOps ManagerRun Api ApiOps Server ServerOps Threads ThreadOps ThreadRun.

Implicit Types (q : Queue) (M : Manager) (n : string) (t : handler) (p : pool).

(** ** The end of main *)

Definition ErrClosed : error := ErrIO "file already closed".

(** An [*os.File] answers with [ErrClosed] once it is closed. *)
Definition after_close (envs : nat → wenv) : nat → wenv :=
  λ k, WEnv (we_now (envs k)) (Some (0%nat, ErrClosed)) (Some ErrClosed).

(** The same from write number [k0] on. *)
Definition cut_env (envs : nat → wenv) (k0 : nat) : nat → wenv :=
  λ k, if (k <? k0)%nat then envs k else after_close envs k.

Section Stop.
Context `{Json} `{Ranging} (envs : nat → wenv).

(** Goroutine [i] is in a section that has written [j] records, at least one, when
    the file is closed, and has more to write.  What it does after that it does to
    the memory of its queue, which it has locked, so it may as well be done with
    it before anything else happens. *)
Definition cut_turn (i j : nat) p : option pool :=
  let k0 := (wl_step (wal (shared p)) + j)%nat in
  p' ← move_pool (cut_env envs k0) (Go i) p;
  if (0 <? j)%nat && (k0 <? wl_step (wal (shared p')))%nat then Some p' else None.

Fixpoint cut_turns (cuts : list (nat * nat)) p : option pool :=
  match cuts with
  | [] => Some p
  | (i, j) :: cuts => p ← cut_turn i j p; cut_turns cuts p
  end.

(** After the signal: the drain, which is given up after ten seconds; the sections
    that [mgr.Close] finds half done, and the close; the turns that handlers not
    waited for still get; and [Close]'s error. *)
Definition stop_pool (drain : list move) (cuts : list (nat * nat)) (sync close : option error)
    (late : list nat) p : option (pool * option error) :=
  p ← schedule envs drain p;
  p ← cut_turns cuts p;
  let '(m, err) := CloseAll sync close (shared p) in
  p ← schedule (after_close envs) (Go <$> late) (Pool m (goroutines p));
  Some (p, err).
End Stop.

(** ** What a late handler may still promise *)

(** Answers a client would take for a fact about the log. *)
Definition promises (r : reply) : bool :=
  match payload_of r with
  | PConfig _ | PMsg _ | PAcked | PNacked => true
  | PMessages l => negb (bool_decide (l = []))
  | PReplayed _ k => 0 <? k
  | _ => false
  end.

(** What a method returns when nothing can be written. *)
Definition refused {A} (m : method A) : A → Prop :=
  match m in method A return A → Prop with
  | MEnqueue _ _ _ _ _ => λ r, ∃ e, r = Err e
  | MTryReceive _ _ _ _ => λ '(out, _, err), err = None → out = []
  | MAck _ | MNack _ _ _ => λ r, r ≠ None
  | MReplayDLQ _ => λ '(k, err), err = None → k = 0
  | MExtend _ _ _ | MTick _ | MStats _ => λ _, True
  end.

Definition declined {A} (c : crit A) : A → Prop :=
  match c in crit A return A → Prop with
  | COn _ m => refused m
  | CCreate _ => λ r, ∃ e, r = Err e
  | _ => λ _, True
  end.

Definition compacts {A} (c : crit A) : bool := match c with CCompact _ => true | _ => false end.

(** From here on the goroutine compacts nothing, and comes to no promise as long
    as nothing can be written. *)
Fixpoint wary t : Prop :=
  match t with
  | Done None => True
  | Done (Some r) => promises r = false
  | Do c k => compacts c = false ∧ ∀ a, declined c a → wary (k a)
  | Park _ t => wary t
  end.

(** Wherever the goroutine is when that begins, unless it has its answer. *)
Fixpoint careful t : Prop :=
  match t with
  | Done _ => True
  | Do c k => wary (Do c k) ∧ ∀ a, careful (k a)
  | Park ready t => wary t ∧ careful t
  end.

Definition sure t : Prop := wary t ∧ careful t.

Lemma sure_done r : promises r = false → sure (Done (Some r)).
Proof. by split. Qed.

Lemma sure_do {A} (c : crit A) k :
  compacts c = false → (∀ a, careful (k a)) → (∀ a, declined c a → wary (k a)) → sure (Do c k).
Proof. intros Hc Hk Hd. by split; [split|split; [split|]]. Qed.

Lemma sure_look {A} (c : crit A) k : compacts c = false → (∀ a, sure (k a)) → sure (Do c k).
Proof. intros Hc Hk. apply sure_do; [done|intros a; apply Hk|intros a _; apply Hk]. Qed.

Lemma sure_get n k : (∀ e, sure (k (Err e))) → (∀ q, sure (k (Ok q))) → sure (Do (CGet n) k).
Proof. intros He Hk. apply sure_look; [done|]. by intros []. Qed.

Lemma sure_body {A} n (dst : A) b f : (∀ q req, sure (f q req)) → sure (with_body_task n dst b f).
Proof. intros Hf. apply sure_get; [by intros|]. intros q. by destruct (decode dst b). Qed.

Lemma sure_bounded {A} (v : result A) f : (∀ x, sure (f x)) → sure (or_bad_request_task v f).
Proof. intros Hf. destruct v; [apply Hf|by apply sure_done]. Qed.

Lemma stats_sure names now : ∀ out, sure (stats_task names now out).
Proof. induction names as [|n names IH]; intros out; [by apply sure_done|]. by apply sure_look. Qed.

Lemma ticks_sure names now : sure (ticks_task names now).
Proof. induction names as [|n names IH]; [done|]. by apply sure_look. Qed.

Lemma poll_sure n max vis wait deadline k rounds :
  (∀ r, careful (k r)) → wary (k (Received [])) → (∀ e, wary (k (Failed e))) → sure (poll_task n rounds max vis wait deadline k).
Proof.
  intros Hc Hr He. induction rounds as [|r rounds [IHw IHc]]; [done|]. cbn [poll_task]. apply sure_do; [done|..].
  - intros [[out wake0] [e|]]; [by apply Hc|]. destruct (_ || _); [by apply Hc|]. destruct (_ <=? 0); [by apply Hc|].
    cbn [careful]. destruct (rd_end r); by split.
  - intros [[out wake0] [e|]] Hd; [by apply He|]. rewrite (Hd eq_refl). destruct (_ || _); [done|]. destruct (_ <=? 0); [done|].
    cbn [wary]. by destruct (rd_end r).
Qed.

Lemma publish_careful n now rnd found : ∀ i j, careful (publish_task n found i now rnd j log_replayed).
Proof.
  induction found as [|[body prio] found IH]; intros i j; [done|]. cbn [publish_task]. apply sure_do; [done|..].
  - intros [m|e]; [apply IH|done].
  - by intros ? [e ->].
Qed.

Lemma publish_sure n now rnd found i : sure (publish_task n found i now rnd 0 log_replayed).
Proof.
  destruct found as [|[body prio] found]; [done|]. split; [|apply publish_careful].
  split; [done|]. by intros ? [e ->].
Qed.

Lemma serve_sure r : (∀ env, r ≠ PostCompact env) → sure (serve_task r).
Proof.
  intros Hr. destruct r; cbn [serve_task].
  - unfold createQueue_task. destruct (decode _ b); [|done]. destruct (_ || _); [done|].
    apply sure_do; [done|by intros []|]. by intros ? [e ->].
  - apply sure_look; [done|]. intros names. apply stats_sure.
  - apply sure_get; [done|]. intros q. by apply sure_look.
  - apply sure_body. intros q req. case_bool_decide; [done|]. apply sure_bounded. intros d.
    apply sure_do; [done|by intros []|]. by intros ? [e ->].
  - apply sure_body. intros q req. destruct (_ || _); [done|]. do 2 (apply sure_bounded; intros ?).
    apply poll_sure; [by intros [|e|]; [|destruct gone|]|done|]. intros e. simpl. by destruct gone.
  - apply sure_body. intros q req. apply sure_do; [done|by intros []|]. by intros [e|] Hd.
  - apply sure_body. intros q req. apply sure_bounded. intros d. apply sure_do; [done|by intros []|]. by intros [e|] Hd.
  - apply sure_body. intros q req. apply sure_bounded. intros d. apply sure_look; [done|]. by intros [].
  - apply sure_body. intros q req. destruct (_ || _).
    { apply sure_do; [done|by intros [? []]|]. intros [k [e|]] Hd; [done|]. by rewrite (Hd eq_refl). }
    case_bool_decide; [|done]. destruct (_ <? 0); [done|].
    apply sure_get; [done|]. intros q'. apply sure_look; [done|]. intros cur. cbv zeta. destruct (_ && _); [done|].
    apply sure_look; [done|]. intros [found|e]; [apply publish_sure|done].
  - by destruct (Hr env).
  - by apply sure_look.
  - apply sure_look; [done|]. by intros [].
Qed.

Lemma pump_sure now : sure (pump_task now).
Proof. apply sure_look; [done|]. intros names. apply ticks_sure. Qed.

(** ** Sections after the close *)

Section AnyDisk.
Context `{JsonLaws} `{RangingLaws} (envs : nat → wenv).

Lemma perform_sound {A} (c : crit A) M M' a :
  sound M → permitted c M → perform envs c M = Some (M', a) → sound M'.
Proof.
  intros Hs Hp E. assert (target c = None ∨ (∃ n, target c = Some n ∧ is_Some (queues M !! n)) ∨ queues M' = queues M) as Hn.
  { destruct c as [n A m|n|cfg| | |n from since env|env|]; try by left.
    - right; left. exists n. split; [done|]. cbn [perform] in E. unfold on_queue in E.
      apply bind_Some in E as (q & Hq & _). by exists q.
    - right; right. cbn [perform] in E. by apply bind_Some in E as ([[w f] e] & _ & [= <- _]). }
  assert ((∀ n, target c = Some n → is_Some (queues M !! n)) → sound M') as Hok.
  { intros Hc. destruct (perform_ok envs c M Hs Hp Hc) as (M1 & a1 & tr & E1 & Hs1 & _).
    rewrite E in E1. by injection E1 as -> _. }
  destruct Hn as [Hn|[(n & Hn & Hq)|Hq]].
  - apply Hok. by rewrite Hn.
  - apply Hok. by intros ? [= <-]%(eq_trans (eq_sym Hn)).
  - by eapply sound_queues.
Qed.
End AnyDisk.

Section Closed.
Context `{JsonLaws} `{RangingLaws} (envs : nat → wenv).
#[local] Instance closed_log : Log wlog := wal_log (after_close envs).
#[local] Existing Instance found_has_wal.

(** The file is as it was, and the log writes where it would have. *)
Definition same_file (w w' : WAL) : Prop := WAL.f w' = WAL.f w ∧ WAL.size w' = WAL.size w ∧ WAL.orphan w' = WAL.orphan w.
Definition in_file (w : WAL) : Prop := WAL.size w ≤ Z.of_nat (length (cache (WAL.f w))).

#[export] Instance same_file_preorder : PreOrder same_file.
Proof. split; [done|]. intros w1 w2 w3 (? & ? & ?) (? & ? & ?). split_and!; congruence. Qed.

Lemma write_refused r d l l' e : write r d l = (l', e) → e ≠ None.
Proof.
  simpl. unfold wal_write. destruct (encode _); [|by intros [= _ <-]]. destruct (WAL.failed _); by intros [= _ <-].
Qed.

Lemma write_same r d l l' e :
  in_file (wl_wal l) → write r d l = (l', e) → same_file (wl_wal l) (wl_wal l').
Proof.
  intros Hin. simpl. unfold wal_write. destruct (encode _); [|by intros [= <- _]].
  destruct (WAL.failed _); [by intros [= <- _]|]. intros [= <- _]. split_and!; [|done..].
  simpl. unfold overwrite. rewrite take_0. destruct (WAL.f (wl_wal l)) as [c d'] eqn:Ef. unfold in_file in Hin. rewrite Ef in Hin. simpl in *.
  f_equal. replace (_ - length c)%nat with 0%nat by lia. simpl. by rewrite Nat.add_0_r, take_drop.
Qed.

Lemma retry_refused x now delay q l q' l' e : retryLocked x now delay q l = Some (q', l', e) → e ≠ None.
Proof.
  unfold retryLocked. intros (m & _ & E)%bind_Some. destruct (_ && _).
  - destruct (AppendSync _ l) as [l1 e1] eqn:Ew. apply write_refused in Ew. destruct e1 as [e1|]; [|done].
    apply bind_Some in E as (q1 & _ & (q2 & _ & [= _ _ <-])%bind_Some). done.
  - apply bind_Some in E as (q1 & _ & (s & _ & E)%bind_Some).
    destruct (AppendSync _ l) as [l1 e1] eqn:Ew. apply write_refused in Ew. destruct e1 as [e1|]; [|done].
    by injection E as _ _ <-.
Qed.

Lemma invoke_refused {A} (m : method A) q l q' l' a :
  invoke (after_close envs) m q l = Some (q', l', a) → refused m a.
Proof.
  destruct m; cbn [invoke refused]; try done; change (thread_log (after_close envs)) with closed_log.
  - unfold Enqueue. destruct (_ && _); [intros [= _ _ <-]; by eexists|].
    destruct (AppendSync _ l) as [l1 e1] eqn:Ew. apply write_refused in Ew. destruct e1 as [e1|]; [|done].
    intros [= _ _ <-]. by eexists.
  - unfold tryReceive. intros ([q1 l1] & _ & ([picked q2] & _ & E)%bind_Some)%bind_Some.
    case_bool_decide; [by injection E as _ _ <-|]. apply bind_Some in E as ([l2 r] & El & E).
    destruct r as [ls|err]; [|apply bind_Some in E as (q3 & _ & [= _ _ <-]); done].
    destruct picked as [|x picked]; [done|]. cbn [log_leases] in El. apply bind_Some in El as (m & _ & El).
    destruct (Append _ l1) as [l3 e3] eqn:Ew. apply write_refused in Ew. by destruct e3.
  - unfold Ack. destruct (leases q !! receipt) as [x|]; [|by intros [= _ _ <-]]. intros (m & _ & E)%bind_Some.
    destruct (AppendSync _ l) as [l1 e1] eqn:Ew. apply write_refused in Ew. destruct e1; [|done]. by injection E as _ _ <-.
  - unfold Nack. destruct (leases q !! receipt) as [x|]; [|by intros [= _ _ <-]].
    intros (m & _ & (q1 & _ & (q2 & _ & (q3 & _ & ([[q4 l4] e] & E & E')%bind_Some)%bind_Some)%bind_Some)%bind_Some)%bind_Some.
    apply retry_refused in E. destruct e; [|done]. by injection E' as _ _ <-.
  - unfold ReplayDLQ. destruct (dlq q) as [|x rest]; cbn [replay_loop]; [by intros [= _ _ <-]|].
    intros (m & _ & E)%bind_Some. destruct (AppendSync _ l) as [l1 e1] eqn:Ew. apply write_refused in Ew.
    destruct e1; [|done]. by injection E as _ _ <-.
Qed.

Lemma invoke_same {A} (m : method A) q l q' l' a :
  wf q → (∀ k, as_call m = Some k → admissible k q) → in_file (wl_wal l) →
  invoke (after_close envs) m q l = Some (q', l', a) → same_file (wl_wal l) (wl_wal l').
Proof.
  intros Hwf Hk Hin E. destruct (as_call m) as [k|] eqn:Em.
  - destruct (exec_ok k q l Hwf (Hk k eq_refl)) as (q1 & l1 & r1 & E1 & _ & _ & Hst).
    pose proof (exec_invoke (after_close envs) m k q l Em) as Ei. rewrite E in Ei. simpl in Ei.
    change (pool_log (after_close envs)) with closed_log in Ei. rewrite E1 in Ei. injection Ei as -> -> ->.
    specialize (Hst anything (serves_anything _ _) (reports_anything _ _ _ _)).
    assert (∀ b b', asteps (cfg q) anything b b' → in_file (wl_wal (a_log b)) → same_file (wl_wal (a_log b)) (wl_wal (a_log b'))) as Hinv.
    { induction 1 as [|b b1 b' Hb _ IH]; [done|]. intros Hb0.
      assert (same_file (wl_wal (a_log b)) (wl_wal (a_log b1))) as Hs1.
      { eapply (astep_log (cfg q) anything (λ l', same_file (wl_wal (a_log b)) (wl_wal l'))); [|exact Hb|done].
        intros r d l1 l2 e Hl1 Ew. etrans; [exact Hl1|]. eapply write_same; [|exact Ew].
        destruct Hl1 as (Ef & Es & _). unfold in_file. by rewrite Ef, Es. }
      etrans; [exact Hs1|]. apply IH. destruct Hs1 as (Ef & Es & _). unfold in_file. by rewrite Ef, Es. }
    by apply (Hinv _ _ Hst).
  - destruct m; try done. cbn [invoke] in E. by apply bind_Some in E as (s & _ & [= _ <- _]).
Qed.

Lemma perform_late {A} (c : crit A) M M' a :
  compacts c = false → sound M → permitted c M → in_file (wl_wal (wal M)) →
  perform (after_close envs) c M = Some (M', a) → declined c a ∧ same_file (wl_wal (wal M)) (wl_wal (wal M')).
Proof.
  intros Hc Hs Hp Hin E. destruct c as [n A m|n|cfg| | |n from since env|env|]; cbn [perform] in E; try done;
    try (injection E as <- <-; by split).
  - unfold on_queue in E. apply bind_Some in E as (q & Hq & ([[q' l'] b] & E & [= <- <-])%bind_Some).
    split; [by eapply invoke_refused|]. simpl. eapply invoke_same; [apply (Hs n q Hq)| |done|exact E].
    intros k Hk. by apply (Hp q).
  - injection E as E. unfold Create in E. change (manager_log (after_close envs)) with closed_log in E.
    assert (∀ x, (M, Err x) = (M', a) → (∃ e, a = Err e) ∧ same_file (wl_wal (wal M)) (wl_wal (wal M'))) as Hno.
    { intros x [= <- <-]. split; [by eexists|done]. }
    case_bool_decide; [by eapply Hno|]. destruct (containsAny _ _); [by eapply Hno|].
    destruct (_ && _); [by eapply Hno|]. destruct (queues M !! _); [by eapply Hno|].
    destruct (AppendSync _ (wal M)) as [l1 e1] eqn:Ew. pose proof (write_refused _ _ _ _ _ Ew).
    apply write_same in Ew; [|done]. destruct e1; [|done]. injection E as <- <-. split; [by eexists|done].
  - change (@found_has_wal) with (@pair_has_wal (list (string * Z))) in E.
    destruct (scan_replay_any n since from env (wl_wal (wal M))) as (e & found & err & E1). rewrite E1 in E.
    by injection E as <- _.
Qed.
(** ** Turns after the close *)

(** Nobody has come to a promise since [p0]. *)
Definition no_promise_since p0 p : Prop :=
  ∀ i t, goroutines p !! i = Some t → wary t ∨ ∃ x, t = Done x ∧ goroutines p0 !! i = Some t.

Lemma late_turn i p0 p p' :
  sound (shared p) → in_file (wl_wal (wal (shared p))) → turn_ok (Go i) p → no_promise_since p0 p →
  move_pool (after_close envs) (Go i) p = Some p' →
  sound (shared p') ∧ same_file (wl_wal (wal (shared p))) (wl_wal (wal (shared p'))) ∧ no_promise_since p0 p'.
Proof.
  intros Hs Hin Ht Hp E.
  assert (∀ M t, wary t → no_promise_since p0 (Pool M (<[i := t]> (goroutines p)))) as Hins.
  { intros M t Hw j t' Hj. simpl in Hj. apply list_lookup_insert_Some in Hj as [(-> & -> & _)|[_ Hj]]; [by left|by apply Hp]. }
  destruct (go_inv _ _ _ _ E) as [(A & c & k & M & a & Hi & Ep & ->)|(ready & t & Hi & _ & ->)]; cbn [shared].
  - simpl in Ht. rewrite Hi in Ht. destruct (Hp i _ Hi) as [[Hc Hw]|(x & [=] & _)].
    destruct (perform_late c (shared p) M a Hc Hs Ht Hin Ep) as [Hd Hf].
    split; [by eapply perform_sound|]. split; [done|]. by apply Hins, Hw.
  - destruct (Hp i _ Hi) as [Hw|(x & [=] & _)]. split; [done|]. split; [done|]. by apply Hins.
Qed.

Lemma late_turns late : ∀ p0 p p',
  sound (shared p) → in_file (wl_wal (wal (shared p))) → along (after_close envs) turn_ok (Go <$> late) p →
  no_promise_since p0 p → schedule (after_close envs) (Go <$> late) p = Some p' →
  same_file (wl_wal (wal (shared p))) (wl_wal (wal (shared p'))) ∧ no_promise_since p0 p'.
Proof.
  induction late as [|i late IH]; intros p0 p p' Hs Hin Hok Hp; [by intros [= <-]|].
  destruct Hok as [Ht Hok]. cbn [fmap list_fmap schedule]. intros (p1 & E1 & E)%bind_Some.
  destruct (late_turn i p0 p p1 Hs Hin Ht Hp E1) as (Hs1 & Hf1 & Hp1).
  destruct (IH p0 p1 p' Hs1) as [Hf Hp']; [|by apply Hok|done|done|].
  - destruct Hf1 as (Ef & Es & _). unfold in_file. by rewrite Ef, Es.
  - split; [by etrans|done].
Qed.

Lemma careful_start p p1 : (∀ i t, goroutines p !! i = Some t → careful t) → goroutines p1 = goroutines p → no_promise_since p p1.
Proof.
  intros Hc E i t Hi. rewrite E in Hi. specialize (Hc i t Hi). destruct t as [x|A c k|ready t].
  - right. by exists x.
  - left. apply Hc.
  - left. apply Hc.
Qed.
End Closed.

(** Before the close, goroutines stay careful. *)
Lemma careful_schedule `{Json} `{Ranging} (envs : nat → wenv) mvs : ∀ p p',
  (∀ i t, goroutines p !! i = Some t → careful t) → (∀ env, Arrive (PostCompact env) ∉ mvs) →
  schedule envs mvs p = Some p' → ∀ i t, goroutines p' !! i = Some t → careful t.
Proof.
  induction mvs as [|mv mvs IH]; intros p p' Hc Hn; [by intros [= <-]|]. cbn [schedule]. intros (p1 & E1 & E)%bind_Some.
  apply (IH p1 p'); [|by intros env ?%(list_elem_of_further _ mv)%Hn|done]. clear IH E.
  assert (∀ M t, careful t → ∀ i t', goroutines (Pool M (goroutines p ++ [t])) !! i = Some t' → careful t') as Hsnoc.
  { intros M t Ht i t'. simpl. intros [Hi|(_ & [_ <-]%list_lookup_singleton_Some)]%lookup_app_Some; [by eapply Hc|done]. }
  destruct mv as [r|now|sync|i].
  - injection E1 as <-. apply Hsnoc, serve_sure. intros env ->. apply (Hn env). by left.
  - injection E1 as <-. apply Hsnoc, pump_sure.
  - by injection E1 as <-.
  - cbn [move_pool] in E1. apply bind_Some in E1 as (t & Hi & E1). specialize (Hc i t Hi) as Ht.
    destruct (take_turn envs t (shared p)) as [| | |M u] eqn:Et; try done. injection E1 as <-. simpl. intros j t'.
    intros [(_ & -> & _)|[_ Hj]]%list_lookup_insert_Some; [|by eapply Hc].
    destruct t as [x|A c k|ready t]; simpl in Et; [done| |].
    + destruct (perform envs c (shared p)) as [[M' a]|]; [|done]. injection Et as _ <-. apply Ht.
    + destruct (ready (shared p)); [|done]. injection Et as _ <-. apply Ht.
Qed.
