(* ===== verification/Cuts.v ===== *)
(** * Sections the close falls into

    A section that writes several records gives the log's lock up between them,
    and [Close] may take it there: the first records are in the file, the next one
    is refused.  Only a receive, a tick of the pump and a replay of the dead
    letters write more than one.  Such a section promises nothing, and what it
    wrote cannot lose a message: it is one more call whose writes fail, in the
    sense of [FaultRun.v]. *)

From Stdlib Require Import Strings.Byte.
From S2P Require Import Prelude ContainerHeap Msg Heaps LogStore Queue QueueInv QueueSpec QueueOps QueueReceive Calls Effects History Receive Encoding Wal WalOps Manager ManagerOps CompactOps ReplayOps ManagerRun Faults FaultRun Api ApiOps Server ServerOps Shutdown Threads ThreadOps ThreadRun Late.

Implicit Types (q : Queue) (M : Manager) (n : string) (t : handler) (p : pool).

(** ** What is asked of the environment *)

(** The times a call writes can be written. *)
Definition datable (k : call) : Prop :=
  match k with
  | CTryReceive _ vis now _ =>
      json_time now = true ∧ json_time (Add now 0) = true ∧ json_time (Add now vis) = true
  | CTick now => json_time now = true ∧ json_time (Add now 0) = true
  | CReplayDLQ now => json_time now = true
  | _ => True
  end.

Definition cut_ok (i : nat) p : Prop :=
  match goroutines p !! i with
  | Some (Do c _) => permitted c (shared p) ∧
      match c with COn _ m => ∀ k, as_call m = Some k → datable k | _ => True end
  | _ => True
  end.

(** Deciding it, for concrete pools. *)
Definition datableb (k : call) : bool :=
  match k with
  | CTryReceive _ vis now _ => json_time now && json_time (Add now 0) && json_time (Add now vis)
  | CTick now => json_time now && json_time (Add now 0)
  | CReplayDLQ now => json_time now
  | _ => true
  end.

Definition cut_okb (i : nat) p : bool :=
  turn_okb (Go i) p &&
  match goroutines p !! i with
  | Some (Do (COn _ m) _) => match as_call m with Some k => datableb k | None => true end
  | _ => true
  end.

Lemma datableb_ok k : datableb k = true → datable k.
Proof. destruct k; simpl; rewrite ?andb_true_iff; tauto. Qed.

Lemma cut_okb_ok i p : cut_okb i p = true → cut_ok i p.
Proof.
  intros [Ht%turn_okb_ok Hd]%andb_true_iff. unfold cut_ok. simpl in Ht, Hd.
  destruct (goroutines p !! i) as [[x|A c k|]|]; [done| |done..]. split; [done|].
  destruct c; try done. intros k' Hk. rewrite Hk in Hd. by apply datableb_ok.
Qed.

Fixpoint cuts_ok `{Json} `{Ranging} (envs : nat → wenv) (cuts : list (nat * nat)) p : Prop :=
  match cuts with
  | [] => True
  | (i, j) :: cuts => cut_ok i p ∧ ∀ p', cut_turn envs i j p = Some p' → cuts_ok envs cuts p'
  end.

(** ** How much a section writes *)

(** The methods that may write more than one record. *)
Definition batch {A} (m : method A) : bool :=
  match m with MTryReceive _ _ _ _ | MTick _ | MReplayDLQ _ => true | _ => false end.

Section Counting.
Context `{Json} `{Ranging} (envs : nat → wenv).
#[local] Instance count_log : Log wlog := wal_log envs.

Lemma write_counted r d l l' e : write r d l = (l', e) → wl_step l' = S (wl_step l).
Proof. simpl. destruct (wal_write _ _ _ _) as [w x]. by intros [= <- _]. Qed.

Lemma invoke_one {A} (m : method A) q l q' l' a :
  batch m = false → invoke envs m q l = Some (q', l', a) → (wl_step l' <= S (wl_step l))%nat.
Proof.
  destruct m; intros Hb; try discriminate Hb; cbn [invoke]; change (thread_log envs) with count_log.
  - unfold Enqueue. destruct (_ && _); [intros [= _ <- _]; lia|].
    destruct (AppendSync _ l) as [l1 [x|]] eqn:E; apply write_counted in E; [intros [= _ <- _]; lia|].
    intros E'. repeat (apply bind_Some in E' as (? & _ & E')). injection E' as _ <- _. lia.
  - unfold Ack. destruct (leases q !! receipt); [|intros [= _ <- _]; lia]. intros (m & _ & E')%bind_Some.
    destruct (AppendSync _ l) as [l1 [x|]] eqn:E; apply write_counted in E; [injection E' as _ <- _; lia|].
    apply bind_Some in E' as (q1 & _ & [= _ <- _]). lia.
  - intros ([q1 r] & _ & [= _ <- _])%bind_Some. lia.
  - unfold Nack. destruct (leases q !! receipt); [|intros [= _ <- _]; lia].
    intros (m & _ & (q1 & _ & (q2 & _ & (q3 & _ & ([[q4 l4] e] & E & E')%bind_Some)%bind_Some)%bind_Some)%bind_Some)%bind_Some.
    assert (l' = l4) as -> by (destruct e; by injection E' as _ -> _). clear E'.
    unfold retryLocked in E. apply bind_Some in E as (m1 & _ & E). destruct (_ && _).
    + destruct (AppendSync _ l) as [l1 [x|]] eqn:Ew; apply write_counted in Ew.
      * apply bind_Some in E as (q5 & _ & (q6 & _ & [= _ <- _])%bind_Some). lia.
      * injection E as _ <- _. lia.
    + apply bind_Some in E as (q5 & _ & (s & _ & E)%bind_Some).
      destruct (AppendSync _ l) as [l1 [x|]] eqn:Ew; apply write_counted in Ew.
      * injection E as _ <- _. lia.
      * apply bind_Some in E as (q6 & _ & [= _ <- _]). lia.
  - intros (s & _ & [= _ <- _])%bind_Some. lia.
Qed.

(** A section that writes more is a method of a queue. *)
Lemma perform_one {A} (c : crit A) M M' a :
  perform envs c M = Some (M', a) → (S (wl_step (wal M)) < wl_step (wal M'))%nat →
  match c with COn _ m => batch m = true | _ => False end.
Proof.
  intros E Hw. destruct c as [n A m|n|cfg| | |n from since env|env|]; cbn [perform] in E;
    try (injection E as <- _; lia).
  - unfold on_queue in E. apply bind_Some in E as (q & _ & ([[q' l'] b] & E & [= <- _])%bind_Some).
    destruct (batch m) eqn:Hb; [done|]. apply invoke_one in E; [|done]. simpl in Hw. lia.
  - injection E as E. unfold Create in E. change (manager_log envs) with count_log in E.
    case_bool_decide; [injection E as <- _; lia|]. destruct (containsAny _ _); [injection E as <- _; lia|].
    destruct (_ && _); [injection E as <- _; lia|]. destruct (queues M !! _); [injection E as <- _; lia|].
    destruct (AppendSync _ (wal M)) as [l1 [x|]] eqn:Ew; apply write_counted in Ew; injection E as <- _; simpl in Hw; lia.
  - apply bind_Some in E as ([[w f] e] & _ & [= <- _]). simpl in Hw. lia.
  - unfold CompactAll in E. apply bind_Some in E as (live & _ & E). destruct (Compact _ _ _) as [w e].
    injection E as <- _. simpl in Hw. lia.
Qed.
End Counting.

(** ** A section cut short *)

Section Cut.
Context `{JsonLaws} `{RangingLaws} (envs : nat → wenv) (k0 : nat).
#[local] Instance cut_log : Log wlog := wal_log (cut_env envs k0).

(** A write that succeeds comes before the close. *)
Lemma write_in_time r d l l' : write r d l = (l', None) → (wl_step l' <= k0)%nat.
Proof.
  intros E. pose proof (write_counted (cut_env envs k0) r d l l' None E) as Hs.
  destruct (decide (wl_step l < k0)%nat) as [|Hge]; [lia|]. exfalso. simpl in E. unfold wal_write, cut_env in E.
  rewrite (proj2 (Nat.ltb_ge (wl_step l) k0)) in E by lia. cbn [after_close we_now we_write we_sync] in E.
  destruct (encode _); [|discriminate E]. destruct (WAL.failed _); discriminate E.
Qed.

Lemma leases_in_time vis now rnd q picked : ∀ i l l' ls,
  log_leases picked i now vis rnd q l = Some (l', Ok ls) → picked = [] ∨ (wl_step l' <= k0)%nat.
Proof.
  induction picked as [|x picked IH]; intros i l l' ls; [by left|]. cbn [log_leases].
  intros (m & _ & E)%bind_Some. destruct (Append _ l) as [l1 [e|]] eqn:Ew; [done|]. apply write_in_time in Ew.
  apply bind_Some in E as ([l2 [ls'|e]] & E & E'); [|done]. injection E' as <- _. right.
  destruct (IH _ _ _ _ E) as [->|Hle]; [|done]. by injection E as <- _.
Qed.

Lemma replays_in_time now l : ∀ k q w q' w' cnt,
  replay_loop l now k q w = Some (q', w', (cnt, None)) → l = [] ∧ cnt = k ∨ (wl_step w' <= k0)%nat.
Proof.
  induction l as [|x l IH]; intros k q w q' w' cnt; cbn [replay_loop]; [intros [= _ _ <-]; by left|].
  intros (m & _ & E)%bind_Some. destruct (AppendSync _ w) as [w1 [e|]] eqn:Ew; [done|]. apply write_in_time in Ew.
  apply bind_Some in E as (q1 & _ & (q2 & _ & (q3 & _ & E)%bind_Some)%bind_Some). right.
  destruct (IH _ _ _ _ _ _ E) as [[-> _]|Hle]; [|done]. cbn [replay_loop] in E. by injection E as _ <- _.
Qed.

(** What a cut section returns promises nothing. *)
Lemma invoke_cut {A} (m : method A) q l q' l' a :
  batch m = true → invoke (cut_env envs k0) m q l = Some (q', l', a) → (k0 < wl_step l')%nat → refused m a.
Proof.
  destruct m; intros Hb; try discriminate Hb; cbn [invoke refused];
    change (thread_log (cut_env envs k0)) with cut_log; [|..|done].
  - unfold tryReceive. intros ([q1 l1] & _ & ([picked q2] & _ & E)%bind_Some)%bind_Some Hl.
    case_bool_decide; [by injection E as _ _ <-|]. apply bind_Some in E as ([l2 r] & El & E).
    destruct r as [ls|err]; [|apply bind_Some in E as (q3 & _ & [= _ _ <-]); done].
    apply bind_Some in E as ([out q3] & _ & [= _ <- _]). destruct (leases_in_time _ _ _ _ _ _ _ _ _ El); [done|lia].
  - unfold ReplayDLQ. intros E Hl. destruct a as [cnt [e|]]; [done|]. intros _.
    destruct (replays_in_time _ _ _ _ _ _ _ _ E) as [[_ ->]|?]; [done|lia].
Qed.
End Cut.

(** ** A cut turn *)

(** What [Close] and the late handlers need of the log. *)
Definition closable `{Json} M : Prop :=
  (∃ bodies rs, log_is (wl_wal (wal M)) bodies rs) ∧ in_service M.

Section Turns.
Context `{JsonLaws} `{RangingLaws} (envs : nat → wenv).

Lemma exec_logged k q (l : wlog) q' l' r :
  wf q → admissible k q → exec (H := wal_log envs) k q l = Some (q', l', r) →
  (∃ bodies rs, log_is (wl_wal l) bodies rs) → ∃ bodies rs, log_is (wl_wal l') bodies rs.
Proof.
  intros Hwf Hk E Hl. destruct (exec_ok (H := wal_log envs) k q l Hwf Hk) as (q1 & l1 & r1 & E1 & _ & _ & Hst).
  rewrite E in E1. injection E1 as <- <- <-.
  specialize (Hst anything (serves_anything _ _) (reports_anything _ _ _ _)).
  apply (asteps_log (cfg q) anything (λ w, ∃ bodies rs, log_is (wl_wal w) bodies rs) _ _) in Hst; [done| |done].
  intros rec d w w' e (bodies & rs & Hli). simpl.
  pose proof (wal_write_cases rec d (envs (wl_step w)) (wl_wal w) bodies rs Hli) as Hc. cbv zeta in Hc.
  destruct (wal_write _ _ _ _) as [w1 e1]. intros [= <- _]. simpl.
  destruct Hc as [[_ Hc]|(b & r' & _ & _ & Hc & _)]; eauto.
Qed.

End Turns.

Section CutTurns.
Context `{JsonLaws} `{RangingLaws} (envs : nat → wenv).

(** What a log holds does not depend on the answers to come. *)
Lemma enduring_env envs' n0 id body M : enduring envs n0 id body M → enduring envs' n0 id body M.
Proof. intros [Hl Hp Hq Hu]. split; [exact Hl|exact Hp|exact Hq|exact Hu]. Qed.
End CutTurns.

Section CutTurn.
Context `{JsonLaws} `{RangingLaws} (envs : nat → wenv).

(** What a cut leaves. *)
Record left_by_cut p0 p p' : Prop := {
  lc_sound : sound (shared p');
  lc_closable : closable (shared p');
  lc_promises : no_promise_since p0 p';
  lc_later : later (shared p) (shared p');
  lc_enduring n0 id body : enduring envs n0 id body (shared p) → enduring envs n0 id body (shared p');
}.

Lemma cut_turn_ok i j p0 p p' :
  sound (shared p) → closable (shared p) → cut_ok i p → no_promise_since p0 p →
  cut_turn envs i j p = Some p' → left_by_cut p0 p p'.
Proof.
  intros Hs Hcl Hok Hp. unfold cut_turn. set (k0 := (_ + j)%nat). intros (p1 & E & E')%bind_Some.
  destruct ((0 <? j)%nat && (k0 <? wl_step (wal (shared p1)))%nat) eqn:Hj; [|done]. injection E' as ->.
  apply andb_true_iff in Hj as [Hj%Nat.ltb_lt Hk0%Nat.ltb_lt].
  destruct (go_inv _ _ _ _ E) as [(A & c & k & M & a & Hi & Ep & ->)|(ready & t & Hi & _ & ->)]; cbn [shared] in *;
    [|exfalso; unfold k0 in Hk0; lia].
  pose proof (perform_one (cut_env envs k0) c _ _ _ Ep ltac:(unfold k0 in Hk0; lia)) as Hb.
  unfold cut_ok in Hok. rewrite Hi in Hok. destruct Hok as [Hperm Hdate].
  destruct c as [n A m|n|cfg| | |n from since env|env|]; try done.
  pose proof (perform_sound (cut_env envs k0) _ _ _ _ Hs Hperm Ep) as Hs'.
  pose proof (perform_later (cut_env envs k0) _ _ _ _ Ep) as Hl.
  cbn [perform] in Ep. unfold on_queue in Ep. apply bind_Some in Ep as (q & Hq & ([[q' l'] b] & Ei & [= <- <-])%bind_Some).
  assert (∃ call, as_call m = Some call) as [call Hcall] by (by destruct m; try discriminate Hb; eexists).
  pose proof (Hperm q call Hq Hcall) as Hadm. destruct (Hs n q Hq) as [Hwf _].
  pose proof (exec_invoke (cut_env envs k0) m call q (wal (shared p)) Hcall) as Ex. rewrite Ei in Ex. simpl in Ex.
  change (pool_log (cut_env envs k0)) with (wal_log (cut_env envs k0)) in Ex.
  destruct Hcl as [Hlog [Hclosed Hhandle]]. split; cbn [shared].
  - done.
  - split; [by eapply (exec_logged (cut_env envs k0) call)|]. split; [done|]. by eapply (exec_handle (cut_env envs k0) call).
  - assert (refused m b) as Hr by by (eapply (invoke_cut envs k0 m); [exact Hb|exact Ei|exact Hk0]).
    intros i' t' Hi'. simpl in Hi'. apply list_lookup_insert_Some in Hi' as [(<- & <- & _)|[_ Hi']]; [left|by apply Hp].
    destruct (Hp i _ Hi) as [[_ Hw]|(x & [=] & _)]. by apply Hw.
  - done.
  - intros n0 id body He. apply (enduring_env (cut_env envs k0)).
    eapply (enduring_call (cut_env envs k0) n0 id body _ n call q); [by apply enduring_env with envs|done|done| |exact Ex].
    specialize (Hdate call Hcall). by destruct m; try discriminate Hb; injection Hcall as <-.
Qed.

(** The cuts one after the other. *)
Lemma cut_turns_ok p0 cuts : ∀ p p',
  sound (shared p) → closable (shared p) → cuts_ok envs cuts p → no_promise_since p0 p →
  cut_turns envs cuts p = Some p' → left_by_cut p0 p p'.
Proof.
  induction cuts as [|[i j] cuts IH]; intros p p' Hs Hcl Hok Hp; cbn [cut_turns].
  - intros [= <-]. by split.
  - destruct Hok as [Hc Hok]. intros (p1 & E1 & E)%bind_Some.
    destruct (cut_turn_ok i j p0 p p1 Hs Hcl Hc Hp E1) as [Hs1 Hcl1 Hp1 Hl1 He1].
    destruct (IH p1 p' Hs1 Hcl1 (Hok p1 E1) Hp1 E) as [Hs' Hcl' Hp' Hl' He'].
    split; [done..|by etrans|]. intros n0 id body He. by apply He', He1.
Qed.
End CutTurn.

(** ** The restart after it *)

Section Reopen.
Context `{JsonLaws} `{RangingLaws} (envs : nat → wenv).

(** The same bytes at the same path, with the same end of the log. *)
Definition same_bytes (w w' : WAL) : Prop :=
  cache (WAL.f w') = cache (WAL.f w) ∧ WAL.size w' = WAL.size w ∧ WAL.orphan w' = WAL.orphan w.

#[export] Instance same_bytes_trans : Transitive same_bytes.
Proof. intros w1 w2 w3 (? & ? & ?) (? & ? & ?). split_and!; congruence. Qed.

Lemma same_file_bytes w w' : same_file w w' → same_bytes w w'.
Proof. intros (E & ? & ?). split_and!; [by rewrite E|done..]. Qed.

(** A restart looks at the log only. *)
Lemma restart_wal M G cut sy tick now M' :
  wal M = wal G → mexec envs (MRestart cut sy tick now) G = Some (M', MDone None) →
  mexec envs (MRestart cut sy tick now) M = Some (M', MDone None).
Proof.
  intros E. simpl. unfold in_path. rewrite E. destruct (Open _ _ _ _) as [[M1|e]|]; simpl; [|done..].
  by intros [= <-].
Qed.

(** The manager [M] with the log of [M']. *)
Definition with_log_of M M' : Manager := set_log (wal M') M.

Lemma enduring_bytes n0 id body M M' :
  enduring envs n0 id body M → same_bytes (wl_wal (wal M)) (wl_wal (wal M')) →
  enduring envs n0 id body (with_log_of M M').
Proof.
  intros [Hl Hp Hq Hu] (Ec & Es & Eo). destruct Hl as (bodies & rs & Hli).
  assert (log_is (wl_wal (wal M')) bodies rs) as Hli' by by eapply log_is_ext.
  assert (contents (wl_wal (wal M')) = contents (wl_wal (wal M))) as El.
  { transitivity (WalOps.delivered rs); [|symmetry]; by apply contents_is with bodies. }
  split; simpl; [by exists bodies, rs|congruence|..]; by rewrite El.
Qed.

Lemma healthy_bytes T M M' :
  healthy envs T M → same_bytes (wl_wal (wal M)) (wl_wal (wal M')) → healthy envs T (with_log_of M M').
Proof. intros Hh (Ec & Es & Eo). by apply (healthy_same_log envs T M). Qed.
End Reopen.
