(* ===== verification/LateProps.v ===== *)
(** * Properties of a forced stop

    What is left when [main] stops waiting for its handlers: the next process
    finds what was there when the log was closed, and no handler that goes on
    after that tells its client otherwise.  It may well tell the client less. *)

From Stdlib Require Import Strings.Byte.
From S2P Require Import Prelude ContainerHeap Msg Heaps LogStore Queue QueueInv QueueSpec QueueOps Calls Receive Encoding Wal WalOps WireCodec Manager Recovery ManagerOps ManagerRun Faults FaultRun Api ApiOps Server ServerOps Shutdown Threads ThreadOps ThreadRun ThreadProps Late Cuts.
Import (hints) WireCodec.

Implicit Types (q : Queue) (M : Manager) (n : string) (t : handler) (p : pool).

#[local] Existing Instances as_listed as_listed_laws.

(** C10: a forced stop loses nothing and takes nothing back.  Let a session
    without failures and without a pending compaction end in a drain that times
    out, handlers still running; let the close of the log fall where it may -
    between two sections or, for any of them ([cuts]), between two records of one -
    with any answer of its sync and close and any turns of the handlers after it.
    Then the error is the sync's or else the close's; the next process finds the
    bytes that were in the file at the close, on the disk if the sync succeeded;
    every message a queue held is in its queue again, body and all, unless what a
    failed write of a cut section left there begins with a whole record; and when
    the close fell into no section, the next process has exactly the queues of that
    moment, the leases apart.  And every answer that promises something - a message
    accepted, handed out, acknowledged or put back, a queue created - had been
    given before the close. *)
Theorem forced_stop_loses_nothing `{JsonLaws} `{RangingLaws} (envs : nat → wenv)
    drain cuts sync close late p p1 pc p2 T T' e sy tick now :
  pool_ok envs p → (∀ i t, goroutines p !! i = Some t → careful t) → (∀ env, Arrive (PostCompact env) ∉ drain) →
  along envs turn_ok drain p → schedule envs drain p = Some p1 → mreach envs T (shared p1) →
  (∀ n, T ≤ now n ≤ T') → cuts_ok envs cuts p1 → cut_turns envs cuts p1 = Some pc →
  along (after_close envs) turn_ok (Go <$> late) (Pool (CloseAll sync close (shared pc)).1 (goroutines pc)) →
  stop_pool envs drain cuts sync close late p = Some (p2, e) →
  let restart := mexec envs (MRestart [] sy tick now) (shared p2) in
  e = match sync with Some x => Some x | None => close end ∧
  in_path (shared p2) [] = cache (WAL.f (wl_wal (wal (shared pc)))) ∧
  (sync = None → disk (WAL.at_path (wl_wal (wal (shared p2)))) = in_path (shared p2) []) ∧
  (torn (behind (shared p2) []) → ∀ n q x P m, queues (shared p1) !! n = Some q → abs q !! x = Some (P, m) →
     ∃ M3 q3 y P' v, restart = Some (M3, MDone None) ∧ queues M3 !! n = Some q3 ∧ wf q3 ∧
       abs q3 !! y = Some (P', v) ∧ Msg.ID v = Msg.ID m ∧ Msg.Body v = Msg.Body m) ∧
  (cuts = [] → ∃ M3, restart = Some (M3, MDone None) ∧ manager_reborn now (shared p1) M3) ∧
  ∀ i r, goroutines p2 !! i = Some (Done (Some r)) → promises r = true → goroutines p1 !! i = Some (Done (Some r)).
Proof.
  intros Hp Hc Hn Hok E1 Hr Hnow Hcuts Ec Hlate E. pose proof (mreach_healthy _ _ _ Hr) as Hh.
  destruct (schedule_ok envs drain p p1 Hp Hok E1) as (Hp1 & _).
  pose proof (careful_schedule envs drain p p1 Hc Hn E1) as Hc1.
  destruct (cut_turns_ok envs p1 cuts p1 pc) as [Hsc [(bodies & rs & Hli) Hservice] Hpc Hlc Hec]; try done.
  { apply Hp1. }
  { split; [apply (hy_log _ _ _ Hh)|by eapply mreach_service]. }
  { by apply careful_start. }
  destruct (CloseAll_file sync close (shared pc) Hservice) as (M2 & E2 & Eq & Eca & Edi & Es & Eo).
  unfold stop_pool in E. rewrite E1 in E. cbn [mbind option_bind] in E. rewrite Ec in E. cbn [mbind option_bind] in E.
  rewrite E2 in E, Hlate. cbn [fst] in Hlate. apply bind_Some in E as (p3 & E3 & [= -> <-]).
  assert (in_file (wl_wal (wal M2))) as Hin.
  { unfold in_file. rewrite Eca, Es, (li_size _ _ _ Hli). pose proof (li_length _ _ _ Hli). lia. }
  destruct (late_turns envs late p1 (Pool M2 (goroutines pc)) p2) as (Hf2 & Hno); [|done..|].
  { by eapply sound_queues. }
  cbn [shared] in Hf2. pose proof Hf2 as (Ef2 & Es2 & Eo2).
  assert (same_bytes (wl_wal (wal (shared pc))) (wl_wal (wal (shared p2)))) as Hsame.
  { etrans; [|by apply same_file_bytes]. split_and!; [done..|]. by rewrite Eo, (proj2 (proj2 Hservice)). }
  assert (in_path (shared p2) [] = cache (WAL.f (wl_wal (wal (shared pc))))) as Epath.
  { unfold in_path. destruct Hsame as (-> & -> & ->). rewrite (proj2 (proj2 Hservice)).
    rewrite (li_size _ _ _ Hli), Nat2Z.id. apply overwrite_nothing. by eapply li_length. }
  split; [done|]. split; [done|]. split; [|split; [|split]].
  - intros Hsy. rewrite Epath. unfold WAL.at_path. rewrite Ef2, Eo2, Eo. by apply Edi.
  - intros Ht n q x P m Hq Hx. set (id := Msg.ID m). set (body := Msg.Body m).
    pose proof (enduring_start envs n id body T (shared p1) q x P m Hh Hq Hx eq_refl eq_refl) as H1'.
    pose proof (enduring_bytes envs n id body _ (shared p2) (Hec n id body H1') Hsame) as H2'.
    destruct (Hlc n (mk_is_Some _ _ Hq)) as [qc Hqc].
    destruct (enduring_restart envs n id body (with_log_of (shared pc) (shared p2)) [] sy tick now qc H2' Ht Hqc)
      as (M3 & q3 & E3' & Hq3 & Hwf3 & y & P' & v & Hy & Ei & Eb).
    exists M3, q3, y, P', v. split; [|done]. by eapply restart_wal; [|exact E3'].
  - intros ->. injection Ec as <-. pose proof (healthy_bytes envs T _ (shared p2) Hh Hsame) as H2'.
    destruct (restart_ok envs T T' _ [] sy tick now H2' torn_nil Hnow) as (M3 & E3' & _ & Hre & _).
    exists M3. split; [|exact Hre]. by eapply restart_wal; [|exact E3'].
  - intros i r Hi Hpr. destruct (Hno i _ Hi) as [Hw|(x & _ & Hx)]; [|done]. simpl in Hw. congruence.
Qed.

(** Two messages are in the queue, a poll asks for both and a third message has
    been accepted; the close falls between the two leases of the poll. *)
Definition two_ready : list (Time * mcall) :=
  [(10, MCreate (Config.Mk "q" FIFO false 3 0));
   (10, MCall "q" (CEnqueue "a" 0 0 10 (two_of 1)));
   (10, MCall "q" (CEnqueue "b" 0 0 10 (two_of 2)))].
Definition polling_two : list move :=
  [Arrive (PostReceive "q" (Decoded (ReceiveReq 2 0 0)) 20 [Round 20 (λ k, two_of (40 + k)) 20 [] TimedOut 20] false);
   Arrive (an_enqueue "c" 7); Go 0; Go 1; Go 1].
Definition M_cut : Manager := built (two_ready ++ [(20, MCall "q" (CEnqueue "c" 0 0 20 (two_of 7)))]).

Lemma M_cut_reach : mreach good_disk 20 M_cut.
Proof.
  unfold M_cut, built. destruct (mrun good_disk _ 0 M_void) as [[T M]|] eqn:E; [|vm_compute in E; discriminate E].
  assert (T = 20) as -> by (vm_compute in E; injection E as <- _; reflexivity).
  exact (mrun_reach good_disk _ 0 M_void 20 M M_void_reach E).
Qed.

(** The answers so far. *)
Definition statuses p : list Z := (λ t, match t with Done (Some r) => status r | _ => 0 end) <$> goroutines p.

(** The message of queue [n] with this identifier. *)
Definition found_in n id M : option (Queue * (loc * (place * Msg))) :=
  q ← queues M !! n; v ← list_find (λ v, Msg.ID v.2.2 = id) (map_to_list (abs q)); Some (q, v.2).

Lemma found_in_abs n id M q x P m :
  found_in n id M = Some (q, (x, (P, m))) → queues M !! n = Some q ∧ abs q !! x = Some (P, m) ∧ Msg.ID m = id.
Proof.
  unfold found_in. intros (q' & -> & ([k v] & Hf & [= -> ->])%bind_Some)%bind_Some.
  apply list_find_Some in Hf as (Hi & He & _). split; [done|]. split; [|done].
  by eapply elem_of_map_to_list, list_elem_of_lookup_2.
Qed.

(** The poll is answered with 500 and has handed out nothing, the accepted message
    has its 201 and is there after the restart.  The lease that had been written
    counts as an attempt from then on, which it never did in memory. *)
Lemma forced_stop_loses_nothing_witness :
  ∃ p1 p2 M3 q3 y P v, schedule good_disk polling_two (Pool (built two_ready) []) = Some p1 ∧ statuses p1 = [0; 201] ∧
    stop_pool good_disk polling_two [(0, 1)%nat] None None [] (Pool (built two_ready) []) = Some (p2, None) ∧
    statuses p2 = [500; 201] ∧
    mexec good_disk (MRestart [] 0 0 (λ _, 60)) (shared p2) = Some (M3, MDone None) ∧
    queues M3 !! "q" = Some q3 ∧ abs q3 !! y = Some (P, v) ∧ Msg.ID v = newID (two_of 7) ∧
    (Msg.Attempts ∘ snd ∘ snd ∘ snd) <$> found_in "q" (newID (two_of 1)) (shared p2) = Some 0 ∧
    (Msg.Attempts ∘ snd ∘ snd ∘ snd) <$> found_in "q" (newID (two_of 1)) M3 = Some 1.
Proof.
  set (p0 := Pool (built two_ready) []). set (cuts := [(0, 1)%nat]).
  destruct (schedule good_disk polling_two p0) as [p1|] eqn:E1; [|vm_compute in E1; discriminate E1].
  destruct (cut_turns good_disk cuts p1) as [pc|] eqn:Ec;
    [|exfalso; assert ((schedule good_disk polling_two p0 ≫= cut_turns good_disk cuts) = None) as Hx by (by rewrite E1);
      vm_compute in Hx; discriminate Hx].
  destruct (stop_pool good_disk polling_two cuts None None [] p0) as [[p2 e]|] eqn:E;
    [|vm_compute in E; discriminate E].
  assert (((λ p, (shared p, statuses p)) <$> schedule good_disk polling_two p0) = Some (M_cut, [0; 201])) as Es
    by (vm_compute; reflexivity).
  rewrite E1 in Es. apply (inj Some), pair_equal_spec in Es as [Em Es].
  assert (((λ v, (statuses v.1, v.2, (Msg.Attempts ∘ snd ∘ snd ∘ snd) <$> found_in "q" (newID (two_of 1)) (shared v.1),
      behind (shared v.1) [],
      r ← mexec good_disk (MRestart [] 0 0 (λ _, 60)) (shared v.1);
      (Msg.Attempts ∘ snd ∘ snd ∘ snd) <$> found_in "q" (newID (two_of 1)) r.1)) <$>
    stop_pool good_disk polling_two cuts None None [] p0) = Some ([500; 201], None, Some 0, [], Some 1)) as Es2
    by (vm_compute; reflexivity).
  rewrite E in Es2. apply (inj Some) in Es2. cbn [fst snd] in Es2.
  apply pair_equal_spec in Es2 as [[[[Es2 He]%pair_equal_spec Ea]%pair_equal_spec Hb]%pair_equal_spec Ea3].
  destruct (found_in "q" (newID (two_of 7)) M_cut) as [[q [x [P m]]]|] eqn:Ef; [|vm_compute in Ef; discriminate Ef].
  apply found_in_abs in Ef as (Hq & Hx & Hid).
  destruct (forced_stop_loses_nothing good_disk polling_two cuts None None [] p0 p1 pc p2 20 60 e 0 0 (λ _, 60))
    as (_ & _ & _ & Hkept & _).
  - split; [apply built_sound|]. intros i t Hi. discriminate Hi.
  - intros i t Hi. discriminate Hi.
  - intros env. unfold polling_two. rewrite !not_elem_of_cons. split_and!; [discriminate..|apply not_elem_of_nil].
  - apply (alongb_ok good_disk _ turn_okb); [apply turn_okb_ok|vm_compute; reflexivity].
  - exact E1.
  - rewrite Em. exact M_cut_reach.
  - intros _. lia.
  - split; [|done]. apply cut_okb_ok.
    assert ((cut_okb 0 <$> schedule good_disk polling_two p0) = Some true) as Hk by (vm_compute; reflexivity).
    rewrite E1 in Hk. by apply (inj Some) in Hk.
  - exact Ec.
  - exact I.
  - exact E.
  - rewrite <- Em in Hq. destruct (Hkept ltac:(rewrite Hb; exact torn_nil) "q" q x P m Hq Hx)
      as (M3 & q3 & y & P' & v & E3 & Hq3 & _ & Hy & Hv & _).
    rewrite E3 in Ea3. rewrite Hid in Hv. rewrite He in E. subst e.
    exists p1, p2, M3, q3, y, P', v. split_and!; [reflexivity|exact Es|reflexivity|exact Es2|exact E3|exact Hq3|exact Hy|exact Hv|exact Ea|exact Ea3].
Defined.

(** An ack has looked its queue up when the log is closed.  It is answered with
    500, and the work it was for is there again after the restart, counted as an
    attempt: what the comment in [main] wants to avoid. *)
Definition acking : list move :=
  [Arrive (PostAck "q" (Decoded (AckReq (newID (two_of 0))))); Arrive (an_enqueue "b" 7); Go 0; Go 1; Go 1].

Example late_ack_is_refused :
  (v ← stop_pool good_disk acking [] None None [0%nat] (Pool (built leased_a) []);
   r ← mexec good_disk (MRestart [] 0 0 (λ _, 60)) (shared v.1);
   Some (statuses v.1, (λ w, (w.2.2.1, Msg.Attempts w.2.2.2)) <$> found_in "q" (newID (two_of 1)) r.1)) =
  Some ([500; 201], Some (In HReady, 1)).
Proof. vm_compute. reflexivity. Qed.
