(* ===== verification/Demo.v ===== *)
(** * cmd/demo: a client of the server

    The demonstration program talks to the server over HTTP and prints what it
    is told.  Here it is a tree of what it does ([client]), run against the
    handlers of [Api.v].  What the environment does is a tape, one entry for
    each request: what else happened on the server before it, the clock and the
    random bytes the handler reads, and, while the workers of section 7 run,
    which of them goes next.  Narration without a value in it is left out, and
    so are line ends. *)

From Stdlib Require Import Strings.Byte.
From stdpp Require Import pretty.
From S2P Require Import Prelude Msg LogStore Queue Receive Encoding Wal Manager Api Server.

(** ** The client's data *)

Record msg := CMsg { c_ID : string; c_Body : string; c_Priority : Z; c_Seq : Z; c_Attempts : Z; c_Receipt : string }.
Record queueStats := CStats { s_Ready : Z; s_Delayed : Z; s_Inflight : Z; s_DLQ : Z }.

(** The requests it makes; the bodies are maps with the fields they need. *)
Inductive ask :=
  | AskHealth
  | AskQueues (c : Config)
  | AskMessages (q : string) (r : enqueueReq)
  | AskReceive (q : string) (r : receiveReq)
  | AskAck (q : string) (r : ackReq)
  | AskNack (q : string) (r : nackReq)
  | AskExtend (q : string) (r : extendReq)
  | AskReplay (q : string) (r : replayReq)
  | AskStats (q : string)
  | AskBookmark.

(** What is decoded from an answer; anything else leaves the zero value. *)
Definition messages_of (r : reply) : list msg :=
  match payload_of r with
  | PMessages l =>
      (λ m, CMsg (Msg.ID m) (Msg.Body m) (Msg.Priority m) (Msg.Seq m) (Msg.Attempts m) (Msg.Receipt m)) <$> l
  | _ => []
  end.
Definition stats_of (r : reply) : queueStats :=
  match payload_of r with
  | PStats s => CStats (Stats.Ready s) (Stats.Delayed s) (Stats.Inflight s) (Stats.DLQ s)
  | _ => CStats 0 0 0 0
  end.
Definition mark_of (r : reply) : Bookmark.t :=
  match payload_of r with PBookmark b => b | _ => Bookmark.Mk 0 0 end.

(** A printed line: the format and what goes into it. *)
Inductive arg := AStr (s : string) | ANum (n : Z) | ADur (d : Duration).
Record line := Line { format : string; args : list arg }.

(** ** What the program does

    [Crash] is an index out of range.  [Produce] and [Drain] start the workers of
    section 7 on a queue and wait for them. *)
Inductive client :=
  | Finish
  | Exit (code : Z)
  | Crash
  | Say (l : line) (k : client)
  | Sleep (d : Duration) (k : client)
  | Clock (k : Time → client)
  | Ask (a : ask) (k : option reply → client)
  | Produce (fast : string) (k : client)
  | Drain (fast : string) (k : gmap string Z → client).

Definition printf (f : string) (l : list arg) (k : client) : client := Say (Line f l) k.

(** ** The HTTP helpers *)

Definition post (a : ask) (k : reply → client) : client :=
  Ask a (λ r,
    match r with
    | None => Exit 1
    | Some r => if 400 <=? status r then Exit 1 else k r
    end).

Definition getInto (a : ask) (k : reply → client) : client :=
  Ask a (λ r, match r with None => Exit 1 | Some r => k r end).

Definition enqueue (q body : string) (priority delayMS : Z) (k : client) : client :=
  post (AskMessages q (EnqueueReq body priority delayMS)) (λ _, k).
Definition receive (q : string) (max visibilityMS waitMS : Z) (k : list msg → client) : client :=
  post (AskReceive q (ReceiveReq max visibilityMS waitMS)) (λ r, k (messages_of r)).
Definition ack (q receipt : string) (k : client) : client := post (AskAck q (AckReq receipt)) (λ _, k).
Definition nack (q receipt : string) (delayMS : Z) (k : client) : client :=
  post (AskNack q (NackReq receipt delayMS)) (λ _, k).
Definition stats (q : string) (k : queueStats → client) : client := getInto (AskStats q) (λ r, k (stats_of r)).

(** Forty attempts, a tenth of a second apart. *)
Fixpoint waitForServer (tries : nat) (k : bool → client) : client :=
  match tries with
  | O => k false
  | S tries =>
      Ask AskHealth (λ r,
        match r with
        | Some _ => k true
        | None => Sleep (100 * Millisecond) (waitForServer tries k)
        end)
  end.

Fixpoint show_from (i : Z) (msgs : list msg) (k : client) : client :=
  match msgs with
  | [] => k
  | m :: msgs =>
      printf "%d. %-42s priority=%d seq=%d" [ANum i; AStr (c_Body m); ANum (c_Priority m); ANum (c_Seq m)]
        (show_from (i + 1) msgs k)
  end.
Definition show (msgs : list msg) (k : client) : client :=
  match msgs with [] => printf "(nothing available)" [] k | _ => show_from 1 msgs k end.

Fixpoint ack_all (q : string) (msgs : list msg) (k : client) : client :=
  match msgs with [] => k | m :: msgs => ack q (c_Receipt m) (ack_all q msgs k) end.

Definition consume (q : string) (max : Z) (k : client) : client :=
  receive q max 5000 0 (λ msgs, show msgs (ack_all q msgs k)).

Definition section (title : string) (k : client) : client :=
  printf "%s" [AStr title] k.

(** The first message of a batch: [got[0]]. *)
Definition first (msgs : list msg) (k : msg → client) : client :=
  match msgs with [] => Crash | m :: _ => k m end.

(** A line that is printed when nothing was received. *)
Definition if_empty (msgs : list msg) (text : string) (k : client) : client :=
  match msgs with [] => printf text [] k | _ => k end.

(** ** The tour *)

Definition section1 (name : string) (k : client) : client :=
  section "1. Create a delayed priority LIFO queue" (
  post (AskQueues (Config.Mk name "lifo" true 3 1000)) (λ _,
  printf "created %q: mode=lifo priority=on max_attempts=3" [AStr name] k)).

Definition section2 (name : string) (k : client) : client :=
  section "2. Priority outranks arrival order, LIFO breaks the ties" (
  enqueue name "checkout-A (normal)" 1 0 (
  enqueue name "checkout-B (normal)" 1 0 (
  enqueue name "fraud-review (urgent)" 9 0 (
  enqueue name "checkout-C (normal)" 1 0 (
  consume name 10 k))))).

Definition section3 (name : string) (k : client) : client :=
  section "3. Delay is a separate axis, so a high priority message still waits" (
  enqueue name "reminder-email (urgent, delayed 1.5s)" 9 1500 (
  enqueue name "ship-order (normal, immediate)" 1 0 (
  consume name 10 (
  Sleep (1700 * Millisecond) (
  consume name 10 k))))).

(** The heartbeats of the worker that is still alive. *)
Fixpoint heartbeats (name receipt : string) (i : Z) (n : nat) (k : client) : client :=
  match n with
  | O => k
  | S n =>
      Sleep (400 * Millisecond) (
      post (AskExtend name (ExtendReq receipt 600)) (λ _,
      printf "heartbeat %d sent" [ANum i] (heartbeats name receipt (i + 1) n k)))
  end.

Definition section4 (name : string) (k : client) : client :=
  section "4. A consumer that dies mid work does not lose the message" (
  enqueue name "charge-card" 1 0 (
  receive name 1 800 0 (λ got, first got (λ g,
  printf "worker leased %q and then crashed without acking" [AStr (c_Body g)] (
  receive name 1 800 0 (λ empty,
  if_empty empty "while the lease is live, no other worker can take it: confirmed" (
  Sleep (1100 * Millisecond) (
  receive name 1 5000 0 (λ back, first back (λ b,
  printf "redelivered as attempt %d: %q" [ANum (c_Attempts b); AStr (c_Body b)] (
  ack name (c_Receipt b) (
  enqueue name "slow-report" 1 0 (
  receive name 1 600 0 (λ slow, first slow (λ s,
  heartbeats name (c_Receipt s) 1 3 (
  receive name 1 600 0 (λ empty,
  if_empty empty "1.2s past the original 600ms lease and nobody else can take it" (
  ack name (c_Receipt s) k)))))))))))))))))).

(** The loop that fails the same message until it is parked. *)
Fixpoint fail_it (name : string) (n : nat) (k : client) : client :=
  match n with
  | O => k
  | S n =>
      receive name 1 5000 500 (λ msgs,
        match msgs with
        | [] => k
        | m :: _ =>
            printf "attempt %d failed, nacking" [ANum (c_Attempts m)] (
            nack name (c_Receipt m) 0 (fail_it name n k))
        end)
  end.

Definition section5 (name : string) (k : client) : client :=
  section "5. A poison message gives up rather than looping forever" (
  enqueue name "malformed-payload" 1 0 (
  fail_it name 3 (
  stats name (λ s,
  printf "max_attempts reached, so it is parked: dlq=%d ready=%d" [ANum (s_DLQ s); ANum (s_Ready s)] (
  post (AskReplay name (ReplayReq "dlq" 0 0 0)) (λ _,
  stats name (λ s,
  printf "dlq=%d ready=%d" [ANum (s_DLQ s); ANum (s_Ready s)] (
  receive name 1 5000 500 (λ msgs,
    match msgs with [] => k | m :: _ => ack name (c_Receipt m) k end))))))))).

Definition section6 (name : string) (k : client) : client :=
  section "6. Replaying history straight out of the write ahead log" (
  getInto AskBookmark (λ r,
  let mark := mark_of r in
  printf "bookmarking the log at epoch %d byte %d" [ANum (Bookmark.Epoch mark); ANum (Bookmark.Offset mark)] (
  enqueue name "audit-event-1" 1 0 (
  enqueue name "audit-event-2" 1 0 (
  receive name 10 5000 0 (λ msgs, ack_all name msgs (
  post (AskReplay name (ReplayReq "log" (Bookmark.Epoch mark) (Bookmark.Offset mark) 0)) (λ _,
  consume name 10 k)))))))).

Definition workers : nat := 6.
Definition each : nat := 50.

(** [fmt.Sprintf("job-%d-%d", p, i)]. *)
Definition job (p i : nat) : string := "job-" +:+ pretty p +:+ "-" +:+ pretty i.

(** [time.Duration.Round], for what is printed. *)
Definition RoundTo (d m : Duration) : Duration :=
  if m <=? 0 then d
  else
    let r := Z.rem d m in
    if d <? 0 then
      if - r + - r <? m then d - r else if i64 (d - m - r) <? d then i64 (d - m - r) else - two63
    else if r + r <? m then d - r else if d <? i64 (d + m - r) then i64 (d + m - r) else two63 - 1.

(** How many bodies were seen more than once. *)
Definition dupes (seen : gmap string Z) : Z :=
  Z.of_nat (length (filter (λ n, 1 < n) (map_to_list seen).*2)).

Definition section7 (k : client) : client :=
  section "7. Concurrency: 6 workers draining 300 messages" (
  Clock (λ now,
  let fast := "bulk-" +:+ pretty (Z.rem now 100000) in
  post (AskQueues (Config.Mk fast "fifo" false 0 30000)) (λ _,
  Clock (λ start, Produce fast (Clock (λ stop, Clock (λ again, Drain fast (λ seen,
  let distinct := Z.of_nat (size seen) in
  printf "produced 300 in %v (every one fsynced before its 201)" [ADur (RoundTo (Sub stop start) Millisecond)] (
  Clock (λ last,
  printf "consumed %d distinct in %v across 6 workers" [ANum distinct; ADur (RoundTo (Sub last again) Millisecond)] (
  printf "duplicates: %d, lost: %d" [ANum (dupes seen); ANum (300 - distinct)] k))))))))))).

Definition main : client :=
  waitForServer 40 (λ up,
    if up : bool then
      Clock (λ now,
      let name := "orders-" +:+ pretty (Z.rem now 100000) in
      section1 name (section2 name (section3 name (section4 name (section5 name (section6 name (
      section7 (section "Done" Finish))))))))
    else Exit 1).

(** ** Running it *)

(** What the environment does for a request. *)
Record entry := Entry {
  e_who : nat;                   (* the worker that makes it, in section 7 *)
  e_before : list event;         (* what the server did before *)
  e_lost : bool;                 (* it does not reach the server *)
  e_now : Time;
  e_rnd : nat → list byte;
  e_rounds : list round;         (* the attempts of a poll *)
  e_scan : senv;
}.

Definition request_of (e : entry) (a : ask) : request :=
  match a with
  | AskHealth => GetHealthz
  | AskQueues c => PostQueues (Decoded c)
  | AskMessages q r => PostMessages q (Decoded r) (e_now e) (e_rnd e 0)
  | AskReceive q r => PostReceive q (Decoded r) (e_now e) (e_rounds e) false
  | AskAck q r => PostAck q (Decoded r)
  | AskNack q r => PostNack q (Decoded r) (e_now e)
  | AskExtend q r => PostExtend q (Decoded r) (e_now e)
  | AskReplay q r => PostReplay q (Decoded r) (e_now e) (e_scan e) (λ _, e_now e) (e_rnd e)
  | AskStats q => GetQueue q (e_now e)
  | AskBookmark => GetBookmark
  end.

(** What becomes of a request; [Hanging] has no answer yet. *)
Inductive answered := Answered (r : reply) | Lost | Hanging.

(** How a run ends; [Unanswered] when the tape does. *)
Inductive outcome := Finished | Exited (code : Z) | Crashed | Unanswered.

(** The workers have returned, or one of them has ended the process, or some wait
    for ever. *)
Inductive joined (A : Type) :=
  | Joined (x : A) (tape : list entry)
  | Stopped (code : option Z).
Arguments Joined {A} x tape.
Arguments Stopped {A} code.

Definition stopped (code : option Z) : outcome :=
  match code with Some code => Exited code | None => Unanswered end.

(** A consumer of section 7: asking for messages, counting one, acknowledging it. *)
Inductive consumer :=
  | Polling
  | Counting (m : msg) (rest : list msg)
  | Acking (m : msg) (rest : list msg)
  | Returned.

Definition handling (msgs : list msg) : consumer :=
  match msgs with [] => Polling | m :: rest => Counting m rest end.

(** [seen[m.Body]++], under its mutex. *)
Definition tally (b : string) (seen : gmap string Z) : gmap string Z :=
  <[b := default 0 (seen !! b) + 1]> seen.

Section Run.
Context `{Json} `{Ranging} (envs : nat → wenv).

Definition send (e : entry) (a : ask) (m : Manager) : option (Manager * answered) :=
  '(m, _) ← session envs (e_before e) m;
  if e_lost e then Some (m, Lost)
  else
    '(m, r) ← serve envs (request_of e a) m;
    Some (m, match r with Some r => Answered r | None => Hanging end).

(** [post] of a worker. *)
Definition posted {A} (e : entry) (a : ask) (m : Manager)
    (k : reply → Manager → option (Manager * joined A)) : option (Manager * joined A) :=
  '(m, r) ← send e a m;
  match r with
  | Answered r => if 400 <=? status r then Some (m, Stopped (Some 1)) else k r m
  | Lost => Some (m, Stopped (Some 1))
  | Hanging => Some (m, Stopped None)
  end.

(** The producers; the [p]-th has sent as many as [sent] says. *)
Fixpoint produce (fast : string) (tape : list entry) (sent : list nat) (m : Manager) :
    option (Manager * joined unit) :=
  if forallb (Nat.leb each) sent then Some (m, Joined tt tape)
  else
    match tape with
    | [] => Some (m, Stopped None)
    | e :: tape =>
        match sent !! e_who e with
        | None => produce fast tape sent m
        | Some i =>
            if Nat.leb each i then produce fast tape sent m
            else
              posted e (AskMessages fast (EnqueueReq (job (e_who e) i) 0 0)) m (λ _ m,
                produce fast tape (<[e_who e := S i]> sent) m)
        end
    end.

Definition is_returned (c : consumer) : bool := match c with Returned => true | _ => false end.

Fixpoint drain (fast : string) (tape : list entry) (cs : list consumer) (seen : gmap string Z) (m : Manager) :
    option (Manager * joined (gmap string Z)) :=
  if forallb is_returned cs then Some (m, Joined seen tape)
  else
    match tape with
    | [] => Some (m, Stopped None)
    | e :: tape =>
        let go c := drain fast tape (<[e_who e := c]> cs) in
        match cs !! e_who e with
        | Some Polling =>
            posted e (AskReceive fast (ReceiveReq 10 30000 300)) m (λ r m,
              go match messages_of r with [] => Returned | msgs => handling msgs end seen m)
        | Some (Counting msg rest) => go (Acking msg rest) (tally (c_Body msg) seen) m
        | Some (Acking msg rest) =>
            posted e (AskAck fast (AckReq (c_Receipt msg))) m (λ _ m, go (handling rest) seen m)
        | _ => drain fast tape cs seen m
        end
    end.

Fixpoint run (c : client) (tape : list entry) (m : Manager) : option (Manager * list line * outcome) :=
  match c with
  | Finish => Some (m, [], Finished)
  | Exit code => Some (m, [], Exited code)
  | Crash => Some (m, [], Crashed)
  | Say l k => '(m, ls, o) ← run k tape m; Some (m, l :: ls, o)
  | Sleep _ k => run k tape m
  | Clock k =>
      match tape with [] => Some (m, [], Unanswered) | e :: tape => run (k (e_now e)) tape m end
  | Ask a k =>
      match tape with
      | [] => Some (m, [], Unanswered)
      | e :: tape =>
          '(m, r) ← send e a m;
          match r with
          | Answered r => run (k (Some r)) tape m
          | Lost => run (k None) tape m
          | Hanging => Some (m, [], Unanswered)
          end
      end
  | Produce fast k =>
      '(m, j) ← produce fast tape (replicate workers 0%nat) m;
      match j with Joined _ tape => run k tape m | Stopped code => Some (m, [], stopped code) end
  | Drain fast k =>
      '(m, j) ← drain fast tape (replicate workers Polling) ∅ m;
      match j with Joined seen tape => run (k seen) tape m | Stopped code => Some (m, [], stopped code) end
  end.
End Run.
