(* ===== verification/DemoOps.v ===== *)
(** * Section 7 of the demo

    Six producers and six consumers share a queue.  As long as no lease runs out,
    what is ready and what was handed out are together what was sent, each once;
    so when the consumers find nothing left everything was counted once. *)

From Stdlib Require Import Strings.Byte.
From stdpp Require Import pretty.
From S2P Require Import Prelude ContainerHeap Msg Heaps LogStore Queue QueueInv QueueSpec QueueOps QueueReceive Calls Effects History Receive Encoding Wal WalOps Manager ManagerOps ManagerRun Api ApiOps Server ServerOps ThreadOps Demo.

Implicit Types (q : Queue) (M : Manager) (n : string) (m : Msg).

(** ** The bodies that are ready *)

Definition bodies (A : amsgs) : list string := (λ v : loc * Msg, Msg.Body v.2) <$> ready_of A.

Lemma bodies_new (A : amsgs) x m :
  A !! x = None → bodies (<[x := (In HReady, m)]> A) ≡ₚ Msg.Body m :: bodies A.
Proof.
  intros Hx. unfold bodies, ready_of. rewrite map_to_list_insert by done.
  rewrite filter_cons_True by done. done.
Qed.

Lemma bodies_away (A : amsgs) x P m :
  P ≠ In HReady → A !! x = None → bodies (<[x := (P, m)]> A) ≡ₚ bodies A.
Proof.
  intros HP Hx. unfold bodies, ready_of. rewrite map_to_list_insert by done. by rewrite filter_cons_False.
Qed.

Lemma bodies_gone (A : amsgs) x P m : P ≠ In HReady → A !! x = Some (P, m) → bodies (delete x A) ≡ₚ bodies A.
Proof.
  intros HP Hx. rewrite <- (insert_delete_id A x (P, m)) at 2 by done.
  symmetry. apply bodies_away; [done|apply lookup_delete_eq].
Qed.

(** One message is leased. *)
Lemma bodies_leased (A : amsgs) x m m' :
  A !! x = Some (In HReady, m) → bodies (<[x := (In HInflight, m')]> A) ++ [Msg.Body m] ≡ₚ bodies A.
Proof.
  intros Hx. rewrite <- (insert_delete_id A x (In HReady, m)) at 2 by done.
  rewrite <- insert_delete_eq. rewrite bodies_away, bodies_new by (done || apply lookup_delete_eq).
  by rewrite (comm (++)).
Qed.

Lemma bodies_lease_all batch : ∀ A : amsgs,
  NoDup batch.*1 → (∀ v, v ∈ batch → ∃ m, A !! v.1 = Some (In HReady, m) ∧ Msg.Body m = Msg.Body v.2) →
  bodies (lease_all batch A) ++ ((λ v : loc * Msg, Msg.Body v.2) <$> batch) ≡ₚ bodies A.
Proof.
  induction batch as [|v batch IH]; intros A Hnd Hv; [by rewrite app_nil_r|].
  rewrite fmap_cons in Hnd. apply NoDup_cons in Hnd as [Hnin Hnd].
  destruct (Hv v) as (m & Hm & Hb); [set_solver|]. rewrite <- (bodies_leased A v.1 m (Msg.erase v.2) Hm).
  cbn [lease_all foldl fmap list_fmap]. fold (lease_all batch (<[v.1 := (In HInflight, Msg.erase v.2)]> A)).
  rewrite <- (IH (<[v.1 := (In HInflight, Msg.erase v.2)]> A) Hnd).
  - rewrite Hb, <- (assoc_L (++)). f_equiv. by rewrite (comm (++) _ [_]).
  - intros u Hu. destruct (Hv u) as (m' & Hm' & Hb'); [set_solver|]. exists m'. split; [|done].
    rewrite lookup_insert_ne; [done|]. intros E. apply Hnin. rewrite E. apply list_elem_of_fmap. by exists u.
Qed.

(** ** One queue while no lease runs out *)

(** Until [T1]: [used] are the receipts given out, [D] the bodies handed out,
    [S] those sent. *)
Record steady_until (T1 : Time) (used D S : list string) q : Prop := {
  su_wf : wf q;
  su_calm x P m : abs q !! x = Some (P, m) →
    P = In HReady ∨ P = In HInflight ∧ T1 < Msg.LeaseExpiry m ∧ Msg.Receipt m ∈ used;
  su_bodies : bodies (abs q) ++ D ≡ₚ S;
  su_seq : seq q = Z.of_nat (length S);
}.

Lemma steady_more T1 used used' D S q : used ⊆ used' → steady_until T1 used D S q → steady_until T1 used' D S q.
Proof.
  intros Hu [Hwf Hc Hb Hs]. split; [done| |done..]. intros x P m Hx. destruct (Hc x P m Hx) as [|(? & ? & ?)]; [by left|].
  right. split_and!; [done..|]. by apply Hu.
Qed.

Section Steady.
Context {W : Type} `{Log W}.
Implicit Type w : W.

Lemma steady_advance T1 used D S q now es :
  now ≤ T1 → steady_until T1 used D S q → map_imap (advance_msg (cfg q) now es) (abs q) = abs q.
Proof.
  intros Hn Hq. apply map_eq. intros x. rewrite map_lookup_imap. destruct (abs q !! x) as [[P m]|] eqn:Hx; [|done].
  simpl. unfold advance_msg, expire_msg, open_msg. simpl.
  destruct (su_calm _ _ _ _ _ Hq x P m Hx) as [->|(-> & Hl & _)]; [done|].
  assert (After (Msg.LeaseExpiry m) now = true) as -> by (unfold After; lia). done.
Qed.

Lemma steady_enqueue T1 used D S body now rnd q w q' w' m' :
  steady_until T1 used D S q → Z.of_nat (length S) < two63 →
  Enqueue body 0 0 now rnd q w = Some (q', w', Ok m') → steady_until T1 used D (S ++ [body]) q' ∧ cfg q' = cfg q.
Proof.
  intros [Hwf Hc Hb Hs] HS E.
  destruct (Enqueue_ok body 0 0 now rnd q w Hwf (or_introl eq_refl)) as
    (q1 & res & E1 & Hwf' & Hx & Hcf & Hs' & _ & _ & _ & Hr); [unfold two63, two64 in *; lia|].
  rewrite E1 in E. injection E as <- <- ->. destruct (AppendSync _ w).2 as [e|]; [by destruct Hr|].
  destruct Hr as (m & _ & _ & Ea & _). set (x := fresh _) in *. set (mm := new_msg _ _ _ _ _ _) in *.
  assert (gate mm now = HReady) as Hg.
  { unfold gate, Msg.Ready, mm, new_msg, After, Add. cbn [Msg.VisibleAt]. by rewrite Z.add_0_r, Z.ltb_irrefl. }
  rewrite Hg in Ea. split; [|done]. split; [done|..].
  - intros y P m1. rewrite Ea. destruct (decide (x = y)) as [<-|Hne].
    + rewrite lookup_insert_eq. intros [= <- _]. by left.
    + rewrite lookup_insert_ne by done. apply Hc.
  - rewrite Ea, bodies_new by done. rewrite <- Hb. by rewrite <- (Permutation_cons_append (_ ++ _)).
  - rewrite Hs', Hs, length_app. simpl. lia.
Qed.

Lemma steady_attempt T1 used D S now rnd q w q' w' out wake0 err :
  let ids := (λ i, newID (rnd i)) <$> List.seq 0 10 in
  now ≤ T1 → T1 < Add now (30 * Second) → NoDup ids → (∀ r, r ∈ ids → r ∉ used) →
  steady_until T1 used D S q → tryReceive 10 (30 * Second) now rnd q w = Some (q', w', (out, wake0, err)) →
  steady_until T1 (used ++ ids) (D ++ (Msg.Body <$> out)) S q' ∧
  (err = None → out = [] → bodies (abs q') = []) ∧ cfg q' = cfg q.
Proof.
  intros ids Hn Hn' Hnd Hfresh Hq E. pose proof Hq as [Hwf Hc Hb Hs].
  assert (fresh_ids q rnd 10) as Hids.
  { split.
    - intros i j Hi Hj Eij. apply (NoDup_lookup _ _ _ (newID (rnd i)) Hnd); unfold ids.
      + by rewrite list_lookup_fmap, lookup_seq_lt.
      + by rewrite list_lookup_fmap, lookup_seq_lt, Eij.
    - intros i Hi. destruct (leases q !! newID (rnd i)) as [x|] eqn:Hl; [|done]. exfalso.
      destruct (receipt_lookup q _ x Hwf Hl) as (m & _ & _ & Er & Hx).
      destruct (Hc _ _ _ Hx) as [[=]|(_ & _ & Hu)]. apply (Hfresh (newID (rnd i))).
      + apply list_elem_of_fmap. exists i. split; [done|]. apply elem_of_seq. lia.
      + simpl in Hu. by rewrite <- Er. }
  destruct (tryReceive_ok 10 (30 * Second) now rnd q w Hwf Hids) as
    (qa & wa & es & _ & _ & Ea & _ & _ & _ & q1 & w1 & out1 & e1 & E1 & Hwf' & Hcf & Hs' & _ & _ & _ & Hout).
  rewrite E in E1. injection E1 as <- <- <- _ <-. rewrite (steady_advance T1 used D S) in Ea by done.
  rewrite Ea in Hout. destruct err as [e|].
  { destruct Hout as [-> Ea']. split; [|by split]. simpl. rewrite app_nil_r. apply (steady_more _ used); [intros r; rewrite elem_of_app; by left|].
    split; [done|by rewrite Ea'..|congruence]. }
  destruct Hout as (Eo & Ea' & _). set (batch := next_batch _ _ _ _ _) in *.
  assert (Msg.Body <$> out = (λ v : loc * Msg, Msg.Body v.2) <$> batch) as Ebody.
  { change (λ v : loc * Msg, Msg.Body v.2) with (Msg.Body ∘ (snd (A := loc) (B := Msg))). rewrite list_fmap_compose, <- Eo, <- list_fmap_compose. done. }
  assert (∀ v, v ∈ batch → ∃ m, abs q !! v.1 = Some (In HReady, m) ∧ Msg.Body m = Msg.Body v.2 ∧
    Msg.Receipt v.2 ∈ ids ∧ Msg.LeaseExpiry v.2 = Add now (30 * Second)) as Hbatch.
  { intros v (i & [x m] & -> & Hi)%elem_of_lookup_imap_1. exists m. simpl. pose proof (lookup_lt_Some _ _ _ Hi) as Hlt.
    rewrite length_take in Hlt. split_and!; [|done| |done].
    - rewrite <- ready_of_elem, <- (upcoming_perm (cfg q)). apply list_elem_of_lookup_2 in Hi.
      rewrite <- (take_drop (Z.to_nat 10) (upcoming (cfg q) (abs q))). apply elem_of_app. by left.
    - apply list_elem_of_fmap. exists i. split; [done|]. apply elem_of_seq. lia. }
  assert (NoDup batch.*1) as Hnb by apply next_batch_nodup.
  pose proof (bodies_lease_all batch (abs q) Hnb) as Hperm. rewrite <- Ea', <- Ebody in Hperm.
  assert (bodies (abs q') ++ (Msg.Body <$> out) ≡ₚ bodies (abs q)) as Hb'.
  { apply Hperm. intros v Hv. destruct (Hbatch v Hv) as (m & ? & ? & _). by exists m. }
  split; [|split; [|done]].
  - split; [done| | |congruence].
    + intros x P m Hx. rewrite Ea' in Hx. destruct (decide (x ∈ batch.*1)) as [Hin|Hnin].
      * apply list_elem_of_fmap in Hin as (v & -> & Hv). rewrite (lease_all_in batch (abs q) v Hnb Hv) in Hx.
        injection Hx as <- <-. destruct (Hbatch v Hv) as (_ & _ & _ & Hr & Hl). right. split; [done|].
        change (T1 < Msg.LeaseExpiry v.2 ∧ Msg.Receipt v.2 ∈ used ++ ids). rewrite Hl. split; [done|]. apply elem_of_app. by right.
      * rewrite lease_all_notin in Hx by done. destruct (Hc x P m Hx) as [|(? & ? & ?)]; [by left|].
        right. split_and!; [done..|]. apply elem_of_app. by left.
    + rewrite <- Hb, <- Hb', <- !(assoc_L (++)). f_equiv. apply Permutation_app_comm.
  - intros _ Ho. rewrite Ho in Ebody. simpl in Ebody. destruct batch as [|v vs] eqn:Eb; [|done].
    rewrite Ea'. simpl. unfold batch, next_batch, handed in *. apply (f_equal length) in Eb.
    rewrite length_imap, length_take in Eb. simpl in Eb. unfold bodies.
    assert (ready_of (abs q) = []) as ->; [|done]. apply Permutation_nil_r. rewrite <- (upcoming_perm (cfg q)).
    destruct (upcoming (cfg q) (abs q)); [done|simpl in Eb; lia].
Qed.

Lemma steady_ack T1 used D S r q w q' w' :
  steady_until T1 used D S q → Ack r q w = Some (q', w', None) → steady_until T1 used D S q' ∧ cfg q' = cfg q.
Proof.
  intros [Hwf Hc Hb Hs] E. destruct (leases q !! r) as [x|] eqn:Hl.
  2:{ rewrite (Ack_unknown r q w Hl) in E. by injection E. }
  destruct (receipt_lookup q r x Hwf Hl) as (m & Hm & _ & _ & Hx).
  destruct (Ack_ok r q w x m Hwf Hl Hm) as (q1 & E1 & Hwf' & Hcf & Hs' & _ & _ & _ & _ & Hr).
  rewrite E1 in E. injection E as <- _ Eo. rewrite Eo in Hr. destruct Hr as (Ea & _). split; [|done]. split; [done| | |congruence].
  - intros y P m1. rewrite Ea. intros [_ Hy]%lookup_delete_Some. by eapply Hc.
  - rewrite Ea. by rewrite (bodies_gone (abs q) x (In HInflight) (Msg.erase m)).
Qed.

Lemma steady_tick T1 used D S now q w q' w' :
  now ≤ T1 → steady_until T1 used D S q → Tick now q w = Some (q', w') → steady_until T1 used D S q'.
Proof.
  intros Hn Hq E. pose proof Hq as [Hwf Hc Hb Hs].
  destruct (advanceLocked_ok now q w Hwf) as (q1 & w1 & es & E1 & Hwf' & Ea & _ & Hs' & _).
  unfold Tick in E. rewrite E1 in E. injection E as <- <-. rewrite (steady_advance T1 used D S) in Ea by done.
  split; [done|by rewrite Ea..|congruence].
Qed.

(** A poll with the clock in the last thirty seconds before [T1], and nobody
    else's calls in it. *)
Definition round_ids (r : round) : list string := (λ i, newID (rd_rnd r i)) <$> List.seq 0 10.
Definition timely (T1 : Time) (r : round) : Prop :=
  unshared r ∧ rd_now r ≤ T1 ∧ T1 < Add (rd_now r) (30 * Second).

Lemma steady_poll T1 S wait deadline rounds : ∀ used D q w q' w' out,
  Forall (timely T1) rounds → NoDup (mjoin (round_ids <$> rounds)) →
  (∀ r, r ∈ mjoin (round_ids <$> rounds) → r ∉ used) → steady_until T1 used D S q →
  receive_loop rounds 10 (30 * Second) wait deadline q w = Some (q', w', Received out) →
  steady_until T1 (used ++ mjoin (round_ids <$> rounds)) (D ++ (Msg.Body <$> out)) S q' ∧
  (out = [] → bodies (abs q') = []) ∧ cfg q' = cfg q.
Proof.
  induction rounds as [|r rounds IH]; intros used D q w q' w' out Ht Hnd Hf Hq; [done|].
  apply Forall_cons in Ht as [(Hun & Hn & Hn') Ht]. cbn [fmap list_fmap mjoin list_join] in Hnd, Hf |- *.
  apply NoDup_app in Hnd as (Hnd1 & Hdisj & Hnd2). cbn [receive_loop].
  destruct (tryReceive 10 (30 * Second) (rd_now r) (rd_rnd r) q w) as [[[q1 w1] [[out1 wake0] err]]|] eqn:E; [|done].
  simpl_bind. cbn iota beta.
  destruct (steady_attempt T1 used D S (rd_now r) (rd_rnd r) q w q1 w1 out1 wake0 err Hn Hn' Hnd1) as (Hq1 & He & Hs1);
    [intros x Hx; apply Hf, elem_of_app; by left|done|done|]. fold (round_ids r) in Hq1.
  assert (∀ out, Received out1 = Received out → err = None →
    steady_until T1 (used ++ round_ids r ++ mjoin (round_ids <$> rounds)) (D ++ (Msg.Body <$> out)) S q1 ∧
    (out = [] → bodies (abs q1) = []) ∧ cfg q1 = cfg q) as Hdone.
  { intros o [= <-] ->. split; [|split; [by apply He|done]]. eapply steady_more; [|exact Hq1].
    intros x. rewrite !elem_of_app. tauto. }
  destruct err as [e|]; [done|]. destruct (negb (bool_decide (out1 = [])) || (wait <=? 0)) eqn:Ho.
  { intros [= <- <- Eo]. apply Hdone; [congruence|done]. }
  apply orb_false_iff in Ho as [Ho%negb_false_iff%bool_decide_eq_true _]. subst out1.
  destruct (_ <=? 0). { intros [= <- <- Eo]. apply Hdone; [congruence|done]. }
  rewrite Hun. cbn [others]. simpl_bind. cbn iota beta. destruct (selectable _ _ _ q1); [|done].
  rewrite app_nil_r in Hq1. rewrite (assoc_L (++)), <- Hs1. destruct (rd_end r); [| |done]; apply IH; try done;
    (intros x Hx [Hu|Hu]%elem_of_app; [apply (Hf x); [apply elem_of_app; by right|done]|by apply (Hdisj x)]).
Qed.
End Steady.

(** ** The queue of section 7 in the manager *)

(** What the server does by itself until [T1]. *)
Definition idle (T1 : Time) (ev : event) : Prop :=
  match ev with PumpTick now => now ≤ T1 | FlushTick _ => True | Request _ => False end.

Section Fast.
Context `{JsonLaws} `{RangingLaws} (envs : nat → wenv) (T1 : Time) (fast : string).
#[local] Instance fast_log : Log wlog := wal_log envs.

Definition at_fast (used D S : list string) M : Prop :=
  sound M ∧ ∃ q, queues M !! fast = Some q ∧ steady_until T1 used D S q.

Lemma at_fast_put used D S M q q' w' :
  sound M → queues M !! fast = Some q → cfg q' = cfg q → steady_until T1 used D S q' → at_fast used D S (put fast q' w' M).
Proof.
  intros Hs Hq Hc Hq'. split; [eapply sound_put; [done|done|apply Hq'|done]|].
  exists q'. split; [apply lookup_insert_eq|done].
Qed.

Lemma tick_cfg now q w q' w' : wf q → Tick now q w = Some (q', w') → wf q' ∧ cfg q' = cfg q.
Proof.
  intros Hwf E. destruct (advanceLocked_ok now q w Hwf) as (q1 & w1 & es & E1 & Hwf' & _ & Hc & _).
  unfold Tick in E. rewrite E1 in E. by injection E as <- _.
Qed.

Lemma tick_all_fast used D S names now : now ≤ T1 → ∀ M M',
  at_fast used D S M → tick_all envs names now M = Some M' → at_fast used D S M'.
Proof.
  intros Hn. induction names as [|k names IH]; intros M M' Hf; [by intros [= <-]|].
  cbn [tick_all]. unfold on_queue. change (manager_log envs) with fast_log. destruct Hf as (Hs & q & Hq & Hst).
  destruct (queues M !! k) as [qk|] eqn:Hk; [|done]. simpl_bind.
  destruct (Tick now qk (wal M)) as [[q1 w1]|] eqn:E; [|done]. simpl_bind. cbn iota beta. apply IH.
  destruct (tick_cfg now qk (wal M) q1 w1 (proj1 (Hs k qk Hk)) E) as [Hwf Hc].
  split; [by eapply (sound_put k qk)|]. simpl. destruct (decide (k = fast)) as [->|Hne].
  - exists q1. rewrite lookup_insert_eq. split; [done|]. eapply steady_tick; [done..|]. rewrite Hk in Hq. by injection Hq as <-.
  - exists q. by rewrite lookup_insert_ne.
Qed.

Lemma idle_sound evs : Forall (idle T1) evs → ∀ M M' rs,
  sound M → session envs evs M = Some (M', rs) → sound M'.
Proof.
  induction 1 as [|ev evs Hev _ IH]; intros M M' rs Hs; [by intros [= <- _]|]. cbn [session].
  assert (event_ok envs ev M) as Hok by by destruct ev.
  destruct (react_ok envs ev M Hs Hok) as (M1 & r1 & tr & -> & Hs1 & _). simpl_bind. cbn iota beta.
  destruct (session envs evs M1) as [[M2 r2]|] eqn:E2; [|done]. intros [= <- _]. by apply (IH M1 M2 r2).
Qed.

Lemma idle_fast used D S evs : Forall (idle T1) evs → ∀ M M' rs,
  at_fast used D S M → session envs evs M = Some (M', rs) → at_fast used D S M'.
Proof.
  induction 1 as [|ev evs Hev _ IH]; intros M M' rs Hf; [by intros [= <- _]|]. cbn [session].
  destruct (react envs ev M) as [[M1 r1]|] eqn:E; [|done]. simpl_bind. cbn iota beta.
  destruct (session envs evs M1) as [[M2 r2]|] eqn:E2; [|done]. intros [= <- _]. apply (IH M1 M2 r2); [|done].
  destruct ev as [r|now|sync]; [done| |].
  - cbn [react] in E. destruct (pump envs now M) as [M3|] eqn:Ep; [|done]. injection E as <- _.
    by eapply (tick_all_fast used D S _ now).
  - injection E as <- _. exact Hf.
Qed.

(** ** Its requests *)

Definition timely_entry (e : entry) : Prop := Forall (idle T1) (e_before e) ∧ Forall (timely T1) (e_rounds e).
Definition entry_ids (e : entry) : list string := mjoin (round_ids <$> e_rounds e).

(** The state in which the handler finds the server. *)
Lemma send_answered used D S e a M M' r :
  Forall (idle T1) (e_before e) → at_fast used D S M → send envs e a M = Some (M', Answered r) →
  ∃ M1, at_fast used D S M1 ∧ serve envs (request_of e a) M1 = Some (M', Some r).
Proof.
  intros Hid Hf. unfold send. destruct (session envs (e_before e) M) as [[M1 rs]|] eqn:Es; [|done]. simpl_bind.
  cbn iota beta. destruct (e_lost e); [done|]. destruct (serve envs (request_of e a) M1) as [[M2 o]|] eqn:E; [|done].
  simpl_bind. cbn iota beta. destruct o as [r'|]; [|done]. intros [= <- <-]. exists M1. split; [|done]. by eapply idle_fast.
Qed.

Lemma send_message used D S e body M M' r :
  timely_entry e → Z.of_nat (length S) < two63 → at_fast used D S M →
  send envs e (AskMessages fast (EnqueueReq body 0 0)) M = Some (M', Answered r) → status r < 400 →
  at_fast used D (S ++ [body]) M'.
Proof.
  intros [Hid _] HS Hf E Hr. destruct (send_answered _ _ _ _ _ _ _ _ Hid Hf E) as (M1 & (Hs & q & Hq & Hst) & E1).
  cbn [request_of serve] in E1. unfold Api.enqueue, with_body, Get in E1. rewrite Hq in E1.
  cbn [decode enq_Body enq_DelayMS enq_Priority] in E1. case_bool_decide; [by injection E1 as _ <-|].
  unfold or_bad_request in E1. change (boundedMS 0 maxDelay "delay_ms") with (Ok (A := Duration) (E := error) 0) in E1.
  unfold on_queue in E1. rewrite Hq in E1. cbn [mbind option_bind] in E1. change (api_log envs) with fast_log in E1.
  destruct (Enqueue body 0 0 (e_now e) (e_rnd e 0) q (wal M1)) as [[[q' w'] [m|x]]|] eqn:Ee; [| |done].
  - injection E1 as <- _. destruct (steady_enqueue T1 used D S body (e_now e) (e_rnd e 0) q (wal M1) q' w' m) as [Hq' Hc]; [done..|].
    by apply (at_fast_put _ _ _ M1 q).
  - injection E1 as _ <-. by destruct (errorsIs _ _).
Qed.

Lemma send_receipt used D S e rc M M' r :
  timely_entry e → at_fast used D S M →
  send envs e (AskAck fast (AckReq rc)) M = Some (M', Answered r) → status r < 400 → at_fast used D S M'.
Proof.
  intros [Hid _] Hf E Hr. destruct (send_answered _ _ _ _ _ _ _ _ Hid Hf E) as (M1 & (Hs & q & Hq & Hst) & E1).
  cbn [request_of serve] in E1. unfold Api.ack, with_body, Get in E1. rewrite Hq in E1. cbn [decode ack_Receipt] in E1.
  unfold on_queue in E1. rewrite Hq in E1. cbn [mbind option_bind] in E1. change (api_log envs) with fast_log in E1.
  destruct (Ack rc q (wal M1)) as [[[q' w'] [x|]]|] eqn:Ee; [| |done].
  - injection E1 as _ <-. unfold lease_status in Hr. by destruct (errorsIs _ _).
  - injection E1 as <- _. destruct (steady_ack T1 used D S rc q (wal M1) q' w') as [Hq' Hc]; [done..|].
    by apply (at_fast_put _ _ _ M1 q).
Qed.

Lemma send_poll used D S e M M' r :
  timely_entry e → NoDup (entry_ids e) → (∀ x, x ∈ entry_ids e → x ∉ used) → at_fast used D S M →
  send envs e (AskReceive fast (ReceiveReq 10 30000 300)) M = Some (M', Answered r) → status r < 400 →
  at_fast (used ++ entry_ids e) (D ++ (c_Body <$> messages_of r)) S M' ∧
  (messages_of r = [] → D ≡ₚ S).
Proof.
  intros [Hid Hti] Hnd Hfr Hf E Hr. destruct (send_answered _ _ _ _ _ _ _ _ Hid Hf E) as (M1 & (Hs & q & Hq & Hst) & E1).
  cbn [request_of serve] in E1. unfold Api.receive, with_body, Get in E1. rewrite Hq in E1.
  cbn [decode rcv_Max rcv_VisibilityMS rcv_WaitMS] in E1.
  change ((10 <? 0) || (maxBatch <? 10)) with false in E1. unfold or_bad_request in E1.
  change (boundedMS 30000 maxVisibility "visibility_ms") with (Ok (A := Duration) (E := error) (30 * Second)) in E1.
  change (boundedMS 300 maxWait "wait_ms") with (Ok (A := Duration) (E := error) (300 * Millisecond)) in E1.
  unfold on_queue in E1. rewrite Hq in E1. cbn [mbind option_bind] in E1. change (api_log envs) with fast_log in E1.
  unfold Receive in E1. change (at_least_one 10) with 10 in E1. change (effective q (30 * Second)) with (30 * Second) in E1.
  destruct (receive_loop _ _ _ _ _ q _) as [[[q' w'] [out|x|]]|] eqn:Ee; [|by injection E1 as _ <-|done..].
  injection E1 as <- <-. destruct (steady_poll T1 S _ _ _ used D q _ q' w' out Hti Hnd Hfr Hst Ee) as (Hq' & Hout & Hc).
  assert (c_Body <$> messages_of (Reply StatusOK (PMessages out)) = Msg.Body <$> out) as Eb.
  { unfold messages_of. simpl. by rewrite <- list_fmap_compose. }
  rewrite Eb. split; [by apply (at_fast_put _ _ _ M1 q)|].
  unfold messages_of. cbn [payload_of]. intros Ho%fmap_nil_inv. specialize (Hout Ho). subst out.
  pose proof (su_bodies _ _ _ _ _ Hq') as Hb. by rewrite Hout, app_nil_r in Hb.
Qed.

(** ** The producers *)

(** What producers have sent, the first of them being the [k]-th. *)
Fixpoint sent_from (k : nat) (sent : list nat) : list string :=
  match sent with [] => [] | i :: sent => (job k <$> List.seq 0 i) ++ sent_from (S k) sent end.
Definition jobs : list string := sent_from 0 (replicate workers each).

Lemma sent_insert sent : ∀ k p i,
  sent !! p = Some i → sent_from k (<[p := S i]> sent) ≡ₚ sent_from k sent ++ [job (k + p) i].
Proof.
  induction sent as [|j sent IH]; intros k p i Hp; [done|]. destruct p as [|p]; simpl in Hp.
  - injection Hp as ->. cbn [insert list_insert sent_from]. rewrite seq_S, fmap_app, Nat.add_0_r. simpl.
    rewrite <- !(assoc_L (++)). f_equiv. apply Permutation_app_comm.
  - cbn [insert list_insert sent_from]. fold (<[p := S i]> sent). rewrite (IH (S k) p i Hp), (assoc_L (++)).
    by rewrite Nat.add_succ_comm.
Qed.

Lemma sent_length sent : ∀ k, Forall (λ i, (i <= each)%nat) sent → (length (sent_from k sent) <= each * length sent)%nat.
Proof.
  induction sent as [|i sent IH]; intros k; [simpl; lia|]. intros [Hi Hs]%Forall_cons.
  cbn [sent_from length]. rewrite length_app, length_fmap, length_seq. specialize (IH (S k) Hs). lia.
Qed.

Lemma produced_all sent :
  length sent = workers → Forall (λ i, (i <= each)%nat) sent → forallb (Nat.leb each) sent = true →
  sent = replicate workers each.
Proof.
  intros Hl Hle Hge. rewrite forallb_forall in Hge. symmetry. apply replicate_as_elem_of. split; [done|].
  intros i Hi. rewrite Forall_forall in Hle. specialize (Hle i Hi). apply list_elem_of_In, Hge, Nat.leb_le in Hi. lia.
Qed.

(** A run of the producers that comes to its end has sent every job. *)
Lemma produce_ok used tape : ∀ sent St M M' tape',
  Forall timely_entry tape → at_fast used [] St M → St ≡ₚ sent_from 0 sent →
  length sent = workers → Forall (λ i, (i <= each)%nat) sent →
  produce envs fast tape sent M = Some (M', Joined tt tape') →
  ∃ St', at_fast used [] St' M' ∧ St' ≡ₚ jobs ∧ suffix tape' tape.
Proof.
  induction tape as [|e tape IH]; intros sent St M M' tape' Ht Hf HS Hl Hle; cbn [produce].
  - destruct (forallb (Nat.leb each) sent) eqn:Hd; [|done]. intros [= <- <-]. exists St. split; [done|]. split; [|done].
    rewrite HS. by rewrite (produced_all sent Hl Hle Hd).
  - destruct (forallb (Nat.leb each) sent) eqn:Hd.
    { intros [= <- <-]. exists St. split; [done|]. split; [|done]. rewrite HS. by rewrite (produced_all sent Hl Hle Hd). }
    apply Forall_cons in Ht as [He Ht].
    assert (∀ sent St M, at_fast used [] St M → St ≡ₚ sent_from 0 sent → length sent = workers →
      Forall (λ i, (i <= each)%nat) sent → produce envs fast tape sent M = Some (M', Joined tt tape') →
      ∃ St', at_fast used [] St' M' ∧ St' ≡ₚ jobs ∧ suffix tape' (e :: tape)) as IH'.
    { intros sent1 St1 M1 Hf1 HS1 Hl1 Hle1 E. destruct (IH sent1 St1 M1 M' tape' Ht Hf1 HS1 Hl1 Hle1 E) as (St' & ? & ? & ?).
      exists St'. split_and!; [done..|]. by apply suffix_cons_r. }
    destruct (sent !! e_who e) as [i|] eqn:Hi; [|by apply (IH' sent St)].
    destruct (Nat.leb each i) eqn:Hei; [by apply (IH' sent St)|]. apply Nat.leb_gt in Hei.
    unfold posted. destruct (send envs e _ M) as [[M1 [r| |]]|] eqn:E; [|done..]. simpl_bind. cbn iota beta.
    destruct (400 <=? status r) eqn:Hr; [done|]. apply (IH' _ (St ++ [job (e_who e) i])).
    + eapply send_message; [done| |done|done|lia]. rewrite HS. pose proof (sent_length sent 0 Hle).
      unfold workers, each, two63 in *. lia.
    + rewrite HS, sent_insert by done. done.
    + by rewrite length_insert.
    + apply Forall_insert; [done|lia].
Qed.

(** ** The consumers *)

(** The bodies a consumer has been given and not counted. *)
Definition held (c : consumer) : list string :=
  match c with
  | Counting m rest => c_Body <$> (m :: rest)
  | Acking _ rest => c_Body <$> rest
  | Polling | Returned => []
  end.
Definition held_all (cs : list consumer) : list string := mjoin (held <$> cs).

Lemma held_insert cs : ∀ p c c',
  cs !! p = Some c → held_all (<[p := c']> cs) ++ held c ≡ₚ held_all cs ++ held c'.
Proof.
  induction cs as [|d cs IH]; intros p c c' Hp; [done|]. unfold held_all in *. destruct p as [|p]; simpl in Hp.
  - injection Hp as ->. cbn. rewrite <- !(assoc_L (++)), (Permutation_app_comm (mjoin _) (held c)).
    rewrite (Permutation_app_comm (mjoin _) (held c')), !(assoc_L (++)). f_equiv. apply Permutation_app_comm.
  - cbn. fold (<[p := c']> cs). rewrite <- !(assoc_L (++)). f_equiv. by apply IH.
Qed.

Definition tape_ids (tape : list entry) : list string := mjoin (entry_ids <$> tape).

(** Nobody gets anything once everything has been handed out. *)
Lemma nothing_more used D St M new :
  at_fast used (D ++ new) St M → D ≡ₚ St → new = [].
Proof.
  intros (_ & q & _ & Hq) HD. pose proof (su_bodies _ _ _ _ _ Hq) as Hb. rewrite <- HD in Hb.
  apply Permutation_length in Hb. rewrite !length_app in Hb. apply nil_length_inv. lia.
Qed.

(** The state of the consumers: [C] has been counted. *)
Record draining (used D St C : list string) (cs : list consumer) (seen : gmap string Z) M : Prop := {
  dr_fast : at_fast used D St M;
  dr_held : D ≡ₚ held_all cs ++ C;
  dr_seen : seen = foldr tally ∅ C;
  dr_dry : Returned ∈ cs → D ≡ₚ St;
}.

(** A worker moves on with what it has been given. *)
Lemma draining_step used used' D new St C C' cs p c c' seen M M' :
  draining used D St C cs seen M → cs !! p = Some c →
  at_fast used' (D ++ new) St M' → held c' ++ C' ≡ₚ held c ++ C ++ new →
  (c' = Returned → D ≡ₚ St) →
  draining used' (D ++ new) St C' (<[p := c']> cs) (foldr tally ∅ C') M'.
Proof.
  intros [Hf Hh Hs Hd] Hp Hf' Hheld Hret. split; [done| |done|].
  - apply (Permutation_app_inv_l (held c)).
    rewrite (assoc_L (++) (held c) (held_all _) C'), (Permutation_app_comm (held c) (held_all _)).
    rewrite (held_insert cs p c c' Hp), <- (assoc_L (++)), Hheld, Hh, !(assoc_L (++)).
    do 2 f_equiv. apply Permutation_app_comm.
  - intros Hin. assert (D ≡ₚ St) as HD.
    { apply list_elem_of_lookup in Hin as [j Hj]. apply list_lookup_insert_Some in Hj as [(_ & Hc & _)|[_ Hj]]; [by apply Hret|].
      apply Hd, list_elem_of_lookup. by exists j. }
    by rewrite (nothing_more _ _ _ _ _ Hf' HD), app_nil_r.
Qed.

Lemma handling_held msgs : held (handling msgs) = c_Body <$> msgs.
Proof. by destruct msgs. Qed.
Lemma handling_busy msgs : handling msgs ≠ Returned.
Proof. by destruct msgs. Qed.

(** A worker that needs nothing from the server. *)
Lemma draining_quiet used D St C C' cs p c c' seen M M' :
  draining used D St C cs seen M → cs !! p = Some c → at_fast used D St M' →
  held c' ++ C' ≡ₚ held c ++ C → c' ≠ Returned →
  draining used D St C' (<[p := c']> cs) (foldr tally ∅ C') M'.
Proof.
  intros Hdr Hp Hf Hh Hc. rewrite <- (app_nil_r D) in Hf |- *.
  eapply draining_step; [exact Hdr|done|done|by rewrite !app_nil_r|done].
Qed.

Lemma all_returned used D St C cs seen M :
  draining used D St C cs seen M → (0 < length cs)%nat → forallb is_returned cs = true → C ≡ₚ St.
Proof.
  intros [_ Hh _ Hd] Hl Hr. rewrite forallb_forall in Hr.
  assert (∀ c, c ∈ cs → c = Returned) as Hall by (intros c Hc%list_elem_of_In%Hr; by destruct c).
  rewrite <- Hd, Hh.
  - assert (held_all cs = []) as ->; [|done]. clear -Hall. induction cs as [|c cs IH]; [done|].
    cbn. rewrite (Hall c) by set_solver. cbn. apply IH. set_solver.
  - destruct cs as [|c cs]; [simpl in Hl; lia|]. rewrite (Hall c) by set_solver. set_solver.
Qed.

Lemma drain_ok tape : ∀ used D St C cs seen M M' seen' tape',
  Forall timely_entry tape → NoDup (tape_ids tape) → (∀ x, x ∈ tape_ids tape → x ∉ used) →
  draining used D St C cs seen M → (0 < length cs)%nat →
  drain envs fast tape cs seen M = Some (M', Joined seen' tape') → ∃ C', seen' = foldr tally ∅ C' ∧ C' ≡ₚ St.
Proof.
  induction tape as [|e tape IH]; intros used D St C cs seen M M' seen' tape' Ht Hnd Hfr Hdr Hl; cbn [drain].
  - destruct (forallb is_returned cs) eqn:Hr; [|done]. intros [= <- <- _]. exists C.
    split; [apply Hdr|by eapply all_returned].
  - destruct (forallb is_returned cs) eqn:Hr.
    { intros [= <- <- _]. exists C. split; [apply Hdr|by eapply all_returned]. }
    apply Forall_cons in Ht as [He Ht]. unfold tape_ids in Hnd, Hfr. cbn in Hnd, Hfr.
    apply NoDup_app in Hnd as (Hnd1 & Hdisj & Hnd2).
    assert (∀ x, x ∈ tape_ids tape → x ∉ used) as Hfr2 by (intros x Hx; apply Hfr, elem_of_app; by right).
    destruct (cs !! e_who e) as [c|] eqn:Hc; [|by eapply IH].
    destruct c as [|m rest|m rest|]; [| | |by eapply IH].
    + unfold posted. destruct (send envs e _ M) as [[M1 [r| |]]|] eqn:E; [|done..]. simpl_bind. cbn iota beta.
      destruct (400 <=? status r) eqn:Hst; [done|].
      destruct (send_poll used D St e M M1 r He Hnd1) as [Hf Hret];
        [intros x Hx; apply Hfr, elem_of_app; by left|apply Hdr|done|lia|].
      set (c' := match messages_of r with [] => Returned | _ => _ end).
      apply (IH (used ++ entry_ids e) (D ++ (c_Body <$> messages_of r)) St C); [done|done| | |by rewrite length_insert].
      * intros x Hx [Hu|Hu]%elem_of_app; [by apply (Hfr2 x)|by apply (Hdisj x)].
      * rewrite (dr_seen _ _ _ _ _ _ _ Hdr). eapply draining_step; [exact Hdr|exact Hc|exact Hf| |].
        -- unfold c'. destruct (messages_of r); cbn; [by rewrite app_nil_r|apply Permutation_app_comm with (l := _ :: _)].
        -- intros Hc'. apply Hret. unfold c' in Hc'. by destruct (messages_of r).
    + apply (IH used D St (c_Body m :: C)); [done..| |by rewrite length_insert].
      rewrite (dr_seen _ _ _ _ _ _ _ Hdr). change (tally (c_Body m) (foldr tally ∅ C)) with (foldr tally ∅ (c_Body m :: C)).
      eapply draining_quiet; [exact Hdr|exact Hc|apply Hdr| |done]. simpl. by rewrite <- Permutation_middle.
    + unfold posted. destruct (send envs e _ M) as [[M1 [r| |]]|] eqn:E; [|done..]. simpl_bind. cbn iota beta.
      destruct (400 <=? status r) eqn:Hst; [done|]. apply (IH used D St C); [done..| |by rewrite length_insert].
      rewrite (dr_seen _ _ _ _ _ _ _ Hdr). eapply draining_quiet; [exact Hdr|exact Hc| | |apply handling_busy].
      * eapply send_receipt; [done|apply Hdr|done|lia].
      * by rewrite handling_held.
Qed.
End Fast.

(** ** Runs that end without an error *)

Section Ends.
Context `{Json} `{Ranging} (envs : nat → wenv).

Definition ends (c : client) (tape : list entry) M M' (out : list line) : Prop :=
  run envs c tape M = Some (M', out, Finished).

Lemma ends_say l k tape M M' out :
  ends (Say l k) tape M M' out → ∃ out', out = l :: out' ∧ ends k tape M M' out'.
Proof.
  unfold ends. cbn [run]. destruct (run envs k tape M) as [[[M1 ls] o]|]; [|done]. simpl_bind.
  intros [= <- <- ->]. by eexists.
Qed.

Lemma ends_clock k tape M M' out :
  ends (Clock k) tape M M' out → ∃ e tape', tape = e :: tape' ∧ ends (k (e_now e)) tape' M M' out.
Proof. unfold ends. destruct tape as [|e tape]; [done|]. cbn [run]. intros E. by exists e, tape. Qed.

Lemma ends_post a k tape M M' out :
  ends (post a k) tape M M' out →
  ∃ e tape' M1 r, tape = e :: tape' ∧ send envs e a M = Some (M1, Answered r) ∧ status r < 400 ∧ ends (k r) tape' M1 M' out.
Proof.
  unfold ends, post. destruct tape as [|e tape]; [done|]. cbn [run].
  destruct (send envs e a M) as [[M1 [r| |]]|] eqn:E; [|done..]. simpl_bind. cbn iota beta.
  destruct (400 <=? status r) eqn:Hr; [done|]. intros Ho. exists e, tape, M1, r. split_and!; [done..|lia|done].
Qed.

Lemma ends_produce fast k tape M M' out :
  ends (Produce fast k) tape M M' out →
  ∃ M1 tape', produce envs fast tape (replicate workers 0%nat) M = Some (M1, Joined tt tape') ∧ ends k tape' M1 M' out.
Proof.
  unfold ends. cbn [run]. destruct (produce _ _ _ _ _) as [[M1 [[] tape'|[code|]]]|]; [|done..]. simpl_bind.
  intros E. by exists M1, tape'.
Qed.

Lemma ends_drain fast k tape M M' out :
  ends (Drain fast k) tape M M' out →
  ∃ M1 seen tape', drain envs fast tape (replicate workers Polling) ∅ M = Some (M1, Joined seen tape') ∧ ends (k seen) tape' M1 M' out.
Proof.
  unfold ends. cbn [run]. destruct (drain _ _ _ _ _ _) as [[M1 [seen tape'|[code|]]]|]; [|done..]. simpl_bind.
  intros E. by exists M1, seen, tape'.
Qed.
End Ends.

(** ** The count *)

Lemma tally_once C b :
  NoDup C → foldr tally ∅ C !! b = if decide (b ∈ C) then Some 1 else None.
Proof.
  induction C as [|c C IH]; [done|]. intros [Hc Hnd]%NoDup_cons. cbn [foldr]. unfold tally at 1.
  destruct (decide (b = c)) as [->|Hne].
  - rewrite lookup_insert_eq, IH by done. rewrite decide_False by done. by rewrite decide_True by set_solver.
  - rewrite lookup_insert_ne, IH by done. apply decide_ext. set_solver.
Qed.

Lemma tally_size C : NoDup C → size (foldr tally ∅ C) = length C.
Proof.
  induction C as [|c C IH]; [done|]. intros [Hc Hnd]%NoDup_cons. cbn [foldr length]. unfold tally at 1.
  rewrite map_size_insert_None; [by rewrite IH|]. rewrite tally_once by done. by rewrite decide_False.
Qed.

Lemma tally_dupes C : NoDup C → dupes (foldr tally ∅ C) = 0.
Proof.
  intros Hnd. unfold dupes.
  assert (filter (λ n : Z, 1 < n) (map_to_list (foldr tally ∅ C)).*2 = []) as ->; [|done].
  apply elem_of_nil_inv. intros n [Hn Hin]%list_elem_of_filter. apply list_elem_of_fmap in Hin as ([b k] & -> & Hin).
  apply elem_of_map_to_list in Hin. rewrite tally_once in Hin by done. simpl in Hn. case_decide; [|done]. injection Hin as <-. lia.
Qed.

Lemma jobs_nodup : NoDup jobs.
Proof. apply (bool_decide_unpack _). vm_compute. exact I. Qed.
Lemma jobs_length : length jobs = 300%nat.
Proof. vm_compute. reflexivity. Qed.
