(* ===== verification/DemoProps.v ===== *)
(** * Properties of the demonstration

    The closing line of its concurrent section is the same whatever the
    interleaving; and, as a test of the model, the tour against one server and on
    one tape tells what its narration promises. *)

From Stdlib Require Import Strings.Byte Strings.Ascii.
From stdpp Require Import pretty.
From S2P Require Import Prelude ContainerHeap Msg Heaps LogStore Queue QueueInv QueueSpec QueueOps Calls Encoding Wal WalOps WireCodec Manager Recovery ManagerOps ManagerRun Receive Api ApiOps Server ServerOps ThreadOps ThreadRun Demo DemoOps.
Import (hints) WireCodec.

Implicit Types (q : Queue) (M : Manager) (n : string).

#[local] Instance as_stored : Ranging := { range A x := map_to_list x }.
#[local] Instance as_stored_laws : RangingLaws.
Proof. by split. Qed.

(** ** A server just started, and a calm network *)

Definition quiet_disk : nat → wenv := λ _, WEnv unixEpoch None None.
Definition M_fresh : Manager :=
  match Open 0 0 (OEnv (Ok []) quiet_scan (λ _, 0)) 0 with
  | Some (Ok M) => M
  | _ => MkManager ∅ (WLog (OpenWAL [] 0) 0) 0 false
  end.

Lemma M_fresh_sound : sound M_fresh.
Proof.
  assert (mreach quiet_disk 0 M_fresh) as Hr by (apply (mr_open quiet_disk 0 0 0 (λ _, 0)); vm_compute; reflexivity).
  intros n q Hq. pose proof (hy_queue _ _ _ (mreach_healthy _ _ _ Hr) n q Hq) as Hqo. split; apply Hqo.
Qed.

(** Two bytes for each number. *)
Definition bytes_of (k : nat) : list byte :=
  [default x00 (Byte.of_nat (k / 256)); default x00 (Byte.of_nat (k mod 256))].
Definition at_ms (t : Z) : Time := 1000 * Second + t * Millisecond.

(** ** The tour *)

(** The [j]-th request of the tour arrives at [t] milliseconds, the pump just
    before it. *)
Definition step_at (j : nat) (t : Z) : entry :=
  Entry 0 [PumpTick (at_ms t)] false (at_ms t) (λ i, bytes_of (1000 + 16 * j + i))
    [Round (at_ms t) (λ i, bytes_of (1000 + 16 * j + i)) (at_ms t) [] TimedOut (at_ms t)] quiet_scan.

(** When they arrive; the pauses are those the program makes. *)
Definition tour_times : list Z :=
  [0; 1; 1] ++ [2; 2; 2; 2; 3; 4; 5; 6; 7] ++ [10; 11; 12; 13; 1715; 1716] ++
  [1800; 1801; 1802; 2903; 2904; 2905; 2906; 3307; 3708; 4109; 4110; 4111] ++
  [5000; 5001; 5002; 5003; 5004; 5005; 5006; 5007; 5008; 5009; 5010; 5011] ++
  [6000; 6001; 6002; 6003; 6004; 6005; 6006; 6007; 6008; 6009].

(** Sections 1 to 6. *)
Definition tour : client :=
  waitForServer 40 (λ up,
    if up : bool then
      Clock (λ now,
      let name := "orders-" +:+ pretty (Z.rem now 100000) in
      section1 name (section2 name (section3 name (section4 name (section5 name (section6 name Finish))))))
    else Exit 1).

(** What is in the lines, titles apart. *)
Definition told (ls : list line) : list (list arg) :=
  args <$> List.filter (λ l, negb (String.eqb (format l) "%s")) ls.

(** The tour tells the truth, on one tape.  Against a server just started, with the
    pauses it makes, sections 1 to 6 of the demo run to their end without an error
    and print: the urgent order first and the others newest first; the delayed
    one only after its delay; no second lease while the first runs, a second
    attempt after it has run out, and none while heartbeats arrive; three failed
    attempts, then one dead letter, then none after the replay; and both audited
    events again from the bookmark in the log. *)
Example tour_tells_the_truth :
  (λ v, (told v.1.2, v.2)) <$> run quiet_disk tour (imap step_at tour_times) M_fresh =
  Some
    ([[AStr "orders-0"];
      [ANum 1; AStr "fraud-review (urgent)"; ANum 9; ANum 3];
      [ANum 2; AStr "checkout-C (normal)"; ANum 1; ANum 4];
      [ANum 3; AStr "checkout-B (normal)"; ANum 1; ANum 2];
      [ANum 4; AStr "checkout-A (normal)"; ANum 1; ANum 1];
      [ANum 1; AStr "ship-order (normal, immediate)"; ANum 1; ANum 6];
      [ANum 1; AStr "reminder-email (urgent, delayed 1.5s)"; ANum 9; ANum 5];
      [AStr "charge-card"]; []; [ANum 2; AStr "charge-card"];
      [ANum 1]; [ANum 2]; [ANum 3]; [];
      [ANum 1]; [ANum 2]; [ANum 3]; [ANum 1; ANum 0]; [ANum 0; ANum 1];
      [ANum 0; ANum 5845];
      [ANum 1; AStr "audit-event-2"; ANum 1; ANum 13];
      [ANum 2; AStr "audit-event-1"; ANum 1; ANum 12]], Finished).
Proof. vm_compute. reflexivity. Qed.

(** ** Six producers, six consumers *)

(** The creation of the queue. *)
Lemma create_fast `{JsonLaws} `{RangingLaws} (envs : nat → wenv) T1 fast e M M' r :
  timely_entry T1 e → sound M →
  send envs e (AskQueues (Config.Mk fast "fifo" false 0 30000)) M = Some (M', Answered r) → status r < 400 →
  at_fast T1 fast [] [] [] M'.
Proof.
  intros [Hid _] Hs. unfold send. destruct (session envs (e_before e) M) as [[M1 rs]|] eqn:Es; [|done]. simpl_bind.
  cbn iota beta. destruct (e_lost e); [done|]. cbn [request_of serve].
  destruct (createQueue_fine envs (Decoded (Config.Mk fast "fifo" false 0 30000)) M1) as (M2 & r2 & E & Hs2 & _).
  { eapply idle_sound; [exact Hid|exact Hs|exact Es]. }
  rewrite E. simpl_bind. intros [= <- <-] Hr. split; [done|]. revert E. unfold createQueue. cbn [decode].
  change (bool_decide (Config.Mode (Config.Mk fast "fifo" false 0 30000) = "")) with false. cbn iota.
  change ((Config.VisibilityTimeoutMS (Config.Mk fast "fifo" false 0 30000) <? 0) ||
    (maxVisibility <? i64 (i64 (Config.VisibilityTimeoutMS (Config.Mk fast "fifo" false 0 30000)) * Millisecond))) with false.
  cbn iota. destruct (Create envs (Config.Mk fast "fifo" false 0 30000) M1) as [M3 [q|x]] eqn:Ec.
  2:{ intros [= <- <-]. simpl in Hr. by destruct (_ : bool). }
  intros [= -> _]. assert (queues M2 !! fast = Some (New (Config.Mk fast "fifo" false 0 30000))) as Hq.
  { revert Ec. unfold Create. cbn [Config.Name]. case_bool_decide; [done|]. destruct (containsAny _ _); [done|].
    destruct (_ && _); [done|]. destruct (queues M1 !! fast); [done|].
    destruct (AppendSync _ _) as [w [x|]]; [done|]. intros [= <- _]. apply lookup_insert_eq. }
  eexists. split; [exact Hq|]. split.
  - apply New_wf.
  - intros x P m. by rewrite New_abs.
  - by rewrite New_abs.
  - done.
Qed.

Lemma tape_suffix T1 tape' tape :
  suffix tape' tape → Forall (timely_entry T1) tape → NoDup (tape_ids tape) →
  Forall (timely_entry T1) tape' ∧ NoDup (tape_ids tape').
Proof.
  intros [l ->] [_ Ht]%Forall_app. unfold tape_ids. rewrite fmap_app, join_app. by intros (_ & _ & ?)%NoDup_app.
Qed.

(** The consumers before their first request. *)
Lemma draining_start `{JsonLaws} `{RangingLaws} (envs : nat → wenv) T1 fast used St M :
  at_fast T1 fast used [] St M → draining T1 fast used [] St [] (replicate workers Polling) ∅ M.
Proof. intros Hf. split; [exact Hf|done|done|by intros [? _]%elem_of_replicate]. Qed.

(** A run of it: the workers take turns, and each asks once more than it is
    given anything. *)
Definition plain (who : nat) : entry := Entry who [FlushTick None] false (at_ms 10) (λ _, bytes_of 1000) [] quiet_scan.
Definition asking (who k : nat) : entry :=
  Entry who [PumpTick (at_ms 10)] false (at_ms 20) (λ _, [])
    [Round (at_ms 20) (λ i, bytes_of (20 * k + i)) (at_ms 20) [] TimedOut (at_ms 320);
     Round (at_ms 320) (λ i, bytes_of (20 * k + 10 + i)) (at_ms 320) [] TimedOut (at_ms 320)] quiet_scan.
Definition in_turn : list nat := List.seq 0 workers.
Definition polls_of (k : nat) : list entry := (λ c, asking c (workers * k + c)) <$> in_turn.
Definition given (k : nat) : list entry :=
  polls_of k ++ mjoin (replicate 10 (mjoin (replicate 2 (plain <$> in_turn)))).
Definition bulk_tape : list entry :=
  replicate 3 (plain 0) ++ mjoin (replicate each (plain <$> in_turn)) ++ replicate 2 (plain 0) ++
  mjoin (given <$> List.seq 0 5) ++ polls_of 5 ++ [plain 0].

(** C27: the demo's closing line is a promise.  However the requests of the six
    producers and the six consumers interleave on the queue, and whatever the pump
    and the flusher do in between: if the clock readings of the polls and the pump
    are within thirty seconds, the length of the leases, and receipts do not
    repeat, then a run of the section that ends without an error has counted every
    one of the 300 messages exactly once, and prints no duplicate and no loss. *)
Theorem demo_counts_each_once `{JsonLaws} `{RangingLaws} (envs : nat → wenv) T1 tape M M' out :
  sound M → Forall (timely_entry T1) tape → NoDup (tape_ids tape) →
  run envs (section7 Finish) tape M = Some (M', out, Finished) →
  last out = Some (Line "duplicates: %d, lost: %d" [ANum 0; ANum 0]).
Proof.
  intros Hs Ht Hnd E. fold (ends envs (section7 Finish) tape M M' out) in E. unfold section7, section, printf in E.
  apply ends_say in E as (out1 & -> & E). apply ends_clock in E as (e0 & tape1 & -> & E). cbv zeta in E.
  set (fast := "bulk-" +:+ pretty (Z.rem (e_now e0) 100000)) in E. apply Forall_cons in Ht as [_ Ht].
  apply NoDup_app in Hnd as (_ & _ & Hnd).
  apply ends_post in E as (e1 & tape2 & M1 & r & -> & Es & Hr & E). apply Forall_cons in Ht as [He1 Ht].
  apply NoDup_app in Hnd as (_ & _ & Hnd). pose proof (create_fast envs T1 fast e1 M M1 r He1 Hs Es Hr) as Hf.
  apply ends_clock in E as (e2 & tape3 & -> & E). apply Forall_cons in Ht as [_ Ht].
  apply NoDup_app in Hnd as (_ & _ & Hnd).
  apply ends_produce in E as (M2 & tape4 & Ep & E).
  destruct (produce_ok envs T1 fast [] tape3 (replicate workers 0%nat) [] M1 M2 tape4 Ht Hf) as (St & Hf2 & HS & Hsuf);
    [reflexivity|reflexivity|apply Forall_replicate; unfold each; lia|exact Ep|]. destruct (tape_suffix T1 _ _ Hsuf Ht Hnd) as [Ht4 Hnd4].
  apply ends_clock in E as (e4 & tape5 & -> & E). apply Forall_cons in Ht4 as [_ Ht5].
  apply NoDup_app in Hnd4 as (_ & _ & Hnd5).
  apply ends_clock in E as (e5 & tape6 & -> & E). apply Forall_cons in Ht5 as [_ Ht6].
  apply NoDup_app in Hnd5 as (_ & _ & Hnd6).
  apply ends_drain in E as (M3 & seen & tape7 & Ed & E).
  destruct (drain_ok envs T1 fast tape6 [] [] St [] (replicate workers Polling) ∅ M2 M3 seen tape7 Ht6 Hnd6) as (C & -> & HC);
    [by intros x _ ?%not_elem_of_nil|by apply draining_start|unfold workers; simpl; lia|exact Ed|].
  assert (NoDup C) as HndC by (rewrite HC, HS; apply jobs_nodup).
  assert (size (foldr tally ∅ C) = 300%nat) as Hsize by (rewrite tally_size, HC, HS by done; apply jobs_length).
  cbv zeta in E. rewrite Hsize, tally_dupes in E by done.
  apply ends_say in E as (out2 & -> & E). apply ends_clock in E as (e7 & tape8 & -> & E).
  apply ends_say in E as (out3 & -> & E). apply ends_say in E as (out4 & -> & E). by injection E as _ <-.
Qed.

(** The hypotheses hold of [bulk_tape], and the section ends on it. *)
Lemma bulk_runs : (λ v, v.2) <$> run quiet_disk (section7 Finish) bulk_tape M_fresh = Some Finished.
Proof. vm_cast_no_check (eq_refl (Some Finished)). Qed.

(** The number in a receipt. *)
Definition digit (c : ascii) : nat :=
  let n := nat_of_ascii c in if Nat.leb 97 n then n - 87 else n - 48.
Definition number_of (r : string) : nat := foldl (λ v c, 16 * v + digit c)%nat 0%nat (String.list_ascii_of_string r).

Lemma bulk_receipts : number_of <$> tape_ids bulk_tape = List.seq 0 720.
Proof. vm_compute. reflexivity. Qed.

Lemma bulk_timely : Forall (timely_entry (at_ms 320)) bulk_tape.
Proof. by repeat constructor. Qed.

Lemma demo_counts_each_once_witness :
  ∃ M' out, run quiet_disk (section7 Finish) bulk_tape M_fresh = Some (M', out, Finished) ∧
  last out = Some (Line "duplicates: %d, lost: %d" [ANum 0; ANum 0]).
Proof.
  destruct (run quiet_disk (section7 Finish) bulk_tape M_fresh) as [[[M' out] o]|] eqn:E.
  - exists M', out. pose proof bulk_runs as Ho. rewrite E in Ho. injection Ho as ->. split; [reflexivity|].
    apply (demo_counts_each_once quiet_disk (at_ms 320) bulk_tape M_fresh M' out M_fresh_sound bulk_timely).
    + apply (NoDup_fmap_1 number_of). rewrite bulk_receipts. apply NoDup_ListNoDup, seq_NoDup.
    + exact E.
  - exfalso. pose proof bulk_runs as Ho. rewrite E in Ho. discriminate Ho.
Defined.
